(* ===== verification/_CoqProject ===== *)
-Q . S2P
Prelude.v
Varint.v
InternalKey.v
Cmp.v
Source.v
Kmerge.v
LoserTree.v
HeapMerger.v
Mergers.v
Rounds.v
Strategy.v
Checksum.v
Footer.v
Block.v
BlockBuilders.v
Properties.v
SstBuilder.v
FileReader.v
SstReader.v
Loader.v
Compaction.v
Sharding.v
Oracle.v
Fuzzer.v
Generator.v
Failures.v
EndToEnd.v
Canonical.v
Termination.v
Tasks.v
Decoded.v
Text.v
Console.v
Tools.v
Damage.v
Tests.v
