(* ===== verification/Prelude.v ===== *)
(** * Verification of the SST compactor

    The program merges sorted RocksDB tables (SST files) into one: it loads
    table files, merges their entries, lets a strategy keep or drop each entry,
    and writes the survivors as a new block-based table.  The sources are
    three crates: [compactor] (library and two command line tools), [oracle]
    (a naive reference compaction) and [fuzzer] (a differential test of the
    one against the other).  This library models them definition by
    definition and proves them correct.

    ** Parts, files, sources

    Paths are relative to [src/crates/compactor/src/] unless they start with
    a crate name.

    - [Prelude]: outcomes (value, error, panic, out of fuel) and their monad,
      machine integers, byte slices, comparison functions and sorting, the
      tactics and rewrite databases the other files share.
    - [Varint]: [format/varint.rs].  [InternalKey]: [format/internal_key.rs].
    - [Cmp]: [merge/cmp.rs], the comparators behind the class
      [KeyComparator], with the laws [KeyComparatorLaws] that mergers use.
    - [Source]: [merge/source.rs], the class [MergeSource] with its laws,
      [VecSource], [ArenaSource] and its builder.
    - [Kmerge]: the abstract specification of merging, the relation [kmerge],
      and the class [KWayMerge] whose law [merge_refines] both mergers of
      [merge/merger.rs] discharge: [LoserTree] and [HeapMerger].  [Mergers]
      draws the consequences, [Rounds] states the invariants of the loser
      tree and of arena sources as state machines; those of the heap are in
      [HeapMerger].
    - [Strategy]: [compaction/strategy.rs] and the merge callback of
      [compaction/mod.rs]; the class [CompactionStrategy] with its laws.
    - [Checksum], [Footer]: [format/footer.rs] and the checksums of
      [format/block.rs].  [Block]: [format/block.rs].  [BlockBuilders]:
      [format/block_builder.rs].  [Properties]: [format/properties.rs].
      [SstBuilder]: [format/sst_builder.rs].
    - [FileReader]: [io/mod.rs].  [SstReader]: [sst/mod.rs], reading a table
      block by block.  [Loader]: [load_arena_source] of [compaction/mod.rs],
      reading it in one go.  [Decoded]: what both can return on any bytes.
    - [Compaction]: [compact], [compact_with_strategy], [compact_sharded] of
      [compaction/mod.rs]; [Sharding] proves the sharded job equal to the
      unsharded one; [Failures] malformed keys; [EndToEnd] composes reading,
      merging, selecting and writing; [Canonical] compares jobs with each
      other; [Termination] shows that all of it ends; [Tasks] has the blocking
      tasks of [compact_sharded] and the thread that awaits them, step by step.
    - [Oracle]: [oracle/src/lib.rs].  [Fuzzer], [Generator]:
      [fuzzer/src/lib.rs].
    - [Text], [Console]: what the tools use of the standard library and of the
      operating system.  [Tools]: [bin/compact_files.rs], [bin/compactor.rs].
    - [Damage]: what the readers and the tools do with a table file one of
      whose blocks was damaged.
    - [Tests]: the inline test modules of [compaction/strategy.rs],
      [merge/cmp.rs] and [oracle/src/lib.rs], and the tests with fixed inputs
      under [compactor/tests/], run on the model.

    ** How code becomes definitions

    A function that can fail returns an [outcome]: [Err] is the [Err] of its
    [Result], [Panic] a failed [assert!], [unwrap], index or checked addition,
    [OutOfFuel] the end of a loop's fuel, which the theorems exclude.  [?] and
    early returns are binds.  A method taking [&mut self] returns the new
    value of [self]; a callback that captures variables takes and returns
    their state.  Plain [+ - *] on integers panics with overflow checks and
    wraps without: the class [Profile] says which, and theorems hold for both
    unless they fix it.  [as u32] and the like are the modulo functions.
    Traits are classes of operations; what their users rely on is a second
    class of laws, and each implementation comes with the instance.

    [async] functions run in place where every [.await] awaits a call just
    made.  [compact_sharded] spawns tasks: its definition in [Compaction] runs
    them one after the other, and [Tasks] has the pool as a step relation, in
    which the tasks and the awaiting thread move in any order, one iteration
    of a merge loop at a time; every schedule is finite and returns what the
    definition returns.  A panic inside a spawned task becomes the error the
    code makes of it.

    ** What is a parameter

    The crates the program only calls are classes: the hash functions
    ([ChecksumLib]), the decompressors ([CompressLib]), the standard library's
    [BinaryHeap] (in [HeapMerger], with a list instance), the random generator
    ([Rng]), and the file system ([FileSystem]).  Their laws are their
    documentation; nothing is assumed of the hash functions by the round-trip
    theorems, which hold for any.

    ** Fuel

    Loops over a cursor are given fuel that their theorems prove enough: ten
    rounds for a varint; the length of the data for the entries of a block,
    each of which takes at least a byte; the height of the tree for a replay;
    the number of entries for a merge; twenty digits for a [u64] numeral.

    ** What is proved

    - The result: compaction of sorted sources within the format's limits
      ([fits]: keys and values below 4 GiB, the whole table too) returns a
      table with the newest version of every key, unless it is a deletion; for
      inputs of puts and deletions every key reads as before
      ([EndToEnd.compact_correct]);
      snapshot-preserving compaction keeps what a snapshot reader sees; the
      sharded job equals the unsharded one, whatever the schedule.  A job
      depends on the entries of its inputs alone, can be done in stages, and
      is idempotent ([Canonical]).  The oracle computes the same list
      ([Fuzzer.compactor_matches_oracle]), also on everything the input
      generator can draw, which is characterised ([Generator.fuzz_input]).
    - Range deletions pass through the program as if they were values, as the
      sources say themselves, and merge operands are not combined.  Theorems
      that speak of reads exclude both ([Strategy.plain]);
      [EndToEnd.range_deletion_lost] is a job that loses a range deletion.
    - The tools: compacting files of puts and deletions and dumping the result
      shows the live entries of the inputs; the first input that cannot be read is named; a
      run that gives up leaves no trace but its message ([Tools]).
    - Merging: both mergers refine [kmerge], agree, keep their invariants and
      never get stuck ([Mergers], [Rounds]).
    - Formats: round trips of varints, internal keys, block trailers, data
      and index blocks, properties, footers and whole tables; which bytes the
      decoders accept, compressed blocks and old footers included; decoded
      values are within their integer types; what loads from an arbitrary
      file is backed by blocks that match their checksums; equality of the two
      readers on arbitrary files; lookups through the index.  A table file is
      nothing but its blocks and its footer ([SstBuilder.sst_layout]).
    - Damage: a change inside one block of a table stays in that block.  In
      the index or the metaindex it is an error of both readers, in a data
      block an error of the loader and of a walk once it has delivered the
      blocks before; the properties are not read ([Damage.damage_located]).
      The tools report it, and print what precedes it ([Damage.damage_dumped]).
    - Termination: every loop ends on every input ([Termination]).
    - Errors and limits: short files, unreadable inputs, malformed keys,
      failing and panicking shards, the underflow in [decode_footer],
      arena offsets past 4 GiB.

    ** Not modelled

    - [main] of the tools, which collects arguments and starts a runtime, and
      the formatting of output lines: a line is its template and arguments.
    - Capacity hints: a pre-sized vector is an empty one.
    - Failures of the machine: exhausted memory, a closed standard output,
      files changing while they are read.
    - The decompressors' algorithms and the hash functions.
    - The randomized tests and the one on a megabyte file, which theorems on
      all inputs subsume; the tests that run the RocksDB binaries; the
      benchmarks.
    - Inside one merge step, reads of a shared arena by several tasks: arenas
      are immutable once built, so the order of the reads is not observable.

    ** Extending

    The source files are modelled throughout; what is left is depth: the
    smallest bounds on table sizes, which [fits] takes with room to spare, and
    tables damaged in several blocks at once. *)

From Stdlib Require Import ZArith Lia.
From Stdlib Require Export Sorting.Permutation.
From Stdlib Require Strings.String Strings.Byte.
From stdpp Require Export prelude countable strings sorting sets list.
From coqutil Require Export Byte.

#[global] Open Scope Z_scope.

Declare Scope compactor_scope.
Delimit Scope compactor_scope with compactor.
#[global] Open Scope compactor_scope.

(** ** Errors, panics and the outcome monad

    A Rust function of type [Result<A, String>] has four observable ends in
    the model: a value, an error value, a panic (failed [assert!], index out
    of range, arithmetic overflow with overflow checks on, [unwrap] of
    nothing), and - for loops written with fuel - fuel exhaustion, which the
    termination theorems exclude.  An error message is its format template
    and the integers formatted into it; [MsgOf] is a message that also formats
    the error of the call that failed. *)

Inductive error : Type :=
  | Msg (template : string) (args : list Z)
  | MsgOf (template : string) (args : list Z) (cause : error).

Inductive outcome (A : Type) : Type :=
  | Ok (a : A)
  | Err (e : error)
  | Panic
  | OutOfFuel.
Arguments Ok {A} a.
Arguments Err {A} e.
Arguments Panic {A}.
Arguments OutOfFuel {A}.

#[export] Instance outcome_ret : MRet outcome := fun A a => Ok a.
#[export] Instance outcome_bind : MBind outcome := fun A B f m =>
  match m with
  | Ok a => f a
  | Err e => Err e
  | Panic => Panic
  | OutOfFuel => OutOfFuel
  end.

#[export] Instance outcome_fmap : FMap outcome := fun A B f m => m ≫= fun a => Ok (f a).

(** [opt.ok_or(e)?] and [opt.unwrap()]. *)
Definition ok_or {A} (o : option A) (e : error) : outcome A :=
  match o with Some a => Ok a | None => Err e end.
Definition unwrap {A} (o : option A) : outcome A :=
  match o with Some a => Ok a | None => Panic end.
(** [assert!(b)]. *)
Definition assert (b : bool) : outcome unit := if b then Ok tt else Panic.

(** [r.map_err(f)?] on the [Result] of a library call. *)
Definition map_err {A} (r : error + A) (f : error -> error) : outcome A :=
  match r with inl e => Err (f e) | inr a => Ok a end.

#[export] Instance error_eq_dec : EqDecision error.
Proof. solve_decision. Defined.
#[export] Instance outcome_eq_dec `{EqDecision A} : EqDecision (outcome A).
Proof. solve_decision. Defined.

(** [is_Ok m]: the computation returns a value. *)
Definition is_Ok {A} (m : outcome A) : Prop := exists a, m = Ok a.

Lemma bind_Ok {A B} (f : A -> outcome B) a : (Ok a ≫= f) = f a.
Proof. reflexivity. Qed.

Lemma fmap_Ok {A B} (f : A -> B) a : f <$> Ok a = Ok (f a).
Proof. reflexivity. Qed.

Lemma bind_Ok_inv {A B} (f : A -> outcome B) (m : outcome A) b :
  m ≫= f = Ok b -> exists a, m = Ok a /\ f a = Ok b.
Proof. destruct m; cbn; intros; simplify_eq; eauto. Qed.

Lemma fmap_Ok_inv {A B} (f : A -> B) (m : outcome A) b :
  f <$> m = Ok b -> exists a, m = Ok a /\ b = f a.
Proof. destruct m; cbn; intros; simplify_eq; eauto. Qed.

Lemma ok_or_inv {A} (o : option A) e a : ok_or o e = Ok a -> o = Some a.
Proof. destruct o; cbn; intros; simplify_eq; done. Qed.

(** Walks a successful computation: every step returned, every test that
    leads to an error was passed. *)
Ltac inv_ok H :=
  lazymatch type of H with
  | ?m ≫= _ = Ok _ =>
      let x := fresh "x" in let Hx := fresh "Hx" in
      apply bind_Ok_inv in H as (x & Hx & H); cbv beta in H; inv_ok H
  | (if ?b then Err _ else _) = Ok _ =>
      let E := fresh "E" in destruct b eqn:E; [discriminate H|]; inv_ok H
  | (if ?b then Panic else _) = Ok _ =>
      let E := fresh "E" in destruct b eqn:E; [discriminate H|]; inv_ok H
  | _ => idtac
  end.

(** ** Machine integers

    [u8] values are [byte]s; wider integers are [Z] with their width written
    out.  [usize] is 64 bits wide.  Plain [+ - *] on integers panics when the
    build has overflow checks (the dev profile) and wraps when it has not (the
    release profile): the profile is a parameter of every definition whose
    arithmetic can overflow. *)

Class Profile : Type := overflow_checks : bool.

Definition as_u8 (z : Z) : Z := z mod 2 ^ 8.
Definition as_u32 (z : Z) : Z := z mod 2 ^ 32.
Definition as_u64 (z : Z) : Z := z mod 2 ^ 64.
Definition as_i64 (z : Z) : Z :=
  let u := z mod 2 ^ 64 in if u <? 2 ^ 63 then u else u - 2 ^ 64.

Definition usize_MAX : Z := 2 ^ 64 - 1.

(** Or-ing a shifted value over small bits adds it. *)
Lemma lor_shiftl_add a b n :
  0 <= n -> 0 <= a < 2 ^ n -> Z.lor a (b * 2 ^ n) = a + b * 2 ^ n.
Proof.
  intros Hn Ha. rewrite <- Z.add_lor_land.
  enough (Z.land a (b * 2 ^ n) = 0) as -> by lia.
  apply Z.bits_inj'. intros i Hi. rewrite Z.land_spec, Z.bits_0.
  destruct (Z.ltb_spec i n).
  - rewrite Z.mul_pow2_bits_low by lia. apply andb_false_r.
  - rewrite <- (Z.mod_small a (2 ^ n)), Z.mod_pow2_bits_high by lia. done.
Qed.

(** The result of an operation whose exact value is [exact] and whose value
    at its width is [wrapped]. *)
Definition arith `{Profile} (in_range : bool) (exact wrapped : Z) : outcome Z :=
  if in_range then Ok exact
  else if overflow_checks then Panic else Ok wrapped.

Definition in_u (w z : Z) : bool := (0 <=? z) && (z <? 2 ^ w).
Definition in_i64 (z : Z) : bool := (- 2 ^ 63 <=? z) && (z <? 2 ^ 63).

Definition add_u32 `{Profile} (a b : Z) : outcome Z :=
  arith (in_u 32 (a + b)) (a + b) (as_u32 (a + b)).
Definition add_u64 `{Profile} (a b : Z) : outcome Z :=
  arith (in_u 64 (a + b)) (a + b) (as_u64 (a + b)).
Definition sub_u64 `{Profile} (a b : Z) : outcome Z :=
  arith (0 <=? a - b) (a - b) (as_u64 (a - b)).
Definition mul_u64 `{Profile} (a b : Z) : outcome Z :=
  arith (in_u 64 (a * b)) (a * b) (as_u64 (a * b)).
Definition add_i64 `{Profile} (a b : Z) : outcome Z :=
  arith (in_i64 (a + b)) (a + b) (as_i64 (a + b)).
Definition sub_i64 `{Profile} (a b : Z) : outcome Z :=
  arith (in_i64 (a - b)) (a - b) (as_i64 (a - b)).

Lemma in_u_true w z : in_u w z = true <-> 0 <= z < 2 ^ w.
Proof. unfold in_u. lia. Qed.

Lemma add_u32_ok `{Profile} a b : 0 <= a + b < 2 ^ 32 -> add_u32 a b = Ok (a + b).
Proof. intros Hr. unfold add_u32, arith. by rewrite (proj2 (in_u_true 32 _) Hr). Qed.
Lemma add_u64_ok `{Profile} a b : 0 <= a + b < 2 ^ 64 -> add_u64 a b = Ok (a + b).
Proof. intros Hr. unfold add_u64, arith. by rewrite (proj2 (in_u_true 64 _) Hr). Qed.
Lemma sub_u64_ok `{Profile} a b : b <= a -> sub_u64 a b = Ok (a - b).
Proof. intros Hr. unfold sub_u64, arith. by replace (0 <=? a - b) with true by lia. Qed.
Lemma mul_u64_ok `{Profile} a b : 0 <= a * b < 2 ^ 64 -> mul_u64 a b = Ok (a * b).
Proof. intros Hr. unfold mul_u64, arith. by rewrite (proj2 (in_u_true 64 _) Hr). Qed.

Lemma as_u32_small z : 0 <= z < 2 ^ 32 -> as_u32 z = z.
Proof. intros. unfold as_u32. by rewrite Z.mod_small. Qed.
Lemma as_u64_small z : 0 <= z < 2 ^ 64 -> as_u64 z = z.
Proof. intros. unfold as_u64. by rewrite Z.mod_small. Qed.
Lemma as_u32_range z : 0 <= as_u32 z < 2 ^ 32.
Proof. unfold as_u32. apply Z.mod_pos_bound. lia. Qed.
Lemma as_u64_range z : 0 <= as_u64 z < 2 ^ 64.
Proof. unfold as_u64. apply Z.mod_pos_bound. lia. Qed.

(** [debug_assert!(b)] is checked in the same builds as arithmetic overflow. *)
Definition debug_assert `{Profile} (b : bool) : outcome unit :=
  if overflow_checks then assert b else Ok tt.

(** [u32::try_from(z).expect(..)] on a [u64]. *)
Definition try_into_u32 (z : Z) : outcome Z := if z <? 2 ^ 32 then Ok z else Panic.

(** ** Byte slices

    [Vec<u8>], [&[u8]] and the bytes of a [String] are [list byte].  Indices
    and lengths are [usize] values; [get_range] and [get_at] are the checked
    slice accesses [s.get(a..b)] and [s.get(i)], [index_range] and [index_at]
    the panicking ones [s[a..b]] and [s[i]].  The length of a buffer that
    exists in memory is below [isize::MAX], so sums of a length and an offset
    inside the buffer are written with plain [+]. *)

#[export] Instance byte_eq_dec : EqDecision byte := Stdlib.Strings.Byte.byte_eq_dec.
#[export] Program Instance byte_countable : Countable byte :=
  inj_countable' byte.unsigned byte.of_Z _.
Next Obligation. apply byte.of_Z_unsigned. Qed.

Abbreviation bytes := (list byte).
Abbreviation str := Stdlib.Strings.String.list_byte_of_string.

Definition len {A} (l : list A) : Z := Z.of_nat (length l).

Definition get_range {A} (l : list A) (a b : Z) : option (list A) :=
  if (0 <=? a) && (a <=? b) && (b <=? len l)
  then Some (take (Z.to_nat (b - a)) (drop (Z.to_nat a) l))
  else None.
Definition get_at {A} (l : list A) (i : Z) : option A :=
  if (0 <=? i) && (i <? len l) then l !! Z.to_nat i else None.

Definition index_range {A} (l : list A) (a b : Z) : outcome (list A) :=
  unwrap (get_range l a b).
Definition index_at {A} (l : list A) (i : Z) : outcome A := unwrap (get_at l i).

(** [v[i] = x] on a [Vec]. *)
Definition set_at {A} (l : list A) (i : Z) (x : A) : outcome (list A) :=
  if (0 <=? i) && (i <? len l) then Ok (<[Z.to_nat i := x]> l) else Panic.

(** [v[a..b].copy_from_slice(src)]. *)
Definition copy_from_slice {A} (l : list A) (a b : Z) (src : list A) : outcome (list A) :=
  if (0 <=? a) && (a <=? b) && (b <=? len l) && (len src =? b - a)
  then Ok (take (Z.to_nat a) l ++ src ++ drop (Z.to_nat b) l)
  else Panic.

(** [x.to_le_bytes()] at a width of [n] bytes, [from_le_bytes] and
    [from_be_bytes]. *)
Fixpoint to_le_bytes (n : nat) (z : Z) : bytes :=
  match n with
  | O => []
  | S n' => byte.of_Z z :: to_le_bytes n' (Z.shiftr z 8)
  end.
Fixpoint from_le_bytes (bs : bytes) : Z :=
  match bs with
  | [] => 0
  | b :: bs' => byte.unsigned b + Z.shiftl (from_le_bytes bs') 8
  end.
Definition from_be_bytes (bs : bytes) : Z := from_le_bytes (rev bs).

Section Slices.
Context {A : Type}.
Implicit Types (l p m s : list A) (a b i : Z).

Lemma len_nonneg l : 0 <= len l.
Proof. unfold len. lia. Qed.
Lemma len_nil : len (@nil A) = 0.
Proof. reflexivity. Qed.
Lemma len_cons (x : A) l : len (x :: l) = 1 + len l.
Proof. unfold len. cbn [length]. lia. Qed.
Lemma len_app l m : len (l ++ m) = len l + len m.
Proof. unfold len. rewrite length_app. lia. Qed.
Lemma len_zero l : len l = 0 <-> l = [].
Proof. unfold len. destruct l; cbn; split; intros; try done; lia. Qed.
Lemma len_take n l : len (take n l) = Z.min (Z.of_nat n) (len l).
Proof. unfold len. rewrite length_take. lia. Qed.
Lemma len_drop n l : len (drop n l) = Z.max 0 (len l - Z.of_nat n).
Proof. unfold len. rewrite length_drop. lia. Qed.
Lemma len_insert n (x : A) l : len (<[n := x]> l) = len l.
Proof. unfold len. by rewrite length_insert. Qed.
Lemma len_replicate n (x : A) : len (replicate n x) = Z.of_nat n.
Proof. unfold len. by rewrite length_replicate. Qed.

Lemma get_range_app p m s a b :
  a = len p -> b = len p + len m -> get_range (p ++ m ++ s) a b = Some m.
Proof.
  intros -> ->. unfold get_range.
  pose proof (len_nonneg p); pose proof (len_nonneg m); pose proof (len_nonneg s).
  replace (_ && _ && _) with true by (rewrite !len_app; lia).
  f_equal. unfold len in *. rewrite Nat2Z.id, drop_app_length.
  replace (Z.to_nat _) with (length m) by lia. by rewrite take_app_length.
Qed.

Lemma get_range_Some l a b m :
  get_range l a b = Some m <->
  exists p s, l = p ++ m ++ s /\ a = len p /\ b = len p + len m.
Proof.
  split.
  - unfold get_range. case_match eqn:E; [|done]. intros [= <-].
    exists (take (Z.to_nat a) l), (drop (Z.to_nat (b - a)) (drop (Z.to_nat a) l)).
    rewrite !take_drop. split; [done|].
    rewrite !len_take, len_drop. lia.
  - intros (p & s & -> & -> & ->). by apply get_range_app.
Qed.

Lemma get_range_None l a b :
  get_range l a b = None <-> ~ (0 <= a <= b /\ b <= len l).
Proof.
  unfold get_range. split; case_match eqn:E; try done; intros; lia.
Qed.

Lemma get_range_len l a b m : get_range l a b = Some m -> len m = b - a.
Proof. rewrite get_range_Some. intros (p & s & -> & -> & ->). lia. Qed.

Lemma get_range_extend l t a b m :
  get_range l a b = Some m -> get_range (l ++ t) a b = Some m.
Proof.
  rewrite !get_range_Some. intros (p & s & -> & -> & ->).
  exists p, (s ++ t). by rewrite <- !(assoc_L (++)).
Qed.

Lemma get_at_app p (x : A) s i : i = len p -> get_at (p ++ x :: s) i = Some x.
Proof.
  intros ->. unfold get_at. pose proof (len_nonneg p). pose proof (len_nonneg s).
  replace (_ && _) with true by (rewrite len_app, len_cons; lia).
  unfold len. rewrite Nat2Z.id. by apply list_lookup_middle.
Qed.

Lemma index_at_app p (x : A) s i : i = len p -> index_at (p ++ x :: s) i = Ok x.
Proof. intros Hi. unfold index_at. by rewrite get_at_app. Qed.

Lemma get_at_Some l i x : get_at l i = Some x -> 0 <= i < len l /\ l !! Z.to_nat i = Some x.
Proof. unfold get_at. case_match eqn:E; [|done]. intros; split; [lia|done]. Qed.

Lemma get_at_lookup l i : 0 <= i -> get_at l i = l !! Z.to_nat i.
Proof.
  intros. unfold get_at. case_match eqn:E; [done|].
  symmetry. apply lookup_ge_None. unfold len in *. lia.
Qed.

Lemma get_at_is_Some l i : 0 <= i < len l -> exists x, get_at l i = Some x.
Proof.
  intros. rewrite get_at_lookup by lia.
  apply lookup_lt_is_Some. unfold len in *. lia.
Qed.
End Slices.

Lemma len_fmap {A B} (f : A -> B) l : len (f <$> l) = len l.
Proof. unfold len. by rewrite length_fmap. Qed.

(** Rewriting with the length lemmas, in one step. *)
Create Rewrite HintDb lens.
#[export] Hint Rewrite @len_nil @len_cons @len_app @len_insert @len_take @len_drop
  @len_fmap @len_replicate : lens.

Ltac simpl_len := autorewrite with lens in *.

(** [simpl_len] followed by arithmetic, with the lengths known non-negative. *)
Ltac len_lia :=
  simpl_len;
  repeat match goal with
  | |- context [len ?l] =>
      lazymatch goal with H : 0 <= len l |- _ => fail | _ => pose proof (len_nonneg l) end
  | _ : context [len ?l] |- _ =>
      lazymatch goal with H : 0 <= len l |- _ => fail | _ => pose proof (len_nonneg l) end
  end; lia.

Lemma set_at_ok {A} (l : list A) (i : Z) x :
  0 <= i < len l -> set_at l i x = Ok (<[Z.to_nat i := x]> l).
Proof. intros. unfold set_at. by replace ((0 <=? i) && (i <? len l)) with true by lia. Qed.

Lemma get_at_set {A} (l : list A) (i j : Z) x :
  0 <= i < len l -> get_at (<[Z.to_nat i := x]> l) j = if decide (j = i) then Some x else get_at l j.
Proof.
  intros Hi. unfold get_at. rewrite len_insert. case_match eqn:E.
  - rewrite list_lookup_insert. repeat case_decide; try done; unfold len in *; lia.
  - case_decide; [lia|done].
Qed.

Lemma get_range_prefix {A} (m s : list A) b : b = len m -> get_range (m ++ s) 0 b = Some m.
Proof. intros ->. by apply (get_range_app [] m s). Qed.
Lemma get_range_suffix {A} (p m : list A) a b :
  a = len p -> b = len p + len m -> get_range (p ++ m) a b = Some m.
Proof. intros. rewrite <- (app_nil_r m) at 1. by apply get_range_app. Qed.

Lemma get_range_at {A} (l p m s : list A) a b :
  l = p ++ m ++ s -> a = len p -> b = a + len m -> get_range l a b = Some m.
Proof. intros -> -> ->. by apply get_range_app. Qed.

(** Equality up to the bracketing of [++]. *)
Ltac reassoc := rewrite <- ?(assoc_L (++)); reflexivity.

Lemma index_range_app {A} (p m s : list A) a b :
  a = len p -> b = len p + len m -> index_range (p ++ m ++ s) a b = Ok m.
Proof. intros. unfold index_range. by rewrite get_range_app. Qed.
Lemma index_range_prefix {A} (m s : list A) b : b = len m -> index_range (m ++ s) 0 b = Ok m.
Proof. intros. unfold index_range. by rewrite get_range_prefix. Qed.
Lemma index_range_suffix {A} (p m : list A) a b :
  a = len p -> b = len p + len m -> index_range (p ++ m) a b = Ok m.
Proof. intros. unfold index_range. by rewrite get_range_suffix. Qed.

Lemma index_range_len {A} (l m : list A) a b :
  index_range l a b = Ok m -> len m = b - a /\ 0 <= a /\ b <= len l.
Proof.
  unfold index_range. destruct (get_range l a b) as [x|] eqn:E; [|done]. intros [= ->].
  split; [by apply get_range_len in E|]. apply get_range_Some in E as (p & s & -> & -> & ->). len_lia.
Qed.
Lemma index_range_is_Ok {A} (l : list A) a b :
  0 <= a <= b -> b <= len l -> exists m, index_range l a b = Ok m /\ len m = b - a.
Proof.
  intros. unfold index_range. destruct (get_range l a b) as [m|] eqn:E.
  - exists m. split; [done|]. by eapply get_range_len.
  - apply get_range_None in E. exfalso. apply E. lia.
Qed.

(** Walking a slice access past a prefix of the buffer. *)
Lemma get_range_skip {A} (p l : list A) a b :
  len p <= a -> a <= b -> get_range (p ++ l) a b = get_range l (a - len p) (b - len p).
Proof.
  intros Ha Hb. destruct (get_range l _ _) as [m|] eqn:E.
  - apply get_range_Some in E as (q & s & -> & ? & ?). rewrite (assoc_L (++)).
    apply get_range_app; len_lia.
  - apply get_range_None in E. apply get_range_None. len_lia.
Qed.
Lemma index_range_skip {A} (p l : list A) a b :
  len p <= a -> a <= b -> index_range (p ++ l) a b = index_range l (a - len p) (b - len p).
Proof. intros. unfold index_range. by rewrite get_range_skip. Qed.

Lemma index_range_here {A} (m s : list A) a b :
  a = 0 -> b = len m -> index_range (m ++ s) a b = Ok m.
Proof. intros -> ->. by apply index_range_prefix. Qed.
Lemma index_range_all {A} (l : list A) a b : a = 0 -> b = len l -> index_range l a b = Ok l.
Proof. intros -> ->. rewrite <- (app_nil_r l) at 1. by apply index_range_prefix. Qed.

(** Resolves a slice access into a concatenation of fields. *)
Ltac slice :=
  repeat (rewrite index_range_skip by len_lia);
  first [rewrite index_range_here by len_lia | rewrite index_range_all by len_lia].

Lemma copy_from_slice_app {A} (p m s src : list A) a b :
  a = len p -> b = len p + len m -> len src = len m ->
  copy_from_slice (p ++ m ++ s) a b src = Ok (p ++ src ++ s).
Proof.
  intros -> -> Hl. unfold copy_from_slice.
  replace (_ && _ && _ && _) with true by len_lia.
  unfold len. rewrite Nat2Z.id, take_app_length.
  replace (Z.to_nat _) with (length (p ++ m)) by (rewrite length_app; lia).
  by rewrite (assoc_L (++) p m s), drop_app_length.
Qed.

Lemma index_at_ok {A} (l : list A) i x : get_at l i = Some x -> index_at l i = Ok x.
Proof. unfold index_at. by intros ->. Qed.

Lemma byte_range b : 0 <= byte.unsigned b < 256.
Proof. exact (byte.unsigned_range b). Qed.
Lemma unsigned_of_Z z : byte.unsigned (byte.of_Z z) = z mod 256.
Proof. exact (byte.unsigned_of_Z z). Qed.

Lemma length_to_le_bytes n z : length (to_le_bytes n z) = n.
Proof. revert z. induction n; cbn; auto. Qed.
Lemma len_to_le_bytes n z : len (to_le_bytes n z) = Z.of_nat n.
Proof. unfold len. by rewrite length_to_le_bytes. Qed.
#[export] Hint Rewrite len_to_le_bytes : lens.

Lemma from_to_le_bytes_mod n z :
  from_le_bytes (to_le_bytes n z) = z mod 2 ^ (8 * Z.of_nat n).
Proof.
  revert z. induction n as [|n IH]; intros z; cbn [from_le_bytes to_le_bytes].
  { by rewrite Z.mod_1_r. }
  rewrite IH, unsigned_of_Z, Z.shiftl_mul_pow2, Z.shiftr_div_pow2 by lia.
  replace (8 * Z.of_nat (S n)) with (8 + 8 * Z.of_nat n) by lia.
  rewrite Z.pow_add_r, Z.rem_mul_r by lia. change (2 ^ 8) with 256. lia.
Qed.

Lemma from_to_le_bytes n z :
  0 <= z < 2 ^ (8 * Z.of_nat n) -> from_le_bytes (to_le_bytes n z) = z.
Proof. intros. rewrite from_to_le_bytes_mod. by apply Z.mod_small. Qed.

Lemma to_from_le_bytes bs : to_le_bytes (length bs) (from_le_bytes bs) = bs.
Proof.
  induction bs as [|b bs IH]; [done|]. cbn [length to_le_bytes from_le_bytes].
  pose proof (byte_range b). f_equal.
  - apply byte.unsigned_inj. rewrite unsigned_of_Z, Z.shiftl_mul_pow2 by lia.
    change (2 ^ 8) with 256. rewrite Z.mod_add by lia. by apply Z.mod_small.
  - etransitivity; [|exact IH]. f_equal.
    rewrite Z.shiftl_mul_pow2, Z.shiftr_div_pow2 by lia. change (2 ^ 8) with 256.
    rewrite Z.div_add, Z.div_small by lia. lia.
Qed.

Lemma from_le_bytes_range bs : 0 <= from_le_bytes bs < 2 ^ (8 * len bs).
Proof.
  rewrite <- (to_from_le_bytes bs) at 1 2. rewrite from_to_le_bytes_mod.
  apply Z.mod_pos_bound. unfold len. lia.
Qed.

Lemma from_le_bytes_inj a b :
  length a = length b -> from_le_bytes a = from_le_bytes b -> a = b.
Proof.
  intros Hl Hv. rewrite <- (to_from_le_bytes a), <- (to_from_le_bytes b). congruence.
Qed.

(** ** Orders given by a three-way comparison

    Rust's [Ord::cmp] and the comparators of [merge/cmp.rs] return an
    [Ordering]; [comparison] is its model ([Less], [Equal], [Greater] are
    [Lt], [Eq], [Gt]).  [CmpOrder cmp] says that [cmp] is a total preorder. *)

Class CmpOrder {A} (cmp : A -> A -> comparison) : Prop := {
  cmp_opp a b : cmp b a = CompOpp (cmp a b);
  cmp_le_trans a b c : cmp a b <> Gt -> cmp b c <> Gt -> cmp a c <> Gt
}.
Arguments cmp_opp {A} cmp {_} a b.
Arguments cmp_le_trans {A} cmp {_} a b c.

Definition cle {A} (cmp : A -> A -> comparison) (a b : A) : Prop := cmp a b <> Gt.
Definition clt {A} (cmp : A -> A -> comparison) (a b : A) : Prop := cmp a b = Lt.

#[export] Instance cle_dec {A} (cmp : A -> A -> comparison) a b : Decision (cle cmp a b).
Proof. unfold cle. solve_decision. Defined.

#[export] Instance clt_dec {A} (cmp : A -> A -> comparison) a b : Decision (clt cmp a b).
Proof. unfold clt. solve_decision. Defined.

Section CmpOrder.
Context {A} (cmp : A -> A -> comparison) `{!CmpOrder cmp}.

Lemma cmp_refl a : cmp a a = Eq.
Proof. pose proof (cmp_opp cmp a a). by destruct (cmp a a). Qed.
#[export] Instance cle_preorder : PreOrder (cle cmp).
Proof.
  split.
  - intros a. unfold cle. by rewrite cmp_refl.
  - intros a b c. exact (cmp_le_trans cmp a b c).
Qed.
Lemma cle_total a b : cle cmp a b \/ cle cmp b a.
Proof. unfold cle. rewrite (cmp_opp cmp a b). destruct (cmp a b); cbn; intuition congruence. Qed.
Lemma not_clt_cle a b : cmp a b <> Lt <-> cle cmp b a.
Proof. unfold cle. rewrite (cmp_opp cmp a b). destruct (cmp a b); cbn; intuition congruence. Qed.
Lemma clt_cle a b : clt cmp a b -> cle cmp a b.
Proof. unfold clt, cle. congruence. Qed.
Lemma clt_not_cle a b : clt cmp a b <-> ~ cle cmp b a.
Proof. unfold clt, cle. rewrite (cmp_opp cmp a b). destruct (cmp a b); cbn; intuition congruence. Qed.
Lemma clt_cle_trans a b c : clt cmp a b -> cle cmp b c -> clt cmp a c.
Proof.
  rewrite !clt_not_cle. intros Hab Hbc Hca. apply Hab. by trans c.
Qed.
Lemma cle_clt_trans a b c : cle cmp a b -> clt cmp b c -> clt cmp a c.
Proof.
  rewrite !clt_not_cle. intros Hab Hbc Hca. apply Hbc. by trans a.
Qed.
#[export] Instance clt_strict : StrictOrder (clt cmp).
Proof.
  split.
  - intros a. unfold complement, clt. by rewrite cmp_refl.
  - intros a b c Hab Hbc. eapply clt_cle_trans; eauto using clt_cle.
Qed.
Lemma cmp_Eq_cle a b : cmp a b = Eq <-> cle cmp a b /\ cle cmp b a.
Proof. unfold cle. rewrite (cmp_opp cmp a b). destruct (cmp a b); cbn; intuition congruence. Qed.
End CmpOrder.

(** [v.sort_by(cmp)], Rust's stable sort, as insertion sort. *)
Fixpoint insert_by {A} (cmp : A -> A -> comparison) (x : A) (l : list A) : list A :=
  match l with
  | [] => [x]
  | y :: l' => match cmp x y with
               | Gt => y :: insert_by cmp x l'
               | _ => x :: l
               end
  end.
Definition sort_by {A} (cmp : A -> A -> comparison) (l : list A) : list A :=
  foldr (insert_by cmp) [] l.

Section Sorting.
Context {A} (cmp : A -> A -> comparison) `{!CmpOrder cmp}.

Lemma insert_by_perm x l : insert_by cmp x l ≡ₚ x :: l.
Proof.
  induction l as [|y l IH]; cbn; [done|].
  destruct (cmp x y); [done..|]. rewrite IH. constructor.
Qed.
Lemma sort_by_cons x l : sort_by cmp (x :: l) = insert_by cmp x (sort_by cmp l).
Proof. done. Qed.
Lemma sort_by_perm l : sort_by cmp l ≡ₚ l.
Proof. induction l as [|x l IH]; [done|]. by rewrite sort_by_cons, insert_by_perm, IH. Qed.

Lemma insert_by_sorted x l :
  StronglySorted (cle cmp) l -> StronglySorted (cle cmp) (insert_by cmp x l).
Proof.
  induction 1 as [|y l Hs IH Hy]; cbn; [by repeat constructor|].
  destruct (cmp x y) eqn:E.
  1,2: assert (cle cmp x y) by (unfold cle; congruence);
    repeat constructor; [done..|by eapply Forall_impl; [exact Hy|intros; etrans]].
  constructor; [done|]. rewrite insert_by_perm. constructor; [|done].
  rewrite <- (not_clt_cle cmp) by done. congruence.
Qed.
Lemma sort_by_sorted l : StronglySorted (cle cmp) (sort_by cmp l).
Proof. induction l; [constructor|]. rewrite sort_by_cons. by apply insert_by_sorted. Qed.

(** Sorting what is already strictly sorted changes nothing. *)
Lemma sort_by_id l : StronglySorted (clt cmp) l -> sort_by cmp l = l.
Proof.
  induction 1 as [|x l Hs IH Hx]; [done|]. rewrite sort_by_cons, IH.
  destruct l as [|y l]; cbn; [done|].
  inversion Hx as [|? ? Hxy]. unfold clt in Hxy. by rewrite Hxy.
Qed.
End Sorting.

(** Two strictly sorted lists with the same elements are equal. *)
Lemma clt_sorted_unique {A} (cmp : A -> A -> comparison) `{!CmpOrder cmp} l1 l2 :
  StronglySorted (clt cmp) l1 -> StronglySorted (clt cmp) l2 -> l1 ≡ₚ l2 -> l1 = l2.
Proof.
  apply StronglySorted_unique_strong. intros x1 x2 _ _ H1 H2.
  exfalso. eapply (irreflexivity (clt cmp)). by trans x2.
Qed.

Lemma StronglySorted_impl {A} (R1 R2 : relation A) l :
  (forall a b, R1 a b -> R2 a b) -> StronglySorted R1 l -> StronglySorted R2 l.
Proof.
  intros HR. induction 1 as [|x l Hs IH Hx]; constructor; [done|].
  eapply Forall_impl; eauto.
Qed.

Lemma elem_of_concat {A} (x : A) ls : x ∈ concat ls <-> exists l, l ∈ ls /\ x ∈ l.
Proof.
  rewrite list_elem_of_In, in_concat. by setoid_rewrite list_elem_of_In.
Qed.

Lemma Forall_sublist {A} (P : A -> Prop) (l k : list A) :
  l `sublist_of` k -> Forall P k -> Forall P l.
Proof.
  induction 1; intros Hk; [done| |]; inversion Hk; subst; auto.
Qed.

Lemma StronglySorted_sublist {A} (R : relation A) (l k : list A) :
  l `sublist_of` k -> StronglySorted R k -> StronglySorted R l.
Proof.
  induction 1 as [|x l k Hl IH|x l k Hl IH]; intros Hk; [constructor|inversion Hk; subst|].
  - constructor; [auto|]. by eapply Forall_sublist.
  - inversion Hk; subst. auto.
Qed.

Lemma StronglySorted_lookup {A} (R : relation A) (l : list A) i j x y :
  StronglySorted R l -> (i < j)%nat -> l !! i = Some x -> l !! j = Some y -> R x y.
Proof.
  intros Hs. revert i j. induction Hs as [|z l Hs IH Hz]; intros i j Hij Hx Hy; [done|].
  destruct j as [|j]; [lia|]. destruct i as [|i]; cbn in *; [|apply (IH i j); [lia|done..]].
  injection Hx as <-. rewrite Forall_lookup in Hz. eauto.
Qed.

Lemma StronglySorted_filter {A} (R : relation A) (P : A -> Prop) `{!forall x, Decision (P x)} l :
  StronglySorted R l -> StronglySorted R (filter P l).
Proof.
  induction 1 as [|x l Hs IH Hx]; [constructor|].
  rewrite filter_cons. case_decide; [|done]. constructor; [done|].
  apply Forall_forall. intros y [_ Hy]%list_elem_of_filter.
  rewrite Forall_forall in Hx. eauto.
Qed.

Lemma filter_none {A} (P : A -> Prop) `{!forall x, Decision (P x)} l :
  Forall (fun x => ~ P x) l -> filter P l = [].
Proof. induction 1; [done|]. by rewrite filter_cons_False. Qed.
Lemma filter_all {A} (P : A -> Prop) `{!forall x, Decision (P x)} l :
  Forall P l -> filter P l = l.
Proof. induction 1; [done|]. rewrite filter_cons_True by done. by f_equal. Qed.

(** Lexicographic comparison of byte slices, [<[u8] as Ord>::cmp]. *)
Fixpoint slice_cmp (a b : bytes) : comparison :=
  match a, b with
  | [], [] => Eq
  | [], _ :: _ => Lt
  | _ :: _, [] => Gt
  | x :: a', y :: b' =>
      match byte.unsigned x ?= byte.unsigned y with
      | Eq => slice_cmp a' b'
      | c => c
      end
  end.

Lemma slice_cmp_refl a : slice_cmp a a = Eq.
Proof. induction a; cbn; [done|]. by rewrite Z.compare_refl. Qed.

Lemma slice_cmp_eq a b : slice_cmp a b = Eq <-> a = b.
Proof.
  split; [|intros ->; apply slice_cmp_refl].
  revert b. induction a as [|x a IH]; intros [|y b]; cbn; try done.
  destruct (_ ?= _) eqn:E; try done. intros ->%IH.
  apply Z.compare_eq, byte.unsigned_inj in E. by subst.
Qed.

#[export] Instance slice_cmp_order : CmpOrder slice_cmp.
Proof.
  split.
  - intros a. induction a as [|x a IH]; intros [|y b]; cbn; try done.
    rewrite (Z.compare_antisym (byte.unsigned x)).
    destruct (byte.unsigned x ?= _); cbn; auto.
  - induction a as [|x a IH]; intros [|y b] [|z c]; cbn; try done.
    destruct (Z.compare_spec (byte.unsigned x) (byte.unsigned y));
    destruct (Z.compare_spec (byte.unsigned y) (byte.unsigned z));
    destruct (Z.compare_spec (byte.unsigned x) (byte.unsigned z));
    try done; try lia. eauto.
Qed.

(** ** Entries

    A key with its value, and the order it inherits from its key. *)
Abbreviation entry := (bytes * bytes)%type.

Definition on_key (cmp : bytes -> bytes -> comparison) (e1 e2 : entry) : comparison :=
  cmp e1.1 e2.1.

#[export] Instance on_key_order cmp `{!CmpOrder cmp} : CmpOrder (on_key cmp).
Proof.
  split; unfold on_key.
  - intros. apply cmp_opp; done.
  - intros a b c. apply (cmp_le_trans cmp); done.
Qed.

(** The order of a map's entries, by key. *)
Definition key_cmp {V} (a b : bytes * V) : comparison := slice_cmp a.1 b.1.

#[export] Instance key_cmp_order {V} : CmpOrder (@key_cmp V).
Proof.
  split; unfold key_cmp.
  - intros. apply cmp_opp; apply _.
  - intros a b c. apply (cmp_le_trans slice_cmp).
Qed.

(** Sorted with distinct keys is strictly sorted. *)
Lemma key_cmp_strict {V} (l : list (bytes * V)) :
  StronglySorted (cle key_cmp) l -> NoDup l.*1 -> StronglySorted (clt key_cmp) l.
Proof.
  intros Hs. induction Hs as [|e l Hs IH He]; intros Hnd; [constructor|].
  cbn in Hnd. apply NoDup_cons in Hnd as [Hni Hnd]. constructor; [by apply IH|].
  apply Forall_forall. intros e' He'. rewrite Forall_forall in He. specialize (He e' He').
  unfold cle, clt, key_cmp in *. destruct (slice_cmp e.1 e'.1) eqn:E; [|done..].
  apply slice_cmp_eq in E. exfalso. apply Hni. rewrite E. by apply list_elem_of_fmap_2.
Qed.

Lemma clt_sorted_NoDup {A} (cmp : A -> A -> comparison) `{!CmpOrder cmp} l :
  StronglySorted (clt cmp) l -> NoDup l.
Proof.
  induction 1 as [|x l Hs IH Hx]; constructor; [|done]. intros Hin.
  rewrite Forall_forall in Hx. by apply (irreflexivity (clt cmp) x), Hx.
Qed.

(** ** [partition_point]

    The binary search of [core::slice]: [size] halves until one candidate is
    left, which a last probe classifies. *)
Section PartitionPoint.
Context (pred : Z -> outcome bool).

Fixpoint partition_loop (fuel : nat) (size base : Z) : outcome Z :=
  if 1 <? size then
    match fuel with
    | O => OutOfFuel
    | S fuel' =>
        let half := size / 2 in
        let mid := base + half in
        less ← pred mid;
        partition_loop fuel' (size - half) (if less : bool then mid else base)
    end
  else Ok base.

(** [pred i] classifies element [i] of a slice of [n] elements. *)
Definition partition_point (n : Z) : outcome Z :=
  if n =? 0 then Ok 0
  else
    base ← partition_loop (Z.to_nat n) n 0;
    less ← pred base;
    Ok (if less : bool then base + 1 else base).

Context (k n : Z) (Hk : 0 <= k <= n).
Context (Hpred : forall i, 0 <= i < n -> pred i = Ok (i <? k)).

Lemma partition_loop_spec fuel size base :
  (Z.to_nat size <= S fuel)%nat -> 1 <= size -> 0 <= base -> base + size <= n ->
  base <= Z.max (k - 1) 0 -> k <= base + size ->
  exists b, partition_loop fuel size base = Ok b /\ 0 <= b < n /\
            b <= Z.max (k - 1) 0 /\ k <= b + 1.
Proof.
  revert size base. induction fuel as [|fuel IH]; intros size base Hf H1 Hb Hn Hlo Hhi;
    cbn [partition_loop]; destruct (Z.ltb_spec 1 size).
  - lia.
  - exists base. split; [done|lia].
  - assert (1 <= size / 2 < size /\ size - size / 2 >= size / 2)
      by (Z.to_euclidean_division_equations; lia).
    rewrite Hpred, bind_Ok by lia.
    destruct (Z.ltb_spec (base + size / 2) k); apply IH; lia.
  - exists base. split; [done|lia].
Qed.

(** On a partitioned slice the search returns the length of the prefix. *)
Lemma partition_point_spec : partition_point n = Ok k.
Proof.
  unfold partition_point. destruct (Z.eqb_spec n 0); [f_equal; lia|].
  destruct (partition_loop_spec (Z.to_nat n) n 0) as (b & -> & ? & ? & ?); [lia..|].
  rewrite bind_Ok, Hpred, bind_Ok by lia. f_equal. destruct (Z.ltb_spec b k); lia.
Qed.
End PartitionPoint.
