(* ===== verification/Varint.v ===== *)
(** Varint codec of [format/varint.rs]: the 7-bits-per-byte little-endian
    encoding of [u32] and [u64] values used by every block header, handle and
    property, with its round trip, its length bounds and its rejections. *)

From S2P Require Import Prelude.

(** ** Decoding *)

(** The loop of [get_varint64]: [p] is the local cursor, ten rounds reach
    [shift >= 64].  [None] is the [?] on a read past the buffer and the
    explicit [return None]. *)
Fixpoint get_varint64_loop (fuel : nat) (buf : bytes) (result shift p : Z) :
    option (Z * Z) :=
  match fuel with
  | O => None
  | S fuel' =>
      match get_at buf p with
      | None => None
      | Some b =>
          let p := p + 1 in
          let result :=
            Z.lor result (as_u64 (Z.shiftl (Z.land (byte.unsigned b) 0x7f) shift)) in
          if Z.land (byte.unsigned b) 0x80 =? 0 then Some (result, p)
          else
            let shift := shift + 7 in
            if 64 <=? shift then None
            else get_varint64_loop fuel' buf result shift p
      end
  end.

(** [get_varint64(buf, &mut pos)]: the value and the position afterwards; the
    position only moves on success. *)
Definition get_varint64 (buf : bytes) (pos : Z) : option Z * Z :=
  match get_varint64_loop 10 buf 0 0 pos with
  | Some (result, p) => (Some result, p)
  | None => (None, pos)
  end.

(** [get_varint32]: a value above [u32::MAX] is rejected after the position
    has moved past it. *)
Definition get_varint32 (buf : bytes) (pos : Z) : option Z * Z :=
  match get_varint64 buf pos with
  | (None, pos) => (None, pos)
  | (Some v, pos) => if 2 ^ 32 - 1 <? v then (None, pos) else (Some v, pos)
  end.

(** ** Encoding *)

Fixpoint put_varint64_loop (fuel : nat) (out : bytes) (v : Z) : bytes :=
  match fuel with
  | O => out
  | S fuel' =>
      if v <? 0x80 then out ++ [byte.of_Z v]
      else
        put_varint64_loop fuel'
          (out ++ [byte.of_Z (Z.lor (Z.land (as_u8 v) 0x7f) 0x80)]) (Z.shiftr v 7)
  end.

Definition put_varint64 (out : bytes) (v : Z) : bytes := put_varint64_loop 10 out v.
Definition put_varint32 (out : bytes) (v : Z) : bytes := put_varint64 out v.

(** The bytes one call appends. *)
Definition varint (v : Z) : bytes := put_varint64 [] v.

(** ** Bit-level facts *)

(** What the decoder reads off one byte. *)
Lemma land_127 b : Z.land (byte.unsigned b) 0x7f = byte.unsigned b mod 128.
Proof. exact (Z.land_ones (byte.unsigned b) 7 ltac:(lia)). Qed.
Lemma land_128 b : (Z.land (byte.unsigned b) 0x80 =? 0) = (byte.unsigned b <? 128).
Proof. by destruct b. Qed.

(** The two bytes the encoder writes. *)
Lemma unsigned_last_byte v : 0 <= v < 128 -> byte.unsigned (byte.of_Z v) = v.
Proof. intros. rewrite unsigned_of_Z. apply Z.mod_small. lia. Qed.
Lemma unsigned_cont_byte v :
  byte.unsigned (byte.of_Z (Z.lor (Z.land (as_u8 v) 0x7f) 0x80)) = v mod 128 + 128.
Proof.
  assert (Z.land (as_u8 v) 0x7f = v mod 128) as ->.
  { etransitivity; [exact (Z.land_ones (as_u8 v) 7 ltac:(lia))|].
    unfold as_u8. change (2 ^ 7) with 128. change (2 ^ 8) with 256.
    Z.to_euclidean_division_equations; lia. }
  pose proof (Z.mod_pos_bound v 128 ltac:(lia)).
  pose proof (lor_shiftl_add (v mod 128) 1 7 ltac:(lia) ltac:(lia)) as Hor.
  change (1 * 2 ^ 7) with 128 in Hor. rewrite Hor, unsigned_of_Z. apply Z.mod_small. lia.
Qed.

(** ** The encoder *)

Lemma put_varint64_loop_app fuel out v :
  put_varint64_loop fuel out v = out ++ put_varint64_loop fuel [] v.
Proof.
  revert out v. induction fuel as [|fuel IH]; intros out v; cbn [put_varint64_loop].
  { by rewrite app_nil_r. }
  destruct (v <? 0x80); [done|]. rewrite IH, (IH ([] ++ _)). by rewrite <- (assoc_L (++)).
Qed.

Lemma put_varint64_app out v : put_varint64 out v = out ++ varint v.
Proof. apply put_varint64_loop_app. Qed.
Lemma put_varint32_app out v : put_varint32 out v = out ++ varint v.
Proof. apply put_varint64_loop_app. Qed.
#[export] Hint Rewrite put_varint64_app put_varint32_app : lens.

Lemma put_varint64_loop_step fuel v :
  128 <= v ->
  put_varint64_loop (S fuel) [] v =
    byte.of_Z (Z.lor (Z.land (as_u8 v) 0x7f) 0x80) :: put_varint64_loop fuel [] (v / 128).
Proof.
  intros Hv. cbn [put_varint64_loop app]. replace (v <? 0x80) with false by lia.
  rewrite put_varint64_loop_app. rewrite Z.shiftr_div_pow2 by lia. done.
Qed.

Lemma div_128_pow v (n : nat) : 0 <= v < 2 ^ (7 * Z.of_nat (S n)) -> 0 <= v / 128 < 2 ^ (7 * Z.of_nat n).
Proof.
  intros [H0 Hv]. split; [apply Z.div_pos; lia|].
  apply Z.div_lt_upper_bound; [lia|].
  replace (7 * Z.of_nat (S n)) with (7 + 7 * Z.of_nat n) in Hv by lia.
  by rewrite Z.pow_add_r in Hv by lia.
Qed.

(** [k] bytes suffice for a value of [7 * k] bits. *)
Lemma put_varint64_loop_len fuel k v :
  (1 <= k <= fuel)%nat -> 0 <= v < 2 ^ (7 * Z.of_nat k) ->
  1 <= len (put_varint64_loop fuel [] v) <= Z.of_nat k.
Proof.
  revert k v. induction fuel as [|fuel IH]; intros k v Hk Hv; [lia|].
  destruct (decide (v < 128)).
  { cbn [put_varint64_loop]. replace (v <? 0x80) with true by lia. rewrite app_nil_l, len_cons, len_nil. lia. }
  rewrite put_varint64_loop_step, len_cons by lia.
  destruct k as [|[|k]]; [lia|cbn in Hv; lia|].
  apply div_128_pow in Hv. specialize (IH (S k) (v / 128)). lia.
Qed.

Lemma varint_len v : 0 <= v < 2 ^ 64 -> 1 <= len (varint v) <= 10.
Proof. intros. apply (put_varint64_loop_len 10 10); lia. Qed.
Lemma varint_len_u32 v : 0 <= v < 2 ^ 32 -> 1 <= len (varint v) <= 5.
Proof. intros. apply (put_varint64_loop_len 10 5); lia. Qed.

(** ** The decoder *)

Section DecodeVarint.
Implicit Types (buf pre post : bytes).

(** Decoding what the encoder wrote, in the middle of a buffer. *)
Lemma get_put_varint64_loop n g v shift result pre post :
  (n <= g)%nat -> (1 <= n)%nat -> 0 <= v < 2 ^ (7 * Z.of_nat n) ->
  0 <= shift -> 0 <= result < 2 ^ shift -> v * 2 ^ shift < 2 ^ 64 ->
  get_varint64_loop g (pre ++ put_varint64_loop n [] v ++ post) result shift (len pre) =
    Some (result + v * 2 ^ shift, len pre + len (put_varint64_loop n [] v)).
Proof.
  revert g v shift result pre. induction n as [|n IH]; intros g v shift result pre
    Hg Hn Hv Hs Hr H64; [lia|]. destruct g as [|g]; [lia|].
  assert (0 < 2 ^ shift) by (apply Z.pow_pos_nonneg; lia).
  destruct (decide (v < 128)) as [Hlt|Hge].
  - cbn [put_varint64_loop get_varint64_loop]. replace (v <? 0x80) with true by lia.
    cbn [app]. rewrite get_at_app, land_127, land_128, unsigned_last_byte by lia.
    replace (v <? 128) with true by lia.
    rewrite (Z.mod_small v) by lia. rewrite Z.shiftl_mul_pow2 by lia.
    rewrite as_u64_small by nia. rewrite lor_shiftl_add by lia. f_equal.
  - rewrite put_varint64_loop_step by lia. cbn [get_varint64_loop app].
    rewrite get_at_app, land_127, land_128, unsigned_cont_byte by lia.
    pose proof (Z.mod_pos_bound v 128 ltac:(lia)) as Hm.
    replace (_ <? 128) with false by lia.
    replace ((v mod 128 + 128) mod 128) with (v mod 128)
      by (Z.to_euclidean_division_equations; lia).
    pose proof (Z.div_mod v 128 ltac:(lia)) as Hdm.
    assert (2 ^ (shift + 7) = 128 * 2 ^ shift) as Hpow by (rewrite Z.pow_add_r by lia; lia).
    assert (shift + 7 < 64) by (apply (Z.pow_lt_mono_r_iff 2); nia).
    rewrite Z.shiftl_mul_pow2, as_u64_small, lor_shiftl_add by nia.
    replace (64 <=? shift + 7) with false by lia.
    destruct n as [|n]; [cbn in Hv; lia|]. apply div_128_pow in Hv.
    replace (len pre + 1) with (len (pre ++ [byte.of_Z (Z.lor (Z.land (as_u8 v) 0x7f) 0x80)]))
      by len_lia.
    rewrite cons_middle, (assoc_L (++) pre), IH by nia. f_equal. f_equal; [nia|len_lia].
Qed.

(** The varint round trip at an arbitrary position of a buffer. *)
Lemma get_varint64_varint v pre post :
  0 <= v < 2 ^ 64 ->
  get_varint64 (pre ++ varint v ++ post) (len pre) = (Some v, len pre + len (varint v)).
Proof.
  intros Hv. unfold get_varint64, varint, put_varint64.
  rewrite get_put_varint64_loop; cbn; [do 2 f_equal; lia|lia..].
Qed.

Lemma get_varint32_varint v pre post :
  0 <= v < 2 ^ 32 ->
  get_varint32 (pre ++ varint v ++ post) (len pre) = (Some v, len pre + len (varint v)).
Proof.
  intros Hv. unfold get_varint32. rewrite get_varint64_varint by lia.
  by replace (2 ^ 32 - 1 <? v) with false by lia.
Qed.

(** Every successful decode reads at least one byte, stays inside the
    buffer and yields a [u64]. *)
Lemma get_varint64_loop_bounds g buf result shift p v q :
  0 <= result < 2 ^ 64 -> 0 <= p ->
  get_varint64_loop g buf result shift p = Some (v, q) ->
  0 <= v < 2 ^ 64 /\ p < q <= len buf.
Proof.
  revert result shift p. induction g as [|g IH]; intros result shift p Hr Hp; [done|].
  cbn [get_varint64_loop]. destruct (get_at buf p) as [b|] eqn:Hb; [|done].
  apply get_at_Some in Hb as [Hin _].
  assert (0 <= Z.lor result (as_u64 (Z.shiftl (Z.land (byte.unsigned b) 127) shift)) < 2 ^ 64)
    as Hl.
  { pose proof (as_u64_range (Z.shiftl (Z.land (byte.unsigned b) 127) shift)) as Hu.
    revert Hu. generalize (as_u64 (Z.shiftl (Z.land (byte.unsigned b) 127) shift)) as u.
    intros u Hu. split; [apply Z.lor_nonneg; lia|].
    rewrite <- (Z.mod_small result (2 ^ 64)), <- (Z.mod_small u (2 ^ 64)) by lia.
    rewrite <- !Z.land_ones, <- Z.land_lor_distr_l, Z.land_ones by lia.
    apply Z.mod_pos_bound. lia. }
  case_match; [intros [= <- <-]; lia|]. case_match; [done|].
  intros [? ?]%IH; [split; lia|done|lia].
Qed.

Lemma get_varint64_bounds buf pos v q :
  0 <= pos -> get_varint64 buf pos = (Some v, q) -> 0 <= v < 2 ^ 64 /\ pos < q <= len buf.
Proof.
  intros Hp. unfold get_varint64. destruct get_varint64_loop as [[??]|] eqn:E; [|done].
  intros [= <- <-]. by eapply get_varint64_loop_bounds in E.
Qed.

Lemma get_varint32_bounds buf pos v q :
  0 <= pos -> get_varint32 buf pos = (Some v, q) -> 0 <= v < 2 ^ 32 /\ pos < q <= len buf.
Proof.
  intros Hp. unfold get_varint32. destruct get_varint64 as [[x|] q'] eqn:E; [|done].
  case_match eqn:Hx; [done|]. intros [= <- <-]. apply get_varint64_bounds in E; lia.
Qed.

(** Ten rounds of fuel lose nothing: the loop stops by itself. *)
Lemma get_varint64_loop_fuel g g' buf result shift p :
  64 <= shift + 7 * Z.of_nat g -> (g <= g')%nat -> shift < 64 ->
  get_varint64_loop g' buf result shift p = get_varint64_loop g buf result shift p.
Proof.
  revert g' result shift p. induction g as [|g IH]; intros g' result shift p H64 Hg Hs; [lia|].
  destruct g' as [|g']; [lia|]. cbn [get_varint64_loop].
  destruct get_at; [|done]. case_match; [done|]. case_match; [done|].
  apply IH; lia.
Qed.
End DecodeVarint.

Lemma put_varint64_loop_fuel g g' v :
  0 <= v < 2 ^ (7 * Z.of_nat g) -> (1 <= g <= g')%nat ->
  put_varint64_loop g' [] v = put_varint64_loop g [] v.
Proof.
  revert g' v. induction g as [|g IH]; intros g' v Hv Hg; [lia|].
  destruct g' as [|g']; [lia|]. destruct (decide (v < 128)).
  { cbn [put_varint64_loop]. by replace (v <? 0x80) with true by lia. }
  rewrite !put_varint64_loop_step by lia. destruct g as [|g]; [cbn in Hv; lia|].
  f_equal. apply IH; [by apply div_128_pow|lia].
Qed.

(** The round trips, where the buffer and the position are given by equations. *)
Lemma get_varint64_at buf pos v pre post :
  buf = pre ++ varint v ++ post -> pos = len pre -> 0 <= v < 2 ^ 64 ->
  get_varint64 buf pos = (Some v, pos + len (varint v)).
Proof. intros -> ->. apply get_varint64_varint. Qed.
Lemma get_varint32_at buf pos v pre post :
  buf = pre ++ varint v ++ post -> pos = len pre -> 0 <= v < 2 ^ 32 ->
  get_varint32 buf pos = (Some v, pos + len (varint v)).
Proof. intros -> ->. apply get_varint32_varint. Qed.

(** ** Properties *)

(** C38: Varints round-trip: what [put_varint64] appends, at most ten bytes,
    [get_varint64] reads back from any position of any buffer, leaving the
    position on the first byte after it.  A [u32] takes at most five bytes and
    is read back by [get_varint32], which rejects the varint of a larger value
    with the position already past it: a failure never leaves the decoder in
    the middle of an encoding. *)
Theorem varint_roundtrip out v rest :
  0 <= v < 2 ^ 64 ->
  exists n, 1 <= n <= 10 /\ len (put_varint64 out v) = len out + n /\
    get_varint64 (put_varint64 out v ++ rest) (len out) = (Some v, len out + n) /\
    (v < 2 ^ 32 -> put_varint32 out v = put_varint64 out v /\ n <= 5) /\
    get_varint32 (put_varint64 out v ++ rest) (len out) =
      (if v <? 2 ^ 32 then Some v else None, len out + n).
Proof.
  intros Hv. exists (len (varint v)). rewrite put_varint64_app, <- (assoc_L (++)), get_varint64_varint by done.
  split; [by apply varint_len|]. split; [len_lia|]. split; [done|]. split.
  - intros Hlt. split; [by rewrite put_varint32_app|]. apply varint_len_u32. lia.
  - unfold get_varint32. rewrite get_varint64_varint by done.
    destruct (Z.ltb_spec v (2 ^ 32)), (Z.ltb_spec (2 ^ 32 - 1) v); done || lia.
Qed.

(** Decoding is safe on any bytes: a success stays inside the buffer, moves
    forward and yields a [u64]; a failure leaves the position alone; and the ten
    rounds modelled are all the loop can make. *)
Theorem get_varint64_safe buf pos :
  0 <= pos ->
  match get_varint64 buf pos with
  | (Some v, q) => 0 <= v < 2 ^ 64 /\ pos < q <= len buf
  | (None, q) => q = pos
  end /\
  forall fuel, (10 <= fuel)%nat -> get_varint64_loop fuel buf 0 0 pos = get_varint64_loop 10 buf 0 0 pos.
Proof.
  intros Hp. split; [|intros fuel Hf; by apply get_varint64_loop_fuel].
  destruct (get_varint64 buf pos) as [[v|] q] eqn:E; [by apply get_varint64_bounds|].
  unfold get_varint64 in E. destruct (get_varint64_loop _ _ _ _ _) as [[? ?]|]; by simplify_eq.
Qed.

Lemma varint_roundtrip_witness :
  exists n, get_varint64 (put_varint64 (str "x") (2 ^ 35) ++ str "tail") 1 = (Some (2 ^ 35), 1 + n) /\
    get_varint32 (put_varint64 (str "x") (2 ^ 35) ++ str "tail") 1 = (None, 1 + n).
Proof.
  destruct (varint_roundtrip (str "x") (2 ^ 35) (str "tail")) as (n & _ & _ & H64 & _ & H32); [lia|]. by exists n.
Defined.

Lemma get_varint64_safe_witness :
  get_varint64 (str "abc") 1 = (Some 98, 2) /\ 1 < 2 <= len (str "abc") /\
  get_varint64_loop 64 (str "abc") 0 0 1 = get_varint64_loop 10 (str "abc") 0 0 1.
Proof.
  split; [reflexivity|]. split.
  - apply (get_varint64_safe (str "abc") 1). lia.
  - apply (get_varint64_safe (str "abc") 1); lia.
Defined.
