(* ===== verification/InternalKey.v ===== *)
(** Internal keys of [format/internal_key.rs]: a user key followed by eight
    bytes holding [(sequence << 8) | type] in little-endian order. *)

From S2P Require Import Prelude.

(** ** Data *)

Inductive ValueType : Type :=
  | Deletion
  | Value
  | Merge
  | SingleDeletion
  | RangeDeletion
  | BlobIndex
  | Other (b : Z).

#[export] Instance ValueType_eq_dec : EqDecision ValueType.
Proof. solve_decision. Defined.

(** [ValueType::from_byte]. *)
Definition from_byte (b : Z) : ValueType :=
  match b with
  | 0x0 => Deletion
  | 0x1 => Value
  | 0x2 => Merge
  | 0x7 => SingleDeletion
  | 0xF => RangeDeletion
  | 0x11 => BlobIndex
  | other => Other other
  end.

Record InternalKey : Type := {
  user_key : bytes;
  sequence : Z;
  value_type : ValueType
}.

Definition NUM_INTERNAL_BYTES : Z := 8.

(** ** Operation *)

(** [split]: decodes an internal key, rejecting one shorter than its suffix. *)
Definition split (internal_key : bytes) : outcome InternalKey :=
  if len internal_key <? NUM_INTERNAL_BYTES then
    Err (Msg "internal key shorter than 8-byte seq/type suffix" [])
  else
    let split_at := len internal_key - NUM_INTERNAL_BYTES in
    user_key ← index_range internal_key 0 split_at;
    suffix ← index_range internal_key split_at (len internal_key);
    let packed := from_le_bytes suffix in
    let sequence := Z.shiftr packed 8 in
    let value_type := from_byte (as_u8 (Z.land packed 0xff)) in
    Ok {| user_key := user_key; sequence := sequence; value_type := value_type |}.

(** ** The abstract view of a key

    [ikey_user] and [ikey_packed] are total functions on byte strings; on a
    key of at least eight bytes they are what every decoder in the program
    extracts. *)

Definition ikey_valid (k : bytes) : Prop := 8 <= len k.
Definition ikey_user (k : bytes) : bytes := take (length k - 8) k.
Definition ikey_packed (k : bytes) : Z := from_le_bytes (drop (length k - 8) k).
Definition ikey_seq (k : bytes) : Z := ikey_packed k / 256.
Definition ikey_type (k : bytes) : ValueType := from_byte (ikey_packed k mod 256).

(** The key with a given user key and packed suffix. *)
Definition make_ikey (uk : bytes) (packed : Z) : bytes := uk ++ to_le_bytes 8 packed.

#[export] Instance ikey_valid_dec k : Decision (ikey_valid k).
Proof. unfold ikey_valid. solve_decision. Defined.

Lemma ikey_split_eq k : k = ikey_user k ++ drop (length k - 8) k.
Proof. symmetry. apply take_drop. Qed.

Lemma ikey_suffix_length k : ikey_valid k -> length (drop (length k - 8) k) = 8%nat.
Proof. unfold ikey_valid, len. rewrite length_drop. lia. Qed.

Lemma ikey_user_len k : ikey_valid k -> len (ikey_user k) = len k - 8.
Proof. unfold ikey_valid, ikey_user. rewrite len_take. unfold len. lia. Qed.

Lemma ikey_packed_range k : ikey_valid k -> 0 <= ikey_packed k < 2 ^ 64.
Proof.
  intros Hk. pose proof (from_le_bytes_range (drop (length k - 8) k)) as Hr.
  unfold len in Hr. by rewrite ikey_suffix_length in Hr.
Qed.

Lemma ikey_eta k : ikey_valid k -> make_ikey (ikey_user k) (ikey_packed k) = k.
Proof.
  intros Hk. unfold make_ikey, ikey_packed.
  rewrite <- (ikey_suffix_length k) at 1 by done. rewrite to_from_le_bytes.
  symmetry. apply ikey_split_eq.
Qed.

Lemma ikey_inj a b :
  ikey_valid a -> ikey_valid b ->
  ikey_user a = ikey_user b -> ikey_packed a = ikey_packed b -> a = b.
Proof. intros Ha Hb Hu Hp. rewrite <- (ikey_eta a), <- (ikey_eta b) by done. congruence. Qed.

Lemma make_ikey_valid uk p : ikey_valid (make_ikey uk p).
Proof. unfold ikey_valid, make_ikey. len_lia. Qed.

Lemma make_ikey_user uk p : ikey_user (make_ikey uk p) = uk.
Proof.
  unfold ikey_user, make_ikey. rewrite length_app, length_to_le_bytes.
  replace (_ - _)%nat with (length uk) by lia. by rewrite take_app_length.
Qed.

Lemma make_ikey_packed uk p : 0 <= p < 2 ^ 64 -> ikey_packed (make_ikey uk p) = p.
Proof.
  intros. unfold ikey_packed, make_ikey. rewrite length_app, length_to_le_bytes.
  replace (_ - _)%nat with (length uk) by lia. rewrite drop_app_length.
  by apply from_to_le_bytes.
Qed.

(** Slicing a key at its suffix, as the decoders do. *)
Lemma ikey_index_user k :
  ikey_valid k -> index_range k 0 (len k - 8) = Ok (ikey_user k).
Proof.
  intros Hk. unfold index_range. rewrite (proj2 (get_range_Some k _ _ (ikey_user k))); [done|].
  exists [], (drop (length k - 8) k). pose proof (ikey_user_len k Hk).
  split_and!; [apply ikey_split_eq|done|len_lia].
Qed.

Lemma ikey_index_suffix k :
  ikey_valid k -> index_range k (len k - 8) (len k) = Ok (drop (length k - 8) k).
Proof.
  intros Hk. unfold index_range.
  rewrite (proj2 (get_range_Some k _ _ (drop (length k - 8) k))); [done|].
  exists (ikey_user k), []. pose proof (ikey_user_len k Hk). pose proof (ikey_suffix_length k Hk).
  rewrite app_nil_r. split_and!; [apply ikey_split_eq|lia|unfold len in *; lia].
Qed.

(** Cutting eight bytes off a shorter key panics in every build profile: with
    overflow checks in the subtraction, without them in the slice. *)
Lemma index_short_suffix `{Profile} {A} k (f : Z -> bytes -> outcome A) :
  len k < 8 -> (at_ ← sub_u64 (len k) 8; a ← index_range k 0 at_; f at_ a) = Panic.
Proof.
  intros Hk. pose proof (len_nonneg k). unfold sub_u64, arith. replace (0 <=? len k - 8) with false by lia.
  destruct overflow_checks; [done|]. rewrite bind_Ok. unfold index_range.
  rewrite (proj2 (get_range_None k 0 _)); [done|].
  unfold as_u64. rewrite <- (Z.mod_add _ 1), Z.mod_small by lia. lia.
Qed.

(** [split] returns the abstract view, or its error on a short key. *)
Lemma split_ok k :
  ikey_valid k ->
  split k = Ok {| user_key := ikey_user k; sequence := ikey_seq k; value_type := ikey_type k |}.
Proof.
  intros Hk. unfold split, NUM_INTERNAL_BYTES.
  assert ((len k <? 8) = false) as -> by (unfold ikey_valid in Hk; lia).
  rewrite ikey_index_user, bind_Ok, ikey_index_suffix, bind_Ok by done.
  fold (ikey_packed k). rewrite Z.shiftr_div_pow2 by lia.
  rewrite (Z.land_ones _ 8) by lia. unfold as_u8. rewrite Z.mod_mod by lia. done.
Qed.

Lemma split_short k :
  ~ ikey_valid k -> split k = Err (Msg "internal key shorter than 8-byte seq/type suffix" []).
Proof.
  intros Hk. unfold split, NUM_INTERNAL_BYTES.
  assert ((len k <? 8) = true) as -> by (unfold ikey_valid in Hk; lia). done.
Qed.

(** [matches!(value_type, Deletion | SingleDeletion)], the test every
    consumer of value types makes. *)
Definition is_tombstone_type (t : ValueType) : bool :=
  match t with Deletion | SingleDeletion => true | _ => false end.

(** ** Properties *)

(** Splitting an internal key undoes its construction - user key, 56-bit
    sequence number and type - and a key without room for its suffix is
    rejected with an error, never a panic. *)
Theorem internal_key_split uk seq ty :
  0 <= seq < 2 ^ 56 -> 0 <= ty < 256 ->
  split (uk ++ to_le_bytes 8 (Z.lor (Z.shiftl seq 8) ty)) =
    Ok {| user_key := uk; sequence := seq; value_type := from_byte ty |} /\
  (len uk < NUM_INTERNAL_BYTES -> split uk = Err (Msg "internal key shorter than 8-byte seq/type suffix" [])).
Proof.
  intros Hs Ht. split.
  - assert (Z.lor (Z.shiftl seq 8) ty = seq * 256 + ty) as ->.
    { rewrite Z.shiftl_mul_pow2, Z.lor_comm, (lor_shiftl_add ty seq 8) by lia. lia. }
    fold (make_ikey uk (seq * 256 + ty)). rewrite split_ok by apply make_ikey_valid.
    unfold ikey_seq, ikey_type. rewrite make_ikey_user, make_ikey_packed by lia.
    rewrite Z.div_add_l, Z.div_small, Z.add_0_r by lia.
    by rewrite (Z.add_comm (seq * 256)), Z.mod_add, Z.mod_small by lia.
  - intros Hl. apply split_short. unfold ikey_valid. change NUM_INTERNAL_BYTES with 8 in Hl. lia.
Qed.

Lemma internal_key_split_witness :
  split (str "k" ++ to_le_bytes 8 (Z.lor (Z.shiftl 300 8) 7)) =
    Ok {| user_key := str "k"; sequence := 300; value_type := SingleDeletion |} /\
  split (str "k") = Err (Msg "internal key shorter than 8-byte seq/type suffix" []).
Proof.
  destruct (internal_key_split (str "k") 300 7) as [Hs Hshort]; [lia|lia|]. split; [exact Hs|].
  apply Hshort. reflexivity.
Defined.
