(* ===== verification/Cmp.v ===== *)
(** Key comparators of [merge/cmp.rs]: the [KeyComparator] trait as a class,
    its two implementations, the order laws the mergers rely on, and the
    [sort_prefix] fast path of [merger.rs] that must agree with them. *)

From S2P Require Import Prelude InternalKey.

Definition SUFFIX_LEN : Z := 8.

(** [cmp::split]; the subtraction underflows on a key shorter than its
    suffix, and the slice is then out of range. *)
Definition split `{Profile} (key : bytes) : outcome (bytes * bytes) :=
  at_ ← sub_u64 (len key) SUFFIX_LEN;
  a ← index_range key 0 at_;
  b ← index_range key at_ (len key);
  Ok (a, b).

(** [cmp::user_key]. *)
Definition user_key `{Profile} (internal_key : bytes) : outcome bytes :=
  '(a, _) ← split internal_key; Ok a.

(** [load_be_prefix]: up to eight leading bytes, zero padded, big-endian. *)
Definition load_be_prefix (key : bytes) : Z :=
  let n := Z.min (len key) 8 in
  let buf := take (Z.to_nat n) key ++ drop (Z.to_nat n) (replicate 8 Byte.x00) in
  from_be_bytes buf.

(** ** The trait

    A Rust comparator is a unit struct used as a type parameter; so is [C]. *)
Class KeyComparator (C : Type) : Type := {
  compare : bytes -> bytes -> outcome comparison;
  HAS_SORT_PREFIX : bool;
  sort_prefix : bytes -> Z
}.
Arguments compare C {_} a b.
Arguments HAS_SORT_PREFIX C {_}.
Arguments sort_prefix C {_} key.

Inductive InternalKeyComparator : Type := InternalKeyComparator_.
Inductive BytewiseComparator : Type := BytewiseComparator_.

(** [InternalKeyComparator::compare]. *)
Definition internal_compare `{Profile} (a b : bytes) : outcome comparison :=
  '(a_user, a_suffix) ← split a;
  '(b_user, b_suffix) ← split b;
  match slice_cmp a_user b_user with
  | Eq =>
      let a_packed := from_le_bytes a_suffix in
      let b_packed := from_le_bytes b_suffix in
      Ok (b_packed ?= a_packed)
  | other => Ok other
  end.

#[export] Instance InternalKeyComparator_impl `{Profile} : KeyComparator InternalKeyComparator := {
  compare := internal_compare;
  HAS_SORT_PREFIX := false;
  sort_prefix _ := 0
}.

#[export] Instance BytewiseComparator_impl : KeyComparator BytewiseComparator := {
  compare a b := Ok (slice_cmp a b);
  HAS_SORT_PREFIX := false;
  sort_prefix := load_be_prefix
}.

(** [compare_internal_keys] and [compare_user_keys]. *)
Definition compare_internal_keys `{Profile} (a b : bytes) : outcome comparison :=
  compare InternalKeyComparator a b.
Definition compare_user_keys `{Profile} (a b : bytes) : outcome comparison :=
  ua ← user_key a; ub ← user_key b; Ok (slice_cmp ua ub).

(** [merger::compare_with_prefix]. *)
Definition compare_with_prefix (C : Type) `{KeyComparator C} (a b : bytes) : outcome comparison :=
  if HAS_SORT_PREFIX C then
    match sort_prefix C a ?= sort_prefix C b with
    | Eq => compare C a b
    | by_prefix => Ok by_prefix
    end
  else compare C a b.

(** ** The laws of the trait

    What [KeyComparator]'s documentation promises to the mergers: on the keys
    it is meant for, [compare] returns the value of a total preorder, and
    distinct sort prefixes decide it. *)
Class KeyComparatorLaws (C : Type) `{KeyComparator C} : Type := {
  valid_key : bytes -> Prop;
  kcmp : bytes -> bytes -> comparison;
  kcmp_order :: CmpOrder kcmp;
  compare_kcmp a b : valid_key a -> valid_key b -> compare C a b = Ok (kcmp a b);
  sort_prefix_kcmp a b :
    HAS_SORT_PREFIX C = true -> valid_key a -> valid_key b ->
    sort_prefix C a <> sort_prefix C b ->
    kcmp a b = (sort_prefix C a ?= sort_prefix C b)
}.
Arguments valid_key C {_ _} k.
Arguments kcmp C {_ _} a b.

Lemma compare_with_prefix_kcmp C `{KeyComparatorLaws C} a b :
  valid_key C a -> valid_key C b -> compare_with_prefix C a b = Ok (kcmp C a b).
Proof.
  intros Ha Hb. unfold compare_with_prefix. destruct HAS_SORT_PREFIX eqn:Hp.
  - destruct (_ ?= _) eqn:E; [by apply compare_kcmp|..];
      rewrite <- E, sort_prefix_kcmp; try done; intros He; by rewrite He, Z.compare_refl in E.
  - by apply compare_kcmp.
Qed.

(** ** Internal keys: user key ascending, packed (sequence, type) descending *)

Definition ikey_cmp (a b : bytes) : comparison :=
  match slice_cmp (ikey_user a) (ikey_user b) with
  | Eq => ikey_packed b ?= ikey_packed a
  | c => c
  end.

#[export] Instance ikey_cmp_order : CmpOrder ikey_cmp.
Proof.
  split; unfold ikey_cmp.
  - intros a b. rewrite (cmp_opp slice_cmp (ikey_user a)).
    destruct (slice_cmp (ikey_user a) _); cbn; [|done..]. apply Z.compare_antisym.
  - intros a b c Hab Hbc.
    destruct (slice_cmp (ikey_user a) (ikey_user b)) eqn:Eab;
    destruct (slice_cmp (ikey_user b) (ikey_user c)) eqn:Ebc; try done.
    + apply slice_cmp_eq in Eab, Ebc. rewrite Eab, Ebc, slice_cmp_refl in *.
      rewrite Z.compare_ngt_iff in *. lia.
    + apply slice_cmp_eq in Eab. by rewrite Eab, Ebc.
    + apply slice_cmp_eq in Ebc. by rewrite <- Ebc, Eab.
    + by rewrite (transitivity (R := clt slice_cmp) Eab Ebc).
Qed.

(** Keys that compare equal are equal: no two entries of a source tie. *)
Lemma ikey_cmp_eq a b : ikey_valid a -> ikey_valid b -> ikey_cmp a b = Eq <-> a = b.
Proof.
  intros Ha Hb. split; [|intros ->; apply (cmp_refl ikey_cmp)]. unfold ikey_cmp.
  destruct (slice_cmp _ _) eqn:E; try done. apply slice_cmp_eq in E.
  intros Hp%Z.compare_eq. by apply ikey_inj.
Qed.

Section Split.
Context `{Profile}.

Lemma key_split_ok k : ikey_valid k -> split k = Ok (ikey_user k, drop (length k - 8) k).
Proof.
  intros Hk. unfold split, SUFFIX_LEN.
  rewrite sub_u64_ok, bind_Ok by (unfold ikey_valid in Hk; lia).
  by rewrite ikey_index_user, bind_Ok, ikey_index_suffix by done.
Qed.

(** A key shorter than its suffix panics in every build profile: with
    overflow checks in the subtraction, without them in the slice. *)
Lemma key_split_short k : ~ ikey_valid k -> split k = Panic.
Proof.
  intros Hk. unfold ikey_valid in Hk. unfold split, SUFFIX_LEN. by rewrite index_short_suffix by lia.
Qed.

Lemma user_key_ok k : ikey_valid k -> user_key k = Ok (ikey_user k).
Proof. intros Hk. unfold user_key. by rewrite key_split_ok. Qed.

Lemma compare_user_keys_ok a b :
  ikey_valid a -> ikey_valid b ->
  compare_user_keys a b = Ok (slice_cmp (ikey_user a) (ikey_user b)).
Proof. intros. unfold compare_user_keys. by rewrite !user_key_ok by done. Qed.

Lemma internal_compare_ok a b :
  ikey_valid a -> ikey_valid b -> internal_compare a b = Ok (ikey_cmp a b).
Proof.
  intros. unfold internal_compare, ikey_cmp. rewrite !key_split_ok, !bind_Ok by done.
  by destruct (slice_cmp _ _).
Qed.

#[export] Program Instance InternalKeyComparator_laws : KeyComparatorLaws InternalKeyComparator := {
  valid_key := ikey_valid;
  kcmp := ikey_cmp;
  compare_kcmp := internal_compare_ok
}.
Next Obligation. done. Qed.
End Split.

(** ** Bytewise keys and the prefix fast path *)

Lemma from_le_bytes_app a b :
  from_le_bytes (a ++ b) = from_le_bytes a + from_le_bytes b * 2 ^ (8 * len a).
Proof.
  induction a as [|x a IH]; cbn [app from_le_bytes].
  { change (len (@nil byte)) with 0. rewrite Z.pow_0_r. lia. }
  rewrite IH, len_cons, !Z.shiftl_mul_pow2 by lia. pose proof (len_nonneg a).
  replace (8 * (1 + len a)) with (8 + 8 * len a) by lia. rewrite Z.pow_add_r by lia. ring.
Qed.

(** Big-endian values of equally long strings compare as the strings. *)
Lemma from_be_bytes_cmp a b :
  length a = length b -> (from_be_bytes a ?= from_be_bytes b) = slice_cmp a b.
Proof.
  revert b. induction a as [|x a IH]; intros [|y b]; try done.
  intros [= Hl]. unfold from_be_bytes in *. cbn [rev slice_cmp].
  rewrite !from_le_bytes_app. cbn [from_le_bytes]. rewrite !Z.shiftl_0_l, !Z.add_0_r.
  specialize (IH b Hl).
  assert (len (rev a) = len a) as Ha by (unfold len; by rewrite length_rev).
  assert (len (rev b) = len a) as Hb by (unfold len; rewrite length_rev; congruence).
  pose proof (from_le_bytes_range (rev a)) as Ra. pose proof (from_le_bytes_range (rev b)) as Rb.
  rewrite Ha in *. rewrite Hb in *. pose proof (len_nonneg a).
  assert (0 < 2 ^ (8 * len a)) by (apply Z.pow_pos_nonneg; lia).
  pose proof (byte_range x). pose proof (byte_range y).
  destruct (Z.compare_spec (byte.unsigned x) (byte.unsigned y)) as [He|Hlt|Hgt].
  - rewrite He, <- IH, Z.add_comm, (Z.add_comm (from_le_bytes (rev b))).
    apply Z.add_compare_mono_l.
  - apply Z.compare_lt_iff. nia.
  - apply Z.compare_gt_iff. nia.
Qed.

(** The zero-padded prefix of length [n]. *)
Definition pad (n : nat) (k : bytes) : bytes := take n (k ++ replicate n Byte.x00).

Lemma pad_length n k : length (pad n k) = n.
Proof. unfold pad. rewrite length_take, length_app, length_replicate. lia. Qed.

Lemma pad_cons n x k : pad (S n) (x :: k) = x :: pad n k.
Proof.
  unfold pad. cbn [app take]. f_equal. rewrite (replicate_S_end n), (assoc_L (++)).
  apply take_app_le. rewrite length_app, length_replicate. lia.
Qed.

Lemma pad_nil n : pad n [] = replicate n Byte.x00.
Proof. unfold pad. cbn [app]. apply take_ge. by rewrite length_replicate. Qed.

Lemma load_be_prefix_pad k : load_be_prefix k = from_be_bytes (pad 8 k).
Proof.
  unfold load_be_prefix, pad. f_equal.
  replace (Z.to_nat (Z.min (len k) 8)) with (Nat.min (length k) 8) by (unfold len; lia).
  rewrite take_app. destruct (Nat.le_ge_cases (length k) 8).
  - rewrite (Nat.min_l _ 8) by done. rewrite !(take_ge k) by lia. f_equal.
    rewrite drop_replicate, take_replicate. f_equal. lia.
  - rewrite (Nat.min_r _ 8) by done. replace (8 - length k)%nat with 0%nat by lia. done.
Qed.

Lemma slice_cmp_zeros_l n k : slice_cmp (replicate n Byte.x00) (pad n k) <> Gt.
Proof.
  revert k. induction n as [|n IH]; intros k; [done|].
  destruct k as [|x k]; [rewrite pad_nil; by rewrite slice_cmp_refl|].
  rewrite pad_cons. cbn [replicate slice_cmp]. pose proof (byte_range x).
  change (byte.unsigned Byte.x00) with 0.
  destruct (Z.compare_spec 0 (byte.unsigned x)); [apply IH|done|lia].
Qed.

(** Different padded prefixes order two keys as the full keys. *)
Lemma slice_cmp_pad n a b :
  slice_cmp (pad n a) (pad n b) <> Eq -> slice_cmp (pad n a) (pad n b) = slice_cmp a b.
Proof.
  revert a b. induction n as [|n IH]; intros a b; [done|].
  destruct a as [|x a], b as [|y b].
  - rewrite slice_cmp_refl. done.
  - intros Hne. pose proof (slice_cmp_zeros_l (S n) (y :: b)) as Hz. rewrite pad_nil in *.
    by destruct (slice_cmp (replicate _ _) _).
  - intros Hne. pose proof (slice_cmp_zeros_l (S n) (x :: a)) as Hz. rewrite pad_nil in *.
    rewrite (cmp_opp slice_cmp (replicate _ _)) in *. cbn [slice_cmp].
    destruct (slice_cmp (replicate _ _) _); done.
  - rewrite !pad_cons. cbn [slice_cmp]. destruct (_ ?= _); [apply IH|done..].
Qed.

Lemma load_be_prefix_cmp a b :
  load_be_prefix a <> load_be_prefix b ->
  slice_cmp a b = (load_be_prefix a ?= load_be_prefix b).
Proof.
  rewrite !load_be_prefix_pad, from_be_bytes_cmp by (by rewrite !pad_length).
  intros Hne. symmetry. apply slice_cmp_pad. intros E%slice_cmp_eq. by rewrite E in Hne.
Qed.

#[export] Program Instance BytewiseComparator_laws : KeyComparatorLaws BytewiseComparator := {
  valid_key _ := True;
  kcmp := slice_cmp
}.
Next Obligation. done. Qed.
Next Obligation. intros a b _ _ _. apply load_be_prefix_cmp. Qed.

(** ** Properties *)

Section CmpProperties.
Context `{Profile}.

(** C35: Internal-key order: on keys with a suffix the comparator returns the
    value of a total order - user keys ascending, then newest sequence number
    first - in which only equal keys tie, whichever way round it is asked. *)
Theorem internal_key_order a b :
  ikey_valid a -> ikey_valid b ->
  exists c, compare_internal_keys a b = Ok c /\ compare_internal_keys b a = Ok (CompOpp c) /\
    (c = Eq <-> a = b) /\
    (slice_cmp (ikey_user a) (ikey_user b) <> Eq -> c = slice_cmp (ikey_user a) (ikey_user b)) /\
    (ikey_user a = ikey_user b -> ikey_seq b < ikey_seq a -> c = Lt) /\
    forall d, ikey_valid d -> compare_internal_keys b d = Ok c -> compare_internal_keys a d = Ok c.
Proof.
  intros Ha Hb. exists (ikey_cmp a b). unfold compare_internal_keys. cbn [compare InternalKeyComparator_impl].
  rewrite !internal_compare_ok by done. rewrite (cmp_opp ikey_cmp a b). split_and!; [done|done|by apply ikey_cmp_eq|..].
  - unfold ikey_cmp. by destruct (slice_cmp _ _).
  - unfold ikey_cmp, ikey_seq. intros <-. rewrite slice_cmp_refl. intros Hs. apply Z.compare_lt_iff.
    destruct (Z.lt_ge_cases (ikey_packed b) (ikey_packed a)) as [|Hge]; [done|].
    pose proof (Z.div_le_mono _ _ 256 ltac:(lia) Hge). lia.
  - intros d Hd. rewrite !internal_compare_ok by done. intros [= Hbd]. f_equal. destruct (ikey_cmp a b) eqn:E.
    + apply ikey_cmp_eq in E as ->; [|done..]. exact Hbd.
    + exact (transitivity (R := clt ikey_cmp) E Hbd).
    + rewrite (cmp_opp ikey_cmp d a). rewrite (cmp_opp ikey_cmp b a) in E. rewrite (cmp_opp ikey_cmp d b) in Hbd.
      assert (ikey_cmp d b = Lt) as Hdb by (by destruct (ikey_cmp d b)).
      assert (ikey_cmp b a = Lt) as Hba by (by destruct (ikey_cmp b a)).
      by rewrite (transitivity (R := clt ikey_cmp) Hdb Hba).
Qed.

(** The comparator panics, in either build profile, on a key shorter than
    its suffix. *)
Lemma short_key_panics a b :
  len a < SUFFIX_LEN -> compare_internal_keys a b = Panic /\ compare_user_keys a b = Panic.
Proof.
  intros Ha. unfold compare_internal_keys, compare_user_keys, user_key.
  cbn [compare InternalKeyComparator_impl]. unfold internal_compare.
  by rewrite !(key_split_short a) by (unfold ikey_valid; change SUFFIX_LEN with 8 in Ha; lia).
Qed.
End CmpProperties.

(** The prefix fast path changes no answer, for every comparator that keeps
    the trait's promise; and the eight-byte big-endian prefix keeps it for
    bytewise order: where two prefixes differ they order the keys. *)
Theorem compare_with_prefix_agrees C `{KeyComparatorLaws C} a b :
  valid_key C a -> valid_key C b ->
  compare_with_prefix C a b = compare C a b /\
  (load_be_prefix a <> load_be_prefix b -> slice_cmp a b = (load_be_prefix a ?= load_be_prefix b)).
Proof.
  intros Ha Hb. split; [|apply load_be_prefix_cmp]. by rewrite (compare_with_prefix_kcmp C), (compare_kcmp (C := C)) by done.
Qed.

#[local] Instance dev_profile : Profile := true.

Lemma internal_key_order_witness :
  exists c, compare_internal_keys (make_ikey (str "k") 769) (make_ikey (str "k") 513) = Ok c /\ c = Lt.
Proof.
  destruct (internal_key_order (make_ikey (str "k") 769) (make_ikey (str "k") 513)) as (c & Hc & _ & _ & _ & Hlt & _).
  - vm_compute. discriminate.
  - vm_compute. discriminate.
  - exists c. split; [exact Hc|]. apply Hlt; vm_compute; reflexivity.
Defined.

(** Bytewise order with the fast path switched on. *)
Inductive PrefixedComparator : Type := PrefixedComparator_.
#[export] Instance PrefixedComparator_impl : KeyComparator PrefixedComparator := {
  compare a b := Ok (slice_cmp a b);
  HAS_SORT_PREFIX := true;
  sort_prefix := load_be_prefix
}.
#[export] Program Instance PrefixedComparator_laws : KeyComparatorLaws PrefixedComparator := {
  valid_key _ := True;
  kcmp := slice_cmp
}.
Next Obligation. done. Qed.
Next Obligation. intros a b _ _ _. apply load_be_prefix_cmp. Qed.

Lemma compare_with_prefix_agrees_witness :
  compare_with_prefix PrefixedComparator (str "prefix-one") (str "prefix-two") = Ok Lt /\
  slice_cmp (str "apple") (str "banana") = (load_be_prefix (str "apple") ?= load_be_prefix (str "banana")).
Proof.
  split.
  - refine (proj1 (compare_with_prefix_agrees PrefixedComparator (str "prefix-one") (str "prefix-two") _ _)); exact I.
  - refine (proj2 (compare_with_prefix_agrees PrefixedComparator (str "apple") (str "banana") _ _) _); [exact I..|].
    vm_compute. discriminate.
Defined.
