(* ===== verification/Source.v ===== *)
(** Merge inputs of [merge/source.rs]: the [MergeSource] trait as a class with
    the laws its clients use, the two implementations [VecSource] and
    [ArenaSource], the arena builder, and the sharding operations. *)

From S2P Require Import Prelude InternalKey Cmp.

(** ** The trait *)

Class MergeSource (Src : Type) : Type := {
  peek : Src -> outcome (option entry);
  advance : Src -> Src
}.

(** What a source promises a merger: it stands for the list of entries not
    yet consumed, [peek] shows its head and [advance] drops it. *)
Class MergeSourceLaws (Src : Type) `{MergeSource Src} : Type := {
  source_ok : Src -> Prop;
  contents : Src -> list entry;
  peek_contents s : source_ok s -> peek s = Ok (head (contents s));
  advance_contents s e l :
    source_ok s -> contents s = e :: l -> source_ok (advance s) /\ contents (advance s) = l
}.

(** ** [VecSource] *)

Module VecSource.
Record VecSource : Type := { entries : list entry; pos : Z }.

Definition new (entries : list entry) : VecSource := {| entries := entries; pos := 0 |}.
Definition peek (self : VecSource) : outcome (option entry) :=
  Ok (get_at self.(entries) self.(pos)).
Definition advance (self : VecSource) : VecSource :=
  {| entries := self.(entries); pos := self.(pos) + 1 |}.

#[export] Instance VecSource_impl : MergeSource VecSource := {
  Source.peek := peek;
  Source.advance := advance
}.

#[export] Program Instance VecSource_laws : MergeSourceLaws VecSource := {
  source_ok s := 0 <= s.(pos);
  contents s := drop (Z.to_nat s.(pos)) s.(entries)
}.
Next Obligation.
  intros s Hp. cbn. unfold peek. rewrite get_at_lookup by done.
  by rewrite head_lookup, lookup_drop, Nat.add_0_r.
Qed.
Next Obligation.
  intros s e l Hp Hc. cbn in *. split; [lia|].
  rewrite Z2Nat.inj_add, <- drop_drop, Hc by lia. done.
Qed.
End VecSource.

(** ** [ArenaSource] *)

Record EntrySpan : Type := { key_off : Z; key_len : Z; val_off : Z; val_len : Z }.

Record ArenaSource : Type := {
  arena : bytes;
  spans : list EntrySpan;
  pos : Z;
  end_ : Z
}.

Section ArenaSource.
Context `{Profile}.

Definition key (self : ArenaSource) (span : EntrySpan) : outcome bytes :=
  e ← add_u32 span.(key_off) span.(key_len);
  index_range self.(arena) span.(key_off) e.

Definition val (self : ArenaSource) (span : EntrySpan) : outcome bytes :=
  e ← add_u32 span.(val_off) span.(val_len);
  index_range self.(arena) span.(val_off) e.

(** [ArenaSource::len]. *)
Definition source_len (self : ArenaSource) : Z :=
  self.(end_) - Z.min self.(pos) self.(end_).

Definition total_len (self : ArenaSource) : Z := len self.(spans).

Definition shard (self : ArenaSource) (start end_idx : Z) : outcome ArenaSource :=
  _ ← assert ((start <=? end_idx) && (end_idx <=? len self.(spans)));
  Ok {| arena := self.(arena); spans := self.(spans); pos := start; end_ := end_idx |}.

Definition key_at (self : ArenaSource) (i : Z) : outcome bytes :=
  span ← index_at self.(spans) i; key self span.

Definition lower_bound (self : ArenaSource) (boundary_key : bytes) : outcome Z :=
  partition_point
    (fun i =>
       span ← index_at self.(spans) i;
       k ← key self span;
       c ← compare_user_keys k boundary_key;
       Ok (match c with Lt => true | _ => false end))
    (len self.(spans)).

Definition arena_peek (self : ArenaSource) : outcome (option entry) :=
  if self.(end_) <=? self.(pos) then Ok None
  else
    match get_at self.(spans) self.(pos) with
    | None => Ok None
    | Some span => k ← key self span; v ← val self span; Ok (Some (k, v))
    end.

Definition arena_advance (self : ArenaSource) : ArenaSource :=
  {| arena := self.(arena); spans := self.(spans); pos := self.(pos) + 1; end_ := self.(end_) |}.

#[export] Instance ArenaSource_impl : MergeSource ArenaSource := {
  peek := arena_peek;
  advance := arena_advance
}.
End ArenaSource.

(** ** [ArenaSourceBuilder] *)

Record ArenaSourceBuilder : Type := { b_arena : bytes; b_spans : list EntrySpan }.

Definition builder_new : ArenaSourceBuilder := {| b_arena := []; b_spans := [] |}.

(** The hints only size the allocations; [Default] is [new]. *)
Definition builder_with_capacity (entries_hint bytes_hint : Z) : ArenaSourceBuilder :=
  {| b_arena := []; b_spans := [] |}.

(** The offsets are [self.arena.len() as u32]: they wrap past 4 GiB. *)
Definition push (self : ArenaSourceBuilder) (key value : bytes) : ArenaSourceBuilder :=
  let key_off := as_u32 (len self.(b_arena)) in
  let arena := self.(b_arena) ++ key in
  let key_len := as_u32 (len key) in
  let val_off := as_u32 (len arena) in
  let arena := arena ++ value in
  let val_len := as_u32 (len value) in
  {| b_arena := arena;
     b_spans := self.(b_spans) ++
       [{| key_off := key_off; key_len := key_len; val_off := val_off; val_len := val_len |}] |}.

Definition build (self : ArenaSourceBuilder) : ArenaSource :=
  {| arena := self.(b_arena); spans := self.(b_spans); pos := 0; end_ := len self.(b_spans) |}.

(** Pushing a list of entries, as every caller does in a loop. *)
Definition push_all (b : ArenaSourceBuilder) (es : list entry) : ArenaSourceBuilder :=
  foldl (fun b e => push b e.1 e.2) b es.

(** ** The entries of an arena source

    [all_entries] are the entries of the unsharded source, [window] the ones
    its [(pos, end)] window still has to deliver. *)

Definition bytes_at (arena : bytes) (off n : Z) : bytes :=
  default [] (get_range arena off (off + n)).
Definition span_entry (arena : bytes) (s : EntrySpan) : entry :=
  (bytes_at arena s.(key_off) s.(key_len), bytes_at arena s.(val_off) s.(val_len)).

(** A span that lies inside the arena, below the reach of its [u32] fields. *)
Definition range_ok (arena : bytes) (off n : Z) : Prop :=
  0 <= off /\ 0 <= n /\ off + n <= len arena /\ off + n < 2 ^ 32.
Definition span_ok (arena : bytes) (s : EntrySpan) : Prop :=
  range_ok arena s.(key_off) s.(key_len) /\ range_ok arena s.(val_off) s.(val_len).

Definition all_entries (a : ArenaSource) : list entry := span_entry a.(arena) <$> a.(spans).
Definition window (a : ArenaSource) : list entry :=
  take (Z.to_nat (a.(end_) - a.(pos))) (drop (Z.to_nat a.(pos)) (all_entries a)).

Record arena_ok (a : ArenaSource) : Prop := {
  arena_spans_ok : Forall (span_ok a.(arena)) a.(spans);
  arena_pos_ok : 0 <= a.(pos);
  arena_end_ok : a.(end_) <= len a.(spans)
}.

Section ArenaLaws.
Context `{Profile}.
Implicit Types (a : ArenaSource) (b : ArenaSourceBuilder).

Lemma bytes_at_ok ar off n :
  range_ok ar off n ->
  (e ← add_u32 off n; index_range ar off e) = Ok (bytes_at ar off n).
Proof.
  intros (? & ? & ? & ?). rewrite add_u32_ok, bind_Ok by lia.
  unfold index_range, bytes_at. destruct (get_range ar off (off + n)) eqn:E; [done|].
  apply get_range_None in E. lia.
Qed.

Lemma key_ok a s : span_ok a.(arena) s -> key a s = Ok (span_entry a.(arena) s).1.
Proof. intros [? _]. by apply bytes_at_ok. Qed.
Lemma val_ok a s : span_ok a.(arena) s -> val a s = Ok (span_entry a.(arena) s).2.
Proof. intros [_ ?]. by apply bytes_at_ok. Qed.

Lemma all_entries_length a : length (all_entries a) = length a.(spans).
Proof. apply length_fmap. Qed.

Lemma arena_lookup a i s :
  arena_ok a -> get_at a.(spans) i = Some s ->
  span_ok a.(arena) s /\ all_entries a !! Z.to_nat i = Some (span_entry a.(arena) s).
Proof.
  intros Ha [Hi Hs]%get_at_Some. split.
  - eapply Forall_lookup_1; [apply (arena_spans_ok a Ha)|done].
  - unfold all_entries. by rewrite list_lookup_fmap, Hs.
Qed.

Lemma arena_peek_window a : arena_ok a -> arena_peek a = Ok (head (window a)).
Proof.
  intros Ha. pose proof (arena_pos_ok a Ha). pose proof (arena_end_ok a Ha).
  unfold arena_peek. destruct (Z.leb_spec a.(end_) a.(pos)) as [Hle|Hlt].
  { unfold window. by replace (Z.to_nat (a.(end_) - a.(pos))) with 0%nat by lia. }
  destruct (get_at_is_Some a.(spans) a.(pos)) as [s Hs]; [lia|]. rewrite Hs.
  destruct (arena_lookup a _ s Ha Hs) as [Hok Hl].
  rewrite key_ok, bind_Ok, val_ok, bind_Ok by done. do 2 f_equal.
  unfold window. rewrite head_lookup, lookup_take_lt, lookup_drop, Nat.add_0_r by lia.
  rewrite Hl. by destruct (span_entry _ _).
Qed.

Lemma arena_advance_window a e l :
  arena_ok a -> window a = e :: l -> arena_ok (arena_advance a) /\ window (arena_advance a) = l.
Proof.
  intros [Hs Hp He] Hw. split; [split; cbn; [done|lia|done]|].
  unfold window in *. cbn [arena_advance end_ pos]. change (all_entries (arena_advance a)) with (all_entries a).
  destruct (decide (a.(end_) <= a.(pos))) as [Hle|Hlt].
  { by replace (Z.to_nat (a.(end_) - a.(pos))) with 0%nat in Hw by lia. }
  replace (Z.to_nat (a.(end_) - a.(pos))) with (S (Z.to_nat (a.(end_) - (a.(pos) + 1)))) in Hw by lia.
  rewrite Z2Nat.inj_add, <- drop_drop by lia.
  destruct (drop (Z.to_nat a.(pos)) (all_entries a)) as [|e' l']; [done|].
  cbn in Hw. by simplify_eq.
Qed.

#[export] Program Instance ArenaSource_laws : MergeSourceLaws ArenaSource := {
  source_ok := arena_ok;
  contents := window;
  peek_contents := arena_peek_window;
  advance_contents := arena_advance_window
}.

(** *** Building *)

(** The bytes an entry list occupies in the arena. *)
Definition arena_bytes (es : list entry) : Z := foldr (fun e n => len e.1 + len e.2 + n) 0 es.

Lemma arena_bytes_app es fs : arena_bytes (es ++ fs) = arena_bytes es + arena_bytes fs.
Proof. induction es as [|e es IH]; cbn; [done|]. unfold arena_bytes in *. lia. Qed.
Lemma arena_bytes_nonneg es : 0 <= arena_bytes es.
Proof. induction es as [|e es IH]; cbn; [done|]. fold (arena_bytes es). len_lia. Qed.

Lemma range_ok_extend ar t off n : range_ok ar off n -> range_ok (ar ++ t) off n.
Proof. unfold range_ok. len_lia. Qed.

Lemma bytes_at_extend ar t off n :
  range_ok ar off n -> bytes_at (ar ++ t) off n = bytes_at ar off n.
Proof.
  intros Hr. unfold bytes_at.
  destruct (get_range ar off (off + n)) as [m|] eqn:E; [by apply (get_range_extend _ t) in E as ->|].
  apply get_range_None in E. destruct Hr. lia.
Qed.

(** The builder [b] holds the entries [es]. *)
Record builder_repr b (es : list entry) : Prop := {
  br_spans : Forall (span_ok b.(b_arena)) b.(b_spans);
  br_entries : span_entry b.(b_arena) <$> b.(b_spans) = es;
  br_len : len b.(b_arena) = arena_bytes es
}.

Lemma bytes_at_app p m s : len p + len m < 2 ^ 32 ->
  range_ok (p ++ m ++ s) (len p) (len m) /\ bytes_at (p ++ m ++ s) (len p) (len m) = m.
Proof.
  intros Hl. split; [unfold range_ok; len_lia|]. unfold bytes_at. by rewrite get_range_app.
Qed.

Lemma push_repr b es k v :
  builder_repr b es -> arena_bytes (es ++ [(k, v)]) < 2 ^ 32 ->
  builder_repr (push b k v) (es ++ [(k, v)]).
Proof.
  intros [Hs He Hl] Hlt. rewrite arena_bytes_app in Hlt. cbn [arena_bytes foldr fst snd] in Hlt.
  rewrite Z.add_0_r in Hlt. rewrite <- Hl in Hlt.
  pose proof (len_nonneg k). pose proof (len_nonneg v). pose proof (len_nonneg b.(b_arena)).
  unfold push. rewrite len_app, !as_u32_small by lia.
  destruct (bytes_at_app b.(b_arena) k v) as [Hk1 Hk2]; [lia|].
  destruct (bytes_at_app (b.(b_arena) ++ k) v []) as [Hv1 Hv2]; [len_lia|].
  rewrite app_nil_r, len_app in Hv1, Hv2. rewrite (assoc_L (++)) in Hk1, Hk2.
  split; cbn [b_arena b_spans].
  - apply Forall_app. split; [|by apply Forall_singleton].
    eapply Forall_impl; [exact Hs|]. intros s [? ?]. rewrite <- (assoc_L (++)).
    split; by apply range_ok_extend.
  - rewrite fmap_app. cbn [fmap list_fmap]. unfold span_entry at 2. cbn.
    rewrite Hk2, Hv2. f_equal. rewrite <- He. apply list_fmap_ext.
    intros i s Hi. rewrite Forall_lookup in Hs. destruct (Hs i s Hi).
    unfold span_entry. by rewrite <- (assoc_L (++)), !bytes_at_extend by done.
  - rewrite arena_bytes_app. cbn. len_lia.
Qed.

Lemma push_all_repr b es fs :
  builder_repr b es -> arena_bytes (es ++ fs) < 2 ^ 32 -> builder_repr (push_all b fs) (es ++ fs).
Proof.
  revert b es. induction fs as [|[k v] fs IH]; intros b es Hb Hlt; cbn [push_all foldl].
  { by rewrite app_nil_r. }
  rewrite cons_middle, (assoc_L (++)) in *. apply IH; [|done]. apply push_repr; [done|].
  rewrite arena_bytes_app in Hlt. pose proof (arena_bytes_nonneg fs). lia.
Qed.

Lemma builder_new_repr : builder_repr builder_new [].
Proof. by split. Qed.

Lemma build_ok b es :
  builder_repr b es ->
  arena_ok (build b) /\ all_entries (build b) = es /\ window (build b) = es.
Proof.
  intros [Hs He Hl]. split_and!.
  - split; cbn; [done|lia|lia].
  - done.
  - unfold window, build, all_entries. cbn [end_ pos arena spans].
    rewrite He. cbn. rewrite drop_0. apply take_ge.
    rewrite <- He, length_fmap. unfold len. lia.
Qed.
End ArenaLaws.

(** ** Sharding *)

(** Order of entries by user key only, and the entries below a user key. *)
Definition user_cmp (e1 e2 : entry) : comparison := slice_cmp (ikey_user e1.1) (ikey_user e2.1).
Definition user_lt (uk : bytes) (e : entry) : Prop := slice_cmp (ikey_user e.1) uk = Lt.
#[export] Instance user_lt_dec uk e : Decision (user_lt uk e).
Proof. unfold user_lt. solve_decision. Defined.
#[export] Instance user_cmp_order : CmpOrder user_cmp.
Proof.
  split; unfold user_cmp; intros.
  - apply cmp_opp; apply _.
  - eapply (cmp_le_trans slice_cmp); eauto.
Qed.

(** Internal-key order refines user-key order. *)
Lemma ikey_le_user e1 e2 : cle (on_key ikey_cmp) e1 e2 -> cle user_cmp e1 e2.
Proof. unfold cle, on_key, ikey_cmp, user_cmp. destruct (slice_cmp _ _); congruence. Qed.

(** A list sorted by user key is its entries below a boundary followed by the
    others. *)
Lemma filter_user_lt_partition uk es :
  StronglySorted (cle user_cmp) es ->
  es = filter (user_lt uk) es ++ filter (fun e => ~ user_lt uk e) es.
Proof.
  induction 1 as [|e es Hs IH Hall]; [done|]. rewrite !filter_cons.
  destruct (decide (user_lt uk e)) as [Hlt|Hge].
  - rewrite decide_False by tauto. cbn. by f_equal.
  - rewrite decide_True by done.
    assert (filter (user_lt uk) es = []) as Hnil.
    { apply filter_none. eapply Forall_impl; [exact Hall|]. intros e' Hle Hlt. apply Hge.
      eapply (cle_clt_trans slice_cmp); [exact Hle|exact Hlt]. }
    rewrite Hnil in *. cbn in *. by rewrite <- IH.
Qed.

Section Shards.
Context `{Profile}.
Implicit Types (a : ArenaSource).

Lemma get_at_all_entries a i e :
  arena_ok a -> 0 <= i -> all_entries a !! Z.to_nat i = Some e -> key_at a i = Ok e.1.
Proof.
  intros Ha Hi He. unfold key_at, index_at.
  assert (0 <= i < len a.(spans)) as Hr.
  { apply lookup_lt_Some in He. rewrite all_entries_length in He. unfold len. lia. }
  destruct (get_at_is_Some a.(spans) i Hr) as [s Hs].
  destruct (arena_lookup a i s Ha Hs) as [Hok Hl].
  rewrite Hs. cbn. rewrite key_ok by done. congruence.
Qed.

Lemma shard_spec a s t :
  arena_ok a -> 0 <= s <= t -> t <= total_len a ->
  exists a', shard a s t = Ok a' /\ arena_ok a' /\ all_entries a' = all_entries a /\
    window a' = take (Z.to_nat (t - s)) (drop (Z.to_nat s) (all_entries a)).
Proof.
  intros [Hs Hp He] Hst Ht. unfold shard, total_len in *.
  replace ((s <=? t) && (t <=? len a.(spans))) with true by lia.
  eexists. split; [reflexivity|]. split; [split; cbn; [done|lia|lia]|]. done.
Qed.

(** The boundary search counts the entries whose user key is below the
    boundary's. *)
Lemma lower_bound_spec a boundary :
  arena_ok a -> StronglySorted (cle user_cmp) (all_entries a) ->
  Forall (fun e => ikey_valid e.1) (all_entries a) -> ikey_valid boundary ->
  lower_bound a boundary = Ok (len (filter (user_lt (ikey_user boundary)) (all_entries a))).
Proof.
  intros Ha Hs Hv Hb. set (uk := ikey_user boundary).
  pose proof (filter_user_lt_partition uk _ Hs) as Hpart.
  assert (length a.(spans) = length (all_entries a)) as Hlen by (by rewrite all_entries_length).
  pose proof (length_filter (user_lt uk) (all_entries a)) as Hle.
  unfold lower_bound. apply partition_point_spec; [unfold len; lia|].
  intros i Hi. unfold len in Hi.
  destruct (lookup_lt_is_Some_2 (all_entries a) (Z.to_nat i)) as [e He]; [lia|].
  pose proof (get_at_all_entries a i e Ha ltac:(lia) He) as Hk. unfold key_at in Hk.
  destruct (index_at a.(spans) i) as [s| | |]; try done. rewrite bind_Ok in Hk. rewrite bind_Ok, Hk, bind_Ok.
  rewrite Forall_lookup in Hv. rewrite compare_user_keys_ok, bind_Ok by eauto. f_equal.
  rewrite Hpart in He. fold uk.
  destruct (Z.ltb_spec i (len (filter (user_lt uk) (all_entries a)))) as [Hlt|Hge].
  - rewrite lookup_app_l in He by (unfold len in Hlt; lia).
    apply list_elem_of_lookup_2, list_elem_of_filter in He as [Heq _].
    unfold user_lt in Heq. by rewrite Heq.
  - rewrite lookup_app_r in He by (unfold len in Hge; lia).
    apply list_elem_of_lookup_2, list_elem_of_filter in He as [Hne _].
    unfold user_lt in Hne. by destruct (slice_cmp _ _).
Qed.
End Shards.

(** ** Properties *)

Section SourceProperties.
Context `{Profile}.

Lemma iter_advance a (i : nat) :
  Nat.iter i arena_advance a =
    {| arena := a.(arena); spans := a.(spans); pos := a.(pos) + Z.of_nat i; end_ := a.(end_) |}.
Proof.
  induction i as [|i IH]; [change (Z.of_nat 0) with 0; rewrite Z.add_0_r; by destruct a|].
  rewrite Nat.iter_succ, IH. unfold arena_advance. cbn [arena spans pos end_]. f_equal. lia.
Qed.

(** The [i]-th entry a walk from [a] sees. *)
Lemma peek_iter a (i : nat) :
  arena_ok a -> arena_peek (Nat.iter i arena_advance a) = Ok (window a !! i).
Proof.
  intros [Hs Hp He]. rewrite iter_advance. destruct (Z.leb_spec a.(end_) (a.(pos) + Z.of_nat i)) as [Hle|Hlt].
  - unfold arena_peek. cbn [end_ pos]. replace (_ <=? _) with true by lia.
    rewrite lookup_ge_None_2; [done|]. unfold window. rewrite length_take. lia.
  - rewrite arena_peek_window by (split; cbn; [done|lia|lia]). f_equal. unfold window. cbn [end_ pos].
    change (all_entries {| arena := a.(arena); spans := _; pos := _; end_ := _ |}) with (all_entries a).
    rewrite head_lookup, !lookup_take_lt, !lookup_drop by lia. f_equal. lia.
Qed.

(** An arena source gives back what was pushed into its builder: the
    [i]-th peek returns the [i]-th entry, and none past the last, while the
    bytes pushed stay below 4 GiB. *)
Theorem arena_roundtrip es (i : nat) :
  arena_bytes es < 2 ^ 32 ->
  arena_peek (Nat.iter i arena_advance (build (push_all builder_new es))) = Ok (es !! i).
Proof.
  intros Hb. destruct (build_ok (push_all builder_new es) es) as (Ha & _ & Hw).
  { exact (push_all_repr builder_new [] es builder_new_repr Hb). }
  by rewrite peek_iter, Hw.
Qed.

(** A shard of a source is a window on it: within bounds it shows the
    entries from [s] up to [t] and no others; out of bounds it panics. *)
Theorem shard_window es s t :
  arena_bytes es < 2 ^ 32 -> 0 <= s ->
  let a := build (push_all builder_new es) in
  (s <= t <= len es -> exists a', shard a s t = Ok a' /\ source_len a' = t - s /\
    forall i : nat, arena_peek (Nat.iter i arena_advance a') =
      Ok (if decide (Z.of_nat i < t - s) then es !! (Z.to_nat s + i)%nat else None)) /\
  (~ s <= t <= len es -> shard a s t = Panic).
Proof.
  intros Hb Hs. destruct (build_ok (push_all builder_new es) es) as (Ha & Hall & _).
  { exact (push_all_repr builder_new [] es builder_new_repr Hb). }
  cbv zeta. set (a := build (push_all builder_new es)) in *.
  assert (total_len a = len es) as Hl by (unfold total_len, len; by rewrite <- Hall, all_entries_length). split.
  - intros Ht. destruct (shard_spec a s t Ha) as (a' & Hsh & Ha' & _ & Hw); [lia|lia|]. exists a'. split; [done|]. split.
    + unfold shard in Hsh. destruct (assert _); try done. rewrite bind_Ok in Hsh. injection Hsh as <-.
      unfold source_len. cbn [end_ pos]. lia.
    + intros i. rewrite peek_iter, Hw, Hall by done. f_equal. case_decide.
      * by rewrite lookup_take_lt, lookup_drop by lia.
      * by rewrite lookup_take_ge by lia.
  - intros Ht. unfold shard. unfold total_len in Hl. rewrite Hl.
    by replace ((s <=? t) && (t <=? len es)) with false by lia.
Qed.

(** C36: The boundary search: on a source sorted by user key it returns the one
    index that separates the entries below the boundary's user key from the
    others. *)
Theorem lower_bound_correct es boundary :
  arena_bytes es < 2 ^ 32 -> StronglySorted (cle user_cmp) es ->
  Forall (fun e => ikey_valid e.1) es -> ikey_valid boundary ->
  exists idx, lower_bound (build (push_all builder_new es)) boundary = Ok idx /\ 0 <= idx <= len es /\
    forall (i : nat) e, es !! i = Some e ->
      (Z.of_nat i < idx <-> slice_cmp (ikey_user e.1) (ikey_user boundary) = Lt).
Proof.
  intros Hb Hs Hv Hbv. destruct (build_ok (push_all builder_new es) es) as (Ha & Hall & _).
  { exact (push_all_repr builder_new [] es builder_new_repr Hb). }
  rewrite lower_bound_spec, Hall by (done || by rewrite Hall). set (lt := user_lt (ikey_user boundary)).
  exists (len (filter lt es)). split; [done|]. pose proof (length_filter lt es).
  split; [unfold len; lia|]. intros i e He. change (slice_cmp _ _ = Lt) with (lt e).
  rewrite (filter_user_lt_partition (ikey_user boundary) es Hs) in He. fold lt in He.
  apply lookup_app_Some in He as [He|[Hge He]].
  - apply lookup_lt_Some in He as Hlt. apply list_elem_of_lookup_2, list_elem_of_filter in He as [He _].
    split; [done|]. intros _. unfold len. lia.
  - apply list_elem_of_lookup_2, list_elem_of_filter in He as [He _]. split; [|done]. unfold len. lia.
Qed.

(** Past 4 GiB the arena's offsets wrap silently: an entry pushed when the
    arena holds exactly 2^32 bytes is recorded at offset zero, and its key is
    read back as the first bytes of the arena. *)
Theorem arena_offset_wraps b k v :
  len b.(b_arena) = 2 ^ 32 -> len k < 2 ^ 32 ->
  exists s, last (b_spans (push b k v)) = Some s /\ s.(key_off) = 0 /\
    key (build (push b k v)) s = Ok (take (length k) b.(b_arena)).
Proof.
  intros Ha Hk. unfold push. rewrite Ha. cbn [b_spans]. rewrite last_snoc. eexists. split; [reflexivity|].
  split; [reflexivity|]. unfold key, build. cbn [b_arena b_spans key_off key_len arena].
  pose proof (len_nonneg k). change (as_u32 (2 ^ 32)) with 0. rewrite as_u32_small by lia.
  rewrite add_u32_ok, bind_Ok by lia. unfold index_range.
  rewrite (proj2 (get_range_Some _ _ _ (take (length k) b.(b_arena)))); [done|].
  exists [], (drop (length k) b.(b_arena) ++ k ++ v). split_and!.
  - cbn [app]. by rewrite (assoc_L (++)), take_drop, (assoc_L (++)).
  - done.
  - rewrite len_take. change (len (@nil byte)) with 0. unfold len in *. lia.
Qed.
End SourceProperties.

#[local] Instance dev_profile : Profile := true.

Definition toy_run : list entry :=
  [(make_ikey (str "a") 513, str "1"); (make_ikey (str "b") 769, []); (make_ikey (str "b") 257, str "2")].

Lemma arena_roundtrip_witness :
  arena_peek (Nat.iter 1 arena_advance (build (push_all builder_new toy_run))) =
    Ok (Some (make_ikey (str "b") 769, [])).
Proof. exact (arena_roundtrip toy_run 1 eq_refl). Defined.

Lemma shard_window_witness :
  (exists a', shard (build (push_all builder_new toy_run)) 1 3 = Ok a' /\ source_len a' = 2) /\
  shard (build (push_all builder_new toy_run)) 2 4 = Panic.
Proof.
  split.
  - destruct (shard_window toy_run 1 3) as [Hin _]; [reflexivity|lia|].
    destruct Hin as (a' & ? & ? & _); [vm_compute; split; discriminate|]. by exists a'.
  - apply (shard_window toy_run 2 4); [reflexivity|lia|]. vm_compute. intros [_ Hn]. by apply Hn.
Defined.

Lemma lower_bound_correct_witness :
  exists idx, lower_bound (build (push_all builder_new toy_run)) (make_ikey (str "b") 0) = Ok idx /\ 0 <= idx <= 3.
Proof.
  destruct (lower_bound_correct toy_run (make_ikey (str "b") 0)) as (idx & ? & ? & _).
  - reflexivity.
  - repeat constructor; vm_compute; discriminate.
  - repeat constructor; vm_compute; discriminate.
  - vm_compute. discriminate.
  - by exists idx.
Defined.

(** A builder whose arena holds 2^32 zero bytes. *)
Definition full_builder : ArenaSourceBuilder :=
  {| b_arena := replicate (Z.to_nat (2 ^ 32)) Byte.x00; b_spans := [] |}.

Lemma arena_offset_wraps_witness :
  exists s, last (b_spans (push full_builder (str "key") (str "value"))) = Some s /\ s.(key_off) = 0 /\
    key (build (push full_builder (str "key") (str "value"))) s = Ok (take 3 full_builder.(b_arena)).
Proof.
  apply (arena_offset_wraps full_builder (str "key") (str "value")).
  - unfold full_builder, len. cbn [b_arena]. rewrite length_replicate. apply Z2Nat.id. lia.
  - reflexivity.
Defined.
