(* ===== verification/Kmerge.v ===== *)
(** What a k-way merge promises: the abstract specification that both mergers
    of [merge/merger.rs] refine, its consequences (the output is a sorted
    permutation of the inputs, unique when no two keys tie), and the
    [KWayMerge] trait as a class with that promise as its law. *)

From S2P Require Import Prelude InternalKey Cmp Source.

(** ** The specification

    [kmerge cmp ls out]: [out] is obtained from the input lists [ls] by
    repeatedly taking a head that no other head precedes. *)
Inductive kmerge (cmp : bytes -> bytes -> comparison) : list (list entry) -> list entry -> Prop :=
  | kmerge_done ls :
      Forall (fun l => l = []) ls -> kmerge cmp ls []
  | kmerge_step ls i e l out :
      ls !! i = Some (e :: l) ->
      (forall j e' l', ls !! j = Some (e' :: l') -> cle (on_key cmp) e e') ->
      kmerge cmp (<[i := l]> ls) out ->
      kmerge cmp ls (e :: out).

Lemma concat_insert_tail (ls : list (list entry)) i e l :
  ls !! i = Some (e :: l) -> concat ls ≡ₚ e :: concat (<[i := l]> ls).
Proof.
  intros Hi. apply list_elem_of_split_length in Hi as (l1 & l2 & -> & ->).
  rewrite insert_app_r_alt, Nat.sub_diag by lia. cbn.
  rewrite !concat_app. cbn. apply Permutation_sym, Permutation_middle.
Qed.

Section Kmerge.
Context (cmp : bytes -> bytes -> comparison) `{!CmpOrder cmp}.
Implicit Types (ls : list (list entry)) (out : list entry).

Lemma kmerge_perm ls out : kmerge cmp ls out -> out ≡ₚ concat ls.
Proof.
  induction 1 as [ls Hnil|ls i e l out Hi Hmin _ IH].
  - enough (concat ls = []) as -> by done.
    induction Hnil as [|l ls -> _ IH]; [done|]. exact IH.
  - by rewrite IH, (concat_insert_tail ls i e l).
Qed.

Lemma kmerge_sorted ls out :
  kmerge cmp ls out -> Forall (StronglySorted (cle (on_key cmp))) ls ->
  StronglySorted (cle (on_key cmp)) out.
Proof.
  induction 1 as [ls Hnil|ls i e l out Hi Hmin Hrest IH]; intros Hs; [constructor|].
  pose proof (Forall_lookup_1 _ _ _ _ Hs Hi) as Hel. inversion Hel as [|? ? Hl Hle]; subst.
  constructor.
  - apply IH. by apply Forall_insert.
  - apply kmerge_perm in Hrest. rewrite Hrest.
    assert (Forall (cle (on_key cmp) e) (concat ls)) as Hall.
    { apply Forall_concat, Forall_lookup. intros j l' Hj.
      destruct l' as [|e' l']; [done|].
      pose proof (Forall_lookup_1 _ _ _ _ Hs Hj) as Hs'.
      inversion Hs' as [|? ? _ Hle']; subst. specialize (Hmin j e' l' Hj).
      constructor; [done|]. eapply Forall_impl; [exact Hle'|].
      intros x Hx. eapply cle_preorder; eauto; apply _. }
    rewrite (concat_insert_tail ls i e l Hi) in Hall. by inversion Hall.
Qed.

(** When keys that compare equal are equal, a sorted list without repeated
    keys is strictly sorted. *)
Lemma sorted_strict (P : bytes -> Prop) (es : list entry) :
  (forall a b, P a -> P b -> cmp a b = Eq -> a = b) -> Forall (fun e => P e.1) es -> NoDup es.*1 ->
  StronglySorted (cle (on_key cmp)) es -> StronglySorted (clt (on_key cmp)) es.
Proof.
  intros Heq Hv Hnd Hs. induction Hs as [|e l Hs IH He]; [constructor|].
  inversion Hv as [|? ? Hve Hv']; subst. cbn in Hnd. apply NoDup_cons in Hnd as [Hni Hnd].
  constructor; [by apply IH|]. apply Forall_forall. intros e' He'. rewrite Forall_forall in He, Hv'.
  specialize (He e' He'). unfold cle, clt, on_key in *. destruct (cmp e.1 e'.1) eqn:E; [|done..].
  exfalso. apply Hni. rewrite (Heq _ _ Hve (Hv' e' He') E). by apply list_elem_of_fmap_2.
Qed.

(** Without repeated keys there is one sorted order: all merges agree. *)
Lemma sorted_unique (P : bytes -> Prop) (es fs : list entry) :
  (forall a b, P a -> P b -> cmp a b = Eq -> a = b) -> Forall (fun e => P e.1) es -> NoDup es.*1 ->
  StronglySorted (cle (on_key cmp)) es -> StronglySorted (cle (on_key cmp)) fs -> es ≡ₚ fs -> es = fs.
Proof.
  intros Heq Hv Hnd Hs Hf Hp. apply (clt_sorted_unique (on_key cmp)); [|..|done].
  - by apply (sorted_strict P).
  - apply (sorted_strict P); [done|by rewrite <- Hp..|done].
Qed.
End Kmerge.

(** ** The [KWayMerge] trait

    [run] drives the merge to completion, feeding the callback [f] with every
    entry; the callback's captured state is threaded through.  [fuel] bounds
    the number of callbacks. *)
Class KWayMerge (M Src : Type) : Type := {
  new : list Src -> outcome M;
  run : forall {St : Type}, nat -> M -> (bytes -> bytes -> St -> St) -> St -> outcome (M * St)
}.
Arguments new M {_ _} sources.
Arguments run {_ _ _ _} fuel self f st.

(** Feeding a list of entries to a callback. *)
Definition feed {St} (f : bytes -> bytes -> St -> St) (st : St) (es : list entry) : St :=
  foldl (fun st e => f e.1 e.2 st) st es.

Lemma feed_app {St} (f : bytes -> bytes -> St -> St) st es fs :
  feed f st (es ++ fs) = feed f (feed f st es) fs.
Proof. apply foldl_app. Qed.

(** The inputs a merger accepts: well-formed sources of keys the comparator
    is meant for, and how many entries they hold. *)
Definition sources_valid (C : Type) {Src} `{KeyComparatorLaws C} `{MergeSourceLaws Src}
    (sources : list Src) : Prop :=
  Forall (fun s => source_ok s /\ Forall (fun e => valid_key C e.1) (contents s)) sources.

Definition total_entries {Src} `{MergeSourceLaws Src} (sources : list Src) : nat :=
  length (concat (contents <$> sources)).

(** A merger never panics on valid inputs, terminates within one round per
    entry, and feeds its callback a [kmerge] of the inputs. *)
Class KWayMergeLaws (M Src C : Type) `{KWayMerge M Src} `{KeyComparatorLaws C}
    `{MergeSourceLaws Src} : Prop := {
  merge_refines (sources : list Src) fuel :
    sources_valid C sources -> (total_entries sources <= fuel)%nat ->
    exists m out,
      new M sources = Ok m /\
      kmerge (kcmp C) (contents <$> sources) out /\
      forall St (f : bytes -> bytes -> St -> St) st,
        exists m', run fuel m f st = Ok (m', feed f st out)
}.
