(* ===== verification/LoserTree.v ===== *)
(** [LoserTreeMerger] of [merge/merger.rs]: the tournament tree over padded
    leaves, its recursive construction, the leaf-to-root replay and the merge
    loop, with the tournament invariant that makes them a k-way merge. *)

From S2P Require Import Prelude InternalKey Cmp Source Kmerge.

Record LoserTreeMerger (Src : Type) : Type := {
  sources : list Src;
  tree : list Z;
  winner : Z;
  k_padded : Z
}.
Arguments sources {Src} _.
Arguments tree {Src} _.
Arguments winner {Src} _.
Arguments k_padded {Src} _.

Definition NONE_YET : Z := usize_MAX.

(** [usize::next_power_of_two]. *)
Definition next_power_of_two (n : Z) : Z := 2 ^ Z.log2_up n.

Section LoserTreeMerger.
Context {Src C : Type} `{MergeSource Src} `{KeyComparator C}.
#[local] Abbreviation LT := (LoserTreeMerger Src).
Implicit Types (self : LT).

Definition set_sources self ss : LT :=
  {| sources := ss; tree := self.(tree); winner := self.(winner); k_padded := self.(k_padded) |}.
Definition set_tree self t : LT :=
  {| sources := self.(sources); tree := t; winner := self.(winner); k_padded := self.(k_padded) |}.
Definition set_winner self w : LT :=
  {| sources := self.(sources); tree := self.(tree); winner := w; k_padded := self.(k_padded) |}.

Definition peek_at self (leaf : Z) : outcome (option entry) :=
  if len self.(sources) <=? leaf then Ok None
  else s ← index_at self.(sources) leaf; peek s.

Definition less self (a b : Z) : outcome bool :=
  pa ← peek_at self a;
  pb ← peek_at self b;
  match pa, pb with
  | Some (ka, _), Some (kb, _) =>
      c ← compare_with_prefix C ka kb;
      Ok (match c with Lt => true | _ => false end)
  | Some _, None => Ok true
  | None, Some _ => Ok false
  | None, None => Ok false
  end.

(** Fuel: the height of the subtree. *)
Fixpoint build_subtree (fuel : nat) self (node : Z) : outcome (LT * Z) :=
  if self.(k_padded) <=? node then Ok (self, node - self.(k_padded))
  else
    match fuel with
    | O => OutOfFuel
    | S fuel' =>
        '(self, left_) ← build_subtree fuel' self (2 * node);
        '(self, right_) ← build_subtree fuel' self (2 * node + 1);
        l ← less self left_ right_;
        let '(winner, loser) := if l : bool then (left_, right_) else (right_, left_) in
        tree ← set_at self.(tree) node loser;
        Ok (set_tree self tree, winner)
    end.

Definition height self : nat := Z.to_nat (Z.log2 self.(k_padded)).

(** [build]: the method, not the arena builder's. *)
Definition build self : outcome LT :=
  '(self, w) ← build_subtree (height self) self 1;
  Ok (set_winner self w).

Fixpoint replay_loop (fuel : nat) self (node contender : Z) : outcome LT :=
  if 1 <=? node then
    match fuel with
    | O => OutOfFuel
    | S fuel' =>
        loser_here ← index_at self.(tree) node;
        l ← less self contender loser_here;
        '(self, contender) ←
          (if negb l
           then tree ← set_at self.(tree) node contender; Ok (set_tree self tree, loser_here)
           else Ok (self, contender));
        if node =? 1 then Ok (set_winner self contender)
        else replay_loop fuel' self (node / 2) contender
    end
  else Ok self.

Definition replay_from_leaf self (leaf : Z) : outcome LT :=
  replay_loop (height self) self ((leaf + self.(k_padded)) / 2) leaf.

(** [LoserTreeMerger::new]. *)
Definition lt_new (ss : list Src) : outcome LT :=
  let k := next_power_of_two (Z.max (len ss) 1) in
  build {| sources := ss; tree := replicate (Z.to_nat k) NONE_YET; winner := 0; k_padded := k |}.

(** [LoserTreeMerger::run]. *)
Fixpoint lt_run {St} (fuel : nat) self (f : bytes -> bytes -> St -> St) (st : St) :
    outcome (LT * St) :=
  if len self.(sources) <=? self.(winner) then Ok (self, st)
  else
    src ← index_at self.(sources) self.(winner);
    p ← peek src;
    match p with
    | None => Ok (self, st)
    | Some (k, v) =>
        match fuel with
        | O => OutOfFuel
        | S fuel' =>
            let st := f k v st in
            let w := self.(winner) in
            ss ← set_at self.(sources) w (advance src);
            self ← replay_from_leaf (set_sources self ss) w;
            lt_run fuel' self f st
        end
    end.

(** One iteration of that loop: the entry it hands to the callback and the
    tree afterwards, or the end of the loop. *)
Definition lt_step self : outcome (option (entry * LT)) :=
  if len self.(sources) <=? self.(winner) then Ok None
  else
    src ← index_at self.(sources) self.(winner);
    p ← peek src;
    match p with
    | None => Ok None
    | Some (k, v) =>
        let w := self.(winner) in
        ss ← set_at self.(sources) w (advance src);
        self ← replay_from_leaf (set_sources self ss) w;
        Ok (Some ((k, v), self))
    end.

Lemma lt_run_S {St} fuel self (f : bytes -> bytes -> St -> St) st :
  lt_run (S fuel) self f st =
    (o ← lt_step self;
     match o with
     | None => Ok (self, st)
     | Some (e, self') => lt_run fuel self' f (f e.1 e.2 st)
     end).
Proof.
  unfold lt_step. cbn [lt_run]. case_match; [done|]. destruct (index_at _ _) as [src| | |]; try done. rewrite !bind_Ok.
  destruct (peek src) as [[[k v]|]| | |]; try done. rewrite !bind_Ok. destruct (set_at _ _ _) as [ss| | |]; try done.
  rewrite !bind_Ok. by destruct (replay_from_leaf _ _).
Qed.
End LoserTreeMerger.
Arguments lt_new {Src} C {_ _} ss.
Arguments lt_run {Src} C {_ _ St} fuel self f st.
Arguments lt_step {Src} C {_ _} self.
Arguments less {Src} C {_ _} self a b.
Arguments build_subtree {Src} C {_ _} fuel self node.
Arguments build {Src} C {_ _} self.
Arguments replay_loop {Src} C {_ _} fuel self node contender.
Arguments replay_from_leaf {Src} C {_ _} self leaf.

(** The merger type carries its comparator, as [LoserTreeMerger<S, C>]. *)
Record LoserTreeOf (Src C : Type) : Type := lt_of { lt_merger : LoserTreeMerger Src }.
Arguments lt_of {Src C} _.
Arguments lt_merger {Src C} _.

#[export] Instance LoserTree_impl {Src C} `{MergeSource Src} `{KeyComparator C} :
    KWayMerge (LoserTreeOf Src C) Src := {
  new ss := m ← lt_new C ss; Ok (lt_of m);
  run St fuel m f st := '(m, st) ← lt_run C fuel (lt_merger m) f st; Ok (lt_of m, st)
}.

(** ** The tournament invariant *)

(** Fronts of leaves are ordered by key, an exhausted leaf after every other. *)
Definition front_cmp (cmp : bytes -> bytes -> comparison) (o1 o2 : option entry) : comparison :=
  match o1, o2 with
  | Some e1, Some e2 => on_key cmp e1 e2
  | Some _, None => Lt
  | None, Some _ => Gt
  | None, None => Eq
  end.

#[export] Instance front_cmp_order cmp `{!CmpOrder cmp} : CmpOrder (front_cmp cmp).
Proof.
  split.
  - intros [e1|] [e2|]; cbn; try done. apply (cmp_opp (on_key cmp)).
  - intros [e1|] [e2|] [e3|]; cbn; try done. apply (cmp_le_trans (on_key cmp)).
Qed.

Section Tournament.
Context (cmp : bytes -> bytes -> comparison) `{!CmpOrder cmp}.
Context (d : nat).
#[local] Abbreviation K := (2 ^ Z.of_nat d).
Implicit Types (fr : Z -> option entry) (t : list Z) (node w x m : Z) (h i j : nat).

(** [tourney fr t h node w]: [w] wins the subtree of height [h] rooted at
    [node], every internal node of which stores the loser of its match. *)
Fixpoint tourney fr t h node w : Prop :=
  match h with
  | O => w = node - K
  | S h' =>
      exists wl wr,
        tourney fr t h' (2 * node) wl /\ tourney fr t h' (2 * node + 1) wr /\
        ((w = wl /\ get_at t node = Some wr /\ cle (front_cmp cmp) (fr wl) (fr wr)) \/
         (w = wr /\ get_at t node = Some wl /\ cle (front_cmp cmp) (fr wr) (fr wl)))
  end.

Lemma div_pow_S x h : x / 2 ^ Z.of_nat (S h) = x / 2 ^ Z.of_nat h / 2.
Proof. rewrite Z.div_div by lia. rewrite Nat2Z.inj_succ, Z.pow_succ_r by lia. f_equal. lia. Qed.

(** The winner is a leaf of the subtree. *)
Lemma tourney_range fr t h node w :
  tourney fr t h node w -> (w + K) / 2 ^ Z.of_nat h = node.
Proof.
  revert node w. induction h as [|h IH]; intros node w; cbn [tourney].
  - intros ->. rewrite Z.div_1_r. lia.
  - intros (wl & wr & Hl & Hr & [(-> & _)|(-> & _)]); rewrite div_pow_S.
    + apply IH in Hl as ->. Z.to_euclidean_division_equations; lia.
    + apply IH in Hr as ->. Z.to_euclidean_division_equations; lia.
Qed.

(** The winner's front precedes the front of every leaf of the subtree. *)
Lemma tourney_min fr t h node w x :
  tourney fr t h node w -> (x + K) / 2 ^ Z.of_nat h = node ->
  cle (front_cmp cmp) (fr w) (fr x).
Proof.
  revert node w. induction h as [|h IH]; intros node w; cbn [tourney].
  - intros -> Hx. rewrite Z.div_1_r in Hx. replace x with (node - K) by lia.
    apply cle_preorder; apply _.
  - intros (wl & wr & Hl & Hr & Hm) Hx. rewrite div_pow_S in Hx.
    assert ((x + K) / 2 ^ Z.of_nat h = 2 * node \/ (x + K) / 2 ^ Z.of_nat h = 2 * node + 1)
      as [E|E] by (Z.to_euclidean_division_equations; lia).
    + pose proof (IH _ _ Hl E). destruct Hm as [(-> & _ & ?)|(-> & _ & ?)]; [done|].
      by eapply (cle_preorder (front_cmp cmp)).
    + pose proof (IH _ _ Hr E). destruct Hm as [(-> & _ & ?)|(-> & _ & ?)]; [|done].
      by eapply (cle_preorder (front_cmp cmp)).
Qed.

(** The invariant of a subtree only reads its own leaves and nodes. *)
Lemma tourney_ext fr fr' t t' h node w :
  tourney fr t h node w ->
  (forall x, (x + K) / 2 ^ Z.of_nat h = node -> fr x = fr' x) ->
  (forall i m, (i < h)%nat -> m / 2 ^ Z.of_nat i = node -> get_at t m = get_at t' m) ->
  tourney fr' t' h node w.
Proof.
  revert node w. induction h as [|h IH]; intros node w; cbn [tourney]; [done|].
  intros (wl & wr & Hl & Hr & Hm) Hfr Ht.
  assert (forall c, c / 2 = node ->
    (forall x, (x + K) / 2 ^ Z.of_nat h = c -> fr x = fr' x) /\
    (forall i m, (i < h)%nat -> m / 2 ^ Z.of_nat i = c -> get_at t m = get_at t' m)) as Hchild.
  { intros c Hc. split.
    - intros x Hx. apply Hfr. by rewrite div_pow_S, Hx.
    - intros i m Hi Hm'. apply (Ht (S i)); [lia|]. by rewrite div_pow_S, Hm'. }
  destruct (Hchild (2 * node)) as [Hfl Htl]; [Z.to_euclidean_division_equations; lia|].
  destruct (Hchild (2 * node + 1)) as [Hfr' Htr]; [Z.to_euclidean_division_equations; lia|].
  exists wl, wr. split_and!; [by apply IH|by apply IH|].
  rewrite <- (Ht 0%nat node), <- (Hfl wl), <- (Hfr' wr);
    [done|by apply (tourney_range fr t)|by apply (tourney_range fr t)|lia|by rewrite Z.div_1_r].
Qed.

(** Nodes of one level whose ancestors coincide at some height are equal. *)
Lemma level_unique (e i j : nat) m a b :
  m / 2 ^ Z.of_nat i = a -> m / 2 ^ Z.of_nat j = b ->
  2 ^ Z.of_nat e <= a < 2 ^ Z.of_nat (S e) -> 2 ^ Z.of_nat e <= b < 2 ^ Z.of_nat (S e) ->
  a = b.
Proof.
  assert (forall i j m, (i < j)%nat ->
    2 ^ Z.of_nat e <= m / 2 ^ Z.of_nat i < 2 ^ Z.of_nat (S e) ->
    2 ^ Z.of_nat e <= m / 2 ^ Z.of_nat j -> False) as Hlt.
  { clear. intros i j m Hij Hi Hj.
    replace (Z.of_nat j) with (Z.of_nat i + Z.of_nat (j - i)) in Hj by lia.
    rewrite Z.pow_add_r, <- Z.div_div in Hj by lia.
    assert (m / 2 ^ Z.of_nat i / 2 ^ Z.of_nat (j - i) <= m / 2 ^ Z.of_nat i / 2).
    { pose proof (Z.pow_pos_nonneg 2 (Z.of_nat e)).
      apply Z.div_le_compat_l; [lia|]. split; [lia|].
      apply (Z.pow_le_mono_r 2 1); lia. }
    rewrite Nat2Z.inj_succ, Z.pow_succ_r in Hi by lia.
    pose proof (Z.div_lt_upper_bound (m / 2 ^ Z.of_nat i) 2 (2 ^ Z.of_nat e) ltac:(lia) (proj2 Hi)).
    lia. }
  intros <- <- Ha Hb. destruct (Nat.lt_trichotomy i j) as [Hij|[->|Hij]]; [|done|].
  - exfalso. eapply Hlt; [exact Hij|done|lia].
  - exfalso. eapply Hlt; [exact Hij|done|lia].
Qed.
End Tournament.

(** ** The operations preserve the invariant *)

Section LoserTreeCorrect.
Context {Src C : Type} `{MSL : MergeSourceLaws Src} `{KCL : KeyComparatorLaws C}.
#[local] Abbreviation LT := (LoserTreeMerger Src).
Implicit Types (self : LT) (a b w node m : Z) (h i : nat).
#[local] Abbreviation ocmp := (front_cmp (kcmp C)).

(** The front of a leaf: phantom and exhausted leaves have none. *)
Definition front (ss : list Src) (leaf : Z) : option entry :=
  s ← ss !! Z.to_nat leaf; head (contents s).

Lemma peek_at_front self a :
  sources_valid C self.(sources) -> 0 <= a -> peek_at self a = Ok (front self.(sources) a).
Proof.
  intros Hv Ha. unfold peek_at, front. destruct (Z.leb_spec (len self.(sources)) a).
  - rewrite lookup_ge_None_2; [done|]. unfold len in *. lia.
  - unfold index_at. destruct (get_at_is_Some self.(sources) a) as [s Hs]; [lia|].
    rewrite Hs. apply get_at_Some in Hs as [_ Hs]. rewrite Hs. cbn.
    apply peek_contents. by apply (Forall_lookup_1 _ _ _ _ Hv Hs).
Qed.

Lemma front_valid ss a e :
  sources_valid C ss -> front ss a = Some e -> valid_key C e.1.
Proof.
  intros Hv. unfold front. destruct (ss !! Z.to_nat a) as [s|] eqn:Hs; [|done]. cbn.
  destruct (Forall_lookup_1 _ _ _ _ Hv Hs) as [_ Hk]. intros Hh.
  destruct (contents s) as [|e' l]; [done|]. inversion Hk. by simplify_eq/=.
Qed.

Lemma less_front self a b :
  sources_valid C self.(sources) -> 0 <= a -> 0 <= b ->
  less C self a b =
    Ok (bool_decide (clt ocmp (front self.(sources) a) (front self.(sources) b))).
Proof.
  intros Hv Ha Hb. unfold less. rewrite !peek_at_front by done. cbn.
  destruct (front _ a) as [[ka va]|] eqn:Ea, (front _ b) as [[kb vb]|] eqn:Eb; try done.
  apply front_valid in Ea, Eb; [|done..].
  rewrite (compare_with_prefix_kcmp C) by done. cbn. f_equal.
  case_bool_decide as Hlt; unfold clt in Hlt; cbn in Hlt; unfold on_key in Hlt; cbn in Hlt;
    by destruct (kcmp C ka kb).
Qed.

Lemma less_true_cle fr a b :
  bool_decide (clt ocmp (fr a) (fr b)) = true -> cle ocmp (fr a) (fr b).
Proof. rewrite bool_decide_eq_true. apply clt_cle. Qed.
Lemma less_false_cle (fr : Z -> option entry) a b :
  bool_decide (clt ocmp (fr a) (fr b)) = false -> cle ocmp (fr b) (fr a).
Proof. rewrite bool_decide_eq_false. by rewrite <- (not_clt_cle ocmp). Qed.

Lemma pow_S_nat e : 2 ^ Z.of_nat (S e) = 2 * 2 ^ Z.of_nat e.
Proof. rewrite Nat2Z.inj_succ. apply Z.pow_succ_r. lia. Qed.

Section Fixed.
Context (d : nat).
#[local] Abbreviation K := (2 ^ Z.of_nat d).

(** The parts of the state no operation on the tree changes. *)
Record shape self self' : Prop := {
  shape_sources : self'.(sources) = self.(sources);
  shape_k : self'.(k_padded) = self.(k_padded);
  shape_len : len self'.(tree) = len self.(tree)
}.

Lemma shape_refl self : shape self self.
Proof. by split. Qed.
Lemma shape_trans s1 s2 s3 : shape s1 s2 -> shape s2 s3 -> shape s1 s3.
Proof. intros [] []. split; congruence. Qed.
Lemma shape_set_tree self m x :
  0 <= m < len self.(tree) -> shape self (set_tree self (<[Z.to_nat m := x]> self.(tree))).
Proof. split; cbn; [done..|apply len_insert]. Qed.

Lemma build_leaf fuel self node :
  self.(k_padded) <= node -> build_subtree C fuel self node = Ok (self, node - self.(k_padded)).
Proof. intros Hn. destruct fuel; cbn [build_subtree]; by replace (_ <=? node) with true by lia. Qed.

(** A winner is a leaf, from zero on. *)
Lemma tourney_nonneg fr t h (e : nat) node w :
  d = (e + h)%nat -> 2 ^ Z.of_nat e <= node -> tourney (kcmp C) d fr t h node w -> 0 <= w.
Proof.
  intros Hd He Ht%tourney_range. pose proof (Z.pow_pos_nonneg 2 (Z.of_nat h) ltac:(lia) ltac:(lia)).
  assert (K = 2 ^ Z.of_nat e * 2 ^ Z.of_nat h) as HK by (rewrite <- Z.pow_add_r by lia; f_equal; lia).
  pose proof (Z.mul_div_le (w + K) (2 ^ Z.of_nat h) ltac:(lia)). nia.
Qed.

(** A node is not in the subtree of its child. *)
Lemma child_not_node node c i m :
  1 <= node -> c = 2 * node \/ c = 2 * node + 1 -> m / 2 ^ Z.of_nat i = c -> m <> node.
Proof.
  intros Hn Hc Hm ->. assert (node / 2 ^ Z.of_nat i <= node); [|lia].
  apply Z.div_le_upper_bound; [lia|]. pose proof (Z.pow_pos_nonneg 2 (Z.of_nat i) ltac:(lia) ltac:(lia)). nia.
Qed.

(** Playing a match: the winners of both children meet at [node], which
    stores the loser. *)
Lemma play_match fr t h node wl wr (l := bool_decide (clt ocmp (fr wl) (fr wr))) :
  1 <= node < len t ->
  tourney (kcmp C) d fr t h (2 * node) wl -> tourney (kcmp C) d fr t h (2 * node + 1) wr ->
  tourney (kcmp C) d fr (<[Z.to_nat node := if l then wr else wl]> t) (S h) node (if l then wl else wr).
Proof.
  intros Hin Hl Hr. cbn [tourney]. exists wl, wr. split_and!.
  1,2: eapply tourney_ext; [eassumption|done|]; intros i m Hi Hm; rewrite get_at_set, decide_False by (lia || (intros ->; by eapply (child_not_node node) in Hm; [|lia|auto])); done.
  rewrite get_at_set, decide_True by (lia || done).
  destruct l eqn:El; subst l; [left|right]; split_and!; try done; [by apply less_true_cle|by apply less_false_cle].
Qed.

(** Building a subtree establishes its invariant and leaves every other
    node alone. *)
Lemma build_subtree_ok fuel h (e : nat) self node :
  d = (e + h)%nat -> (h <= fuel)%nat ->
  2 ^ Z.of_nat e <= node < 2 ^ Z.of_nat (S e) ->
  self.(k_padded) = K -> len self.(tree) = K -> sources_valid C self.(sources) ->
  exists self' w,
    build_subtree C fuel self node = Ok (self', w) /\ shape self self' /\
    tourney (kcmp C) d (front self.(sources)) self'.(tree) h node w /\
    (forall m, (forall i, (i < h)%nat -> m / 2 ^ Z.of_nat i <> node) ->
       get_at self'.(tree) m = get_at self.(tree) m).
Proof.
  revert fuel e self node. induction h as [|h IH]; intros fuel e self node Hd Hf Hnode HK Ht Hv.
  { assert (e = d) as -> by lia. exists self, (node - K). rewrite build_leaf, HK by lia.
    split_and!; [done|by apply shape_refl|done|done]. }
  destruct fuel as [|fuel]; [lia|]. cbn [build_subtree]. rewrite HK.
  pose proof (Z.pow_pos_nonneg 2 (Z.of_nat e) ltac:(lia) ltac:(lia)) as Hpos.
  assert (2 ^ Z.of_nat (S e) <= K) by (apply Z.pow_le_mono_r; lia).
  replace (K <=? node) with false by lia.
  pose proof (pow_S_nat e). pose proof (pow_S_nat (S e)).
  destruct (IH fuel (S e) self (2 * node)) as (s1 & wl & -> & Hsh1 & Hl & Hfr1); [lia..|done|].
  rewrite bind_Ok. destruct Hsh1 as [Hs1 Hk1 Ht1].
  destruct (IH fuel (S e) s1 (2 * node + 1)) as (s2 & wr & -> & Hsh2 & Hr & Hfr2);
    [lia..|congruence|congruence|by rewrite Hs1|].
  rewrite bind_Ok. destruct Hsh2 as [Hs2 Hk2 Ht2]. rewrite Hs1 in *.
  assert (0 <= wl /\ 0 <= wr) as [Hwl Hwr]
    by (split; [eapply (tourney_nonneg _ _ h (S e) (2 * node))|eapply (tourney_nonneg _ _ h (S e) (2 * node + 1))];
        eassumption || lia).
  rewrite less_front, Hs2, bind_Ok by (by rewrite ?Hs2). set (l := bool_decide _).
  replace (if l then (wl, wr) else (wr, wl)) with (if l then wl else wr, if l then wr else wl) by by destruct l.
  assert (0 <= node < len s2.(tree)) as Hin by lia. rewrite set_at_ok, bind_Ok by done.
  eexists _, _. split; [reflexivity|]. split_and!.
  - split; cbn; [congruence|congruence|]. rewrite len_insert. congruence.
  - cbn [set_tree tree]. apply play_match; [lia| |done]. eapply tourney_ext; [exact Hl|done|].
    intros i m Hi Hm. symmetry. apply Hfr2. intros j Hj Hm'.
    enough (2 * node = 2 * node + 1) by lia. eapply (level_unique (S e) i j m); [done..|lia|lia].
  - intros m Hm. cbn [set_tree tree]. rewrite get_at_set by done.
    rewrite decide_False by (intros ->; apply (Hm 0%nat); [lia|by rewrite Z.div_1_r]).
    rewrite Hfr2, Hfr1; [done| |]; intros i Hi Hc; apply (Hm (S i)); try lia;
      rewrite div_pow_S, Hc; Z.to_euclidean_division_equations; lia.
Qed.

(** *** Replay *)

(** The ancestor of leaf [w] at height [h], and the other child of its
    parent. *)
Definition anc w h : Z := (w + K) / 2 ^ Z.of_nat h.
Definition sibling m : Z := if Z.even m then m + 1 else m - 1.

(** Above height [j], the path of [w] stores at each node the winner of the
    sibling subtree. *)
Definition pending (fr : Z -> option entry) (t : list Z) w (j : nat) : Prop :=
  forall i, (j <= i < d)%nat ->
    exists ws, tourney (kcmp C) d fr t i (sibling (anc w i)) ws /\ get_at t (anc w (S i)) = Some ws.

Lemma sibling_div m : sibling m / 2 = m / 2 /\ sibling m <> m.
Proof.
  unfold sibling. rewrite Zeven_mod. destruct (Z.eqb_spec (m mod 2) 0);
    split; Z.to_euclidean_division_equations; lia.
Qed.

Lemma sibling_children m node :
  m / 2 = node -> (m = 2 * node /\ sibling m = 2 * node + 1) \/
                  (m = 2 * node + 1 /\ sibling m = 2 * node).
Proof.
  intros <-. unfold sibling. rewrite Zeven_mod. destruct (Z.eqb_spec (m mod 2) 0); [left|right];
    split; Z.to_euclidean_division_equations; lia.
Qed.

Lemma anc_S w h : anc w (S h) = anc w h / 2.
Proof. apply div_pow_S. Qed.

Lemma anc_level w (h e : nat) :
  0 <= w < K -> d = (e + h)%nat -> 2 ^ Z.of_nat e <= anc w h < 2 ^ Z.of_nat (S e).
Proof.
  intros Hw Hd. unfold anc.
  pose proof (Z.pow_pos_nonneg 2 (Z.of_nat h) ltac:(lia) ltac:(lia)).
  assert (K = 2 ^ Z.of_nat e * 2 ^ Z.of_nat h) as HK2
    by (rewrite <- Z.pow_add_r by lia; f_equal; lia).
  rewrite pow_S_nat. split.
  - apply Z.div_le_lower_bound; nia.
  - apply Z.div_lt_upper_bound; nia.
Qed.

Lemma sibling_level m (e : nat) :
  2 ^ Z.of_nat (S e) <= m < 2 ^ Z.of_nat (S (S e)) ->
  2 ^ Z.of_nat (S e) <= sibling m < 2 ^ Z.of_nat (S (S e)).
Proof.
  rewrite !pow_S_nat. intros Hm. pose proof (sibling_div m) as [Hd _].
  revert Hm Hd. generalize (2 ^ Z.of_nat e) (sibling m). intros.
  Z.to_euclidean_division_equations; lia.
Qed.

(** A node of the path is outside the sibling subtrees at greater or equal
    height. *)
Lemma anc_not_below_sibling w (i j k : nat) :
  0 <= w < K -> (i < d)%nat -> (j <= S i)%nat -> (k < i)%nat ->
  anc w j / 2 ^ Z.of_nat k <> sibling (anc w i).
Proof.
  intros Hw Hi Hj Hk He.
  destruct (anc_level w i (S (d - S i)) Hw ltac:(lia)) as [Hl Hu].
  pose proof (sibling_level (anc w i) (d - S i) ltac:(lia)) as Hs.
  assert (anc w j / 2 ^ Z.of_nat k = anc w (j + k)) as Hjk.
  { unfold anc. rewrite Z.div_div, <- Z.pow_add_r by lia. do 2 f_equal. lia. }
  rewrite Hjk in He. apply (proj2 (sibling_div (anc w i))). rewrite <- He in *.
  eapply (level_unique (S (d - S i)) (j + k) i (w + K)); [done..|lia|lia].
Qed.

(** The path of a tournament's winner is pending at every height. *)
Lemma tourney_pending fr t w h :
  (h <= d)%nat -> tourney (kcmp C) d fr t h (anc w h) w ->
  forall i, (i < h)%nat ->
    exists ws, tourney (kcmp C) d fr t i (sibling (anc w i)) ws /\ get_at t (anc w (S i)) = Some ws.
Proof.
  induction h as [|h IH]; intros Hh Ht i Hi; [lia|]. cbn [tourney] in Ht.
  destruct Ht as (wl & wr & Hl & Hr & Hm).
  assert (exists ws, tourney (kcmp C) d fr t h (anc w h) w /\
    tourney (kcmp C) d fr t h (sibling (anc w h)) ws /\ get_at t (anc w (S h)) = Some ws)
    as (ws & Hw & Hs & Hg).
  { destruct (sibling_children (anc w h) (anc w (S h)) ltac:(by rewrite anc_S)) as [[E1 E2]|[E1 E2]];
      rewrite E2, E1;
      pose proof (tourney_range _ d _ _ _ _ _ Hl) as Rl;
      pose proof (tourney_range _ d _ _ _ _ _ Hr) as Rr;
      destruct Hm as [(-> & Hg & _)|(-> & Hg & _)]; fold (anc wl h) (anc wr h) in *; try lia; eauto. }
  destruct (decide (i = h)) as [->|]; [eauto|]. apply IH; [lia|done|lia].
Qed.

Lemma sibling_involutive m : sibling (sibling m) = m.
Proof.
  unfold sibling at 2. destruct (Z.even m) eqn:E; unfold sibling;
    rewrite ?Z.add_1_r, ?Z.sub_1_r, ?Z.even_succ, ?Z.even_pred, <- Z.negb_even, E; cbn; lia.
Qed.

(** Two sibling subtrees and the result of their match. *)
Lemma tourney_join fr t h m a b :
  tourney (kcmp C) d fr t h m a -> tourney (kcmp C) d fr t h (sibling m) b ->
  get_at t (m / 2) = Some b -> cle ocmp (fr a) (fr b) ->
  tourney (kcmp C) d fr t (S h) (m / 2) a.
Proof.
  intros Ha Hb Hg Hle. destruct (sibling_children m (m / 2) eq_refl) as [[E1 E2]|[E1 E2]];
    rewrite E1 in Ha; rewrite E2 in Hb; cbn [tourney]; [exists a, b|exists b, a];
    split_and!; auto.
Qed.

Lemma anc_lt w (i j : nat) : 0 <= w < K -> (i < j <= d)%nat -> anc w j < anc w i.
Proof.
  intros Hw Hij. destruct (anc_level w i (S (d - S i)) Hw ltac:(lia)) as [Hi _].
  destruct (anc_level w j (d - j) Hw ltac:(lia)) as [_ Hj].
  assert (2 ^ Z.of_nat (S (d - j)) <= 2 ^ Z.of_nat (S (d - S i))); [|lia].
  apply Z.pow_le_mono_r; lia.
Qed.

(** Writing an ancestor's node disturbs no subtree below or beside it. *)
Lemma tourney_set_anc fr (t : list Z) w (j h : nat) node c x :
  0 <= w < K -> (j < d)%nat -> len t = K ->
  (h = j /\ node = anc w j) \/ ((j <= h < d)%nat /\ node = sibling (anc w h)) ->
  tourney (kcmp C) d fr t h node c ->
  tourney (kcmp C) d fr (<[Z.to_nat (anc w (S j)) := x]> t) h node c.
Proof.
  intros Hw Hj Ht Hnode Htour. eapply tourney_ext; [exact Htour|done|]. intros i m Hi Hm.
  destruct (anc_level w (S j) (d - S j) Hw ltac:(lia)) as [Hl Hu].
  assert (2 ^ Z.of_nat (S (d - S j)) <= K) by (apply Z.pow_le_mono_r; lia).
  pose proof (Z.pow_pos_nonneg 2 (Z.of_nat (d - S j)) ltac:(lia) ltac:(lia)).
  rewrite get_at_set, decide_False; [done| |lia]. intros ->. revert Hm.
  destruct Hnode as [[-> ->]|[Hh ->]].
  - pose proof (anc_lt w j (S j) Hw ltac:(lia)).
    assert (anc w (S j) / 2 ^ Z.of_nat i <= anc w (S j)); [|lia].
    apply Z.div_le_upper_bound; [lia|].
    pose proof (Z.pow_pos_nonneg 2 (Z.of_nat i) ltac:(lia) ltac:(lia)). nia.
  - apply anc_not_below_sibling; lia.
Qed.

(** One round of the replay loop: the match at the parent of height [j]. *)
Lemma replay_step_ok (j : nat) self w c :
  (j < d)%nat -> 0 <= w < K -> 0 <= c -> len self.(tree) = K ->
  sources_valid C self.(sources) ->
  tourney (kcmp C) d (front self.(sources)) self.(tree) j (anc w j) c ->
  pending (front self.(sources)) self.(tree) w j ->
  exists ws self1 c1,
    index_at self.(tree) (anc w (S j)) = Ok ws /\
    (l ← less C self c ws;
     if negb l
     then tree ← set_at self.(tree) (anc w (S j)) c; Ok (set_tree self tree, ws)
     else Ok (self, c)) = Ok (self1, c1) /\
    shape self self1 /\ 0 <= c1 /\
    tourney (kcmp C) d (front self.(sources)) self1.(tree) (S j) (anc w (S j)) c1 /\
    pending (front self.(sources)) self1.(tree) w (S j).
Proof.
  intros Hj Hw Hc Ht Hv Htour Hpend.
  destruct (Hpend j ltac:(lia)) as (ws & Hsib & Hget).
  destruct (anc_level w j (S (d - S j)) Hw ltac:(lia)) as [Hl Hu].
  assert (0 <= ws) as Hws.
  { eapply (tourney_nonneg _ _ j (S (d - S j))); [lia| |exact Hsib].
    pose proof (sibling_level (anc w j) (d - S j) ltac:(lia)). lia. }
  apply index_at_ok in Hget as Hidx. apply get_at_Some in Hget as Hrange.
  exists ws. rewrite less_front, bind_Ok by done. rewrite (anc_S w j) in *.
  destruct (bool_decide _) eqn:El; cbn [negb].
  - exists self, c. split_and!; [done|done|apply shape_refl|done| |].
    + eapply tourney_join; [done..|]. by apply less_true_cle.
    + intros i Hi. apply Hpend. lia.
  - rewrite set_at_ok, bind_Ok by lia.
    eexists _, ws. split_and!; [done|reflexivity|apply shape_set_tree; lia|done| |].
    + cbn [set_tree tree]. rewrite <- (anc_S w j) in *.
      rewrite anc_S, <- (proj1 (sibling_div (anc w j))).
      apply (tourney_join _ _ j (sibling (anc w j)) ws c).
      * rewrite (proj1 (sibling_div _)), <- anc_S. apply tourney_set_anc; try done; right; split; [lia|done].
      * rewrite sibling_involutive, (proj1 (sibling_div _)), <- anc_S.
        apply tourney_set_anc; try done. by left.
      * rewrite (proj1 (sibling_div _)), <- anc_S, get_at_set, decide_True by lia. done.
      * by apply less_false_cle.
    + cbn [set_tree tree]. rewrite <- (anc_S w j) in *. intros i Hi.
      destruct (Hpend i ltac:(lia)) as (ws' & Hs' & Hg'). exists ws'. split.
      * apply tourney_set_anc; try done. right. split; [lia|done].
      * rewrite get_at_set, decide_False by (try lia; pose proof (anc_lt w (S j) (S i) Hw); lia).
        done.
Qed.

(** One leaf changed, the path is pending: the loop rebuilds the
    tournament from the leaf to the root. *)
Lemma replay_loop_ok fuel (j : nat) self w c :
  (j < d)%nat -> (d - j <= fuel)%nat -> 0 <= w < K -> 0 <= c ->
  len self.(tree) = K -> sources_valid C self.(sources) ->
  tourney (kcmp C) d (front self.(sources)) self.(tree) j (anc w j) c ->
  pending (front self.(sources)) self.(tree) w j ->
  exists self',
    replay_loop C fuel self (anc w (S j)) c = Ok self' /\ shape self self' /\
    tourney (kcmp C) d (front self.(sources)) self'.(tree) d 1 self'.(winner).
Proof.
  revert j self c. induction fuel as [|fuel IH]; intros j self c Hj Hf Hw Hc Ht Hv Htour Hpend; [lia|].
  destruct (anc_level w (S j) (d - S j) Hw ltac:(lia)) as [Hl Hu].
  pose proof (Z.pow_pos_nonneg 2 (Z.of_nat (d - S j)) ltac:(lia) ltac:(lia)).
  destruct (replay_step_ok j self w c) as (ws & s1 & c1 & Hidx & Hstep & Hsh & Hc1 & Ht1 & Hp1);
    [done..|].
  cbn [replay_loop]. replace (1 <=? anc w (S j)) with true by lia.
  rewrite Hidx, bind_Ok. destruct Hsh as [Hs1 Hk1 Hl1].
  destruct (less C self c ws) as [l| | |]; try done. rewrite bind_Ok in Hstep. rewrite bind_Ok, Hstep, bind_Ok.
  destruct (decide (S j = d)) as [Hd|Hd].
  - assert (anc w (S j) = 1) as E by (replace (d - S j)%nat with 0%nat in * by lia; cbn in *; lia).
    rewrite E in *. cbn. eexists. split; [reflexivity|].
    split; [by split|]. cbn. by rewrite <- Hd at 2.
  - assert (2 <= 2 ^ Z.of_nat (d - S j)) by (apply (Z.pow_le_mono_r 2 1); lia).
    replace (anc w (S j) =? 1) with false by lia. rewrite <- anc_S.
    destruct (IH (S j) s1 c1) as (s' & -> & Hsh' & Ht');
      [lia|lia|done|done|congruence|by rewrite Hs1|by rewrite Hs1|by rewrite Hs1|].
    exists s'. split; [done|]. rewrite Hs1 in Ht'. split; [|done].
    eapply shape_trans; [by split|done].
Qed.
End Fixed.

(** *** The state between two rounds of the merge loop *)

Record lt_inv self (d : nat) : Prop := {
  inv_k : self.(k_padded) = 2 ^ Z.of_nat d;
  inv_tree : len self.(tree) = 2 ^ Z.of_nat d;
  inv_sources : len self.(sources) <= 2 ^ Z.of_nat d;
  inv_valid : sources_valid C self.(sources);
  inv_tourney : tourney (kcmp C) d (front self.(sources)) self.(tree) d 1 self.(winner)
}.

Lemma height_pow self d : self.(k_padded) = 2 ^ Z.of_nat d -> height self = d.
Proof. intros E. unfold height. rewrite E, Z.log2_pow2 by lia. lia. Qed.

Lemma next_power_of_two_spec n :
  1 <= n -> exists d : nat, next_power_of_two n = 2 ^ Z.of_nat d /\ n <= 2 ^ Z.of_nat d.
Proof.
  intros Hn. exists (Z.to_nat (Z.log2_up n)). unfold next_power_of_two.
  rewrite Z2Nat.id by apply Z.log2_up_nonneg. split; [done|].
  destruct (decide (n = 1)) as [->|]; [done|]. apply Z.log2_up_spec. lia.
Qed.

Lemma lt_new_ok ss :
  sources_valid C ss -> exists self d, lt_new C ss = Ok self /\ self.(sources) = ss /\ lt_inv self d.
Proof.
  intros Hv. destruct (next_power_of_two_spec (Z.max (len ss) 1)) as (d & Hk & Hle); [lia|].
  unfold lt_new, build. rewrite Hk. set (self := {| sources := ss |}).
  rewrite (height_pow self d) by done.
  assert (len (tree self) = 2 ^ Z.of_nat d) as Ht.
  { cbn. rewrite len_replicate, Z2Nat.id by (apply Z.pow_nonneg; lia). done. }
  destruct (build_subtree_ok d d d 0 self 1) as (s' & w & -> & [Hs Hk' Hl] & Htour & _);
    [lia|lia|cbn; lia|done..|].
  rewrite bind_Ok. exists (set_winner s' w), d. split_and!; [done|done|].
  split; cbn; [by rewrite Hk'|by rewrite Hl|rewrite Hs; cbn; lia|by rewrite Hs|by rewrite Hs].
Qed.

Lemma front_insert ss (i : nat) s x :
  0 <= x -> x <> Z.of_nat i -> front (<[i := s]> ss) x = front ss x.
Proof. intros. unfold front. by rewrite list_lookup_insert_ne by lia. Qed.

Lemma front_fmap ss (j : nat) : front ss (Z.of_nat j) = l ← (contents <$> ss) !! j; head l.
Proof. unfold front. rewrite Nat2Z.id, list_lookup_fmap. by destruct (ss !! j). Qed.

(** Replacing the winner's source and replaying its path restores the
    invariant. *)
Lemma replay_from_leaf_ok self d src :
  lt_inv self d -> self.(winner) < len self.(sources) ->
  sources_valid C (<[Z.to_nat self.(winner) := src]> self.(sources)) ->
  exists self',
    replay_from_leaf C (set_sources self (<[Z.to_nat self.(winner) := src]> self.(sources)))
      self.(winner) = Ok self' /\
    self'.(sources) = <[Z.to_nat self.(winner) := src]> self.(sources) /\ lt_inv self' d.
Proof.
  intros [Hk Ht Hle Hv Htour] Hw Hv'. set (w := self.(winner)) in *.
  set (s1 := set_sources self (<[Z.to_nat w := src]> self.(sources))).
  assert (0 <= w < 2 ^ Z.of_nat d) as Hw0.
  { split; [|lia]. eapply (tourney_nonneg d _ _ d 0); [done| |exact Htour]. cbn. lia. }
  assert (anc d w d = 1) as Hroot
    by (pose proof (anc_level d w d 0 Hw0 ltac:(lia)) as Hl; cbn in Hl; lia).
  unfold replay_from_leaf. rewrite (height_pow s1 d) by done. cbn [s1 set_sources k_padded]. rewrite Hk.
  destruct d as [|d'].
  { cbn in Hw0. assert (w = 0) as E by lia. exists s1. split_and!; [by rewrite E|done|].
    split; cbn; rewrite ?len_insert; done. }
  assert (pending (S d') (front self.(sources)) self.(tree) w 0) as Hp.
  { intros i Hi. eapply (tourney_pending (S d') _ _ _ (S d')); [done|by rewrite Hroot|lia]. }
  destruct (replay_loop_ok (S d') (S d') 0 s1 w w) as (s2 & Hrun & [Hs2 Hk2 Hl2] & Ht2);
    [lia|lia|done|lia|done|done| | |].
  - cbn [tourney]. unfold anc. change (2 ^ Z.of_nat 0) with 1. rewrite Z.div_1_r. lia.
  - intros i Hi. destruct (Hp i Hi) as (ws & Hs & Hg). exists ws. split; [|done].
    eapply tourney_ext; [exact Hs| |done]. intros x Hx. symmetry.
    assert (x <> w) as Hne.
    { intros ->. by apply (proj2 (sibling_div (anc (S d') w i))). }
    apply front_insert; [|lia].
    destruct (anc_level (S d') w i (S (d' - i)) Hw0 ltac:(lia)) as [Hl Hu].
    pose proof (sibling_level (anc (S d') w i) (d' - i) ltac:(lia)).
    pose proof (Z.pow_pos_nonneg 2 (Z.of_nat i) ltac:(lia) ltac:(lia)).
    assert (2 ^ Z.of_nat (S d') = 2 ^ Z.of_nat (S (d' - i)) * 2 ^ Z.of_nat i) as HK
      by (rewrite <- Z.pow_add_r by lia; f_equal; lia).
    pose proof (Z.mul_div_le (x + 2 ^ Z.of_nat (S d')) (2 ^ Z.of_nat i) ltac:(lia)). nia.
  - change ((w + 2 ^ Z.of_nat (S d')) / 2) with (anc (S d') w 1). rewrite Hrun.
    exists s2. split_and!; [done|done|].
    split; rewrite ?Hs2, ?Hk2, ?Hl2; cbn; rewrite ?len_insert; try done.
Qed.

(** Every leaf lies below the root. *)
Lemma leaf_below_root ss d (j : nat) l :
  len ss <= 2 ^ Z.of_nat d -> (contents <$> ss) !! j = Some l ->
  (Z.of_nat j + 2 ^ Z.of_nat d) / 2 ^ Z.of_nat d = 1.
Proof.
  intros Hle Hj. apply lookup_lt_Some in Hj. rewrite length_fmap in Hj. unfold len in Hle.
  pose proof (anc_level d (Z.of_nat j) d 0 ltac:(lia) ltac:(lia)) as Hl.
  unfold anc in Hl. cbn in Hl. lia.
Qed.

Lemma all_done ss w d t :
  len ss <= 2 ^ Z.of_nat d -> tourney (kcmp C) d (front ss) t d 1 w -> front ss w = None ->
  Forall (fun l => l = []) (contents <$> ss).
Proof.
  intros Hle Ht Hn. apply Forall_lookup. intros j l Hj.
  pose proof (tourney_min _ d _ _ _ _ _ (Z.of_nat j) Ht) as Hm.
  rewrite Hn, front_fmap, Hj in Hm. destruct l; [done|]. exfalso.
  apply Hm; [by eapply leaf_below_root|done].
Qed.

(** Between two rounds either everything is consumed and the loop stops, or
    the winner's source offers an entry no other front precedes. *)
Lemma winner_cases self d :
  lt_inv self d ->
  (Forall (fun l => l = []) (contents <$> self.(sources)) /\
   forall fuel St (f : bytes -> bytes -> St -> St) st, lt_run C fuel self f st = Ok (self, st)) \/
  (exists s k v l,
    0 <= self.(winner) < len self.(sources) /\
    index_at self.(sources) self.(winner) = Ok s /\ peek s = Ok (Some (k, v)) /\
    contents s = (k, v) :: l /\ self.(sources) !! Z.to_nat self.(winner) = Some s /\
    forall j e' l', (contents <$> self.(sources)) !! j = Some (e' :: l') ->
      cle (on_key (kcmp C)) (k, v) e').
Proof.
  intros [Hk Ht Hle Hv Htour].
  assert (0 <= self.(winner)) as Hw0
    by (eapply (tourney_nonneg d _ _ d 0); [done| |exact Htour]; cbn; lia).
  pose proof (peek_at_front self self.(winner) Hv Hw0) as Hpeek. unfold peek_at in Hpeek.
  destruct (front self.(sources) self.(winner)) as [[k v]|] eqn:Hfront; [right|left].
  - destruct (Z.leb_spec (len self.(sources)) self.(winner)) as [|Hw]; [done|].
    destruct (get_at_is_Some self.(sources) self.(winner)) as [s Hs]; [lia|].
    apply index_at_ok in Hs as Hidx. apply get_at_Some in Hs as [_ Hs].
    rewrite Hidx, bind_Ok in Hpeek.
    assert (exists l, contents s = (k, v) :: l) as [l Hl].
    { unfold front in Hfront. rewrite Hs in Hfront. cbn in Hfront.
      destruct (contents s); [done|]. cbn in Hfront. simplify_eq. eauto. }
    exists s, k, v, l. split_and!; [done..|]. intros j e' l' Hj.
    pose proof (tourney_min _ d _ _ _ _ _ (Z.of_nat j) Htour) as Hm.
    rewrite Hfront, front_fmap, Hj in Hm. apply Hm. by eapply leaf_below_root.
  - split; [by eapply all_done|]. intros fuel St f st.
    destruct fuel; cbn [lt_run]; destruct (len self.(sources) <=? self.(winner)); try done;
      destruct (index_at _ _); try done; rewrite bind_Ok in Hpeek; rewrite bind_Ok; by rewrite Hpeek.
Qed.

(** *** One round of the loop

    The winner's entry goes to the callback, its source advances and its path
    is replayed. *)
Inductive round : LT -> entry -> LT -> Prop :=
  | round_intro self src k v ss self' :
      (len self.(sources) <=? self.(winner)) = false ->
      index_at self.(sources) self.(winner) = Ok src -> peek src = Ok (Some (k, v)) ->
      set_at self.(sources) self.(winner) (advance src) = Ok ss ->
      replay_from_leaf C (set_sources self ss) self.(winner) = Ok self' ->
      round self (k, v) self'.

Lemma lt_step_round self e self' : lt_step C self = Ok (Some (e, self')) <-> round self e self'.
Proof.
  split.
  - unfold lt_step. case_match eqn:Hw; [done|]. intros Hs. inv_ok Hs. destruct x0 as [[k v]|]; [|done].
    inv_ok Hs. injection Hs as <- <-. by eapply round_intro.
  - intros [? src k v ss ? Hw Hi Hp Hs Hr]. unfold lt_step.
    by rewrite Hw, Hi, bind_Ok, Hp, bind_Ok, Hs, bind_Ok, Hr, bind_Ok.
Qed.

(** The loop performs its rounds. *)
Lemma lt_run_round fuel self e self' {St} (f : bytes -> bytes -> St -> St) st :
  round self e self' -> lt_run C (S fuel) self f st = lt_run C fuel self' f (f e.1 e.2 st).
Proof. intros Hr%lt_step_round. by rewrite lt_run_S, Hr, bind_Ok. Qed.

(** With the invariant either everything is consumed and the loop stops, or
    there is a round: it takes an entry no other front precedes, and keeps the
    invariant. *)
Lemma round_ok self d :
  lt_inv self d ->
  (Forall (fun l => l = []) (contents <$> self.(sources)) /\
   forall fuel St (f : bytes -> bytes -> St -> St) st, lt_run C fuel self f st = Ok (self, st)) \/
  (exists e self' j l, round self e self' /\ lt_inv self' d /\
    (contents <$> self.(sources)) !! j = Some (e :: l) /\
    contents <$> self'.(sources) = <[j := l]> (contents <$> self.(sources)) /\
    forall i e' l', (contents <$> self.(sources)) !! i = Some (e' :: l') -> cle (on_key (kcmp C)) e e').
Proof.
  intros Hinv. destruct (winner_cases self d Hinv) as [?|(s & k & v & l & Hw & Hidx & Hpeek & Hl & Hs & Hmin)]; [by left|].
  right. pose proof (inv_valid _ _ Hinv) as Hv. destruct (Forall_lookup_1 _ _ _ _ Hv Hs) as [Hok Hkeys].
  destruct (advance_contents s (k, v) l Hok Hl) as [Hok' Hl'].
  rewrite Hl in Hkeys. inversion Hkeys as [|? ? _ Hkeys']; subst.
  destruct (replay_from_leaf_ok self d (advance s)) as (self' & Hrep & Hs' & Hinv');
    [done|lia|by apply Forall_insert|].
  exists (k, v), self', (Z.to_nat self.(winner)), (contents (advance s)). split_and!.
  - eapply (round_intro self s); [lia|done|done| |exact Hrep]. apply set_at_ok. lia.
  - done.
  - by rewrite list_lookup_fmap, Hs, <- Hl.
  - by rewrite Hs', list_fmap_insert.
  - exact Hmin.
Qed.

Lemma lt_run_ok fuel self d :
  lt_inv self d -> (total_entries self.(sources) <= fuel)%nat ->
  exists out, kmerge (kcmp C) (contents <$> self.(sources)) out /\
    forall St (f : bytes -> bytes -> St -> St) st,
      exists self', lt_run C fuel self f st = Ok (self', feed f st out).
Proof.
  revert self. induction fuel as [|fuel IH]; intros self Hinv Hf;
    (destruct (round_ok self d Hinv) as [[Hdone Hstop]|(e & self' & j & l & Hr & Hinv' & Hj & Hins & Hmin)];
     [exists []; split; [by apply kmerge_done|]; intros St f st; exists self; apply Hstop|]);
    pose proof (concat_insert_tail _ _ _ _ Hj) as Hperm; unfold total_entries in Hf;
    apply Permutation_length in Hperm; cbn in Hperm.
  { lia. }
  destruct (IH self' Hinv') as (out & Hkm & Hrun).
  { unfold total_entries. rewrite Hins. lia. }
  exists (e :: out). split.
  - eapply kmerge_step; [exact Hj|exact Hmin|by rewrite <- Hins].
  - intros St f st. rewrite (lt_run_round _ _ _ _ f st Hr). apply Hrun.
Qed.

#[export] Instance LoserTree_laws : KWayMergeLaws (LoserTreeOf Src C) Src C.
Proof.
  split. intros ss fuel Hv Hf. destruct (lt_new_ok ss Hv) as (self & d & Hnew & Hs & Hinv).
  destruct (lt_run_ok fuel self d Hinv) as (out & Hkm & Hrun); [by rewrite Hs|].
  exists (lt_of self), out. cbn. rewrite Hnew, <- Hs. split_and!; [done|done|].
  intros St f st. destruct (Hrun St f st) as (self' & ->). by exists (lt_of self').
Qed.
End LoserTreeCorrect.
