(* ===== verification/HeapMerger.v ===== *)
(** [HeapMerger] of [merge/merger.rs]: the k-way merge over the standard
    library's binary heap, for every heap that satisfies the contract of
    [std::collections::BinaryHeap], and a list instance of that contract. *)

From S2P Require Import Prelude InternalKey Cmp Source Kmerge.

(** ** [std::collections::BinaryHeap]

    The contract: a heap is a bag of elements, [pop] removes one that is
    greatest under the element type's [Ord], by which all its elements were
    pushed; which of several equal ones it removes is not specified. *)
Class BinaryHeap (Hp : Type -> Type) : Type := {
  heap_new {E} : Hp E;
  heap_push {E} : (E -> E -> outcome comparison) -> E -> Hp E -> outcome (Hp E);
  heap_pop {E} : (E -> E -> outcome comparison) -> Hp E -> outcome (option (E * Hp E))
}.

(** [ord] agrees with the pure order [cmp] on the given elements. *)
Definition ord_on {E} (ord : E -> E -> outcome comparison) (cmp : E -> E -> comparison)
    (es : list E) : Prop :=
  forall a b, a ∈ es -> b ∈ es -> ord a b = Ok (cmp a b).

Class BinaryHeapLaws (Hp : Type -> Type) `{BinaryHeap Hp} : Type := {
  elements {E} : Hp E -> list E;
  heap_ordered {E} : (E -> E -> comparison) -> Hp E -> Prop;
  elements_new E : elements (heap_new (E := E)) = [];
  ordered_new E cmp : heap_ordered cmp (heap_new (E := E));
  push_elements E ord cmp (x : E) h :
    CmpOrder cmp -> heap_ordered cmp h -> ord_on ord cmp (x :: elements h) ->
    exists h', heap_push ord x h = Ok h' /\ heap_ordered cmp h' /\ elements h' ≡ₚ x :: elements h;
  pop_elements E ord cmp (h : Hp E) :
    CmpOrder cmp -> heap_ordered cmp h -> ord_on ord cmp (elements h) ->
    (elements h = [] /\ heap_pop ord h = Ok None) \/
    (exists x h', heap_pop ord h = Ok (Some (x, h')) /\ heap_ordered cmp h' /\ elements h ≡ₚ x :: elements h' /\
       forall y, y ∈ elements h -> cle cmp y x)
}.

(** ** The merger *)

Record HeapEntry : Type := { source_idx : Z; key : bytes }.

(** [Ord for HeapEntry]: reversed, so that the greatest entry has the
    smallest key. *)
Definition entry_ord (C : Type) `{KeyComparator C} (self other : HeapEntry) : outcome comparison :=
  compare_with_prefix C other.(key) self.(key).

(** [PartialOrd] and [PartialEq for HeapEntry]: the latter compares the bytes. *)
Definition entry_partial_ord (C : Type) `{KeyComparator C} (self other : HeapEntry) : outcome (option comparison) :=
  Some <$> entry_ord C self other.
Definition entry_eq (self other : HeapEntry) : bool := bool_decide (self.(key) = other.(key)).

(** On internal keys the two are consistent, as [Ord] asks. *)
Lemma entry_eq_ord `{Profile} (a b : HeapEntry) :
  ikey_valid a.(key) -> ikey_valid b.(key) ->
  entry_partial_ord InternalKeyComparator a b = Ok (Some Eq) <-> entry_eq a b = true.
Proof.
  intros Ha Hb. unfold entry_partial_ord, entry_ord, entry_eq.
  rewrite (compare_with_prefix_kcmp InternalKeyComparator) by done. rewrite fmap_Ok, bool_decide_eq_true.
  split; [intros [= Heq]|intros ->].
  - symmetry. by apply ikey_cmp_eq.
  - do 2 f_equal. apply (cmp_refl ikey_cmp).
Qed.

Record HeapMerger (Hp : Type -> Type) (Src C : Type) : Type := {
  sources : list Src;
  heap : Hp HeapEntry
}.
Arguments sources {Hp Src C} _.
Arguments heap {Hp Src C} _.

Section HeapMerger.
Context {Hp : Type -> Type} `{BinaryHeap Hp} {Src C : Type} `{MergeSource Src} `{KeyComparator C}.

Fixpoint push_fronts (idx : Z) (ss : list Src) (heap : Hp HeapEntry) : outcome (Hp HeapEntry) :=
  match ss with
  | [] => Ok heap
  | s :: ss' =>
      p ← peek s;
      heap ←
        (match p with
         | Some (k, _) => heap_push (entry_ord C) {| source_idx := idx; key := k |} heap
         | None => Ok heap
         end);
      push_fronts (idx + 1) ss' heap
  end.

(** [HeapMerger::new]. *)
Definition hm_new (ss : list Src) : outcome (HeapMerger Hp Src C) :=
  heap ← push_fronts 0 ss heap_new;
  Ok {| sources := ss; heap := heap |}.

(** [HeapMerger::run]. *)
Fixpoint hm_run {St} (fuel : nat) (self : HeapMerger Hp Src C)
    (f : bytes -> bytes -> St -> St) (st : St) : outcome (HeapMerger Hp Src C * St) :=
  popped ← heap_pop (entry_ord C) self.(heap);
  match popped with
  | None => Ok (self, st)
  | Some (e, heap) =>
      match fuel with
      | O => OutOfFuel
      | S fuel' =>
          let idx := e.(source_idx) in
          src ← index_at self.(sources) idx;
          p ← peek src;
          '(k, v) ← unwrap p;
          let st := f k v st in
          let src := advance src in
          ss ← set_at self.(sources) idx src;
          p2 ← peek src;
          heap ←
            (match p2 with
             | Some (k2, _) => heap_push (entry_ord C) {| source_idx := idx; key := k2 |} heap
             | None => Ok heap
             end);
          hm_run fuel' {| sources := ss; heap := heap |} f st
      end
  end.

(** One iteration of that loop: the entry it hands to the callback and the
    merger afterwards, or the end of the loop. *)
Definition hm_step (self : HeapMerger Hp Src C) : outcome (option (entry * HeapMerger Hp Src C)) :=
  popped ← heap_pop (entry_ord C) self.(heap);
  match popped with
  | None => Ok None
  | Some (e, heap) =>
      let idx := e.(source_idx) in
      src ← index_at self.(sources) idx;
      p ← peek src;
      '(k, v) ← unwrap p;
      let src := advance src in
      ss ← set_at self.(sources) idx src;
      p2 ← peek src;
      heap ←
        (match p2 with
         | Some (k2, _) => heap_push (entry_ord C) {| source_idx := idx; key := k2 |} heap
         | None => Ok heap
         end);
      Ok (Some ((k, v), {| sources := ss; heap := heap |}))
  end.

Lemma hm_run_S {St} fuel self (f : bytes -> bytes -> St -> St) st :
  hm_run (S fuel) self f st =
    (o ← hm_step self;
     match o with
     | None => Ok (self, st)
     | Some (e, self') => hm_run fuel self' f (f e.1 e.2 st)
     end).
Proof.
  unfold hm_step. cbn [hm_run]. destruct (heap_pop _ _) as [[[e h]|]| | |]; try done. rewrite !bind_Ok.
  destruct (index_at _ _) as [src| | |]; try done. rewrite !bind_Ok.
  destruct (peek src) as [[[k v]|]| | |]; try done. rewrite !bind_Ok. cbn [unwrap]. rewrite !bind_Ok.
  destruct (set_at _ _ _) as [ss| | |]; try done. rewrite !bind_Ok.
  destruct (peek (advance src)) as [p2| | |]; try done. rewrite !bind_Ok.
  by destruct (match p2 with Some _ => _ | None => _ end).
Qed.

Lemma hm_run_end {St} fuel self (f : bytes -> bytes -> St -> St) st :
  hm_step self = Ok None -> hm_run fuel self f st = Ok (self, st).
Proof.
  unfold hm_step. intros Hs. destruct fuel; cbn [hm_run]; inv_ok Hs; rewrite Hx, bind_Ok;
    (destruct x as [[e h]|]; [inv_ok Hs; destruct x1; by inv_ok Hs|done]).
Qed.

(** The merger after some rounds, and what they delivered. *)
Inductive heap_rounds : HeapMerger Hp Src C -> list entry -> HeapMerger Hp Src C -> Prop :=
  | heap_rounds_nil self : heap_rounds self [] self
  | heap_rounds_cons self e self1 es self2 :
      hm_step self = Ok (Some (e, self1)) -> heap_rounds self1 es self2 -> heap_rounds self (e :: es) self2.

#[export] Instance HeapMerger_impl : KWayMerge (HeapMerger Hp Src C) Src := {
  new := hm_new;
  run St fuel self f st := hm_run fuel self f st
}.
End HeapMerger.

(** ** Correctness *)

Section HeapMergerCorrect.
Context {Hp : Type -> Type} `{HL : BinaryHeapLaws Hp} {Src C : Type}
  `{MSL : MergeSourceLaws Src} `{KCL : KeyComparatorLaws C}.
Implicit Types (ss : list Src) (h : Hp HeapEntry).

Definition rev_cmp (a b : HeapEntry) : comparison := kcmp C b.(key) a.(key).
#[local] Instance rev_cmp_order : CmpOrder rev_cmp.
Proof.
  split; unfold rev_cmp; intros.
  - apply cmp_opp; apply _.
  - eapply (cmp_le_trans (kcmp C)); eauto.
Qed.

(** The heap entry of source [i]: the key of its front. *)
Definition is_front ss (e : HeapEntry) : Prop :=
  exists i s k v l, ss !! i = Some s /\ contents s = (k, v) :: l /\
    e = {| source_idx := Z.of_nat i; key := k |}.

(** A heap in the order of the merger, without duplicates. *)
Definition proper h : Prop := heap_ordered rev_cmp h /\ NoDup (elements h).

(** The heap holds exactly the fronts of the sources, each once. *)
Record heap_inv ss h : Prop := {
  hi_proper : proper h;
  hi_fronts e : e ∈ elements h <-> is_front ss e
}.

Lemma front_key_valid ss e : sources_valid C ss -> is_front ss e -> valid_key C e.(key).
Proof.
  intros Hv (i & s & k & v & l & Hs & Hc & ->).
  destruct (Forall_lookup_1 _ _ _ _ Hv Hs) as [_ Hk]. rewrite Hc in Hk. by inversion Hk.
Qed.

Lemma ord_on_keys es :
  (forall e, e ∈ es -> valid_key C e.(key)) -> ord_on (entry_ord C) rev_cmp es.
Proof. intros Hk a b Ha Hb. unfold entry_ord. by rewrite (compare_with_prefix_kcmp C) by eauto. Qed.

(** Pushing the front of a source that is not in the heap yet. *)
Lemma push_front h e :
  (forall e', e' ∈ e :: elements h -> valid_key C e'.(key)) -> proper h -> e ∉ elements h ->
  exists h', heap_push (entry_ord C) e h = Ok h' /\ proper h' /\
    forall e', e' ∈ elements h' <-> e' = e \/ e' ∈ elements h.
Proof.
  intros Hk [Hho Hnd] Hni.
  destruct (push_elements _ (entry_ord C) rev_cmp e h _ Hho (ord_on_keys _ Hk)) as (h' & Hpush & Hho' & Hperm).
  exists h'. split_and!; [done| |].
  - split; [done|]. rewrite Hperm. by constructor.
  - intros e'. rewrite Hperm. apply elem_of_cons.
Qed.

(** [new] pushes the fronts of the sources from index [idx] on. *)
Lemma push_fronts_ok ss (idx : nat) pre h :
  length pre = idx -> sources_valid C (pre ++ ss) -> heap_inv pre h ->
  exists h', push_fronts (C := C) (Z.of_nat idx) ss h = Ok h' /\ heap_inv (pre ++ ss) h'.
Proof.
  revert idx pre h. induction ss as [|s ss IH]; intros idx pre h Hlen Hv [Hnd Hf]; cbn [push_fronts].
  { rewrite app_nil_r. exists h. by split. }
  assert (sources_valid C pre /\ sources_valid C [s]) as [Hvp Hvs].
  { unfold sources_valid in *. rewrite Forall_app, Forall_cons in Hv.
    rewrite Forall_singleton. tauto. }
  unfold sources_valid in Hvs. rewrite Forall_singleton in Hvs. destruct Hvs as [Hok Hkeys].
  rewrite peek_contents, bind_Ok by done.
  assert (forall h', proper h' ->
    (forall e, e ∈ elements h' <->
       (exists k v l, contents s = (k, v) :: l /\ e = {| source_idx := Z.of_nat idx; key := k |}) \/
       is_front pre e) ->
    exists h'', push_fronts (C := C) (Z.of_nat idx + 1) ss h' = Ok h'' /\
      heap_inv (pre ++ s :: ss) h'') as Hnext.
  { intros h' Hnd' Hf'. replace (Z.of_nat idx + 1) with (Z.of_nat (S idx)) by lia.
    rewrite (cons_middle s pre ss), (assoc_L (++)) in *.
    apply IH; [rewrite length_app; cbn; lia|done|]. split; [done|]. intros e. rewrite Hf'. split.
    - intros [(k & v & l & Hc & ->)|(i & s' & k & v & l & Hs & Hc & ->)].
      + exists idx, s, k, v, l. split_and!; [|done..]. by apply list_lookup_middle.
      + exists i, s', k, v, l. split_and!; [|done..]. by apply lookup_app_l_Some.
    - intros (i & s' & k & v & l & Hs & Hc & ->). apply lookup_snoc_Some in Hs as [[? Hs]|[-> ->]].
      + right. by exists i, s', k, v, l.
      + left. rewrite <- Hlen. eauto. }
  destruct (contents s) as [|[k v] l] eqn:Hc; cbn.
  - apply Hnext; [done|]. intros e. rewrite Hf. split; [auto|]. by intros [(? & ? & ? & ? & _)|].
  - destruct (push_front h {| source_idx := Z.of_nat idx; key := k |}) as (h' & -> & Hnd' & Hf').
    + intros e' [->|He']%elem_of_cons; cbn; [by inversion Hkeys|].
      apply (front_key_valid pre); [done|]. by apply Hf.
    + done.
    + rewrite Hf. intros (i & s' & k' & v' & l' & Hs & _ & He). apply lookup_lt_Some in Hs.
      simplify_eq. lia.
    + apply Hnext; [done|]. intros e. rewrite Hf', Hf. split.
      * intros [->|]; [left; eauto|by right].
      * intros [(k' & v' & l' & ? & ->)|]; [left; by simplify_eq|by right].
Qed.

(** Popping: the entry is a least front and the rest is the fronts of the
    other sources. *)
Lemma heap_pop_ok ss h :
  sources_valid C ss -> heap_inv ss h ->
  (Forall (fun l => l = []) (contents <$> ss) /\ heap_pop (entry_ord C) h = Ok None) \/
  (exists (i : nat) s k v l h',
     heap_pop (entry_ord C) h = Ok (Some ({| source_idx := Z.of_nat i; key := k |}, h')) /\
     ss !! i = Some s /\ contents s = (k, v) :: l /\
     (forall j e' l', (contents <$> ss) !! j = Some (e' :: l') -> cle (on_key (kcmp C)) (k, v) e') /\
     proper h' /\
     forall e, e ∈ elements h' <-> is_front ss e /\ e.(source_idx) <> Z.of_nat i).
Proof.
  intros Hv [[Hho Hnd] Hf].
  assert (forall j e' l', (contents <$> ss) !! j = Some (e' :: l') ->
    {| source_idx := Z.of_nat j; key := e'.1 |} ∈ elements h) as Hin.
  { intros j [k' v'] l' Hj. rewrite list_lookup_fmap in Hj.
    destruct (ss !! j) as [s'|] eqn:Hs; [|done]. apply Hf. cbn in Hj. simplify_eq.
    exists j, s', k', v', l'. split_and!; done. }
  destruct (pop_elements _ (entry_ord C) rev_cmp h _ Hho) as [[Hnil Hpop]|(x & h' & Hpop & Hho' & Hperm & Hmax)].
  { apply ord_on_keys. intros e He. apply (front_key_valid ss); [done|]. by apply Hf. }
  - left. split; [|done]. apply Forall_lookup. intros j l Hj. destruct l as [|e' l']; [done|].
    apply Hin in Hj. rewrite Hnil in Hj. by apply elem_of_nil in Hj.
  - right. assert (x ∈ elements h) as Hx by (rewrite Hperm; apply elem_of_cons; by left).
    apply Hf in Hx as Hfx. destruct Hfx as (i & s & k & v & l & Hs & Hc & ->).
    exists i, s, k, v, l, h'. split_and!; [done..| | |].
    + intros j e' l' Hj. exact (Hmax _ (Hin j e' l' Hj)).
    + split; [done|]. rewrite Hperm in Hnd. by inversion Hnd.
    + intros e. rewrite Hperm in Hnd. apply NoDup_cons in Hnd as [Hni _].
      rewrite <- Hf, Hperm, elem_of_cons. split.
      * intros He. split; [by right|]. intros Hi.
        assert (is_front ss e) as (i' & s' & k' & v' & l' & Hs' & Hc' & ->)
          by (apply Hf; rewrite Hperm; by right).
        cbn in Hi. apply Nat2Z.inj in Hi. simplify_eq. by rewrite Hc in Hc'; simplify_eq.
      * by intros [[->|?] Hne].
Qed.

(** After the winner's source advanced, its new front completes the heap. *)
Lemma heap_refill ss (i : nat) s h :
  ss !! i = Some s -> source_ok s -> Forall (fun e => valid_key C e.1) (contents s) ->
  proper h ->
  (forall e, e ∈ elements h <-> is_front ss e /\ e.(source_idx) <> Z.of_nat i) ->
  sources_valid C ss ->
  exists h',
    (p2 ← peek s;
     match p2 with
     | Some (k2, _) => heap_push (entry_ord C) {| source_idx := Z.of_nat i; key := k2 |} h
     | None => Ok h
     end) = Ok h' /\ heap_inv ss h'.
Proof.
  intros Hs Hok Hkeys Hnd Hf Hv. rewrite peek_contents, bind_Ok by done.
  assert (forall e, is_front ss e -> e.(source_idx) = Z.of_nat i ->
    exists k v l, contents s = (k, v) :: l /\ e = {| source_idx := Z.of_nat i; key := k |}) as Hi.
  { intros e (i' & s' & k' & v' & l' & Hs' & Hc & ->) Hi. cbn in Hi. apply Nat2Z.inj in Hi.
    simplify_eq. eauto. }
  destruct (contents s) as [|[k v] l] eqn:Hc; cbn.
  - exists h. split; [done|]. split; [done|]. intros e. rewrite Hf. split; [by intros []|].
    intros He. split; [done|]. intros (? & ? & ? & ? & _)%Hi; done.
  - set (e0 := {| source_idx := Z.of_nat i; key := k |}).
    assert (is_front ss e0) as He0 by (exists i, s, k, v, l; done).
    destruct (push_front h e0) as (h' & -> & Hnd' & Hf').
    + intros e' [->|He']%elem_of_cons; [by apply (front_key_valid ss)|].
      apply (front_key_valid ss); [done|]. by apply Hf.
    + done.
    + rewrite Hf. by intros [_ []].
    + exists h'. split; [done|]. split; [done|]. intros e. rewrite Hf', Hf. split.
      * by intros [->|[]].
      * intros He. destruct (decide (e.(source_idx) = Z.of_nat i)) as [E|]; [left|by right].
        destruct (Hi e He E) as (k' & v' & l' & ? & ->). by simplify_eq.
Qed.

(** A round: everything is consumed and the loop ends, or it takes an entry no
    other front precedes, and keeps the invariant. *)
Lemma hm_step_ok (self : HeapMerger Hp Src C) :
  sources_valid C self.(sources) -> heap_inv self.(sources) self.(heap) ->
  (Forall (fun l => l = []) (contents <$> self.(sources)) /\ hm_step self = Ok None) \/
  (exists e self' j l, hm_step self = Ok (Some (e, self')) /\
    sources_valid C self'.(sources) /\ heap_inv self'.(sources) self'.(heap) /\
    (contents <$> self.(sources)) !! j = Some (e :: l) /\
    contents <$> self'.(sources) = <[j := l]> (contents <$> self.(sources)) /\
    forall i e' l', (contents <$> self.(sources)) !! i = Some (e' :: l') -> cle (on_key (kcmp C)) e e').
Proof.
  destruct self as [ss h]. cbn [sources heap]. intros Hv Hinv. unfold hm_step. cbn [sources heap].
  destruct (heap_pop_ok ss h Hv Hinv) as [[Hdone Hpop]|(i & s & k & v & l & h1 & Hpop & Hs & Hc & Hmin & Hnd & Hf)];
    rewrite Hpop, bind_Ok; [by left|right].
  destruct (Forall_lookup_1 _ _ _ _ Hv Hs) as [Hok Hkeys].
  destruct (advance_contents s (k, v) l Hok Hc) as [Hok' Hc'].
  rewrite Hc in Hkeys. inversion Hkeys as [|? ? _ Hkeys']; subst.
  set (ss' := <[i := advance s]> ss).
  assert (sources_valid C ss') as Hv' by (by apply Forall_insert).
  assert (i < length ss)%nat as Hlt by (by eapply lookup_lt_Some).
  destruct (heap_refill ss' i (advance s) h1) as (h2 & Hpush & Hinv'); try done.
  { unfold ss'. by rewrite list_lookup_insert_eq. }
  { intros e. rewrite Hf. unfold ss'. split; intros [(i' & s' & k' & v' & l' & Hs' & Hcs & ->) Hne];
      cbn in Hne; (split; [|done]); exists i', s', k', v', l'; (split_and!; [|done..]);
      rewrite list_lookup_insert_ne in * by congruence; done. }
  exists (k, v), {| sources := ss'; heap := h2 |}, i, (contents (advance s)). cbn [sources heap source_idx].
  split_and!; [|done|done|by rewrite list_lookup_fmap, Hs, <- Hc|unfold ss'; by rewrite list_fmap_insert|exact Hmin].
  rewrite (index_at_ok _ _ s), bind_Ok by (rewrite get_at_lookup, Nat2Z.id by lia; done).
  rewrite (peek_contents s), bind_Ok, Hc by done. cbn [head unwrap]. rewrite bind_Ok.
  rewrite set_at_ok, bind_Ok, Nat2Z.id by (unfold len; lia). fold ss'.
  destruct (peek (advance s)) as [p2| | |]; try done.
  rewrite bind_Ok in Hpush. by rewrite bind_Ok, Hpush, bind_Ok.
Qed.

Lemma hm_run_ok fuel (self : HeapMerger Hp Src C) :
  sources_valid C self.(sources) -> heap_inv self.(sources) self.(heap) -> (total_entries self.(sources) <= fuel)%nat ->
  exists out, kmerge (kcmp C) (contents <$> self.(sources)) out /\
    (forall es self', heap_rounds self es self' -> es `prefix_of` out) /\
    forall St (f : bytes -> bytes -> St -> St) st, exists self', hm_run fuel self f st = Ok (self', feed f st out).
Proof.
  revert self. induction fuel as [|fuel IH]; intros self Hv Hinv Hf;
    (destruct (hm_step_ok self Hv Hinv) as [[Hdone Hstep]|(e & self' & j & l & Hstep & Hv' & Hinv' & Hj & Hins & Hmin)];
     [exists []; split_and!;
       [by apply kmerge_done|intros es self'; inversion 1; [done|congruence]
       |intros St f st; exists self; by apply hm_run_end]|]);
    pose proof (concat_insert_tail _ _ _ _ Hj) as Hperm; unfold total_entries in Hf;
    apply Permutation_length in Hperm; cbn in Hperm.
  { lia. }
  destruct (IH self' Hv' Hinv') as (out & Hkm & Hpre & Hrun).
  { unfold total_entries. rewrite Hins. lia. }
  exists (e :: out). split_and!.
  - eapply kmerge_step; [exact Hj|exact Hmin|by rewrite <- Hins].
  - intros es self2 Hr. inversion Hr as [|? e2 self1 es2 ? Hs1 Hr1]; subst; [by exists (e :: out)|].
    rewrite Hstep in Hs1. injection Hs1 as <- <-. apply prefix_cons. by eapply Hpre.
  - intros St f st. rewrite hm_run_S, Hstep, bind_Ok. apply Hrun.
Qed.

(** What every round keeps: the heap is the fronts, and no entry is lost. *)
Lemma heap_rounds_ok (self : HeapMerger Hp Src C) es self' :
  heap_rounds self es self' -> sources_valid C self.(sources) -> heap_inv self.(sources) self.(heap) ->
  heap_inv self'.(sources) self'.(heap) /\
  es ++ concat (contents <$> self'.(sources)) ≡ₚ concat (contents <$> self.(sources)).
Proof.
  induction 1 as [self|self e self1 es self2 Hs _ IH]; intros Hv Hinv; [done|].
  destruct (hm_step_ok self Hv Hinv) as [[_ Hn]|(e' & self1' & j & l & Hs' & Hv' & Hinv' & Hj & Hins & _)]; [congruence|].
  rewrite Hs in Hs'. injection Hs' as <- <-. destruct (IH Hv' Hinv') as [Hi Hperm]. split; [done|].
  by rewrite (concat_insert_tail _ _ _ _ Hj), <- Hins, <- Hperm.
Qed.

Lemma hm_new_ok ss :
  sources_valid C ss ->
  exists h, hm_new ss = Ok {| sources := ss; heap := h |} /\ heap_inv ss h.
Proof.
  intros Hv. destruct (push_fronts_ok ss 0 [] heap_new) as (h & Hpush & Hinv); [done|done| |].
  { split; [split; [apply ordered_new|]|]; rewrite elements_new; [constructor|]. intros e. split; [by intros ?%elem_of_nil|].
    by intros (i & s & k & v & l & Hs & _). }
  exists h. unfold hm_new. change (Z.of_nat 0) with 0 in Hpush. by rewrite Hpush.
Qed.

#[export] Instance HeapMerger_laws : KWayMergeLaws (HeapMerger Hp Src C) Src C.
Proof.
  split. intros ss fuel Hv Hf. destruct (hm_new_ok ss Hv) as (h & Hnew & Hinv).
  destruct (hm_run_ok fuel {| sources := ss; heap := h |} Hv Hinv Hf) as (out & Hkm & _ & Hrun).
  by exists {| sources := ss; heap := h |}, out.
Qed.
End HeapMergerCorrect.

(** ** A heap that satisfies the contract

    The elements in a list, [pop] taking the first greatest one. *)

Fixpoint select {E} (ord : E -> E -> outcome comparison) (x : E) (es : list E) :
    outcome (E * list E) :=
  match es with
  | [] => Ok (x, [])
  | y :: es' =>
      c ← ord y x;
      let '(best, other) := match c with Gt => (y, x) | _ => (x, y) end in
      '(m, rest) ← select ord best es';
      Ok (m, other :: rest)
  end.

#[export] Instance list_heap : BinaryHeap list := {
  heap_new E := [];
  heap_push E ord x h := Ok (h ++ [x]);
  heap_pop E ord h :=
    match h with
    | [] => Ok None
    | x :: es => '(m, rest) ← select ord x es; Ok (Some (m, rest))
    end
}.

Lemma select_ok {E} ord (cmp : E -> E -> comparison) `{!CmpOrder cmp} x es :
  ord_on ord cmp (x :: es) ->
  exists m rest, select ord x es = Ok (m, rest) /\ x :: es ≡ₚ m :: rest /\
    forall y, y ∈ x :: es -> cle cmp y m.
Proof.
  revert x. induction es as [|y es IH]; intros x Ho; cbn [select].
  { exists x, []. split_and!; [done..|]. intros z ->%list_elem_of_singleton. by apply cle_preorder. }
  rewrite Ho, bind_Ok by set_solver.
  set (p := match cmp y x with Gt => (y, x) | _ => (x, y) end).
  assert (exists best other, p = (best, other) /\ x :: y :: es ≡ₚ best :: other :: es /\
    cle cmp other best /\ (best = x \/ best = y)) as (best & other & -> & Hperm & Hle & Hb).
  { subst p. destruct (cmp y x) eqn:E0; do 2 eexists; (split; [reflexivity|]); split_and!; auto;
      try (unfold cle; congruence); [constructor|].
    unfold cle. rewrite (cmp_opp cmp y x), E0. done. }
  destruct (IH best) as (m & rest & -> & Hp & Hmax).
  { intros a b Ha Hab. apply Ho; rewrite !elem_of_cons in *; destruct Hb; subst; tauto. }
  rewrite bind_Ok. exists m, (other :: rest). split_and!; [done| |].
  - rewrite Hperm, perm_swap, Hp. constructor.
  - intros z. rewrite Hperm, !elem_of_cons. intros [->|[->|Hz]].
    + apply Hmax, elem_of_cons. by left.
    + etransitivity; [exact Hle|]. apply Hmax, elem_of_cons. by left.
    + apply Hmax, elem_of_cons. by right.
Qed.

#[export] Program Instance list_heap_laws : BinaryHeapLaws list := {
  elements E h := h;
  heap_ordered E cmp h := True
}.
Next Obligation. done. Qed.
Next Obligation. done. Qed.
Next Obligation.
  intros E ord cmp x h _ _ _. exists (h ++ [x]). split_and!; [done..|]. by rewrite Permutation_app_comm.
Qed.
Next Obligation.
  intros E ord cmp h Hc _ Ho. destruct h as [|x es]; [by left|right].
  destruct (select_ok ord cmp x es Ho) as (m & rest & Hs & Hp & Hmax).
  exists m, rest. cbn. rewrite Hs. split_and!; done.
Qed.
