(* ===== verification/Mergers.v ===== *)
(** The two mergers of [merge/merger.rs] against the [KWayMerge] contract: what
    each delivers, and that they deliver the same. *)

From S2P Require Import Prelude InternalKey Cmp Source Kmerge LoserTree HeapMerger.

(** ** Consequences of the contract *)

Section Contract.
Context {M Src C : Type} `{KML : KWayMergeLaws M Src C}.

Lemma sources_valid_keys (sources : list Src) :
  sources_valid C sources -> Forall (fun e => valid_key C e.1) (concat (contents <$> sources)).
Proof. intros Hv. apply Forall_concat, Forall_fmap. eapply Forall_impl; [exact Hv|]. by intros s []. Qed.

(** What a merge of sorted sources feeds its callback. *)
Lemma merge_sorted (sources : list Src) fuel :
  sources_valid C sources -> Forall (StronglySorted (cle (on_key (kcmp C)))) (contents <$> sources) ->
  (total_entries sources <= fuel)%nat ->
  exists m out, new M sources = Ok m /\
    out ≡ₚ concat (contents <$> sources) /\ StronglySorted (cle (on_key (kcmp C))) out /\
    forall St (f : bytes -> bytes -> St -> St) st, exists m', run fuel m f st = Ok (m', feed f st out).
Proof.
  intros Hv Hs Hf. destruct (merge_refines sources fuel Hv Hf) as (m & out & Hn & Hk & Hr).
  exists m, out. split_and!; [done|by apply (kmerge_perm (kcmp C))|by apply (kmerge_sorted (kcmp C) (contents <$> sources))|done].
Qed.
End Contract.

(** The loser tree behind its trait implementation. *)
Section Unwrap.
Context {Src C : Type} `{MergeSource Src} `{KeyComparator C}.

Lemma new_lt_new (sources : list Src) m :
  new (LoserTreeOf Src C) sources = Ok m -> lt_new C sources = Ok m.(lt_merger).
Proof.
  cbn [new LoserTree_impl]. destruct (lt_new C sources); try done. rewrite bind_Ok. by intros [= <-].
Qed.
Lemma run_lt_run {St} fuel (m m' : LoserTreeOf Src C) (f : bytes -> bytes -> St -> St) st st' :
  run fuel m f st = Ok (m', st') -> lt_run C fuel m.(lt_merger) f st = Ok (m'.(lt_merger), st').
Proof.
  cbn [run LoserTree_impl]. destruct (lt_run C fuel m.(lt_merger) f st) as [[? ?]| | |]; try done.
  rewrite bind_Ok. by intros [= <- <-].
Qed.
End Unwrap.

(** ** Properties *)

Section MergerProperties.
Context {Src C : Type} `{MSL : MergeSourceLaws Src} `{KCL : KeyComparatorLaws C}.

(** C14: The loser tree merges: on well-formed sorted sources it is built and
    run without panicking, one round per entry is enough, and the callback -
    whatever it does - is fed every input entry exactly once, in key order. *)
Theorem loser_tree_correct (sources : list Src) fuel :
  sources_valid C sources -> Forall (StronglySorted (cle (on_key (kcmp C)))) (contents <$> sources) ->
  (total_entries sources <= fuel)%nat ->
  exists self out, lt_new C sources = Ok self /\
    out ≡ₚ concat (contents <$> sources) /\ StronglySorted (cle (on_key (kcmp C))) out /\
    forall St (f : bytes -> bytes -> St -> St) st,
      exists self', lt_run C fuel self f st = Ok (self', feed f st out).
Proof.
  intros Hv Hs Hf. destruct (merge_sorted (M := LoserTreeOf Src C) sources fuel Hv Hs Hf)
    as (m & out & Hn & Hp & Hso & Hr).
  exists m.(lt_merger), out. split_and!; [by apply new_lt_new|done|done|].
  intros St f st. destruct (Hr St f st) as [m' Hm]. exists m'.(lt_merger). by apply run_lt_run.
Qed.

(** C32: So does the heap merger, over any binary heap that meets its
    documentation; after any number of rounds of its loop it has delivered the
    first of those entries, the others are still in the sources, and the heap
    holds the front key of every source that has one, once, and nothing
    else. *)
Theorem heap_merger_correct `{HL : BinaryHeapLaws Hp} (sources : list Src) fuel :
  sources_valid C sources -> Forall (StronglySorted (cle (on_key (kcmp C)))) (contents <$> sources) ->
  (total_entries sources <= fuel)%nat ->
  exists self out, hm_new (Hp := Hp) (C := C) sources = Ok self /\
    out ≡ₚ concat (contents <$> sources) /\ StronglySorted (cle (on_key (kcmp C))) out /\
    (forall St (f : bytes -> bytes -> St -> St) st,
      exists self', hm_run (Hp := Hp) (C := C) fuel self f st = Ok (self', feed f st out)) /\
    forall es self', heap_rounds self es self' ->
      es `prefix_of` out /\ es ++ concat (contents <$> self'.(HeapMerger.sources)) ≡ₚ out /\
      NoDup (elements self'.(heap)) /\
      forall e, e ∈ elements self'.(heap) <->
        exists i s k v l, self'.(HeapMerger.sources) !! i = Some s /\ contents s = (k, v) :: l /\
          e = {| source_idx := Z.of_nat i; key := k |}.
Proof.
  intros Hv Hs Hf. destruct (hm_new_ok (C := C) sources Hv) as (h & Hnew & Hinv). set (self := Build_HeapMerger Hp Src C sources h) in *.
  destruct (hm_run_ok fuel self Hv Hinv Hf) as (out & Hk & Hpre & Hrun).
  exists self, out. pose proof (kmerge_perm (kcmp C) _ _ Hk) as Hout.
  split_and!; [done|done|by apply (kmerge_sorted (kcmp C) (contents <$> sources))|done|].
  intros es self' Hr. destruct (heap_rounds_ok self es self' Hr Hv Hinv) as [[[_ Hnd] Hfr] Hperm].
  split_and!; [by eapply Hpre|by rewrite Hperm, Hout|done|exact Hfr].
Qed.

(** C17: The mergers agree with each other and with sorting everything: where
    keys that compare equal are equal - both comparators - and no key occurs
    twice, the loser tree and the heap feed the callback the same entries in
    the same order, that of all input entries sorted by key. *)
Theorem mergers_agree `{BinaryHeapLaws Hp} (sources : list Src) fuel :
  (forall a b, valid_key C a -> valid_key C b -> kcmp C a b = Eq -> a = b) ->
  sources_valid C sources -> Forall (StronglySorted (cle (on_key (kcmp C)))) (contents <$> sources) ->
  (total_entries sources <= fuel)%nat -> NoDup (concat (contents <$> sources)).*1 ->
  exists lt hm, lt_new C sources = Ok lt /\ hm_new (Hp := Hp) (C := C) sources = Ok hm /\
    forall St (f : bytes -> bytes -> St -> St) st,
      let st' := feed f st (sort_by (on_key (kcmp C)) (concat (contents <$> sources))) in
      exists lt' hm', lt_run C fuel lt f st = Ok (lt', st') /\
        hm_run (Hp := Hp) (C := C) fuel hm f st = Ok (hm', st').
Proof.
  intros Heq Hv Hs Hf Hnd. pose proof (sources_valid_keys sources Hv) as Hkeys.
  destruct (merge_sorted (M := LoserTreeOf Src C) sources fuel Hv Hs Hf) as (lt & out & Hn & Hp1 & Hs1 & Hr).
  destruct (merge_sorted (M := HeapMerger Hp Src C) sources fuel Hv Hs Hf) as (hm & out2 & Hn2 & Hp2 & Hs2 & Hr2).
  assert (forall es, es ≡ₚ concat (contents <$> sources) -> StronglySorted (cle (on_key (kcmp C))) es ->
    es = sort_by (on_key (kcmp C)) (concat (contents <$> sources))) as Hsort.
  { intros es Hpe Hes. apply (sorted_unique (kcmp C) (valid_key C)); [exact Heq|by rewrite Hpe|by rewrite Hpe|exact Hes| |].
    - apply (sort_by_sorted (on_key (kcmp C))).
    - by rewrite Hpe, (sort_by_perm (on_key (kcmp C))). }
  apply Hsort in Hp1 as ->; [|done]. apply Hsort in Hp2 as ->; [|done].
  exists lt.(lt_merger), hm. split_and!; [by apply new_lt_new|done|].
  intros St f st. destruct (Hr St f st) as [lt' Hm], (Hr2 St f st) as [hm' Hm2].
  exists lt'.(lt_merger), hm'. split; [by apply run_lt_run|done].
Qed.
End MergerProperties.

(** ** Three sources to merge *)

#[local] Instance dev_profile : Profile := true.

#[local] Existing Instances VecSource.VecSource_impl VecSource.VecSource_laws.

Definition toy_vecs : list VecSource.VecSource :=
  VecSource.new <$>
    [[(str "a", str "1"); (str "d", str "2")]; []; [(str "b", str "3"); (str "e", [])]].

Lemma toy_vecs_sorted : Forall (StronglySorted (cle (on_key (kcmp BytewiseComparator)))) (contents <$> toy_vecs).
Proof. cbn. repeat constructor; vm_compute; discriminate. Qed.
Lemma toy_vecs_valid : sources_valid BytewiseComparator toy_vecs.
Proof. repeat constructor; vm_compute; discriminate. Qed.

Lemma loser_tree_correct_witness :
  exists self out, lt_new BytewiseComparator toy_vecs = Ok self /\
    out ≡ₚ concat (contents <$> toy_vecs) /\ StronglySorted (cle (on_key slice_cmp)) out.
Proof.
  destruct (loser_tree_correct (C := BytewiseComparator) toy_vecs 4) as (self & out & ? & ? & ? & _);
    [exact toy_vecs_valid|exact toy_vecs_sorted|vm_compute; lia|].
  exists self, out. auto.
Defined.

Lemma heap_merger_correct_witness :
  exists self out, hm_new (Hp := list) (C := BytewiseComparator) toy_vecs = Ok self /\
    out ≡ₚ concat (contents <$> toy_vecs) /\ StronglySorted (cle (on_key slice_cmp)) out.
Proof.
  destruct (heap_merger_correct (Hp := list) (C := BytewiseComparator) toy_vecs 4) as (self & out & ? & ? & ? & _);
    [exact toy_vecs_valid|exact toy_vecs_sorted|vm_compute; lia|].
  exists self, out. auto.
Defined.

Lemma mergers_agree_witness :
  exists lt hm, lt_new BytewiseComparator toy_vecs = Ok lt /\
    hm_new (Hp := list) (C := BytewiseComparator) toy_vecs = Ok hm /\
    forall St (f : bytes -> bytes -> St -> St) st,
      let st' := feed f st (sort_by (on_key (kcmp BytewiseComparator)) (concat (contents <$> toy_vecs))) in
      exists lt' hm', lt_run BytewiseComparator 4 lt f st = Ok (lt', st') /\
        hm_run (Hp := list) (C := BytewiseComparator) 4 hm f st = Ok (hm', st').
Proof.
  apply (mergers_agree (Hp := list) (C := BytewiseComparator) toy_vecs 4).
  - intros a b _ _. apply slice_cmp_eq.
  - exact toy_vecs_valid.
  - exact toy_vecs_sorted.
  - vm_compute. lia.
  - by apply (bool_decide_unpack _).
Defined.
