(* ===== verification/Rounds.v ===== *)
(** The merge inputs and the loser tree as state machines: what holds in every
    state they can reach, and that the merge always goes on. *)

From S2P Require Import Prelude InternalKey Cmp Source Kmerge LoserTree.

(** ** The life of an arena source

    It is built from entries pushed one by one; after that [advance] and
    [shard] are the only operations that make a new source. *)
Section ArenaLife.
Context `{Profile}.

Inductive arena_step : ArenaSource -> ArenaSource -> Prop :=
  | step_advance a : arena_step a (arena_advance a)
  | step_shard a start end_idx a' : 0 <= start -> shard a start end_idx = Ok a' -> arena_step a a'.

Definition arena_reachable (es : list entry) (a : ArenaSource) : Prop :=
  rtc arena_step (Source.build (push_all builder_new es)) a.

(** The invariant: well-formed, and still over the entries pushed. *)
Record arena_inv (es : list entry) (a : ArenaSource) : Prop := {
  ai_ok : arena_ok a;
  ai_entries : all_entries a = es
}.

Lemma arena_inv_init es : arena_bytes es < 2 ^ 32 -> arena_inv es (Source.build (push_all builder_new es)).
Proof.
  intros Hb. destruct (build_ok _ _ (push_all_repr builder_new [] es builder_new_repr Hb)) as (Hok & He & _). by split.
Qed.

Lemma arena_inv_step es a a' : arena_step a a' -> arena_inv es a -> arena_inv es a'.
Proof.
  intros [b|b start end_idx b' Hs Hsh] [Hok He].
  - destruct Hok as [Hsp Hp Hend]. split; [split; cbn; [done|lia|done]|done].
  - unfold shard in Hsh. inv_ok Hsh. unfold assert in Hx. case_match eqn:E; [|done]. injection Hsh as <-.
    destruct Hok as [Hsp Hp Hend]. split; [split; cbn; [done|lia|lia]|done].
Qed.

Lemma arena_reachable_inv es a : arena_bytes es < 2 ^ 32 -> arena_reachable es a -> arena_inv es a.
Proof.
  intros Hb Hr. unfold arena_reachable in Hr. pose proof (arena_inv_init es Hb) as Hi.
  induction Hr as [|a1 a2 a3 Hst _ IH]; [done|]. apply IH. by eapply arena_inv_step.
Qed.
End ArenaLife.

(** ** The rounds of a loser tree *)

Section Rounds.
Context {Src C : Type} `{MSL : MergeSourceLaws Src} `{KCL : KeyComparatorLaws C}.
#[local] Abbreviation LT := (LoserTreeMerger Src).
#[local] Abbreviation ocmp := (front_cmp (kcmp C)).

(** Rounds one after the other, with the entries they hand over. *)
Inductive rounds : LT -> list entry -> LT -> Prop :=
  | rounds_nil self : rounds self [] self
  | rounds_snoc self es self' e self'' :
      rounds self es self' -> round (C := C) self' e self'' -> rounds self (es ++ [e]) self''.

(** A node of the tree and the leaves below it: leaf [x] is node [x + K]. *)
Definition below_node (k x node : Z) : Prop := exists j : nat, (x + k) / 2 ^ Z.of_nat j = node.

(** Every internal node stores a leaf below it that some other leaf below it
    beats. *)
Definition losers_ok (fr : Z -> option entry) (t : list Z) (k : Z) : Prop :=
  forall node, 1 <= node < k ->
    exists l w, get_at t node = Some l /\ below_node k l node /\ below_node k w node /\ w <> l /\
      cle ocmp (fr w) (fr l).

Lemma tourney_node d fr t h node w (i : nat) m :
  tourney (kcmp C) d fr t h node w -> (i < h)%nat -> m / 2 ^ Z.of_nat i = node ->
  exists l x, get_at t m = Some l /\ below_node (2 ^ Z.of_nat d) l m /\ below_node (2 ^ Z.of_nat d) x m /\
    x <> l /\ cle ocmp (fr x) (fr l).
Proof.
  revert node w i. induction h as [|h IH]; intros node w i Ht Hi Hm; [lia|].
  destruct Ht as (wl & wr & Hl & Hr & Hmatch). destruct i as [|i].
  - rewrite Z.div_1_r in Hm. subst m.
    pose proof (tourney_range _ _ _ _ _ _ _ Hl) as Rl. pose proof (tourney_range _ _ _ _ _ _ _ Hr) as Rr.
    assert (wl <> wr) as Hne by (intros ->; lia).
    assert (below_node (2 ^ Z.of_nat d) wl node) as Bl
      by (exists (S h); rewrite div_pow_S, Rl; Z.to_euclidean_division_equations; lia).
    assert (below_node (2 ^ Z.of_nat d) wr node) as Br
      by (exists (S h); rewrite div_pow_S, Rr; Z.to_euclidean_division_equations; lia).
    destruct Hmatch as [(_ & Hg & Hc)|(_ & Hg & Hc)]; [exists wr, wl|exists wl, wr]; split_and!; done.
  - rewrite div_pow_S in Hm.
    assert (m / 2 ^ Z.of_nat i = 2 * node \/ m / 2 ^ Z.of_nat i = 2 * node + 1) as [E|E]
      by (Z.to_euclidean_division_equations; lia); [by eapply (IH _ _ i Hl); [lia|]|by eapply (IH _ _ i Hr); [lia|]].
Qed.

Lemma lt_inv_losers self d :
  lt_inv (C := C) self d -> losers_ok (front self.(sources)) self.(tree) self.(k_padded).
Proof.
  intros [Hk _ _ _ Ht] node Hn. rewrite Hk in *.
  apply (tourney_node d _ _ d 1 self.(winner) (Z.to_nat (Z.log2 node)) node Ht).
  - assert (Z.log2 node < Z.of_nat d) by (apply Z.log2_lt_pow2; lia). pose proof (Z.log2_nonneg node). lia.
  - rewrite Z2Nat.id by apply Z.log2_nonneg. destruct (Z.log2_spec node) as [Hlo Hhi]; [lia|].
    rewrite Z.pow_succ_r in Hhi by apply Z.log2_nonneg. symmetry. apply (Z.div_unique_pos _ _ _ (node - 2 ^ Z.log2 node)); lia.
Qed.

(** The winner's front precedes every front. *)
Lemma lt_inv_winner self d leaf :
  lt_inv (C := C) self d -> 0 <= leaf < self.(k_padded) ->
  cle ocmp (front self.(sources) self.(winner)) (front self.(sources) leaf).
Proof.
  intros [Hk _ _ _ Ht] Hl. rewrite Hk in *. apply (tourney_min _ d _ _ d 1 _ leaf Ht).
  symmetry. apply (Z.div_unique_pos _ _ _ leaf); lia.
Qed.

Lemma round_det self e self' e2 self2 :
  round (C := C) self e self' -> round (C := C) self e2 self2 -> e = e2 /\ self' = self2.
Proof.
  intros H1%lt_step_round H2%lt_step_round. split; congruence.
Qed.

(** Reachable states keep the invariant and account for every entry. *)
Lemma rounds_inv self es self' d :
  rounds self es self' -> lt_inv (C := C) self d ->
  lt_inv (C := C) self' d /\ es ++ concat (contents <$> self'.(sources)) ≡ₚ concat (contents <$> self.(sources)).
Proof.
  induction 1 as [self|self es self' e self'' _ IH Hr]; intros Hinv; [done|].
  destruct (IH Hinv) as [Hinv' Hp].
  destruct (round_ok self' d Hinv') as [[_ Hstop]|(e' & self2 & j & l & Hr' & Hinv2 & Hj & Hins & _)].
  - apply lt_step_round in Hr. specialize (Hstop 1%nat nat (fun _ _ n => S n) O).
    rewrite lt_run_S, Hr, bind_Ok in Hstop. cbn [lt_run] in Hstop. exfalso.
    destruct (len _ <=? _); [done|]. destruct (index_at _ _); [|done..]. rewrite bind_Ok in Hstop.
    destruct (peek a) as [[[? ?]|]| | |]; rewrite ?bind_Ok in Hstop; done.
  - destruct (round_det _ _ _ _ _ Hr Hr') as [<- <-]. split; [done|].
    rewrite Hins, <- Hp, <- (assoc_L (++)). f_equiv. symmetry. cbn. apply (concat_insert_tail _ _ _ _ Hj).
Qed.
End Rounds.

(** ** Properties *)

Section ArenaProperties.
Context `{Profile}.

(** C20: The invariant of arena sources: whatever sequence of advances and
    shards led to a source, it still stands for the entries pushed - its
    window lies inside them, peeking returns the entry at its position (none
    at the end) and never panics, every key can be read by its index, and
    sharding again succeeds exactly within bounds. *)
Theorem arena_source_invariant es a :
  arena_bytes es < 2 ^ 32 -> arena_reachable es a ->
  0 <= a.(Source.pos) /\ a.(end_) <= len es /\ total_len a = len es /\ window a `sublist_of` es /\
  arena_peek a = Ok (if a.(Source.pos) <? a.(end_) then es !! Z.to_nat a.(Source.pos) else None) /\
  (forall i e, es !! i = Some e -> key_at a (Z.of_nat i) = Ok e.1) /\
  forall s t, if (s <=? t) && (t <=? len es) then is_Ok (shard a s t) else shard a s t = Panic.
Proof.
  intros Hb Hr. destruct (arena_reachable_inv es a Hb Hr) as [Hok <-].
  assert (len (all_entries a) = len a.(spans)) as Hlen by apply len_fmap.
  pose proof (arena_peek_window a Hok) as Hpeek. destruct Hok as [Hs Hp He]. split_and!; [done|lia|by rewrite Hlen| | | |].
  - unfold window. etransitivity; [apply sublist_take|apply sublist_drop].
  - rewrite Hpeek. f_equal. unfold window. rewrite head_lookup.
    destruct (Z.ltb_spec a.(Source.pos) a.(end_)); [by rewrite lookup_take_lt, lookup_drop, Nat.add_0_r by lia|].
    by replace (Z.to_nat (a.(end_) - a.(Source.pos))) with O by lia.
  - intros i e Hi. apply (get_at_all_entries a (Z.of_nat i)); [done|lia|by rewrite Nat2Z.id].
  - intros s t. unfold shard. rewrite Hlen. case_match; [by eexists|done].
Qed.
End ArenaProperties.

Section RoundsProperties.
Context {Src C : Type} `{MSL : MergeSourceLaws Src} `{KCL : KeyComparatorLaws C}.

(** C15: The tournament invariant: a loser tree over well-formed sources is
    built, and in every state its rounds reach the winner's front precedes the
    front of every leaf, each internal node stores a leaf below it that
    another leaf below it beats, and the entries delivered with those still in
    the sources are the entries it started with. *)
Theorem loser_tree_invariant (ss : list Src) :
  sources_valid C ss ->
  exists m, lt_new C ss = Ok m /\ forall es m', rounds (C := C) m es m' ->
    (forall leaf, 0 <= leaf < m'.(k_padded) ->
       cle (front_cmp (kcmp C)) (front m'.(sources) m'.(winner)) (front m'.(sources) leaf)) /\
    losers_ok (C := C) (front m'.(sources)) m'.(tree) m'.(k_padded) /\
    es ++ concat (contents <$> m'.(sources)) ≡ₚ concat (contents <$> ss).
Proof.
  intros Hv. destruct (lt_new_ok (C := C) ss Hv) as (m & d & Hnew & Hs & Hinv). exists m. split; [done|].
  intros es m' Hr. destruct (rounds_inv m es m' d Hr Hinv) as [Hinv' Hp]. rewrite Hs in Hp. split_and!; [|by eapply lt_inv_losers|done].
  intros leaf. by eapply lt_inv_winner.
Qed.

(** C16: The merge never gets stuck: from every state its rounds reach, as long
    as some source still has an entry there is a next round, it is the only
    one, and it leaves one entry less; when no entry is left the loop stops. *)
Theorem loser_tree_progress (ss : list Src) :
  sources_valid C ss ->
  exists m, lt_new C ss = Ok m /\ forall es m', rounds (C := C) m es m' ->
    (length es + total_entries m'.(sources) = total_entries ss)%nat /\
    ((0 < total_entries m'.(sources))%nat ->
       exists e m'', round (C := C) m' e m'' /\ total_entries m'.(sources) = S (total_entries m''.(sources)) /\
         forall e2 m2, round (C := C) m' e2 m2 -> e2 = e /\ m2 = m'') /\
    (total_entries m'.(sources) = 0%nat ->
       forall fuel St (f : bytes -> bytes -> St -> St) st, lt_run C fuel m' f st = Ok (m', st)).
Proof.
  intros Hv. destruct (lt_new_ok (C := C) ss Hv) as (m & d & Hnew & Hs & Hinv). exists m. split; [done|].
  intros es m' Hr. destruct (rounds_inv m es m' d Hr Hinv) as [Hinv' Hp]. rewrite Hs in Hp.
  apply Permutation_length in Hp as Hl. rewrite length_app in Hl. split; [exact Hl|].
  destruct (round_ok m' d Hinv') as [[Hdone Hstop]|(e & m'' & j & l & Hro & _ & Hj & Hins & _)].
  - assert (total_entries m'.(sources) = 0%nat) as Hz
      by (unfold total_entries; clear -Hdone; induction Hdone as [|l ls -> _ IH]; [done|exact IH]).
    split; [lia|]. intros _. exact Hstop.
  - assert (total_entries m'.(sources) = S (total_entries m''.(sources))) as Ht.
    { unfold total_entries. rewrite Hins. pose proof (concat_insert_tail _ _ _ _ Hj) as Hc.
      apply Permutation_length in Hc. exact Hc. }
    split; [|lia]. intros _. exists e, m''. split_and!; [done|done|]. intros e2 m2 H2.
    by destruct (round_det _ _ _ _ _ Hro H2) as [-> ->].
Qed.
End RoundsProperties.

(** ** A shard of a shard, and three sources *)

#[local] Instance dev_profile : Profile := true.
#[local] Existing Instances VecSource.VecSource_impl VecSource.VecSource_laws.

Definition toy_shard : ArenaSource :=
  match shard (arena_advance (Source.build (push_all builder_new toy_run))) 1 2 with Ok a => a | _ => Source.build builder_new end.

Lemma toy_shard_reachable : arena_reachable toy_run toy_shard.
Proof.
  eapply rtc_l; [apply step_advance|]. eapply rtc_once, (step_shard _ 1 2); [lia|reflexivity].
Qed.

Lemma arena_source_invariant_witness :
  arena_peek toy_shard = Ok (Some (make_ikey (str "b") 769, [])) /\ window toy_shard `sublist_of` toy_run.
Proof.
  destruct (arena_source_invariant toy_run toy_shard) as (_ & _ & _ & Hw & Hp & _);
    [reflexivity|exact toy_shard_reachable|]. split; [exact Hp|exact Hw].
Defined.

Definition toy_round_sources : list VecSource.VecSource :=
  VecSource.new <$>
    [[(str "a", str "1"); (str "d", str "2")]; []; [(str "b", str "3"); (str "e", [])]].

Lemma toy_round_valid : sources_valid BytewiseComparator toy_round_sources.
Proof. repeat constructor; vm_compute; discriminate. Qed.

Lemma loser_tree_invariant_witness :
  exists m, lt_new BytewiseComparator toy_round_sources = Ok m /\ forall es m', rounds (C := BytewiseComparator) m es m' ->
    es ++ concat (contents <$> m'.(sources)) ≡ₚ concat (contents <$> toy_round_sources).
Proof.
  destruct (loser_tree_invariant (C := BytewiseComparator) toy_round_sources) as (m & Hm & Hr); [exact toy_round_valid|].
  exists m. split; [exact Hm|]. intros es m' Hes. by destruct (Hr es m' Hes) as (_ & _ & ?).
Defined.

Lemma loser_tree_progress_witness :
  exists m, lt_new BytewiseComparator toy_round_sources = Ok m /\ forall es m', rounds (C := BytewiseComparator) m es m' ->
    (length es + total_entries m'.(sources) = 4)%nat.
Proof.
  destruct (loser_tree_progress (C := BytewiseComparator) toy_round_sources) as (m & Hm & Hr); [exact toy_round_valid|].
  exists m. split; [exact Hm|]. intros es m' Hes. by destruct (Hr es m' Hes) as (? & _ & _).
Defined.

(** The first two rounds of the toy merge, computed. *)
Example toy_rounds :
  (m ← lt_new BytewiseComparator toy_round_sources;
   '(_, out) ← lt_run BytewiseComparator 4 m (fun k v out => out ++ [(k, v)]) [];
   Ok (take 2 out)) = Ok [(str "a", str "1"); (str "b", str "3")].
Proof. vm_compute. reflexivity. Qed.
