(* ===== verification/Strategy.v ===== *)
(** Compaction strategies of [compaction/strategy.rs] and the per-entry
    callback of [compaction/mod.rs] that consults them, with the theorems on
    what each strategy keeps: which entries survive and what readers see. *)

From S2P Require Import Prelude Cmp Source InternalKey.

(** ** The trait and its implementations *)

Inductive KeepDecision : Type := Keep | Drop.
#[export] Instance KeepDecision_eq_dec : EqDecision KeepDecision.
Proof. solve_decision. Defined.

(** [decide], here [strategy_decide], takes [&mut self]: the strategy afterwards is returned. *)
Class CompactionStrategy (T : Type) : Type :=
  strategy_decide : T -> InternalKey -> bool -> T * KeepDecision.

Inductive BottommostStrategy : Type := BottommostStrategy_.

Definition bottommost_decide (self : BottommostStrategy) (ik : InternalKey) (is_first_for_key : bool) :
    BottommostStrategy * KeepDecision :=
  if negb is_first_for_key then (self, Drop)
  else if is_tombstone_type ik.(value_type) then (self, Drop)
  else (self, Keep).
#[export] Instance BottommostStrategy_impl : CompactionStrategy BottommostStrategy := bottommost_decide.

Record SnapshotAwareStrategy : Type := {
  snapshot_seqno : Z;
  kept_visible_version_for_current_key : bool
}.

(** [SnapshotAwareStrategy::new]. *)
Definition snapshot_new (snapshot_seqno : Z) : SnapshotAwareStrategy :=
  {| snapshot_seqno := snapshot_seqno; kept_visible_version_for_current_key := false |}.

Definition set_kept (self : SnapshotAwareStrategy) (b : bool) : SnapshotAwareStrategy :=
  {| snapshot_seqno := self.(snapshot_seqno); kept_visible_version_for_current_key := b |}.

(** The code also computes whether the entry is a tombstone and ignores it. *)
Definition snapshot_decide (self : SnapshotAwareStrategy) (ik : InternalKey) (is_first_for_key : bool) :
    SnapshotAwareStrategy * KeepDecision :=
  let self := if is_first_for_key then set_kept self false else self in
  if is_first_for_key then
    let self := if ik.(sequence) <=? self.(snapshot_seqno) then set_kept self true else self in
    (self, Keep)
  else if self.(kept_visible_version_for_current_key) then (self, Drop)
  else if ik.(sequence) <=? self.(snapshot_seqno) then (set_kept self true, Keep)
  else (self, Drop).
#[export] Instance SnapshotAwareStrategy_impl : CompactionStrategy SnapshotAwareStrategy := snapshot_decide.

Inductive PassthroughStrategy : Type := PassthroughStrategy_.
#[export] Instance PassthroughStrategy_impl : CompactionStrategy PassthroughStrategy :=
  fun self _ _ => (self, Keep).

(** ** The merge callback of [compact_with_strategy]

    The variables the closure captures by reference. *)
Record Visit (T : Type) : Type := {
  output : list entry;
  last_user_key : bytes;
  has_last_user_key : bool;
  strategy : T
}.
Arguments output {T} _.
Arguments last_user_key {T} _.
Arguments has_last_user_key {T} _.
Arguments strategy {T} _.

Section Visit.
Context {T : Type} `{CompactionStrategy T}.

Definition visit_new (t : T) : Visit T :=
  {| output := []; last_user_key := []; has_last_user_key := false; strategy := t |}.

(** One call of the closure; an entry whose key does not decode is skipped. *)
Definition visit (key value : bytes) (st : Visit T) : Visit T :=
  match split key with
  | Ok ik =>
      let is_first_for_key :=
        negb st.(has_last_user_key) || negb (bool_decide (st.(last_user_key) = ik.(user_key))) in
      let '(strategy, decision) := strategy_decide st.(strategy) ik is_first_for_key in
      if bool_decide (decision = Drop) then
        {| output := st.(output); last_user_key := ik.(user_key);
           has_last_user_key := true; strategy := strategy |}
      else
        {| output := st.(output) ++ [(key, value)]; last_user_key := ik.(user_key);
           has_last_user_key := true; strategy := strategy |}
  | _ => st
  end.

(** The entries a strategy keeps of a merge output. *)
Definition visit_all (st : Visit T) (es : list entry) : Visit T :=
  foldl (fun st e => visit e.1 e.2 st) st es.
Definition select (t : T) (es : list entry) : list entry := (visit_all (visit_new t) es).(output).
End Visit.

(** ** Versions of a user key *)

Definition has_user (uk : bytes) (e : entry) : Prop := ikey_user e.1 = uk.
#[export] Instance has_user_dec uk e : Decision (has_user uk e).
Proof. unfold has_user. solve_decision. Defined.

Definition versions (uk : bytes) (es : list entry) : list entry := filter (has_user uk) es.
Definition is_tombstone (e : entry) : bool := is_tombstone_type (ikey_type e.1).

(** The version of [uk] a reader at sequence number [snap] finds, and the
    value it returns: nothing when that version is a tombstone.  This takes
    every other entry for a value, as the program does. *)
Definition visible (snap : Z) (e : entry) : Prop := ikey_seq e.1 <= snap.
#[export] Instance visible_dec snap e : Decision (visible snap e).
Proof. unfold visible. solve_decision. Defined.
Definition find_version (uk : bytes) (snap : Z) (es : list entry) : option entry :=
  head (filter (visible snap) (versions uk es)).
Definition point_read (uk : bytes) (snap : Z) (es : list entry) : option bytes :=
  e ← find_version uk snap es; if is_tombstone e then None else Some e.2.

(** ** Range deletions

    In RocksDB an entry of type [RangeDeletion] is no version of its user key:
    it deletes the older versions of all user keys from its own up to, and
    without, the one its value names.  [read] is a read that honours it.  The
    program does not: see [EndToEnd.range_deletion_lost]. *)
Definition range_deletion (e : entry) : Prop := ikey_type e.1 = RangeDeletion.
#[export] Instance range_deletion_dec e : Decision (range_deletion e).
Proof. unfold range_deletion. solve_decision. Defined.

Definition point (e : entry) : Prop := ~ range_deletion e.
#[export] Instance point_dec e : Decision (point e).
Proof. unfold point. solve_decision. Defined.

(** [rd] deletes [e], for a reader at [snap]. *)
Definition range_deletes (snap : Z) (e rd : entry) : Prop :=
  range_deletion rd /\ visible snap rd /\ ikey_seq e.1 < ikey_seq rd.1 /\
  slice_cmp (ikey_user rd.1) (ikey_user e.1) <> Gt /\ slice_cmp (ikey_user e.1) rd.2 = Lt.
#[export] Instance range_deletes_dec snap e rd : Decision (range_deletes snap e rd).
Proof. unfold range_deletes. solve_decision. Defined.

Definition read (uk : bytes) (snap : Z) (es : list entry) : option bytes :=
  e ← find_version uk snap (filter point es);
  if is_tombstone e || bool_decide (Exists (range_deletes snap e) es) then None else Some e.2.

(** The entry types whose meaning the program implements.  Range deletions
    pass through it as if they were values, merge operands as if the newest
    stood for them all, and other types are not interpreted. *)
Definition plain (e : entry) : Prop :=
  ikey_type e.1 = Value \/ ikey_type e.1 = Deletion \/ ikey_type e.1 = SingleDeletion.
#[export] Instance plain_dec e : Decision (plain e).
Proof. unfold plain. solve_decision. Defined.

Definition is_value (e : entry) : Prop := ikey_type e.1 = Value.

Lemma plain_point e : plain e -> point e.
Proof. unfold plain, point, range_deletion. intuition congruence. Qed.

Lemma plain_live e : plain e -> is_tombstone e = false -> is_value e.
Proof. unfold is_tombstone, is_value. by intros [->|[->| ->]]. Qed.

Lemma is_value_plain e : is_value e -> plain e.
Proof. by left. Qed.

(** Without range deletions a read is decided by the versions of the key. *)
Lemma read_plain uk snap es : Forall plain es -> read uk snap es = point_read uk snap es.
Proof.
  intros Hp. unfold read, point_read. rewrite filter_all by (eapply Forall_impl; [exact Hp|apply plain_point]).
  destruct (find_version uk snap es) as [e|]; [|done]. cbn. rewrite bool_decide_false, orb_false_r; [done|].
  intros (rd & Hin & Hrd & _)%Exists_exists. rewrite Forall_forall in Hp. by apply (plain_point rd (Hp rd Hin)).
Qed.

(** ** What a strategy keeps of the versions of one user key *)

(** The decisions on a run of versions of one key, newest first. *)
Fixpoint decide_run {T} `{CompactionStrategy T} (t : T) (first : bool) (g : list entry) : T * list entry :=
  match g with
  | [] => (t, [])
  | e :: g' =>
      match split e.1 with
      | Ok ik =>
          let '(t, d) := strategy_decide t ik first in
          let '(t, kept) := decide_run t false g' in
          (t, if bool_decide (d = Drop) then kept else e :: kept)
      | _ => decide_run t first g'
      end
  end.

(** The law of a strategy: on the versions of one key it keeps
    [keep_versions], whatever it saw of earlier keys. *)
Class StrategyLaws (T : Type) `{CompactionStrategy T} : Type := {
  keep_versions : T -> list entry -> list entry;
  keep_sublist t g : keep_versions t g `sublist_of` g;
  decide_run_keep t g :
    Forall (fun e => ikey_valid e.1) g ->
    exists t', decide_run t true g = (t', keep_versions t g) /\ keep_versions t' = keep_versions t
}.

(** [BottommostStrategy]: the newest version, unless it is a tombstone. *)
Definition bottommost_keep (g : list entry) : list entry :=
  match g with
  | [] => []
  | e :: _ => if is_tombstone e then [] else [e]
  end.

(** [SnapshotAwareStrategy]: the newest version, and if the snapshot cannot see
    it the newest one the snapshot sees. *)
Definition snapshot_keep (snap : Z) (g : list entry) : list entry :=
  match g with
  | [] => []
  | e :: g' => if decide (visible snap e) then [e] else e :: take 1 (filter (visible snap) g')
  end.

Section KeepLaws.
Lemma bottommost_decide_eq (t : BottommostStrategy) ik b :
  strategy_decide t ik b = bottommost_decide t ik b.
Proof. done. Qed.
Lemma snapshot_decide_eq (t : SnapshotAwareStrategy) ik b :
  strategy_decide t ik b = snapshot_decide t ik b.
Proof. done. Qed.
Lemma take_sublist {A} n (l : list A) : take n l `sublist_of` l.
Proof. apply sublist_take. Qed.

Lemma bottommost_run_rest t g : (decide_run (T := BottommostStrategy) t false g).2 = [].
Proof.
  revert t. induction g as [|e g IH]; intros t; cbn [decide_run]; [done|].
  destruct (split e.1); [|apply IH..]. cbn. specialize (IH t).
  by destruct (decide_run t false g).
Qed.

#[export] Program Instance BottommostStrategy_laws : StrategyLaws BottommostStrategy := {
  keep_versions _ g := bottommost_keep g
}.
Next Obligation.
  intros _ [|e g]; cbn; [constructor|]. case_match; [apply sublist_nil_l|].
  by apply sublist_skip, sublist_nil_l.
Qed.
Next Obligation.
  intros t [|e g] Hv; cbn [decide_run bottommost_keep]; [by exists t|].
  inversion Hv; subst. rewrite split_ok by done. rewrite bottommost_decide_eq. unfold bottommost_decide.
  cbn. fold (is_tombstone e). pose proof (bottommost_run_rest t g) as Hr.
  destruct (is_tombstone e); destruct (decide_run t false g) as [t' kept]; cbn in Hr; subst;
    by eexists.
Qed.

Lemma snapshot_run_rest t g :
  Forall (fun e => ikey_valid e.1) g ->
  exists b, decide_run (T := SnapshotAwareStrategy) t false g =
    (set_kept t b, if t.(kept_visible_version_for_current_key) then []
                   else take 1 (filter (visible t.(snapshot_seqno)) g)).
Proof.
  revert t. induction g as [|e g IH]; intros t Hv; cbn [decide_run].
  { exists t.(kept_visible_version_for_current_key). destruct t as [? []]; done. }
  inversion Hv; subst. rewrite split_ok by done.
  rewrite snapshot_decide_eq. unfold snapshot_decide. cbn [sequence].
  destruct t.(kept_visible_version_for_current_key) eqn:Hk.
  { cbn. destruct (IH t) as [b ->]; [done|]. rewrite Hk. by exists b. }
  rewrite filter_cons. unfold visible at 1. case_decide as Hvis.
  - replace (ikey_seq e.1 <=? t.(snapshot_seqno)) with true by lia.
    cbn. destruct (IH (set_kept t true)) as [b ->]; [done|]. by exists b.
  - replace (ikey_seq e.1 <=? t.(snapshot_seqno)) with false by lia.
    cbn. destruct (IH t) as [b ->]; [done|]. rewrite Hk. by exists b.
Qed.

#[export] Program Instance SnapshotAwareStrategy_laws : StrategyLaws SnapshotAwareStrategy := {
  keep_versions t g := snapshot_keep t.(snapshot_seqno) g
}.
Next Obligation.
  intros t [|e g]; cbn; [constructor|]. case_decide; apply sublist_skip; [apply sublist_nil_l|].
  etransitivity; [apply (take_sublist 1)|apply sublist_filter].
Qed.
Next Obligation.
  intros t [|e g] Hv; cbn [decide_run snapshot_keep]; [by exists t|].
  inversion Hv; subst. rewrite split_ok by done.
  rewrite snapshot_decide_eq. unfold snapshot_decide. cbn [sequence].
  unfold visible at 1. case_decide as Hvis.
  - replace (ikey_seq e.1 <=? _) with true by (cbn; lia).
    destruct (snapshot_run_rest (set_kept (set_kept t false) true) g) as [b ->]; [done|].
    by eexists.
  - replace (ikey_seq e.1 <=? _) with false by (cbn; lia).
    destruct (snapshot_run_rest (set_kept t false) g) as [b ->]; [done|]. by eexists.
Qed.

#[export] Program Instance PassthroughStrategy_laws : StrategyLaws PassthroughStrategy := {
  keep_versions _ g := g
}.
Next Obligation. done. Qed.
Next Obligation.
  intros t g Hv. exists t. split; [|done]. generalize true. revert t.
  induction Hv as [|e g He Hv IH]; intros t b; cbn [decide_run]; [done|].
  rewrite split_ok by done. cbn. by rewrite IH.
Qed.
End KeepLaws.

(** ** The whole merge output *)

Definition same_user (e1 e2 : entry) : Prop := ikey_user e1.1 = ikey_user e2.1.
#[export] Instance same_user_dec e1 e2 : Decision (same_user e1 e2).
Proof. unfold same_user. solve_decision. Defined.

(** Maximal runs of consecutive entries with one user key. *)
Fixpoint groups (es : list entry) : list (list entry) :=
  match es with
  | [] => []
  | e :: es' =>
      match groups es' with
      | (e' :: g) :: gs => if decide (same_user e e') then (e :: e' :: g) :: gs else [e] :: (e' :: g) :: gs
      | gs => [e] :: gs
      end
  end.

(** A run: non-empty, one user key. *)
Definition uniform (g : list entry) : Prop := exists e g', g = e :: g' /\ Forall (same_user e) g'.
Definition differ (g1 g2 : list entry) : Prop :=
  forall e1 e2, e1 ∈ g1 -> e2 ∈ g2 -> ~ same_user e1 e2.

Section Groups.
Lemma groups_concat es : concat (groups es) = es.
Proof.
  induction es as [|e es IH]; cbn; [done|].
  destruct (groups es) as [|[|e' g] gs]; cbn in *; subst; [done..|]. by case_decide.
Qed.

Lemma groups_uniform es : Forall uniform (groups es).
Proof.
  assert (forall e, uniform [e]) as H1 by (intros e; exists e, []; auto).
  induction es as [|e es IH]; cbn; [constructor|].
  destruct (groups es) as [|[|e' g] gs]; [by repeat constructor|by constructor|].
  case_decide as Hs; [|by constructor].
  inversion IH as [|? ? (e1 & g1 & Heq & Hg) Hgs]; subst. injection Heq as <- <-.
  constructor; [|done].
  exists e, (e' :: g). split; [done|]. constructor; [done|].
  eapply Forall_impl; [exact Hg|]. unfold same_user in *. congruence.
Qed.

Lemma groups_adjacent es : Sorted differ (groups es).
Proof.
  induction es as [|e es IH]; cbn; [constructor|].
  pose proof (groups_uniform es) as Hu.
  destruct (groups es) as [|[|e' g] gs]; [by repeat constructor| |].
  { inversion Hu as [|? ? (? & ? & Hnil & _)]. done. }
  inversion Hu as [|? ? (e1 & g1 & Heq & Hg) Hgs]; subst. injection Heq as <- <-.
  rewrite Forall_forall in Hg.
  assert (forall x, x ∈ e' :: g -> same_user e' x) as Hall
    by (intros x [->|?]%elem_of_cons; [done|by apply Hg]).
  case_decide as Hs.
  - inversion IH as [|? ? Hss Hhd]; subst. constructor; [done|].
    inversion Hhd as [|g2 gs' Hd]; subst; constructor.
    intros x y [->|Hx]%elem_of_cons Hy; [|by apply Hd].
    intros Hxy. apply (Hd e' y); [by left|done|]. unfold same_user in *. congruence.
  - constructor; [done|]. constructor. intros x y ->%list_elem_of_singleton Hy Hxy.
    apply Hs. specialize (Hall y Hy). unfold same_user in *. congruence.
Qed.

(** On a list sorted by user key every two runs have different keys. *)
Lemma groups_distinct es :
  StronglySorted (cle user_cmp) es -> StronglySorted differ (groups es).
Proof.
  pose proof (groups_adjacent es) as Ha. pose proof (groups_uniform es) as Hu.
  rewrite <- (groups_concat es) at 1. induction Ha as [|g gs Ha IH Hd]; intros Hs; [constructor|].
  inversion Hu as [|? ? Hg Hgs]; subst. cbn [concat] in Hs.
  apply StronglySorted_app in Hs as (Hcross & _ & Hs). constructor; [by apply IH|].
  apply Forall_forall. intros g2 Hg2 x y Hx Hy Hxy.
  destruct gs as [|g1 gs]; [by apply elem_of_nil in Hg2|].
  inversion Hd as [|? ? Hdiff]; subst. inversion Hgs as [|? ? (z & g1' & Heq & Hz) _]; subst.
  assert (z ∈ z :: g1') as Hzin by (by left).
  apply (Hdiff x z Hx Hzin). unfold same_user in *.
  assert (cle user_cmp x z) as Hxz
    by (apply Hcross; [done|]; cbn; by left).
  assert (cle user_cmp z y) as Hzy.
  { cbn [concat] in Hs. apply elem_of_cons in Hg2 as [->|Hg2].
    - apply elem_of_cons in Hy as [->|Hy]; [apply (cle_preorder user_cmp)|].
      cbn in Hs. inversion Hs as [|? ? _ Hall]; subst. rewrite Forall_forall in Hall.
      apply Hall, elem_of_app. by left.
    - eapply StronglySorted_app_1_elem_of; [exact Hs|done|].
      apply elem_of_concat. eauto. }
  apply slice_cmp_eq. unfold cle, user_cmp in *. rewrite Hxy in *.
  rewrite (cmp_opp slice_cmp) in Hxz |- *.
  destruct (slice_cmp (ikey_user z.1) (ikey_user y.1)); done.
Qed.
End Groups.

Section Select.
Context {T : Type} `{SL : StrategyLaws T}.
Implicit Types (es g : list entry) (st : Visit T) (t : T).

#[local] Abbreviation valid es := (Forall (fun e : entry => ikey_valid e.1) es).

Lemma visit_ok st e :
  ikey_valid e.1 ->
  let first := negb st.(has_last_user_key) || negb (bool_decide (st.(last_user_key) = ikey_user e.1)) in
  visit e.1 e.2 st =
    let '(t, d) := strategy_decide st.(strategy)
      {| user_key := ikey_user e.1; sequence := ikey_seq e.1; value_type := ikey_type e.1 |} first in
    {| output := st.(output) ++ (if bool_decide (d = Drop) then [] else [e]);
       last_user_key := ikey_user e.1; has_last_user_key := true; strategy := t |}.
Proof.
  intros Hv. cbn. unfold visit. rewrite split_ok by done. cbn [user_key].
  destruct (strategy_decide _ _ _) as [t d]. case_bool_decide; [by rewrite app_nil_r|by destruct e].
Qed.

Lemma visit_all_cons st e es : visit_all st (e :: es) = visit_all (visit e.1 e.2 st) es.
Proof. done. Qed.
Lemma visit_all_app st es1 es2 : visit_all st (es1 ++ es2) = visit_all (visit_all st es1) es2.
Proof. apply foldl_app. Qed.

(** Within a run the callback follows [decide_run]. *)
Lemma visit_run st uk g :
  valid g -> Forall (has_user uk) g -> st.(has_last_user_key) = true -> st.(last_user_key) = uk ->
  visit_all st g =
    {| output := st.(output) ++ (decide_run st.(strategy) false g).2; last_user_key := uk;
       has_last_user_key := true; strategy := (decide_run st.(strategy) false g).1 |}.
Proof.
  intros Hv. revert st. induction Hv as [|e g He Hv IH]; intros st Hu Hh Hl.
  { cbn. rewrite app_nil_r. destruct st; cbn in *. by subst. }
  inversion Hu as [|? ? Hue Hu']; subst. unfold has_user in Hue.
  rewrite visit_all_cons, visit_ok by done. cbn [decide_run]. rewrite split_ok by done.
  rewrite Hh, bool_decide_true by congruence. cbn [negb orb].
  destruct (strategy_decide _ _ _) as [t d].
  rewrite IH by (cbn; congruence). cbn. rewrite <- Hue.
  destruct (decide_run t false g) as [t' kept]. cbn. f_equal.
  rewrite <- (assoc_L (++)). by case_bool_decide.
Qed.

(** A whole run, entered from another key. *)
Lemma visit_group st g :
  valid g -> uniform g ->
  (st.(has_last_user_key) = true -> forall e, e ∈ g -> st.(last_user_key) <> ikey_user e.1) ->
  exists uk t', Forall (has_user uk) g /\ keep_versions t' = keep_versions st.(strategy) /\
    visit_all st g =
      {| output := st.(output) ++ keep_versions st.(strategy) g; last_user_key := uk;
         has_last_user_key := true; strategy := t' |}.
Proof.
  intros Hv (e & g' & -> & Hg) Hne. inversion Hv as [|? ? He Hv']; subst.
  assert (Forall (has_user (ikey_user e.1)) g') as Hg'.
  { eapply Forall_impl; [exact Hg|]. intros x Hx. symmetry. exact Hx. }
  destruct (decide_run_keep st.(strategy) (e :: g') Hv) as (t' & Hrun & Hk).
  exists (ikey_user e.1), t'. split_and!; [by constructor|done|].
  rewrite visit_all_cons, visit_ok by done. cbv zeta.
  replace (negb _ || negb _) with true.
  2:{ destruct (st.(has_last_user_key)) eqn:Hl; cbn; [|done].
      rewrite bool_decide_false; [done|]. apply Hne; [done|by left]. }
  cbn [decide_run] in Hrun. rewrite split_ok in Hrun by done.
  destruct (strategy_decide _ _ true) as [t d].
  rewrite (visit_run _ (ikey_user e.1)) by done. cbn [output strategy].
  destruct (decide_run t false g') as [t2 kept]. cbn. injection Hrun as <- <-.
  f_equal. rewrite <- (assoc_L (++)). by case_bool_decide.
Qed.

Lemma visit_groups st gs :
  Forall (fun g => valid g) gs -> Forall uniform gs -> Sorted differ gs ->
  (st.(has_last_user_key) = true ->
     forall g e, head gs = Some g -> e ∈ g -> st.(last_user_key) <> ikey_user e.1) ->
  (visit_all st (concat gs)).(output) =
    st.(output) ++ concat (keep_versions st.(strategy) <$> gs).
Proof.
  intros Hv. revert st. induction Hv as [|g gs Hg Hv IH]; intros st Hu Hs Hne; cbn [concat].
  { by rewrite app_nil_r. }
  inversion Hu as [|? ? Hug Hu']; subst. inversion Hs as [|? ? Hs' Hhd]; subst.
  rewrite visit_all_app. destruct (visit_group st g) as (uk & t' & Huk & Hk & ->); [done|done| |].
  { intros Hl e He. by apply (Hne Hl g e). }
  rewrite IH; cbn; [by rewrite Hk, (assoc_L (++))|done|done|].
  intros _ g2 e Hg2 He. destruct gs as [|g3 gs]; [done|]. cbn in Hg2. injection Hg2 as ->.
  inversion Hhd as [|? ? Hdiff]; subst. destruct Hug as (e1 & g' & -> & _).
  inversion Huk as [|? ? Hu1 _]; subst. intros Heq. apply (Hdiff e1 e); [by left|done|]. unfold same_user, has_user in *. congruence.
Qed.

(** What the callback keeps of any merge output: of every run of one user
    key, what the strategy keeps. *)
Lemma select_groups t es :
  valid es -> select t es = concat (keep_versions t <$> groups es).
Proof.
  intros Hv. unfold select. rewrite <- (groups_concat es) at 1.
  rewrite visit_groups; [done| |apply groups_uniform|apply groups_adjacent|done].
  apply Forall_forall. intros g Hg. apply Forall_forall. intros e He.
  rewrite Forall_forall in Hv. apply Hv. rewrite <- (groups_concat es).
  apply elem_of_concat. eauto.
Qed.

Lemma keep_nil t : keep_versions t [] = [].
Proof. apply sublist_nil_r. apply keep_sublist. Qed.

Lemma select_sublist t es : valid es -> select t es `sublist_of` es.
Proof.
  intros Hv. rewrite select_groups by done. rewrite <- (groups_concat es) at 2.
  induction (groups es) as [|g gs IH]; cbn; [constructor|].
  apply sublist_app; [apply keep_sublist|done].
Qed.

Lemma versions_uniform uk g h :
  uniform g -> h `sublist_of` g -> versions uk h = if decide (Forall (has_user uk) g) then h else [].
Proof.
  intros (e & g' & -> & Hg) Hh. unfold versions. case_decide as Hd.
  - apply filter_all. by eapply Forall_sublist.
  - apply filter_none. eapply Forall_sublist; [exact Hh|]. constructor.
    + intros He. apply Hd. constructor; [done|]. eapply Forall_impl; [exact Hg|].
      unfold same_user, has_user in *. congruence.
    + eapply Forall_impl; [exact Hg|]. intros x Hx Hux. apply Hd.
      unfold same_user, has_user in *. constructor; [congruence|].
      eapply Forall_impl; [exact Hg|]. cbn. congruence.
Qed.

(** The versions of one key in the output are what the strategy keeps of the
    versions of that key in the input. *)
Lemma versions_select t es uk :
  valid es -> StronglySorted (cle user_cmp) es ->
  versions uk (select t es) = keep_versions t (versions uk es).
Proof.
  intros Hv Hs. rewrite select_groups by done. apply groups_distinct in Hs.
  pose proof (groups_uniform es) as Hu. rewrite <- (groups_concat es) at 2.
  induction Hs as [|g gs Hs IH Hd]; cbn [fmap list_fmap concat]; [symmetry; apply keep_nil|].
  inversion Hu as [|? ? Hug Hu']; subst. specialize (IH Hu').
  unfold versions in *. rewrite !filter_app. fold (versions uk (keep_versions t g)) (versions uk g).
  rewrite (versions_uniform uk g), (versions_uniform uk g g) by (done || apply keep_sublist).
  case_decide as Hg; [|exact IH].
  assert (versions uk (concat gs) = []) as Hnil.
  { apply filter_none, Forall_forall. intros x Hx Hux.
    apply elem_of_concat in Hx as (g2 & Hg2 & Hx). rewrite Forall_forall in Hd.
    destruct Hug as (e & g' & -> & _). inversion Hg as [|? ? Hue _]; subst.
    apply (Hd g2 Hg2 e x); [by left|done|]. unfold same_user, has_user in *. congruence. }
  unfold versions in Hnil. rewrite IH, Hnil, keep_nil. by rewrite !app_nil_r.
Qed.
End Select.

(** ** Selection piece by piece *)

Section SelectApp.
Context {T : Type} `{SL : StrategyLaws T}.

Lemma groups_app es fs : differ es fs -> groups (es ++ fs) = groups es ++ groups fs.
Proof.
  induction es as [|e es IH]; intros Hd; [done|]. cbn [app groups].
  rewrite IH by (intros x y Hx Hy; apply Hd; [by right|done]).
  pose proof (groups_concat es) as Hc. pose proof (groups_uniform es) as Hu.
  destruct (groups es) as [|g gs].
  - cbn in Hc. subst es. cbn [app]. pose proof (groups_concat fs) as Hcf.
    pose proof (groups_uniform fs) as Huf. destruct (groups fs) as [|[|e' g] gs]; [done|done|].
    rewrite decide_False; [done|]. apply Hd; [by left|]. rewrite <- Hcf. cbn. by left.
  - inversion Hu as [|? ? (e' & g' & -> & _) _]; subst. cbn [app]. by case_decide.
Qed.

Lemma select_app (t : T) es fs :
  Forall (fun e => ikey_valid e.1) (es ++ fs) -> differ es fs ->
  select t (es ++ fs) = select t es ++ select t fs.
Proof.
  intros Hv Hd. pose proof Hv as Hv'. apply Forall_app in Hv' as [He Hf].
  rewrite !select_groups, groups_app by done. by rewrite fmap_app, concat_app.
Qed.
End SelectApp.

(** ** What readers see *)

Section Reads.
Implicit Types (es : list entry).

#[local] Abbreviation valid es := (Forall (fun e : entry => ikey_valid e.1) es).

(** Sorted by internal key: user key ascending, newest version first. *)
Abbreviation sorted_input es := (StronglySorted (cle (on_key ikey_cmp)) es).

Lemma sorted_user es : sorted_input es -> StronglySorted (cle user_cmp) es.
Proof. apply StronglySorted_impl, ikey_le_user. Qed.

(** The head of a list of versions is its newest. *)
Lemma versions_newest uk es e :
  sorted_input es -> head (versions uk es) = Some e ->
  forall e', e' ∈ versions uk es -> ikey_seq e'.1 <= ikey_seq e.1.
Proof.
  intros Hs Hh e' He'. unfold versions in *. pose proof (StronglySorted_filter _ (has_user uk) es Hs) as Hf.
  destruct (filter (has_user uk) es) as [|x l] eqn:El; [done|]. injection Hh as ->.
  assert (has_user uk e /\ has_user uk e') as [Hu Hu'].
  { split; apply (list_elem_of_filter (has_user uk) es); rewrite El; [by left|done]. }
  inversion Hf as [|? ? _ Hall]; subst. apply elem_of_cons in He' as [->|He']; [lia|].
  rewrite Forall_forall in Hall. specialize (Hall e' He'). unfold cle, on_key, ikey_cmp in Hall.
  unfold has_user in *. rewrite Hu, Hu', slice_cmp_refl in Hall. unfold ikey_seq.
  apply Z.div_le_mono; [lia|]. rewrite Z.compare_ngt_iff in Hall. lia.
Qed.

Lemma bottommost_versions t uk es :
  valid es -> sorted_input es ->
  versions uk (select (T := BottommostStrategy) t es) = bottommost_keep (versions uk es).
Proof. intros Hv Hs. exact (versions_select t es uk Hv (sorted_user es Hs)). Qed.

Lemma snapshot_versions (t : SnapshotAwareStrategy) uk es :
  valid es -> sorted_input es ->
  versions uk (select t es) = snapshot_keep t.(snapshot_seqno) (versions uk es).
Proof. intros Hv Hs. exact (versions_select t es uk Hv (sorted_user es Hs)). Qed.

Lemma filter_head_keep (P : entry -> Prop) `{!forall e, Decision (P e)} (g : list entry) :
  head (filter P (take 1 (filter P g))) = head (filter P g).
Proof.
  destruct (filter P g) as [|e l] eqn:El; [done|]. cbn [take].
  assert (e ∈ filter P g) as [He _]%list_elem_of_filter by (rewrite El; by left).
  by rewrite filter_cons_True.
Qed.

(** The snapshot strategy keeps the version its snapshot sees, and the newest. *)
Lemma snapshot_keep_visible snap g :
  head (filter (visible snap) (snapshot_keep snap g)) = head (filter (visible snap) g).
Proof.
  destruct g as [|e g]; [done|]. unfold snapshot_keep. rewrite (filter_cons _ e g). case_decide as Hv.
  - by rewrite filter_cons_True.
  - rewrite filter_cons_False by done. apply (filter_head_keep (visible snap)).
Qed.
Lemma snapshot_keep_newest snap g : head (snapshot_keep snap g) = head g.
Proof. destruct g as [|e g]; [done|]. cbn. by case_decide. Qed.
Lemma snapshot_keep_length snap g : (length (snapshot_keep snap g) <= 2)%nat.
Proof.
  destruct g as [|e g]; cbn; [lia|]. case_decide; cbn; [lia|]. rewrite length_take. lia.
Qed.

(** Two entries of one user key in a list at most one version long per key
    are the same occurrence: the user keys increase strictly. *)
Lemma one_version_sorted es :
  StronglySorted (cle user_cmp) es -> (forall uk, (length (versions uk es) <= 1)%nat) ->
  StronglySorted (clt user_cmp) es.
Proof.
  induction 1 as [|e es Hs IH He]; intros Hl; [constructor|]. constructor.
  - apply IH. intros uk. specialize (Hl uk). unfold versions in *. rewrite filter_cons in Hl.
    case_decide; cbn in Hl; lia.
  - apply Forall_forall. intros e' He'. rewrite Forall_forall in He. specialize (He e' He').
    unfold clt, cle in *. destruct (user_cmp e e') eqn:E; [|done..]. exfalso.
    unfold user_cmp in E. apply slice_cmp_eq in E. specialize (Hl (ikey_user e.1)). unfold versions in Hl.
    rewrite filter_cons_True in Hl by done.
    assert (e' ∈ filter (has_user (ikey_user e.1)) es) as Hin by (apply list_elem_of_filter; done).
    destruct (filter _ es); [by apply elem_of_nil in Hin|]. cbn in Hl. lia.
Qed.

Lemma bottommost_output t es :
  valid es -> sorted_input es ->
  StronglySorted (clt user_cmp) (select (T := BottommostStrategy) t es) /\
  Forall (fun e => is_tombstone e = false) (select (T := BottommostStrategy) t es).
Proof.
  intros Hv Hs. assert (forall uk, (length (versions uk (select t es)) <= 1)%nat) as Hone.
  { intros uk. rewrite bottommost_versions by done. destruct (versions uk es); cbn; [lia|]. case_match; cbn; lia. }
  split.
  - apply one_version_sorted; [|exact Hone].
    eapply StronglySorted_sublist; [by apply select_sublist|by apply sorted_user].
  - apply Forall_forall. intros e He.
    assert (e ∈ versions (ikey_user e.1) (select t es)) as Hin by (apply list_elem_of_filter; done).
    rewrite bottommost_versions in Hin by done. unfold bottommost_keep in Hin.
    destruct (versions _ es) as [|x l]; [by apply elem_of_nil in Hin|].
    destruct (is_tombstone x) eqn:Ex; [by apply elem_of_nil in Hin|].
    by apply list_elem_of_singleton in Hin as ->.
Qed.

(** Every version is visible to a reader at the newest sequence number. *)
Lemma point_read_newest uk snap es :
  Forall (visible snap) es -> point_read uk snap es = (e ← head (versions uk es); if is_tombstone e then None else Some e.2).
Proof.
  intros Hall. unfold point_read, find_version. rewrite filter_all; [done|].
  apply Forall_forall. intros e [_ He]%list_elem_of_filter. rewrite Forall_forall in Hall. auto.
Qed.

Lemma bottommost_read t uk snap es :
  valid es -> sorted_input es -> Forall (visible snap) es ->
  point_read uk snap (select (T := BottommostStrategy) t es) = point_read uk snap es.
Proof.
  intros Hv Hs Hall. rewrite !point_read_newest; [|done|].
  2:{ eapply Forall_sublist; [by apply select_sublist|done]. }
  rewrite bottommost_versions by done. unfold bottommost_keep.
  destruct (versions uk es) as [|e l]; [done|]. cbn. destruct (is_tombstone e) eqn:E; cbn; [done|by rewrite E].
Qed.

(** Among entries with distinct user keys and no tombstones, those that read
    are those that are there. *)
Lemma read_live uk snap es v :
  StronglySorted (clt user_cmp) es -> Forall (fun e => is_tombstone e = false) es -> Forall (visible snap) es ->
  point_read uk snap es = Some v <-> exists e, e ∈ es /\ ikey_user e.1 = uk /\ e.2 = v.
Proof.
  intros Hs Ht Hv. rewrite point_read_newest by done. clear Hv. unfold versions.
  induction Hs as [|x es _ IH Hx]; [split; [done|intros (e & He & _); by apply elem_of_nil in He]|].
  inversion Ht as [|? ? Htx Ht']; subst. specialize (IH Ht'). rewrite filter_cons. case_decide as Hu.
  - cbn. rewrite Htx. split.
    + intros [= <-]. exists x. split; [by left|done].
    + intros (e & [->|He]%elem_of_cons & Hue & <-); [done|]. exfalso. rewrite Forall_forall in Hx.
      specialize (Hx e He). unfold has_user in Hu. unfold clt, user_cmp in Hx. by rewrite Hu, Hue, slice_cmp_refl in Hx.
  - rewrite IH. split; intros (e & He & Hue & Hve); exists e; (split; [|done]); [by right|].
    apply elem_of_cons in He as [->|He]; [done|exact He].
Qed.

(** The same of a list of puts. *)
Lemma read_values uk snap es v :
  StronglySorted (clt user_cmp) es -> Forall is_value es -> Forall (visible snap) es ->
  read uk snap es = Some v <-> exists e, e ∈ es /\ ikey_user e.1 = uk /\ e.2 = v.
Proof.
  intros Hs Hval Hv. rewrite read_plain by (eapply Forall_impl; [exact Hval|apply is_value_plain]).
  apply read_live; [done| |done]. eapply Forall_impl; [exact Hval|]. intros e He.
  unfold is_tombstone. by rewrite He.
Qed.
End Reads.

(** The passthrough strategy drops nothing. *)
Lemma passthrough_select t es :
  Forall (fun e => ikey_valid e.1) es -> select (T := PassthroughStrategy) t es = es.
Proof.
  intros Hv. rewrite select_groups by done. cbn [keep_versions PassthroughStrategy_laws].
  rewrite <- (groups_concat es) at 2. f_equal. apply list_fmap_id.
Qed.

(** ** Properties *)

Section StrategyProperties.
Implicit Types (es : list entry).

(** Bottommost compaction of a sorted stream: the output's user keys
    increase strictly, and of every user key, whatever the types of its
    entries, the newest version is kept unless it is a deletion.  When the
    stream holds puts and deletions only, the output holds puts only, and a
    reader that sees every version reads exactly what it read before. *)
Lemma bottommost_correct t es :
  Forall (fun e => ikey_valid e.1) es -> StronglySorted (cle (on_key ikey_cmp)) es ->
  StronglySorted (clt user_cmp) (select (T := BottommostStrategy) t es) /\
  (forall uk, versions uk (select (T := BottommostStrategy) t es) = bottommost_keep (versions uk es)) /\
  (Forall plain es ->
   Forall is_value (select (T := BottommostStrategy) t es) /\
   forall snap uk, Forall (visible snap) es ->
     read uk snap (select (T := BottommostStrategy) t es) = read uk snap es).
Proof.
  intros Hv Hs. destruct (bottommost_output t es Hv Hs) as [Hu Ht]. split_and!; [done| |].
  - intros uk. by apply bottommost_versions.
  - intros Hp. assert (Forall plain (select t es)) as Hp'.
    { eapply Forall_sublist; [by apply select_sublist|done]. }
    split.
    + apply Forall_forall. intros e He. rewrite Forall_forall in Ht, Hp'. apply plain_live; auto.
    + intros snap uk Hall. rewrite !read_plain by done. by apply bottommost_read.
Qed.

(** Snapshot-aware compaction of a sorted stream: for every user key a
    reader at the snapshot finds the same version as before - tombstones
    included - and so does a reader at the newest sequence number; at most two
    versions of a key survive. *)
Theorem snapshot_correct t es uk :
  Forall (fun e => ikey_valid e.1) es -> StronglySorted (cle (on_key ikey_cmp)) es ->
  find_version uk t.(snapshot_seqno) (select (T := SnapshotAwareStrategy) t es) =
    find_version uk t.(snapshot_seqno) es /\
  head (versions uk (select (T := SnapshotAwareStrategy) t es)) = head (versions uk es) /\
  (length (versions uk (select (T := SnapshotAwareStrategy) t es)) <= 2)%nat.
Proof.
  intros Hv Hs. unfold find_version. rewrite snapshot_versions by done.
  split_and!; [apply snapshot_keep_visible|apply snapshot_keep_newest|apply snapshot_keep_length].
Qed.
End StrategyProperties.

(** Versions 5 and 2 of [a], a tombstone over [b], one version of [c]. *)
Definition toy_versions : list entry :=
  [(make_ikey (str "a") (5 * 256 + 1), str "a5"); (make_ikey (str "a") (2 * 256 + 1), str "a2");
   (make_ikey (str "b") (7 * 256), []); (make_ikey (str "b") (3 * 256 + 1), str "b3");
   (make_ikey (str "c") (4 * 256 + 1), str "c4")].

(** Sortedness of a concrete list, decided on neighbours. *)
Ltac decide_sorted :=
  apply Sorted_StronglySorted; [intros ? ? ?; apply transitivity|];
  repeat constructor; vm_compute; discriminate || reflexivity.

Lemma snapshot_correct_witness :
  find_version (str "a") 4 (select (snapshot_new 4) toy_versions) = find_version (str "a") 4 toy_versions /\
  head (versions (str "a") (select (snapshot_new 4) toy_versions)) = head (versions (str "a") toy_versions) /\
  (length (versions (str "a") (select (snapshot_new 4) toy_versions)) <= 2)%nat.
Proof.
  apply (snapshot_correct (snapshot_new 4) toy_versions (str "a")); [|decide_sorted];
    repeat constructor; vm_compute; discriminate.
Defined.
