(* ===== verification/Checksum.v ===== *)
(** Block and footer checksums: [ChecksumType] and the checksum functions of
    [format/footer.rs] and [format/block.rs], over the hash functions of the
    crates [crc32c] and [xxhash_rust]. *)

From S2P Require Import Prelude.

(** ** The hash crates

    Their functions and streaming hashers are parameters.  [ChecksumLibLaws]
    is what their documentation promises: a streaming hasher digests the
    concatenation of what it was fed, and [crc32c_append] continues a CRC. *)
Class ChecksumLib : Type := {
  crc32c : bytes -> Z;
  crc32c_append : Z -> bytes -> Z;
  xxh32 : bytes -> Z -> Z;
  xxh64 : bytes -> Z -> Z;
  xxh3_64 : bytes -> Z;
  Xxh32 : Type;
  Xxh32_new : Z -> Xxh32;
  Xxh32_update : Xxh32 -> bytes -> Xxh32;
  Xxh32_digest : Xxh32 -> Z;
  Xxh64 : Type;
  Xxh64_new : Z -> Xxh64;
  Xxh64_update : Xxh64 -> bytes -> Xxh64;
  Xxh64_digest : Xxh64 -> Z
}.

Class ChecksumLibLaws `(ChecksumLib) : Prop := {
  crc32c_append_spec a b : crc32c_append (crc32c a) b = crc32c (a ++ b);
  Xxh32_stream seed a b :
    Xxh32_digest (Xxh32_update (Xxh32_update (Xxh32_new seed) a) b) = xxh32 (a ++ b) seed;
  Xxh64_stream seed a b :
    Xxh64_digest (Xxh64_update (Xxh64_update (Xxh64_new seed) a) b) = xxh64 (a ++ b) seed
}.

(** ** Checksum types *)

Inductive ChecksumType : Type := NoChecksum | Crc32c | XxHash | XxHash64 | XxH3.
#[export] Instance ChecksumType_eq_dec : EqDecision ChecksumType.
Proof. solve_decision. Defined.

(** [ChecksumType::from_byte]. *)
Definition checksum_from_byte (b : Z) : option ChecksumType :=
  match b with
  | 0x0 => Some NoChecksum
  | 0x1 => Some Crc32c
  | 0x2 => Some XxHash
  | 0x3 => Some XxHash64
  | 0x4 => Some XxH3
  | _ => None
  end.

(** The [match] of [encode_footer_v6_plus]. *)
Definition checksum_to_byte (ty : ChecksumType) : Z :=
  match ty with
  | NoChecksum => 0x0
  | Crc32c => 0x1
  | XxHash => 0x2
  | XxHash64 => 0x3
  | XxH3 => 0x4
  end.

Lemma checksum_from_to_byte ty : checksum_from_byte (checksum_to_byte ty) = Some ty.
Proof. by destruct ty. Qed.
Lemma checksum_to_byte_range ty : 0 <= checksum_to_byte ty < 256.
Proof. destruct ty; cbn; lia. Qed.

(** ** Checksum functions *)

(** [u32::rotate_right]. *)
Definition rotate_right (x n : Z) : Z := Z.lor (Z.shiftr x n) (as_u32 (Z.shiftl x (32 - n))).

Definition mask_crc32c (crc : Z) : Z :=
  let MASK_DELTA := 0xa282ead8 in
  as_u32 (rotate_right crc 15 + MASK_DELTA).

Definition modify_checksum_for_last_byte (checksum : Z) (last_byte : byte) : Z :=
  let RANDOM_PRIME := 0x6b9083d9 in
  Z.lxor checksum (as_u32 (byte.unsigned last_byte * RANDOM_PRIME)).

Section Checksums.
Context `{ChecksumLib}.

Definition compute_checksum_with_last_byte (ty : ChecksumType) (data : bytes) (last_byte : byte) : Z :=
  match ty with
  | NoChecksum => 0
  | Crc32c =>
      let crc := crc32c data in
      let crc := crc32c_append crc [last_byte] in
      mask_crc32c crc
  | XxHash =>
      let state := Xxh32_new 0 in
      let state := Xxh32_update state data in
      let state := Xxh32_update state [last_byte] in
      Xxh32_digest state
  | XxHash64 =>
      let state := Xxh64_new 0 in
      let state := Xxh64_update state data in
      let state := Xxh64_update state [last_byte] in
      as_u32 (Z.land (Xxh64_digest state) 0xffffffff)
  | XxH3 =>
      let v := as_u32 (Z.land (xxh3_64 data) 0xffffffff) in
      modify_checksum_for_last_byte v last_byte
  end.

(** [data.split_at(data.len() - 1)] and [last[0]] of the [XxH3] arm are the
    list's last element and what precedes it. *)
Definition compute_checksum_plain (ty : ChecksumType) (data : bytes) : outcome Z :=
  match ty with
  | NoChecksum => Ok 0
  | Crc32c => Ok (as_u32 (rotate_right (crc32c data) 15 + 0xa282ead8))
  | XxHash => Ok (xxh32 data 0)
  | XxHash64 => Ok (as_u32 (Z.land (xxh64 data 0) 0xffffffff))
  | XxH3 =>
      if len data =? 0 then Ok 0
      else
        head ← index_range data 0 (len data - 1);
        last ← index_range data (len data - 1) (len data);
        let v := as_u32 (Z.land (xxh3_64 head) 0xffffffff) in
        last0 ← index_at last 0;
        Ok (modify_checksum_for_last_byte v last0)
  end.
End Checksums.

Definition checksum_modifier_for_context (base_context_checksum offset : Z) : Z :=
  if base_context_checksum =? 0 then 0
  else
    let lower := as_u32 offset in
    let upper := as_u32 (Z.shiftr offset 32) in
    Z.lxor base_context_checksum (as_u32 (lower + upper)).

Section Laws.
Context `{CL : ChecksumLib}.

(** Checksumming contents and then the type byte in two steps, as the trailer
    code does, gives the one-shot checksum of both. *)
Lemma compute_checksum_plain_snoc `{!ChecksumLibLaws CL} ty data b :
  compute_checksum_plain ty (data ++ [b]) = Ok (compute_checksum_with_last_byte ty data b).
Proof.
  destruct ty; cbn [compute_checksum_plain compute_checksum_with_last_byte].
  - done.
  - by rewrite crc32c_append_spec.
  - by rewrite Xxh32_stream.
  - by rewrite Xxh64_stream.
  - replace (len (data ++ [b]) =? 0) with false by len_lia.
    rewrite index_range_prefix by len_lia. rewrite bind_Ok.
    by rewrite index_range_suffix by len_lia.
Qed.

(** The footer checksum never panics. *)
Lemma compute_checksum_plain_ok ty data : is_Ok (compute_checksum_plain ty data).
Proof.
  destruct ty; cbn [compute_checksum_plain]; try by eexists.
  destruct (Z.eqb_spec (len data) 0) as [|Hne]; [by eexists|].
  destruct data as [|b data _] using rev_ind; [done|].
  rewrite index_range_prefix by len_lia. rewrite bind_Ok.
  rewrite index_range_suffix by len_lia. by eexists.
Qed.
End Laws.

(** ** A concrete library

    A byte-sum hash in which every function is streaming: an instance of the
    contract on which the development's examples run. *)
Definition sum_bytes (seed : Z) (bs : bytes) : Z :=
  foldl (fun a b => (31 * a + byte.unsigned b) mod 2 ^ 32) seed bs.

#[export] Instance toy_checksums : ChecksumLib | 100 := {|
  crc32c := sum_bytes 1;
  crc32c_append := sum_bytes;
  xxh32 bs seed := sum_bytes seed bs;
  xxh64 bs seed := sum_bytes seed bs;
  xxh3_64 := sum_bytes 3;
  Xxh32 := Z;
  Xxh32_new seed := seed;
  Xxh32_update := sum_bytes;
  Xxh32_digest st := st;
  Xxh64 := Z;
  Xxh64_new seed := seed;
  Xxh64_update := sum_bytes;
  Xxh64_digest st := st
|}.

#[export] Instance toy_checksums_laws : ChecksumLibLaws toy_checksums.
Proof. split; intros; cbn; unfold sum_bytes; by rewrite foldl_app. Qed.
