(* ===== verification/Footer.v ===== *)
(** Table footer of [format/footer.rs]: block handles, the 53-byte footer of
    format versions 6 and 7 written by the builder, and the decoder, which
    also accepts versions 2 to 5. *)

From S2P Require Import Prelude Varint Checksum.

Definition BLOCK_BASED_TABLE_MAGIC : Z := 0x88e241b785f4cff7.
Definition MAGIC_NUMBER_LEN : Z := 8.
Definition BLOCK_HANDLE_MAX_ENCODED_LEN : Z := 20.
Definition NEW_VERSIONS_ENCODED_LEN : Z := 1 + 2 * BLOCK_HANDLE_MAX_ENCODED_LEN + 4 + MAGIC_NUMBER_LEN.
Definition EXTENDED_MAGIC : bytes := byte.of_Z <$> [0x3e; 0x00; 0x7a; 0x00].
Definition FOOTER_TAIL_LEN : Z := NEW_VERSIONS_ENCODED_LEN.

Record BlockHandle : Type := { offset : Z; size : Z }.
#[export] Instance BlockHandle_eq_dec : EqDecision BlockHandle.
Proof. solve_decision. Defined.

Record Footer : Type := {
  table_magic_number : Z;
  format_version : Z;
  checksum_type : ChecksumType;
  metaindex_handle : BlockHandle;
  index_handle : option BlockHandle;
  block_trailer_size : Z;
  base_context_checksum : Z
}.
#[export] Instance Footer_eq_dec : EqDecision Footer.
Proof. solve_decision. Defined.

Definition decode_varint64 (buf : bytes) (pos : Z) : option Z * Z := get_varint64 buf pos.

Definition decode_block_handle (buf : bytes) (pos : Z) : option BlockHandle * Z :=
  match decode_varint64 buf pos with
  | (None, pos) => (None, pos)
  | (Some offset, pos) =>
      match decode_varint64 buf pos with
      | (None, pos) => (None, pos)
      | (Some size, pos) => (Some {| offset := offset; size := size |}, pos)
      end
  end.

(** A handle as two varints, the encoding of every handle in the format. *)
Definition put_handle (out : bytes) (h : BlockHandle) : bytes :=
  put_varint64 (put_varint64 out h.(offset)) h.(size).

Definition handle_ok (h : BlockHandle) : Prop :=
  0 <= h.(offset) < 2 ^ 64 /\ 0 <= h.(size) < 2 ^ 64.

Section Footer.
Context `{ChecksumLib} `{Profile}.

Definition encode_footer_v6_plus (format_version : Z) (checksum_type : ChecksumType)
    (metaindex_handle : BlockHandle) (base_context_checksum footer_offset : Z) : outcome bytes :=
  _ ← assert (6 <=? format_version);
  let checksum_byte := byte.of_Z (checksum_to_byte checksum_type) in
  let buf := [checksum_byte] in
  let buf := buf ++ EXTENDED_MAGIC in
  let checksum_field_pos := len buf in
  let buf := buf ++ to_le_bytes 4 0 in
  let buf := buf ++ to_le_bytes 4 base_context_checksum in
  metaindex_size ← try_into_u32 metaindex_handle.(size);
  let buf := buf ++ to_le_bytes 4 metaindex_size in
  let buf := buf ++ replicate 24 Byte.x00 in
  let buf := buf ++ to_le_bytes 4 format_version in
  let buf := buf ++ to_le_bytes 8 BLOCK_BASED_TABLE_MAGIC in
  _ ← debug_assert (len buf =? NEW_VERSIONS_ENCODED_LEN);
  checksum ← compute_checksum_plain checksum_type buf;
  let checksum :=
    as_u32 (checksum + checksum_modifier_for_context base_context_checksum footer_offset) in
  copy_from_slice buf checksum_field_pos (checksum_field_pos + 4) (to_le_bytes 4 checksum).

(** The [format_version >= 6] branch of [decode_footer], after [tail[0]]. *)
Definition decode_footer_v6 (tail : bytes) (magic magic_pos format_version : Z)
    (checksum_type : ChecksumType) (footer_offset : Z) : outcome Footer :=
  let block_trailer_size := 5 in
  let pos := 1 in
  ext_magic ← index_range tail pos (pos + 4);
  if negb (bool_decide (ext_magic = EXTENDED_MAGIC)) then
    Err (Msg "bad extended magic number: {:02x?}" (byte.unsigned <$> ext_magic))
  else
    let pos := pos + 4 in
    stored_checksum ← from_le_bytes <$> index_range tail pos (pos + 4);
    let pos := pos + 4 in
    base_context_checksum ← from_le_bytes <$> index_range tail pos (pos + 4);
    let pos := pos + 4 in
    metaindex_size ← from_le_bytes <$> index_range tail pos (pos + 4);
    let pos := pos + 4 in
    zeroed ← copy_from_slice tail 5 9 (replicate 4 Byte.x00);
    computed ← compute_checksum_plain checksum_type zeroed;
    let computed :=
      as_u32 (computed + checksum_modifier_for_context base_context_checksum footer_offset) in
    if negb (bool_decide (checksum_type = NoChecksum)) && negb (computed =? stored_checksum) then
      Err (Msg "footer checksum mismatch at offset {}: stored=0x{:08x} computed=0x{:08x}"
             [footer_offset; stored_checksum; computed])
    else
      metaindex_end ← sub_u64 footer_offset block_trailer_size;
      metaindex_offset ← sub_u64 metaindex_end metaindex_size;
      let metaindex_handle := {| offset := metaindex_offset; size := metaindex_size |} in
      let pos := pos + 16 in
      reserved ← from_le_bytes <$> index_range tail pos (pos + 8);
      let pos := pos + 8 in
      if negb (reserved =? 0) then
        Err (Msg "file uses a future feature not supported by this reader" [])
      else
        _ ← debug_assert (pos =? magic_pos - 4);
        Ok {| table_magic_number := magic;
              format_version := format_version;
              checksum_type := checksum_type;
              metaindex_handle := metaindex_handle;
              index_handle := None;
              block_trailer_size := block_trailer_size;
              base_context_checksum := base_context_checksum |}.

(** The branch for format versions 2 to 5. *)
Definition decode_footer_old (tail : bytes) (magic magic_pos format_version : Z)
    (checksum_type : ChecksumType) : outcome Footer :=
  let block_trailer_size := 5 in
  let pos := 1 in
  part2 ← index_range tail pos (magic_pos - 4);
  let '(h, p2pos) := decode_block_handle part2 0 in
  metaindex_handle ← ok_or h (Msg "failed to decode metaindex handle" []);
  let '(h, p2pos) := decode_block_handle part2 p2pos in
  index_handle ← ok_or h (Msg "failed to decode index handle" []);
  Ok {| table_magic_number := magic;
        format_version := format_version;
        checksum_type := checksum_type;
        metaindex_handle := metaindex_handle;
        index_handle := Some index_handle;
        block_trailer_size := block_trailer_size;
        base_context_checksum := 0 |}.

Definition decode_footer (tail : bytes) (file_size : Z) : outcome Footer :=
  if len tail <? NEW_VERSIONS_ENCODED_LEN then
    Err (Msg "footer tail shorter than minimum encoded length" [])
  else
    let magic_pos := len tail - MAGIC_NUMBER_LEN in
    magic ← from_le_bytes <$> index_range tail magic_pos (magic_pos + 8);
    if negb (magic =? BLOCK_BASED_TABLE_MAGIC) then
      Err (Msg "unsupported/unknown table magic number: 0x{:016x} (only block-based tables supported)"
             [magic])
    else
      format_version ← from_le_bytes <$> index_range tail (magic_pos - 4) magic_pos;
      if negb ((2 <=? format_version) && (format_version <=? 7)) then
        Err (Msg "unsupported format_version {}" [format_version])
      else
        footer_offset ← sub_u64 file_size NEW_VERSIONS_ENCODED_LEN;
        checksum_byte ← byte.unsigned <$> index_at tail 0;
        checksum_type ←
          ok_or (checksum_from_byte checksum_byte)
            (Msg "unsupported checksum type byte {}" [checksum_byte]);
        if 6 <=? format_version then
          decode_footer_v6 tail magic magic_pos format_version checksum_type footer_offset
        else decode_footer_old tail magic magic_pos format_version checksum_type.
End Footer.

(** ** The layout of a version 6 or 7 footer *)

Definition footer_bytes (ty : ChecksumType) (checksum base ms fv : Z) : bytes :=
  [byte.of_Z (checksum_to_byte ty)] ++ EXTENDED_MAGIC ++ to_le_bytes 4 checksum ++
  to_le_bytes 4 base ++ to_le_bytes 4 ms ++ replicate 24 Byte.x00 ++ to_le_bytes 4 fv ++
  to_le_bytes 8 BLOCK_BASED_TABLE_MAGIC.

Lemma len_EXTENDED_MAGIC : len EXTENDED_MAGIC = 4.
Proof. done. Qed.
#[export] Hint Rewrite len_EXTENDED_MAGIC : lens.

Lemma footer_bytes_len ty ck base ms fv : len (footer_bytes ty ck base ms fv) = FOOTER_TAIL_LEN.
Proof. unfold footer_bytes, FOOTER_TAIL_LEN, NEW_VERSIONS_ENCODED_LEN. simpl_len. done. Qed.

Lemma to_le_bytes_zero n : to_le_bytes n 0 = replicate n Byte.x00.
Proof. induction n as [|n IH]; [done|]. cbn [to_le_bytes replicate].
  rewrite Z.shiftr_0_l, IH. by f_equal. Qed.

(** The fields, where the decoder looks for them. *)
Section Fields.
Context (ty : ChecksumType) (ck base ms fv : Z).
#[local] Abbreviation buf := (footer_bytes ty ck base ms fv).
#[local] Ltac field := unfold footer_bytes; slice; done.

Lemma footer_magic : index_range buf 45 53 = Ok (to_le_bytes 8 BLOCK_BASED_TABLE_MAGIC).
Proof. field. Qed.
Lemma footer_version : index_range buf 41 45 = Ok (to_le_bytes 4 fv).
Proof. field. Qed.
Lemma footer_ext_magic : index_range buf 1 5 = Ok EXTENDED_MAGIC.
Proof. field. Qed.
Lemma footer_stored : index_range buf 5 9 = Ok (to_le_bytes 4 ck).
Proof. field. Qed.
Lemma footer_base : index_range buf 9 13 = Ok (to_le_bytes 4 base).
Proof. field. Qed.
Lemma footer_ms : index_range buf 13 17 = Ok (to_le_bytes 4 ms).
Proof. field. Qed.
Lemma footer_reserved : index_range buf 33 41 = Ok (to_le_bytes 8 0).
Proof.
  unfold footer_bytes. change (replicate 24 Byte.x00) with (replicate 16 Byte.x00 ++ to_le_bytes 8 0).
  rewrite <- (assoc_L (++)). slice. done.
Qed.
Lemma footer_zeroed :
  copy_from_slice buf 5 9 (replicate 4 Byte.x00) = Ok (footer_bytes ty 0 base ms fv).
Proof.
  unfold footer_bytes. rewrite (assoc_L (++) [_]), (assoc_L (++) [_]).
  by rewrite copy_from_slice_app by len_lia.
Qed.
End Fields.

Section FooterLemmas.
Context `{ChecksumLib} `{Profile}.

(** The checksum a footer must carry. *)
Definition footer_checksum ty base ms fv footer_offset (ck : Z) : Prop :=
  exists c, compute_checksum_plain ty (footer_bytes ty 0 base ms fv) = Ok c /\
    ck = as_u32 (c + checksum_modifier_for_context base footer_offset).

Lemma encode_footer_ok fv ty h base footer_offset :
  6 <= fv -> h.(size) < 2 ^ 32 ->
  exists ck, footer_checksum ty base h.(size) fv footer_offset ck /\
    encode_footer_v6_plus fv ty h base footer_offset = Ok (footer_bytes ty ck base h.(size) fv).
Proof.
  intros Hfv Hs.
  destruct (compute_checksum_plain_ok ty (footer_bytes ty 0 base h.(size) fv)) as [c Hc].
  exists (as_u32 (c + checksum_modifier_for_context base footer_offset)).
  split; [by exists c|]. unfold encode_footer_v6_plus, assert, try_into_u32, debug_assert.
  replace (6 <=? fv) with true by lia. replace (h.(size) <? 2 ^ 32) with true by lia.
  cbv zeta. rewrite !bind_Ok. rewrite <- !(assoc_L (++)). fold (footer_bytes ty 0 base h.(size) fv).
  rewrite footer_bytes_len. cbn [assert]. unfold assert.
  replace (if overflow_checks then _ else _) with (Ok tt) by (by destruct overflow_checks).
  rewrite bind_Ok, Hc, bind_Ok. unfold footer_bytes. rewrite (assoc_L (++) [_]).
  rewrite copy_from_slice_app; [|len_lia..]. by rewrite <- !(assoc_L (++)).
Qed.

Lemma encode_footer_old_version fv ty h base footer_offset :
  fv < 6 -> encode_footer_v6_plus fv ty h base footer_offset = Panic.
Proof. intros. unfold encode_footer_v6_plus, assert. by replace (6 <=? fv) with false by lia. Qed.

Definition footer_of (ty : ChecksumType) (base ms fv off : Z) : Footer :=
  {| table_magic_number := BLOCK_BASED_TABLE_MAGIC;
     format_version := fv;
     checksum_type := ty;
     metaindex_handle := {| offset := off; size := ms |};
     index_handle := None;
     block_trailer_size := 5;
     base_context_checksum := base |}.

(** Decoding a well-checksummed footer comes down to the two subtractions
    that locate the metaindex block. *)
Lemma decode_footer_bytes ty ck base ms fv file_size :
  6 <= fv <= 7 -> 0 <= ms < 2 ^ 32 -> 0 <= base < 2 ^ 32 -> 0 <= ck < 2 ^ 32 ->
  FOOTER_TAIL_LEN <= file_size ->
  footer_checksum ty base ms fv (file_size - FOOTER_TAIL_LEN) ck ->
  decode_footer (footer_bytes ty ck base ms fv) file_size =
    metaindex_end ← sub_u64 (file_size - FOOTER_TAIL_LEN) 5;
    off ← sub_u64 metaindex_end ms;
    Ok (footer_of ty base ms fv off).
Proof.
  intros Hfv Hms Hbase Hck Hsize (c & Hc & Hckeq).
  unfold decode_footer. rewrite footer_bytes_len. rewrite Z.ltb_irrefl.
  change FOOTER_TAIL_LEN with 53 in *. cbv zeta.
  change (53 - MAGIC_NUMBER_LEN + 8) with 53. change (53 - MAGIC_NUMBER_LEN) with 45.
  change (45 - 4) with 41. change NEW_VERSIONS_ENCODED_LEN with 53.
  rewrite footer_magic, fmap_Ok, bind_Ok, from_to_le_bytes by (unfold BLOCK_BASED_TABLE_MAGIC; cbn; lia).
  rewrite Z.eqb_refl. cbn [negb].
  rewrite footer_version, fmap_Ok, bind_Ok, from_to_le_bytes by (cbn; lia).
  replace ((2 <=? fv) && (fv <=? 7)) with true by lia. cbn [negb].
  rewrite sub_u64_ok, bind_Ok by (cbn; lia).
  change (index_at (footer_bytes ty ck base ms fv) 0) with (Ok (byte.of_Z (checksum_to_byte ty))).
  rewrite fmap_Ok, bind_Ok, unsigned_of_Z, Z.mod_small, checksum_from_to_byte
    by apply checksum_to_byte_range.
  cbn [ok_or]. rewrite bind_Ok. replace (6 <=? fv) with true by lia. unfold decode_footer_v6. cbv zeta.
  change (1 + 4) with 5. rewrite footer_ext_magic, bind_Ok, bool_decide_true by done. cbn [negb].
  change (5 + 4) with 9. rewrite footer_stored, fmap_Ok, bind_Ok, from_to_le_bytes by (cbn; lia).
  change (9 + 4) with 13. rewrite footer_base, fmap_Ok, bind_Ok, from_to_le_bytes by (cbn; lia).
  change (13 + 4) with 17. rewrite footer_ms, fmap_Ok, bind_Ok, from_to_le_bytes by (cbn; lia).
  rewrite footer_zeroed, bind_Ok, Hc, bind_Ok, <- Hckeq, Z.eqb_refl, andb_false_r.
  destruct (sub_u64 (file_size - 53) 5) as [e| | |]; [|done..]. rewrite !bind_Ok.
  destruct (sub_u64 e ms) as [off| | |]; [|done..]. rewrite !bind_Ok.
  change (17 + 16) with 33. change (33 + 8) with 41.
  rewrite footer_reserved, fmap_Ok, bind_Ok, from_to_le_bytes by (cbn; lia). cbn [Z.eqb negb].
  unfold debug_assert. destruct overflow_checks; reflexivity.
Qed.

Lemma footer_checksum_range ty base ms fv fo ck : footer_checksum ty base ms fv fo ck -> 0 <= ck < 2 ^ 32.
Proof. intros (c & _ & ->). apply as_u32_range. Qed.

(** What the builder appends to a file is what the readers decode. *)
Lemma footer_roundtrip_ok fv ty h base footer_offset :
  6 <= fv <= 7 -> 0 <= h.(size) < 2 ^ 32 -> 0 <= base < 2 ^ 32 ->
  0 <= h.(offset) -> h.(offset) + h.(size) + 5 = footer_offset ->
  exists buf, encode_footer_v6_plus fv ty h base footer_offset = Ok buf /\
    len buf = FOOTER_TAIL_LEN /\
    decode_footer buf (footer_offset + FOOTER_TAIL_LEN) =
      Ok (footer_of ty base h.(size) fv h.(offset)).
Proof.
  intros Hfv Hs Hb Ho Heq.
  destruct (encode_footer_ok fv ty h base footer_offset) as (ck & Hck & ->); [lia..|].
  eexists; split_and!; [done|apply footer_bytes_len|].
  pose proof (footer_checksum_range _ _ _ _ _ _ Hck) as Hr.
  rewrite decode_footer_bytes; [|lia..| |].
  - rewrite sub_u64_ok, bind_Ok, sub_u64_ok, bind_Ok by lia. do 2 f_equal. lia.
  - unfold FOOTER_TAIL_LEN, NEW_VERSIONS_ENCODED_LEN. cbn. lia.
  - by replace (footer_offset + FOOTER_TAIL_LEN - FOOTER_TAIL_LEN) with footer_offset by lia.
Qed.
End FooterLemmas.

(** What the two branches of the decoder establish. *)
Section DecodeBranches.
Context `{ChecksumLib} `{Profile}.

(** The stored checksum of [tail] is the one its contents call for. *)
Definition footer_verified (tail : bytes) (ft : Footer) (footer_offset : Z) : Prop :=
  exists zeroed c stored,
    copy_from_slice tail 5 9 (replicate 4 Byte.x00) = Ok zeroed /\
    compute_checksum_plain ft.(checksum_type) zeroed = Ok c /\
    index_range tail 5 9 = Ok stored /\
    from_le_bytes stored =
      as_u32 (c + checksum_modifier_for_context ft.(base_context_checksum) footer_offset).

Lemma decode_footer_v6_sound tail magic magic_pos fv ty fo ft :
  decode_footer_v6 tail magic magic_pos fv ty fo = Ok ft ->
  ft.(format_version) = fv /\ (ft.(checksum_type) <> NoChecksum -> footer_verified tail ft fo).
Proof.
  intros Hd. unfold decode_footer_v6 in Hd. cbv zeta in Hd. inv_ok Hd.
  injection Hd as <-. cbn. split; [done|]. intros Hty.
  apply fmap_Ok_inv in Hx0 as (stored & Hst & ->). rewrite bool_decide_false in E0 by done.
  cbn [negb andb] in E0. apply negb_false_iff, Z.eqb_eq in E0.
  exists x3, x4, stored. by split_and!.
Qed.

Lemma decode_footer_old_version tail magic magic_pos fv ty ft :
  decode_footer_old tail magic magic_pos fv ty = Ok ft -> ft.(format_version) = fv.
Proof.
  unfold decode_footer_old. cbv zeta. intros Hd. inv_ok Hd.
  destruct (decode_block_handle x 0) as [h p]. inv_ok Hd.
  destruct (decode_block_handle x p) as [h' p']. inv_ok Hd. by injection Hd as <-.
Qed.
(** A footer that can be trusted: the magic number of [tail], the version and
    the checksum are right. *)
Definition footer_genuine (tail : bytes) (file_size : Z) (ft : Footer) : Prop :=
  index_range tail (len tail - 8) (len tail) = Ok (to_le_bytes 8 BLOCK_BASED_TABLE_MAGIC) /\
  2 <= ft.(format_version) <= 7 /\
  (6 <= ft.(format_version) -> ft.(checksum_type) <> NoChecksum ->
   footer_verified tail ft (file_size - FOOTER_TAIL_LEN)).

Lemma decode_footer_genuine tail file_size ft :
  FOOTER_TAIL_LEN <= file_size -> decode_footer tail file_size = Ok ft -> footer_genuine tail file_size ft.
Proof.
  intros Hfs Hd. unfold footer_genuine, decode_footer in *. cbv zeta in Hd. inv_ok Hd.
  apply fmap_Ok_inv in Hx as (mb & Hmb & ->), Hx0 as (vb & Hvb & ->).
  rewrite sub_u64_ok in Hx1 by exact Hfs. injection Hx1 as <-.
  change NEW_VERSIONS_ENCODED_LEN with FOOTER_TAIL_LEN in *. unfold MAGIC_NUMBER_LEN in *.
  replace (len tail - 8 + 8) with (len tail) in Hmb by lia.
  apply negb_false_iff, Z.eqb_eq in E0. split.
  { rewrite Hmb, <- E0. f_equal. symmetry.
    assert (length mb = 8%nat) as <-; [|apply to_from_le_bytes].
    unfold index_range in Hmb. destruct (get_range tail _ _) as [m|] eqn:Em; [|done].
    injection Hmb as ->. apply get_range_len in Em. unfold len in *. lia. }
  apply negb_false_iff in E1. destruct (Z.leb_spec 6 (from_le_bytes vb)).
  - apply decode_footer_v6_sound in Hd as [-> Hd]. split; [lia|auto].
  - apply decode_footer_old_version in Hd as ->. split; lia.
Qed.
End DecodeBranches.

(** ** The layout of a version 2 to 5 footer

    As RocksDB's format documents it: checksum type, metaindex and index
    handles padded to forty bytes, version, magic number. *)

Definition old_footer_bytes (ty : ChecksumType) (mi ix : BlockHandle) (fv : Z) : bytes :=
  let handles := put_handle (put_handle [] mi) ix in
  [byte.of_Z (checksum_to_byte ty)] ++ (handles ++ replicate (40 - length handles) Byte.x00) ++
  to_le_bytes 4 fv ++ to_le_bytes 8 BLOCK_BASED_TABLE_MAGIC.

Definition u64_handle (h : BlockHandle) : Prop := 0 <= h.(offset) < 2 ^ 64 /\ 0 <= h.(size) < 2 ^ 64.

Lemma put_handle_app out h : put_handle out h = out ++ varint h.(offset) ++ varint h.(size).
Proof. unfold put_handle. by rewrite !put_varint64_app, <- (assoc_L (++)). Qed.

Lemma decode_handle_at buf pos h pre post :
  buf = pre ++ put_handle [] h ++ post -> pos = len pre -> u64_handle h ->
  decode_block_handle buf pos = (Some h, len pre + len (put_handle [] h)).
Proof.
  rewrite put_handle_app. intros -> -> [Ho Hs]. unfold decode_block_handle, decode_varint64.
  rewrite (get_varint64_at _ _ h.(offset) pre (varint h.(size) ++ post)) by (done || by rewrite <- !(assoc_L (++))).
  rewrite (get_varint64_at _ _ h.(size) (pre ++ varint h.(offset)) post) by (done || len_lia || by rewrite <- !(assoc_L (++))).
  f_equal; [by destruct h|len_lia].
Qed.

Lemma old_handles_len mi ix :
  u64_handle mi -> u64_handle ix -> len (put_handle (put_handle [] mi) ix) <= 40.
Proof.
  intros [Hmo Hms] [Hio His]. rewrite !put_handle_app.
  pose proof (varint_len _ Hmo). pose proof (varint_len _ Hms). pose proof (varint_len _ Hio). pose proof (varint_len _ His).
  len_lia.
Qed.

(** ** Properties *)

Section FooterProperties.
Context `{ChecksumLib} `{Profile}.

(** C40: [decode_footer] locates the metaindex block with two unchecked
    subtractions: on a footer whose stated metaindex size does not fit in
    the file it panics in a build with overflow checks, and returns a
    wrapped, meaningless offset as success in a build without them. *)
Theorem decode_footer_underflow ty ck base ms fv file_size :
  6 <= fv <= 7 -> 0 <= ms < 2 ^ 32 -> 0 <= base < 2 ^ 32 ->
  FOOTER_TAIL_LEN <= file_size < FOOTER_TAIL_LEN + 5 + ms -> file_size < 2 ^ 64 ->
  footer_checksum ty base ms fv (file_size - FOOTER_TAIL_LEN) ck ->
  decode_footer (footer_bytes ty ck base ms fv) file_size =
    if overflow_checks then Panic
    else Ok (footer_of ty base ms fv (file_size - FOOTER_TAIL_LEN - 5 - ms + 2 ^ 64)).
Proof.
  intros Hfv Hms Hb Hsize H64 Hck.
  rewrite decode_footer_bytes by (done || lia || by eapply footer_checksum_range).
  change FOOTER_TAIL_LEN with 53 in *. unfold sub_u64, arith. destruct overflow_checks eqn:Ho.
  - destruct (Z.leb_spec 0 (file_size - 53 - 5)); [|done]. rewrite bind_Ok.
    by replace (0 <=? file_size - 53 - 5 - ms) with false by lia.
  - assert (forall z, - 2 ^ 64 <= z < 0 -> as_u64 z = z + 2 ^ 64) as Hwrap.
    { intros z Hz. unfold as_u64. symmetry. apply (Z.mod_unique_pos z (2 ^ 64) (-1)); lia. }
    destruct (Z.leb_spec 0 (file_size - 53 - 5)); rewrite bind_Ok.
    + replace (0 <=? _) with false by lia. rewrite Hwrap by lia. done.
    + rewrite Hwrap by lia. replace (0 <=? _) with true by lia. cbn. do 2 f_equal. lia.
Qed.

(** A decoded footer is genuine: the magic number matched, the version
    is one of 2 to 7, and from version 6 on the stored checksum equals the
    checksum of the tail with its checksum field zeroed, unless the file
    declares that it carries none. *)
Theorem decode_footer_sound tail file_size ft :
  FOOTER_TAIL_LEN <= file_size -> decode_footer tail file_size = Ok ft ->
  index_range tail (len tail - 8) (len tail) = Ok (to_le_bytes 8 BLOCK_BASED_TABLE_MAGIC) /\
  2 <= ft.(format_version) <= 7 /\
  (6 <= ft.(format_version) -> ft.(checksum_type) <> NoChecksum ->
   footer_verified tail ft (file_size - FOOTER_TAIL_LEN)).
Proof. apply decode_footer_genuine. Qed.

(** A footer of format version 2 to 5 as that format prescribes. *)
Lemma old_footer_decodes ty mi ix fv file_size :
  2 <= fv <= 5 -> u64_handle mi -> u64_handle ix -> FOOTER_TAIL_LEN <= file_size ->
  len (old_footer_bytes ty mi ix fv) = FOOTER_TAIL_LEN /\
  decode_footer (old_footer_bytes ty mi ix fv) file_size =
    Ok {| table_magic_number := BLOCK_BASED_TABLE_MAGIC;
          format_version := fv;
          checksum_type := ty;
          metaindex_handle := mi;
          index_handle := Some ix;
          block_trailer_size := 5;
          base_context_checksum := 0 |}.
Proof.
  intros Hfv Hmi Hix Hsize. pose proof (old_handles_len mi ix Hmi Hix) as Hh.
  unfold old_footer_bytes. cbv zeta. set (hs := put_handle (put_handle [] mi) ix) in *.
  set (pad := replicate (40 - length hs) Byte.x00). set (ck := byte.of_Z (checksum_to_byte ty)).
  assert (len (hs ++ pad) = 40) as Hbody by (subst pad; unfold len in *; rewrite length_app, length_replicate; lia).
  set (body := hs ++ pad) in *. set (buf := [ck] ++ body ++ _).
  assert (len buf = 53) as Hlen by (subst buf; len_lia). split; [exact Hlen|].
  unfold decode_footer. rewrite Hlen. change NEW_VERSIONS_ENCODED_LEN with 53. change FOOTER_TAIL_LEN with 53 in Hsize.
  cbn [Z.ltb Z.compare Pos.compare Pos.compare_cont]. cbv zeta. change (53 - MAGIC_NUMBER_LEN + 8) with 53.
  change (53 - MAGIC_NUMBER_LEN) with 45. change (45 - 4) with 41.
  assert (index_range buf 45 53 = Ok (to_le_bytes 8 BLOCK_BASED_TABLE_MAGIC)) as -> by (subst buf; slice; done).
  rewrite fmap_Ok, bind_Ok, from_to_le_bytes by (unfold BLOCK_BASED_TABLE_MAGIC; cbn; lia).
  rewrite Z.eqb_refl. cbn [negb].
  assert (index_range buf 41 45 = Ok (to_le_bytes 4 fv)) as -> by (subst buf; slice; done).
  rewrite fmap_Ok, bind_Ok, from_to_le_bytes by (cbn; lia).
  replace ((2 <=? fv) && (fv <=? 7)) with true by lia. cbn [negb].
  rewrite sub_u64_ok, bind_Ok by lia. change (index_at buf 0) with (Ok ck). subst ck.
  rewrite fmap_Ok, bind_Ok, unsigned_of_Z, Z.mod_small, checksum_from_to_byte by apply checksum_to_byte_range.
  cbn [ok_or]. rewrite bind_Ok. replace (6 <=? fv) with false by lia. unfold decode_footer_old. cbv zeta.
  change (45 - 4) with 41. assert (index_range buf 1 41 = Ok body) as -> by (subst buf; slice; done). rewrite bind_Ok.
  assert (body = put_handle [] mi ++ put_handle [] ix ++ pad) as Hb
    by (subst body hs; rewrite !(put_handle_app (put_handle _ _)), !(put_handle_app []), <- !(assoc_L (++)); done).
  rewrite (decode_handle_at body 0 mi [] (put_handle [] ix ++ pad)) by done. cbn [ok_or]. rewrite bind_Ok.
  rewrite (decode_handle_at body _ ix (put_handle [] mi) pad) by done. cbn [ok_or]. by rewrite bind_Ok.
Qed.

(** C34: [decode_footer] reads the footers of every format version it admits.
    The 53-byte footer written for version 6 or 7 decodes, at the file size it
    was written for, to the version, checksum type, context checksum and
    metaindex handle written.  A footer laid out as versions 2 to 5 prescribe,
    which the builder never writes but RocksDB did, decodes to its version, its
    checksum type and both handles it carries, whatever the size of the file.
    Both hold with overflow checks on or off. *)
Theorem footer_roundtrip ty mi :
  (forall fv base footer_offset,
     6 <= fv <= 7 -> 0 <= mi.(size) < 2 ^ 32 -> 0 <= base < 2 ^ 32 ->
     0 <= mi.(offset) -> mi.(offset) + mi.(size) + 5 = footer_offset ->
     exists buf, encode_footer_v6_plus fv ty mi base footer_offset = Ok buf /\
       len buf = FOOTER_TAIL_LEN /\
       decode_footer buf (footer_offset + FOOTER_TAIL_LEN) = Ok
         {| table_magic_number := BLOCK_BASED_TABLE_MAGIC; format_version := fv; checksum_type := ty;
            metaindex_handle := mi; index_handle := None; block_trailer_size := 5;
            base_context_checksum := base |}) /\
  (forall fv ix file_size,
     2 <= fv <= 5 -> u64_handle mi -> u64_handle ix -> FOOTER_TAIL_LEN <= file_size ->
     len (old_footer_bytes ty mi ix fv) = FOOTER_TAIL_LEN /\
     decode_footer (old_footer_bytes ty mi ix fv) file_size = Ok
       {| table_magic_number := BLOCK_BASED_TABLE_MAGIC; format_version := fv; checksum_type := ty;
          metaindex_handle := mi; index_handle := Some ix; block_trailer_size := 5;
          base_context_checksum := 0 |}).
Proof.
  split; [|intros fv ix file_size; apply old_footer_decodes]. intros fv base footer_offset ? ? ? ? ?.
  destruct (footer_roundtrip_ok fv ty mi base footer_offset) as (buf & ? & ? & ?); [done..|].
  exists buf. by destruct mi.
Qed.
End FooterProperties.

Definition toy_handle : BlockHandle := {| offset := 1000; size := 77 |}.

Lemma footer_roundtrip_witness :
  (exists buf, encode_footer_v6_plus (H0 := true) 7 XxH3 toy_handle 1 1082 = Ok buf /\
    len buf = FOOTER_TAIL_LEN /\
    decode_footer (H0 := true) buf (1082 + FOOTER_TAIL_LEN) = Ok
      {| table_magic_number := BLOCK_BASED_TABLE_MAGIC; format_version := 7; checksum_type := XxH3;
         metaindex_handle := toy_handle; index_handle := None; block_trailer_size := 5;
         base_context_checksum := 1 |}) /\
  decode_footer (H0 := true) (old_footer_bytes Crc32c toy_handle {| offset := 300; size := 40 |} 5) 4096 = Ok
    {| table_magic_number := BLOCK_BASED_TABLE_MAGIC; format_version := 5; checksum_type := Crc32c;
       metaindex_handle := toy_handle; index_handle := Some {| offset := 300; size := 40 |}; block_trailer_size := 5;
       base_context_checksum := 0 |}.
Proof.
  split.
  - apply (footer_roundtrip (H0 := true) XxH3 toy_handle); cbn; lia.
  - apply (footer_roundtrip (H0 := true) Crc32c toy_handle); unfold u64_handle; vm_compute; intuition discriminate.
Defined.

(** A 53-byte file that is all footer, claiming a metaindex of one byte. *)
Lemma decode_footer_underflow_witness :
  decode_footer (H0 := true) (footer_bytes NoChecksum 0 0 1 7) FOOTER_TAIL_LEN = Panic.
Proof.
  refine (eq_trans (decode_footer_underflow (H0 := true) NoChecksum 0 0 1 7 FOOTER_TAIL_LEN _ _ _ _ _ _) eq_refl);
    [split; discriminate|split; [discriminate|reflexivity]|split; [discriminate|reflexivity]
    |split; [discriminate|reflexivity]|reflexivity|].
  exists 0. split; reflexivity.
Defined.

Definition toy_footer : bytes :=
  match encode_footer_v6_plus (H0 := true) 7 XxH3 toy_handle 1 1082 with Ok b => b | _ => [] end.
Definition toy_footer_decoded : Footer := footer_of XxH3 1 77 7 1000.

Lemma decode_footer_sound_witness :
  decode_footer (H0 := true) toy_footer 1135 = Ok toy_footer_decoded /\
  footer_verified toy_footer toy_footer_decoded 1082.
Proof.
  assert (decode_footer (H0 := true) toy_footer 1135 = Ok toy_footer_decoded) as Hd
    by (vm_compute; reflexivity).
  split; [exact Hd|].
  destruct (decode_footer_sound (H0 := true) toy_footer 1135 toy_footer_decoded) as (_ & _ & Hv);
    [vm_compute; discriminate|exact Hd|].
  apply Hv; [vm_compute; discriminate|discriminate].
Defined.
