(* ===== verification/Block.v ===== *)
(** Block decoding of [format/block.rs]: the block trailer with its checksum,
    decompression, the restart array, and the two visitors that walk the
    entries of a data block and the handles of an index block. *)

From S2P Require Import Prelude Varint Checksum Footer.

(** ** Compression types *)

Inductive CompressionType : Type :=
  NoCompression | Snappy | Zlib | BZip2 | Lz4 | Lz4Hc | Xpress | Zstd.
#[export] Instance CompressionType_eq_dec : EqDecision CompressionType.
Proof. solve_decision. Defined.

(** [CompressionType::from_byte]. *)
Definition compression_from_byte (b : Z) : outcome CompressionType :=
  match b with
  | 0x00 => Ok NoCompression
  | 0x01 => Ok Snappy
  | 0x02 => Ok Zlib
  | 0x03 => Ok BZip2
  | 0x04 => Ok Lz4
  | 0x05 => Ok Lz4Hc
  | 0x06 => Ok Xpress
  | 0x07 => Ok Zstd
  | other => Err (Msg "unsupported/unknown compression type byte {}" [other])
  end.

(** [CompressionType::to_byte]. *)
Definition to_byte (self : CompressionType) : Z :=
  match self with
  | NoCompression => 0x00
  | Snappy => 0x01
  | Zlib => 0x02
  | BZip2 => 0x03
  | Lz4 => 0x04
  | Lz4Hc => 0x05
  | Xpress => 0x06
  | Zstd => 0x07
  end.

(** The decompressors of the crates [snap], [lz4_flex] and [zstd]. *)
Class CompressLib : Type := {
  snap_decompress_vec : bytes -> error + bytes;
  lz4_decompress : bytes -> Z -> error + bytes;
  zstd_decompress : bytes -> Z -> error + bytes
}.

Definition BLOCK_TRAILER_SIZE : Z := 5.

Definition block_read_len `{Profile} (handle : BlockHandle) : outcome Z :=
  add_u64 handle.(size) BLOCK_TRAILER_SIZE.

(** ** The block trailer *)

Section Trailer.
Context `{ChecksumLib} `{CompressLib} `{Profile}.

Definition encode_block_with_trailer (raw_contents : bytes) (offset : Z)
    (checksum_type : ChecksumType) (base_context_checksum : Z) : bytes :=
  let comp_byte := byte.of_Z (to_byte NoCompression) in
  let checksum := compute_checksum_with_last_byte checksum_type raw_contents comp_byte in
  let checksum := as_u32 (checksum + checksum_modifier_for_context base_context_checksum offset) in
  let raw_contents := raw_contents ++ [comp_byte] in
  raw_contents ++ to_le_bytes 4 checksum.

(** [Cow<[u8]>]. *)
Inductive Cow : Type := Borrowed (b : bytes) | Owned (b : bytes).

Definition split_uncompressed_size_prefix (data : bytes) : outcome (Z * bytes) :=
  let '(size, pos) := get_varint64 data 0 in
  size ← ok_or size (Msg "failed to read uncompressed-size prefix" []);
  rest ← index_range data pos (len data);
  Ok (size, rest).

Definition decompress (ty : CompressionType) (data : bytes) : outcome Cow :=
  match ty with
  | NoCompression => Ok (Borrowed data)
  | Snappy => Owned <$> map_err (snap_decompress_vec data) (MsgOf "snappy decompress failed: {}" [])
  | Lz4 | Lz4Hc =>
      '(uncompressed_size, payload) ← split_uncompressed_size_prefix data;
      Owned <$> map_err (lz4_decompress payload uncompressed_size)
                  (MsgOf "lz4 decompress failed: {}" [])
  | Zstd =>
      '(uncompressed_size, payload) ← split_uncompressed_size_prefix data;
      Owned <$> map_err (zstd_decompress payload uncompressed_size)
                  (MsgOf "zstd decompress failed: {}" [])
  | other => Err (Msg "compression type {:?} not yet supported" [to_byte other])
  end.

Definition decode_block_contents (raw_with_trailer : bytes) (handle : BlockHandle)
    (checksum_type : ChecksumType) (base_context_checksum : Z) : outcome bytes :=
  let raw_len := handle.(size) in
  expected ← add_u64 raw_len BLOCK_TRAILER_SIZE;
  if negb (len raw_with_trailer =? expected) then
    Err (Msg "block buffer wrong size: expected {} got {}" [expected; len raw_with_trailer])
  else
    raw ← index_range raw_with_trailer 0 raw_len;
    trailer ← index_range raw_with_trailer raw_len expected;
    comp_byte ← index_at trailer 0;
    stored_checksum ← from_le_bytes <$> index_range trailer 1 5;
    let computed := compute_checksum_with_last_byte checksum_type raw comp_byte in
    let computed :=
      as_u32 (computed + checksum_modifier_for_context base_context_checksum handle.(offset)) in
    if negb (bool_decide (checksum_type = NoChecksum)) && negb (computed =? stored_checksum) then
      Err (Msg "block checksum mismatch at offset {}: stored=0x{:08x} computed=0x{:08x}"
             [handle.(offset); stored_checksum; computed])
    else
      compression ← compression_from_byte (byte.unsigned comp_byte);
      cow ← decompress compression raw;
      match cow with
      | Borrowed _ => Ok (take (Z.to_nat raw_len) raw_with_trailer)
      | Owned v => Ok v
      end.
End Trailer.

(** ** The restart array *)

Record ParsedBlock : Type := { contents : bytes; restarts : list Z }.

(** The [for i in 0..num_restarts] loop of [parse_block]. *)
Fixpoint read_restarts (contents : bytes) (off : Z) (n : nat) : outcome (list Z) :=
  match n with
  | O => Ok []
  | S n' =>
      r ← from_le_bytes <$> index_range contents off (off + 4);
      rs ← read_restarts contents (off + 4) n';
      Ok (r :: rs)
  end.

Definition parse_block (contents : bytes) : outcome ParsedBlock :=
  if len contents <? 4 then Err (Msg "block too small to contain restart trailer" [])
  else
    let n := len contents in
    num_restarts ← from_le_bytes <$> index_range contents (n - 4) n;
    let restarts_len := num_restarts * 4 in
    if n <? 4 + restarts_len then Err (Msg "block restart array out of bounds" [])
    else
      let restarts_start := n - 4 - restarts_len in
      restarts ← read_restarts contents restarts_start (Z.to_nat num_restarts);
      Ok {| contents := contents; restarts := restarts |}.

(** ** The visitors

    The callback [f] updates the state it captured and may panic, so a visit
    returns that state next to its outcome: what the callback saw before an
    error stays seen.  [key_scratch] is cleared on entry, so the buffer passed
    in does not matter. *)

(** [&block.contents[..entries_end]]. *)
Definition entries_data `{Profile} (block : ParsedBlock) : outcome bytes :=
  let restarts_len := len block.(restarts) * 4 in
  e ← sub_u64 (len block.(contents)) 4;
  entries_end ← sub_u64 e restarts_len;
  index_range block.(contents) 0 entries_end.

(** The key of an entry: [shared] bytes of the scratch, then the delta. *)
Definition read_key (data key_scratch : bytes) (shared unshared pos : Z)
    (corrupt truncated : error) : outcome (bytes * Z) :=
  if len key_scratch <? shared then Err corrupt
  else
    key_delta ← ok_or (get_range data pos (pos + unshared)) truncated;
    let pos := pos + unshared in
    Ok (take (Z.to_nat shared) key_scratch ++ key_delta, pos).

(** One round of the loop of [for_each_entry] before the callback: key, value
    and the position of the next entry. *)
Definition read_entry (data key_scratch : bytes) (pos : Z) : outcome (bytes * bytes * Z) :=
  let '(shared, pos) := get_varint32 data pos in
  shared ← ok_or shared (Msg "truncated entry: shared_bytes" []);
  let '(unshared, pos) := get_varint32 data pos in
  unshared ← ok_or unshared (Msg "truncated entry: unshared_bytes" []);
  let '(value_len, pos) := get_varint32 data pos in
  value_len ← ok_or value_len (Msg "truncated entry: value_length" []);
  '(key_scratch, pos) ← read_key data key_scratch shared unshared pos
    (Msg "corrupt entry: shared_bytes exceeds last key length" [])
    (Msg "truncated entry: key_delta" []);
  value ← ok_or (get_range data pos (pos + value_len)) (Msg "truncated entry: value" []);
  let pos := pos + value_len in
  Ok (key_scratch, value, pos).

(** The outcome of a step that yields no value to go on with. *)
Definition stop {A} (m : outcome A) : outcome unit := (fun _ => tt) <$> m.

Fixpoint entry_loop {St} (f : bytes -> bytes -> St -> St * outcome unit)
    (fuel : nat) (data key_scratch : bytes) (pos : Z) (st : St) : St * outcome unit :=
  if pos <? len data then
    match fuel with
    | O => (st, OutOfFuel)
    | S fuel' =>
        match read_entry data key_scratch pos with
        | Ok (key_scratch, value, pos) =>
            match f key_scratch value st with
            | (st, Ok _) => entry_loop f fuel' data key_scratch pos st
            | (st, r) => (st, r)
            end
        | r => (st, stop r)
        end
    end
  else (st, Ok tt).

Definition for_each_entry `{Profile} {St} (block : ParsedBlock)
    (f : bytes -> bytes -> St -> St * outcome unit) (st : St) : St * outcome unit :=
  match entries_data block with
  | Ok data =>
      let key_scratch := [] in
      entry_loop f (length data) data key_scratch 0 st
  | r => (st, stop r)
  end.

(** Zigzag encoding, [put_varsigned64] of [block_builder.rs]: the [i64] shift
    drops the bits it shifts out. *)
Definition zigzag (v : Z) : Z := as_u64 (Z.lxor (as_i64 (Z.shiftl v 1)) (Z.shiftr v 63)).
Definition put_varsigned64 (out : bytes) (v : Z) : bytes := put_varint64 out (zigzag v).

(** Zigzag decoding: [((u >> 1) as i64) ^ -((u & 1) as i64)]. *)
Definition get_varsigned64 (buf : bytes) (pos : Z) : option Z * Z :=
  match get_varint64 buf pos with
  | (None, pos) => (None, pos)
  | (Some u, pos) => (Some (Z.lxor (as_i64 (Z.shiftr u 1)) (- as_i64 (Z.land u 1))), pos)
  end.

(** The handle of an index entry: two varints, or the size delta against the
    previous handle. *)
Definition read_index_handle `{Profile} (data : bytes) (full : bool) (last_handle : option BlockHandle)
    (pos : Z) : outcome (BlockHandle * Z) :=
  if full then
    let '(offset, pos) := get_varint64 data pos in
    offset ← ok_or offset (Msg "truncated index value: offset" []);
    let '(size, pos) := get_varint64 data pos in
    size ← ok_or size (Msg "truncated index value: size" []);
    Ok ({| offset := offset; size := size |}, pos)
  else
    prev ← ok_or last_handle (Msg "delta-encoded index value with no previous handle" []);
    let '(delta, pos) := get_varsigned64 data pos in
    delta ← ok_or delta (Msg "truncated index value: size delta" []);
    new_size ← as_u64 <$> add_i64 (as_i64 prev.(size)) delta;
    o ← add_u64 prev.(offset) prev.(size);
    o ← add_u64 o BLOCK_TRAILER_SIZE;
    Ok ({| offset := o; size := new_size |}, pos).

(** One round of the loop of [for_each_index_entry] before the callback. *)
Definition read_index_entry `{Profile} (data : bytes) (restart_offsets : list Z)
    (key_scratch : bytes) (last_handle : option BlockHandle) (pos : Z) :
    outcome (bytes * BlockHandle * Z) :=
  let at_restart := bool_decide (pos ∈ restart_offsets) in
  let '(shared, pos) := get_varint32 data pos in
  shared ← ok_or shared (Msg "truncated index entry: shared_bytes" []);
  let '(unshared, pos) := get_varint32 data pos in
  unshared ← ok_or unshared (Msg "truncated index entry: non_shared_bytes" []);
  '(key_scratch, pos) ← read_key data key_scratch shared unshared pos
    (Msg "corrupt index entry: shared_bytes exceeds last key length" [])
    (Msg "truncated index entry: key_delta" []);
  let is_shared := negb (shared =? 0) in
  '(handle, pos) ← read_index_handle data (at_restart || negb is_shared) last_handle pos;
  Ok (key_scratch, handle, pos).

Fixpoint index_loop `{Profile} {St} (f : bytes -> BlockHandle -> St -> St * outcome unit)
    (fuel : nat) (data : bytes) (restart_offsets : list Z) (key_scratch : bytes)
    (last_handle : option BlockHandle) (pos : Z) (st : St) : St * outcome unit :=
  if pos <? len data then
    match fuel with
    | O => (st, OutOfFuel)
    | S fuel' =>
        match read_index_entry data restart_offsets key_scratch last_handle pos with
        | Ok (key_scratch, handle, pos) =>
            match f key_scratch handle st with
            | (st, Ok _) =>
                index_loop f fuel' data restart_offsets key_scratch (Some handle) pos st
            | (st, r) => (st, r)
            end
        | r => (st, stop r)
        end
    end
  else (st, Ok tt).

(** [restart_offsets] is sorted for [binary_search], whose [is_ok] on a sorted
    slice is membership. *)
Definition for_each_index_entry `{Profile} {St} (block : ParsedBlock)
    (f : bytes -> BlockHandle -> St -> St * outcome unit) (st : St) : St * outcome unit :=
  match entries_data block with
  | Ok data =>
      let restart_offsets := sort_by Z.compare block.(restarts) in
      let key_scratch := [] in
      index_loop f (length data) data restart_offsets key_scratch None 0 st
  | r => (st, stop r)
  end.

(** ** The trailer round trip *)

Section TrailerLemmas.
Context `{ChecksumLib} `{CompressLib} `{Profile}.

Lemma len_encode_block raw off ty base :
  len (encode_block_with_trailer raw off ty base) = len raw + BLOCK_TRAILER_SIZE.
Proof. unfold encode_block_with_trailer, BLOCK_TRAILER_SIZE. cbv zeta. simpl_len. cbn. lia. Qed.

(** What the decoder does once the buffer is split into its three fields. *)
Lemma decode_block_eq data comp_byte stored h ty base :
  len data = h.(size) -> len stored = 4 -> len data + BLOCK_TRAILER_SIZE < 2 ^ 64 ->
  decode_block_contents (data ++ [comp_byte] ++ stored) h ty base =
    let computed := as_u32 (compute_checksum_with_last_byte ty data comp_byte +
                            checksum_modifier_for_context base h.(offset)) in
    if negb (bool_decide (ty = NoChecksum)) && negb (computed =? from_le_bytes stored) then
      Err (Msg "block checksum mismatch at offset {}: stored=0x{:08x} computed=0x{:08x}"
             [h.(offset); from_le_bytes stored; computed])
    else
      compression ← compression_from_byte (byte.unsigned comp_byte);
      cow ← decompress compression data;
      match cow with Borrowed _ => Ok data | Owned v => Ok v end.
Proof.
  unfold BLOCK_TRAILER_SIZE. intros Hd Hs Hl. unfold decode_block_contents, BLOCK_TRAILER_SIZE.
  rewrite add_u64_ok, bind_Ok by len_lia.
  replace (len (data ++ [comp_byte] ++ stored) =? h.(size) + 5) with true by len_lia. cbn [negb].
  rewrite index_range_prefix, bind_Ok by lia. rewrite index_range_skip by lia.
  rewrite index_range_all, bind_Ok by len_lia.
  change (index_at ([comp_byte] ++ stored) 0) with (Ok comp_byte). rewrite bind_Ok.
  rewrite index_range_skip by len_lia. rewrite index_range_all by len_lia. rewrite fmap_Ok, bind_Ok.
  replace (take (Z.to_nat h.(size)) _) with data; [done|].
  rewrite <- Hd. unfold len. by rewrite Nat2Z.id, take_app_length.
Qed.

Lemma decode_encode_block raw off ty base :
  len raw + BLOCK_TRAILER_SIZE < 2 ^ 64 ->
  decode_block_contents (encode_block_with_trailer raw off ty base)
    {| offset := off; size := len raw |} ty base = Ok raw.
Proof.
  intros Hl. unfold encode_block_with_trailer. cbv zeta. rewrite <- (assoc_L (++)).
  rewrite decode_block_eq by (done || len_lia). cbv zeta. cbn [offset].
  rewrite from_to_le_bytes by apply as_u32_range. rewrite Z.eqb_refl, andb_false_r. done.
Qed.

(** Every buffer of the right length has the three fields. *)
Lemma block_fields (raw : bytes) n :
  0 <= n -> len raw = n + BLOCK_TRAILER_SIZE ->
  exists data comp_byte stored, raw = data ++ [comp_byte] ++ stored /\ len data = n /\ len stored = 4.
Proof.
  unfold BLOCK_TRAILER_SIZE. intros Hn Hl. destruct (drop (Z.to_nat n) raw) as [|cb stored] eqn:E.
  - apply (f_equal len) in E. len_lia.
  - exists (take (Z.to_nat n) raw), cb, stored. cbn [app]. rewrite <- E, take_drop.
    split; [done|]. apply (f_equal len) in E. len_lia.
Qed.
End TrailerLemmas.

(** ** Parsing the restart array *)

(** The trailer of an uncompressed block. *)
Definition restart_trailer (rs : list Z) : bytes :=
  concat (to_le_bytes 4 <$> rs) ++ to_le_bytes 4 (len rs).

Definition u32 (z : Z) : Prop := 0 <= z < 2 ^ 32.
Definition u64 (z : Z) : Prop := 0 <= z < 2 ^ 64.

Lemma len_restart_array (rs : list Z) : len (concat (to_le_bytes 4 <$> rs)) = 4 * len rs.
Proof. induction rs as [|r rs IH]; [done|]. cbn [fmap list_fmap concat]. len_lia. Qed.
#[export] Hint Rewrite len_restart_array : lens.

Lemma read_restarts_ok rs pre post :
  Forall u32 rs ->
  read_restarts (pre ++ concat (to_le_bytes 4 <$> rs) ++ post) (len pre) (length rs) = Ok rs.
Proof.
  intros Hrs. revert pre. induction Hrs as [|r rs Hr Hrs IH]; intros pre; [done|].
  cbn [read_restarts length fmap list_fmap concat]. rewrite <- (assoc_L (++)).
  rewrite index_range_app, fmap_Ok, bind_Ok by len_lia. rewrite from_to_le_bytes by exact Hr.
  rewrite (assoc_L (++) pre). replace (len pre + 4) with (len (pre ++ to_le_bytes 4 r)) by len_lia.
  by rewrite IH.
Qed.

Lemma parse_block_ok data rs :
  Forall u32 rs -> len rs < 2 ^ 32 ->
  parse_block (data ++ restart_trailer rs) =
    Ok {| contents := data ++ restart_trailer rs; restarts := rs |}.
Proof.
  intros Hrs Hl. unfold parse_block, restart_trailer. rewrite (assoc_L (++) data).
  set (c := _ ++ to_le_bytes 4 (len rs)).
  assert (len c = len data + 4 * len rs + 4) as Hc by (unfold c; len_lia).
  replace (len c <? 4) with false by len_lia.
  assert (index_range c (len c - 4) (len c) = Ok (to_le_bytes 4 (len rs))) as ->
    by (unfold c in *; apply index_range_suffix; len_lia).
  rewrite fmap_Ok, bind_Ok, from_to_le_bytes by (unfold len in *; cbn; lia).
  replace (len c <? 4 + len rs * 4) with false by len_lia.
  replace (len c - 4 - len rs * 4) with (len data) by lia.
  assert (read_restarts c (len data) (Z.to_nat (len rs)) = Ok rs) as ->; [|done].
  unfold c. replace (Z.to_nat (len rs)) with (length rs) by (unfold len; lia). rewrite <- (assoc_L (++)). by apply read_restarts_ok.
Qed.

Lemma entries_data_ok `{Profile} data rs :
  entries_data {| contents := data ++ restart_trailer rs; restarts := rs |} = Ok data.
Proof.
  unfold entries_data, restart_trailer. cbn [contents restarts].
  rewrite sub_u64_ok, bind_Ok by len_lia. rewrite sub_u64_ok, bind_Ok by len_lia.
  by rewrite index_range_prefix by len_lia.
Qed.

(** A block that [parse_block] accepted has room for its restart array. *)
Definition block_ok (b : ParsedBlock) : Prop := 4 + len b.(restarts) * 4 <= len b.(contents).

Lemma read_restarts_len contents off n rs :
  read_restarts contents off n = Ok rs -> length rs = n.
Proof.
  revert off rs. induction n as [|n IH]; intros off rs; cbn [read_restarts]; [by intros [= <-]|].
  intros Hd. inv_ok Hd. injection Hd as <-. cbn. f_equal. by eapply IH.
Qed.

Lemma parse_block_block_ok c b : parse_block c = Ok b -> block_ok b.
Proof.
  unfold parse_block. cbv zeta. intros Hd. inv_ok Hd. injection Hd as <-.
  unfold block_ok. cbn [contents restarts]. apply read_restarts_len in Hx0. unfold len at 1. rewrite Hx0.
  apply fmap_Ok_inv in Hx as (b & _ & ->). pose proof (from_le_bytes_range b). lia.
Qed.

Lemma entries_data_total `{Profile} b : block_ok b -> exists data, entries_data b = Ok data.
Proof.
  unfold block_ok. intros Hb. unfold entries_data.
  rewrite sub_u64_ok, bind_Ok by len_lia. rewrite sub_u64_ok, bind_Ok by len_lia.
  unfold index_range. destruct (get_range _ _ _) eqn:E; [by eexists|].
  apply get_range_None in E. exfalso. apply E. len_lia.
Qed.

(** ** Visiting the entries of a block *)

(** Running a callback over a list, stopping where it does not return. *)
Fixpoint visit_entries {K V St} (f : K -> V -> St -> St * outcome unit) (es : list (K * V)) (st : St) :
    St * outcome unit :=
  match es with
  | [] => (st, Ok tt)
  | e :: es' =>
      match f e.1 e.2 st with
      | (st, Ok _) => visit_entries f es' st
      | (st, r) => (st, r)
      end
  end.

(** A callback that collects what it is shown. *)
Definition collect {K V} (k : K) (v : V) (acc : list (K * V)) : list (K * V) * outcome unit :=
  (acc ++ [(k, v)], Ok tt).

Lemma visit_entries_app {K V St} (f : K -> V -> St -> St * outcome unit) es1 es2 st :
  visit_entries f (es1 ++ es2) st =
    match visit_entries f es1 st with
    | (st, Ok _) => visit_entries f es2 st
    | (st, r) => (st, r)
    end.
Proof.
  revert st. induction es1 as [|e es1 IH]; intros st; cbn; [done|].
  destruct (f e.1 e.2 st) as [st' [| | |]]; [apply IH|done..].
Qed.

Lemma visit_entries_pure {K V St} (f : K -> V -> St -> St) es st :
  visit_entries (fun k v st => (f k v st, Ok tt)) es st = (foldl (fun st e => f e.1 e.2 st) st es, Ok tt).
Proof. revert st. induction es as [|e es IH]; intros st; [done|]. apply IH. Qed.

Lemma visit_entries_collect {K V} (es : list (K * V)) acc : visit_entries collect es acc = (acc ++ es, Ok tt).
Proof.
  revert acc. induction es as [|e es IH]; intros acc; cbn; [by rewrite app_nil_r|].
  rewrite IH, <- (assoc_L (++)). by destruct e.
Qed.

(** *** Delta-encoded entries

    [entry_chain k es bs k']: [bs] is an encoding of the entries [es] read with
    last key [k], and [k'] is the last key afterwards. *)
Definition share (shared : Z) (k key : bytes) : Prop :=
  0 <= shared <= len k /\ shared <= len key /\ take (Z.to_nat shared) k = take (Z.to_nat shared) key.

Definition entry_bytes (shared : Z) (key value : bytes) : bytes :=
  varint shared ++ varint (len key - shared) ++ varint (len value) ++
  drop (Z.to_nat shared) key ++ value.

Inductive entry_chain : bytes -> list entry -> bytes -> bytes -> Prop :=
  | chain_nil k : entry_chain k [] [] k
  | chain_cons k shared key value es bs k' :
      share shared k key -> u32 (len key) -> u32 (len value) ->
      entry_chain key es bs k' ->
      entry_chain k ((key, value) :: es) (entry_bytes shared key value ++ bs) k'.

Lemma entry_chain_snoc k es bs k' shared key value :
  entry_chain k es bs k' -> share shared k' key -> u32 (len key) -> u32 (len value) ->
  entry_chain k (es ++ [(key, value)]) (bs ++ entry_bytes shared key value) key.
Proof.
  induction 1 as [k|k s x v es bs k' Hs Hx Hv _ IH]; intros Hsh Hk Hval.
  - rewrite <- (app_nil_r (entry_bytes _ _ _)). by repeat (apply chain_cons || apply chain_nil).
  - rewrite <- (assoc_L (++)). cbn. constructor; auto.
Qed.

(** Reading a key back from its delta. *)
Lemma read_key_at data pos pre post k shared key e1 e2 :
  data = pre ++ drop (Z.to_nat shared) key ++ post -> pos = len pre -> share shared k key ->
  read_key data k shared (len key - shared) pos e1 e2 = Ok (key, pos + (len key - shared)).
Proof.
  intros -> -> (Hs & Hk & Heq). unfold read_key. replace (len k <? shared) with false by lia.
  rewrite get_range_app by len_lia. cbn. do 2 f_equal. rewrite Heq. apply take_drop.
Qed.

Lemma read_entry_ok pre post k shared key value :
  share shared k key -> u32 (len key) -> u32 (len value) ->
  read_entry (pre ++ entry_bytes shared key value ++ post) k (len pre) =
    Ok (key, value, len pre + len (entry_bytes shared key value)).
Proof.
  intros Hsh Hk Hv. pose proof Hsh as (Hs & Hsk & _). unfold u32 in *.
  set (d := _ ++ _). set (s1 := varint shared). set (s2 := varint (len key - shared)).
  set (s3 := varint (len value)). set (s4 := drop (Z.to_nat shared) key).
  assert (d = pre ++ s1 ++ s2 ++ s3 ++ s4 ++ value ++ post) as Hd by (unfold d, entry_bytes; reassoc).
  unfold read_entry.
  rewrite (get_varint32_at d _ shared pre (s2 ++ s3 ++ s4 ++ value ++ post))
    by (done || lia). fold s1. cbn [ok_or]. rewrite bind_Ok.
  rewrite (get_varint32_at d _ (len key - shared) (pre ++ s1) (s3 ++ s4 ++ value ++ post))
    by ((rewrite Hd; reassoc) || len_lia). fold s2. cbn [ok_or]. rewrite bind_Ok.
  rewrite (get_varint32_at d _ (len value) (pre ++ s1 ++ s2) (s4 ++ value ++ post))
    by ((rewrite Hd; reassoc) || len_lia). fold s3. cbn [ok_or]. rewrite bind_Ok.
  rewrite (read_key_at d _ (pre ++ s1 ++ s2 ++ s3) (value ++ post) k shared key)
    by (done || (rewrite Hd; reassoc) || len_lia). rewrite bind_Ok.
  assert (len s4 = len key - shared) as Hs4 by (unfold s4; len_lia).
  rewrite (get_range_at d (pre ++ s1 ++ s2 ++ s3 ++ s4) value post)
    by ((rewrite Hd; reassoc) || len_lia). cbn [ok_or]. rewrite bind_Ok. do 2 f_equal.
  unfold entry_bytes. fold s1 s2 s3 s4. len_lia.
Qed.

Lemma entry_bytes_pos shared key value :
  u32 shared -> 1 <= len (entry_bytes shared key value).
Proof.
  intros Hs. unfold entry_bytes. pose proof (varint_len_u32 _ Hs). len_lia.
Qed.

Lemma entry_loop_chain {St} (f : bytes -> bytes -> St -> St * outcome unit) fuel pre k es bs k' st :
  entry_chain k es bs k' -> (length bs <= fuel)%nat ->
  entry_loop f fuel (pre ++ bs) k (len pre) st = visit_entries f es st.
Proof.
  intros Hc. revert fuel pre st.
  induction Hc as [k|k shared key value es bs k' Hsh Hk Hv Hc IH]; intros fuel pre st Hf.
  { destruct fuel; cbn; by replace (len pre <? len (pre ++ [])) with false by len_lia. }
  pose proof Hsh as (Hs & Hsk & _).
  assert (1 <= len (entry_bytes shared key value)) as Hpos
    by (apply entry_bytes_pos; unfold u32 in *; lia).
  destruct fuel as [|fuel]; [exfalso; rewrite length_app in Hf; unfold len in Hpos; lia|].
  cbn [entry_loop]. replace (len pre <? _) with true by len_lia.
  rewrite read_entry_ok by done. cbn [visit_entries fst snd].
  destruct (f key value st) as [st' [[]| | |]]; [|done..].
  rewrite (assoc_L (++)). replace (len pre + _) with (len (pre ++ entry_bytes shared key value)) by len_lia.
  apply IH. rewrite length_app in Hf. unfold len in Hpos. lia.
Qed.

(** Visiting a well-formed block: the callback sees exactly its entries. *)
Lemma for_each_entry_ok `{Profile} {St} (f : bytes -> bytes -> St -> St * outcome unit) es bs k' rs st :
  entry_chain [] es bs k' ->
  for_each_entry {| contents := bs ++ restart_trailer rs; restarts := rs |} f st = visit_entries f es st.
Proof.
  intros Hc. unfold for_each_entry. rewrite entries_data_ok.
  by apply (entry_loop_chain f (length bs) [] [] es bs k').
Qed.

(** *** Zigzag *)

Lemma as_i64_cong z : exists q, as_i64 z = z + q * 2 ^ 64.
Proof.
  pose proof (Z.div_mod z (2 ^ 64) ltac:(lia)) as Hd. unfold as_i64. case_match.
  - exists (- (z / 2 ^ 64)). lia.
  - exists (- (z / 2 ^ 64) - 1). lia.
Qed.

Lemma as_i64_id z : - 2 ^ 63 <= z < 2 ^ 63 -> as_i64 z = z.
Proof.
  intros Hz. unfold as_i64. destruct (Z.ltb_spec z 0).
  - rewrite <- (Z.mod_unique_pos z (2 ^ 64) (-1) (z + 2 ^ 64)) by lia. case_match; lia.
  - rewrite Z.mod_small by lia. case_match; lia.
Qed.

Lemma zigzag_spec v : - 2 ^ 63 <= v < 2 ^ 63 -> zigzag v = if v <? 0 then - 2 * v - 1 else 2 * v.
Proof.
  intros Hv. unfold zigzag. rewrite Z.shiftl_mul_pow2, Z.shiftr_div_pow2 by lia.
  destruct (as_i64_cong (v * 2 ^ 1)) as [q ->]. unfold as_u64. destruct (Z.ltb_spec v 0).
  - replace (v / 2 ^ 63) with (-1) by (Z.to_euclidean_division_equations; lia).
    rewrite Z.lxor_m1_r. unfold Z.lnot. symmetry. apply (Z.mod_unique_pos _ (2 ^ 64) (- q)); lia.
  - replace (v / 2 ^ 63) with 0 by (Z.to_euclidean_division_equations; lia).
    rewrite Z.lxor_0_r. symmetry. apply (Z.mod_unique_pos _ (2 ^ 64) q); lia.
Qed.

Lemma zigzag_range v : 0 <= zigzag v < 2 ^ 64.
Proof. apply as_u64_range. Qed.

(** The signed varint round trip. *)
Lemma get_varsigned64_at buf pos v pre post :
  buf = pre ++ varint (zigzag v) ++ post -> pos = len pre -> - 2 ^ 63 <= v < 2 ^ 63 ->
  get_varsigned64 buf pos = (Some v, pos + len (varint (zigzag v))).
Proof.
  intros Hb Hp Hv. unfold get_varsigned64.
  rewrite (get_varint64_at buf pos (zigzag v) pre post) by (done || apply zigzag_range).
  do 2 f_equal. rewrite zigzag_spec by done. rewrite (Z.land_ones _ 1), Z.shiftr_div_pow2 by lia.
  change (2 ^ 1) with 2. destruct (Z.ltb_spec v 0).
  - replace ((- 2 * v - 1) mod 2) with 1 by (Z.to_euclidean_division_equations; lia).
    replace ((- 2 * v - 1) / 2) with (- v - 1) by (Z.to_euclidean_division_equations; lia).
    rewrite as_i64_id by lia. change (- as_i64 1) with (-1). rewrite Z.lxor_m1_r. unfold Z.lnot. lia.
  - replace ((2 * v) mod 2) with 0 by (Z.to_euclidean_division_equations; lia).
    replace ((2 * v) / 2) with v by (Z.to_euclidean_division_equations; lia).
    rewrite as_i64_id by lia. apply Z.lxor_0_r.
Qed.

(** *** Index entries *)

#[export] Instance Zcompare_order : CmpOrder Z.compare.
Proof.
  split.
  - intros a b. apply Z.compare_antisym.
  - intros a b c. change (a <= b -> b <= c -> a <= c). lia.
Qed.

(** [h] is the block that follows [prev] in the file. *)
Definition follows (prev h : BlockHandle) : Prop :=
  h.(offset) = prev.(offset) + prev.(size) + BLOCK_TRAILER_SIZE /\
  prev.(size) < 2 ^ 63 /\ h.(size) < 2 ^ 63.

Definition full_handle (h : BlockHandle) : bytes := varint h.(offset) ++ varint h.(size).
Definition delta_handle (prev h : BlockHandle) : bytes := varint (zigzag (h.(size) - prev.(size))).

(** The encodings of a handle that decode to it after [last]. *)
Inductive handle_enc (last : option BlockHandle) (h : BlockHandle) : bool -> bytes -> Prop :=
  | enc_full : handle_enc last h true (full_handle h)
  | enc_delta prev : last = Some prev -> handle_ok prev -> follows prev h ->
      handle_enc last h false (delta_handle prev h).

Definition index_bytes (shared : Z) (key value : bytes) : bytes :=
  varint shared ++ varint (len key - shared) ++ drop (Z.to_nat shared) key ++ value.

(** [index_chain rs p k last hs bs k' last']: [bs], at position [p] of a block
    with restart offsets [rs], encodes the index entries [hs]. *)
Inductive index_chain (rs : list Z) :
    Z -> bytes -> option BlockHandle -> list (bytes * BlockHandle) -> bytes ->
    bytes -> option BlockHandle -> Prop :=
  | ichain_nil p k last : index_chain rs p k last [] [] k last
  | ichain_cons p k last shared key h value hs bs k' last' :
      share shared k key -> u32 (len key) -> handle_ok h ->
      handle_enc last h (bool_decide (p ∈ rs) || (shared =? 0)) value ->
      index_chain rs (p + len (index_bytes shared key value)) key (Some h) hs bs k' last' ->
      index_chain rs p k last ((key, h) :: hs) (index_bytes shared key value ++ bs) k' last'.

Section IndexLemmas.
Context `{Profile}.

Lemma read_index_handle_at data pos pre post last h full value :
  data = pre ++ value ++ post -> pos = len pre -> handle_ok h -> handle_enc last h full value ->
  read_index_handle data full last pos = Ok (h, pos + len value).
Proof.
  intros Hd Hp [Ho Hs] He. destruct He as [|prev -> [Hpo Hps] (Hoff & Hps' & Hhs)];
    cbn [read_index_handle]; unfold full_handle, delta_handle in *.
  - rewrite (get_varint64_at data pos h.(offset) pre (varint h.(size) ++ post))
      by ((rewrite Hd; reassoc) || done). cbn [ok_or]. rewrite bind_Ok.
    rewrite (get_varint64_at data _ h.(size) (pre ++ varint h.(offset)) post)
      by ((rewrite Hd; reassoc) || len_lia). cbn [ok_or]. rewrite bind_Ok.
    destruct h; cbn. do 2 f_equal. len_lia.
  - cbn [ok_or]. rewrite bind_Ok. unfold BLOCK_TRAILER_SIZE in *.
    rewrite (get_varsigned64_at data pos (h.(size) - prev.(size)) pre post) by (done || lia).
    cbn [ok_or]. rewrite bind_Ok, as_i64_id by lia. unfold add_i64 at 1, arith.
    replace (in_i64 _) with true by (unfold in_i64; lia). rewrite fmap_Ok, bind_Ok.
    rewrite add_u64_ok, bind_Ok by lia. rewrite add_u64_ok, bind_Ok by lia.
    replace (prev.(size) + _) with h.(size) by lia. rewrite as_u64_small, <- Hoff by lia.
    by destruct h.
Qed.

Lemma read_index_entry_ok pre post rs k last shared key h value :
  share shared k key -> u32 (len key) -> handle_ok h ->
  handle_enc last h (bool_decide (len pre ∈ rs) || (shared =? 0)) value ->
  read_index_entry (pre ++ index_bytes shared key value ++ post) rs k last (len pre) =
    Ok (key, h, len pre + len (index_bytes shared key value)).
Proof.
  intros Hsh Hk Hh He. pose proof Hsh as (Hs & Hsk & _). unfold u32 in *.
  set (d := _ ++ _). set (s1 := varint shared). set (s2 := varint (len key - shared)).
  set (s4 := drop (Z.to_nat shared) key).
  assert (d = pre ++ s1 ++ s2 ++ s4 ++ value ++ post) as Hd by (unfold d, index_bytes; reassoc).
  unfold read_index_entry.
  rewrite (get_varint32_at d _ shared pre (s2 ++ s4 ++ value ++ post))
    by (done || lia). fold s1. cbn [ok_or]. rewrite bind_Ok.
  rewrite (get_varint32_at d _ (len key - shared) (pre ++ s1) (s4 ++ value ++ post))
    by ((rewrite Hd; reassoc) || len_lia). fold s2. cbn [ok_or]. rewrite bind_Ok.
  rewrite (read_key_at d _ (pre ++ s1 ++ s2) (value ++ post) k shared key)
    by (done || (rewrite Hd; reassoc) || len_lia). rewrite bind_Ok. rewrite negb_involutive.
  assert (len s4 = len key - shared) as Hs4 by (unfold s4; len_lia).
  rewrite (read_index_handle_at d _ (pre ++ s1 ++ s2 ++ s4) post last h _ value)
    by (done || (rewrite Hd; reassoc) || len_lia). rewrite bind_Ok. do 2 f_equal.
  unfold index_bytes. fold s1 s2 s4. len_lia.
Qed.

Lemma index_loop_chain {St} (f : bytes -> BlockHandle -> St -> St * outcome unit)
    fuel rs rs' pre k last hs bs k' last' st :
  (forall p, p ∈ rs <-> p ∈ rs') ->
  index_chain rs (len pre) k last hs bs k' last' -> (length bs <= fuel)%nat ->
  index_loop f fuel (pre ++ bs) rs' k last (len pre) st = visit_entries f hs st.
Proof.
  intros Hrs Hc. remember (len pre) as p eqn:Hp. revert fuel pre Hp st.
  induction Hc as [p k last|p k last shared key h value hs bs k' last' Hsh Hk Hh He Hc IH];
    intros fuel pre -> st Hf.
  { destruct fuel; cbn; by replace (len pre <? len (pre ++ [])) with false by len_lia. }
  pose proof Hsh as (Hs & Hsk & _).
  assert (1 <= len (index_bytes shared key value)) as Hpos.
  { unfold index_bytes. pose proof (varint_len_u32 shared ltac:(unfold u32 in *; lia)). len_lia. }
  destruct fuel as [|fuel]; [exfalso; rewrite length_app in Hf; unfold len in Hpos; lia|].
  cbn [index_loop]. replace (len pre <? _) with true by len_lia.
  rewrite (bool_decide_ext _ (len pre ∈ rs') (Hrs _)) in He.
  rewrite (read_index_entry_ok pre bs rs' k last shared key h value) by done. cbn [visit_entries fst snd].
  destruct (f key h st) as [st' [[]| | |]]; [|done..].
  rewrite (assoc_L (++)).
  apply IH; [len_lia|]. rewrite length_app in Hf. unfold len in Hpos. lia.
Qed.

(** Visiting a well-formed index block. *)
Lemma for_each_index_entry_ok {St} (f : bytes -> BlockHandle -> St -> St * outcome unit)
    hs bs k' last' rs st :
  index_chain rs 0 [] None hs bs k' last' ->
  for_each_index_entry {| contents := bs ++ restart_trailer rs; restarts := rs |} f st =
    visit_entries f hs st.
Proof.
  intros Hc. unfold for_each_index_entry. rewrite entries_data_ok. cbn [restarts].
  apply (index_loop_chain f (length bs) rs _ [] [] None hs bs k' last'); [|done..].
  intros p. by rewrite sort_by_perm.
Qed.
End IndexLemmas.

(** ** The decoders on arbitrary bytes *)

(** An outcome that is a value or an error: no panic, and no loop cut short. *)
Definition settled {A} (m : outcome A) : Prop :=
  match m with Ok _ | Err _ => True | Panic | OutOfFuel => False end.

Lemma settled_ok_or {A} (o : option A) e : settled (ok_or o e).
Proof. by destruct o. Qed.
Lemma settled_bind {A B} (m : outcome A) (f : A -> outcome B) :
  settled m -> (forall a, m = Ok a -> settled (f a)) -> settled (m ≫= f).
Proof. destruct m; cbn; auto. Qed.
Lemma settled_fmap {A B} (m : outcome A) (f : A -> B) : settled m -> settled (f <$> m).
Proof. by destruct m. Qed.
Lemma settled_map_err {A} (r : error + A) f : settled (map_err r f).
Proof. by destruct r. Qed.
Create HintDb settled.
#[export] Hint Resolve settled_ok_or settled_fmap settled_map_err I : settled.

(** Discharges [settled] goals step by step. *)
Ltac settle :=
  repeat first
    [ exact I
    | apply settled_bind; [solve [eauto with settled]|intros ? ?]
    | progress cbv zeta
    | match goal with
      | |- settled (let '(_, _) := ?p in _) => let H := fresh "E" in destruct p eqn:H
      | |- settled (if ?b then _ else _) => let H := fresh "E" in destruct b eqn:H
      end
    | progress cbn beta iota ].

Section Total.
Context `{Profile}.

Lemma read_key_settled data k shared unshared pos e1 e2 :
  settled (read_key data k shared unshared pos e1 e2).
Proof. unfold read_key. settle. Qed.

Lemma read_key_pos data k shared unshared pos e1 e2 k' pos' :
  read_key data k shared unshared pos e1 e2 = Ok (k', pos') -> pos <= pos' <= len data.
Proof.
  unfold read_key. cbv zeta. intros Hd. inv_ok Hd. apply ok_or_inv in Hx.
  injection Hd as _ <-. apply get_range_Some in Hx as (p & s & -> & -> & He). len_lia.
Qed.
Hint Resolve read_key_settled : settled.

Lemma read_entry_settled data k pos : settled (read_entry data k pos).
Proof. unfold read_entry. settle. Qed.

Lemma read_entry_pos data k pos k' v pos' :
  0 <= pos -> read_entry data k pos = Ok (k', v, pos') -> pos < pos' <= len data.
Proof.
  intros Hp. unfold read_entry.
  destruct (get_varint32 data pos) as [o1 p1] eqn:E1. intros Hd. inv_ok Hd. apply ok_or_inv in Hx as ->.
  destruct (get_varint32 data p1) as [o2 p2] eqn:E2. inv_ok Hd. apply ok_or_inv in Hx as ->.
  destruct (get_varint32 data p2) as [o3 p3] eqn:E3. inv_ok Hd. apply ok_or_inv in Hx as ->.
  apply get_varint32_bounds in E1; [|done]. apply get_varint32_bounds in E2; [|lia].
  apply get_varint32_bounds in E3; [|lia]. destruct x2 as [k2 p4]. inv_ok Hd.
  apply read_key_pos in Hx0. apply ok_or_inv in Hx.
  apply get_range_Some in Hx as (q & s & -> & -> & He). injection Hd as _ _ <-. len_lia.
Qed.

Lemma entry_loop_settled {St} (f : bytes -> bytes -> St -> St * outcome unit) fuel data k pos st :
  (forall k v st, settled (f k v st).2) -> 0 <= pos -> (Z.to_nat (len data - pos) <= fuel)%nat ->
  settled (entry_loop f fuel data k pos st).2.
Proof.
  intros Hf. revert k pos st. induction fuel as [|fuel IH]; intros k pos st Hp Hl; cbn [entry_loop];
    destruct (Z.ltb_spec pos (len data)); try exact I; [lia|].
  pose proof (read_entry_settled data k pos) as Hs.
  destruct (read_entry data k pos) as [[[k' v] p']| | |] eqn:E; try done.
  apply read_entry_pos in E; [|done]. specialize (Hf k' v st).
  destruct (f k' v st) as [st' [| | |]]; try done. apply IH; lia.
Qed.

(** The position only moves forward, whatever the callback does: the fuel,
    one round per byte of the block, is never what ends the walk. *)
Lemma for_each_entry_settled {St} (f : bytes -> bytes -> St -> St * outcome unit) b st :
  block_ok b -> (forall k v st, settled (f k v st).2) -> settled (for_each_entry b f st).2.
Proof.
  intros Hb Hf. unfold for_each_entry. destruct (entries_data_total b Hb) as [data ->].
  apply entry_loop_settled; [done|lia|unfold len; lia].
Qed.

Lemma read_index_handle_fuel data full last pos : read_index_handle data full last pos <> OutOfFuel.
Proof.
  unfold read_index_handle, get_varsigned64, ok_or, add_i64, add_u64, arith.
  repeat (case_match; cbn; try done).
Qed.

Lemma read_index_handle_pos data full last pos h pos' :
  0 <= pos -> read_index_handle data full last pos = Ok (h, pos') -> pos <= pos'.
Proof.
  intros Hp. unfold read_index_handle, get_varsigned64. destruct full.
  - destruct (get_varint64 data pos) as [o1 p1] eqn:E1. intros Hd. inv_ok Hd. apply ok_or_inv in Hx as ->.
    destruct (get_varint64 data p1) as [o2 p2] eqn:E2. inv_ok Hd. apply ok_or_inv in Hx as ->.
    injection Hd as _ <-. apply get_varint64_bounds in E1; [|done]. apply get_varint64_bounds in E2; lia.
  - intros Hd. inv_ok Hd. destruct (get_varint64 data pos) as [[u|] p1] eqn:E1; inv_ok Hd; [|done].
    injection Hd as _ <-. apply get_varint64_bounds in E1; lia.
Qed.

Lemma read_index_entry_fuel data rs k last pos : read_index_entry data rs k last pos <> OutOfFuel.
Proof.
  unfold read_index_entry, read_key. pose proof read_index_handle_fuel as Hh.
  unfold ok_or. repeat (case_match; cbn; try done).
  all: match goal with |- context [read_index_handle ?d ?b ?l ?p] =>
         specialize (Hh d b l p); by destruct (read_index_handle d b l p) as [[]| | |] end.
Qed.

Lemma read_index_entry_pos data rs k last pos k' h pos' :
  0 <= pos -> read_index_entry data rs k last pos = Ok (k', h, pos') -> pos < pos'.
Proof.
  intros Hp. unfold read_index_entry.
  destruct (get_varint32 data pos) as [o1 p1] eqn:E1. intros Hd. cbv zeta in Hd. inv_ok Hd. apply ok_or_inv in Hx as ->.
  destruct (get_varint32 data p1) as [o2 p2] eqn:E2. inv_ok Hd. apply ok_or_inv in Hx as ->.
  apply get_varint32_bounds in E1; [|done]. apply get_varint32_bounds in E2; [|lia].
  destruct x1 as [k2 p4]. inv_ok Hd. destruct x1 as [h2 p5]. injection Hd as _ _ <-.
  apply read_key_pos in Hx0. apply read_index_handle_pos in Hx; lia.
Qed.

Lemma index_loop_fuel {St} (f : bytes -> BlockHandle -> St -> St * outcome unit) fuel data rs k last pos st :
  (forall k v st, (f k v st).2 <> OutOfFuel) -> 0 <= pos -> (Z.to_nat (len data - pos) <= fuel)%nat ->
  (index_loop f fuel data rs k last pos st).2 <> OutOfFuel.
Proof.
  intros Hf. revert k last pos st. induction fuel as [|fuel IH]; intros k last pos st Hp Hl; cbn [index_loop];
    destruct (Z.ltb_spec pos (len data)); try done; [lia|].
  pose proof (read_index_entry_fuel data rs k last pos) as Hs.
  destruct (read_index_entry data rs k last pos) as [[[k' h] p']| | |] eqn:E; try done.
  apply read_index_entry_pos in E; [|done]. specialize (Hf k' h st).
  destruct (f k' h st) as [st' [| | |]]; try done. apply IH; lia.
Qed.

Lemma for_each_index_entry_fuel {St} (f : bytes -> BlockHandle -> St -> St * outcome unit) b st :
  block_ok b -> (forall k v st, (f k v st).2 <> OutOfFuel) -> (for_each_index_entry b f st).2 <> OutOfFuel.
Proof.
  intros Hb Hf. unfold for_each_index_entry. destruct (entries_data_total b Hb) as [data ->].
  apply index_loop_fuel; [done|lia|unfold len; lia].
Qed.

Lemma settled_index_range {A} (l : list A) a b : 0 <= a <= b -> b <= len l -> settled (index_range l a b).
Proof. intros Ha Hb. by destruct (index_range_is_Ok l a b Ha Hb) as (m & -> & _). Qed.

Lemma read_restarts_settled c off n :
  0 <= off -> off + 4 * Z.of_nat n <= len c -> settled (read_restarts c off n).
Proof.
  revert off. induction n as [|n IH]; intros off Ho Hl; [exact I|]. cbn [read_restarts].
  apply settled_bind; [apply settled_fmap, settled_index_range; lia|].
  intros r _. apply settled_bind; [apply IH; lia|]. done.
Qed.

Lemma parse_block_settled c : settled (parse_block c).
Proof.
  unfold parse_block. settle. apply settled_bind; [apply settled_fmap, settled_index_range; lia|].
  intros nr Hnr. apply fmap_Ok_inv in Hnr as (b & _ & ->). pose proof (from_le_bytes_range b) as Hb.
  settle. apply settled_bind; [apply read_restarts_settled; lia|done].
Qed.

Context `{ChecksumLib} `{CompressLib}.

Lemma split_prefix_settled data : settled (split_uncompressed_size_prefix data).
Proof.
  unfold split_uncompressed_size_prefix. destruct (get_varint64 data 0) as [o p] eqn:E. settle.
  match goal with Ho : ok_or _ _ = Ok _ |- _ => apply ok_or_inv in Ho as -> end. apply get_varint64_bounds in E; [|done].
  apply settled_bind; [apply settled_index_range; lia|done].
Qed.

(** Only uncompressed data is borrowed, and it is the input. *)
Lemma decompress_result ty data cow :
  decompress ty data = Ok cow -> match cow with Borrowed b => ty = NoCompression /\ b = data | Owned _ => ty <> NoCompression end.
Proof.
  destruct ty; cbn [decompress]; intros Hd; try done; [by injection Hd as <-|..].
  all: repeat (first [apply fmap_Ok_inv in Hd as (? & _ & ->) | apply bind_Ok_inv in Hd as ([? ?] & _ & Hd)]); done.
Qed.

Lemma decompress_settled ty data : settled (decompress ty data).
Proof.
  pose proof (split_prefix_settled data) as Hs.
  destruct ty; cbn [decompress]; try exact I; auto with settled.
  all: apply settled_bind; [done|intros [? ?] _; auto with settled].
Qed.

Lemma compression_from_byte_settled b : settled (compression_from_byte b).
Proof. unfold compression_from_byte. repeat case_match; exact I. Qed.

Lemma decode_block_contents_settled raw h ty base :
  0 <= h.(size) -> h.(size) + BLOCK_TRAILER_SIZE < 2 ^ 64 ->
  settled (decode_block_contents raw h ty base).
Proof.
  intros Hs Hl. destruct (decide (len raw = h.(size) + BLOCK_TRAILER_SIZE)) as [Hr|Hr].
  - destruct (block_fields raw h.(size)) as (data & cb & stored & -> & Hd & Hst); [done..|].
    rewrite decode_block_eq by (done || lia). settle.
    apply settled_bind; [apply compression_from_byte_settled|]. intros cty _.
    apply settled_bind; [apply decompress_settled|]. by intros [|] _.
  - unfold decode_block_contents, BLOCK_TRAILER_SIZE in *. rewrite add_u64_ok, bind_Ok by lia.
    replace (len raw =? _) with false by lia. exact I.
Qed.
End Total.

(** Callbacks that agree everywhere are visited alike. *)
Lemma for_each_entry_ext `{Profile} {St} (f g : bytes -> bytes -> St -> St * outcome unit) b st :
  (forall k v st, f k v st = g k v st) -> for_each_entry b f st = for_each_entry b g st.
Proof.
  intros Hfg. unfold for_each_entry. destruct (entries_data b) as [data| | |]; try done.
  generalize (length data) as fuel. intros fuel. generalize (@nil byte) as k. generalize 0 as pos. revert st.
  induction fuel as [|fuel IH]; intros st pos k; cbn [entry_loop]; [done|].
  case_match; [|done]. destruct (read_entry data k pos) as [[[k' v] p']| | |]; try done.
  rewrite Hfg. destruct (g k' v st) as [st' [| | |]]; try done; apply IH.
Qed.

(** When a block decodes, and to what. *)
Section DecodeIff.
Context `{ChecksumLib} `{CompressLib} `{Profile}.

(** What decodes has the length the handle asks for, trailer included. *)
Lemma decode_block_long raw h ty base c :
  decode_block_contents raw h ty base = Ok c ->
  add_u64 h.(size) BLOCK_TRAILER_SIZE = Ok (len raw) /\ 5 <= len raw.
Proof.
  unfold decode_block_contents. cbv zeta. intros Hd. inv_ok Hd.
  apply negb_false_iff, Z.eqb_eq in E. split; [by rewrite E|].
  apply fmap_Ok_inv in Hx3 as (y & Hy & _).
  apply index_range_len in Hx1, Hy. lia.
Qed.

Lemma decode_block_iff raw h ty base c :
  0 <= h.(size) -> h.(size) + BLOCK_TRAILER_SIZE < 2 ^ 64 ->
  decode_block_contents raw h ty base = Ok c <->
  exists data comp_byte stored compression,
    raw = data ++ [comp_byte] ++ stored /\ len data = h.(size) /\ len stored = 4 /\
    (ty <> NoChecksum ->
     from_le_bytes stored = as_u32 (compute_checksum_with_last_byte ty data comp_byte +
                                    checksum_modifier_for_context base h.(offset))) /\
    compression_from_byte (byte.unsigned comp_byte) = Ok compression /\
    match compression with
    | NoCompression => c = data
    | _ => decompress compression data = Ok (Owned c)
    end.
Proof.
  intros Hs Hl. split.
  - intros Hd. destruct (decide (len raw = h.(size) + BLOCK_TRAILER_SIZE)) as [Hr|Hr].
    + destruct (block_fields raw h.(size)) as (data & cb & stored & -> & Hdl & Hst); [done..|].
      rewrite decode_block_eq in Hd by (done || lia). cbv zeta in Hd. inv_ok Hd.
      exists data, cb, stored, x. split_and!; try done.
      * intros Hty. rewrite bool_decide_false in E by done. cbn [negb andb] in E.
        by apply negb_false_iff, Z.eqb_eq in E.
      * pose proof (decompress_result _ _ _ Hx0) as Hres. destruct x0 as [v|v].
        -- destruct Hres as [-> _]. by injection Hd as <-.
        -- injection Hd as ->. by destruct x.
    + unfold decode_block_contents, BLOCK_TRAILER_SIZE in *. rewrite add_u64_ok, bind_Ok in Hd by lia.
      by replace (len raw =? _) with false in Hd by lia.
  - intros (data & cb & stored & cty & -> & Hdl & Hst & Hck & Hc & Hdec).
    rewrite decode_block_eq by (done || lia). cbv zeta. rewrite Hc.
    replace (negb _ && negb _) with false.
    + rewrite bind_Ok. destruct cty; try (rewrite Hdec, bind_Ok; done). by rewrite Hdec.
    + symmetry. apply andb_false_iff. destruct (decide (ty = NoChecksum)) as [->|Hty]; [by left|right].
      by rewrite Hck, Z.eqb_refl by done.
Qed.
End DecodeIff.

(** ** Properties *)

Section BlockProperties.
Context `{ChecksumLib} `{CompressLib} `{Profile}.

(** A block written with its trailer decodes to its contents: the reader
    accepts the checksum the writer computed, for every checksum type,
    context checksum and file offset. *)
Theorem block_trailer_roundtrip raw off ty base :
  len raw + BLOCK_TRAILER_SIZE < 2 ^ 64 ->
  len (encode_block_with_trailer raw off ty base) = len raw + BLOCK_TRAILER_SIZE /\
  decode_block_contents (encode_block_with_trailer raw off ty base)
    {| offset := off; size := len raw |} ty base = Ok raw.
Proof. split; [apply len_encode_block|by apply decode_encode_block]. Qed.

(** C33: Exactly which bytes decode, and to what: those that are the handle's
    number of bytes followed by a type byte and a checksum, where - unless
    checksums are disabled - the stored checksum is the one computed from
    those bytes and the block's place in the file, the type byte is a known
    compression and the decompressor for it succeeds; the result is what it
    returned, for an uncompressed block the very bytes. *)
Theorem decode_block_exact raw h ty base c :
  0 <= h.(size) -> h.(size) + BLOCK_TRAILER_SIZE < 2 ^ 64 ->
  decode_block_contents raw h ty base = Ok c <->
  exists data comp_byte stored compression,
    raw = data ++ [comp_byte] ++ stored /\ len data = h.(size) /\ len stored = 4 /\
    (ty <> NoChecksum ->
     from_le_bytes stored = as_u32 (compute_checksum_with_last_byte ty data comp_byte +
                                    checksum_modifier_for_context base h.(offset))) /\
    compression_from_byte (byte.unsigned comp_byte) = Ok compression /\
    match compression with
    | NoCompression => c = data
    | _ => decompress compression data = Ok (Owned c)
    end.
Proof. apply decode_block_iff. Qed.

(** Walking untrusted bytes is safe: parsing any bytes as a block returns
    a block or an error, and on a block that parsed both visitors come to an
    end - the position moves forward every round - with the data visitor
    never panicking of itself. *)
Theorem block_walk_total {St St'} (f : bytes -> bytes -> St -> St * outcome unit)
    (g : bytes -> BlockHandle -> St' -> St' * outcome unit) c st st' :
  (forall k v st, settled (f k v st).2) -> (forall k h st, settled (g k h st).2) ->
  settled (parse_block c) /\
  (forall b, parse_block c = Ok b ->
    settled (for_each_entry b f st).2 /\ (for_each_index_entry b g st').2 <> OutOfFuel).
Proof.
  intros Hf Hg. split; [apply parse_block_settled|]. intros b Hb%parse_block_block_ok.
  split; [by apply for_each_entry_settled|]. apply for_each_index_entry_fuel; [done|].
  intros k h s. specialize (Hg k h s). intros E. by rewrite E in Hg.
Qed.
End BlockProperties.

(** A library that decompresses nothing. *)
#[export] Instance no_compression_lib : CompressLib | 100 := {|
  snap_decompress_vec _ := inl (Msg "unsupported" []);
  lz4_decompress _ _ := inl (Msg "unsupported" []);
  zstd_decompress _ _ := inl (Msg "unsupported" [])
|}.

Definition toy_block : bytes := byte.of_Z <$> [0; 1; 1; 107; 118; 0; 0; 0; 0; 1; 0; 0; 0].
Definition toy_block_handle : BlockHandle := {| offset := 64; size := 13 |}.

Lemma block_trailer_roundtrip_witness :
  decode_block_contents (H1 := true) (encode_block_with_trailer toy_block 64 XxH3 1)
    toy_block_handle XxH3 1 = Ok toy_block.
Proof. apply (block_trailer_roundtrip (H1 := true) toy_block 64 XxH3 1). reflexivity. Defined.

Lemma decode_block_exact_witness :
  exists data comp_byte stored compression,
    encode_block_with_trailer toy_block 64 XxH3 1 = data ++ [comp_byte] ++ stored /\ len data = 13 /\
    compression_from_byte (byte.unsigned comp_byte) = Ok compression.
Proof.
  destruct (proj1 (decode_block_exact (H1 := true) (encode_block_with_trailer toy_block 64 XxH3 1)
    toy_block_handle XxH3 1 toy_block ltac:(vm_compute; discriminate) ltac:(reflexivity)))
    as (data & cb & stored & cty & He & Hl & _ & _ & Hc & _); [vm_compute; reflexivity|].
  exists data, cb, stored, cty. split; [exact He|split; [exact Hl|exact Hc]].
Defined.

Lemma block_walk_total_witness :
  settled (parse_block toy_block) /\
  (forall b, parse_block toy_block = Ok b ->
    settled (for_each_entry (H := true) b collect []).2 /\
    (for_each_index_entry (H := true) b collect []).2 <> OutOfFuel).
Proof.
  apply (block_walk_total (H1 := true) collect collect toy_block [] []); intros; exact I.
Defined.
