(* ===== verification/BlockBuilders.v ===== *)
(** Block building of [format/block_builder.rs]: data blocks with shared-prefix
    delta encoding and restart points, index blocks of handles, and the proof
    that the visitors of [format/block.rs] read back what was added. *)

From S2P Require Import Prelude Varint Checksum Footer Block.

Definition DEFAULT_RESTART_INTERVAL : Z := 16.

(** [a.iter().zip(b.iter()).take_while(|(x, y)| x == y).count()]. *)
Fixpoint shared_prefix_len (a b : bytes) : Z :=
  match a, b with
  | x :: a', y :: b' => if bool_decide (x = y) then 1 + shared_prefix_len a' b' else 0
  | _, _ => 0
  end.

(** The loop of both [finish] methods that writes the restart array. *)
Definition put_restarts (buffer : bytes) (restarts : list Z) : bytes :=
  foldl (fun buffer r => buffer ++ to_le_bytes 4 r) buffer restarts.

(** ** Data blocks *)

Module BlockBuilder.
Record BlockBuilder : Type := {
  restart_interval : Z;
  buffer : bytes;
  restarts : list Z;
  last_key : bytes;
  counter : Z;
  finished : bool
}.

Definition new (restart_interval : Z) : outcome BlockBuilder :=
  _ ← assert (1 <=? restart_interval);
  Ok {| restart_interval := restart_interval; buffer := []; restarts := [0];
        last_key := []; counter := 0; finished := false |}.

Definition is_empty (self : BlockBuilder) : bool := len self.(buffer) =? 0.

Definition current_size_estimate (self : BlockBuilder) : Z :=
  len self.(buffer) + len self.(restarts) * 4 + 4.

Definition add (self : BlockBuilder) (key value : bytes) : outcome BlockBuilder :=
  _ ← assert (negb self.(finished));
  _ ← assert (self.(counter) <=? self.(restart_interval));
  let shared :=
    if self.(restart_interval) <=? self.(counter) then 0
    else shared_prefix_len self.(last_key) key in
  let '(restarts, counter) :=
    if self.(restart_interval) <=? self.(counter)
    then (self.(restarts) ++ [as_u32 (len self.(buffer))], 0)
    else (self.(restarts), self.(counter)) in
  let non_shared := len key - shared in
  let buffer := put_varint32 self.(buffer) (as_u32 shared) in
  let buffer := put_varint32 buffer (as_u32 non_shared) in
  let buffer := put_varint32 buffer (as_u32 (len value)) in
  key_delta ← index_range key shared (len key);
  let buffer := buffer ++ key_delta in
  let buffer := buffer ++ value in
  Ok {| restart_interval := self.(restart_interval); buffer := buffer; restarts := restarts;
        last_key := key; counter := counter + 1; finished := self.(finished) |}.

(** Consumes the builder: the [finished] flag it sets is never read again. *)
Definition finish (self : BlockBuilder) : bytes :=
  let buffer := put_restarts self.(buffer) self.(restarts) in
  buffer ++ to_le_bytes 4 (as_u32 (len self.(restarts))).

(** A caller that adds entries one after the other. *)
Fixpoint add_all (self : BlockBuilder) (es : list entry) : outcome BlockBuilder :=
  match es with
  | [] => Ok self
  | e :: es' => self ← add self e.1 e.2; add_all self es'
  end.
End BlockBuilder.

(** ** Index blocks *)

Module IndexBlockBuilder.
Record IndexBlockBuilder : Type := {
  restart_interval : Z;
  buffer : bytes;
  restarts : list Z;
  last_key : bytes;
  last_handle : option BlockHandle;
  counter : Z
}.

Definition new (restart_interval : Z) : outcome IndexBlockBuilder :=
  _ ← assert (1 <=? restart_interval);
  Ok {| restart_interval := restart_interval; buffer := []; restarts := [0];
        last_key := []; last_handle := None; counter := 0 |}.

Definition is_empty (self : IndexBlockBuilder) : bool := len self.(buffer) =? 0.

Definition current_size_estimate (self : IndexBlockBuilder) : Z :=
  len self.(buffer) + len self.(restarts) * 4 + 4.

Definition add `{Profile} (self : IndexBlockBuilder) (key : bytes) (handle : BlockHandle) :
    outcome IndexBlockBuilder :=
  let at_restart := self.(restart_interval) <=? self.(counter) in
  let shared := if at_restart then 0 else shared_prefix_len self.(last_key) key in
  let '(restarts, counter) :=
    if at_restart then (self.(restarts) ++ [as_u32 (len self.(buffer))], 0)
    else (self.(restarts), self.(counter)) in
  let non_shared := len key - shared in
  let buffer := put_varint32 self.(buffer) (as_u32 shared) in
  let buffer := put_varint32 buffer (as_u32 non_shared) in
  key_delta ← index_range key shared (len key);
  let buffer := buffer ++ key_delta in
  buffer ←
    (if at_restart || (shared =? 0) then
       let buffer := put_varint64 buffer handle.(offset) in
       Ok (put_varint64 buffer handle.(size))
     else
       prev ← unwrap self.(last_handle);
       delta ← sub_i64 (as_i64 handle.(size)) (as_i64 prev.(size));
       Ok (put_varsigned64 buffer delta));
  Ok {| restart_interval := self.(restart_interval); buffer := buffer; restarts := restarts;
        last_key := key; last_handle := Some handle; counter := counter + 1 |}.

Definition finish (self : IndexBlockBuilder) : bytes :=
  let buffer := put_restarts self.(buffer) self.(restarts) in
  buffer ++ to_le_bytes 4 (as_u32 (len self.(restarts))).

Fixpoint add_all `{Profile} (self : IndexBlockBuilder) (es : list (bytes * BlockHandle)) :
    outcome IndexBlockBuilder :=
  match es with
  | [] => Ok self
  | e :: es' => self ← add self e.1 e.2; add_all self es'
  end.
End IndexBlockBuilder.

(** ** Shared prefixes and the restart array *)

Lemma shared_prefix_len_share a b : share (shared_prefix_len a b) a b.
Proof.
  revert b. induction a as [|x a IH]; intros [|y b]; unfold share; cbn [shared_prefix_len];
    try (split_and!; len_lia || done).
  case_bool_decide as Hxy; [|split_and!; len_lia || done].
  destruct (IH b) as ([Hs Ha] & Hb & Heq). subst y. split_and!; [len_lia..|].
  replace (Z.to_nat (1 + _)) with (S (Z.to_nat (shared_prefix_len a b))) by lia.
  cbn. by rewrite Heq.
Qed.

Lemma share_zero k key : share 0 k key.
Proof. unfold share. split_and!; [len_lia..|done]. Qed.

Lemma share_index shared k key :
  share shared k key -> index_range key shared (len key) = Ok (drop (Z.to_nat shared) key).
Proof.
  intros (Hs & Hk & _). rewrite <- (take_drop (Z.to_nat shared) key) at 1.
  apply index_range_suffix; len_lia.
Qed.

Lemma share_u32 shared k key :
  share shared k key -> u32 (len key) ->
  as_u32 shared = shared /\ as_u32 (len key - shared) = len key - shared.
Proof. unfold u32. intros (Hs & Hk & _) Hl. split; apply as_u32_small; lia. Qed.

Lemma put_restarts_eq buffer rs : put_restarts buffer rs = buffer ++ concat (to_le_bytes 4 <$> rs).
Proof.
  unfold put_restarts. revert buffer. induction rs as [|r rs IH]; intros buffer; [cbn; by rewrite app_nil_r|].
  cbn [foldl fmap list_fmap concat]. by rewrite IH, (assoc_L (++)).
Qed.

Lemma finish_eq buffer rs :
  len rs < 2 ^ 32 -> put_restarts buffer rs ++ to_le_bytes 4 (as_u32 (len rs)) = buffer ++ restart_trailer rs.
Proof.
  intros Hl. rewrite put_restarts_eq, as_u32_small by len_lia. unfold restart_trailer. reassoc.
Qed.

(** ** The data block builder *)

Section DataBuilder.
Import BlockBuilder.
Implicit Types (b : BlockBuilder) (es : list entry).

Definition small (e : entry) : Prop := u32 (len e.1) /\ u32 (len e.2).

(** [b] holds the entries [es].  Every restart point, one per interval, can be
    read from without knowing the key before it. *)
Record built b es : Prop := {
  built_interval : 1 <= b.(restart_interval);
  built_open : b.(finished) = false;
  built_counter : 0 <= b.(counter) <= b.(restart_interval);
  built_chain : entry_chain [] es b.(buffer) b.(last_key);
  built_count : len es = (len b.(restarts) - 1) * b.(restart_interval) + b.(counter);
  built_restarts i r : b.(restarts) !! i = Some r ->
    exists pre post, r = as_u32 (len pre) /\ b.(buffer) = pre ++ post /\
      Z.of_nat i * b.(restart_interval) <= len es /\
      entry_chain [] (drop (Z.to_nat (Z.of_nat i * b.(restart_interval))) es) post b.(last_key)
}.

Lemma new_built n : 1 <= n -> exists b, new n = Ok b /\ built b [] /\ b.(restart_interval) = n.
Proof.
  intros Hn. unfold new, assert. replace (1 <=? n) with true by lia. eexists. split; [reflexivity|].
  split; [|done]. constructor; cbn; try done; try lia; [constructor|].
  intros [|i] r Hi; [|by destruct i]. injection Hi as <-.
  exists [], []. split_and!; [done..|cbn; len_lia|]. cbn. constructor.
Qed.

Lemma new_panics n : n < 1 -> new n = Panic.
Proof. intros. unfold new, assert. by replace (1 <=? n) with false by lia. Qed.

Definition add_shared b (key : bytes) : Z :=
  if b.(restart_interval) <=? b.(counter) then 0 else shared_prefix_len b.(last_key) key.
Lemma add_shared_share b key : share (add_shared b key) b.(last_key) key.
Proof. unfold add_shared. case_match; [apply share_zero|apply shared_prefix_len_share]. Qed.

Lemma add_eq b es key value :
  built b es -> small (key, value) ->
  exists b', add b key value = Ok b' /\
    b'.(buffer) = b.(buffer) ++ entry_bytes (add_shared b key) key value /\
    b'.(last_key) = key /\ b'.(restart_interval) = b.(restart_interval) /\ b'.(finished) = false /\
    if b.(restart_interval) <=? b.(counter)
    then b'.(restarts) = b.(restarts) ++ [as_u32 (len b.(buffer))] /\ b'.(counter) = 1
    else b'.(restarts) = b.(restarts) /\ b'.(counter) = b.(counter) + 1.
Proof.
  intros Hb [Hk Hv]. cbn [fst snd] in *. pose proof (add_shared_share b key) as Hsh.
  destruct (share_u32 _ _ _ Hsh Hk) as [Hs1 Hs2].
  unfold add, assert. rewrite (built_open _ _ Hb). pose proof (built_counter _ _ Hb).
  replace (b.(counter) <=? _) with true by lia. cbn [negb]. rewrite !bind_Ok. cbv zeta.
  fold (add_shared b key). rewrite Hs1, Hs2, (as_u32_small (len value)) by exact Hv.
  rewrite (share_index _ _ _ Hsh). destruct (b.(restart_interval) <=? b.(counter)); rewrite bind_Ok;
    (eexists; split; [reflexivity|]; cbn [buffer last_key restart_interval finished restarts counter]; rewrite !put_varint32_app; split_and!; try done; reassoc).
Qed.

Lemma add_built b es key value :
  built b es -> small (key, value) ->
  exists b', add b key value = Ok b' /\ built b' (es ++ [(key, value)]) /\
    b'.(restart_interval) = b.(restart_interval) /\ b'.(buffer) <> [].
Proof.
  intros Hb He. destruct (add_eq b es key value Hb He) as (b' & Hadd & Hbuf & Hlk & Hri & Hfin & Hrs).
  exists b'. split; [done|]. pose proof Hb as [Hi Ho Hc Hch Hn Hr]. destruct He as [Hk Hv].
  cbn [fst snd] in *. pose proof (add_shared_share b key) as Hsh.
  assert (forall i r, b.(restarts) !! i = Some r -> exists pre post, r = as_u32 (len pre) /\
      b'.(buffer) = pre ++ post /\ Z.of_nat i * b'.(restart_interval) <= len (es ++ [(key, value)]) /\
      entry_chain [] (drop (Z.to_nat (Z.of_nat i * b'.(restart_interval))) (es ++ [(key, value)]))
        post b'.(last_key)) as Hold.
  { intros i r (pre & post & -> & Hpp & Hle & Hpost)%Hr. rewrite Hri, Hbuf, Hpp, Hlk.
    exists pre, (post ++ entry_bytes (add_shared b key) key value).
    split_and!; [done|by rewrite (assoc_L (++))|len_lia|].
    rewrite drop_app_le by (unfold len in Hle; lia). by apply entry_chain_snoc with b.(last_key). }
  split; [|split; [done|]].
  2:{ rewrite Hbuf. intros E. apply (f_equal len) in E.
      destruct Hsh as (Hs & Hsk & _).
      pose proof (entry_bytes_pos (add_shared b key) key value ltac:(unfold u32 in *; lia)). len_lia. }
  constructor; rewrite ?Hri; try done.
  - destruct (Z.leb_spec b.(restart_interval) b.(counter)); destruct Hrs as [_ ->]; lia.
  - rewrite Hbuf, Hlk. by apply entry_chain_snoc with b.(last_key).
  - destruct (Z.leb_spec b.(restart_interval) b.(counter)); destruct Hrs as [-> ->]; len_lia.
  - rewrite Hri in Hold. destruct (Z.leb_spec b.(restart_interval) b.(counter)) as [Hge|]; destruct Hrs as [-> _]; [|done].
    intros i r [Hl|[Hge' Hr']]%lookup_app_Some; [by eapply Hold|].
    destruct (i - length b.(restarts))%nat as [|j] eqn:Ej; [|by destruct j]. injection Hr' as <-.
    assert (Z.of_nat i * b.(restart_interval) = len es) as Hie by (unfold len in *; nia).
    exists b.(buffer), (entry_bytes (add_shared b key) key value).
    split_and!; [done..|len_lia|]. rewrite Hie. unfold len. rewrite Nat2Z.id, drop_app_length, Hlk.
    unfold add_shared. replace (b.(restart_interval) <=? b.(counter)) with true by lia.
    apply (entry_chain_snoc [] [] [] []); [constructor|apply share_zero|done|done].
Qed.

Lemma add_all_built b es fs :
  built b es -> Forall small fs ->
  exists b', add_all b fs = Ok b' /\ built b' (es ++ fs) /\ b'.(restart_interval) = b.(restart_interval).
Proof.
  intros Hb Hfs. revert b es Hb. induction Hfs as [|[k v] fs He Hfs IH]; intros b es Hb.
  { exists b. by rewrite app_nil_r. }
  cbn [add_all fst snd]. destruct (add_built b es k v Hb He) as (b1 & -> & Hb1 & Hi1 & _).
  rewrite bind_Ok. destruct (IH b1 _ Hb1) as (b2 & -> & Hb2 & Hi2).
  exists b2. rewrite <- (assoc_L (++)) in Hb2. split_and!; [done|done|congruence].
Qed.

(** How large a block of given entries can get. *)
Definition block_weight es : Z := foldr (fun e n => len e.1 + len e.2 + 15 + n) 0 es.

Lemma block_weight_nonneg es : 0 <= block_weight es.
Proof. induction es as [|e es IH]; cbn; [done|]. fold (block_weight es). len_lia. Qed.

Lemma block_weight_small es : Forall small es -> block_weight es <= len es * (2 ^ 33 + 15).
Proof.
  induction 1 as [|e es [Hk Hv] _ IH]; [done|]. unfold u32 in *. cbn [block_weight foldr].
  fold (block_weight es). len_lia.
Qed.

Lemma entry_chain_len k es bs k' : entry_chain k es bs k' -> len es <= len bs <= block_weight es.
Proof.
  induction 1 as [k|k s x v es bs k' Hs Hx Hv _ IH]; [done|]. destruct Hs as (Hs & Hsx & _).
  unfold u32 in *. unfold entry_bytes. cbn [block_weight foldr fst snd]. fold (block_weight es).
  pose proof (varint_len_u32 s ltac:(lia)). pose proof (varint_len_u32 (len x - s) ltac:(lia)).
  pose proof (varint_len_u32 (len v) ltac:(lia)). len_lia.
Qed.

Lemma built_restarts_u32 b es : built b es -> Forall u32 b.(restarts).
Proof.
  intros Hb. apply Forall_lookup. intros i r Hi.
  destruct (built_restarts _ _ Hb i r Hi) as (pre & _ & -> & _). apply as_u32_range.
Qed.

Lemma built_restarts_len b es : built b es -> len b.(restarts) <= len es + 1.
Proof.
  intros [Hi _ Hc _ Hn _]. assert (0 <= len es) by apply len_nonneg.
  destruct (Z.le_gt_cases (len b.(restarts)) 1); [lia|]. nia.
Qed.

(** The size estimate is exact. *)
Lemma len_finish b : len b.(restarts) < 2 ^ 32 -> len (finish b) = current_size_estimate b.
Proof. intros. unfold finish. rewrite finish_eq by done. unfold restart_trailer, current_size_estimate. len_lia. Qed.

Definition parsed b : ParsedBlock :=
  {| Block.contents := b.(buffer) ++ restart_trailer b.(restarts); Block.restarts := b.(restarts) |}.

Lemma built_finish b es :
  built b es -> len b.(restarts) < 2 ^ 32 -> parse_block (finish b) = Ok (parsed b).
Proof.
  intros Hb Hl. unfold finish. rewrite finish_eq by done. apply parse_block_ok; [|done].
  by eapply built_restarts_u32.
Qed.

Lemma built_visit `{Profile} {St} (f : bytes -> bytes -> St -> St * outcome unit) b es st :
  built b es -> for_each_entry (parsed b) f st = visit_entries f es st.
Proof. intros Hb. eapply for_each_entry_ok, built_chain, Hb. Qed.
End DataBuilder.

(** ** The index block builder *)

Section IndexBuilder.
Import IndexBlockBuilder.
Context `{Profile}.
Implicit Types (b : IndexBlockBuilder) (hs : list (bytes * BlockHandle)).

Lemma index_bytes_pos shared key value : u32 shared -> 1 <= len (index_bytes shared key value).
Proof. intros Hs. unfold index_bytes. pose proof (varint_len_u32 _ Hs). len_lia. Qed.

Lemma share_u32_shared shared k key : share shared k key -> u32 (len key) -> u32 shared.
Proof. unfold u32. intros (? & ? & _) ?. lia. Qed.

(** A restart point behind the entries does not change how they decode. *)
Lemma index_chain_restart rs p k last hs bs k' last' q :
  index_chain rs p k last hs bs k' last' -> p + len bs <= q ->
  index_chain (rs ++ [q]) p k last hs bs k' last'.
Proof.
  induction 1 as [|p k last shared key h value hs bs k' last' Hsh Hk Hh He _ IH]; intros Hq; [constructor|].
  pose proof (index_bytes_pos shared key value (share_u32_shared _ _ _ Hsh Hk)).
  constructor; try done; [|apply IH; len_lia].
  rewrite (bool_decide_ext (p ∈ rs ++ [q]) (p ∈ rs)); [done|].
  rewrite elem_of_app, list_elem_of_singleton. split; [|by left]. intros [?| ->]; [done|len_lia].
Qed.

Lemma index_chain_snoc rs p k last hs bs k' last' shared key h value :
  index_chain rs p k last hs bs k' last' -> share shared k' key -> u32 (len key) -> handle_ok h ->
  handle_enc last' h (bool_decide (p + len bs ∈ rs) || (shared =? 0)) value ->
  index_chain rs p k last (hs ++ [(key, h)]) (bs ++ index_bytes shared key value) key (Some h).
Proof.
  induction 1 as [p k last|p k last s key' h' value' hs bs k' last' Hsh Hk Hh He _ IH]; intros Hs Hkey Hho Henc.
  - rewrite len_nil, Z.add_0_r in Henc. rewrite <- (app_nil_r (index_bytes _ _ _)).
    apply (ichain_cons _ _ _ _ _ _ _ _ [] []); [done..|constructor].
  - rewrite <- (assoc_L (++)). cbn. apply ichain_cons; [done..|]. apply IH; [done..|].
    by rewrite len_app, Z.add_assoc in Henc.
Qed.

(** [b] holds the handles [hs]; every restart point but the first lies on an
    entry already written. *)
Record ibuilt b hs : Prop := {
  ibuilt_interval : 1 <= b.(restart_interval);
  ibuilt_counter : 0 <= b.(counter);
  ibuilt_chain : index_chain b.(restarts) 0 [] None hs b.(buffer) b.(last_key) b.(last_handle);
  ibuilt_restarts : Forall (fun r => 0 <= r < len b.(buffer) \/ (r = 0 /\ hs = [])) b.(restarts);
  ibuilt_last : b.(last_handle) = snd <$> last hs;
  ibuilt_last_key : b.(last_key) = default [] (fst <$> last hs);
  ibuilt_len : len b.(restarts) <= len hs + 1
}.

Lemma inew_built n : 1 <= n -> exists b, new n = Ok b /\ ibuilt b [].
Proof.
  intros Hn. unfold new, assert. replace (1 <=? n) with true by lia. eexists. split; [reflexivity|].
  constructor; cbn; try done; [constructor|]. constructor; [by right|constructor].
Qed.

(** [h] comes right after the handle added last. *)
Definition next_handle b (h : BlockHandle) : Prop :=
  forall prev, b.(last_handle) = Some prev -> handle_ok prev /\ follows prev h.

(** The value [add] writes, as the encoding the reader expects there. *)
Definition put_index_value (buf : bytes) (full : bool) (last : option BlockHandle) (h : BlockHandle) :
    outcome bytes :=
  if full then
    let buf := put_varint64 buf h.(offset) in
    Ok (put_varint64 buf h.(size))
  else
    prev ← unwrap last;
    delta ← sub_i64 (as_i64 h.(size)) (as_i64 prev.(size));
    Ok (put_varsigned64 buf delta).

Lemma put_index_value_ok full last h :
  (full = false -> exists prev, last = Some prev /\ handle_ok prev /\ follows prev h) -> handle_ok h ->
  exists value, handle_enc last h full value /\
    forall buf, put_index_value buf full last h = Ok (buf ++ value).
Proof.
  intros Hd [Ho Hs]. destruct full.
  - exists (full_handle h). split; [constructor|]. intros buf. cbn [put_index_value]. rewrite !put_varint64_app.
    unfold full_handle. f_equal. reassoc.
  - destruct (Hd eq_refl) as (prev & -> & [Hpo Hps] & Hf). exists (delta_handle prev h).
    split; [by constructor|]. destruct Hf as (_ & Hps' & Hhs). intros buf. cbn [put_index_value unwrap].
    rewrite bind_Ok, !as_i64_id by lia. unfold sub_i64, arith.
    replace (in_i64 _) with true by (unfold in_i64; lia).
    rewrite bind_Ok. unfold put_varsigned64. by rewrite put_varint64_app.
Qed.

Lemma index_bytes_len shared k key h last full value :
  share shared k key -> u32 (len key) -> handle_ok h -> handle_enc last h full value ->
  len (index_bytes shared key value) <= len key + 30.
Proof.
  unfold u32. intros (Hs & Hsk & _) Hk [Ho Hsz] He.
  pose proof (varint_len_u32 shared ltac:(lia)). pose proof (varint_len_u32 (len key - shared) ltac:(lia)).
  assert (len value <= 20).
  { destruct He as [|prev _ _ _]; unfold full_handle, delta_handle.
    - pose proof (varint_len _ Ho). pose proof (varint_len _ Hsz). len_lia.
    - pose proof (varint_len _ (zigzag_range (h.(size) - prev.(size)))). lia. }
  unfold index_bytes. len_lia.
Qed.

Lemma iadd_built b hs key h :
  ibuilt b hs -> u32 (len key) -> handle_ok h -> next_handle b h -> len b.(buffer) < 2 ^ 32 ->
  exists b', add b key h = Ok b' /\ ibuilt b' (hs ++ [(key, h)]) /\ b'.(last_handle) = Some h /\
    b'.(restart_interval) = b.(restart_interval) /\
    len b.(buffer) < len b'.(buffer) <= len b.(buffer) + len key + 30.
Proof.
  intros [Hi Hc Hch Hrs Hlast Hlk Hlen] Hk Hh Hnext Hbuf. unfold add. cbv zeta.
  set (at_restart := b.(restart_interval) <=? b.(counter)).
  set (shared := if at_restart then 0 else shared_prefix_len b.(last_key) key).
  set (rs := if at_restart then b.(restarts) ++ [len b.(buffer)] else b.(restarts)).
  assert (share shared b.(last_key) key) as Hsh
    by (unfold shared; destruct at_restart; [apply share_zero|apply shared_prefix_len_share]).
  destruct (share_u32 _ _ _ Hsh Hk) as [Hs1 Hs2].
  rewrite (as_u32_small (len b.(buffer))) by len_lia.
  replace (if at_restart then _ else (b.(restarts), b.(counter)))
    with (rs, if at_restart then 0 else b.(counter)) by (unfold rs; by destruct at_restart).
  rewrite Hs1, Hs2, (share_index _ _ _ Hsh), bind_Ok.
  assert (at_restart || (shared =? 0) = bool_decide (0 + len b.(buffer) ∈ rs) || (shared =? 0)) as Hfull.
  { unfold rs. destruct at_restart; cbn [orb].
    - rewrite bool_decide_true; [done|]. apply elem_of_app. right. by apply list_elem_of_singleton.
    - case_bool_decide as Hin; [|done]. rewrite Forall_forall in Hrs. apply Hrs in Hin as [?|[_ ->]]; [lia|].
      cbn in Hlk. destruct Hsh as (Hs & _). rewrite Hlk in Hs. unfold len in Hs. cbn in Hs. lia. }
  destruct (put_index_value_ok (at_restart || (shared =? 0)) b.(last_handle) h) as (value & Henc & Hput); [|done|].
  { intros Hf. destruct (last hs) as [[k0 prev]|] eqn:El; cbn in Hlast, Hlk.
    - exists prev. split; [done|]. by apply Hnext.
    - apply orb_false_iff in Hf as [_ Hf]. destruct Hsh as (Hs & _). rewrite Hlk in Hs. unfold len in Hs. cbn in Hs. lia. }
  fold (put_index_value (put_varint32 (put_varint32 b.(buffer) shared) (len key - shared) ++
          drop (Z.to_nat shared) key) (at_restart || (shared =? 0)) b.(last_handle) h).
  rewrite Hput, bind_Ok. eexists. split; [reflexivity|]. rewrite Hfull in Henc.
  assert (index_chain rs 0 [] None hs b.(buffer) b.(last_key) b.(last_handle)) as Hch'.
  { unfold rs. destruct at_restart; [|done]. apply index_chain_restart; [done|lia]. }
  pose proof (index_chain_snoc _ _ _ _ _ _ _ _ _ _ _ _ Hch' Hsh Hk Hh Henc) as Hch2.
  pose proof (index_bytes_pos shared key value (share_u32_shared _ _ _ Hsh Hk)) as Hpos.
  rewrite !put_varint32_app. rewrite <- !(assoc_L (++)). fold (index_bytes shared key value).
  cbn [restart_interval buffer last_handle]. split; [|split; [done|split; [done|]]].
  2:{ pose proof (index_bytes_len _ _ _ _ _ _ _ Hsh Hk Hh Henc). len_lia. }
  constructor; cbn [restart_interval counter restarts buffer last_key last_handle];
    rewrite ?last_snoc; try done.
  - destruct at_restart; lia.
  - apply Forall_forall. intros r Hr. left. rewrite Forall_forall in Hrs.
    unfold rs in Hr. destruct at_restart; [apply elem_of_app in Hr as [Hr|Hr]|].
    2:{ apply list_elem_of_singleton in Hr as ->. len_lia. }
    all: apply Hrs in Hr as [?|[-> _]]; len_lia.
  - unfold rs. destruct at_restart; len_lia.
Qed.

(** Handles of blocks that lie one after the other, the first after [last]. *)
Fixpoint consecutive (last : option BlockHandle) (hs : list (bytes * BlockHandle)) : Prop :=
  match hs with
  | [] => True
  | e :: hs' => (forall prev, last = Some prev -> handle_ok prev /\ follows prev e.2) /\
                consecutive (Some e.2) hs'
  end.

Definition index_entry_ok (e : bytes * BlockHandle) : Prop := u32 (len e.1) /\ handle_ok e.2.
Definition index_weight (hs : list (bytes * BlockHandle)) : Z :=
  foldr (fun e n => len e.1 + 30 + n) 0 hs.

Lemma index_weight_ge hs : len hs * 30 <= index_weight hs.
Proof. induction hs as [|e hs IH]; cbn; [done|]. fold (index_weight hs). len_lia. Qed.

Lemma iadd_all_built b hs fs :
  ibuilt b hs -> Forall index_entry_ok fs -> consecutive b.(last_handle) fs ->
  len b.(buffer) + index_weight fs < 2 ^ 32 ->
  exists b', add_all b fs = Ok b' /\ ibuilt b' (hs ++ fs) /\ len b'.(buffer) < 2 ^ 32.
Proof.
  intros Hb Hfs. revert b hs Hb. induction Hfs as [|[k h] fs [Hk Hh] Hfs IH]; intros b hs Hb Hc Hw.
  { exists b. rewrite app_nil_r. cbn in Hw. split_and!; [done|done|lia]. }
  destruct Hc as [Hn Hc]. cbn [add_all fst snd index_weight foldr] in *. fold (index_weight fs) in Hw.
  pose proof (index_weight_ge fs). assert (0 <= len fs) by apply len_nonneg.
  destruct (iadd_built b hs k h Hb Hk Hh Hn) as (b1 & -> & Hb1 & Hl1 & _ & Hlen); [len_lia|].
  rewrite bind_Ok. destruct (IH b1 _ Hb1) as (b2 & -> & Hb2 & Hlen2); [by rewrite Hl1|lia|].
  exists b2. by rewrite <- (assoc_L (++)) in Hb2.
Qed.

Lemma ilen_finish b : len b.(restarts) < 2 ^ 32 -> len (finish b) = current_size_estimate b.
Proof. intros. unfold finish. rewrite finish_eq by done. unfold restart_trailer, current_size_estimate. len_lia. Qed.

Definition iparsed b : ParsedBlock :=
  {| Block.contents := b.(buffer) ++ restart_trailer b.(restarts); Block.restarts := b.(restarts) |}.

Lemma ibuilt_finish b hs :
  ibuilt b hs -> len b.(restarts) < 2 ^ 32 -> len b.(buffer) <= 2 ^ 32 -> parse_block (finish b) = Ok (iparsed b).
Proof.
  intros Hb Hl Hbuf. unfold finish. rewrite finish_eq by done. apply parse_block_ok; [|done].
  eapply Forall_impl; [apply Hb|]. intros r [?|[-> _]]; unfold u32; lia.
Qed.

Lemma ibuilt_visit {St} (f : bytes -> BlockHandle -> St -> St * outcome unit) b hs st :
  ibuilt b hs -> for_each_index_entry (iparsed b) f st = visit_entries f hs st.
Proof. intros Hb. eapply for_each_index_entry_ok, ibuilt_chain, Hb. Qed.
End IndexBuilder.

(** ** Properties *)

Section BuilderProperties.
Context `{Profile}.

(** C30: A data block round-trips: adding entries to a builder with any restart
    interval never panics, the finished block has exactly the estimated
    size, it parses, and the visitor reads back the very entries added. *)
Theorem data_block_roundtrip n es :
  1 <= n -> Forall small es -> len es < 2 ^ 32 - 1 ->
  exists b pb,
    (b ← BlockBuilder.new n; BlockBuilder.add_all b es) = Ok b /\
    len (BlockBuilder.finish b) = BlockBuilder.current_size_estimate b /\
    parse_block (BlockBuilder.finish b) = Ok pb /\
    for_each_entry pb collect [] = (es, Ok tt).
Proof.
  intros Hn Hes Hl. destruct (new_built n Hn) as (b0 & Hnew & Hb0 & _).
  destruct (add_all_built b0 [] es Hb0 Hes) as (b & Hadd & Hb & _). cbn [app] in Hb.
  pose proof (built_restarts_len b es Hb). exists b, (parsed b).
  rewrite Hnew, bind_Ok, (built_finish b es), (built_visit collect b es), visit_entries_collect by (done || lia).
  split_and!; [done|apply len_finish; lia|done..].
Qed.

(** Every restart point of a block below 4 GiB can be sought to: decoding
    from the [i]-th recorded offset with no preceding key yields exactly the
    entries from number [i * interval] on. *)
Theorem data_block_restarts n es b i r :
  1 <= n -> Forall small es ->
  (b ← BlockBuilder.new n; BlockBuilder.add_all b es) = Ok b ->
  len b.(BlockBuilder.buffer) < 2 ^ 32 ->
  b.(BlockBuilder.restarts) !! i = Some r ->
  entry_loop collect (length b.(BlockBuilder.buffer)) b.(BlockBuilder.buffer) [] r [] =
    (drop (Z.to_nat (Z.of_nat i * n)) es, Ok tt).
Proof.
  intros Hn Hes Hadd Hl Hi. destruct (new_built n Hn) as (b0 & Hnew & Hb0 & Hint).
  destruct (add_all_built b0 [] es Hb0 Hes) as (b' & Hadd' & Hb & Hint'). cbn [app] in Hb.
  rewrite Hnew, bind_Ok, Hadd' in Hadd. injection Hadd as ->.
  destruct (built_restarts b es Hb i r Hi) as (pre & post & -> & Hpp & _ & Hch).
  rewrite as_u32_small by (rewrite Hpp in Hl; len_lia).
  rewrite Hint', Hint in Hch. rewrite Hpp.
  erewrite entry_loop_chain by (done || (rewrite length_app; lia)).
  apply visit_entries_collect.
Qed.

(** C31: An index block of consecutive data blocks round-trips for every restart
    interval: full handles at restart points and zigzag size deltas between
    them decode to the handles added, with their keys. *)
Theorem index_block_roundtrip n hs :
  1 <= n -> Forall index_entry_ok hs -> consecutive None hs -> index_weight hs < 2 ^ 32 ->
  exists b pb,
    (b ← IndexBlockBuilder.new n; IndexBlockBuilder.add_all b hs) = Ok b /\
    parse_block (IndexBlockBuilder.finish b) = Ok pb /\
    for_each_index_entry pb collect [] = (hs, Ok tt).
Proof.
  intros Hn Hhs Hc Hw. destruct (inew_built n Hn) as (b0 & Hnew & Hb0).
  assert (b0.(IndexBlockBuilder.last_handle) = None /\ b0.(IndexBlockBuilder.buffer) = []) as [Hl0 Hbuf0].
  { unfold IndexBlockBuilder.new, assert in Hnew. inv_ok Hnew. by injection Hnew as <-. }
  destruct (iadd_all_built b0 [] hs Hb0 Hhs) as (b & Hadd & Hb & Hbuf); [by rewrite Hl0|by rewrite Hbuf0|].
  cbn [app] in Hb. pose proof (index_weight_ge hs).
  pose proof (ibuilt_len b hs Hb). exists b, (iparsed b).
  rewrite Hnew, bind_Ok, (ibuilt_finish b hs), (ibuilt_visit collect b hs), visit_entries_collect
    by (done || lia). done.
Qed.
End BuilderProperties.

Definition toy_entries : list entry :=
  [(str "apple", str "1"); (str "applesauce", str "2"); (str "apply", []); (str "banana", str "4");
   (str "band", str "five")].
Definition toy_handles : list (bytes * BlockHandle) :=
  [(str "apple", {| offset := 0; size := 4100 |}); (str "apply", {| offset := 4105; size := 4090 |});
   (str "band", {| offset := 8200; size := 12 |})].

Lemma data_block_roundtrip_witness :
  exists b pb,
    (b ← BlockBuilder.new 2; BlockBuilder.add_all b toy_entries) = Ok b /\
    len (BlockBuilder.finish b) = BlockBuilder.current_size_estimate b /\
    parse_block (BlockBuilder.finish b) = Ok pb /\
    for_each_entry (H := true) pb collect [] = (toy_entries, Ok tt).
Proof.
  apply (data_block_roundtrip (H := true) 2 toy_entries); [lia| |reflexivity].
  repeat constructor; vm_compute; discriminate || reflexivity.
Defined.

Definition toy_builder : BlockBuilder.BlockBuilder :=
  match b ← BlockBuilder.new 2; BlockBuilder.add_all b toy_entries with
  | Ok b => b
  | _ => {| BlockBuilder.restart_interval := 0; BlockBuilder.buffer := []; BlockBuilder.restarts := [];
            BlockBuilder.last_key := []; BlockBuilder.counter := 0; BlockBuilder.finished := true |}
  end.

(** The second restart point of [toy_builder] is at byte 18. *)
Lemma data_block_restarts_witness :
  entry_loop collect (length toy_builder.(BlockBuilder.buffer)) toy_builder.(BlockBuilder.buffer) [] 18 [] =
    (drop 2 toy_entries, Ok tt).
Proof.
  apply (data_block_restarts 2 toy_entries toy_builder 1 18); [lia| |reflexivity..].
  repeat constructor; vm_compute; discriminate || reflexivity.
Defined.

Lemma index_block_roundtrip_witness :
  exists b pb,
    (b ← IndexBlockBuilder.new 16; IndexBlockBuilder.add_all (H := true) b toy_handles) = Ok b /\
    parse_block (IndexBlockBuilder.finish b) = Ok pb /\
    for_each_index_entry (H := true) pb collect [] = (toy_handles, Ok tt).
Proof.
  apply (index_block_roundtrip (H := true) 16 toy_handles); [lia| | |reflexivity].
  - repeat constructor; vm_compute; discriminate || reflexivity.
  - repeat split; intros; simplify_eq/=; vm_compute; discriminate || reflexivity.
Defined.
