(* ===== verification/Properties.v ===== *)
(** Properties and metaindex blocks of [format/properties.rs]: sorted lists of
    named values written with the data block builder.  Names are the bytes of
    their strings. *)

From S2P Require Import Prelude Varint Checksum Footer Block BlockBuilders.

Definition PROPERTIES_BLOCK_NAME : bytes := str "rocksdb.properties".
Definition INDEX_BLOCK_NAME : bytes := str "rocksdb.index".

Definition KEY_INDEX_TYPE : bytes := str "rocksdb.block.based.table.index.type".
Definition KEY_NUM_ENTRIES : bytes := str "rocksdb.num.entries".
Definition KEY_RAW_KEY_SIZE : bytes := str "rocksdb.raw.key.size".
Definition KEY_RAW_VALUE_SIZE : bytes := str "rocksdb.raw.value.size".
Definition KEY_DATA_SIZE : bytes := str "rocksdb.data.size".
Definition KEY_INDEX_SIZE : bytes := str "rocksdb.index.size".
Definition KEY_INDEX_KEY_IS_USER_KEY : bytes := str "rocksdb.index.key.is.user.key".
Definition KEY_INDEX_VALUE_IS_DELTA_ENCODED : bytes := str "rocksdb.index.value.is.delta.encoded".
Definition KEY_COMPARATOR : bytes := str "rocksdb.comparator".
Definition KEY_COLUMN_FAMILY_ID : bytes := str "rocksdb.column.family.id".
Definition KEY_COLUMN_FAMILY_NAME : bytes := str "rocksdb.column.family.name".
Definition KEY_EXTERNAL_VERSION : bytes := str "rocksdb.external_sst_file.version".
Definition KEY_EXTERNAL_GLOBAL_SEQNO : bytes := str "rocksdb.external_sst_file.global_seqno".

Definition EXTERNAL_SST_VERSION : Z := 2.
Definition INDEX_TYPE_BINARY_SEARCH : Z := 0.
Definition BYTEWISE_COMPARATOR_NAME : bytes := str "leveldb.BytewiseComparator".

Record PropertiesInput : Type := {
  num_entries : Z;
  raw_key_size : Z;
  raw_value_size : Z;
  data_size : Z;
  index_size : Z;
  comparator_name : bytes;
  column_family_id : Z;
  column_family_name : bytes;
  external_sst_global_seqno : option Z
}.

Definition varint64_bytes (v : Z) : bytes := put_varint64 [] v.

(** The vector [build_properties_block] fills, in the order of its pushes. *)
Definition property_entries (props : PropertiesInput) : list entry :=
  let entries := [(KEY_INDEX_TYPE, to_le_bytes 4 INDEX_TYPE_BINARY_SEARCH)] in
  let entries := entries ++ [(KEY_NUM_ENTRIES, varint64_bytes props.(num_entries))] in
  let entries := entries ++ [(KEY_RAW_KEY_SIZE, varint64_bytes props.(raw_key_size))] in
  let entries := entries ++ [(KEY_RAW_VALUE_SIZE, varint64_bytes props.(raw_value_size))] in
  let entries := entries ++ [(KEY_DATA_SIZE, varint64_bytes props.(data_size))] in
  let entries := entries ++ [(KEY_INDEX_SIZE, varint64_bytes props.(index_size))] in
  let entries := entries ++ [(KEY_INDEX_KEY_IS_USER_KEY, varint64_bytes 0)] in
  let entries := entries ++ [(KEY_INDEX_VALUE_IS_DELTA_ENCODED, varint64_bytes 1)] in
  let entries :=
    if negb (len props.(comparator_name) =? 0)
    then entries ++ [(KEY_COMPARATOR, props.(comparator_name))] else entries in
  let entries := entries ++ [(KEY_COLUMN_FAMILY_ID, varint64_bytes props.(column_family_id))] in
  let entries :=
    if negb (len props.(column_family_name) =? 0)
    then entries ++ [(KEY_COLUMN_FAMILY_NAME, props.(column_family_name))] else entries in
  match props.(external_sst_global_seqno) with
  | Some global_seqno =>
      let entries := entries ++ [(KEY_EXTERNAL_VERSION, to_le_bytes 4 EXTERNAL_SST_VERSION)] in
      entries ++ [(KEY_EXTERNAL_GLOBAL_SEQNO, to_le_bytes 8 global_seqno)]
  | None => entries
  end.

Definition build_properties_block (props : PropertiesInput) : outcome bytes :=
  let entries := sort_by (on_key slice_cmp) (property_entries props) in
  builder ← BlockBuilder.new usize_MAX;
  builder ← BlockBuilder.add_all builder entries;
  Ok (BlockBuilder.finish builder).

Definition handle_value (handle : BlockHandle) : bytes :=
  let value := put_varint64 [] handle.(offset) in
  put_varint64 value handle.(size).

Definition build_metaindex_block (entries : list (bytes * BlockHandle)) : outcome bytes :=
  let sorted := sort_by (fun a b => slice_cmp a.1 b.1) entries in
  builder ← BlockBuilder.new 1;
  builder ← BlockBuilder.add_all builder (prod_map id handle_value <$> sorted);
  Ok (BlockBuilder.finish builder).

(** ** Blocks of named values *)

Section NamedBlocks.
Context `{Profile}.

(** Whatever is added to a builder in one go is read back. *)
Lemma build_block_ok n es :
  1 <= n -> Forall small es -> len es < 2 ^ 32 - 1 ->
  exists b, (b ← BlockBuilder.new n; BlockBuilder.add_all b es) = Ok b /\ built b es /\
    parse_block (BlockBuilder.finish b) = Ok (parsed b) /\ len b.(BlockBuilder.restarts) <= len es + 1.
Proof.
  intros Hn Hes Hl. destruct (new_built n Hn) as (b0 & Hnew & Hb0 & _).
  destruct (add_all_built b0 [] es Hb0 Hes) as (b & Hadd & Hb & _). cbn [app] in Hb.
  pose proof (built_restarts_len b es Hb). exists b. rewrite Hnew, bind_Ok.
  split_and!; [done|done|apply (built_finish b es); [done|lia]|done].
Qed.

(** Sorting distinct keys sorts them strictly. *)
Lemma sort_by_strict (es : list entry) :
  NoDup (fst <$> es) -> StronglySorted (clt (on_key slice_cmp)) (sort_by (on_key slice_cmp) es).
Proof.
  intros Hnd. rewrite <- (sort_by_perm (on_key slice_cmp)) in Hnd.
  exact (key_cmp_strict _ (sort_by_sorted (on_key slice_cmp) es) Hnd).
Qed.

Definition all_property_keys : list bytes :=
  [KEY_INDEX_TYPE; KEY_NUM_ENTRIES; KEY_RAW_KEY_SIZE; KEY_RAW_VALUE_SIZE; KEY_DATA_SIZE;
   KEY_INDEX_SIZE; KEY_INDEX_KEY_IS_USER_KEY; KEY_INDEX_VALUE_IS_DELTA_ENCODED; KEY_COMPARATOR;
   KEY_COLUMN_FAMILY_ID; KEY_COLUMN_FAMILY_NAME; KEY_EXTERNAL_VERSION; KEY_EXTERNAL_GLOBAL_SEQNO].

Lemma property_keys_sublist props : (fst <$> property_entries props) `sublist_of` all_property_keys.
Proof.
  unfold property_entries, all_property_keys. cbv zeta.
  destruct (negb (len (comparator_name _) =? 0)), (negb (len (column_family_name _) =? 0)),
    (external_sst_global_seqno props); cbn [app fmap list_fmap fst];
    repeat (apply sublist_nil || apply sublist_skip || apply sublist_cons).
Qed.

Lemma property_keys_NoDup props : NoDup (fst <$> property_entries props).
Proof.
  eapply sublist_NoDup; [|apply property_keys_sublist].
  apply (bool_decide_unpack (NoDup all_property_keys)). vm_compute. done.
Qed.

(** The names a builder is given fit their length fields. *)
Record props_ok (props : PropertiesInput) : Prop := {
  ok_comparator : u32 (len props.(comparator_name));
  ok_family_name : u32 (len props.(column_family_name));
  ok_entries : u64 props.(num_entries);
  ok_key_size : u64 props.(raw_key_size);
  ok_value_size : u64 props.(raw_value_size);
  ok_data_size : u64 props.(data_size);
  ok_index_size : u64 props.(index_size);
  ok_family_id : u64 props.(column_family_id)
}.

Lemma u32_fixed n z : Z.of_nat n < 2 ^ 32 -> u32 (len (to_le_bytes n z)).
Proof. intros. unfold u32. len_lia. Qed.
Lemma u32_varint v : u64 v -> u32 (len (varint64_bytes v)).
Proof. intros Hv. pose proof (varint_len v Hv) as Hl. unfold varint in Hl. unfold varint64_bytes, u32. lia. Qed.

Lemma property_values_u32 props : props_ok props -> Forall (fun e => u32 (len e.2)) (property_entries props).
Proof.
  intros []. unfold property_entries. cbv zeta.
  repeat first [apply Forall_app; split | case_match]; repeat apply Forall_cons_2; try apply Forall_nil_2;
    cbn [snd]; first [assumption | apply u32_varint; first [assumption|split; done] | by apply u32_fixed].
Qed.

Lemma property_entries_small props : props_ok props -> Forall small (property_entries props).
Proof.
  intros Hp. pose proof (property_values_u32 props Hp) as Hv.
  assert (Forall (fun k => u32 (len k)) (fst <$> property_entries props)) as Hk.
  { eapply Forall_sublist; [apply property_keys_sublist|]. repeat constructor; discriminate. }
  rewrite Forall_fmap in Hk. apply Forall_and. split; [exact Hk|exact Hv].
Qed.

(** The properties block holds the sorted properties. *)
Lemma properties_block_ok props :
  props_ok props ->
  exists raw pb, build_properties_block props = Ok raw /\ parse_block raw = Ok pb /\ len raw < 2 ^ 40 /\
    forall St (f : bytes -> bytes -> St -> St * outcome unit) st,
      for_each_entry pb f st = visit_entries f (sort_by (on_key slice_cmp) (property_entries props)) st.
Proof.
  intros Hp. set (es := sort_by _ _).
  assert (es ≡ₚ property_entries props) as Hperm by apply sort_by_perm.
  assert (len es <= 13) as Hl.
  { unfold len. rewrite Hperm. pose proof (sublist_length _ _ (property_keys_sublist props)) as Hl.
    rewrite length_fmap in Hl. cbn [length all_property_keys] in Hl. lia. }
  assert (Forall small es) as Hsm by (rewrite Hperm; by apply property_entries_small).
  destruct (build_block_ok usize_MAX es) as (b & Hadd & Hb & Hparse & Hrs); [done|done|lia|].
  exists (BlockBuilder.finish b), (parsed b). split; [|split; [done|split]].
  - unfold build_properties_block. fold es. apply bind_Ok_inv in Hadd as (b0 & -> & Hadd).
    by rewrite bind_Ok, Hadd.
  - pose proof (entry_chain_len _ _ _ _ (built_chain _ _ Hb)). pose proof (block_weight_small es Hsm).
    rewrite len_finish by lia. unfold BlockBuilder.current_size_estimate. lia.
  - intros St f st. by apply built_visit.
Qed.

(** The metaindex block maps names to handles. *)
Definition metaindex_entries (entries : list (bytes * BlockHandle)) : list entry :=
  prod_map id handle_value <$> sort_by (fun a b => slice_cmp a.1 b.1) entries.

Lemma len_handle_value h : handle_ok h -> 0 <= len (handle_value h) <= 20.
Proof.
  intros [Ho Hs]. unfold handle_value. cbv zeta. rewrite put_varint64_app.
  pose proof (varint_len _ Ho). pose proof (varint_len _ Hs). fold (varint h.(offset)). len_lia.
Qed.

Definition metaindex_ok (entries : list (bytes * BlockHandle)) : Prop :=
  Forall (fun e => u32 (len e.1) /\ handle_ok e.2) entries /\ len entries < 2 ^ 32 - 1.

Lemma metaindex_block_ok entries :
  metaindex_ok entries ->
  exists raw pb, build_metaindex_block entries = Ok raw /\ parse_block raw = Ok pb /\
    len raw <= block_weight (metaindex_entries entries) + 4 * len entries + 8 /\
    forall St (f : bytes -> bytes -> St -> St * outcome unit) st,
      for_each_entry pb f st = visit_entries f (metaindex_entries entries) st.
Proof.
  intros [He Hl]. set (es := metaindex_entries entries).
  assert (len es = len entries) as Hles.
  { unfold es, metaindex_entries. rewrite len_fmap. unfold len. by rewrite sort_by_perm. }
  destruct (build_block_ok 1 es) as (b & Hadd & Hb & Hparse & Hrs); [done| |lia|].
  { unfold es, metaindex_entries. rewrite sort_by_perm. apply Forall_fmap. eapply Forall_impl; [exact He|].
    intros [k h] [Hk Hh]. split; [exact Hk|]. pose proof (len_handle_value h Hh). unfold u32. cbn [prod_map snd]. lia. }
  exists (BlockBuilder.finish b), (parsed b). split_and!; [|done| |].
  - unfold build_metaindex_block. cbv zeta. fold (metaindex_entries entries) es.
    apply bind_Ok_inv in Hadd as (b0 & -> & Hadd). by rewrite bind_Ok, Hadd.
  - pose proof (entry_chain_len _ _ _ _ (built_chain _ _ Hb)).
    rewrite len_finish by lia. unfold BlockBuilder.current_size_estimate. lia.
  - intros St f st. by apply built_visit.
Qed.

(** Reading a handle value back. *)
Lemma decode_handle_value h : handle_ok h ->
  exists p, get_varint64 (handle_value h) 0 = (Some h.(offset), p) /\
    (get_varint64 (handle_value h) p).1 = Some h.(size).
Proof.
  intros [Ho Hs]. exists (0 + len (varint h.(offset))). unfold handle_value. cbv zeta.
  rewrite put_varint64_app. fold (varint h.(offset)). split.
  - by apply (get_varint64_at _ 0 _ [] (varint h.(size))).
  - rewrite (get_varint64_at _ _ h.(size) (varint h.(offset)) []); [done|by rewrite app_nil_r|lia|done].
Qed.
End NamedBlocks.

(** ** Properties *)

Section PropertyProperties.
Context `{Profile}.

(** The properties block round-trips: whatever the inputs, it builds
    without panicking, parses, and lists exactly the recorded properties in
    strictly increasing name order, among them the index type and the
    delta-encoding flag the table reader requires. *)
Theorem properties_roundtrip props :
  props_ok props ->
  exists raw pb es,
    build_properties_block props = Ok raw /\ parse_block raw = Ok pb /\
    for_each_entry pb collect [] = (es, Ok tt) /\
    es ≡ₚ property_entries props /\ StronglySorted (clt (on_key slice_cmp)) es /\
    (KEY_INDEX_TYPE, to_le_bytes 4 INDEX_TYPE_BINARY_SEARCH) ∈ es /\
    (KEY_INDEX_VALUE_IS_DELTA_ENCODED, varint64_bytes 1) ∈ es.
Proof.
  intros Hp. destruct (properties_block_ok props Hp) as (raw & pb & Hb & Hpb & _ & Hv).
  exists raw, pb, (sort_by (on_key slice_cmp) (property_entries props)).
  rewrite Hv, visit_entries_collect. split_and!; try done; [apply sort_by_perm| |..].
  - apply sort_by_strict, property_keys_NoDup.
  - rewrite sort_by_perm. unfold property_entries. cbv zeta. repeat case_match; set_solver.
  - rewrite sort_by_perm. unfold property_entries. cbv zeta. repeat case_match; set_solver.
Qed.
End PropertyProperties.

Definition toy_props : PropertiesInput := {|
  num_entries := 3; raw_key_size := 30; raw_value_size := 12; data_size := 99; index_size := 40;
  comparator_name := BYTEWISE_COMPARATOR_NAME; column_family_id := 0;
  column_family_name := str "default"; external_sst_global_seqno := Some 0
|}.

Lemma properties_roundtrip_witness :
  exists raw pb es,
    build_properties_block toy_props = Ok raw /\ parse_block raw = Ok pb /\
    for_each_entry (H := true) pb collect [] = (es, Ok tt) /\ es ≡ₚ property_entries toy_props.
Proof.
  destruct (properties_roundtrip (H := true) toy_props) as (raw & pb & es & ? & ? & ? & ? & _).
  - split; vm_compute; split; discriminate || reflexivity.
  - exists raw, pb, es. auto.
Defined.
