(* ===== verification/SstBuilder.v ===== *)
(** SST assembly of [format/sst_builder.rs]: sorted entries in, a complete
    block-based table out - data blocks, index block, properties block,
    metaindex block, footer - and the proof that every part can be found and
    decoded again. *)

From S2P Require Import Prelude Varint InternalKey Checksum Footer Block BlockBuilders Properties.

Definition DATA_BLOCK_RESTART_INTERVAL : Z := 16.
Definition INDEX_BLOCK_RESTART_INTERVAL : Z := 1.
Definition TARGET_BLOCK_SIZE : Z := 4096.
Definition FORMAT_VERSION : Z := 7.

Module SstBuilderOptions.
Record SstBuilderOptions : Type := {
  checksum_type : ChecksumType;
  comparator_name : bytes;
  column_family_id : Z;
  column_family_name : bytes;
  base_context_checksum : Z;
  external_sst_global_seqno : option Z
}.

Definition default : SstBuilderOptions :=
  {| checksum_type := XxH3;
     comparator_name := BYTEWISE_COMPARATOR_NAME;
     column_family_id := 0;
     column_family_name := str "default";
     base_context_checksum := 0x1;
     external_sst_global_seqno := None |}.
End SstBuilderOptions.
Abbreviation SstBuilderOptions := SstBuilderOptions.SstBuilderOptions.

(** The local variables of [build_sst] that its loop updates. *)
Record BuildState : Type := {
  bs_file : bytes;
  bs_index_builder : IndexBlockBuilder.IndexBlockBuilder;
  bs_raw_key_size : Z;
  bs_raw_value_size : Z;
  bs_block_builder : BlockBuilder.BlockBuilder;
  bs_pending_last_key : option bytes
}.

Section BuildSst.
Context `{ChecksumLib} `{Profile}.

Definition zero_out_seqno (internal_key : bytes) : outcome bytes :=
  let k := internal_key in
  let n := len k in
  at_suffix ← sub_u64 n 8;
  packed ← from_le_bytes <$> index_range k at_suffix n;
  let value_type := Z.land packed 0xff in
  copy_from_slice k at_suffix n (to_le_bytes 8 value_type).

(** [rewritten]: in external mode every key gets sequence number zero. *)
Definition rewrite_entries (opts : SstBuilderOptions) (entries : list entry) : outcome (list entry) :=
  match opts.(SstBuilderOptions.external_sst_global_seqno) with
  | Some _ => mapM (fun '(k, v) => k ← zero_out_seqno k; Ok (k, v)) entries
  | None => Ok entries
  end.

(** The closure [flush_data_block]. *)
Definition flush_data_block (opts : SstBuilderOptions) (file : bytes)
    (index_builder : IndexBlockBuilder.IndexBlockBuilder) (block_builder : BlockBuilder.BlockBuilder)
    (last_key : bytes) : outcome (bytes * IndexBlockBuilder.IndexBlockBuilder) :=
  if BlockBuilder.is_empty block_builder then Ok (file, index_builder)
  else
    let raw := BlockBuilder.finish block_builder in
    let offset := len file in
    let uncompressed_size := len raw in
    let with_trailer :=
      encode_block_with_trailer raw offset opts.(SstBuilderOptions.checksum_type)
        opts.(SstBuilderOptions.base_context_checksum) in
    let handle := {| offset := offset; size := uncompressed_size |} in
    let file := file ++ with_trailer in
    index_builder ← IndexBlockBuilder.add index_builder last_key handle;
    Ok (file, index_builder).

(** The body of the loop over the entries. *)
Definition build_entry (opts : SstBuilderOptions) (st : BuildState) (e : entry) : outcome BuildState :=
  let '(key, value) := e in
  raw_key_size ← add_u64 st.(bs_raw_key_size) (len key);
  raw_value_size ← add_u64 st.(bs_raw_value_size) (len value);
  block_builder ← BlockBuilder.add st.(bs_block_builder) key value;
  let pending_last_key := Some key in
  if TARGET_BLOCK_SIZE <=? BlockBuilder.current_size_estimate block_builder then
    last_key ← unwrap pending_last_key;
    let finished := block_builder in
    block_builder ← BlockBuilder.new DATA_BLOCK_RESTART_INTERVAL;
    '(file, index_builder) ←
      flush_data_block opts st.(bs_file) st.(bs_index_builder) finished last_key;
    Ok {| bs_file := file; bs_index_builder := index_builder; bs_raw_key_size := raw_key_size;
          bs_raw_value_size := raw_value_size; bs_block_builder := block_builder;
          bs_pending_last_key := None |}
  else
    Ok {| bs_file := st.(bs_file); bs_index_builder := st.(bs_index_builder);
          bs_raw_key_size := raw_key_size; bs_raw_value_size := raw_value_size;
          bs_block_builder := block_builder; bs_pending_last_key := pending_last_key |}.

Fixpoint build_entries (opts : SstBuilderOptions) (st : BuildState) (entries : list entry) :
    outcome BuildState :=
  match entries with
  | [] => Ok st
  | e :: entries => st ← build_entry opts st e; build_entries opts st entries
  end.

(** Appending a block to the file, and its handle. *)
Definition append_block (opts : SstBuilderOptions) (file raw : bytes) : bytes * BlockHandle :=
  let offset := len file in
  let uncompressed_size := len raw in
  let with_trailer :=
    encode_block_with_trailer raw offset opts.(SstBuilderOptions.checksum_type)
      opts.(SstBuilderOptions.base_context_checksum) in
  (file ++ with_trailer, {| offset := offset; size := uncompressed_size |}).

(** [build_sst] from the index block on. *)
Definition finish_sst (opts : SstBuilderOptions) (entries : list entry) (raw_key_size raw_value_size : Z)
    (file : bytes) (index_builder : IndexBlockBuilder.IndexBlockBuilder) : outcome bytes :=
  let data_size := len file in
  (* Index block. *)
  let index_raw := IndexBlockBuilder.finish index_builder in
  let '(file, index_handle) := append_block opts file index_raw in
  (* Properties block. *)
  let props_input :=
    {| num_entries := len entries;
       raw_key_size := raw_key_size;
       raw_value_size := raw_value_size;
       data_size := data_size;
       index_size := index_handle.(size);
       comparator_name := opts.(SstBuilderOptions.comparator_name);
       column_family_id := opts.(SstBuilderOptions.column_family_id);
       column_family_name := opts.(SstBuilderOptions.column_family_name);
       external_sst_global_seqno := opts.(SstBuilderOptions.external_sst_global_seqno) |} in
  props_raw ← build_properties_block props_input;
  let '(file, props_handle) := append_block opts file props_raw in
  (* Metaindex block. *)
  metaindex_raw ←
    build_metaindex_block [(PROPERTIES_BLOCK_NAME, props_handle); (INDEX_BLOCK_NAME, index_handle)];
  let '(file, metaindex_handle) := append_block opts file metaindex_raw in
  (* Footer. *)
  let footer_offset := len file in
  footer_bytes ←
    encode_footer_v6_plus FORMAT_VERSION opts.(SstBuilderOptions.checksum_type) metaindex_handle
      opts.(SstBuilderOptions.base_context_checksum) footer_offset;
  Ok (file ++ footer_bytes).

Definition build_sst (entries : list entry) (opts : SstBuilderOptions) : outcome bytes :=
  entries ← rewrite_entries opts entries;
  index_builder ← IndexBlockBuilder.new INDEX_BLOCK_RESTART_INTERVAL;
  block_builder ← BlockBuilder.new DATA_BLOCK_RESTART_INTERVAL;
  st ← build_entries opts
    {| bs_file := []; bs_index_builder := index_builder; bs_raw_key_size := 0;
       bs_raw_value_size := 0; bs_block_builder := block_builder; bs_pending_last_key := None |}
    entries;
  '(file, index_builder) ←
    match st.(bs_pending_last_key) with
    | Some last_key =>
        flush_data_block opts st.(bs_file) st.(bs_index_builder) st.(bs_block_builder) last_key
    | None => Ok (st.(bs_file), st.(bs_index_builder))
    end;
  finish_sst opts entries st.(bs_raw_key_size) st.(bs_raw_value_size) file index_builder.
End BuildSst.

(** ** What a table file holds *)

Section Layout.
Context `{ChecksumLib} `{Profile}.

(** The bytes of block [raw] with its trailer are at handle [h]. *)
Definition block_at (ty : ChecksumType) (base : Z) (file : bytes) (h : BlockHandle) (raw : bytes) : Prop :=
  get_range file h.(offset) (h.(offset) + h.(size) + BLOCK_TRAILER_SIZE) =
    Some (encode_block_with_trailer raw h.(offset) ty base) /\
  h.(size) = len raw /\ handle_ok h.

(** Handle [h] leads to a block of the entries [es]. *)
Definition entry_block ty base file h (es : list entry) : Prop :=
  exists raw pb, block_at ty base file h raw /\ parse_block raw = Ok pb /\
    forall St (f : bytes -> bytes -> St -> St * outcome unit) st,
      for_each_entry pb f st = visit_entries f es st.

Definition index_block ty base file h (hs : list (bytes * BlockHandle)) : Prop :=
  exists raw pb, block_at ty base file h raw /\ parse_block raw = Ok pb /\
    forall St (f : bytes -> BlockHandle -> St -> St * outcome unit) st,
      for_each_index_entry pb f st = visit_entries f hs st.

(** An index entry and the data block it leads to: the separator is the last
    key of a non-empty block. *)
Definition data_block ty base file (kh : bytes * BlockHandle) (es : list entry) : Prop :=
  entry_block ty base file kh.2 es /\ (fst <$> last es) = Some kh.1.

(** Blocks one after the other, with their trailers, from [a] to [b]. *)
Fixpoint tiles (a : Z) (hs : list BlockHandle) (b : Z) : Prop :=
  match hs with
  | [] => a = b
  | h :: hs => h.(offset) = a /\ tiles (a + h.(size) + BLOCK_TRAILER_SIZE) hs b
  end.

(** What leads to the data blocks: the footer, the metaindex at the handle it
    gives, and the index, which lists the handles [hs] with their separators. *)
Record sst_frame (file : bytes) (ft : Footer) (ih ph : BlockHandle) (hs : list (bytes * BlockHandle)) : Prop := {
  frame_size : FOOTER_TAIL_LEN <= len file < 2 ^ 63;
  frame_footer : exists tail,
    get_range file (len file - FOOTER_TAIL_LEN) (len file) = Some tail /\
    decode_footer tail (len file) = Ok ft;
  frame_no_index : ft.(index_handle) = None;
  frame_meta : entry_block ft.(checksum_type) ft.(base_context_checksum) file ft.(metaindex_handle)
    [(INDEX_BLOCK_NAME, handle_value ih); (PROPERTIES_BLOCK_NAME, handle_value ph)];
  frame_index : index_block ft.(checksum_type) ft.(base_context_checksum) file ih hs;
  frame_props : handle_ok ph
}.

(** The whole file: nothing but its blocks and the footer. *)
Record sst_blocks (file : bytes) (es : list entry) (props : PropertiesInput) (ft : Footer)
    (ih ph : BlockHandle) (hs : list (bytes * BlockHandle)) (ess : list (list entry)) : Prop := {
  blocks_frame : sst_frame file ft ih ph hs;
  blocks_props : entry_block ft.(checksum_type) ft.(base_context_checksum) file ph
    (sort_by (on_key slice_cmp) (property_entries props));
  blocks_data : Forall2 (data_block ft.(checksum_type) ft.(base_context_checksum) file) hs ess;
  blocks_entries : concat ess = es;
  blocks_tiles : tiles 0 (hs.*2 ++ [ih; ph; ft.(metaindex_handle)]) (len file - FOOTER_TAIL_LEN)
}.

Definition sst_layout (file : bytes) (es : list entry) (props : PropertiesInput) (ft : Footer) : Prop :=
  exists ih ph hs ess, sst_blocks file es props ft ih ph hs ess.

Lemma layout_size file es props ft : sst_layout file es props ft -> FOOTER_TAIL_LEN <= len file < 2 ^ 63.
Proof. intros (ih & ph & hs & ess & [[Hs _ _ _ _ _] _ _ _ _]). exact Hs. Qed.

Lemma tiles_app a hs1 hs2 c : tiles a (hs1 ++ hs2) c <-> exists b, tiles a hs1 b /\ tiles b hs2 c.
Proof.
  revert a. induction hs1 as [|h hs1 IH]; intros a; cbn [app tiles].
  - split; [by exists a|]. by intros (b & <- & Ht).
  - rewrite IH. split; [intros (Ho & b & H1' & H2'); by exists b|]. intros (b & (Ho & H1') & H2'). split; [done|by exists b].
Qed.

Lemma tiles_snoc a hs b h :
  tiles a hs b -> h.(offset) = b -> tiles a (hs ++ [h]) (b + h.(size) + BLOCK_TRAILER_SIZE).
Proof. intros Ht Ho. apply tiles_app. exists b. by split. Qed.

Lemma tiles_bounds a hs b h :
  tiles a hs b -> Forall handle_ok hs -> h ∈ hs ->
  a <= h.(offset) /\ h.(offset) + h.(size) + BLOCK_TRAILER_SIZE <= b.
Proof.
  intros Ht Hok. revert a Ht. induction Hok as [|h' hs [_ Hs] Hok IH]; intros a Ht Hin; [by apply elem_of_nil in Hin|].
  assert (forall c l, Forall handle_ok l -> tiles c l b -> c <= b) as Hle.
  { clear. intros c l Hl. revert c. induction Hl as [|x l [_ Hx] _ IHl]; intros c; cbn; [lia|].
    intros [_ Ht%IHl]. unfold BLOCK_TRAILER_SIZE in *. lia. }
  destruct Ht as [<- Ht]. pose proof (Hle _ _ Hok Ht). unfold BLOCK_TRAILER_SIZE in *.
  apply elem_of_cons in Hin as [->|Hin]; [lia|]. destruct (IH _ Ht Hin). lia.
Qed.

(** The blocks of a tiling do not overlap. *)
Lemma tiles_apart a hs1 h hs2 b h' :
  tiles a (hs1 ++ h :: hs2) b -> Forall handle_ok (hs1 ++ h :: hs2) -> h' ∈ hs1 ++ hs2 ->
  h'.(offset) + h'.(size) + BLOCK_TRAILER_SIZE <= h.(offset) \/
  h.(offset) + h.(size) + BLOCK_TRAILER_SIZE <= h'.(offset).
Proof.
  intros (c & Ht1 & <- & Ht2)%tiles_app [Hok1 [_ Hok2]%Forall_cons]%Forall_app [Hin|Hin]%elem_of_app.
  - left. by apply (tiles_bounds a hs1).
  - right. by destruct (tiles_bounds _ hs2 b h' Ht2 Hok2 Hin).
Qed.

Lemma block_at_extend ty base file rest h raw :
  block_at ty base file h raw -> block_at ty base (file ++ rest) h raw.
Proof. intros (Hg & Hs & Hh). split_and!; [by apply get_range_extend|done|done]. Qed.
Lemma entry_block_extend ty base file rest h es :
  entry_block ty base file h es -> entry_block ty base (file ++ rest) h es.
Proof. intros (raw & pb & Hb & Hp). exists raw, pb. split; [by apply block_at_extend|done]. Qed.
Lemma index_block_extend ty base file rest h hs :
  index_block ty base file h hs -> index_block ty base (file ++ rest) h hs.
Proof. intros (raw & pb & Hb & Hp). exists raw, pb. split; [by apply block_at_extend|done]. Qed.
Lemma data_blocks_extend ty base file rest hs ess :
  Forall2 (data_block ty base file) hs ess -> Forall2 (data_block ty base (file ++ rest)) hs ess.
Proof.
  intros Hf. eapply Forall2_impl; [exact Hf|]. intros kh es [Hb Hl]. split; [by apply entry_block_extend|done].
Qed.

(** [append_block] puts the block where its handle says. *)
Lemma append_block_at opts file raw :
  len file + len raw < 2 ^ 63 ->
  let '(file', h) := append_block opts file raw in
  block_at opts.(SstBuilderOptions.checksum_type) opts.(SstBuilderOptions.base_context_checksum) file' h raw /\
  h = {| offset := len file; size := len raw |} /\ len file' = len file + len raw + 5 /\
  exists rest, file' = file ++ rest.
Proof.
  intros Hl. unfold append_block. cbv zeta.
  assert (len (encode_block_with_trailer raw (len file) opts.(SstBuilderOptions.checksum_type)
    opts.(SstBuilderOptions.base_context_checksum)) = len raw + 5) as He by apply len_encode_block.
  split; [|split; [done|split; [len_lia|by eexists]]].
  split; [|split; [done|unfold handle_ok; cbn; len_lia]]. cbn [offset size]. apply get_range_suffix; [done|]. unfold BLOCK_TRAILER_SIZE. lia.
Qed.
End Layout.

(** ** The loop over the entries *)

Definition total_key_size (es : list entry) : Z := foldr (fun e n => len e.1 + n) 0 es.
Definition total_value_size (es : list entry) : Z := foldr (fun e n => len e.2 + n) 0 es.

(** An upper bound on the bytes a table of [es] spends on data and index: the
    key in its data block and as separator, the value, and the headers. *)
Definition sst_weight (es : list entry) : Z := foldr (fun e n => 2 * len e.1 + len e.2 + 66 + n) 0 es.

Lemma total_key_size_app es fs : total_key_size (es ++ fs) = total_key_size es + total_key_size fs.
Proof. induction es as [|e es IH]; cbn; [done|]. fold (total_key_size (es ++ fs)) (total_key_size es). lia. Qed.
Lemma total_value_size_app es fs : total_value_size (es ++ fs) = total_value_size es + total_value_size fs.
Proof. induction es as [|e es IH]; cbn; [done|]. fold (total_value_size (es ++ fs)) (total_value_size es). lia. Qed.
Lemma sst_weight_app es fs : sst_weight (es ++ fs) = sst_weight es + sst_weight fs.
Proof. induction es as [|e es IH]; cbn; [done|]. fold (sst_weight (es ++ fs)) (sst_weight es). lia. Qed.

Lemma sst_weight_ge es :
  sst_weight es = block_weight es + total_key_size es + 51 * len es /\ 0 <= total_key_size es <= sst_weight es /\
  0 <= total_value_size es <= sst_weight es.
Proof.
  induction es as [|e es (IH1 & IH2 & IH3)]; cbn; [done|].
  fold (sst_weight es) (block_weight es) (total_key_size es) (total_value_size es).
  len_lia.
Qed.

Lemma sst_weight_nonneg es : 0 <= sst_weight es.
Proof. pose proof (sst_weight_ge es). lia. Qed.

Section Loop.
Context `{ChecksumLib} `{Profile} (opts : SstBuilderOptions).
#[local] Abbreviation ty := opts.(SstBuilderOptions.checksum_type).
#[local] Abbreviation base := opts.(SstBuilderOptions.base_context_checksum).

(** [file] and [ib] hold the data blocks [ess] and their index. *)
Record flushed (file : bytes) (ib : IndexBlockBuilder.IndexBlockBuilder)
    (hs : list (bytes * BlockHandle)) (ess : list (list entry)) : Prop := {
  flushed_index : ibuilt ib hs;
  flushed_interval : ib.(IndexBlockBuilder.restart_interval) = 1;
  flushed_blocks : Forall2 (data_block ty base file) hs ess;
  flushed_next : forall h, ib.(IndexBlockBuilder.last_handle) = Some h ->
    handle_ok h /\ h.(size) < 2 ^ 62 /\ len file = h.(offset) + h.(size) + BLOCK_TRAILER_SIZE;
  flushed_tiles : tiles 0 hs.*2 (len file);
  flushed_len : len file + len ib.(IndexBlockBuilder.buffer) + 4 * len hs <= sst_weight (concat ess);
  flushed_count : len hs <= len (concat ess)
}.

Lemma flush_ok file ib hs ess b es k :
  flushed file ib hs ess -> built b es -> (fst <$> last es) = Some k -> u32 (len k) ->
  len b.(BlockBuilder.restarts) < 2 ^ 32 -> sst_weight (concat ess) + sst_weight es < 2 ^ 32 ->
  exists file' ib' h,
    flush_data_block opts file ib b k = Ok (file', ib') /\
    flushed file' ib' (hs ++ [(k, h)]) (ess ++ [es]).
Proof.
  intros Hf Hb Hlast Hk Hrs Hw. destruct Hf as [Hib Hint Hblk Hnext Htile Hlen Hcnt].
  pose proof (entry_chain_len _ _ _ _ (built_chain _ _ Hb)) as Hcl.
  pose proof (built_restarts_len _ _ Hb) as Hrl. pose proof (sst_weight_ge es) as (Hwe & Hks & _).
  assert (1 <= len es) as Hne.
  { destruct es; [done|]. len_lia. }
  pose proof (len_finish b Hrs) as Hfin. unfold BlockBuilder.current_size_estimate in Hfin.
  unfold flush_data_block, BlockBuilder.is_empty.
  replace (len b.(BlockBuilder.buffer) =? 0) with false by lia. cbv zeta.
  pose proof (append_block_at opts file (BlockBuilder.finish b)) as Hat.
  unfold append_block in Hat. cbv zeta in Hat.
  destruct Hat as (Hat & _ & Hfl & rest & Hrest); [len_lia|].
  set (h := {| offset := len file; size := len (BlockBuilder.finish b) |}) in *.
  set (file' := file ++ _) in *.
  destruct (iadd_built ib hs k h) as (ib' & -> & Hib' & Hl' & Hint' & Hbl'); try done.
  - unfold handle_ok, h. cbn. len_lia.
  - intros prev Hp. destruct (Hnext prev Hp) as (Hpo & Hps & Heq). split; [done|].
    unfold follows, h. cbn. split_and!; [done|lia|len_lia].
  - len_lia.
  - rewrite bind_Ok. exists file', ib', h. split; [done|].
    assert (len k <= total_key_size es) as Hkle.
    { apply fmap_Some in Hlast as (e & He & ->). apply last_Some in He as [es' ->].
      rewrite total_key_size_app. pose proof (sst_weight_ge es') as (_ & ? & _). cbn. lia. }
    constructor; try done.
    + congruence.
    + apply Forall2_app; [rewrite Hrest; by apply data_blocks_extend|].
      constructor; [|constructor]. split; [|done]. exists (BlockBuilder.finish b), (parsed b).
      split_and!; [exact Hat|by apply (built_finish b es)|intros; by apply built_visit].
    + intros h' Hh'. rewrite Hl' in Hh'. injection Hh' as <-.
      split_and!; [unfold handle_ok, h; cbn; len_lia|unfold h; cbn; len_lia|exact Hfl].
    + rewrite fmap_app, Hfl. replace 5 with BLOCK_TRAILER_SIZE by done. by apply (tiles_snoc _ _ _ h).
    + rewrite concat_app, sst_weight_app. cbn [concat]. rewrite app_nil_r.
      rewrite Hfl. len_lia.
    + rewrite concat_app. cbn [concat]. len_lia.
Qed.

(** The loop invariant: the entries seen are those flushed and those in the
    open block, which is below the target size. *)
Record looping (st : BuildState) (es : list entry) hs ess cur : Prop := {
  loop_flushed : flushed st.(bs_file) st.(bs_index_builder) hs ess;
  loop_open : built st.(bs_block_builder) cur;
  loop_size : BlockBuilder.current_size_estimate st.(bs_block_builder) < TARGET_BLOCK_SIZE;
  loop_entries : es = concat ess ++ cur;
  loop_pending : st.(bs_pending_last_key) = fst <$> last cur;
  loop_keys : st.(bs_raw_key_size) = total_key_size es;
  loop_values : st.(bs_raw_value_size) = total_value_size es
}.

Lemma new_data_builder :
  exists b, BlockBuilder.new DATA_BLOCK_RESTART_INTERVAL = Ok b /\ built b [] /\
    BlockBuilder.current_size_estimate b = 8.
Proof.
  destruct (new_built DATA_BLOCK_RESTART_INTERVAL) as (b & Hn & Hb & _); [done|].
  exists b. split_and!; [done..|]. unfold BlockBuilder.new, assert in Hn.
  by injection Hn as <-.
Qed.

Lemma open_small b cur :
  built b cur -> BlockBuilder.current_size_estimate b < TARGET_BLOCK_SIZE ->
  len b.(BlockBuilder.restarts) < 2 ^ 32 /\ len cur < TARGET_BLOCK_SIZE.
Proof.
  intros Hb Hs. unfold BlockBuilder.current_size_estimate, TARGET_BLOCK_SIZE in *.
  pose proof (entry_chain_len _ _ _ _ (built_chain _ _ Hb)). len_lia.
Qed.

Lemma build_entry_ok st es hs ess cur e :
  looping st es hs ess cur -> small e -> sst_weight (es ++ [e]) < 2 ^ 32 ->
  exists st' hs' ess' cur', build_entry opts st e = Ok st' /\ looping st' (es ++ [e]) hs' ess' cur'.
Proof.
  intros [Hf Hb Hs -> Hp Hks Hvs] He Hw. destruct e as [k v].
  pose proof (sst_weight_ge ((concat ess ++ cur) ++ [(k, v)])) as (_ & Hwk & Hwv).
  destruct (open_small _ _ Hb Hs) as [Hrs Hcur]. unfold TARGET_BLOCK_SIZE in Hcur.
  assert (forall xs, xs = (concat ess ++ cur) ++ [(k, v)] ->
    total_key_size xs = st.(bs_raw_key_size) + len k /\
    total_value_size xs = st.(bs_raw_value_size) + len v) as Htot.
  { intros xs ->. rewrite total_key_size_app, total_value_size_app, Hks, Hvs. cbn. lia. }
  destruct (Htot _ eq_refl) as [Hk' Hv'].
  unfold build_entry. rewrite (add_u64_ok st.(bs_raw_key_size)), bind_Ok, add_u64_ok, bind_Ok by lia.
  destruct (add_built _ _ k v Hb He) as (b' & -> & Hb' & _ & _). rewrite bind_Ok.
  destruct (Z.leb_spec TARGET_BLOCK_SIZE (BlockBuilder.current_size_estimate b')).
  - cbn [unwrap]. rewrite bind_Ok. destruct new_data_builder as (nb & -> & Hnb & Hns). rewrite bind_Ok.
    rewrite sst_weight_app, sst_weight_app in Hw.
    destruct (flush_ok _ _ _ _ b' (cur ++ [(k, v)]) k Hf Hb') as (file' & ib' & h & -> & Hf').
    + by rewrite last_snoc.
    + apply He.
    + pose proof (built_restarts_len _ _ Hb'). len_lia.
    + rewrite sst_weight_app. lia.
    + rewrite bind_Ok. do 4 eexists. split; [reflexivity|].
      constructor; cbn [bs_file bs_index_builder bs_block_builder bs_pending_last_key bs_raw_key_size bs_raw_value_size];
        [exact Hf'|exact Hnb|by rewrite Hns| |done|lia|lia].
      rewrite concat_app. cbn [concat]. rewrite !app_nil_r. by rewrite (assoc_L (++)).
  - do 4 eexists. split; [reflexivity|].
    constructor; cbn [bs_file bs_index_builder bs_block_builder bs_pending_last_key bs_raw_key_size bs_raw_value_size];
      [exact Hf|exact Hb'|done|by rewrite (assoc_L (++))|by rewrite last_snoc|lia|lia].
Qed.

Lemma build_entries_ok st es hs ess cur fs :
  looping st es hs ess cur -> Forall small fs -> sst_weight (es ++ fs) < 2 ^ 32 ->
  exists st' hs' ess' cur', build_entries opts st fs = Ok st' /\ looping st' (es ++ fs) hs' ess' cur'.
Proof.
  intros Hl Hfs. revert st es hs ess cur Hl. induction Hfs as [|e fs He Hfs IH]; intros st es hs ess cur Hl Hw.
  { rewrite app_nil_r. by exists st, hs, ess, cur. }
  cbn [build_entries]. rewrite cons_middle, (assoc_L (++)) in Hw |- *.
  pose proof (sst_weight_ge fs) as (Hwf & ? & _). pose proof (len_nonneg fs).
  pose proof (block_weight_nonneg fs).
  destruct (build_entry_ok st es hs ess cur e Hl He) as (st1 & hs1 & ess1 & cur1 & -> & Hl1).
  { rewrite sst_weight_app in Hw. lia. }
  rewrite bind_Ok. by apply (IH st1 (es ++ [e]) hs1 ess1 cur1).
Qed.

(** The loop and the last flush. *)
Lemma data_blocks_ok es :
  Forall small es -> sst_weight es < 2 ^ 32 ->
  exists ib bb st file ib' hs ess,
    IndexBlockBuilder.new INDEX_BLOCK_RESTART_INTERVAL = Ok ib /\
    BlockBuilder.new DATA_BLOCK_RESTART_INTERVAL = Ok bb /\
    build_entries opts
      {| bs_file := []; bs_index_builder := ib; bs_raw_key_size := 0; bs_raw_value_size := 0;
         bs_block_builder := bb; bs_pending_last_key := None |} es = Ok st /\
    match st.(bs_pending_last_key) with
    | Some last_key =>
        flush_data_block opts st.(bs_file) st.(bs_index_builder) st.(bs_block_builder) last_key
    | None => Ok (st.(bs_file), st.(bs_index_builder))
    end = Ok (file, ib') /\
    flushed file ib' hs ess /\ concat ess = es /\
    st.(bs_raw_key_size) = total_key_size es /\ st.(bs_raw_value_size) = total_value_size es.
Proof.
  intros Hes Hw. destruct (inew_built INDEX_BLOCK_RESTART_INTERVAL) as (ib & Hni & Hib); [done|].
  destruct new_data_builder as (bb & Hnb & Hbb & Hbs).
  assert (flushed [] ib [] []) as Hf0.
  { unfold IndexBlockBuilder.new, assert in Hni. injection Hni as <-. by constructor. }
  destruct (build_entries_ok
    {| bs_file := []; bs_index_builder := ib; bs_raw_key_size := 0; bs_raw_value_size := 0;
       bs_block_builder := bb; bs_pending_last_key := None |} [] [] [] [] es)
    as (st & hs & ess & cur & Hbuild & [Hf Hb Hs Hcat Hp Hks Hvs]); [|done|done|].
  { constructor; try done. cbn. by rewrite Hbs. }
  cbn [app] in *. exists ib, bb, st. rewrite Hp.
  destruct (last cur) as [[k v]|] eqn:El; cbn [fmap option_fmap option_map fst].
  - assert (small (k, v)) as [Hk _].
    { rewrite Forall_forall in Hes. apply Hes. rewrite Hcat. apply elem_of_app. right.
      apply last_Some in El as [cur' ->]. apply elem_of_app. right. by apply list_elem_of_singleton. }
    destruct (flush_ok _ _ _ _ st.(bs_block_builder) cur k Hf Hb) as (file & ib' & h & Hfl & Hf').
    + by rewrite El.
    + exact Hk.
    + by apply (open_small _ _ Hb Hs).
    + rewrite <- sst_weight_app, <- Hcat. done.
    + exists file, ib', (hs ++ [(k, h)]), (ess ++ [cur]). split_and!; try done.
      rewrite concat_app. cbn [concat]. by rewrite app_nil_r.
  - apply last_None in El as ->. exists st.(bs_file), st.(bs_index_builder), hs, ess.
    rewrite app_nil_r in Hcat. split_and!; done.
Qed.
End Loop.

(** ** The whole file *)

(** The key written for [k] in external mode: sequence number zero. *)
Definition zero_seq_key (k : bytes) : bytes := make_ikey (ikey_user k) (ikey_packed k mod 256).

(** The entries that end up in the table. *)
Definition table_entries (opts : SstBuilderOptions) (es : list entry) : list entry :=
  match opts.(SstBuilderOptions.external_sst_global_seqno) with
  | Some _ => prod_map zero_seq_key id <$> es
  | None => es
  end.

Section BuildSstLemmas.
Context `{ChecksumLib} `{Profile}.

Lemma zero_out_seqno_ok k : ikey_valid k -> zero_out_seqno k = Ok (zero_seq_key k).
Proof.
  intros Hk. unfold zero_out_seqno. cbv zeta. rewrite sub_u64_ok, bind_Ok by exact Hk.
  rewrite ikey_index_suffix, fmap_Ok, bind_Ok by done. fold (ikey_packed k).
  rewrite (Z.land_ones _ 8) by lia. rewrite (ikey_split_eq k) at 1.
  pose proof (ikey_user_len k Hk). pose proof (ikey_suffix_length k Hk) as Hl.
  rewrite <- (app_nil_r (drop _ _)) at 1.
  rewrite copy_from_slice_app; [by rewrite app_nil_r|lia|unfold len in *; lia|].
  rewrite len_to_le_bytes. unfold len. by rewrite Hl.
Qed.

Lemma rewrite_entries_ok opts es :
  (opts.(SstBuilderOptions.external_sst_global_seqno) <> None -> Forall (fun e => ikey_valid e.1) es) ->
  rewrite_entries opts es = Ok (table_entries opts es).
Proof.
  intros Hv. unfold rewrite_entries, table_entries. case_match; [|done].
  specialize (Hv ltac:(done)). induction Hv as [|[k v] es Hk _ IH]; [done|].
  cbn [mapM]. rewrite zero_out_seqno_ok by exact Hk. cbn [mbind outcome_bind]. by rewrite IH.
Qed.

Lemma len_zero_seq_key k : ikey_valid k -> len (zero_seq_key k) = len k.
Proof.
  intros Hk. unfold zero_seq_key, make_ikey. pose proof (ikey_user_len k Hk). len_lia.
Qed.

(** Rewriting keys keeps lengths, so what fits before fits after. *)
Lemma table_entries_sizes opts es :
  (opts.(SstBuilderOptions.external_sst_global_seqno) <> None -> Forall (fun e => ikey_valid e.1) es) ->
  sst_weight (table_entries opts es) = sst_weight es /\
  (Forall small es -> Forall small (table_entries opts es)).
Proof.
  intros Hv. unfold table_entries. case_match; [|done]. specialize (Hv ltac:(done)).
  induction Hv as [|[k v] es Hk _ [IHw IHs]]; [done|]. cbn [fst] in Hk.
  pose proof (len_zero_seq_key k Hk) as Hl. rewrite fmap_cons. change (prod_map zero_seq_key id (k, v)) with (zero_seq_key k, v).
  split.
  - cbn [sst_weight foldr fst snd]. fold (sst_weight (prod_map zero_seq_key id <$> es)) (sst_weight es).
    rewrite Hl. lia.
  - inversion 1 as [|? ? [He1 He2]]; subst. constructor; [|by apply IHs].
    split; cbn [fst snd] in *; [by rewrite Hl|done].
Qed.

(** Options whose names and numbers fit their fields. *)
Record opts_ok (opts : SstBuilderOptions) : Prop := {
  opts_comparator : u32 (len opts.(SstBuilderOptions.comparator_name));
  opts_family_name : u32 (len opts.(SstBuilderOptions.column_family_name));
  opts_family_id : u64 opts.(SstBuilderOptions.column_family_id);
  opts_base : u32 opts.(SstBuilderOptions.base_context_checksum)
}.

(** The footer and the properties of the table built from [es]. *)
Definition table_footer (opts : SstBuilderOptions) (ft : Footer) : Prop :=
  ft.(table_magic_number) = BLOCK_BASED_TABLE_MAGIC /\ ft.(format_version) = 7 /\
  ft.(checksum_type) = opts.(SstBuilderOptions.checksum_type) /\
  ft.(base_context_checksum) = opts.(SstBuilderOptions.base_context_checksum).

Definition table_props (opts : SstBuilderOptions) (es : list entry) (props : PropertiesInput) : Prop :=
  props.(num_entries) = len es /\ props.(raw_key_size) = total_key_size es /\
  props.(raw_value_size) = total_value_size es /\
  props.(comparator_name) = opts.(SstBuilderOptions.comparator_name) /\
  props.(column_family_id) = opts.(SstBuilderOptions.column_family_id) /\
  props.(column_family_name) = opts.(SstBuilderOptions.column_family_name) /\
  props.(external_sst_global_seqno) = opts.(SstBuilderOptions.external_sst_global_seqno).

Lemma metaindex_two ih ph : handle_ok ih -> handle_ok ph ->
  exists raw pb, build_metaindex_block [(PROPERTIES_BLOCK_NAME, ph); (INDEX_BLOCK_NAME, ih)] = Ok raw /\
    parse_block raw = Ok pb /\ len raw < 2 ^ 32 /\
    forall St (f : bytes -> bytes -> St -> St * outcome unit) st,
      for_each_entry pb f st = visit_entries f
        [(INDEX_BLOCK_NAME, handle_value ih); (PROPERTIES_BLOCK_NAME, handle_value ph)] st.
Proof.
  intros Hi Hp. set (l := [_; _]).
  assert (metaindex_entries l = [(INDEX_BLOCK_NAME, handle_value ih); (PROPERTIES_BLOCK_NAME, handle_value ph)])
    as He by reflexivity.
  destruct (metaindex_block_ok l) as (raw & pb & Hb & Hpb & Hl & Hv).
  { split; [|done]. repeat constructor; cbn; try done; apply Hi || apply Hp. }
  exists raw, pb. rewrite He in Hl, Hv. split_and!; try done. cbn [block_weight foldr fst snd] in Hl.
  pose proof (len_handle_value _ Hi). pose proof (len_handle_value _ Hp).
  change (len l) with 2 in Hl. change (len INDEX_BLOCK_NAME) with 13 in Hl.
  change (len PROPERTIES_BLOCK_NAME) with 18 in Hl. lia.
Qed.

(** The blocks and the footer, one after the other, make a table. *)
Lemma assembled_layout opts es f1 f4 fb r2 r3 r4 props iraw ib ih ph mh hs ess :
  f4 = ((f1 ++ r2) ++ r3) ++ r4 ->
  Forall2 (data_block opts.(SstBuilderOptions.checksum_type)
    opts.(SstBuilderOptions.base_context_checksum) f1) hs ess -> concat ess = es ->
  block_at opts.(SstBuilderOptions.checksum_type) opts.(SstBuilderOptions.base_context_checksum)
    (f1 ++ r2) ih iraw -> ibuilt ib hs -> iraw = IndexBlockBuilder.finish ib ->
  len ib.(IndexBlockBuilder.restarts) < 2 ^ 32 -> len ib.(IndexBlockBuilder.buffer) <= 2 ^ 32 ->
  entry_block opts.(SstBuilderOptions.checksum_type) opts.(SstBuilderOptions.base_context_checksum)
    ((f1 ++ r2) ++ r3) ph (sort_by (on_key slice_cmp) (property_entries props)) ->
  entry_block opts.(SstBuilderOptions.checksum_type) opts.(SstBuilderOptions.base_context_checksum)
    f4 mh [(INDEX_BLOCK_NAME, handle_value ih); (PROPERTIES_BLOCK_NAME, handle_value ph)] ->
  tiles 0 (hs.*2 ++ [ih; ph; mh]) (len f4) -> len fb = FOOTER_TAIL_LEN -> len f4 < 2 ^ 62 ->
  decode_footer fb (len f4 + FOOTER_TAIL_LEN) =
    Ok (footer_of opts.(SstBuilderOptions.checksum_type) opts.(SstBuilderOptions.base_context_checksum)
          mh.(size) FORMAT_VERSION mh.(offset)) ->
  sst_layout (f4 ++ fb) es props
    (footer_of opts.(SstBuilderOptions.checksum_type) opts.(SstBuilderOptions.base_context_checksum)
       mh.(size) FORMAT_VERSION mh.(offset)).
Proof.
  intros -> Hblk Hcat Hbi Hib Hiraw Hirs Hibuf Hp Hm Htile Hfbl Hl4 Hdec. set (f4 := _ ++ r4) in *.
  assert (len (f4 ++ fb) = len f4 + FOOTER_TAIL_LEN) as Hl5 by len_lia.
  assert ({| offset := mh.(offset); size := mh.(size) |} = mh) as Hmeta by by destruct mh.
  assert (handle_ok ph) as Hph by (destruct Hp as (? & ? & (_ & _ & ?) & _); done).
  exists ih, ph, hs, ess. constructor; [constructor|..];
    cbn [checksum_type base_context_checksum metaindex_handle index_handle footer_of]; rewrite ?Hmeta, ?Hl5.
  - change FOOTER_TAIL_LEN with 53 in *. len_lia.
  - exists fb. split; [|done]. apply get_range_suffix; lia.
  - done.
  - by apply entry_block_extend.
  - unfold f4. do 3 apply index_block_extend. exists iraw, (iparsed ib). split_and!; [done| |].
    + rewrite Hiraw. by apply (ibuilt_finish ib hs).
    + intros. by apply ibuilt_visit.
  - done.
  - unfold f4. by do 2 apply entry_block_extend.
  - unfold f4. by do 4 apply data_blocks_extend.
  - done.
  - by replace (len f4 + FOOTER_TAIL_LEN - FOOTER_TAIL_LEN) with (len f4) by lia.
Qed.

Lemma finish_sst_ok opts es f1 ib hs ess :
  flushed opts f1 ib hs ess -> concat ess = es -> sst_weight es < 2 ^ 32 -> opts_ok opts ->
  exists file props ft,
    finish_sst opts es (total_key_size es) (total_value_size es) f1 ib = Ok file /\
    sst_layout file es props ft /\ table_footer opts ft /\ table_props opts es props.
Proof.
  intros [Hib _ Hblk _ Htile Hlen Hcnt] Hcat Hw [Hoc Hof Hoi Hob]. rewrite Hcat in *.
  pose proof (sst_weight_ge es) as (Hwe & Hwk & Hwv). pose proof (block_weight_nonneg es).
  pose proof (ibuilt_len _ _ Hib) as Hil.
  assert (len ib.(IndexBlockBuilder.restarts) < 2 ^ 32) as Hirs by len_lia.
  pose proof (ilen_finish ib Hirs) as Hfin. unfold IndexBlockBuilder.current_size_estimate in Hfin.
  unfold finish_sst. cbv zeta. set (iraw := IndexBlockBuilder.finish ib) in *.
  pose proof (append_block_at opts f1 iraw) as Hai. destruct (append_block opts f1 iraw) as [f2 ih].
  destruct Hai as (Hbi & Hih & Hl2 & r2 & Hr2); [len_lia|].
  set (props := {| num_entries := _ |}).
  destruct (properties_block_ok props) as (praw & ppb & -> & Hppb & Hpl & Hpv).
  { split; unfold u32, u64 in *; cbn; try done; try len_lia. rewrite Hih. cbn. len_lia. }
  rewrite bind_Ok. pose proof (append_block_at opts f2 praw) as Hap. destruct (append_block opts f2 praw) as [f3 ph].
  destruct Hap as (Hbp & Hph & Hl3 & r3 & Hr3); [len_lia|].
  destruct (metaindex_two ih ph) as (mraw & mpb & -> & Hmpb & Hml & Hmv); [apply Hbi|apply Hbp|].
  rewrite bind_Ok. pose proof (append_block_at opts f3 mraw) as Ham. destruct (append_block opts f3 mraw) as [f4 mh].
  destruct Ham as (Hbm & Hmh & Hl4 & r4 & Hr4); [len_lia|].
  destruct (footer_roundtrip_ok FORMAT_VERSION opts.(SstBuilderOptions.checksum_type) mh
    opts.(SstBuilderOptions.base_context_checksum) (len f4)) as (fb & -> & Hfbl & Hdec);
    [done|rewrite Hmh; cbn; len_lia|done|rewrite Hmh; cbn; len_lia|rewrite Hmh; cbn; lia|].
  rewrite bind_Ok. exists (f4 ++ fb), props. eexists.
  split; [done|]. split; [|split; [|by unfold table_props; cbn; split_and!]].
  - assert (f4 = ((f1 ++ r2) ++ r3) ++ r4) as Hf4 by congruence.
    rewrite Hr3, Hr2 in Hbp. rewrite Hr2 in Hbi.
    apply (assembled_layout opts es f1 f4 fb r2 r3 r4 props iraw ib ih ph mh hs ess); try done; [len_lia| | | |len_lia].
    + by exists praw, ppb.
    + by exists mraw, mpb.
    + apply tiles_app. exists (len f1). split; [done|]. cbn [tiles]. unfold BLOCK_TRAILER_SIZE.
      rewrite Hih, Hph, Hmh, Hl4, Hl3, Hl2. cbn [offset size]. split_and!; lia.
  - by split_and!.
Qed.

Lemma build_sst_ok es opts :
  Forall small es -> sst_weight es < 2 ^ 32 -> opts_ok opts ->
  (opts.(SstBuilderOptions.external_sst_global_seqno) <> None -> Forall (fun e => ikey_valid e.1) es) ->
  exists file props ft, build_sst es opts = Ok file /\
    sst_layout file (table_entries opts es) props ft /\
    table_footer opts ft /\ table_props opts (table_entries opts es) props.
Proof.
  intros Hes Hw Ho Hv. destruct (table_entries_sizes opts es Hv) as [Hw' Hes'].
  specialize (Hes' Hes). rewrite <- Hw' in Hw. unfold build_sst.
  rewrite rewrite_entries_ok, bind_Ok by done.
  destruct (data_blocks_ok opts _ Hes' Hw)
    as (ib & bb & st & f1 & ib' & hs & ess & -> & -> & Hb & Hfl & Hf & Hcat & Hks & Hvs).
  rewrite !bind_Ok, Hb, bind_Ok, Hfl, bind_Ok, Hks, Hvs. by apply (finish_sst_ok opts _ f1 ib' hs ess).
Qed.
End BuildSstLemmas.
