(* ===== verification/FileReader.v ===== *)
(** File access of [io/mod.rs]: the [FileReader] trait, its [Arc] and blocking
    implementations, and the contract the SST readers rely on.  [.await] hands
    the future's result over; the model runs it in place. *)

From S2P Require Import Prelude.

(** [io::Result<Vec<u8>>] is [outcome bytes]: an [io::Error] is an [Err]. *)
Class FileReader (R : Type) : Type := {
  read_at : R -> Z -> Z -> outcome bytes;
  file_size : R -> Z
}.

(** What a reader promises: positional reads of one unchanging file. A read
    inside the file returns its bytes, a read beyond it returns none; nothing
    is said of empty reads beyond the end. *)
Class FileReaderLaws (R : Type) `{FileReader R} : Type := {
  file_content : R -> bytes;
  file_size_content r : file_size r = len (file_content r);
  read_at_content r off n bs :
    0 < n \/ (n = 0 /\ 0 <= off <= len (file_content r)) ->
    (read_at r off n = Ok bs <-> get_range (file_content r) off (off + n) = Some bs)
}.

(** [Arc<T>] shares a reader and delegates to it. *)
Record Arc (T : Type) : Type := arc { arc_inner : T }.
Arguments arc {T} _.
Arguments arc_inner {T} _.

#[export] Instance Arc_FileReader `{FileReader T} : FileReader (Arc T) := {
  read_at self offset len := read_at self.(arc_inner) offset len;
  file_size self := file_size self.(arc_inner)
}.

#[export] Program Instance Arc_FileReaderLaws `{FileReaderLaws T} : FileReaderLaws (Arc T) := {
  file_content self := file_content self.(arc_inner)
}.
Next Obligation. intros T ? ? r. exact (file_size_content r.(arc_inner)). Qed.
Next Obligation. intros T ? ? r. exact (read_at_content r.(arc_inner)). Qed.

(** ** [BlockingFileReader]

    [std::fs::File] is the bytes of the file, [File::open] a lookup in the file
    system; cloning the descriptor succeeds and nobody writes to the file. *)
Record BlockingFileReader : Type := { br_file : bytes; br_file_size : Z }.

Definition isize_MAX : Z := 2 ^ 63 - 1.

(** [read_exact_at]: all the bytes asked for, or [UnexpectedEof]; an empty
    buffer is filled without looking at the file. *)
Definition read_exact_at (file : bytes) (offset n : Z) : outcome bytes :=
  if n =? 0 then Ok [] else
  ok_or (get_range file offset (offset + n)) (Msg "failed to fill whole buffer" []).

(** [vec![0u8; len]] panics past [isize::MAX]; the panic of the blocking task
    is passed on by [expect]. *)
Definition blocking_read_at (self : BlockingFileReader) (offset len : Z) : outcome bytes :=
  if isize_MAX <? len then Panic else read_exact_at self.(br_file) offset len.

#[export] Instance BlockingFileReader_impl : FileReader BlockingFileReader := {
  read_at := blocking_read_at;
  file_size := br_file_size
}.

(** [BlockingFileReader::open], over what the file system answers to an open. *)
Definition blocking_open (fs : bytes -> error + bytes) (path : bytes) : outcome BlockingFileReader :=
  file ← map_err (fs path) (fun e => e);
  let file_size := len file in
  Ok {| br_file := file; br_file_size := file_size |}.

(** [io::open]. *)
Definition open_file (fs : bytes -> error + bytes) (path : bytes) : outcome (Arc BlockingFileReader) :=
  arc <$> blocking_open fs path.

(** An open file whose size was read from its metadata and whose length a
    process can address. *)
Definition opened (self : BlockingFileReader) : Prop :=
  self.(br_file_size) = len self.(br_file) /\ len self.(br_file) <= isize_MAX.

Record OpenFile : Type := { of_reader : BlockingFileReader; of_opened : opened of_reader }.

#[export] Instance OpenFile_FileReader : FileReader OpenFile := {
  read_at self := blocking_read_at self.(of_reader);
  file_size self := br_file_size self.(of_reader)
}.

#[export] Program Instance OpenFile_laws : FileReaderLaws OpenFile := {
  file_content self := self.(of_reader).(br_file)
}.
Next Obligation. intros [r [Hs Hl]]. exact Hs. Qed.
Next Obligation.
  intros [r [Hs Hl]] off n bs Hn. cbn in *. unfold blocking_read_at, read_exact_at.
  destruct (Z.ltb_spec isize_MAX n) as [Hbig|].
  - destruct (get_range _ _ _) as [m|] eqn:E; [|done]. exfalso.
    apply get_range_Some in E as (p & s & Heq & -> & Hm). apply (f_equal len) in Heq. len_lia.
  - destruct (Z.eqb_spec n 0) as [->|].
    + rewrite Z.add_0_r. unfold get_range. replace (_ && _ && _) with true by lia.
      rewrite Z.sub_diag. change (Z.to_nat 0) with O. rewrite take_0. split; congruence.
    + destruct (get_range _ _ _); cbn; split; intros; simplify_eq; done.
Qed.

(** The reader over a given content, for examples. *)
Program Definition mem_file (bs : bytes) (H : len bs <= isize_MAX) : OpenFile :=
  {| of_reader := {| br_file := bs; br_file_size := len bs |} |}.
Next Obligation. intros bs H. by split. Qed.
