(* ===== verification/SstReader.v ===== *)
(** Incremental SST reading of [sst/mod.rs]: one read for the footer, one per
    metadata block and one per data block. *)

From S2P Require Import Prelude Varint Checksum Footer Block BlockBuilders Properties SstBuilder FileReader.

(** The outcome of a visit whose callback state is only used on success: [?]. *)
Definition run_visit {St} (r : St * outcome unit) : outcome St :=
  match r with
  | (st, Ok _) => Ok st
  | (_, Err e) => Err e
  | (_, Panic) => Panic
  | (_, OutOfFuel) => OutOfFuel
  end.

(** [decode_meta_value_handle]. *)
Definition decode_meta_value_handle (value : bytes) : option BlockHandle :=
  match get_varint64 value 0 with
  | (None, _) => None
  | (Some offset, pos) =>
      match get_varint64 value pos with
      | (None, _) => None
      | (Some size, _) => Some {| offset := offset; size := size |}
      end
  end.

Definition INDEX_BLOCK_META_KEY : bytes := str "rocksdb.index".

Record SstReader (R : Type) : Type := {
  sr_reader : R;
  sr_footer : Footer;
  sr_metaindex : ParsedBlock;
  sr_index : ParsedBlock
}.
Arguments sr_reader {R} _.
Arguments sr_footer {R} _.
Arguments sr_metaindex {R} _.
Arguments sr_index {R} _.

Section SstReader.
Context `{ChecksumLib} `{CompressLib} `{Profile} {R : Type} `{FileReader R}.

Definition find_meta_handle (metaindex : ParsedBlock) (name : bytes) : outcome (option BlockHandle) :=
  run_visit (for_each_entry metaindex
    (fun key value found =>
       if bool_decide (found = None) && bool_decide (key = name)
       then (decode_meta_value_handle value, Ok tt)
       else (found, Ok tt))
    None).

(** [.map_err(..)?] around a read. *)
Definition read_or {A} (m : outcome A) (f : error -> error) : outcome A :=
  match m with Err e => Err (f e) | m => m end.

Definition read_footer (reader : R) : outcome Footer :=
  let file_size := file_size reader in
  if file_size <? FOOTER_TAIL_LEN then Err (Msg "file too short to contain a footer" [])
  else
    tail_offset ← sub_u64 file_size FOOTER_TAIL_LEN;
    tail ← read_or (read_at reader tail_offset FOOTER_TAIL_LEN)
             (MsgOf "failed to read footer tail: {}" []);
    decode_footer tail file_size.

Definition read_block_contents (reader : R) (handle : BlockHandle) (checksum_type : ChecksumType)
    (base_context_checksum : Z) : outcome bytes :=
  n ← block_read_len handle;
  raw_with_trailer ← read_or (read_at reader handle.(offset) n)
                       (MsgOf "failed to read block at offset {}: {}" [handle.(offset)]);
  decode_block_contents raw_with_trailer handle checksum_type base_context_checksum.

Definition open (reader : R) : outcome (SstReader R) :=
  ft ← read_footer reader;
  metaindex_raw ←
    read_block_contents reader ft.(metaindex_handle) ft.(checksum_type) ft.(base_context_checksum);
  metaindex ← parse_block metaindex_raw;
  index_handle ←
    match ft.(index_handle) with
    | Some h => Ok h
    | None =>
        h ← find_meta_handle metaindex INDEX_BLOCK_META_KEY;
        ok_or h (Msg "index block handle missing from metaindex" [])
    end;
  index_raw ← read_block_contents reader index_handle ft.(checksum_type) ft.(base_context_checksum);
  index ← parse_block index_raw;
  Ok {| sr_reader := reader; sr_footer := ft; sr_metaindex := metaindex; sr_index := index |}.

Definition find_meta_block_handle (self : SstReader R) (name : bytes) : outcome (option BlockHandle) :=
  find_meta_handle self.(sr_metaindex) name.

(** The loop over the data blocks of [for_each_entry]. *)
Fixpoint visit_blocks {St} (self : SstReader R) (f : bytes -> bytes -> St -> St * outcome unit)
    (handles : list BlockHandle) (st : St) : St * outcome unit :=
  match handles with
  | [] => (st, Ok tt)
  | handle :: handles =>
      match (raw ← read_block_contents self.(sr_reader) handle self.(sr_footer).(checksum_type)
                     self.(sr_footer).(base_context_checksum);
             parse_block raw) with
      | Ok parsed =>
          match Block.for_each_entry parsed f st with
          | (st, Ok _) => visit_blocks self f handles st
          | (st, r) => (st, r)
          end
      | r => (st, stop r)
      end
  end.

(** [handles.push(handle)], for every index entry. *)
Definition push_handle (key : bytes) (handle : BlockHandle) (handles : list BlockHandle) :
    list BlockHandle * outcome unit := (handles ++ [handle], Ok tt).

Definition for_each_entry {St} (self : SstReader R) (f : bytes -> bytes -> St -> St * outcome unit)
    (st : St) : St * outcome unit :=
  match run_visit (for_each_index_entry self.(sr_index) push_handle []) with
  | Ok handles => visit_blocks self f handles st
  | r => (st, stop r)
  end.
End SstReader.
