(* ===== verification/Loader.v ===== *)
(** Whole-file loading of [compaction/mod.rs]: one read, then footer,
    metaindex, index and data blocks decoded in memory into an arena source.
    The two readers are proved to see the same entries. *)

From S2P Require Import Prelude Varint InternalKey Checksum Footer Block BlockBuilders Properties SstBuilder FileReader SstReader Source.

Section Loader.
Context `{ChecksumLib} `{CompressLib} `{Profile}.

(** [decode_block_in_memory]. *)
Definition decode_block_in_memory (file_bytes : bytes) (ft : Footer) (handle : BlockHandle) : outcome bytes :=
  let start := handle.(offset) in
  len ← block_read_len handle;
  end_ ← add_u64 start len;
  raw_with_trailer ← ok_or (get_range file_bytes start end_)
                       (Msg "block at offset {} out of file bounds" [handle.(offset)]);
  decode_block_contents raw_with_trailer handle ft.(checksum_type) ft.(base_context_checksum).

(** [find_meta_handle] of [compaction/mod.rs]: both varints are decoded
    before either is looked at. *)
Definition find_meta_handle (metaindex : ParsedBlock) (name : bytes) : outcome (option BlockHandle) :=
  run_visit (Block.for_each_entry metaindex
    (fun key value found =>
       if bool_decide (found = None) && bool_decide (key = name) then
         let pos := 0 in
         let '(o, pos) := get_varint64 value pos in
         let '(s, pos) := get_varint64 value pos in
         match o, s with
         | Some offset, Some size => (Some {| offset := offset; size := size |}, Ok tt)
         | _, _ => (found, Ok tt)
         end
       else (found, Ok tt))
    None).

(** [builder.push(k, v)] as a visitor. *)
Definition push_entry (k v : bytes) (builder : ArenaSourceBuilder) : ArenaSourceBuilder * outcome unit :=
  (push builder k v, Ok tt).

(** The loop over the data handles. *)
Fixpoint load_blocks (file_bytes : bytes) (ft : Footer) (data_handles : list BlockHandle)
    (builder : ArenaSourceBuilder) : outcome ArenaSourceBuilder :=
  match data_handles with
  | [] => Ok builder
  | handle :: data_handles =>
      raw ← decode_block_in_memory file_bytes ft handle;
      parsed ← parse_block raw;
      builder ← run_visit (Block.for_each_entry parsed push_entry builder);
      load_blocks file_bytes ft data_handles builder
  end.

Context {R : Type} `{FileReader R}.

Definition load_arena_source (reader : R) : outcome ArenaSource :=
  let file_size := file_size reader in
  file_bytes ← read_or (read_at reader 0 file_size) (MsgOf "failed to read whole file: {}" []);
  tail_start ← sub_u64 (len file_bytes) FOOTER_TAIL_LEN;
  tail ← index_range file_bytes tail_start (len file_bytes);
  ft ← decode_footer tail file_size;
  metaindex_raw ← decode_block_in_memory file_bytes ft ft.(metaindex_handle);
  metaindex ← parse_block metaindex_raw;
  index_handle ←
    match ft.(index_handle) with
    | Some h => Ok h
    | None =>
        h ← find_meta_handle metaindex (str "rocksdb.index");
        ok_or h (Msg "index block handle missing from metaindex" [])
    end;
  index_raw ← decode_block_in_memory file_bytes ft index_handle;
  index ← parse_block index_raw;
  data_handles ← run_visit (for_each_index_entry index push_handle []);
  let builder := builder_new in
  builder ← load_blocks file_bytes ft data_handles builder;
  Ok (build builder).
End Loader.

(** ** Finding a meta block *)

Section MetaHandles.
Context `{Profile}.

Lemma find_meta_handles_agree metaindex name :
  find_meta_handle metaindex name = SstReader.find_meta_handle metaindex name.
Proof.
  unfold find_meta_handle, SstReader.find_meta_handle. f_equal. apply for_each_entry_ext.
  intros k v found. case_match eqn:E; [|done]. apply andb_true_iff in E as [Hf%bool_decide_eq_true _].
  subst found. unfold decode_meta_value_handle.
  destruct (get_varint64 v 0) as [[o|] p]; destruct (get_varint64 v p) as [[s|] q]; done.
Qed.

Lemma decode_meta_handle_value h : handle_ok h -> decode_meta_value_handle (handle_value h) = Some h.
Proof.
  intros Hh. destruct (decode_handle_value h Hh) as (p & Ho & Hs). unfold decode_meta_value_handle.
  rewrite Ho. destruct (get_varint64 (handle_value h) p) as [o q]. cbn in Hs. rewrite Hs. by destruct h.
Qed.
End MetaHandles.

(** ** Reading a block, both ways *)

Section ReadBlocks.
Context `{ChecksumLib} `{CompressLib} `{Profile} {R : Type} `{FileReaderLaws R}.

Lemma add_u64_inv a b c : add_u64 a b = Ok c -> 0 <= c < 2 ^ 64 /\ (c = a + b \/ ~ 0 <= a + b < 2 ^ 64).
Proof.
  unfold add_u64, arith. destruct (in_u 64 (a + b)) eqn:E.
  - apply in_u_true in E. intros [= <-]. lia.
  - destruct overflow_checks; [done|]. intros [= <-]. split; [apply as_u64_range|]. right.
    intros Hr. apply (in_u_true 64) in Hr. congruence.
Qed.

(** An address computed with wrap-around never stays inside a real file. *)
Lemma add_u64_range {A} (l : list A) a n e bs :
  0 <= n < 2 ^ 64 -> len l < 2 ^ 63 -> add_u64 a n = Ok e -> get_range l a e = Some bs -> e = a + n.
Proof.
  intros Hn Hl Ha Hg. pose proof (add_u64_inv _ _ _ Ha) as [He [->|Hout]]; [done|].
  apply get_range_Some in Hg as (p & s & -> & -> & ->). unfold add_u64, arith in Ha.
  rewrite len_app in Hl. pose proof (len_nonneg p). pose proof (len_nonneg (bs ++ s)).
  destruct (in_u 64 (len p + n)) eqn:E; [by injection Ha as <-|].
  destruct overflow_checks; [done|]. injection Ha as Ha. exfalso.
  assert (as_u64 (len p + n) = len p + n - 2 ^ 64) as Hw.
  { symmetry. apply (Z.mod_unique_pos _ (2 ^ 64) 1); lia. }
  pose proof (len_nonneg bs). lia.
Qed.

Lemma read_or_Ok {A} (m : outcome A) f a : read_or m f = Ok a <-> m = Ok a.
Proof. by destruct m. Qed.

Lemma read_block_agree (r : R) ft h x :
  len (file_content r) < 2 ^ 63 ->
  decode_block_in_memory (file_content r) ft h = Ok x <->
  read_block_contents r h ft.(checksum_type) ft.(base_context_checksum) = Ok x.
Proof.
  intros Hl. unfold decode_block_in_memory, read_block_contents. cbv zeta.
  destruct (block_read_len h) as [n| | |] eqn:En; [|done..]. rewrite !bind_Ok.
  pose proof (add_u64_inv _ _ _ En) as [Hn _]. split; intros Hd.
  - inv_ok Hd. apply ok_or_inv in Hx0.
    assert (x0 = h.(offset) + n) as -> by by eapply add_u64_range.
    pose proof (decode_block_long _ _ _ _ _ Hd) as [_ H5]. pose proof (get_range_len _ _ _ _ Hx0).
    rewrite (proj2 (read_at_content r h.(offset) n x1 ltac:(lia)) Hx0). exact Hd.
  - inv_ok Hd. apply read_or_Ok in Hx. pose proof (decode_block_long _ _ _ _ _ Hd) as [Hlen H5].
    unfold block_read_len in En. rewrite En in Hlen. injection Hlen as ->.
    apply read_at_content in Hx; [|lia].
    pose proof Hx as Hg. apply get_range_Some in Hg as (p & s & Hc & Ho & Hm).
    rewrite Hc, !len_app in Hl. pose proof (len_nonneg p). pose proof (len_nonneg s).
    pose proof (len_nonneg x0). rewrite add_u64_ok, bind_Ok by lia. rewrite Hx. exact Hd.
Qed.

(** A block of the layout is read back by both. *)
Lemma read_block_at (r : R) ft h raw :
  block_at ft.(checksum_type) ft.(base_context_checksum) (file_content r) h raw ->
  len (file_content r) < 2 ^ 63 ->
  read_block_contents r h ft.(checksum_type) ft.(base_context_checksum) = Ok raw.
Proof.
  intros (Hg & Hs & Ho & Hsz) Hl. unfold read_block_contents, block_read_len.
  pose proof Hg as Hg'. apply get_range_Some in Hg' as (p & s & Hc & Hp & Hm).
  rewrite Hc, !len_app in Hl. pose proof (len_nonneg p). pose proof (len_nonneg s).
  unfold BLOCK_TRAILER_SIZE in *. rewrite add_u64_ok, bind_Ok by lia.
  rewrite <- Z.add_assoc in Hg.
  rewrite (proj2 (read_at_content r h.(offset) (h.(size) + 5) _ ltac:(lia)) Hg).
  cbn [read_or]. rewrite bind_Ok. destruct h as [o sz]. cbn [offset size] in *. subst sz.
  apply decode_encode_block. unfold BLOCK_TRAILER_SIZE. lia.
Qed.
End ReadBlocks.

(** ** Reading a table, both ways *)

Section ReadTable.
Context `{ChecksumLib} `{CompressLib} `{Profile} {R : Type} `{FileReaderLaws R}.

Lemma run_visit_Ok {St} (x : St * outcome unit) st : run_visit x = Ok st <-> x = (st, Ok tt).
Proof. destruct x as [s [[]| | |]]; cbn; split; intros; simplify_eq; done. Qed.

Lemma visit_blocks_agree (sst : SstReader R) hs b b' :
  len (file_content sst.(sr_reader)) < 2 ^ 63 ->
  load_blocks (file_content sst.(sr_reader)) sst.(sr_footer) hs b = Ok b' <->
  visit_blocks sst push_entry hs b = (b', Ok tt).
Proof.
  intros Hl. revert b. induction hs as [|h hs IH]; intros b; cbn [load_blocks visit_blocks].
  { split; intros; simplify_eq; done. }
  pose proof (read_block_agree sst.(sr_reader) sst.(sr_footer) h) as Ha.
  destruct (read_block_contents sst.(sr_reader) h _ _) as [raw| | |] eqn:Er.
  2-4: split; [|done]; intros Hd; inv_ok Hd; apply (Ha _ Hl) in Hx; done.
  rewrite (proj2 (Ha raw Hl) eq_refl), !bind_Ok.
  destruct (parse_block raw) as [pb| | |]; [|split; done..]. rewrite !bind_Ok.
  destruct (Block.for_each_entry pb push_entry b) as [st [[]| | |]]; [|split; done..].
  cbn [run_visit]. rewrite bind_Ok. apply IH.
Qed.

Lemma tail_len (c tail : bytes) :
  index_range c (len c - FOOTER_TAIL_LEN) (len c) = Ok tail -> FOOTER_TAIL_LEN <= len c.
Proof.
  unfold index_range. intros Ht. destruct (get_range _ _ _) as [m|] eqn:E; [|done].
  apply get_range_Some in E as (p & s & _ & Hp & _). pose proof (len_nonneg p). lia.
Qed.

Lemma read_footer_agree (r : R) ft :
  len (file_content r) < 2 ^ 63 ->
  read_footer r = Ok ft <->
  exists tail, index_range (file_content r) (len (file_content r) - FOOTER_TAIL_LEN) (len (file_content r)) = Ok tail /\
    decode_footer tail (len (file_content r)) = Ok ft.
Proof.
  intros Hl. unfold read_footer. cbv zeta. rewrite file_size_content.
  change FOOTER_TAIL_LEN with 53. destruct (Z.ltb_spec (len (file_content r)) 53).
  - split; [done|]. intros (tail & Ht & _). apply (tail_len _ tail) in Ht. change FOOTER_TAIL_LEN with 53 in Ht. lia.
  - rewrite sub_u64_ok, bind_Ok by lia. split.
    + intros Hd. inv_ok Hd. apply read_or_Ok, read_at_content in Hx; [|lia].
      rewrite Z.sub_add in Hx. exists x. unfold index_range. by rewrite Hx.
    + intros (tail & Ht & Hd). unfold index_range in Ht. destruct (get_range _ _ _) eqn:E; [|done].
      injection Ht as ->. rewrite (proj2 (read_at_content r _ 53 tail ltac:(lia))); [exact Hd|].
      by rewrite Z.sub_add.
Qed.

(** On a file too short for a footer the tail cannot be taken. *)
Lemma tail_start_inv (c : bytes) s tail :
  sub_u64 (len c) FOOTER_TAIL_LEN = Ok s -> index_range c s (len c) = Ok tail -> len c < 2 ^ 63 ->
  s = len c - FOOTER_TAIL_LEN.
Proof.
  change FOOTER_TAIL_LEN with 53. intros Hs Ht Hl. unfold sub_u64, arith in Hs.
  destruct (Z.leb_spec 0 (len c - 53)); [by injection Hs as <-|].
  destruct overflow_checks; [done|]. injection Hs as <-. exfalso. pose proof (len_nonneg c).
  unfold index_range in Ht. destruct (get_range _ _ _) as [m|] eqn:E; [|done].
  apply get_range_len in E. pose proof (len_nonneg m). unfold as_u64 in E.
  rewrite <- (Z.mod_unique_pos (len c - 53) (2 ^ 64) (-1) (len c - 53 + 2 ^ 64)) in E by lia. lia.
Qed.

(** Reading all of a file. *)
Lemma read_whole (r : R) : read_at r 0 (file_size r) = Ok (file_content r).
Proof.
  rewrite file_size_content. pose proof (len_nonneg (file_content r)). apply read_at_content; [lia|].
  rewrite <- (app_nil_r (file_content r)) at 1. by apply get_range_prefix.
Qed.

(** The two ways of reading a file succeed on the same files, with the same
    entries. *)
Lemma load_agrees (r : R) a :
  len (file_content r) < 2 ^ 63 ->
  load_arena_source r = Ok a <->
  exists sst b, open r = Ok sst /\ SstReader.for_each_entry sst push_entry builder_new = (b, Ok tt) /\
    a = build b.
Proof.
  intros Hl. unfold load_arena_source, open, SstReader.for_each_entry. cbv zeta.
  change INDEX_BLOCK_META_KEY with (str "rocksdb.index"). rewrite read_whole, file_size_content.
  cbn [read_or]. rewrite bind_Ok. set (c := file_content r) in *. split.
  - intros Hd. inv_ok Hd. rename x1 into ft, Hx0 into Htail, Hx1 into Hft.
    rewrite (tail_start_inv _ _ _ Hx Htail) in Htail by exact Hl.
    rewrite (proj2 (read_footer_agree r ft Hl)) by (by exists x0). rewrite bind_Ok.
    apply (read_block_agree r ft _ _ Hl) in Hx2. rewrite Hx2, bind_Ok, Hx3, bind_Ok.
    rewrite find_meta_handles_agree in Hx4. rewrite Hx4, bind_Ok.
    apply (read_block_agree r ft _ _ Hl) in Hx5. rewrite Hx5, bind_Ok, Hx6, bind_Ok.
    injection Hd as <-. eexists _, _. split; [reflexivity|]. cbn [sr_index]. rewrite Hx7.
    split; [|reflexivity]. by apply visit_blocks_agree.
  - intros (sst & b & Ho & Hv & ->). inv_ok Ho.
    apply (read_footer_agree r x Hl) in Hx as (tail & Ht & Hft). fold c in Ht, Hft.
    pose proof (tail_len _ _ Ht) as Hlen.
    rewrite sub_u64_ok, bind_Ok, Ht, bind_Ok, Hft, bind_Ok by exact Hlen.
    apply (read_block_agree r x _ _ Hl) in Hx0. fold c in Hx0. rewrite Hx0, bind_Ok, Hx1, bind_Ok.
    rewrite find_meta_handles_agree. rewrite Hx2, bind_Ok.
    apply (read_block_agree r x _ _ Hl) in Hx3. fold c in Hx3. rewrite Hx3, bind_Ok, Hx4, bind_Ok.
    injection Ho as <-. cbn [sr_index] in Hv.
    destruct (run_visit (for_each_index_entry x4 push_handle [])) as [hs| | |]; [|done..]. rewrite bind_Ok.
    apply visit_blocks_agree in Hv; [|exact Hl]. cbn [sr_reader sr_footer] in Hv. fold c in Hv. by rewrite Hv.
Qed.
End ReadTable.

(** ** Reading a well-formed table *)

Section ReadLayout.
Context `{ChecksumLib} `{CompressLib} `{Profile} {R : Type} `{FileReaderLaws R}.

Lemma find_index_handle pb ih ph :
  handle_ok ih ->
  (forall St (f : bytes -> bytes -> St -> St * outcome unit) st,
     Block.for_each_entry pb f st = visit_entries f
       [(INDEX_BLOCK_NAME, handle_value ih); (PROPERTIES_BLOCK_NAME, handle_value ph)] st) ->
  SstReader.find_meta_handle pb INDEX_BLOCK_META_KEY = Ok (Some ih).
Proof.
  intros Hi Hv. unfold SstReader.find_meta_handle. rewrite Hv. cbn [visit_entries fst snd].
  change (bool_decide (INDEX_BLOCK_NAME = INDEX_BLOCK_META_KEY)) with true.
  cbn [andb]. rewrite bool_decide_true by done. by rewrite decode_meta_handle_value.
Qed.

Lemma find_properties_handle pb ih ph :
  handle_ok ph ->
  (forall St (f : bytes -> bytes -> St -> St * outcome unit) st,
     Block.for_each_entry pb f st = visit_entries f
       [(INDEX_BLOCK_NAME, handle_value ih); (PROPERTIES_BLOCK_NAME, handle_value ph)] st) ->
  SstReader.find_meta_handle pb PROPERTIES_BLOCK_NAME = Ok (Some ph).
Proof.
  intros Hi Hv. unfold SstReader.find_meta_handle. rewrite Hv. cbn [visit_entries fst snd].
  change (bool_decide (INDEX_BLOCK_NAME = PROPERTIES_BLOCK_NAME)) with false. rewrite andb_false_r.
  change (bool_decide (PROPERTIES_BLOCK_NAME = PROPERTIES_BLOCK_NAME)) with true.
  cbn [andb]. rewrite bool_decide_true by done. by rewrite decode_meta_handle_value.
Qed.

Lemma push_handle_visit hs acc : visit_entries push_handle hs acc = (acc ++ hs.*2, Ok tt).
Proof.
  revert acc. induction hs as [|[k h] hs IH]; intros acc; cbn; [by rewrite app_nil_r|].
  by rewrite IH, <- (assoc_L (++)).
Qed.

Lemma visit_blocks_ok {St} (sst : SstReader R) (f : bytes -> bytes -> St -> St * outcome unit) hs ess st :
  Forall2 (data_block sst.(sr_footer).(checksum_type) sst.(sr_footer).(base_context_checksum)
    (file_content sst.(sr_reader))) hs ess ->
  len (file_content sst.(sr_reader)) < 2 ^ 63 ->
  visit_blocks sst f hs.*2 st = visit_entries f (concat ess) st.
Proof.
  intros Hf Hl. revert st. induction Hf as [|[k h] es hs ess [(raw & pb & Hb & Hp & Hv) _] _ IH]; intros st; [done|].
  cbn [fmap list_fmap snd visit_blocks concat fst] in *.
  rewrite (read_block_at sst.(sr_reader) sst.(sr_footer) h raw Hb Hl), bind_Ok, Hp, Hv, visit_entries_app.
  destruct (visit_entries f es st) as [st' [| | |]]; [apply IH|done..].
Qed.

(** A file whose frame is intact opens, and its index lists the handles. *)
Lemma open_frame (r : R) ft ih ph hs :
  sst_frame (file_content r) ft ih ph hs ->
  exists sst, open r = Ok sst /\ sst.(sr_reader) = r /\ sst.(sr_footer) = ft /\
    find_meta_block_handle sst PROPERTIES_BLOCK_NAME = Ok (Some ph) /\
    forall St (f : bytes -> BlockHandle -> St -> St * outcome unit) st,
      for_each_index_entry sst.(sr_index) f st = visit_entries f hs st.
Proof.
  intros [Hsize (tail & Ht & Hft) Hni (mraw & mpb & Hmb & Hmp & Hmv) (iraw & ipb & Hib & Hip & Hiv) Hph].
  assert (len (file_content r) < 2 ^ 63) as Hl by lia. eexists. split.
  { unfold open. rewrite (proj2 (read_footer_agree r ft Hl)), bind_Ok
      by (exists tail; unfold index_range; by rewrite Ht).
    rewrite (read_block_at r ft _ mraw Hmb Hl), bind_Ok, Hmp, bind_Ok, Hni.
    rewrite (find_index_handle mpb ih ph), bind_Ok by (done || apply Hib). cbn [ok_or]. rewrite bind_Ok.
    rewrite (read_block_at r ft ih iraw Hib Hl), bind_Ok, Hip, bind_Ok. reflexivity. }
  split_and!; [done|done| |exact Hiv]. unfold find_meta_block_handle. cbn [sr_metaindex].
  by apply (find_properties_handle mpb ih ph).
Qed.

Lemma walk_index (sst : SstReader R) hs :
  (forall St (f : bytes -> BlockHandle -> St -> St * outcome unit) st,
     for_each_index_entry sst.(sr_index) f st = visit_entries f hs st) ->
  forall St (f : bytes -> bytes -> St -> St * outcome unit) st,
    SstReader.for_each_entry sst f st = visit_blocks sst f hs.*2 st.
Proof. intros Hiv St f st. unfold SstReader.for_each_entry. by rewrite Hiv, push_handle_visit. Qed.

(** Loading such a file is loading its data blocks. *)
Lemma load_frame (r : R) ft ih ph hs :
  sst_frame (file_content r) ft ih ph hs ->
  load_arena_source r = (b ← load_blocks (file_content r) ft hs.*2 builder_new; Ok (build b)).
Proof.
  intros [Hsize (tail & Ht & Hft) Hni (mraw & mpb & Hmb & Hmp & Hmv) (iraw & ipb & Hib & Hip & Hiv) Hph].
  assert (len (file_content r) < 2 ^ 63) as Hl by lia. unfold load_arena_source. cbv zeta.
  rewrite read_whole, file_size_content. cbn [read_or]. rewrite bind_Ok, sub_u64_ok, bind_Ok by apply Hsize.
  unfold index_range at 1. rewrite Ht. cbn [unwrap]. rewrite bind_Ok, Hft, bind_Ok.
  rewrite (proj2 (read_block_agree r ft _ mraw Hl)), bind_Ok, Hmp, bind_Ok, Hni by by apply read_block_at.
  rewrite find_meta_handles_agree. change (str "rocksdb.index") with INDEX_BLOCK_META_KEY.
  rewrite (find_index_handle mpb ih ph), bind_Ok by (done || apply Hib). cbn [ok_or]. rewrite bind_Ok.
  rewrite (proj2 (read_block_agree r ft _ iraw Hl)), bind_Ok, Hip, bind_Ok by by apply read_block_at.
  by rewrite Hiv, push_handle_visit.
Qed.

(** Opening a table and walking it visits its entries in order. *)
Lemma read_layout (r : R) es props ft :
  sst_layout (file_content r) es props ft ->
  exists sst, open r = Ok sst /\ sst.(sr_footer) = ft /\
    (exists ph, find_meta_block_handle sst PROPERTIES_BLOCK_NAME = Ok (Some ph) /\
      entry_block ft.(checksum_type) ft.(base_context_checksum) (file_content r) ph
        (sort_by (on_key slice_cmp) (property_entries props))) /\
    (exists hs ess, Forall2 (data_block ft.(checksum_type) ft.(base_context_checksum) (file_content r)) hs ess /\
      concat ess = es /\
      forall St (f : bytes -> BlockHandle -> St -> St * outcome unit) st,
        for_each_index_entry sst.(sr_index) f st = visit_entries f hs st) /\
    forall St (f : bytes -> bytes -> St -> St * outcome unit) st,
      SstReader.for_each_entry sst f st = visit_entries f es st.
Proof.
  intros (ih & ph & hs & ess & [Hfr Hpe Hblk Hcat _]). pose proof (frame_size _ _ _ _ _ Hfr).
  destruct (open_frame r ft ih ph hs Hfr) as (sst & Ho & Hr & Hft & Hph & Hiv).
  exists sst. split_and!; [done|done|by exists ph|by exists hs, ess|]. intros St f st.
  rewrite (walk_index sst hs Hiv), <- Hcat. apply visit_blocks_ok; [by rewrite Hr, Hft|rewrite Hr; lia].
Qed.

Lemma push_entry_visit es b : visit_entries push_entry es b = (push_all b es, Ok tt).
Proof. exact (visit_entries_pure (fun k v b => push b k v) es b). Qed.

(** Loading a table yields its entries. *)
Lemma load_layout (r : R) es props ft :
  sst_layout (file_content r) es props ft -> arena_bytes es < 2 ^ 32 ->
  exists a, load_arena_source r = Ok a /\ arena_ok a /\ all_entries a = es /\ window a = es.
Proof.
  intros Hlay Hab. pose proof (layout_size _ _ _ _ Hlay) as Hs.
  destruct (read_layout r es props ft Hlay) as (sst & Ho & _ & _ & _ & Hv).
  exists (build (push_all builder_new es)). split.
  - apply load_agrees; [lia|]. exists sst, (push_all builder_new es). by rewrite Hv, push_entry_visit.
  - apply build_ok. apply (push_all_repr builder_new [] es builder_new_repr Hab).
Qed.

Lemma arena_bytes_weight es : arena_bytes es <= sst_weight es.
Proof.
  induction es as [|e es IH]; cbn; [done|]. fold (arena_bytes es) (sst_weight es). len_lia.
Qed.
End ReadLayout.

(** ** Seeking through the index *)

(** The first element whose key is not below [k]. *)
Definition seek {V} (cmp : bytes -> bytes -> comparison) (k : bytes) (l : list (bytes * V)) : option (bytes * V) :=
  find (fun x => match cmp x.1 k with Lt => false | _ => true end) l.

Section Seek.
Context `{ChecksumLib} `{CompressLib} `{Profile}.
Context (cmp : bytes -> bytes -> comparison) `{!CmpOrder cmp}.

Lemma seek_app {V} k (l1 l2 : list (bytes * V)) :
  seek cmp k (l1 ++ l2) = match seek cmp k l1 with Some x => Some x | None => seek cmp k l2 end.
Proof. unfold seek. induction l1 as [|x l1 IH]; cbn; [done|]. by destruct (cmp x.1 k). Qed.

Lemma seek_cons {V} k x (l : list (bytes * V)) :
  seek cmp k (x :: l) = match cmp x.1 k with Lt => seek cmp k l | _ => Some x end.
Proof. unfold seek. cbn. by destruct (cmp x.1 k). Qed.

(** A sorted list is below [k] when its last element is. *)
Lemma seek_none {V} k (l : list (bytes * V)) x :
  StronglySorted (fun a b => cle cmp a.1 b.1) l -> last l = Some x -> cmp x.1 k = Lt -> seek cmp k l = None.
Proof.
  intros Hs (l' & ->)%last_Some Hx. unfold seek. induction l' as [|y l' IH]; cbn in *; [by rewrite Hx|].
  inversion Hs as [|? ? Hs' Hy]; subst. apply Forall_app in Hy as [_ Hy]. inversion Hy as [|? ? Hyx _]; subst.
  assert (cmp y.1 k = Lt) as -> by exact (cle_clt_trans cmp _ _ _ Hyx Hx). by apply IH.
Qed.

Lemma seek_some {V} k (l : list (bytes * V)) x :
  last l = Some x -> cmp x.1 k <> Lt -> exists y, seek cmp k l = Some y.
Proof.
  intros (l' & ->)%last_Some Hx. unfold seek. induction l' as [|y l' IH]; cbn.
  - exists x. by destruct (cmp x.1 k).
  - destruct (cmp y.1 k); eauto.
Qed.

(** Descending into the first block whose separator is not below [k] finds
    what a search of all the entries finds. *)
Lemma seek_blocks ty base file hs ess k :
  Forall2 (data_block ty base file) hs ess -> StronglySorted (cle (on_key cmp)) (concat ess) ->
  match seek cmp k hs with
  | Some (sep, h) => exists es, entry_block ty base file h es /\ seek cmp k es = seek cmp k (concat ess) /\
      seek cmp k es <> None
  | None => seek cmp k (concat ess) = None
  end.
Proof.
  induction 1 as [|[sep h] es hs ess [Hb Hl] _ IH]; intros Hs; [done|]. cbn [concat fst snd] in *.
  destruct (last es) as [[lk lv]|] eqn:He; [|done]. cbn in Hl. injection Hl as ->.
  assert (StronglySorted (cle (on_key cmp)) es) as Hes by (by eapply StronglySorted_app_1_l).
  assert (StronglySorted (cle (on_key cmp)) (concat ess)) as Hess by (by eapply StronglySorted_app_1_r).
  rewrite seek_app, seek_cons. cbn [fst].
  destruct (cmp sep k) eqn:Hc; [..|].
  2: { rewrite (seek_none k es (sep, lv)) by done. by apply IH. }
  all: destruct (seek_some k es (sep, lv) He) as (y & Hy); [cbn; congruence|]; exists es; rewrite Hy; by split_and!.
Qed.
End Seek.

(** ** Properties *)

Section LoaderProperties.
Context `{ChecksumLib} `{CompressLib} `{Profile}.

(** C11: A table round-trips: [build_sst] never panics on entries that fit its
    4 GiB limits, and loading the file it returns gives back exactly the
    entries, in order - with sequence numbers zeroed in external mode. *)
Theorem sst_roundtrip `{FileReaderLaws R} es opts :
  Forall small es -> sst_weight es < 2 ^ 32 -> opts_ok opts ->
  (opts.(SstBuilderOptions.external_sst_global_seqno) <> None -> Forall (fun e => ikey_valid e.1) es) ->
  exists file, build_sst es opts = Ok file /\
    forall r : R, file_content r = file ->
      exists a, load_arena_source r = Ok a /\ window a = table_entries opts es /\
        all_entries a = table_entries opts es.
Proof.
  intros Hs Hw Ho Hv. destruct (build_sst_ok es opts Hs Hw Ho Hv) as (file & props & ft & Hb & Hl & _).
  exists file. split; [done|]. intros r <-.
  destruct (load_layout r _ props ft Hl) as (a & Ha & _ & He & Hwin).
  - destruct (table_entries_sizes opts es Hv) as [Hw' _].
    pose proof (arena_bytes_weight (table_entries opts es)). lia.
  - by exists a.
Qed.

(** A file shorter than a footer. *)
Lemma short_file `{FileReaderLaws R} (r : R) :
  len (file_content r) < FOOTER_TAIL_LEN ->
  open r = Err (Msg "file too short to contain a footer" []) /\ load_arena_source r = Panic.
Proof.
  intros Hs. change FOOTER_TAIL_LEN with 53 in Hs. pose proof (len_nonneg (file_content r)). split.
  - unfold open, read_footer. cbv zeta. rewrite file_size_content. change FOOTER_TAIL_LEN with 53.
    by replace (len (file_content r) <? 53) with true by lia.
  - unfold load_arena_source. cbv zeta. rewrite read_whole. cbn [read_or]. rewrite bind_Ok.
    unfold sub_u64, arith. change FOOTER_TAIL_LEN with 53.
    replace (0 <=? _ - 53) with false by lia. destruct overflow_checks; [done|]. rewrite bind_Ok.
    unfold index_range. rewrite (proj2 (get_range_None _ _ _)); [done|].
    unfold as_u64. rewrite <- (Z.mod_unique_pos _ (2 ^ 64) (-1) (len (file_content r) - 53 + 2 ^ 64)); lia.
Qed.

(** C18: Reading block by block and loading the whole file agree: on any bytes
    whatever, one succeeds exactly when the other does, and then they
    deliver the same entries.  They do not always fail alike: on a file shorter
    than a footer opening returns an error, while the loader panics on the
    slice of the file's tail. *)
Theorem readers_agree `{FileReaderLaws R} (r : R) a :
  len (file_content r) < 2 ^ 63 ->
  (load_arena_source r = Ok a <->
   exists sst b, open r = Ok sst /\
     SstReader.for_each_entry sst push_entry builder_new = (b, Ok tt) /\ a = build b) /\
  (len (file_content r) < FOOTER_TAIL_LEN ->
   open r = Err (Msg "file too short to contain a footer" []) /\ load_arena_source r = Panic).
Proof. intros Hl. split; [by apply load_agrees|apply short_file]. Qed.

(** C29: What a reader learns from a built table: it opens, its footer carries
    the options, its properties block is found and records the number of
    entries and their sizes, and the walk visits the entries in order,
    whatever the callback does.  Stated without external mode. *)
Theorem sst_reader_reads_table `{FileReaderLaws R} es opts file (r : R) :
  Forall small es -> sst_weight es < 2 ^ 32 -> opts_ok opts ->
  opts.(SstBuilderOptions.external_sst_global_seqno) = None ->
  build_sst es opts = Ok file -> file_content r = file ->
  exists sst, open r = Ok sst /\ table_footer opts sst.(sr_footer) /\
    (exists h props, find_meta_block_handle sst PROPERTIES_BLOCK_NAME = Ok (Some h) /\
      table_props opts es props /\
      entry_block sst.(sr_footer).(checksum_type) sst.(sr_footer).(base_context_checksum) file h
        (sort_by (on_key slice_cmp) (property_entries props))) /\
    forall St (f : bytes -> bytes -> St -> St * outcome unit) st,
      SstReader.for_each_entry sst f st = visit_entries f es st.
Proof.
  intros Hs Hw Ho He Hb Hr.
  destruct (build_sst_ok es opts Hs Hw Ho) as (file' & props & ft & Hb' & Hl & Hft & Hp); [congruence|].
  assert (file' = file) as -> by congruence. subst file. unfold table_entries in Hl, Hp. rewrite He in Hl, Hp.
  destruct (read_layout r es props ft Hl) as (sst & Hopen & <- & (h & Hh & Hpe) & _ & Hv).
  exists sst. split_and!; [done|done| |done]. by exists h, props.
Qed.

(** C19: A point lookup through the index never misses: in a table of entries
    sorted by a key order, descending into the first index entry whose
    separator is not below a key leads to the block that holds the first entry
    not below it; where no separator qualifies, no entry does. *)
Theorem index_seek_finds_block `{FileReaderLaws R} cmp `{!CmpOrder cmp} es opts file (r : R) k :
  Forall small es -> sst_weight es < 2 ^ 32 -> opts_ok opts ->
  opts.(SstBuilderOptions.external_sst_global_seqno) = None ->
  StronglySorted (cle (on_key cmp)) es -> build_sst es opts = Ok file -> file_content r = file ->
  exists sst hs, open r = Ok sst /\ for_each_index_entry sst.(sr_index) collect [] = (hs, Ok tt) /\
    match seek cmp k hs with
    | Some (_, h) => exists block,
        entry_block sst.(sr_footer).(checksum_type) sst.(sr_footer).(base_context_checksum) file h block /\
        seek cmp k block = seek cmp k es /\ seek cmp k block <> None
    | None => seek cmp k es = None
    end.
Proof.
  intros Hs Hw Ho He Hso Hb Hr.
  destruct (build_sst_ok es opts Hs Hw Ho) as (file' & props & ft & Hb' & Hl & _); [congruence|].
  assert (file' = file) as -> by congruence. subst file. unfold table_entries in Hl. rewrite He in Hl.
  destruct (read_layout r es props ft Hl) as (sst & Hopen & <- & _ & (hs & ess & Hblk & <- & Hidx) & _).
  exists sst, hs. split; [done|]. split; [by rewrite Hidx, visit_entries_collect|].
  by apply (seek_blocks cmp).
Qed.

(** The two [find_meta_handle] functions of the program are equivalent, on
    every block and name, errors included. *)
Theorem find_meta_handle_equiv metaindex name :
  Loader.find_meta_handle metaindex name = SstReader.find_meta_handle metaindex name.
Proof. apply find_meta_handles_agree. Qed.

End LoaderProperties.

(** ** A table in memory *)

#[local] Instance dev_profile : Profile := true.

Definition toy_table : bytes :=
  match build_sst toy_entries SstBuilderOptions.default with Ok file => file | _ => [] end.
Definition toy_file : OpenFile := mem_file toy_table ltac:(vm_compute; discriminate).

Lemma toy_entries_small : Forall small toy_entries.
Proof. repeat (constructor; [split; split; vm_compute; discriminate || reflexivity|]). constructor. Qed.
Lemma default_opts_ok : opts_ok SstBuilderOptions.default.
Proof. split; split; vm_compute; discriminate || reflexivity. Qed.

Lemma sst_roundtrip_witness :
  exists file, build_sst toy_entries SstBuilderOptions.default = Ok file /\
    forall r : OpenFile, file_content r = file ->
      exists a, load_arena_source r = Ok a /\ window a = toy_entries /\ all_entries a = toy_entries.
Proof.
  apply (sst_roundtrip (R := OpenFile) toy_entries SstBuilderOptions.default).
  - exact toy_entries_small.
  - reflexivity.
  - exact default_opts_ok.
  - intros Hn. exfalso. by apply Hn.
Defined.

(** Nine bytes, no footer. *)
Definition short : OpenFile := mem_file (str "truncated") ltac:(vm_compute; discriminate).

Lemma readers_agree_witness :
  (load_arena_source toy_file = Ok (build (push_all builder_new toy_entries)) <->
   exists sst b, open toy_file = Ok sst /\
     SstReader.for_each_entry sst push_entry builder_new = (b, Ok tt) /\
     build (push_all builder_new toy_entries) = build b) /\
  open short = Err (Msg "file too short to contain a footer" []) /\ load_arena_source short = Panic.
Proof.
  split.
  - apply (readers_agree toy_file). vm_compute. reflexivity.
  - apply (readers_agree short (build builder_new)); vm_compute; reflexivity.
Defined.

Lemma sst_reader_reads_table_witness :
  exists sst, open toy_file = Ok sst /\ table_footer SstBuilderOptions.default sst.(sr_footer).
Proof.
  destruct (sst_reader_reads_table toy_entries SstBuilderOptions.default toy_table toy_file)
    as (sst & Ho & Hf & _).
  - exact toy_entries_small.
  - reflexivity.
  - exact default_opts_ok.
  - reflexivity.
  - vm_compute. reflexivity.
  - reflexivity.
  - exists sst. split; [exact Ho|exact Hf].
Defined.

Lemma index_seek_finds_block_witness :
  exists sst hs, open toy_file = Ok sst /\ for_each_index_entry sst.(sr_index) collect [] = (hs, Ok tt) /\
    match seek slice_cmp (str "apricot") hs with
    | Some (_, h) => exists block,
        entry_block sst.(sr_footer).(checksum_type) sst.(sr_footer).(base_context_checksum) toy_table h block /\
        seek slice_cmp (str "apricot") block = seek slice_cmp (str "apricot") toy_entries /\
        seek slice_cmp (str "apricot") block <> None
    | None => seek slice_cmp (str "apricot") toy_entries = None
    end.
Proof.
  apply (index_seek_finds_block slice_cmp toy_entries SstBuilderOptions.default toy_table toy_file).
  - exact toy_entries_small.
  - reflexivity.
  - exact default_opts_ok.
  - reflexivity.
  - repeat constructor; vm_compute; discriminate.
  - vm_compute. reflexivity.
  - reflexivity.
Defined.
