(* ===== verification/Compaction.v ===== *)
(** Compaction of [compaction/mod.rs]: N sorted sources are merged, a strategy
    keeps or drops each entry, and the survivors become a table - in one job,
    or in shards that partition the key space. *)

From S2P Require Import Prelude InternalKey Checksum Footer Block BlockBuilders Properties SstBuilder FileReader SstReader Loader.
From S2P Require Import Cmp Source Kmerge LoserTree Strategy.

Record CompactionOptions : Type := { sst_builder : SstBuilderOptions }.

Section Compaction.
Context `{ChecksumLib} `{Profile}.

(** [LoserTreeMerger<ArenaSource>], whose comparator defaults to internal keys. *)
Abbreviation Merger := (LoserTreeOf ArenaSource InternalKeyComparator).

(** One callback per entry: as much fuel as the sources have entries. *)
Definition merge_fuel (sources : list ArenaSource) : nat := length (concat (spans <$> sources)).

(** [strategy] is [&mut]: it is returned with the table. *)
Definition compact_with_strategy `{CompactionStrategy T} (sources : list ArenaSource)
    (opts : CompactionOptions) (strategy : T) : outcome (T * bytes) :=
  merger ← Kmerge.new Merger sources;
  '(_, st) ← run (merge_fuel sources) merger visit (visit_new strategy);
  sst ← build_sst st.(output) opts.(sst_builder);
  Ok (st.(Strategy.strategy), sst).

Definition compact (sources : list ArenaSource) (opts : CompactionOptions) : outcome bytes :=
  snd <$> compact_with_strategy sources opts BottommostStrategy_.

(** [max_by_key(|s| s.total_len())]: the last of the largest sources. *)
Definition max_by_total_len (sources : list ArenaSource) : option ArenaSource :=
  match sources with
  | [] => None
  | s :: sources =>
      Some (foldl (fun best s => if total_len best <=? total_len s then s else best) s sources)
  end.

(** The [map] over [1..num_shards] of [pick_shard_boundaries]. *)
Fixpoint boundaries_from (largest : ArenaSource) (n num_shards i : Z) (count : nat) : outcome (list bytes) :=
  match count with
  | O => Ok []
  | S count =>
      ni ← mul_u64 n i;
      let idx := ni / num_shards in
      k ← key_at largest (Z.min idx (n - 1));
      ks ← boundaries_from largest n num_shards (i + 1) count;
      Ok (k :: ks)
  end.

Definition pick_shard_boundaries (sources : list ArenaSource) (num_shards : Z) : outcome (list bytes) :=
  largest ← unwrap (max_by_total_len sources);
  let n := total_len largest in
  if n =? 0 then Ok [] else boundaries_from largest n num_shards 1 (Z.to_nat (num_shards - 1)).

(** The slices of one source, in shard order. *)
Fixpoint slice_source (source : ArenaSource) (start : Z) (boundaries : list bytes) :
    outcome (list ArenaSource) :=
  match boundaries with
  | [] => s ← shard source start (total_len source); Ok [s]
  | boundary :: boundaries =>
      end_ ← lower_bound source boundary;
      s ← shard source start end_;
      ss ← slice_source source end_ boundaries;
      Ok (s :: ss)
  end.

(** [shard_inputs[shard_idx].push(..)] for every slice of a source. *)
Definition push_slices (shard_inputs : list (list ArenaSource)) (slices : list ArenaSource) :
    list (list ArenaSource) := zip_with (fun inputs s => inputs ++ [s]) shard_inputs slices.

Fixpoint slice_sources (sources : list ArenaSource) (boundaries : list bytes)
    (shard_inputs : list (list ArenaSource)) : outcome (list (list ArenaSource)) :=
  match sources with
  | [] => Ok shard_inputs
  | source :: sources =>
      slices ← slice_source source 0 boundaries;
      slice_sources sources boundaries (push_slices shard_inputs slices)
  end.

(** [task.await.map_err(..)?]: a panic inside a task comes back as an error.
    The tasks run in turn here, and in any interleaving in [Tasks]. *)
Definition join_task {A} (task : outcome A) : outcome A :=
  match task with
  | Panic => Err (Msg "subcompaction shard task panicked: {}" [])
  | r => r
  end.

Fixpoint await_tasks {A} (tasks : list (outcome A)) : outcome (list A) :=
  match tasks with
  | [] => Ok []
  | task :: tasks => out ← join_task task; outs ← await_tasks tasks; Ok (out :: outs)
  end.

Definition compact_sharded (sources : list ArenaSource) (num_shards : Z) (opts : CompactionOptions) :
    outcome (list bytes) :=
  if (num_shards <=? 1) || bool_decide (sources = []) then
    out ← compact sources opts; Ok [out]
  else
    boundaries ← pick_shard_boundaries sources num_shards;
    shard_inputs ← slice_sources sources boundaries (replicate (S (length boundaries)) []);
    await_tasks ((fun shard_sources => compact shard_sources opts) <$> shard_inputs).
End Compaction.

(** ** One compaction job *)

Section CompactLemmas.
Context `{ChecksumLib} `{Profile}.

(** A source as [load_arena_source] and sharding make them: entries with
    internal keys, in internal-key order. *)
Record source_sorted (s : ArenaSource) : Prop := {
  ss_ok : arena_ok s;
  ss_valid : Forall (fun e => ikey_valid e.1) (window s);
  ss_sorted : StronglySorted (cle (on_key ikey_cmp)) (window s)
}.

Definition inputs (sources : list ArenaSource) : list entry := concat (window <$> sources).

Lemma merge_fuel_enough sources : (length (inputs sources) <= merge_fuel sources)%nat.
Proof.
  unfold inputs, merge_fuel. induction sources as [|s ss IH]; cbn; [lia|]. rewrite !length_app.
  enough (length (window s) <= length s.(spans))%nat by lia.
  unfold window. rewrite length_take, length_drop, all_entries_length. lia.
Qed.

Lemma merge_ok sources :
  Forall source_sorted sources ->
  exists m out, Kmerge.new (LoserTreeOf ArenaSource InternalKeyComparator) sources = Ok m /\
    kmerge ikey_cmp (window <$> sources) out /\
    forall St (f : bytes -> bytes -> St -> St) st,
      exists m', run (merge_fuel sources) m f st = Ok (m', feed f st out).
Proof.
  intros Hs.
  assert (sources_valid InternalKeyComparator sources) as Hv.
  { eapply Forall_impl; [exact Hs|]. intros s [Ho Hv _]. by split. }
  destruct (merge_refines (M := LoserTreeOf ArenaSource InternalKeyComparator) sources (merge_fuel sources) Hv)
    as (m & out & Hnew & Hk & Hrun); [apply merge_fuel_enough|].
  by exists m, out.
Qed.

(** What comes out of the merge of sorted sources. *)
Lemma merge_output sources out :
  Forall source_sorted sources -> kmerge ikey_cmp (window <$> sources) out ->
  out ≡ₚ inputs sources /\ StronglySorted (cle (on_key ikey_cmp)) out /\
  Forall (fun e => ikey_valid e.1) out.
Proof.
  intros Hs Hk. pose proof (kmerge_perm _ _ _ Hk) as Hp. split_and!; [exact Hp| |].
  - apply (kmerge_sorted ikey_cmp _ _ Hk). apply Forall_fmap. eapply Forall_impl; [exact Hs|]. by intros s [].
  - rewrite Hp. apply Forall_concat, Forall_fmap. eapply Forall_impl; [exact Hs|]. by intros s [].
Qed.

(** Merging, selecting and building: the table is that of the selection. *)
Lemma compact_with_strategy_eq `{CompactionStrategy T} sources opts (t : T) :
  Forall source_sorted sources ->
  exists out t', kmerge ikey_cmp (window <$> sources) out /\
    compact_with_strategy sources opts t =
      (sst ← build_sst (select t out) opts.(sst_builder); Ok (t', sst)).
Proof.
  intros Hs. destruct (merge_ok sources Hs) as (m & out & Hnew & Hk & Hrun).
  destruct (Hrun (Visit T) visit (visit_new t)) as [m' Hr].
  exists out, (feed visit (visit_new t) out).(Strategy.strategy). split; [done|].
  unfold compact_with_strategy. by rewrite Hnew, bind_Ok, Hr, bind_Ok.
Qed.

Lemma compact_eq sources opts :
  Forall source_sorted sources ->
  exists out, kmerge ikey_cmp (window <$> sources) out /\
    compact sources opts = build_sst (select BottommostStrategy_ out) opts.(sst_builder).
Proof.
  intros Hs. destruct (compact_with_strategy_eq sources opts BottommostStrategy_ Hs) as (out & t' & Hk & Heq).
  exists out. split; [done|]. unfold compact. rewrite Heq.
  by destruct (build_sst _ _) as [b| | |].
Qed.

(** The inputs of a job whose table stays within the format's limits. *)
Definition fits (es : list entry) : Prop := Forall small es /\ sst_weight es < 2 ^ 32.

Lemma sst_weight_sublist es fs : es `sublist_of` fs -> sst_weight es <= sst_weight fs.
Proof.
  induction 1 as [|e es fs _ IH|e es fs _ IH]; cbn; [done| |]; fold (sst_weight es) (sst_weight fs); len_lia.
Qed.
Lemma sst_weight_perm es fs : es ≡ₚ fs -> sst_weight es = sst_weight fs.
Proof.
  induction 1 as [|e es fs _ IH|e1 e2 es|es fs gs _ IH1 _ IH2]; cbn; [done| | |congruence].
  - fold (sst_weight es) (sst_weight fs). lia.
  - fold (sst_weight es). lia.
Qed.

Lemma fits_select `{StrategyLaws T} (t : T) es fs :
  fits fs -> es ≡ₚ fs -> Forall (fun e => ikey_valid e.1) es -> fits (select t es).
Proof.
  intros [Hs Hw] Hp Hv. pose proof (select_sublist t es Hv) as Hsub. split.
  - eapply Forall_sublist; [exact Hsub|]. by rewrite Hp.
  - apply sst_weight_sublist in Hsub. rewrite (sst_weight_perm es fs Hp) in Hsub. lia.
Qed.

(** A job on sorted sources that fit succeeds, and its table holds the
    selection of a merge of the sources. *)
Lemma compact_with_strategy_ok `{StrategyLaws T} sources opts (t : T) :
  Forall source_sorted sources -> fits (inputs sources) -> opts_ok opts.(sst_builder) ->
  exists out t' file props ft, kmerge ikey_cmp (window <$> sources) out /\
    compact_with_strategy sources opts t = Ok (t', file) /\
    sst_layout file (table_entries opts.(sst_builder) (select t out)) props ft.
Proof.
  intros Hs Hf Ho. destruct (compact_with_strategy_eq sources opts t Hs) as (out & t' & Hk & ->).
  destruct (merge_output sources out Hs Hk) as (Hp & _ & Hv).
  destruct (fits_select t out _ Hf Hp Hv) as [Hsm Hw].
  destruct (build_sst_ok (select t out) opts.(sst_builder) Hsm Hw Ho) as (file & props & ft & -> & Hl & _).
  { intros _. eapply Forall_sublist; [by apply select_sublist|done]. }
  by exists out, t', file, props, ft.
Qed.
End CompactLemmas.

(** [fits] of a concrete list. *)
Ltac fits_concrete :=
  split; [repeat (constructor; [unfold small, u32; split_and!; vm_compute; discriminate || reflexivity|]); constructor|vm_compute; reflexivity].
