(* ===== verification/Sharding.v ===== *)
(** Subcompaction sharding of [compaction/mod.rs]: the boundaries cut every
    source at the same user keys, so the shards' outputs, one after the other,
    are the output of the unsharded job. *)

From S2P Require Import Prelude InternalKey Checksum Footer Block BlockBuilders Properties SstBuilder FileReader SstReader Loader.
From S2P Require Import Cmp Source Kmerge LoserTree Strategy Compaction.
Import InternalKey.

(** ** Key ranges *)

(** The user keys from [lo] (inclusive) to [hi] (exclusive). *)
Definition in_range (rng : option bytes * option bytes) (e : entry) : Prop :=
  (forall b, rng.1 = Some b -> ~ user_lt b e) /\ (forall b, rng.2 = Some b -> user_lt b e).

Fixpoint ranges (lo : option bytes) (bs : list bytes) : list (option bytes * option bytes) :=
  match bs with
  | [] => [(lo, None)]
  | b :: bs => (lo, Some b) :: ranges (Some b) bs
  end.

(** The number of entries below a boundary. *)
Definition below (lo : option bytes) (es : list entry) : nat :=
  match lo with Some b => length (filter (user_lt b) es) | None => 0 end.

Definition lo_le (lo : option bytes) (b : bytes) : Prop := forall a, lo = Some a -> cle slice_cmp a b.

Section Ranges.
Implicit Types (es : list entry).

Lemma user_lt_mono a b e : cle slice_cmp a b -> user_lt a e -> user_lt b e.
Proof. intros Hab Ha. exact (clt_cle_trans slice_cmp _ _ _ Ha Hab). Qed.

Lemma take_below b es :
  StronglySorted (cle user_cmp) es -> take (below (Some b) es) es = filter (user_lt b) es.
Proof. intros Hs. rewrite (filter_user_lt_partition b es Hs) at 2. apply take_app_length. Qed.

Lemma drop_below b es :
  StronglySorted (cle user_cmp) es -> drop (below (Some b) es) es = filter (fun e => ~ user_lt b e) es.
Proof. intros Hs. rewrite (filter_user_lt_partition b es Hs) at 2. apply drop_app_length. Qed.

Lemma below_mono lo b es : lo_le lo b -> (below lo es <= below (Some b) es)%nat.
Proof.
  intros Hl. destruct lo as [a|]; cbn; [|lia].
  rewrite <- (list_filter_filter_l (user_lt a) (user_lt b)) at 1; [apply length_filter|].
  intros e. apply user_lt_mono, Hl. done.
Qed.

Lemma below_length lo es : (below lo es <= length es)%nat.
Proof. destruct lo; cbn; [apply length_filter|lia]. Qed.

(** What lies between two boundaries is in range. *)
Lemma window_in_range lo hi es :
  StronglySorted (cle user_cmp) es ->
  let e := match hi with Some b => below (Some b) es | None => length es end in
  Forall (in_range (lo, hi)) (take (e - below lo es) (drop (below lo es) es)).
Proof.
  intros Hs e. apply Forall_forall. intros x Hx. split; cbn; intros b ->.
  - rewrite drop_below in Hx by done. eapply elem_of_sublist in Hx; [|apply sublist_take].
    by apply list_elem_of_filter in Hx as [? _].
  - destruct (decide (below lo es <= e)%nat) as [Hle|]; [|replace (e - _)%nat with 0%nat in Hx by lia; by apply elem_of_nil in Hx].
    rewrite take_drop_commute in Hx. eapply elem_of_sublist in Hx; [|apply sublist_drop].
    replace (below lo es + _)%nat with (below (Some b) es) in Hx by (unfold e in *; lia).
    rewrite take_below in Hx by done. by apply list_elem_of_filter in Hx as [? _].
Qed.

(** Lists in consecutive ranges do not share user keys, and stay sorted. *)
Lemma ranges_lower lo bs outs :
  Forall2 (fun rng out => Forall (in_range rng) out) (ranges lo bs) outs ->
  StronglySorted (cle slice_cmp) bs -> Forall (lo_le lo) bs ->
  forall x b, x ∈ concat outs -> lo = Some b -> ~ user_lt b x.
Proof.
  revert lo outs. induction bs as [|b bs IH]; intros lo outs Hf Hs Hlo x a Hx Ha; cbn [ranges] in Hf.
  - inversion Hf as [|? out ? outs' Hr Hf']; subst. inversion Hf'; subst.
    cbn in Hx. rewrite app_nil_r in Hx. rewrite Forall_forall in Hr. by apply (Hr x Hx).
  - inversion Hf as [|? out ? outs' Hr Hf']; subst. inversion Hs as [|? ? Hs' Hb]; subst.
    inversion Hlo as [|? ? Hab Hlo']; subst.
    cbn [concat] in Hx. apply elem_of_app in Hx as [Hx|Hx].
    + rewrite Forall_forall in Hr. by apply (Hr x Hx).
    + intros Hlt. eapply (IH (Some b) outs' Hf' Hs'); [|exact Hx|done|].
      * eapply Forall_impl; [exact Hb|]. intros c Hbc a' [= <-]. exact Hbc.
      * by eapply user_lt_mono; [apply Hab|].
Qed.

Lemma ranges_cross lo b bs out outs :
  Forall (in_range (lo, Some b)) out ->
  Forall2 (fun rng out => Forall (in_range rng) out) (ranges (Some b) bs) outs ->
  StronglySorted (cle slice_cmp) (b :: bs) ->
  forall x y, x ∈ out -> y ∈ concat outs -> clt user_cmp x y.
Proof.
  intros Hr Hf Hs x y Hx Hy. inversion Hs as [|? ? Hs' Hb]; subst.
  rewrite Forall_forall in Hr. destruct (Hr x Hx) as [_ Hlt]. specialize (Hlt b eq_refl).
  assert (~ user_lt b y) as Hge.
  { eapply (ranges_lower (Some b) bs outs Hf Hs'); [|exact Hy|done].
    eapply Forall_impl; [exact Hb|]. intros c Hbc a' [= <-]. exact Hbc. }
  unfold user_lt in *. apply (not_clt_cle slice_cmp) in Hge.
  exact (clt_cle_trans slice_cmp _ _ _ Hlt Hge).
Qed.

Lemma user_lt_ikey x y : clt user_cmp x y -> cle (on_key ikey_cmp) x y.
Proof. unfold clt, cle, user_cmp, on_key, ikey_cmp. by intros ->. Qed.

(** The shards' sorted outputs concatenate to a sorted list, and selecting
    shard by shard is selecting from the whole. *)
Lemma ranges_concat `{StrategyLaws T} (t : T) lo bs outs :
  Forall2 (fun rng out => Forall (in_range rng) out) (ranges lo bs) outs ->
  StronglySorted (cle slice_cmp) bs ->
  Forall (StronglySorted (cle (on_key ikey_cmp))) outs ->
  Forall (Forall (fun e => ikey_valid e.1)) outs ->
  StronglySorted (cle (on_key ikey_cmp)) (concat outs) /\
  select t (concat outs) = concat (select t <$> outs).
Proof.
  revert lo outs. induction bs as [|b bs IH]; intros lo outs Hf Hs Hso Hv; cbn [ranges] in Hf;
    inversion Hf as [|? out ? outs' Hr Hf']; subst; inversion Hso as [|? ? Ho Hso']; subst;
    inversion Hv as [|? ? Hvo Hv']; subst.
  - inversion Hf'; subst. cbn. by rewrite !app_nil_r.
  - pose proof (ranges_cross lo b bs out outs' Hr Hf' Hs) as Hcross.
    inversion Hs as [|? ? Hs' _]; subst. destruct (IH _ _ Hf' Hs' Hso' Hv') as [Hss Hsel]. cbn [concat fmap list_fmap]. split.
    + apply StronglySorted_app. split_and!; [|done|done].
      intros x y Hx Hy. apply user_lt_ikey. by apply Hcross.
    + rewrite select_app, Hsel; [done| |].
      * apply Forall_app. split; [done|]. by apply Forall_concat.
      * intros x y Hx Hy Hxy. specialize (Hcross x y Hx Hy). unfold clt, user_cmp, same_user in *.
        rewrite Hxy, slice_cmp_refl in Hcross. done.
Qed.
End Ranges.

(** ** Slicing the sources *)

Section Slices.
Context `{ChecksumLib} `{Profile}.

(** A source not yet sharded, sorted. *)
Definition whole (s : ArenaSource) : Prop := source_sorted s /\ window s = all_entries s.

(** What a slice of a source within a range is. *)
Definition slice_ok (rng : option bytes * option bytes) (s : ArenaSource) : Prop :=
  source_sorted s /\ Forall (in_range rng) (window s).

Lemma shard_ok s (a b : nat) lo hi :
  whole s -> (a <= b <= length (all_entries s))%nat ->
  Forall (in_range (lo, hi)) (take (b - a) (drop a (all_entries s))) ->
  exists s', shard s (Z.of_nat a) (Z.of_nat b) = Ok s' /\ slice_ok (lo, hi) s' /\
    window s' = take (b - a) (drop a (all_entries s)).
Proof.
  intros [[Hok Hv Hs] Hw] Hab Hr. rewrite Hw in Hv, Hs.
  destruct (shard_spec s (Z.of_nat a) (Z.of_nat b) Hok) as (s' & Hsh & Hok' & _ & Hwin); [lia| |].
  { unfold total_len, len. rewrite <- (all_entries_length s). lia. }
  replace (Z.to_nat (Z.of_nat b - Z.of_nat a)) with (b - a)%nat in Hwin by lia. rewrite Nat2Z.id in Hwin.
  exists s'. split; [done|]. split; [|done]. split; [|by rewrite Hwin].
  assert (window s' `sublist_of` all_entries s) as Hsub
    by (rewrite Hwin; etransitivity; [apply sublist_take|apply sublist_drop]).
  split; [done|by eapply Forall_sublist|by eapply StronglySorted_sublist].
Qed.

Lemma slice_source_ok s lo bs :
  whole s -> Forall ikey_valid bs -> StronglySorted (cle slice_cmp) (ikey_user <$> bs) ->
  Forall (lo_le lo) (ikey_user <$> bs) ->
  exists ss, slice_source s (Z.of_nat (below lo (all_entries s))) bs = Ok ss /\
    Forall2 slice_ok (ranges lo (ikey_user <$> bs)) ss /\
    inputs ss = drop (below lo (all_entries s)) (all_entries s).
Proof.
  intros Hw. pose proof Hw as [[Hok Hv Hso] Hwin]. rewrite Hwin in Hv, Hso. apply sorted_user in Hso.
  set (es := all_entries s) in *. revert lo. induction bs as [|b bs IH]; intros lo Hbv Hbs Hlo;
    cbn [slice_source fmap list_fmap ranges].
  - replace (total_len s) with (Z.of_nat (length es)) by (unfold es, total_len, len; by rewrite all_entries_length).
    destruct (shard_ok s (below lo es) (length es) lo None Hw) as (s' & -> & Hs' & Hwin').
    { split; [apply below_length|done]. }
    { by apply (window_in_range lo None). }
    rewrite bind_Ok. exists [s']. split_and!; [done|constructor; [exact Hs'|constructor]|].
    unfold inputs. cbn. rewrite app_nil_r, Hwin'. apply take_ge. rewrite length_drop. done.
  - inversion Hbv as [|? ? Hb Hbv']; subst. cbn [fmap list_fmap] in Hbs, Hlo.
    inversion Hbs as [|? ? Hbs' Hbb]; subst. inversion Hlo as [|? ? Hlb Hlo']; subst.
    rewrite lower_bound_spec, bind_Ok by done. fold es. change (len (filter (user_lt (ikey_user b)) es))
      with (Z.of_nat (below (Some (ikey_user b)) es)).
    destruct (shard_ok s (below lo es) (below (Some (ikey_user b)) es) lo (Some (ikey_user b)) Hw)
      as (s' & -> & Hs' & Hwin').
    { split; [by apply below_mono|apply below_length]. }
    { by apply (window_in_range lo (Some (ikey_user b))). }
    rewrite bind_Ok. destruct (IH (Some (ikey_user b)) Hbv' Hbs') as (ss & -> & Hss & Hin).
    { eapply Forall_impl; [exact Hbb|]. intros c Hbc a' [= <-]. exact Hbc. }
    rewrite bind_Ok. exists (s' :: ss). split_and!; [done|by constructor|].
    unfold inputs in *. cbn [fmap list_fmap concat]. rewrite Hin, Hwin'. fold es.
    pose proof (below_mono lo (ikey_user b) es Hlb).
    replace (below (Some (ikey_user b)) es) with (below lo es + (below (Some (ikey_user b)) es - below lo es))%nat at 2 by lia.
    rewrite <- drop_drop. apply take_drop.
Qed.

Lemma push_slices_ok rngs (ins : list (list ArenaSource)) ss :
  Forall2 (fun rng i => Forall (slice_ok rng) i) rngs ins -> Forall2 slice_ok rngs ss ->
  Forall2 (fun rng i => Forall (slice_ok rng) i) rngs (push_slices ins ss) /\
  concat (inputs <$> push_slices ins ss) ≡ₚ concat (inputs <$> ins) ++ inputs ss.
Proof.
  intros Hi. revert ss. induction Hi as [|rng i rngs ins Hi His IH]; intros ss Hss; inversion Hss as [|? s ? ss' Hs Hss']; subst.
  - split; [constructor|done].
  - destruct (IH ss' Hss') as [IH1 IH2]. cbn [push_slices zip_with]. fold (push_slices ins ss'). split.
    + constructor; [|done]. apply Forall_app. split; [done|by apply Forall_singleton].
    + cbn [fmap list_fmap concat]. rewrite IH2. unfold inputs at 1. rewrite fmap_app, concat_app. fold (inputs i).
      unfold inputs at 5. cbn [fmap list_fmap concat]. fold (inputs ss'). rewrite app_nil_r. solve_Permutation.
Qed.
End Slices.

(** ** The jobs of the shards *)

Section Jobs.
Context `{ChecksumLib} `{Profile}.

Lemma slice_sources_ok bs sources ins :
  Forall whole sources -> Forall ikey_valid bs -> StronglySorted (cle slice_cmp) (ikey_user <$> bs) ->
  Forall2 (fun rng i => Forall (slice_ok rng) i) (ranges None (ikey_user <$> bs)) ins ->
  exists ins', slice_sources sources bs ins = Ok ins' /\
    Forall2 (fun rng i => Forall (slice_ok rng) i) (ranges None (ikey_user <$> bs)) ins' /\
    concat (inputs <$> ins') ≡ₚ concat (inputs <$> ins) ++ inputs sources.
Proof.
  intros Hw Hbv Hbs. revert ins. induction Hw as [|s sources Hs Hw IH]; intros ins Hins; cbn [slice_sources].
  { exists ins. by rewrite app_nil_r. }
  destruct (slice_source_ok s None bs Hs Hbv Hbs) as (ss & Hsl & Hss & Hin).
  { apply Forall_forall. by intros x _ a. }
  cbn [below drop] in Hsl, Hin. change (Z.of_nat 0) with 0 in Hsl. rewrite Hsl, bind_Ok.
  destruct (push_slices_ok _ _ _ Hins Hss) as [Hins' Hp].
  destruct (IH _ Hins') as (ins' & -> & Hins'' & Hp'). exists ins'. split_and!; [done|done|].
  rewrite Hp', Hp, Hin. unfold inputs at 4. cbn [fmap list_fmap concat]. fold (inputs sources).
  destruct Hs as [_ ->]. by rewrite <- (assoc_L (++)).
Qed.

Lemma empty_inputs lo bs :
  Forall2 (fun rng i => Forall (slice_ok rng) i) (ranges lo bs) (replicate (S (length bs)) []) /\
  concat (inputs <$> replicate (S (length bs)) []) = [].
Proof.
  revert lo. induction bs as [|b bs IH]; intros lo; cbn [ranges length replicate].
  - split; [repeat constructor|done].
  - destruct (IH (Some b)) as [IH1 IH2]. split; [by constructor|]. cbn [fmap list_fmap concat].
    exact IH2.
Qed.

(** [file] is a table of the entries [es]. *)
Definition table_of (file : bytes) (es : list entry) : Prop :=
  exists props ft, sst_layout file es props ft.

Lemma compact_ok sources opts :
  Forall source_sorted sources -> fits (inputs sources) -> opts_ok opts.(sst_builder) ->
  exists out file, kmerge ikey_cmp (window <$> sources) out /\ compact sources opts = Ok file /\
    table_of file (table_entries opts.(sst_builder) (select BottommostStrategy_ out)).
Proof.
  intros Hs Hf Ho. destruct (compact_with_strategy_ok sources opts BottommostStrategy_ Hs Hf Ho)
    as (out & t' & file & props & ft & Hk & Hc & Hl).
  exists out, file. split_and!; [done|unfold compact; by rewrite Hc|by exists props, ft].
Qed.

Lemma fits_app es fs : fits (es ++ fs) -> fits es /\ fits fs.
Proof.
  intros [[Hs1 Hs2]%Forall_app Hw]. rewrite sst_weight_app in Hw.
  pose proof (sst_weight_ge es) as (? & ? & _). pose proof (sst_weight_ge fs) as (? & ? & _).
  pose proof (block_weight_nonneg es). pose proof (block_weight_nonneg fs).
  split; (split; [done|]); len_lia.
Qed.

Lemma built_source_sorted es :
  Forall (fun e => ikey_valid e.1) es -> StronglySorted (cle (on_key ikey_cmp)) es -> arena_bytes es < 2 ^ 32 ->
  let s := Source.build (push_all builder_new es) in whole s /\ window s = es.
Proof.
  intros Hv Hs Hb. destruct (build_ok (push_all builder_new es) es) as (Hok & Hall & Hwin).
  { apply (push_all_repr builder_new [] es builder_new_repr Hb). }
  cbn. unfold whole. rewrite Hwin, Hall. split; [|done]. split; [|done]. by split; rewrite ?Hwin.
Qed.

(** Sources built from lists of entries. *)
Definition arena_of (es : list entry) : ArenaSource := Source.build (push_all builder_new es).

Lemma built_sources per_source :
  Forall (fun es => Forall (fun e => ikey_valid e.1) es /\ StronglySorted (cle (on_key ikey_cmp)) es) per_source ->
  fits (concat per_source) ->
  Forall whole (arena_of <$> per_source) /\ window <$> (arena_of <$> per_source) = per_source.
Proof.
  induction 1 as [|es ps [Hv Hs] _ IH]; intros Hf; [split; [constructor|done]|]. cbn [concat] in Hf.
  apply fits_app in Hf as [[_ Hw] Hf]. destruct (IH Hf) as [IH1 IH2].
  pose proof (arena_bytes_weight es). destruct (built_source_sorted es Hv Hs) as [Hwh Hwin]; [lia|].
  cbn [fmap list_fmap]. split; [by constructor|]. f_equal; [exact Hwin|exact IH2].
Qed.

Lemma shard_jobs_ok rngs ins opts :
  Forall2 (fun rng i => Forall (slice_ok rng) i) rngs ins ->
  fits (concat (inputs <$> ins)) -> opts_ok opts.(sst_builder) ->
  exists outs files,
    await_tasks ((fun shard_sources => compact shard_sources opts) <$> ins) = Ok files /\
    Forall2 (fun file out => table_of file
      (table_entries opts.(sst_builder) (select BottommostStrategy_ out))) files outs /\
    Forall2 (fun rng out => Forall (in_range rng) out) rngs outs /\
    Forall (StronglySorted (cle (on_key ikey_cmp))) outs /\
    Forall (Forall (fun e => ikey_valid e.1)) outs /\
    concat outs ≡ₚ concat (inputs <$> ins).
Proof.
  intros Hi. induction Hi as [|rng i rngs ins Hs Hi IH]; intros Hf Ho; cbn [fmap list_fmap await_tasks concat] in *.
  { by exists [], []. }
  apply fits_app in Hf as [Hf1 Hf2]. destruct (IH Hf2 Ho) as (outs & files & Haw & Htab & Hrng & Hso & Hv & Hp).
  assert (Forall source_sorted i) as Hss by (eapply Forall_impl; [exact Hs|]; by intros s []).
  destruct (compact_ok i opts Hss Hf1 Ho) as (out & file & Hk & -> & Ht).
  destruct (merge_output i out Hss Hk) as (Hpo & Hsorted & Hval).
  cbn [join_task]. rewrite bind_Ok, Haw, bind_Ok. exists (out :: outs), (file :: files).
  split_and!; [done|by constructor|constructor; [|done]|by constructor|by constructor|].
  - rewrite Hpo. apply Forall_concat, Forall_fmap. eapply Forall_impl; [exact Hs|]. by intros s [].
  - cbn [concat]. by rewrite Hpo, Hp.
Qed.

(** ** Picking the boundaries *)

Lemma max_by_total_len_elem sources :
  sources <> [] -> exists s, max_by_total_len sources = Some s /\ s ∈ sources.
Proof.
  destruct sources as [|s ss]; [done|]. intros _. cbn [max_by_total_len]. eexists. split; [reflexivity|].
  assert (forall best, foldl (fun best s => if total_len best <=? total_len s then s else best) best ss ∈ best :: ss) as Hf.
  { induction ss as [|x ss IH]; intros best; cbn [foldl]; [by left|].
    specialize (IH (if total_len best <=? total_len x then x else best)).
    apply elem_of_cons in IH as [->|IH]; [case_match; set_solver|set_solver]. }
  apply Hf.
Qed.

Lemma boundaries_from_ok s num i count :
  arena_ok s -> 0 < total_len s -> 0 < num -> 0 <= i -> i + Z.of_nat count <= num ->
  total_len s * num < 2 ^ 64 ->
  exists ks, boundaries_from s (total_len s) num i count = Ok ks /\
    exists ps : list (nat * entry),
      ks = (fun p => p.2.1) <$> ps /\ StronglySorted (fun p q => p.1 <= q.1)%nat ps /\
      Forall (fun p => all_entries s !! p.1 = Some p.2 /\
                Z.min (total_len s * i / num) (total_len s - 1) <= Z.of_nat p.1) ps.
Proof.
  intros Hok Hn Hnum. revert i. induction count as [|count IH]; intros i Hi Hc Hmul; cbn [boundaries_from].
  { exists []. split; [done|]. exists []. split_and!; [done|constructor|constructor]. }
  rewrite mul_u64_ok, bind_Ok by nia. cbv zeta. set (j := Z.min (total_len s * i / num) (total_len s - 1)).
  assert (0 <= j < total_len s) as Hj.
  { unfold j. pose proof (Z.div_pos (total_len s * i) num ltac:(nia) Hnum). lia. }
  destruct (lookup_lt_is_Some_2 (all_entries s) (Z.to_nat j)) as [e He].
  { rewrite all_entries_length. unfold total_len, len in Hj. lia. }
  rewrite (get_at_all_entries s j e Hok), bind_Ok by (done || lia).
  destruct (IH (i + 1)) as (ks & -> & ps & -> & Hsp & Hps); [lia..|]. rewrite bind_Ok.
  eexists. split; [reflexivity|]. exists ((Z.to_nat j, e) :: ps). split_and!; [done| |].
  - constructor; [done|]. eapply Forall_impl; [exact Hps|]. intros [q e'] [_ Hq]. cbn in *.
    assert (total_len s * i / num <= total_len s * (i + 1) / num) by (apply Z.div_le_mono; nia).
    unfold j in *. lia.
  - constructor; [cbn; split; [done|lia]|]. eapply Forall_impl; [exact Hps|]. intros [q e'] [Hl Hq]. cbn in *.
    split; [done|]. assert (total_len s * i / num <= total_len s * (i + 1) / num) by (apply Z.div_le_mono; nia). lia.
Qed.

(** The boundaries are keys of the sources, in user-key order. *)
Lemma pick_shard_boundaries_ok sources num :
  sources <> [] -> Forall whole sources -> 1 < num ->
  Forall (fun s => total_len s * num < 2 ^ 64) sources ->
  exists bs, pick_shard_boundaries sources num = Ok bs /\ Forall ikey_valid bs /\
    StronglySorted (cle slice_cmp) (ikey_user <$> bs).
Proof.
  intros Hne Hw Hnum Hmul. destruct (max_by_total_len_elem sources Hne) as (s & Hs & Hin).
  unfold pick_shard_boundaries. rewrite Hs. cbn [unwrap]. rewrite bind_Ok.
  rewrite Forall_forall in Hw, Hmul. destruct (Hw s Hin) as [[Hok Hv Hso] Hwin]. rewrite Hwin in Hv, Hso.
  destruct (Z.eqb_spec (total_len s) 0) as [|Hn0].
  { exists []. split_and!; [done|constructor|constructor]. }
  assert (0 < total_len s) by (unfold total_len in *; len_lia).
  destruct (boundaries_from_ok s num 1 (Z.to_nat (num - 1)) Hok) as (ks & -> & ps & -> & Hsp & Hps);
    [lia..|by apply Hmul|].
  eexists. split; [reflexivity|]. split.
  - apply Forall_fmap. eapply Forall_impl; [exact Hps|]. intros [j e] [He _]. cbn in *.
    rewrite Forall_lookup in Hv. eauto.
  - apply sorted_user in Hso. induction Hsp as [|[j e] ps Hsp IH Hall]; [constructor|].
    inversion Hps as [|? ? [He _] Hps']; subst. cbn [fmap list_fmap fst snd] in *.
    constructor; [by apply IH|]. apply Forall_fmap, Forall_fmap, Forall_forall. intros [j' e'] Hin'.
    rewrite Forall_forall in Hall, Hps'. specialize (Hall _ Hin'). destruct (Hps' _ Hin') as [He' _].
    cbn in *. destruct (decide (j = j')) as [<-|Hne'].
    + assert (e' = e) as -> by congruence. reflexivity.
    + apply (StronglySorted_lookup (cle user_cmp) (all_entries s) j j' e e' Hso); [cbn in Hall; lia|done..].
Qed.

(** Merging everything at once gives the concatenation of the shards' merges,
    when no two entries have the same key. *)
Lemma sharded_merge_unique sources out outs :
  Forall source_sorted sources -> kmerge ikey_cmp (window <$> sources) out ->
  NoDup (inputs sources).*1 ->
  StronglySorted (cle (on_key ikey_cmp)) (concat outs) -> concat outs ≡ₚ inputs sources ->
  out = concat outs.
Proof.
  intros Hs Hk Hnd Hso Hp. destruct (merge_output sources out Hs Hk) as (Hpo & Hsorted & Hv).
  apply (sorted_unique ikey_cmp ikey_valid); [|done|by rewrite Hpo|done|done|by rewrite Hpo, Hp].
  intros a b Ha Hb. by apply ikey_cmp_eq.
Qed.

(** A sharded run: every shard succeeds, and the tables hold, in order, what
    the single table of the unsharded run holds. *)
Lemma compact_sharded_ok sources num opts :
  sources <> [] -> Forall whole sources -> 1 < num ->
  Forall (fun s => total_len s * num < 2 ^ 64) sources ->
  fits (inputs sources) -> opts_ok opts.(sst_builder) -> NoDup (inputs sources).*1 ->
  exists file es files ess,
    compact sources opts = Ok file /\ table_of file es /\
    compact_sharded sources num opts = Ok files /\ Forall2 table_of files ess /\ concat ess = es /\
    sst_weight es < 2 ^ 32.
Proof.
  intros Hne Hw Hnum Hmul Hf Ho Hnd.
  assert (Forall source_sorted sources) as Hss by (eapply Forall_impl; [exact Hw|]; by intros s []).
  destruct (compact_ok sources opts Hss Hf Ho) as (out & file & Hk & Hc & Ht).
  destruct (pick_shard_boundaries_ok sources num Hne Hw Hnum Hmul) as (bs & Hbs & Hbv & Hbso).
  destruct (empty_inputs None (ikey_user <$> bs)) as [He1 He2]. rewrite length_fmap in He1, He2.
  destruct (slice_sources_ok bs sources _ Hw Hbv Hbso He1) as (ins & Hsl & Hins & Hp).
  rewrite He2 in Hp. cbn [app] in Hp.
  assert (fits (concat (inputs <$> ins))) as Hf'.
  { destruct Hf as [Hf1 Hf2]. split; [by rewrite Hp|by rewrite (sst_weight_perm _ _ Hp)]. }
  destruct (shard_jobs_ok _ ins opts Hins Hf' Ho) as (outs & files & Haw & Htab & Hrng & Hso & Hv & Hpo).
  destruct (ranges_concat BottommostStrategy_ _ _ _ Hrng Hbso Hso Hv) as [Hcso Hsel].
  assert (out = concat outs) as -> by (eapply sharded_merge_unique; [exact Hss|exact Hk|done|done|by rewrite Hpo, Hp]).
  eexists file, _, files, ((table_entries opts.(sst_builder) ∘ select BottommostStrategy_) <$> outs).
  assert (sst_weight (table_entries opts.(sst_builder) (select BottommostStrategy_ (concat outs))) < 2 ^ 32) as Hwt.
  { destruct (merge_output _ _ Hss Hk) as (Hpc & _ & Hvc).
    destruct (fits_select BottommostStrategy_ _ _ Hf Hpc Hvc) as [_ Hw2].
    rewrite (proj1 (table_entries_sizes _ _ (fun _ => Forall_sublist _ _ _ (select_sublist BottommostStrategy_ _ Hvc) Hvc))).
    exact Hw2. }
  split_and!; [exact Hc|exact Ht| | | |exact Hwt].
  - unfold compact_sharded. replace (num <=? 1) with false by lia.
    rewrite bool_decide_false by done. cbn [orb]. by rewrite Hbs, bind_Ok, Hsl, bind_Ok.
  - clear - Htab. induction Htab; constructor; done.
  - rewrite Hsel. unfold table_entries. case_match.
    + rewrite list_fmap_compose. clear. induction (select BottommostStrategy_ <$> outs) as [|o os IH]; cbn; [done|].
      by rewrite fmap_app, IH.
    + f_equal.
Qed.
End Jobs.
