(* ===== verification/Oracle.v ===== *)
(** The independent reference compaction of the [oracle] crate: a map from
    user key to the newest version, no merge and no loser tree. *)

From stdpp Require Import gmap.
From S2P Require Import Prelude InternalKey.

Module Oracle.
Definition SUFFIX_LEN : Z := 8.

Inductive ValueType : Type := Deletion | Value | SingleDeletion | Other (b : Z).

Definition decode_suffix `{Profile} (internal_key : bytes) : outcome (bytes * Z * ValueType) :=
  at_ ← sub_u64 (len internal_key) SUFFIX_LEN;
  user_key ← index_range internal_key 0 at_;
  packed ← from_le_bytes <$> index_range internal_key at_ (len internal_key);
  let seq := Z.shiftr packed 8 in
  let ty :=
    match as_u8 (Z.land packed 0xff) with
    | 0x0 => Deletion
    | 0x1 => Value
    | 0x7 => SingleDeletion
    | other => Other other
    end in
  Ok (user_key, seq, ty).

Definition is_tombstone (ty : ValueType) : bool :=
  match ty with Deletion | SingleDeletion => true | _ => false end.

(** user_key -> (best_seq, value, is_tombstone), a [BTreeMap]. *)
Abbreviation Best := (gmap bytes (Z * bytes * bool)).

Definition consider `{Profile} (best : Best) (e : entry) : outcome Best :=
  let '(key, value) := e in
  '(user_key, seq, ty) ← decode_suffix key;
  let is_tombstone := is_tombstone ty in
  match best !! user_key with
  | Some (existing_seq, _, _) =>
      if seq <=? existing_seq then Ok best
      else Ok (<[user_key := (seq, value, is_tombstone)]> best)
  | None => Ok (<[user_key := (seq, value, is_tombstone)]> best)
  end.

Fixpoint consider_all `{Profile} (best : Best) (es : list entry) : outcome Best :=
  match es with
  | [] => Ok best
  | e :: es => best ← consider best e; consider_all best es
  end.

Fixpoint consider_sources `{Profile} (best : Best) (sources : list (list entry)) : outcome Best :=
  match sources with
  | [] => Ok best
  | source :: sources => best ← consider_all best source; consider_sources best sources
  end.

(** [into_iter] of a [BTreeMap] runs in key order. *)
Definition btree_iter {V} (m : gmap bytes V) : list (bytes * V) :=
  sort_by key_cmp (map_to_list m).

Definition naive_compact `{Profile} (sources : list (list entry)) : outcome (list entry) :=
  best ← consider_sources ∅ sources;
  let live := filter (fun x : bytes * (Z * bytes * bool) => negb x.2.2 = true) (btree_iter best) in
  Ok ((fun x : bytes * (Z * bytes * bool) => (x.1, x.2.1.2)) <$> live).
End Oracle.

(** ** What the map holds *)

Section OracleLemmas.
Import Oracle.
Context `{Profile}.
Implicit Types (es : list entry).

Lemma decode_suffix_ok k :
  ikey_valid k ->
  exists ty, decode_suffix k = Ok (ikey_user k, ikey_seq k, ty) /\
    is_tombstone ty = is_tombstone_type (ikey_type k).
Proof.
  intros Hk. unfold decode_suffix, SUFFIX_LEN.
  rewrite sub_u64_ok, bind_Ok by (unfold ikey_valid in Hk; lia).
  rewrite ikey_index_user, bind_Ok, ikey_index_suffix, fmap_Ok, bind_Ok by done.
  fold (ikey_packed k). rewrite Z.shiftr_div_pow2 by lia. eexists. split; [reflexivity|].
  rewrite (Z.land_ones _ 8) by lia. unfold as_u8. rewrite Z.mod_mod by lia.
  unfold ikey_type, from_byte. change (2 ^ 8) with 256. repeat (case_match; try done).
Qed.

Lemma decode_suffix_short k : ~ ikey_valid k -> decode_suffix k = Panic.
Proof.
  unfold ikey_valid. intros Hk. unfold decode_suffix, SUFFIX_LEN. by rewrite index_short_suffix by lia.
Qed.

(** The record the map keeps of an entry. *)
Definition record_of (e : entry) : Z * bytes * bool :=
  (ikey_seq e.1, e.2, is_tombstone_type (ikey_type e.1)).

(** [best] holds, for every user key of [es], an entry of [es] that no other
    version of that key outranks. *)
Definition newest_of (best : Best) (es : list entry) : Prop :=
  forall uk, match best !! uk with
    | Some r => exists e, e ∈ es /\ ikey_user e.1 = uk /\ r = record_of e /\
        forall e', e' ∈ es -> ikey_user e'.1 = uk -> ikey_seq e'.1 <= ikey_seq e.1
    | None => forall e, e ∈ es -> ikey_user e.1 <> uk
    end.

Lemma insert_newest best es k v :
  newest_of best es ->
  (forall e', e' ∈ es -> ikey_user e'.1 = ikey_user k -> ikey_seq e'.1 <= ikey_seq k) ->
  newest_of (<[ikey_user k := record_of (k, v)]> best) (es ++ [(k, v)]).
Proof.
  intros Hb Hmax uk. specialize (Hb uk). destruct (decide (ikey_user k = uk)) as [<-|Hne].
  - rewrite lookup_insert_eq. exists (k, v). split_and!; [|done|done|].
    + apply elem_of_app. right. by apply list_elem_of_singleton.
    + intros e' [He'| ->%list_elem_of_singleton]%elem_of_app Hu; [by apply Hmax|done].
  - rewrite lookup_insert_ne by done. destruct (best !! uk) as [r|].
    + destruct Hb as (e & He & Hu & Hr & Hm). exists e. split_and!; [by apply elem_of_app; left|done|done|].
      intros e' [He'| ->%list_elem_of_singleton]%elem_of_app Hu'; [by apply Hm|done].
    + intros e [He| ->%list_elem_of_singleton]%elem_of_app; [by apply Hb|done].
Qed.

Lemma keep_newest best es e e0 :
  newest_of best es -> best !! ikey_user e.1 = Some (record_of e0) ->
  ikey_seq e.1 <= ikey_seq e0.1 -> newest_of best (es ++ [e]).
Proof.
  intros Hb Hl Hle uk. specialize (Hb uk). destruct (best !! uk) as [r|] eqn:Er.
  - destruct Hb as (x & Hx & Hu & Hr & Hm). exists x. split_and!; [by apply elem_of_app; left|done|done|].
    intros e' [He'| ->%list_elem_of_singleton]%elem_of_app Hu'; [by apply Hm|].
    rewrite Hu', Er in Hl. assert (record_of e0 = record_of x) as Heq by congruence.
    unfold record_of in Heq. injection Heq as Hs _ _. lia.
  - intros x [Hx| ->%list_elem_of_singleton]%elem_of_app; [by apply Hb|]. intros Hu. rewrite Hu, Er in Hl. done.
Qed.

Lemma consider_ok best es e :
  newest_of best es -> ikey_valid e.1 ->
  exists best', consider best e = Ok best' /\ newest_of best' (es ++ [e]).
Proof.
  intros Hb Hk. destruct e as [k v]. destruct (decode_suffix_ok k Hk) as (ty & Hd & Hty).
  unfold consider. rewrite Hd, bind_Ok. cbv zeta. rewrite Hty. fold (record_of (k, v)).
  pose proof (Hb (ikey_user k)) as Hu. destruct (best !! ikey_user k) as [[[s x] tomb]|] eqn:El.
  - destruct Hu as (e0 & He0 & Hu0 & Hr & Hm). pose proof Hr as Hr'. injection Hr' as -> _ _.
    destruct (Z.leb_spec (ikey_seq k) (ikey_seq e0.1)).
    + exists best. split; [done|]. apply (keep_newest best es (k, v) e0 Hb); [cbn [fst]; by rewrite El, Hr|done].
    + eexists. split; [reflexivity|]. apply insert_newest; [done|]. intros e' He' Hu'.
      specialize (Hm e' He' Hu'). lia.
  - eexists. split; [reflexivity|]. apply insert_newest; [done|]. intros e' He' Hu'. by apply Hu in He'.
Qed.

Lemma consider_all_ok best es fs :
  newest_of best es -> Forall (fun e => ikey_valid e.1) fs ->
  exists best', consider_all best fs = Ok best' /\ newest_of best' (es ++ fs).
Proof.
  intros Hb Hfs. revert best es Hb. induction Hfs as [|e fs He _ IH]; intros best es Hb; cbn [consider_all].
  { exists best. by rewrite app_nil_r. }
  destruct (consider_ok best es e Hb He) as (b1 & -> & Hb1). rewrite bind_Ok.
  destruct (IH b1 _ Hb1) as (b2 & -> & Hb2). exists b2. split; [done|]. by rewrite <- (assoc_L (++)) in Hb2.
Qed.

Lemma consider_sources_ok best es sources :
  newest_of best es -> Forall (Forall (fun e => ikey_valid e.1)) sources ->
  exists best', consider_sources best sources = Ok best' /\ newest_of best' (es ++ concat sources).
Proof.
  intros Hb Hs. revert best es Hb. induction Hs as [|s sources Hv _ IH]; intros best es Hb; cbn [consider_sources concat].
  { exists best. by rewrite app_nil_r. }
  destruct (consider_all_ok best es s Hb Hv) as (b1 & -> & Hb1). rewrite bind_Ok.
  destruct (IH b1 _ Hb1) as (b2 & -> & Hb2). exists b2. split; [done|]. by rewrite <- (assoc_L (++)) in Hb2.
Qed.

(** Iteration over the map is strictly increasing and lists its bindings. *)
Lemma btree_iter_elem {V} (m : gmap bytes V) k v : (k, v) ∈ btree_iter m <-> m !! k = Some v.
Proof. unfold btree_iter. rewrite sort_by_perm. apply elem_of_map_to_list. Qed.

Lemma btree_iter_sorted {V} (m : gmap bytes V) : StronglySorted (clt key_cmp) (btree_iter m).
Proof.
  apply key_cmp_strict; [apply sort_by_sorted; apply _|].
  unfold btree_iter. rewrite sort_by_perm. apply NoDup_fst_map_to_list.
Qed.

(** No two entries are the same version of the same key. *)
Definition distinct_versions es : Prop :=
  forall e e', e ∈ es -> e' ∈ es -> ikey_user e.1 = ikey_user e'.1 -> ikey_seq e.1 = ikey_seq e'.1 -> e = e'.

(** [e] is the newest version of its key in [es], and not a tombstone. *)
Definition live_newest es (e : entry) : Prop :=
  e ∈ es /\ is_tombstone_type (ikey_type e.1) = false /\
  forall e', e' ∈ es -> ikey_user e'.1 = ikey_user e.1 -> ikey_seq e'.1 <= ikey_seq e.1.

(** The reference result: the live newest versions, by user key. *)
Lemma naive_compact_ok sources :
  Forall (Forall (fun e => ikey_valid e.1)) sources -> distinct_versions (concat sources) ->
  exists out, naive_compact sources = Ok out /\ StronglySorted (clt key_cmp) out /\
    forall uk v, (uk, v) ∈ out <->
      exists e, live_newest (concat sources) e /\ ikey_user e.1 = uk /\ e.2 = v.
Proof.
  intros Hv Hd. destruct (consider_sources_ok ∅ [] sources) as (best & Hc & Hb); [|done|].
  { intros uk. rewrite lookup_empty. intros e He. by apply elem_of_nil in He. }
  cbn [app] in Hb. unfold naive_compact. rewrite Hc, bind_Ok. cbv zeta. eexists. split; [reflexivity|]. split.
  - pose proof (btree_iter_sorted best) as Hs. apply (StronglySorted_filter _ (fun x => negb x.2.2 = true)) in Hs.
    revert Hs. generalize (filter (fun x : bytes * (Z * bytes * bool) => negb x.2.2 = true) (btree_iter best)).
    induction 1 as [|x l Hs IH Hx]; [constructor|]. cbn. constructor; [exact IH|].
    apply Forall_fmap. eapply Forall_impl; [exact Hx|]. done.
  - intros uk v. rewrite list_elem_of_fmap. split.
    + intros ([k [[s x] t]] & [= -> ->] & [Ht Hin]%list_elem_of_filter). cbn in Ht.
      apply btree_iter_elem in Hin. specialize (Hb k). rewrite Hin in Hb.
      destruct Hb as (e & He & Hu & Hr & Hm). injection Hr as -> -> ->. exists e.
      split; [|done]. split_and!; [done|by apply negb_true_iff|]. intros e' He' Hu'. apply Hm; congruence.
    + intros (e & (He & Ht & Hm) & <- & <-). specialize (Hb (ikey_user e.1)).
      destruct (best !! ikey_user e.1) as [r|] eqn:El; [|by apply Hb in He].
      destruct Hb as (x & Hx & Hu & -> & Hmx).
      assert (x = e) as ->.
      { apply Hd; [done|done|done|]. specialize (Hm x Hx Hu). specialize (Hmx e He eq_refl). lia. }
      exists (ikey_user e.1, record_of e). split; [done|]. apply list_elem_of_filter. cbn. rewrite Ht.
      split; [done|]. by apply btree_iter_elem.
Qed.
End OracleLemmas.

Section OraclePanics.
Import Oracle.
Context `{Profile}.

Lemma consider_all_short best es :
  Exists (fun e => ~ ikey_valid e.1) es -> consider_all best es = Panic.
Proof.
  intros He. revert best. induction es as [|[k v] es IH]; intros best; [by inversion He|]. cbn [consider_all].
  unfold consider at 1. destruct (decide (ikey_valid k)) as [Hk|Hk].
  - destruct (decode_suffix_ok k Hk) as (ty & -> & _). rewrite bind_Ok.
    inversion He; subst; [done|]. repeat case_match; rewrite bind_Ok; by apply IH.
  - by rewrite decode_suffix_short.
Qed.

Lemma consider_all_cases best es : (exists best', consider_all best es = Ok best') \/ consider_all best es = Panic.
Proof.
  destruct (decide (Forall (fun e => ikey_valid e.1) es)) as [Hv|Hv%not_Forall_Exists]; [left|right|apply _].
  - revert best. induction Hv as [|[k v] es Hk _ IH]; intros best; cbn [consider_all]; [by exists best|].
    unfold consider at 1. destruct (decode_suffix_ok k Hk) as (ty & -> & _). rewrite bind_Ok.
    repeat case_match; rewrite bind_Ok; apply IH.
  - by apply consider_all_short.
Qed.

Lemma consider_sources_short best sources :
  Exists (Exists (fun e => ~ ikey_valid e.1)) sources -> consider_sources best sources = Panic.
Proof.
  intros He. revert best. induction sources as [|s sources IH]; intros best; [by inversion He|].
  cbn [consider_sources]. destruct (consider_all_cases best s) as [[best' Hc]| ->]; [|done].
  rewrite Hc, bind_Ok. inversion He; subst; [by rewrite consider_all_short in Hc|by apply IH].
Qed.
End OraclePanics.

(** ** Properties *)

(** C37: What the oracle computes: with no two versions of a user key at one
    sequence number it returns, in user-key order and once each, exactly the
    user keys whose newest version is not a tombstone, with that version's
    value; and it panics on any key too short to have a suffix. *)
Theorem naive_compact_spec `{Profile} sources :
  (Forall (Forall (fun e => ikey_valid e.1)) sources -> distinct_versions (concat sources) ->
    exists out, Oracle.naive_compact sources = Ok out /\ StronglySorted (clt key_cmp) out /\
      forall uk v, (uk, v) ∈ out <->
        exists e, live_newest (concat sources) e /\ ikey_user e.1 = uk /\ e.2 = v) /\
  (Exists (Exists (fun e => ~ ikey_valid e.1)) sources -> Oracle.naive_compact sources = Panic).
Proof.
  split; [apply naive_compact_ok|]. intros He. unfold Oracle.naive_compact.
  by rewrite consider_sources_short.
Qed.

#[local] Instance dev_profile : Profile := true.

Definition oracle_runs : list (list entry) :=
  [[(make_ikey (str "a") 1281, str "a5"); (make_ikey (str "b") 1792, [])];
   [(make_ikey (str "a") 513, str "a2"); (make_ikey (str "b") 769, str "b3")]].

Lemma naive_compact_spec_witness :
  (exists out, Oracle.naive_compact oracle_runs = Ok out /\ StronglySorted (clt key_cmp) out) /\
  Oracle.naive_compact (oracle_runs ++ [[(str "oops", [])]]) = Panic.
Proof.
  split.
  - destruct (naive_compact_spec oracle_runs) as [Hok _]. destruct Hok as (out & ? & ? & _); [..|by exists out].
    + repeat constructor; vm_compute; discriminate.
    + intros e e' He He' Hu Hs. apply list_elem_of_In in He, He'.
      repeat (destruct He as [<-|He]; [|try done]); repeat (destruct He' as [<-|He']; [|try done]);
        first [reflexivity|exfalso; vm_compute in Hu, Hs; congruence].
  - apply (naive_compact_spec (oracle_runs ++ [[(str "oops", [])]])).
    right. right. left. left. vm_compute. intros Hn. by apply Hn.
Defined.
