(* ===== verification/Fuzzer.v ===== *)
(** The differential harness of the [fuzzer] crate: the compactor run end to
    end and decoded, to be compared with the oracle.  The theorem of this file
    is the check the fuzzer samples, for all inputs at once. *)

From stdpp Require Import gmap.
From S2P Require Import Prelude Varint InternalKey Checksum Footer Block BlockBuilders Properties SstBuilder FileReader SstReader Loader.
From S2P Require Import Cmp Source Kmerge LoserTree Strategy Compaction Sharding Oracle.
Import InternalKey.

(** [make_internal_key]: [seq << 8] drops the bits it shifts out. *)
Definition make_internal_key (user_key : bytes) (seq ty : Z) : bytes :=
  let packed := Z.lor (as_u64 (Z.shiftl seq 8)) ty in
  user_key ++ to_le_bytes 8 packed.

(** [.expect(..)] on a [Result]. *)
Definition expect {A} (m : outcome A) : outcome A :=
  match m with Err _ => Panic | m => m end.

(** [#[derive(Ord)]] on [(Vec<u8>, Vec<u8>)]. *)
Definition pair_cmp (a b : entry) : comparison :=
  match slice_cmp a.1 b.1 with Eq => slice_cmp a.2 b.2 | c => c end.

Section Fuzzer.
Context `{ChecksumLib} `{CompressLib} `{Profile}.

(** [bytes[h.offset..h.offset + block_read_len(h)]], decoded. *)
Definition decode_block_at (bs : bytes) (ft : Footer) (handle : BlockHandle) : outcome bytes :=
  n ← block_read_len handle;
  end_ ← add_u64 handle.(offset) n;
  raw ← index_range bs handle.(offset) end_;
  expect (decode_block_contents raw handle ft.(checksum_type) ft.(base_context_checksum)).

(** The callback that looks for [rocksdb.index]: both varints are unwrapped. *)
Definition note_index_handle (k v : bytes) (index_handle : option BlockHandle) :
    option BlockHandle * outcome unit :=
  if bool_decide (k = str "rocksdb.index") then
    let '(offset, pos) := get_varint64 v 0 in
    match offset with
    | None => (index_handle, Panic)
    | Some offset =>
        let '(size, pos) := get_varint64 v pos in
        match size with
        | None => (index_handle, Panic)
        | Some size => (Some {| offset := offset; size := size |}, Ok tt)
        end
    end
  else (index_handle, Ok tt).

(** The callback that collects [(user_key, value)] pairs. *)
Definition push_user_entry (k v : bytes) (out : list entry) : list entry * outcome unit :=
  match expect (split k) with
  | Ok ik => (out ++ [(ik.(user_key), v)], Ok tt)
  | r => (out, stop r)
  end.

Fixpoint decode_data_blocks (bs : bytes) (ft : Footer) (data_handles : list BlockHandle)
    (out : list entry) : outcome (list entry) :=
  match data_handles with
  | [] => Ok out
  | handle :: data_handles =>
      raw ← decode_block_at bs ft handle;
      parsed ← expect (parse_block raw);
      out ← expect (run_visit (Block.for_each_entry parsed push_user_entry out));
      decode_data_blocks bs ft data_handles out
  end.

Definition decode_sst_entries (bs : bytes) : outcome (list entry) :=
  tail_start ← sub_u64 (len bs) FOOTER_TAIL_LEN;
  tail ← index_range bs tail_start (len bs);
  ft ← expect (decode_footer tail (len bs));
  metaindex_raw ← decode_block_at bs ft ft.(metaindex_handle);
  metaindex ← expect (parse_block metaindex_raw);
  index_handle ← expect (run_visit (Block.for_each_entry metaindex note_index_handle None));
  index_handle ← unwrap index_handle;
  index_raw ← decode_block_at bs ft index_handle;
  index ← expect (parse_block index_raw);
  data_handles ← expect (run_visit (for_each_index_entry index push_handle []));
  out ← decode_data_blocks bs ft data_handles [];
  Ok (sort_by pair_cmp out).

Definition fuzz_opts : CompactionOptions :=
  {| sst_builder :=
       {| SstBuilderOptions.checksum_type := XxH3;
          SstBuilderOptions.comparator_name := BYTEWISE_COMPARATOR_NAME;
          SstBuilderOptions.column_family_id := 0;
          SstBuilderOptions.column_family_name := str "default";
          SstBuilderOptions.base_context_checksum := 0x13579BDF;
          SstBuilderOptions.external_sst_global_seqno := None |} |}.

Definition run_compactor (per_source : list (list entry)) : outcome (list entry) :=
  let sources := (fun entries => Source.build (push_all builder_new entries)) <$> per_source in
  sst_bytes ← expect (compact sources fuzz_opts);
  decode_sst_entries sst_bytes.
End Fuzzer.

(** ** Decoding a table *)

Section FuzzerLemmas.
Context `{ChecksumLib} `{CompressLib} `{Profile}.
Implicit Types (es : list entry).

(** What the harness compares: user key and value. *)
Definition user_view (e : entry) : entry := (ikey_user e.1, e.2).

Lemma push_user_entry_visit es acc :
  Forall (fun e => ikey_valid e.1) es -> visit_entries push_user_entry es acc = (acc ++ (user_view <$> es), Ok tt).
Proof.
  intros Hv. revert acc. induction Hv as [|e es He _ IH]; intros acc; cbn [visit_entries fmap list_fmap].
  { by rewrite app_nil_r. }
  unfold push_user_entry at 1. rewrite split_ok by done. cbn [expect]. rewrite IH. by rewrite <- (assoc_L (++)).
Qed.

Lemma decode_block_at_ok bs ft h raw :
  block_at ft.(checksum_type) ft.(base_context_checksum) bs h raw -> len bs < 2 ^ 63 ->
  decode_block_at bs ft h = Ok raw.
Proof.
  intros (Hg & Hs & Ho & Hsz) Hl. unfold decode_block_at, block_read_len.
  pose proof Hg as Hg'. apply get_range_Some in Hg' as (p & s & Hc & Hp & Hm).
  rewrite Hc, !len_app in Hl. pose proof (len_nonneg p). pose proof (len_nonneg s).
  unfold BLOCK_TRAILER_SIZE in *. rewrite add_u64_ok, bind_Ok by lia. rewrite add_u64_ok, bind_Ok by lia.
  rewrite <- Z.add_assoc in Hg. unfold index_range. rewrite Hg. cbn [unwrap]. rewrite bind_Ok.
  destruct h as [o sz]. cbn [offset size] in *. subst sz.
  by rewrite decode_encode_block by (unfold BLOCK_TRAILER_SIZE; lia).
Qed.

Lemma note_index_handle_value ih ph :
  handle_ok ih ->
  visit_entries note_index_handle
    [(INDEX_BLOCK_NAME, handle_value ih); (PROPERTIES_BLOCK_NAME, handle_value ph)] None = (Some ih, Ok tt).
Proof.
  intros Hi. destruct (decode_handle_value ih Hi) as (p & Ho & Hs). cbn [visit_entries fst snd].
  unfold note_index_handle. change (bool_decide (INDEX_BLOCK_NAME = str "rocksdb.index")) with true.
  change (bool_decide (PROPERTIES_BLOCK_NAME = str "rocksdb.index")) with false. cbv iota.
  rewrite Ho. destruct (get_varint64 (handle_value ih) p) as [o q]. cbn in Hs. rewrite Hs. by destruct ih.
Qed.

Lemma decode_data_blocks_ok bs ft hs ess out :
  Forall2 (data_block ft.(checksum_type) ft.(base_context_checksum) bs) hs ess -> len bs < 2 ^ 63 ->
  Forall (fun e => ikey_valid e.1) (concat ess) ->
  decode_data_blocks bs ft hs.*2 out = Ok (out ++ (user_view <$> concat ess)).
Proof.
  intros Hf Hl. revert out.
  induction Hf as [|[k h] es hs ess [(raw & pb & Hb & Hp & Hv) _] _ IH]; intros out Hval; cbn [concat] in *.
  { cbn. by rewrite app_nil_r. }
  apply Forall_app in Hval as [He Hess]. cbn [fmap list_fmap snd decode_data_blocks].
  rewrite (decode_block_at_ok bs ft h raw Hb Hl), bind_Ok, Hp. cbn [expect].
  rewrite bind_Ok, Hv, push_user_entry_visit by done. cbn [run_visit expect]. rewrite bind_Ok, IH by done.
  by rewrite fmap_app, (assoc_L (++)).
Qed.

Lemma decode_sst_entries_ok bs es props ft :
  sst_layout bs es props ft -> Forall (fun e => ikey_valid e.1) es ->
  decode_sst_entries bs = Ok (sort_by pair_cmp (user_view <$> es)).
Proof.
  intros (ih & ph & hs & ess & [[Hsize (tail & Ht & Hft) Hni (mraw & mpb & Hmb & Hmp & Hmv)
    (iraw & ipb & Hib & Hip & Hiv) _] _ Hblk Hcat _]) Hval.
  assert (len bs < 2 ^ 63) as Hl by lia. unfold decode_sst_entries.
  rewrite sub_u64_ok, bind_Ok by lia. unfold index_range at 1. rewrite Ht. cbn [unwrap].
  rewrite bind_Ok, Hft. cbn [expect]. rewrite bind_Ok.
  rewrite (decode_block_at_ok bs ft _ mraw Hmb Hl), bind_Ok, Hmp. cbn [expect].
  rewrite bind_Ok, Hmv, note_index_handle_value by apply Hib. cbn [run_visit expect unwrap]. rewrite bind_Ok. cbn [unwrap]. rewrite bind_Ok.
  rewrite (decode_block_at_ok bs ft ih iraw Hib Hl), bind_Ok, Hip. cbn [expect].
  rewrite bind_Ok, Hiv, push_handle_visit. cbn [run_visit expect app]. rewrite bind_Ok.
  rewrite (decode_data_blocks_ok bs ft hs ess []), bind_Ok by (done || by rewrite Hcat). by rewrite Hcat.
Qed.

#[export] Instance pair_cmp_order : CmpOrder pair_cmp.
Proof.
  split; unfold pair_cmp.
  - intros a b. rewrite (cmp_opp slice_cmp a.1). destruct (slice_cmp a.1 b.1); cbn; [|done..]. apply cmp_opp, _.
  - intros a b c Hab Hbc. destruct (slice_cmp a.1 b.1) eqn:Eab, (slice_cmp b.1 c.1) eqn:Ebc; try done.
    + apply slice_cmp_eq in Eab, Ebc. rewrite Eab, Ebc, slice_cmp_refl. by apply (cmp_le_trans slice_cmp _ b.2).
    + apply slice_cmp_eq in Eab. by rewrite Eab, Ebc.
    + apply slice_cmp_eq in Ebc. by rewrite <- Ebc, Eab.
    + by rewrite (transitivity (R := clt slice_cmp) Eab Ebc).
Qed.

(** Sorting pairs whose keys already increase changes nothing. *)
Lemma sort_pairs_id es : StronglySorted (clt key_cmp) es -> sort_by pair_cmp es = es.
Proof.
  intros Hs. apply sort_by_id. eapply StronglySorted_impl; [|exact Hs].
  intros a b Hab. unfold clt, pair_cmp, key_cmp in *. by rewrite Hab.
Qed.
End FuzzerLemmas.

(** ** The compactor against the oracle *)

Section Differential.
Context `{ChecksumLib} `{CompressLib} `{Profile}.
Implicit Types (es : list entry).

Lemma head_versions_elem uk es e : head (versions uk es) = Some e -> e ∈ es /\ ikey_user e.1 = uk.
Proof.
  unfold versions. intros Hh. destruct (filter (has_user uk) es) as [|x l] eqn:E; [done|]. injection Hh as ->.
  assert (e ∈ filter (has_user uk) es) as [Hu Hin]%list_elem_of_filter by (rewrite E; by left). done.
Qed.

(** What bottommost compaction keeps is what the oracle keeps. *)
Lemma select_live_newest t es e :
  Forall (fun e => ikey_valid e.1) es -> StronglySorted (cle (on_key ikey_cmp)) es -> distinct_versions es ->
  e ∈ select (T := BottommostStrategy) t es <-> live_newest es e.
Proof.
  intros Hv Hs Hd. pose proof (bottommost_versions t (ikey_user e.1) es Hv Hs) as Hb.
  pose proof (versions_newest (ikey_user e.1) es) as Hnew.
  assert (forall x, x ∈ es -> ikey_user x.1 = ikey_user e.1 -> x ∈ versions (ikey_user e.1) es) as Hin
    by (intros x Hx Hu; by apply list_elem_of_filter).
  split.
  - intros He. assert (e ∈ versions (ikey_user e.1) (select t es)) as He' by (by apply list_elem_of_filter).
    rewrite Hb in He'. destruct (versions (ikey_user e.1) es) as [|x l] eqn:Ev; [by apply elem_of_nil in He'|].
    cbn in He'. destruct (is_tombstone x) eqn:Et; [by apply elem_of_nil in He'|].
    apply list_elem_of_singleton in He' as ->. destruct (head_versions_elem (ikey_user x.1) es x) as [Hx _]; [by rewrite Ev|].
    split_and!; [done|done|]. intros e' He' Hu. by apply (Hnew x Hs); [|apply Hin].
  - intros (He & Ht & Hm). destruct (versions (ikey_user e.1) es) as [|x l] eqn:Ev.
    { specialize (Hin e He eq_refl). by apply elem_of_nil in Hin. }
    destruct (head_versions_elem (ikey_user e.1) es x) as [Hx Hux]; [by rewrite Ev|].
    assert (x = e) as ->.
    { apply Hd; [done|done|done|]. specialize (Hm x Hx Hux). specialize (Hnew x Hs eq_refl e (Hin e He eq_refl)). lia. }
    cbn in Hb. unfold is_tombstone in Hb. rewrite Ht in Hb.
    assert (e ∈ versions (ikey_user e.1) (select t es)) as Hres by (rewrite Hb; by left).
    by apply list_elem_of_filter in Hres as [_ ?].
Qed.

Lemma user_view_sorted es : StronglySorted (clt user_cmp) es -> StronglySorted (clt key_cmp) (user_view <$> es).
Proof.
  induction 1 as [|e es Hs IH He]; [constructor|]. cbn. constructor; [done|].
  apply Forall_fmap. eapply Forall_impl; [exact He|]. done.
Qed.

Lemma fuzz_opts_ok : opts_ok fuzz_opts.(sst_builder).
Proof. split; split; vm_compute; discriminate || reflexivity. Qed.

Lemma run_compactor_naive per_source :
  Forall (fun es => Forall (fun e => ikey_valid e.1) es /\ StronglySorted (cle (on_key ikey_cmp)) es) per_source ->
  fits (concat per_source) -> distinct_versions (concat per_source) ->
  exists out, run_compactor per_source = Ok out /\ Oracle.naive_compact per_source = Ok out.
Proof.
  intros Hps Hf Hd. destruct (built_sources per_source Hps Hf) as [Hwh Hwin].
  assert (Forall source_sorted (arena_of <$> per_source)) as Hss
    by (eapply Forall_impl; [exact Hwh|]; by intros s []).
  assert (inputs (arena_of <$> per_source) = concat per_source) as Hin by (unfold inputs; by rewrite Hwin).
  destruct (compact_ok (arena_of <$> per_source) fuzz_opts Hss) as (out & file & Hk & Hc & props & ft & Hl);
    [by rewrite Hin|apply fuzz_opts_ok|].
  destruct (merge_output _ _ Hss Hk) as (Hp & Hs & Hv). rewrite Hin in Hp.
  assert (distinct_versions out) as Hdo by (intros e e'; rewrite Hp; apply Hd).
  destruct (bottommost_output BottommostStrategy_ out Hv Hs) as [Hus _]. apply user_view_sorted in Hus.
  destruct (naive_compact_ok per_source) as (nout & Hn & Hns & Hne); [|done|].
  { eapply Forall_impl; [exact Hps|]. by intros es []. }
  assert (nout = user_view <$> select BottommostStrategy_ out) as ->.
  { apply (clt_sorted_unique key_cmp); [done..|]. apply NoDup_Permutation; [by eapply clt_sorted_NoDup; [|exact Hns]; apply _|by eapply clt_sorted_NoDup; [|exact Hus]; apply _|].
    intros [uk v]. rewrite Hne, list_elem_of_fmap. split.
    - intros (e & He & <- & <-). exists e. split; [done|]. apply select_live_newest; [done..|].
      destruct He as (He & Ht & Hm). split_and!; [by rewrite Hp|done|]. intros e' He'. apply Hm. by rewrite <- Hp.
    - intros (e & [= -> ->] & He). apply select_live_newest in He as (He & Ht & Hm); [|done..].
      exists e. split_and!; [|done..]. split_and!; [by rewrite <- Hp|done|]. intros e' He'. apply Hm. by rewrite Hp. }
  exists (user_view <$> select BottommostStrategy_ out). split; [|done].
  unfold run_compactor. cbv zeta. fold arena_of. rewrite Hc. cbn [expect]. rewrite bind_Ok.
  rewrite (decode_sst_entries_ok file _ props ft Hl), sort_pairs_id; [done|exact Hus|].
  eapply Forall_sublist; [by apply select_sublist|done].
Qed.
End Differential.

(** ** Properties *)

Section FuzzerProperties.
Context `{ChecksumLib} `{CompressLib} `{Profile}.

(** C2: The differential test, for every input: on sorted sources in which no
    two versions of a user key share a sequence number, the compactor run end
    to end and the naive reference both succeed and return the same list.  Both
    take every entry that is not a deletion or a single deletion for a value,
    range deletions and merge operands included. *)
Theorem compactor_matches_oracle per_source :
  Forall (fun es => Forall (fun e => ikey_valid e.1) es /\ StronglySorted (cle (on_key ikey_cmp)) es) per_source ->
  fits (concat per_source) -> distinct_versions (concat per_source) ->
  exists out, run_compactor per_source = Ok out /\ Oracle.naive_compact per_source = Ok out.
Proof. apply run_compactor_naive. Qed.
End FuzzerProperties.

#[local] Instance dev_profile : Profile := true.

Definition fuzz_runs : list (list entry) :=
  [[(make_ikey (str "a") (5 * 256 + 1), str "a5"); (make_ikey (str "b") (7 * 256), [])];
   [(make_ikey (str "a") (2 * 256 + 1), str "a2"); (make_ikey (str "b") (3 * 256 + 1), str "b3");
    (make_ikey (str "d") (1 * 256 + 1), str "d1")]].

Lemma fuzz_runs_distinct : distinct_versions (concat fuzz_runs).
Proof.
  intros e e' He He' Hu Hs. apply list_elem_of_In in He, He'.
  repeat (destruct He as [<-|He]; [|try done]); repeat (destruct He' as [<-|He']; [|try done]);
    first [reflexivity|exfalso; vm_compute in Hu, Hs; congruence].
Qed.

Lemma compactor_matches_oracle_witness :
  exists out, run_compactor fuzz_runs = Ok out /\ Oracle.naive_compact fuzz_runs = Ok out.
Proof.
  apply (compactor_matches_oracle fuzz_runs).
  - repeat (constructor; [split; [repeat constructor; vm_compute; discriminate|decide_sorted]|]). constructor.
  - fits_concrete.
  - exact fuzz_runs_distinct.
Defined.
