(* ===== verification/Generator.v ===== *)
(** The input generator of the [fuzzer] crate, over any random generator: what
    [generate_sources] draws satisfies the premises of the differential
    theorem, so the randomized test cannot fail. *)

From stdpp Require Import gmap.
From S2P Require Import Prelude Varint InternalKey Checksum Footer Block BlockBuilders Properties SstBuilder.
From S2P Require Import FileReader SstReader Loader Cmp Source Kmerge LoserTree Strategy Compaction Sharding Oracle Fuzzer.
Import InternalKey.

(** ** The [rand] crate

    A generator state is threaded through; [gen_range lo hi] draws from
    [lo..hi] and panics on an empty range, [gen_bool n d] is true with
    probability [n / d]. *)
Class Rng (G : Type) : Type := {
  gen_range : Z -> Z -> G -> outcome (Z * G);
  gen_bool : Z -> Z -> G -> bool * G
}.

Class RngLaws (G : Type) `{Rng G} : Prop := {
  gen_range_in lo hi g : lo < hi -> exists x g', gen_range lo hi g = Ok (x, g') /\ lo <= x < hi;
  gen_range_empty lo hi g : hi <= lo -> gen_range lo hi g = Panic
}.

(** ** Formatting *)

Definition digit (d : Z) : byte := byte.of_Z (48 + d).

(** [Display] of an unsigned integer: at most twenty digits. *)
Fixpoint decimal_loop (fuel : nat) (n : Z) (acc : bytes) : bytes :=
  let acc := digit (n mod 10) :: acc in
  if n <? 10 then acc
  else match fuel with O => acc | S fuel => decimal_loop fuel (n / 10) acc end.
Definition decimal (n : Z) : bytes := decimal_loop 19 n [].

(** ["{:06}"]. *)
Definition pad_zeros (width : nat) (s : bytes) : bytes := replicate (width - length s) (digit 0) ++ s.

Definition TYPE_VALUE : Z := 1.
Definition TYPE_DELETION : Z := 0.

Definition format_key (i : Z) : bytes := str "key" ++ pad_zeros 6 (decimal i).
Definition format_value (i seq : Z) : bytes := str "value_" ++ decimal i ++ str "_" ++ decimal seq.

(** ** [generate_sources] *)

(** [sort_by] with a comparator that can panic, as insertion sort. *)
Fixpoint insert_with {A} (cmp : A -> A -> outcome comparison) (x : A) (l : list A) : outcome (list A) :=
  match l with
  | [] => Ok [x]
  | y :: l' =>
      c ← cmp x y;
      match c with
      | Gt => l' ← insert_with cmp x l'; Ok (y :: l')
      | _ => Ok (x :: l)
      end
  end.
Fixpoint sort_with {A} (cmp : A -> A -> outcome comparison) (l : list A) : outcome (list A) :=
  match l with
  | [] => Ok []
  | x :: l => l ← sort_with cmp l; insert_with cmp x l
  end.

Section Generator.
Context {G : Type} `{Rng G} `{Profile}.
Abbreviation Sources := (list (list entry)).

(** The body of the loop over the versions of a key. *)
Definition gen_version (num_sources i versions v : Z) (per_source : Sources) (g : G) : outcome (Sources * G) :=
  let seq := as_u64 (versions - v) in
  let '(deleted, g) := if v =? 0 then gen_bool 1 10 g else (false, g) in
  let ty := if deleted : bool then TYPE_DELETION else TYPE_VALUE in
  '(src, g) ← gen_range 0 num_sources g;
  entries ← index_at per_source src;
  per_source ← set_at per_source src
    (entries ++ [(make_internal_key (format_key i) seq ty, format_value i seq)]);
  Ok (per_source, g).

(** [for v in 0..versions], with [count] rounds left. *)
Fixpoint gen_versions (count : nat) (num_sources i versions v : Z) (per_source : Sources) (g : G) :
    outcome (Sources * G) :=
  match count with
  | O => Ok (per_source, g)
  | S count =>
      '(per_source, g) ← gen_version num_sources i versions v per_source g;
      gen_versions count num_sources i versions (v + 1) per_source g
  end.

(** [for i in 0..num_keys], with [count] rounds left; [1..=3] is [1..4]. *)
Fixpoint gen_keys (count : nat) (num_sources i : Z) (per_source : Sources) (g : G) : outcome (Sources * G) :=
  match count with
  | O => Ok (per_source, g)
  | S count =>
      '(versions, g) ← gen_range 1 4 g;
      '(per_source, g) ← gen_versions (Z.to_nat versions) num_sources i versions 0 per_source g;
      gen_keys count num_sources (i + 1) per_source g
  end.

(** [rng] is [&mut]: it is returned with the sources. *)
Definition generate_sources (rng : G) (num_sources num_keys : Z) : outcome (Sources * G) :=
  '(per_source, rng) ← gen_keys (Z.to_nat num_keys) num_sources 0 (replicate (Z.to_nat num_sources) []) rng;
  per_source ← mapM (sort_with (fun a b : entry => compare_internal_keys a.1 b.1)) per_source;
  Ok (per_source, rng).
End Generator.

(** ** Decimal numerals are distinct *)

(** The number a digit string denotes. *)
Definition undecimal (a : Z) (s : bytes) : Z := foldl (fun a b => 10 * a + (byte.unsigned b - 48)) a s.

Lemma digit_value d : 0 <= d < 10 -> byte.unsigned (digit d) - 48 = d.
Proof. intros Hd. unfold digit. rewrite unsigned_of_Z, Z.mod_small; lia. Qed.

Lemma undecimal_loop fuel n acc :
  0 <= n < 10 ^ (Z.of_nat fuel + 1) -> undecimal 0 (decimal_loop fuel n acc) = undecimal n acc.
Proof.
  revert n acc. induction fuel as [|fuel IH]; intros n acc Hn; cbn [decimal_loop];
    (destruct (Z.ltb_spec n 10) as [Hlt|Hge];
      [cbn [undecimal foldl]; rewrite Z.mod_small, digit_value by lia; done|]).
  - change (10 ^ (Z.of_nat 0 + 1)) with 10 in Hn. lia.
  - rewrite IH.
    + cbn [undecimal foldl]. rewrite digit_value by (apply Z.mod_pos_bound; lia).
      unfold undecimal. f_equal. pose proof (Z.div_mod n 10). lia.
    + split; [apply Z.div_pos; lia|]. apply Z.div_lt_upper_bound; [lia|].
      replace (Z.of_nat (S fuel) + 1) with (Z.succ (Z.of_nat fuel + 1)) in Hn by lia.
      rewrite Z.pow_succ_r in Hn; lia.
Qed.

Lemma undecimal_pad w s : undecimal 0 (pad_zeros w s) = undecimal 0 s.
Proof.
  unfold pad_zeros, undecimal. rewrite foldl_app. f_equal.
  induction (w - length s)%nat as [|k IH]; [done|]. cbn [replicate foldl]. by rewrite digit_value by lia.
Qed.

Lemma format_key_inj i j :
  0 <= i < 10 ^ 20 -> 0 <= j < 10 ^ 20 -> format_key i = format_key j -> i = j.
Proof.
  unfold format_key. intros Hi Hj Heq%(inj (app (str "key"))).
  apply (f_equal (undecimal 0)) in Heq. rewrite !undecimal_pad in Heq. unfold decimal in Heq.
  by rewrite !undecimal_loop in Heq.
Qed.

Lemma decimal_loop_len fuel (k : nat) n acc :
  (1 <= k)%nat -> 0 <= n < 10 ^ Z.of_nat k -> len (decimal_loop fuel n acc) <= Z.of_nat k + len acc.
Proof.
  revert k n acc. induction fuel as [|fuel IH]; intros k n acc Hk Hn; cbn [decimal_loop];
    (destruct (Z.ltb_spec n 10) as [Hlt|Hge]; [len_lia|]); [len_lia|].
  destruct k as [|[|k]]; [lia|cbn in Hn; lia|].
  etransitivity; [apply (IH (S k)); [lia|]|len_lia].
  split; [apply Z.div_pos; lia|]. apply Z.div_lt_upper_bound; [lia|].
  rewrite (Nat2Z.inj_succ (S k)), Z.pow_succ_r in Hn; lia.
Qed.

Lemma format_key_len i : 0 <= i < 10 ^ 6 -> len (format_key i) <= 9.
Proof.
  intros Hi. pose proof (decimal_loop_len 19 6 i [] ltac:(lia) Hi) as Hl. fold (decimal i) in Hl.
  unfold format_key, pad_zeros. rewrite !len_app, len_replicate. change (len (str "key")) with 3.
  rewrite len_nil in Hl. unfold len in *. lia.
Qed.
Lemma format_value_len i seq : 0 <= i < 10 ^ 6 -> 0 <= seq < 10 -> len (format_value i seq) <= 14.
Proof.
  intros Hi Hs. pose proof (decimal_loop_len 19 6 i [] ltac:(lia) Hi) as Hl. fold (decimal i) in Hl.
  pose proof (decimal_loop_len 19 1 seq [] ltac:(lia) Hs) as Hl'. fold (decimal seq) in Hl'.
  rewrite len_nil in Hl, Hl'. unfold format_value. rewrite !len_app.
  change (len (str "value_")) with 6. change (len (str "_")) with 1. lia.
Qed.

(** ** What the loops draw *)

Lemma concat_push (ls : list (list entry)) n es x :
  ls !! n = Some es -> concat (<[n := es ++ [x]]> ls) ≡ₚ x :: concat ls.
Proof.
  intros Hn. apply list_elem_of_split_length in Hn as (l1 & l2 & -> & ->).
  rewrite insert_app_r_alt, Nat.sub_diag by lia. cbn. rewrite !concat_app. cbn. solve_Permutation.
Qed.

Section Sorting.
Context `{Profile}.

Lemma insert_with_ok (x : entry) l :
  ikey_valid x.1 -> Forall (fun e => ikey_valid e.1) l ->
  insert_with (fun a b : entry => compare_internal_keys a.1 b.1) x l = Ok (insert_by (on_key ikey_cmp) x l).
Proof.
  intros Hx. induction 1 as [|y l Hy _ IH]; [done|]. cbn [insert_with insert_by].
  change (compare_internal_keys x.1 y.1) with (internal_compare x.1 y.1).
  rewrite internal_compare_ok, bind_Ok by done. change (on_key ikey_cmp x y) with (ikey_cmp x.1 y.1).
  destruct (ikey_cmp x.1 y.1); [done..|]. by rewrite IH, bind_Ok.
Qed.

Lemma sort_with_ok (l : list entry) :
  Forall (fun e => ikey_valid e.1) l ->
  sort_with (fun a b : entry => compare_internal_keys a.1 b.1) l = Ok (sort_by (on_key ikey_cmp) l).
Proof.
  induction 1 as [|x l Hx Hl IH]; [done|]. cbn [sort_with]. rewrite IH, bind_Ok, insert_with_ok; [done..|].
  by rewrite sort_by_perm.
Qed.

Lemma sort_all_ok (ls : list (list entry)) :
  Forall (Forall (fun e => ikey_valid e.1)) ls ->
  mapM (sort_with (fun a b : entry => compare_internal_keys a.1 b.1)) ls = Ok (sort_by (on_key ikey_cmp) <$> ls).
Proof.
  induction 1 as [|l ls Hl _ IH]; [done|]. cbn [mapM]. rewrite sort_with_ok by done. cbn [mbind outcome_bind].
  by rewrite IH.
Qed.
End Sorting.

Lemma sorted_concat (ls : list (list entry)) : concat (sort_by (on_key ikey_cmp) <$> ls) ≡ₚ concat ls.
Proof. induction ls as [|l ls IH]; cbn; [done|]. by rewrite sort_by_perm, IH. Qed.

Lemma make_internal_key_eq uk seq ty :
  0 <= seq < 2 ^ 56 -> 0 <= ty < 256 -> make_internal_key uk seq ty = make_ikey uk (seq * 256 + ty).
Proof.
  intros Hs Ht. unfold make_internal_key, make_ikey. cbv zeta.
  by rewrite Z.shiftl_mul_pow2, as_u64_small, Z.lor_comm, (lor_shiftl_add ty seq 8), Z.add_comm by lia.
Qed.

(** A version drawn: key number, sequence number, type. *)
Abbreviation draw := ((Z * Z) * Z)%type.
Definition drawn (p : draw) : entry :=
  (make_ikey (format_key p.1.1) (p.1.2 * 256 + p.2), format_value p.1.1 p.1.2).

(** The versions of the keys from [i] on, [counts] of each: the sequence
    numbers of a key are those from 1 to their number. *)
Fixpoint key_versions (i : Z) (counts : list Z) : list (Z * Z) :=
  match counts with
  | [] => []
  | n :: counts => (pair i <$> seqZ 1 n) ++ key_versions (i + 1) counts
  end.

(** A put, or a deletion, which only the newest version of a key can be. *)
Definition draw_type (i : Z) (counts : list Z) (p : draw) : Prop :=
  p.2 = TYPE_VALUE \/ (p.2 = TYPE_DELETION /\ get_at counts (p.1.1 - i) = Some p.1.2).

(** What [generate_sources] returns: [num_sources] sources, strictly sorted,
    that hold, between them, [counts] versions of each of [num_keys] keys. *)
Record fuzz_input (num_sources num_keys : Z) (per_source : list (list entry)) (counts : list Z)
    (ps : list draw) : Prop := {
  fi_sources : len per_source = num_sources;
  fi_sorted : Forall (fun es => Forall (fun e => ikey_valid e.1) es /\ StronglySorted (clt (on_key ikey_cmp)) es) per_source;
  fi_keys : len counts = num_keys;
  fi_counts : Forall (fun n => 1 <= n <= 3) counts;
  fi_entries : concat per_source ≡ₚ drawn <$> ps;
  fi_versions : ps.*1 ≡ₚ key_versions 0 counts;
  fi_types : Forall (draw_type 0 counts) ps
}.

Lemma key_versions_length i counts :
  Forall (fun n => 1 <= n <= 3) counts -> (length (key_versions i counts) <= 3 * length counts)%nat.
Proof.
  intros Hc. revert i. induction Hc as [|n counts Hn _ IH]; intros i; [done|]. cbn [key_versions].
  rewrite length_app, length_fmap, length_seqZ. specialize (IH (i + 1)). cbn [length]. lia.
Qed.

Lemma draw_type_next i n counts p : draw_type (i + 1) counts p -> draw_type i (n :: counts) p.
Proof.
  intros [Hp|[Hp Hc]]; [by left|right]. split; [done|].
  apply get_at_Some in Hc as [Hr Hc]. rewrite get_at_lookup by lia.
  by replace (Z.to_nat (p.1.1 - i)) with (S (Z.to_nat (p.1.1 - (i + 1)))) by lia.
Qed.

Definition draw_ok (num_keys : Z) (p : draw) : Prop :=
  0 <= p.1.1 < num_keys /\ 1 <= p.1.2 <= 3 /\ (p.2 = TYPE_VALUE \/ p.2 = TYPE_DELETION).

(** Drawn before version [seq] of key [i]. *)
Definition drawn_before (i seq : Z) (p : draw) : Prop := p.1.1 < i \/ (p.1.1 = i /\ seq < p.1.2).

(** The sources hold exactly the versions [ps], no version twice. *)
Record generated (num_sources num_keys i seq : Z) (per_source : list (list entry)) (ps : list draw) : Prop := {
  gen_len : len per_source = num_sources;
  gen_perm : concat per_source ≡ₚ drawn <$> ps;
  gen_nodup : NoDup ps.*1;
  gen_draws : Forall (draw_ok num_keys) ps;
  gen_before : Forall (drawn_before i seq) ps
}.

Lemma generated_next ns nk i seq per_source ps :
  generated ns nk i seq per_source ps -> generated ns nk (i + 1) 3 per_source ps.
Proof.
  intros [Hl Hp Hn Hd Hb]. split; try done. eapply Forall_impl; [exact Hb|].
  unfold drawn_before. intros p. lia.
Qed.

Section GeneratorLemmas.
Context {G : Type} `{RngLaws G} `{Profile}.

Lemma gen_version_ok ns nk i versions v per_source ps g :
  0 < ns -> 0 <= i < nk -> 1 <= versions <= 3 -> 0 <= v < versions ->
  generated ns nk i (versions - v) per_source ps ->
  exists per_source' g' ty, gen_version ns i versions v per_source g = Ok (per_source', g') /\
    generated ns nk i (versions - v - 1) per_source' ((i, versions - v, ty) :: ps) /\
    (ty = TYPE_VALUE \/ (ty = TYPE_DELETION /\ v = 0)).
Proof.
  intros Hns Hi Hver Hv [Hl Hp Hn Hd Hb]. unfold gen_version. cbv zeta. rewrite as_u64_small by lia.
  destruct (if v =? 0 then gen_bool 1 10 g else (false, g)) as [deleted g1] eqn:Edel.
  destruct (gen_range_in 0 ns g1 Hns) as (src & g2 & -> & Hsrc). rewrite bind_Ok.
  destruct (lookup_lt_is_Some_2 per_source (Z.to_nat src)) as [es Hes]; [unfold len in Hl; lia|].
  assert (get_at per_source src = Some es) as Hat by (by rewrite get_at_lookup by lia).
  rewrite (index_at_ok _ _ es), bind_Ok, set_at_ok, bind_Ok by (done || lia).
  set (ty := if deleted : bool then TYPE_DELETION else TYPE_VALUE).
  assert (ty = TYPE_VALUE \/ (ty = TYPE_DELETION /\ v = 0)) as Hty.
  { subst ty. destruct deleted; [right|by left]. destruct (Z.eqb_spec v 0); [done|congruence]. }
  rewrite make_internal_key_eq by (unfold TYPE_VALUE, TYPE_DELETION in Hty; lia).
  set (p := ((i, versions - v), ty) : draw). change (make_ikey _ _, format_value _ _) with (drawn p).
  eexists _, g2, ty. split; [reflexivity|]. split; [|done]. split.
  - by rewrite len_insert.
  - cbn [fmap list_fmap]. by rewrite concat_push, Hp.
  - cbn. apply NoDup_cons. split; [|done]. intros ([[j s] t] & Hj & Hin)%list_elem_of_fmap. cbn in Hj.
    simplify_eq. rewrite Forall_forall in Hb. specialize (Hb _ Hin). unfold drawn_before in Hb. cbn in Hb. lia.
  - constructor; [|done]. unfold draw_ok. cbn. split_and!; lia.
  - constructor; [unfold drawn_before; cbn; lia|]. eapply Forall_impl; [exact Hb|]. unfold drawn_before. intros q. lia.
Qed.

(** The versions of one key, the newest drawn first. *)
Lemma gen_versions_ok ns nk i versions count v per_source ps g :
  0 < ns -> 0 <= i < nk -> 1 <= versions <= 3 -> 0 <= v -> v + Z.of_nat count = versions ->
  generated ns nk i (versions - v) per_source ps ->
  exists per_source' g' l, gen_versions count ns i versions v per_source g = Ok (per_source', g') /\
    generated ns nk i 0 per_source' (l ++ ps) /\ l.*1 = pair i <$> seqZ 1 (Z.of_nat count) /\
    Forall (fun p => p.2 = TYPE_VALUE \/ (p.2 = TYPE_DELETION /\ p.1.2 = versions)) l.
Proof.
  intros Hns Hi Hver. revert v per_source ps g. induction count as [|count IH]; intros v per_source ps g Hv Hc Hg;
    cbn [gen_versions].
  - exists per_source, g, []. replace (versions - v) with 0 in Hg by lia. done.
  - destruct (gen_version_ok ns nk i versions v per_source ps g) as (ps1 & g1 & ty & -> & Hg1 & Hty); [lia..|done|].
    rewrite bind_Ok. replace (versions - v - 1) with (versions - (v + 1)) in Hg1 by lia.
    destruct (IH (v + 1) ps1 _ g1 ltac:(lia) ltac:(lia) Hg1) as (ps2 & g2 & l & -> & Hg2 & Hl & Ht).
    exists ps2, g2, (l ++ [(i, versions - v, ty)]). split; [done|]. rewrite <- (assoc_L (++)). split; [exact Hg2|]. split.
    + rewrite fmap_app, Hl, seqZ_S, fmap_app. cbn. do 3 f_equal. lia.
    + rewrite Forall_app, Forall_singleton. split; [done|]. cbn. destruct Hty as [|[? ->]]; [by left|right]. split; [done|lia].
Qed.

Lemma gen_keys_ok ns nk count i per_source ps g :
  0 < ns -> 0 <= i -> i + Z.of_nat count = nk -> generated ns nk i 3 per_source ps ->
  exists per_source' g' l counts, gen_keys count ns i per_source g = Ok (per_source', g') /\
    generated ns nk nk 3 per_source' (l ++ ps) /\ length counts = count /\
    Forall (fun n => 1 <= n <= 3) counts /\ l.*1 ≡ₚ key_versions i counts /\ Forall (draw_type i counts) l.
Proof.
  intros Hns. revert i per_source ps g. induction count as [|count IH]; intros i per_source ps g Hi Hc Hg;
    cbn [gen_keys].
  - exists per_source, g, [], []. replace i with nk in Hg by lia. by split_and!.
  - destruct (gen_range_in 1 4 g ltac:(lia)) as (versions & g1 & -> & Hver). rewrite bind_Ok.
    destruct (gen_versions_ok ns nk i versions (Z.to_nat versions) 0 per_source ps g1)
      as (ps1 & g2 & l1 & -> & Hg1 & Hl1 & Ht1); [lia..| |].
    { destruct Hg as [? ? ? Hd Hb]. split; try done. apply Forall_forall. intros p Hp.
      rewrite Forall_forall in Hb, Hd. specialize (Hb p Hp). specialize (Hd p Hp).
      unfold drawn_before, draw_ok in *. lia. }
    rewrite bind_Ok. apply generated_next in Hg1. rewrite Z2Nat.id in Hl1 by lia.
    destruct (IH (i + 1) ps1 _ g2 ltac:(lia) ltac:(lia) Hg1) as (ps2 & g3 & l2 & counts & -> & Hg2 & Hlen & Hcs & Hl2 & Ht2).
    exists ps2, g3, (l2 ++ l1), (versions :: counts). split; [done|]. rewrite <- (assoc_L (++)).
    split_and!; [exact Hg2|by f_equal/=|constructor; [lia|done]| |].
    + cbn [key_versions]. by rewrite fmap_app, Hl1, Hl2, Permutation_app_comm.
    + apply Forall_app. split; [eapply Forall_impl; [exact Ht2|apply draw_type_next]|].
      apply Forall_forall. intros p Hp. rewrite Forall_forall in Ht1.
      assert (p.1 ∈ l1.*1) as Hp1 by by apply list_elem_of_fmap_2.
      rewrite Hl1 in Hp1. apply list_elem_of_fmap in Hp1 as (s & Hps & _).
      destruct (Ht1 p Hp) as [Hv|[Hv Hs]]; [by left|right]. split; [done|].
      rewrite Hps in *. cbn in *. rewrite Z.sub_diag, Hs. done.
Qed.
End GeneratorLemmas.

(** ** The versions drawn satisfy the oracle's premises *)

Lemma drawn_facts nk p :
  draw_ok nk p ->
  ikey_valid (drawn p).1 /\ ikey_user (drawn p).1 = format_key p.1.1 /\ ikey_seq (drawn p).1 = p.1.2.
Proof.
  intros Hp. unfold drawn. cbn [fst]. split; [apply make_ikey_valid|]. split; [apply make_ikey_user|].
  destruct Hp as (_ & Hs & Ht). unfold TYPE_VALUE, TYPE_DELETION in Ht. unfold ikey_seq.
  rewrite make_ikey_packed by lia. rewrite Z.div_add_l, Z.div_small; lia.
Qed.

Lemma drawn_sizes p : draw_ok (10 ^ 6) p -> len (drawn p).1 <= 17 /\ len (drawn p).2 <= 14.
Proof.
  intros (Hi & Hs & _). split.
  - unfold drawn, make_ikey. cbn [fst]. pose proof (format_key_len p.1.1 Hi). len_lia.
  - apply format_value_len; lia.
Qed.

Lemma draws_weight ps :
  Forall (draw_ok (10 ^ 6)) ps -> sst_weight (drawn <$> ps) <= 114 * len ps.
Proof.
  induction 1 as [|p ps Hp _ IH]; [done|]. cbn [fmap list_fmap sst_weight foldr]. fold (sst_weight (drawn <$> ps)).
  destruct (drawn_sizes p Hp). rewrite len_cons. lia.
Qed.

Lemma draws_fit ps : Forall (draw_ok (10 ^ 6)) ps -> len ps <= 3 * 10 ^ 6 -> fits (drawn <$> ps).
Proof.
  intros Hps Hl. split.
  - apply Forall_fmap. eapply Forall_impl; [exact Hps|]. intros p Hp. destruct (drawn_sizes p Hp).
    change (small (drawn p)). unfold small, u32. pose proof (len_nonneg (drawn p).1). pose proof (len_nonneg (drawn p).2). lia.
  - pose proof (draws_weight ps Hps). lia.
Qed.

Lemma NoDup_fst_inj {A B} (l : list (A * B)) p q : NoDup l.*1 -> p ∈ l -> q ∈ l -> p.1 = q.1 -> p = q.
Proof.
  intros Hn (i & Hi)%list_elem_of_lookup (j & Hj)%list_elem_of_lookup Heq.
  assert (i = j) as -> by (apply (NoDup_lookup l.*1 i j p.1 Hn); rewrite list_lookup_fmap; [by rewrite Hi|by rewrite Hj, Heq]).
  congruence.
Qed.

Lemma draws_inj nk ps p q :
  nk <= 10 ^ 20 -> NoDup ps.*1 -> Forall (draw_ok nk) ps -> p ∈ ps -> q ∈ ps ->
  ikey_user (drawn p).1 = ikey_user (drawn q).1 -> ikey_seq (drawn p).1 = ikey_seq (drawn q).1 -> p = q.
Proof.
  intros Hnk Hn Hd Hp Hq. rewrite Forall_forall in Hd. pose proof (Hd p Hp) as Hdp. pose proof (Hd q Hq) as Hdq.
  destruct (drawn_facts nk p Hdp) as (_ & -> & ->), (drawn_facts nk q Hdq) as (_ & -> & ->).
  intros Hu Hs. apply format_key_inj in Hu; [|destruct Hdp, Hdq; lia..].
  apply (NoDup_fst_inj ps); [done..|]. destruct p as [[] ?], q as [[] ?]. cbn in *. congruence.
Qed.

Lemma draws_distinct nk ps :
  nk <= 10 ^ 20 -> NoDup ps.*1 -> Forall (draw_ok nk) ps -> distinct_versions (drawn <$> ps).
Proof.
  intros Hnk Hn Hd e e' (p & -> & Hp)%list_elem_of_fmap (q & -> & Hq)%list_elem_of_fmap Hu Hs.
  f_equal. by eapply (draws_inj nk ps).
Qed.

(** No two versions drawn have the same key. *)
Lemma draws_keys nk ps :
  nk <= 10 ^ 20 -> NoDup ps.*1 -> Forall (draw_ok nk) ps -> NoDup (drawn <$> ps).*1.
Proof.
  intros Hnk Hn Hd. rewrite <- list_fmap_compose. apply NoDup_fmap_2_strong; [|by eapply NoDup_fmap_1].
  intros p q Hp Hq Heq. change ((drawn p).1 = (drawn q).1) in Heq.
  apply (draws_inj nk ps); [done..| |]; by rewrite Heq.
Qed.

Lemma sort_ikeys_strict es :
  Forall (fun e => ikey_valid e.1) es -> NoDup es.*1 ->
  StronglySorted (clt (on_key ikey_cmp)) (sort_by (on_key ikey_cmp) es).
Proof.
  intros Hv Hn. apply (sorted_strict ikey_cmp ikey_valid).
  - intros a b Ha Hb. by apply ikey_cmp_eq.
  - by rewrite sort_by_perm.
  - by rewrite sort_by_perm.
  - apply sort_by_sorted. apply _.
Qed.

Lemma NoDup_concat_fst (ls : list (list entry)) : NoDup (concat ls).*1 -> Forall (fun l => NoDup l.*1) ls.
Proof.
  induction ls as [|l ls IH]; [constructor|]. cbn [concat]. rewrite fmap_app.
  intros (? & _ & ?)%NoDup_app. constructor; auto.
Qed.

Lemma generate_sources_ok {G} `{RngLaws G} `{Profile} (rng : G) num_sources num_keys :
  0 < num_sources -> 0 <= num_keys <= 10 ^ 20 ->
  exists per_source rng' counts ps, generate_sources rng num_sources num_keys = Ok (per_source, rng') /\
    fuzz_input num_sources num_keys per_source counts ps /\ Forall (draw_ok num_keys) ps /\ NoDup ps.*1.
Proof.
  intros Hns Hnk. unfold generate_sources.
  destruct (gen_keys_ok num_sources num_keys (Z.to_nat num_keys) 0 (replicate (Z.to_nat num_sources) []) [] rng)
    as (per_source & rng' & ps & counts & -> & Hgen & Hlen & Hc & Hvs & Ht); [lia..| |].
  { split; [rewrite len_replicate; lia| |constructor..]. cbn. by induction (Z.to_nat num_sources). }
  rewrite app_nil_r in Hgen. destruct Hgen as [Hl Hp Hn Hd _].
  assert (Forall (fun e => ikey_valid e.1) (concat per_source)) as Hv.
  { rewrite Hp. apply Forall_fmap. eapply Forall_impl; [exact Hd|]. intros p Hdp. apply (drawn_facts _ p Hdp). }
  assert (NoDup (concat per_source).*1) as Hnd by (rewrite Hp; apply (draws_keys num_keys); [lia|done..]).
  apply Forall_concat in Hv. apply NoDup_concat_fst in Hnd. rewrite bind_Ok, sort_all_ok, bind_Ok by done.
  exists (sort_by (on_key ikey_cmp) <$> per_source), rng', counts, ps. split_and!; try done. split; try done.
  - by rewrite len_fmap.
  - apply Forall_fmap, Forall_forall. intros l Hin. rewrite Forall_forall in Hv, Hnd. cbn.
    split; [rewrite sort_by_perm|apply sort_ikeys_strict]; auto.
  - unfold len. lia.
  - by rewrite sorted_concat.
Qed.

(** ** Properties *)

Section GeneratorProperties.
Context {G : Type} `{RngLaws G} `{ChecksumLib} `{CompressLib} `{Profile}.

(** C9: The randomized differential test cannot fail: whatever the random
    generator returns, [generate_sources] returns, without panicking, the
    number of sources asked for, each strictly sorted; between them they hold
    one to three versions of each of the keys asked for, numbered from one, of
    which only the newest can be a deletion ([fuzz_input]).  On them the
    compactor and the oracle succeed with equal results - for up to a million
    keys. *)
Theorem generated_sources_pass (rng : G) num_sources num_keys :
  0 < num_sources -> 0 <= num_keys <= 10 ^ 6 ->
  exists per_source rng' counts ps, generate_sources rng num_sources num_keys = Ok (per_source, rng') /\
    fuzz_input num_sources num_keys per_source counts ps /\
    exists out, run_compactor per_source = Ok out /\ Oracle.naive_compact per_source = Ok out.
Proof.
  intros Hns Hnk. destruct (generate_sources_ok rng num_sources num_keys Hns ltac:(lia))
    as (per_source & rng' & counts & ps & Hgen & Hin & Hd & Hn).
  exists per_source, rng', counts, ps. split; [done|]. split; [done|]. destruct Hin as [_ Hs Hk Hc Hp Hv _].
  assert (len ps <= 3 * 10 ^ 6) as Hl.
  { pose proof (key_versions_length 0 counts Hc) as Hlen.
    rewrite <- Hv, length_fmap in Hlen. unfold len in *. lia. }
  assert (Forall (draw_ok (10 ^ 6)) ps) as Hd6.
  { eapply Forall_impl; [exact Hd|]. unfold draw_ok. intros p. lia. }
  assert (fits (drawn <$> ps)) as [Hf1 Hf2] by by apply draws_fit.
  apply run_compactor_naive.
  - eapply Forall_impl; [exact Hs|]. intros l [Hvl Hsl]. split; [done|].
    eapply StronglySorted_impl; [|exact Hsl]. intros x y. apply clt_cle.
  - split; [by rewrite Hp|]. by rewrite (sst_weight_perm _ (drawn <$> ps)).
  - pose proof (draws_distinct num_keys ps ltac:(lia) Hn Hd) as Hdis. intros e e'. rewrite !Hp. apply Hdis.
Qed.
End GeneratorProperties.

(** A linear congruential generator. *)
#[local] Instance lcg : Rng Z := {
  gen_range lo hi g := if lo <? hi then Ok (lo + g mod (hi - lo), (g * 1103515245 + 12345) mod 2 ^ 31) else Panic;
  gen_bool n d g := (g mod d <? n, (g * 1103515245 + 12345) mod 2 ^ 31)
}.
#[local] Instance lcg_laws : RngLaws Z.
Proof.
  split; intros lo hi g Hlh; cbn.
  - replace (lo <? hi) with true by lia. do 2 eexists. split; [reflexivity|].
    pose proof (Z.mod_pos_bound g (hi - lo)). lia.
  - by replace (lo <? hi) with false by lia.
Qed.
#[local] Instance dev_profile : Profile := true.

Lemma generated_sources_pass_witness :
  exists per_source rng' counts ps, generate_sources 42 3 20 = Ok (per_source, rng') /\
    fuzz_input 3 20 per_source counts ps /\
    exists out, run_compactor per_source = Ok out /\ Oracle.naive_compact per_source = Ok out.
Proof. apply (generated_sources_pass 42 3 20); lia. Defined.

(** One run of the test, computed. *)
Example toy_generated :
  ('(per_source, _) ← generate_sources 7 2 5; Oracle.naive_compact per_source) =
  ('(per_source, _) ← generate_sources 7 2 5; run_compactor per_source).
Proof. vm_compute. reflexivity. Qed.
