(* ===== verification/Failures.v ===== *)
(** What compaction does with keys too short to be internal keys: the error
    paths of a job of [compaction/mod.rs]. *)

From S2P Require Import Prelude InternalKey Checksum Footer Block BlockBuilders Properties SstBuilder FileReader SstReader Loader.
From S2P Require Import Cmp Source Kmerge LoserTree Strategy Compaction Sharding.
Import InternalKey.

(** ** One source, whose keys are never compared, and two *)

Section FewSources.
Context {Src C : Type} `{MSL : MergeSourceLaws Src} `{KeyComparator C}.

(** The tree over a single leaf. *)
Definition single (s : Src) : LoserTreeMerger Src :=
  {| sources := [s]; tree := [NONE_YET]; winner := 0; k_padded := 1 |}.

Lemma single_new s : lt_new C [s] = Ok (single s).
Proof. reflexivity. Qed.

Lemma single_run {St} fuel s (f : bytes -> bytes -> St -> St) st :
  source_ok s -> (length (contents s) <= fuel)%nat ->
  exists s', lt_run C fuel (single s) f st = Ok (single s', feed f st (contents s)).
Proof.
  revert s st. induction fuel as [|fuel IH]; intros s st Hs Hf; cbn [lt_run single sources winner];
    change (len [s] <=? 0) with false; cbv iota; rewrite (index_at_ok [s] 0 s), bind_Ok by done;
    rewrite peek_contents, bind_Ok by done; destruct (contents s) as [|[k v] l] eqn:Hc; cbn [head];
    [by exists s|cbn in Hf; lia|by exists s|].
  destruct (advance_contents s (k, v) l Hs Hc) as [Hs' Hc'].
  destruct (IH (advance s) (f k v st) Hs') as (s' & Hr); [rewrite Hc'; cbn in Hf; lia|].
  exists s'. rewrite Hc' in Hr. exact Hr.
Qed.

(** Two leaves meet in one match. *)
Lemma pair_new s1 s2 e1 e2 l1 l2 :
  source_ok s1 -> source_ok s2 -> contents s1 = e1 :: l1 -> contents s2 = e2 :: l2 ->
  compare_with_prefix C e1.1 e2.1 = Panic -> lt_new C [s1; s2] = Panic.
Proof.
  intros Ho1 Ho2 Hc1 Hc2 Hp. unfold lt_new. change (next_power_of_two (Z.max (len [s1; s2]) 1)) with 2.
  set (self := {| sources := [s1; s2]; tree := _; winner := 0; k_padded := 2 |}).
  assert (peek_at self 0 = Ok (Some e1)) as H1 by (etransitivity; [exact (peek_contents s1 Ho1)|by rewrite Hc1]).
  assert (peek_at self 1 = Ok (Some e2)) as H2 by (etransitivity; [exact (peek_contents s2 Ho2)|by rewrite Hc2]).
  assert (less C self 0 1 = Panic) as Hless.
  { unfold less. rewrite H1, bind_Ok, H2, bind_Ok. destruct e1, e2. cbn [fst] in Hp. by rewrite Hp. }
  unfold build, height. change (Z.to_nat (Z.log2 self.(k_padded))) with 1%nat. cbn [build_subtree].
  change (self.(k_padded) <=? 1) with false. change (self.(k_padded) <=? 2 * 1) with true. cbv iota.
  rewrite bind_Ok. change (self.(k_padded) <=? 2 * 1 + 1) with true. cbv iota. rewrite bind_Ok.
  change (2 * 1 - self.(k_padded)) with 0.
  change (2 * 1 + 1 - self.(k_padded)) with 1. by rewrite Hless.
Qed.
End FewSources.

Section OneSourceCompaction.
Context `{ChecksumLib} `{Profile}.

(** The callback skips what does not decode. *)
Lemma select_skips `{CompactionStrategy T} (st : Visit T) es :
  visit_all st es = visit_all st (filter (fun e => ikey_valid e.1) es).
Proof.
  revert st. induction es as [|e es IH]; intros st; [done|]. rewrite filter_cons.
  case_decide as Hv; [apply IH|]. cbn [visit_all foldl]. fold (visit_all (visit e.1 e.2 st) es).
  unfold visit. rewrite split_short by done. apply IH.
Qed.

Lemma compact_single `{CompactionStrategy T} s opts (t : T) :
  arena_ok s ->
  compact_with_strategy [s] opts t =
    (let st := visit_all (visit_new t) (filter (fun e => ikey_valid e.1) (window s)) in
     sst ← build_sst st.(output) opts.(sst_builder); Ok (st.(Strategy.strategy), sst)).
Proof.
  intros Hs. unfold compact_with_strategy. cbn [Kmerge.new LoserTree_impl]. rewrite single_new, bind_Ok, bind_Ok.
  cbn [run LoserTree_impl lt_merger].
  destruct (single_run (C := InternalKeyComparator) (merge_fuel [s]) s (visit (T := T)) (visit_new t))
    as (s' & ->); [exact Hs| |].
  { pose proof (merge_fuel_enough [s]) as Hf. unfold inputs in Hf. cbn [fmap list_fmap concat] in Hf.
    by rewrite app_nil_r in Hf. }
  rewrite bind_Ok, bind_Ok. cbv zeta. by rewrite <- select_skips.
Qed.
End OneSourceCompaction.

(** ** Properties *)

Section Failures.
Context `{ChecksumLib} `{Profile}.

(** With a single source malformed entries are skipped: whatever the keys
    and the strategy, the job's result is that of the source without them. *)
Lemma malformed_skipped `{CompactionStrategy T} s opts (t : T) :
  arena_ok s ->
  let clean := filter (fun e => ikey_valid e.1) (window s) in
  arena_bytes clean < 2 ^ 32 ->
  compact_with_strategy [s] opts t = compact_with_strategy [arena_of clean] opts t.
Proof.
  cbv zeta. intros Hs Hb. set (clean := filter _ (window s)) in *.
  destruct (build_ok (push_all builder_new clean) clean) as (Ha & _ & Hw).
  { exact (push_all_repr builder_new [] clean builder_new_repr Hb). }
  rewrite !compact_single by done. unfold arena_of. rewrite Hw. unfold clean.
  by rewrite list_filter_filter_l by done.
Qed.

(** With a second source they are not: the merger compares the two first
    keys before the callback can skip either, and panics. *)
Lemma malformed_panics `{CompactionStrategy T} s1 s2 e1 e2 l1 l2 opts (t : T) :
  arena_ok s1 -> arena_ok s2 -> window s1 = e1 :: l1 -> window s2 = e2 :: l2 ->
  len e1.1 < 8 \/ len e2.1 < 8 ->
  compact_with_strategy [s1; s2] opts t = Panic.
Proof.
  intros Ha1 Ha2 Hw1 Hw2 Hs. unfold compact_with_strategy. cbn [Kmerge.new LoserTree_impl].
  enough (compare_with_prefix InternalKeyComparator e1.1 e2.1 = Panic) as Hc
    by by rewrite (pair_new (MSL := ArenaSource_laws) (C := InternalKeyComparator) s1 s2 e1 e2 l1 l2 Ha1 Ha2 Hw1 Hw2 Hc).
  change (internal_compare e1.1 e2.1 = Panic). unfold internal_compare. destruct (decide (ikey_valid e1.1)) as [Hv|Hv].
  - rewrite (key_split_ok e1.1), bind_Ok by done. rewrite (key_split_short e2.1); [done|]. unfold ikey_valid in *. lia.
  - by rewrite (key_split_short e1.1).
Qed.

(** C39: Keys too short to be internal keys, under any strategy: with a single
    source they are skipped - the result is that of the source without them -
    but with two sources, of which one starts with such a key, the merger
    compares the first keys before the callback can skip one, and panics. *)
Theorem malformed_keys `{CompactionStrategy T} opts (t : T) :
  (forall s, arena_ok s ->
    let clean := filter (fun e => ikey_valid e.1) (window s) in
    arena_bytes clean < 2 ^ 32 ->
    compact_with_strategy [s] opts t = compact_with_strategy [arena_of clean] opts t) /\
  (forall s1 s2 e1 e2 l1 l2,
    arena_ok s1 -> arena_ok s2 -> window s1 = e1 :: l1 -> window s2 = e2 :: l2 ->
    len e1.1 < 8 \/ len e2.1 < 8 ->
    compact_with_strategy [s1; s2] opts t = Panic).
Proof. split; [intros s; apply malformed_skipped|intros s1 s2 e1 e2 l1 l2; apply malformed_panics]. Qed.
End Failures.

(** ** Sources with malformed keys *)

#[local] Instance dev_profile : Profile := true.

(** A key of four bytes between two internal keys. *)
Definition dirty_run : list entry :=
  [(make_ikey (str "a") 769, str "1"); (str "oops", str "2"); (make_ikey (str "b") 513, str "3")].

Lemma arena_of_ok es : arena_bytes es < 2 ^ 32 -> arena_ok (arena_of es) /\ window (arena_of es) = es.
Proof.
  intros Hb. destruct (build_ok (push_all builder_new es) es) as (Ha & _ & Hw); [|done].
  exact (push_all_repr builder_new [] es builder_new_repr Hb).
Qed.

Definition failing_options : CompactionOptions := {| sst_builder := SstBuilderOptions.default |}.

Lemma malformed_keys_witness :
  let clean := filter (fun e => ikey_valid e.1) (window (arena_of dirty_run)) in
  compact_with_strategy [arena_of dirty_run] failing_options BottommostStrategy_ =
    compact_with_strategy [arena_of clean] failing_options BottommostStrategy_ /\
  compact_with_strategy [arena_of [(str "oops", [])]; arena_of dirty_run] failing_options BottommostStrategy_ = Panic.
Proof.
  destruct (malformed_keys failing_options BottommostStrategy_) as [Hskip Hpanic]. split.
  - apply (Hskip (arena_of dirty_run)); [apply arena_of_ok; reflexivity|vm_compute; reflexivity].
  - apply (Hpanic (arena_of [(str "oops", [])]) (arena_of dirty_run) (str "oops", [])
      (make_ikey (str "a") 769, str "1") [] (tail dirty_run)); [apply arena_of_ok; reflexivity..|reflexivity|reflexivity|left; reflexivity].
Defined.
