(* ===== verification/EndToEnd.v ===== *)
(** The program end to end: compacting sources into a table file and reading
    that file back. *)

From S2P Require Import Prelude InternalKey Checksum Footer Block BlockBuilders Properties SstBuilder FileReader SstReader Loader.
From S2P Require Import Cmp Source Kmerge LoserTree Strategy Compaction Sharding.
Import InternalKey.

(** Loading [file], from any reader over it, yields the entries [es]. *)
Definition loads_as `{ChecksumLib} `{CompressLib} `{Profile} (file : bytes) (es : list entry) : Prop :=
  forall (R : Type) (FR : FileReader R) (FL : FileReaderLaws R) (r : R), file_content r = file ->
    exists a, load_arena_source r = Ok a /\ window a = es.

(** ** Reading entries whose sequence numbers were zeroed *)

Lemma zero_seq_key_user k : ikey_user (zero_seq_key k) = ikey_user k.
Proof. apply make_ikey_user. Qed.

Lemma zero_seq_key_packed k : ikey_packed (zero_seq_key k) = ikey_packed k mod 256.
Proof.
  unfold zero_seq_key. rewrite make_ikey_packed; [done|]. pose proof (Z.mod_pos_bound (ikey_packed k) 256). lia.
Qed.

Lemma zeroed_versions uk es :
  versions uk (prod_map zero_seq_key id <$> es) = prod_map zero_seq_key id <$> versions uk es.
Proof.
  unfold versions. induction es as [|e es IH]; [done|].
  assert (has_user uk (prod_map zero_seq_key id e) <-> has_user uk e) as Hiff.
  { unfold has_user. by rewrite <- (zero_seq_key_user e.1). }
  rewrite fmap_cons, !filter_cons, IH. by repeat case_decide; try tauto.
Qed.

(** Visible entries stay visible when their sequence numbers become zero. *)
Lemma zeroed_visible snap es :
  Forall (visible snap) es -> Forall (visible snap) (prod_map zero_seq_key id <$> es).
Proof.
  intros Hv. apply Forall_fmap. eapply Forall_impl; [exact Hv|]. intros [k v] Hk.
  change (ikey_packed (zero_seq_key k) / 256 <= snap). change (ikey_packed k / 256 <= snap) in Hk.
  rewrite zero_seq_key_packed.
  pose proof (Z.mod_pos_bound (ikey_packed k) 256). pose proof (from_le_bytes_range (drop (length k - 8) k)) as Hr.
  fold (ikey_packed k) in Hr. rewrite Z.div_small by lia. etransitivity; [|exact Hk]. apply Z.div_pos; lia.
Qed.

Lemma table_entries_visible opts snap es :
  Forall (visible snap) es -> Forall (visible snap) (table_entries opts es).
Proof. intros Hv. unfold table_entries. case_match; [by apply zeroed_visible|done]. Qed.

Lemma zero_seq_key_type k : ikey_type (zero_seq_key k) = ikey_type k.
Proof. unfold ikey_type. by rewrite zero_seq_key_packed, Z.mod_mod. Qed.

(** Entries keep their types. *)
Lemma table_entries_types (P : ValueType -> Prop) opts es :
  Forall (fun e => P (ikey_type e.1)) es -> Forall (fun e => P (ikey_type e.1)) (table_entries opts es).
Proof.
  intros Hp. unfold table_entries. case_match; [|done]. apply Forall_fmap. eapply Forall_impl; [exact Hp|].
  intros e He. change (P (ikey_type (zero_seq_key e.1))). by rewrite zero_seq_key_type.
Qed.

Lemma table_entries_read opts uk snap es :
  Forall plain es -> Forall (visible snap) es -> read uk snap (table_entries opts es) = read uk snap es.
Proof.
  intros Hp Hv. rewrite !read_plain by (done || by apply (table_entries_types (fun t => t = Value \/ t = Deletion \/ t = SingleDeletion))).
  unfold table_entries. case_match; [|done].
  rewrite !point_read_newest by (done || by apply zeroed_visible). rewrite zeroed_versions.
  destruct (versions uk es) as [|[k v] l]; [done|]. cbn [head fmap list_fmap mbind option_bind prod_map].
  unfold is_tombstone. cbn [fst snd]. by rewrite zero_seq_key_type.
Qed.

Lemma table_entries_shape opts es :
  StronglySorted (clt user_cmp) es -> Forall (fun e => is_tombstone e = false) es ->
  StronglySorted (clt user_cmp) (table_entries opts es) /\
  Forall (fun e => is_tombstone e = false) (table_entries opts es).
Proof.
  intros Hs Ht. unfold table_entries. case_match; [|done]. split.
  - clear Ht. induction Hs as [|e es _ IH He]; [constructor|]. constructor; [exact IH|].
    apply Forall_fmap. eapply Forall_impl; [exact He|]. intros x Hx.
    change (slice_cmp (ikey_user (zero_seq_key e.1)) (ikey_user (zero_seq_key x.1)) = Lt).
    by rewrite !zero_seq_key_user.
  - apply Forall_fmap. eapply Forall_impl; [exact Ht|]. intros e He.
    change (is_tombstone_type (ikey_type (zero_seq_key e.1)) = false). by rewrite zero_seq_key_type.
Qed.

Lemma table_entries_valid opts es :
  Forall (fun e => ikey_valid e.1) es -> Forall (fun e => ikey_valid e.1) (table_entries opts es).
Proof.
  intros Hv. unfold table_entries. case_match; [|done]. apply Forall_fmap, Forall_forall. intros e _.
  apply make_ikey_valid.
Qed.

Lemma table_entries_length opts es : length (table_entries opts es) = length es.
Proof. unfold table_entries. case_match; [apply length_fmap|done]. Qed.

Section EndToEndLemmas.
Context `{ChecksumLib} `{CompressLib} `{Profile}.

Lemma table_of_loads file es : table_of file es -> arena_bytes es < 2 ^ 32 -> loads_as file es.
Proof.
  intros (props & ft & Hl) Hb R ? ? r <-. destruct (load_layout r es props ft Hl Hb) as (a & Ha & _ & _ & Hw).
  by exists a.
Qed.

Lemma tables_load files ess :
  Forall2 table_of files ess -> sst_weight (concat ess) < 2 ^ 32 -> Forall2 loads_as files ess.
Proof.
  induction 1 as [|file es files ess Ht _ IH]; intros Hw; constructor; cbn [concat] in Hw; rewrite sst_weight_app in Hw.
  - apply table_of_loads; [done|]. pose proof (arena_bytes_weight es).
    pose proof (sst_weight_nonneg (concat ess)). lia.
  - apply IH. pose proof (sst_weight_nonneg es). lia.
Qed.

Lemma plain_table opts es :
  opts.(SstBuilderOptions.external_sst_global_seqno) = None -> table_entries opts es = es.
Proof. unfold table_entries. by intros ->. Qed.

Lemma loads_select `{StrategyLaws T} (t : T) sources opts out file :
  Forall source_sorted sources -> fits (inputs sources) -> kmerge ikey_cmp (window <$> sources) out ->
  table_of file (table_entries opts (select t out)) -> loads_as file (table_entries opts (select t out)).
Proof.
  intros Hs Hf Hk Ht. apply table_of_loads; [done|].
  destruct (merge_output sources out Hs Hk) as (Hp & _ & Hv).
  destruct (fits_select t out _ Hf Hp Hv) as [_ Hw].
  destruct (table_entries_sizes opts (select t out)) as [Hwt _].
  { intros _. eapply Forall_sublist; [by apply select_sublist|done]. }
  pose proof (arena_bytes_weight (table_entries opts (select t out))). lia.
Qed.

(** A compaction job, its table and what it reads as. *)
Lemma compact_reads sources opts :
  Forall source_sorted sources -> fits (inputs sources) -> opts_ok opts.(sst_builder) ->
  exists file merged kept,
    compact sources opts = Ok file /\ table_of file (table_entries opts.(sst_builder) kept) /\
    loads_as file (table_entries opts.(sst_builder) kept) /\
    merged ≡ₚ inputs sources /\ StronglySorted (cle (on_key ikey_cmp)) merged /\
    kept `sublist_of` merged /\ StronglySorted (clt user_cmp) (table_entries opts.(sst_builder) kept) /\
    (forall uk, versions uk kept = bottommost_keep (versions uk merged)) /\
    (Forall plain (inputs sources) ->
     Forall is_value (table_entries opts.(sst_builder) kept) /\
     forall snap uk, Forall (visible snap) (inputs sources) ->
       read uk snap (table_entries opts.(sst_builder) kept) = read uk snap merged).
Proof.
  intros Hs Hf Ho. destruct (compact_ok sources opts Hs Hf Ho) as (out & file & Hk & Hc & Ht).
  destruct (merge_output sources out Hs Hk) as (Hp & Hso & Hv).
  destruct (bottommost_output BottommostStrategy_ out Hv Hso) as [Hu Htomb].
  destruct (bottommost_correct BottommostStrategy_ out Hv Hso) as (_ & Hkeep & Hplain).
  pose proof (select_sublist BottommostStrategy_ out Hv) as Hsub.
  exists file, out, (select BottommostStrategy_ out). split_and!; try done.
  - by apply (loads_select BottommostStrategy_ sources).
  - by apply table_entries_shape.
  - intros Hpl. rewrite <- Hp in Hpl. destruct (Hplain Hpl) as [Hval Hread]. split.
    + by apply (table_entries_types (fun t => t = Value)).
    + intros snap uk Hvis. rewrite <- Hp in Hvis.
      rewrite table_entries_read by (by eapply Forall_sublist). by apply Hread.
Qed.
End EndToEndLemmas.

(** ** Properties *)

Section EndToEnd.
Context `{ChecksumLib} `{CompressLib} `{Profile}.

(** C1: Compaction end to end: on sorted sources within the format's limits
    [compact] returns a table, never an error or a panic. Loading it yields a
    subsequence of a sorted merge of the inputs - with sequence numbers set to
    zero in external mode - in which user keys increase strictly: of every
    user key, whatever the types of its entries, the newest version, unless
    that is a deletion or single deletion. If the inputs hold nothing but
    puts, deletions and single deletions, the table holds nothing but puts,
    and every user key reads exactly as in the inputs. The last part fails
    with range deletions, see [range_deletion_lost]. *)
Theorem compact_correct sources opts :
  Forall source_sorted sources -> fits (inputs sources) -> opts_ok opts.(sst_builder) ->
  exists file merged kept, let es := table_entries opts.(sst_builder) kept in
    compact sources opts = Ok file /\ loads_as file es /\
    merged ≡ₚ inputs sources /\ StronglySorted (cle (on_key ikey_cmp)) merged /\
    kept `sublist_of` merged /\ StronglySorted (clt user_cmp) es /\
    (forall uk, versions uk kept = bottommost_keep (versions uk merged)) /\
    (Forall plain (inputs sources) ->
     Forall is_value es /\
     forall snap uk, Forall (visible snap) (inputs sources) -> read uk snap es = read uk snap merged).
Proof.
  intros Hs Hf Ho. destruct (compact_reads sources opts Hs Hf Ho) as (file & merged & kept & Hc & _ & Hr).
  by exists file, merged, kept.
Qed.

(** C8: Snapshot-preserving compaction end to end: the table holds, for every
    user key, the very version a reader at the snapshot found in the merged
    inputs and the newest one, tombstones included, and no more than those;
    an entry of any type counts as a version.
    Stated for tables that keep their sequence numbers: external mode, which
    sets them to zero, leaves nothing to take a snapshot of. *)
Theorem compact_snapshot_correct sources opts snapshot_seqno :
  Forall source_sorted sources -> fits (inputs sources) -> opts_ok opts.(sst_builder) ->
  opts.(sst_builder).(SstBuilderOptions.external_sst_global_seqno) = None ->
  exists t file merged es,
    compact_with_strategy sources opts (snapshot_new snapshot_seqno) = Ok (t, file) /\
    loads_as file es /\ merged ≡ₚ inputs sources /\ StronglySorted (cle (on_key ikey_cmp)) merged /\
    es `sublist_of` merged /\
    forall uk, find_version uk snapshot_seqno es = find_version uk snapshot_seqno merged /\
      head (versions uk es) = head (versions uk merged) /\ (length (versions uk es) <= 2)%nat.
Proof.
  intros Hs Hf Ho He.
  destruct (compact_with_strategy_ok sources opts (snapshot_new snapshot_seqno) Hs Hf Ho)
    as (out & t & file & props & ft & Hk & Hc & Hl).
  destruct (merge_output sources out Hs Hk) as (Hp & Hso & Hv).
  exists t, file, out, (select (snapshot_new snapshot_seqno) out). split_and!; try done.
  - rewrite <- (plain_table opts.(sst_builder)) by done. apply (loads_select _ sources); try done. by exists props, ft.
  - by apply select_sublist.
  - intros uk. unfold find_version. rewrite snapshot_versions by done.
    split_and!; [apply snapshot_keep_visible|apply snapshot_keep_newest|apply snapshot_keep_length].
Qed.

(** C3: Sharding does not change the result: when no two input entries have
    the same key, [compact_sharded] succeeds with one table per shard, and the
    tables' entries, in shard order, are the entries of the single table
    [compact] returns. Stated without external mode, in which both sides have
    their sequence numbers set to zero. *)
Theorem sharded_equals_unsharded sources num opts :
  sources <> [] -> Forall whole sources -> 1 < num ->
  Forall (fun s => total_len s * num < 2 ^ 64) sources ->
  fits (inputs sources) -> opts_ok opts.(sst_builder) ->
  opts.(sst_builder).(SstBuilderOptions.external_sst_global_seqno) = None ->
  NoDup (inputs sources).*1 ->
  exists file es files ess,
    compact sources opts = Ok file /\ loads_as file es /\
    compact_sharded sources num opts = Ok files /\ Forall2 loads_as files ess /\ concat ess = es.
Proof.
  intros Hne Hw Hnum Hmul Hf Ho He Hnd.
  destruct (compact_sharded_ok sources num opts Hne Hw Hnum Hmul Hf Ho Hnd)
    as (file & es & files & ess & Hc & Ht & Hcs & Hts & Hcat & Hwt).
  assert (Forall2 loads_as files ess) as Hl.
  { subst es. eapply tables_load; [exact Hts|exact Hwt]. }
  exists file, es, files, ess. split_and!; try done. apply table_of_loads; [done|].
  pose proof (arena_bytes_weight es). lia.
Qed.
End EndToEnd.

(** ** Two runs to compact *)

#[local] Instance dev_profile : Profile := true.

(** A newer run with a tombstone over [b], and an older one it shadows in part. *)
Definition toy_newer : list entry :=
  [(make_ikey (str "a") (5 * 256 + 1), str "a5"); (make_ikey (str "b") (7 * 256), []);
   (make_ikey (str "c") (4 * 256 + 1), str "c4")].
Definition toy_older : list entry :=
  [(make_ikey (str "a") (2 * 256 + 1), str "a2"); (make_ikey (str "b") (3 * 256 + 1), str "b3");
   (make_ikey (str "d") (1 * 256 + 1), str "d1")].
Definition toy_runs : list (list entry) := [toy_newer; toy_older].
Definition toy_sources : list ArenaSource := arena_of <$> toy_runs.
Definition toy_options : CompactionOptions := {| sst_builder := SstBuilderOptions.default |}.

Lemma toy_runs_ok :
  Forall (fun es => Forall (fun e => ikey_valid e.1) es /\ StronglySorted (cle (on_key ikey_cmp)) es) toy_runs.
Proof.
  repeat (constructor; [split; [repeat constructor; vm_compute; discriminate|decide_sorted]|]). constructor.
Qed.

Lemma toy_runs_fit : fits (concat toy_runs).
Proof. fits_concrete. Qed.

Lemma toy_inputs : inputs toy_sources = concat toy_runs.
Proof. vm_compute. reflexivity. Qed.

Lemma toy_whole : Forall whole toy_sources.
Proof. exact (proj1 (built_sources toy_runs toy_runs_ok toy_runs_fit)). Qed.

Lemma toy_sorted : Forall source_sorted toy_sources.
Proof. eapply Forall_impl; [exact toy_whole|]. by intros s []. Qed.

Lemma toy_options_ok : opts_ok toy_options.(sst_builder).
Proof. split; split; vm_compute; discriminate || reflexivity. Qed.

Lemma toy_plain : Forall plain (concat toy_runs).
Proof. by apply (bool_decide_unpack _). Qed.

Lemma compact_correct_witness :
  exists file merged es,
    compact toy_sources toy_options = Ok file /\ loads_as file es /\
    merged ≡ₚ inputs toy_sources /\ StronglySorted (cle (on_key ikey_cmp)) merged /\
    es `sublist_of` merged /\ StronglySorted (clt user_cmp) es /\
    (forall uk, versions uk es = bottommost_keep (versions uk merged)) /\
    Forall is_value es /\ forall uk, read uk 100 es = read uk 100 merged.
Proof.
  destruct (compact_correct toy_sources toy_options) as (file & merged & kept & H1 & H2 & H3 & H4 & H5 & H6 & H7 & H8).
  - exact toy_sorted.
  - rewrite toy_inputs. exact toy_runs_fit.
  - exact toy_options_ok.
  - destruct H8 as [H8 H9].
    { rewrite toy_inputs. exact toy_plain. }
    exists file, merged, kept. split_and!; [exact H1|exact H2|exact H3|exact H4|exact H5|exact H6|exact H7|exact H8|].
    intros uk. apply H9. rewrite toy_inputs. repeat constructor; vm_compute; discriminate.
Defined.

Lemma compact_snapshot_correct_witness :
  exists t file merged es,
    compact_with_strategy toy_sources toy_options (snapshot_new 4) = Ok (t, file) /\
    loads_as file es /\ merged ≡ₚ inputs toy_sources /\ StronglySorted (cle (on_key ikey_cmp)) merged /\
    es `sublist_of` merged /\
    forall uk, find_version uk 4 es = find_version uk 4 merged /\
      head (versions uk es) = head (versions uk merged) /\ (length (versions uk es) <= 2)%nat.
Proof.
  apply (compact_snapshot_correct toy_sources toy_options 4).
  - exact toy_sorted.
  - rewrite toy_inputs. exact toy_runs_fit.
  - exact toy_options_ok.
  - reflexivity.
Defined.

Lemma sharded_equals_unsharded_witness :
  exists file es files ess,
    compact toy_sources toy_options = Ok file /\ loads_as file es /\
    compact_sharded toy_sources 2 toy_options = Ok files /\ Forall2 loads_as files ess /\ concat ess = es.
Proof.
  apply (sharded_equals_unsharded toy_sources 2 toy_options).
  - discriminate.
  - exact toy_whole.
  - reflexivity.
  - repeat constructor; vm_compute; reflexivity.
  - rewrite toy_inputs. exact toy_runs_fit.
  - exact toy_options_ok.
  - reflexivity.
  - rewrite toy_inputs. by apply (bool_decide_unpack _).
Defined.

(** The compacted toy runs, computed: [b] is gone, the newest [a] remains. *)
Example toy_compacted :
  (file ← compact toy_sources toy_options;
   a ← load_arena_source {| br_file := file; br_file_size := len file |};
   Ok (window a)) =
    Ok [(make_ikey (str "a") (5 * 256 + 1), str "a5"); (make_ikey (str "c") (4 * 256 + 1), str "c4");
        (make_ikey (str "d") (1 * 256 + 1), str "d1")].
Proof. vm_compute. reflexivity. Qed.

(** *** Range deletions

    [a] was put after a range deletion of [a..c), which deletes [b]. *)
Definition range_runs : list (list entry) :=
  [[(make_ikey (str "a") (9 * 256 + 1), str "a9")];
   [(make_ikey (str "a") (5 * 256 + 15), str "c"); (make_ikey (str "b") (3 * 256 + 1), str "b3")]].

(** The job drops the range deletion, which is not the newest entry under its
    start key, and so brings back a key it had deleted. *)
Example range_deletion_lost :
  read (str "b") 100 (sort_by (on_key ikey_cmp) (concat range_runs)) = None /\
  (file ← compact (arena_of <$> range_runs) toy_options;
   a ← load_arena_source {| br_file := file; br_file_size := len file |};
   Ok (read (str "b") 100 (window a))) = Ok (Some (str "b3")).
Proof. split; vm_compute; reflexivity. Qed.
