(* ===== verification/Canonical.v ===== *)
(** What a compaction depends on: the entries of its inputs, not how they are
    spread over sources.  Hence the order of the inputs does not matter, runs
    can be merged in stages, and compacting a compacted table changes nothing. *)

From S2P Require Import Prelude InternalKey Checksum Footer Block BlockBuilders Properties SstBuilder FileReader SstReader Loader.
From S2P Require Import Cmp Source Kmerge LoserTree Strategy Compaction Sharding EndToEnd.
Import InternalKey.

(** ** Clean lists

    Each user key once, in order, no tombstones: what bottommost compaction
    returns, and what it leaves alone. *)
Record clean (es : list entry) : Prop := {
  clean_valid : Forall (fun e => ikey_valid e.1) es;
  clean_sorted : StronglySorted (clt user_cmp) es;
  clean_live : Forall (fun e => is_tombstone e = false) es
}.

Lemma select_live e : ikey_valid e.1 -> is_tombstone e = false -> select BottommostStrategy_ [e] = [e].
Proof.
  intros Hv Ht. destruct e as [k v]. unfold select, visit_all. cbn [foldl]. unfold visit.
  rewrite split_ok by done. cbn [has_last_user_key visit_new negb orb]. unfold strategy_decide, BottommostStrategy_impl, bottommost_decide.
  cbn [negb value_type]. unfold is_tombstone in Ht. cbn [fst] in *. by rewrite Ht.
Qed.

Lemma select_clean es : clean es -> select BottommostStrategy_ es = es.
Proof.
  intros [Hv Hs Hl]. induction Hs as [|e es Hs IH He]; [done|]. inversion Hv as [|? ? Hve Hv']; inversion Hl as [|? ? Hle Hl']; subst.
  change (e :: es) with ([e] ++ es) in *. rewrite select_app, select_live, IH; [done..|].
  intros x y ->%list_elem_of_singleton Hy Hxy. rewrite Forall_forall in He. specialize (He y Hy).
  unfold clt, user_cmp, same_user in *. by rewrite Hxy, slice_cmp_refl in He.
Qed.

Lemma clean_sorted_ikey es : clean es -> StronglySorted (cle (on_key ikey_cmp)) es.
Proof.
  intros [_ Hs _]. induction Hs as [|e es _ IH He]; constructor; [exact IH|].
  eapply Forall_impl; [exact He|]. intros x. apply user_lt_ikey.
Qed.

Lemma kmerge_single cmp l out : kmerge cmp [l] out -> out = l.
Proof.
  revert out. induction l as [|e l IH]; intros out Hk; inversion Hk as [? Hn|? i e' l' out' Hi _ Hr]; subst.
  - done.
  - destruct i as [|[|i]]; done.
  - by inversion Hn.
  - destruct i as [|[|i]]; try done. cbn in Hi. injection Hi as <- <-. cbn in Hr. f_equal. by apply IH.
Qed.

Lemma zero_seq_key_idem k : zero_seq_key (zero_seq_key k) = zero_seq_key k.
Proof. unfold zero_seq_key at 1. by rewrite zero_seq_key_user, zero_seq_key_packed, Z.mod_mod. Qed.

Lemma table_entries_idem opts es : table_entries opts (table_entries opts es) = table_entries opts es.
Proof.
  unfold table_entries. case_match; [|done]. rewrite <- list_fmap_compose. apply list_fmap_ext.
  intros i [k v] _. unfold compose, prod_map. cbn [fst snd]. by rewrite zero_seq_key_idem.
Qed.

Section CanonicalLemmas.
Context `{ChecksumLib} `{CompressLib} `{Profile}.

Lemma build_table_entries opts es :
  Forall (fun e => ikey_valid e.1) es -> build_sst (table_entries opts es) opts = build_sst es opts.
Proof.
  intros Hv. unfold build_sst. rewrite !rewrite_entries_ok by (intros _; by try apply table_entries_valid).
  by rewrite table_entries_idem.
Qed.

(** The whole result of a job, as a function of the merged entries. *)
Lemma compact_feed sources :
  Forall source_sorted sources ->
  exists out, kmerge ikey_cmp (window <$> sources) out /\
    forall T (S : CompactionStrategy T) (t : T) opts,
      compact_with_strategy sources opts t =
        (sst ← build_sst (select t out) opts.(sst_builder);
         Ok ((feed visit (visit_new t) out).(Strategy.strategy), sst)).
Proof.
  intros Hs. destruct (merge_ok sources Hs) as (m & out & Hnew & Hk & Hrun). exists out. split; [done|]. intros T S t opts.
  destruct (Hrun (Visit T) visit (visit_new t)) as [m' Hr]. unfold compact_with_strategy. by rewrite Hnew, bind_Ok, Hr, bind_Ok.
Qed.

Lemma compact_same_entries sources1 sources2 T (S : CompactionStrategy T) (t : T) opts :
  Forall source_sorted sources1 -> Forall source_sorted sources2 ->
  inputs sources1 ≡ₚ inputs sources2 -> NoDup (inputs sources1).*1 ->
  compact_with_strategy sources1 opts t = compact_with_strategy sources2 opts t.
Proof.
  intros Ho1 Ho2 Hp Hnd. destruct (compact_feed sources1 Ho1) as (out1 & Hk1 & ->), (compact_feed sources2 Ho2) as (out2 & Hk2 & ->).
  destruct (merge_output _ _ Ho1 Hk1) as (Hp1 & Hs1 & Hv1), (merge_output _ _ Ho2 Hk2) as (Hp2 & Hs2 & _).
  assert (out1 = out2) as ->; [|done].
  apply (sorted_unique ikey_cmp ikey_valid); [|done|by rewrite Hp1|done|done|by rewrite Hp1, Hp2].
  intros a b Ha Hb. by apply ikey_cmp_eq.
Qed.

(** A table, loaded: a source of its entries. *)
Lemma table_source file es :
  table_of file es -> arena_bytes es < 2 ^ 32 -> Forall (fun e => ikey_valid e.1) es ->
  StronglySorted (cle (on_key ikey_cmp)) es ->
  forall (R : Type) (FR : FileReader R) (FL : FileReaderLaws R) (r : R), file_content r = file ->
    exists a, load_arena_source r = Ok a /\ window a = es /\ source_sorted a.
Proof.
  intros (props & ft & Hl) Hb Hv Hs R FR FL r <-. destruct (load_layout r es props ft Hl Hb) as (a & Ha & Hok & _ & Hw).
  exists a. split_and!; [done|done|]. by split; rewrite ?Hw.
Qed.

Lemma inputs_app sources1 sources2 : inputs (sources1 ++ sources2) = inputs sources1 ++ inputs sources2.
Proof. unfold inputs. by rewrite fmap_app, concat_app. Qed.
End CanonicalLemmas.

(** ** Properties *)

Section CanonicalProperties.
Context `{ChecksumLib} `{CompressLib} `{Profile}.

(** C5: A compaction depends on the entries of its inputs alone: when no key
    occurs twice, two jobs whose sources hold the same entries, spread over
    any number of sources in any order, end in the same way, byte for byte and
    with the same state of the strategy, whatever the strategy. *)
Theorem compaction_canonical sources1 sources2 :
  Forall source_sorted sources1 -> Forall source_sorted sources2 ->
  inputs sources1 ≡ₚ inputs sources2 -> NoDup (inputs sources1).*1 ->
  forall T (S : CompactionStrategy T) (strategy : T) opts,
    compact_with_strategy sources1 opts strategy = compact_with_strategy sources2 opts strategy.
Proof. intros. by apply compact_same_entries. Qed.

(** C6: Compacting in stages: the passthrough strategy writes every input
    entry, versions and tombstones included, in internal-key order, so a first
    group of sources can be merged into one table with it, the table loaded
    back and compacted with the rest: under any strategy the result is, byte
    for byte, that of compacting everything at once. *)
Theorem compact_in_stages group rest opts1 :
  Forall source_sorted (group ++ rest) -> fits (inputs group) -> opts_ok opts1.(sst_builder) ->
  opts1.(sst_builder).(SstBuilderOptions.external_sst_global_seqno) = None ->
  NoDup (inputs (group ++ rest)).*1 ->
  exists t file, compact_with_strategy group opts1 PassthroughStrategy_ = Ok (t, file) /\
    forall (R : Type) (FR : FileReader R) (FL : FileReaderLaws R) (r : R), file_content r = file ->
      exists a, load_arena_source r = Ok a /\
        window a ≡ₚ inputs group /\ StronglySorted (cle (on_key ikey_cmp)) (window a) /\
        forall T (S : CompactionStrategy T) (strategy : T) opts,
          compact_with_strategy (a :: rest) opts strategy = compact_with_strategy (group ++ rest) opts strategy.
Proof.
  intros [Hg Hrest]%Forall_app Hf Ho He Hnd.
  destruct (compact_with_strategy_ok group opts1 PassthroughStrategy_ Hg Hf Ho) as (out & t & file & props & ft & Hk & Hc & Hl).
  destruct (merge_output group out Hg Hk) as (Hp & Hso & Hv). rewrite plain_table, passthrough_select in Hl by done.
  exists t, file. split; [exact Hc|]. intros R FR FL r Hr.
  assert (arena_bytes out < 2 ^ 32) as Hb.
  { pose proof (arena_bytes_weight out). rewrite (sst_weight_perm _ _ Hp) in *. destruct Hf. lia. }
  destruct (table_source file out ltac:(by exists props, ft) Hb Hv Hso R FR FL r Hr) as (a & Ha & Hw & Hs).
  exists a. rewrite Hw. split_and!; [done..|]. intros T S strategy opts. symmetry. apply compact_same_entries; [by apply Forall_app|by constructor| |done].
  rewrite inputs_app. change (inputs (a :: rest)) with (window a ++ inputs rest). by rewrite Hw, Hp.
Qed.

(** C7: Compacting twice is compacting once: loading the table [compact]
    returned and compacting it again, with the same options - also those of
    external files - returns the same bytes. *)
Theorem compact_idempotent sources opts :
  Forall source_sorted sources -> fits (inputs sources) -> opts_ok opts.(sst_builder) ->
  exists file, compact sources opts = Ok file /\
    forall (R : Type) (FR : FileReader R) (FL : FileReaderLaws R) (r : R), file_content r = file ->
      exists a, load_arena_source r = Ok a /\ compact [a] opts = Ok file.
Proof.
  intros Hs Hf Ho. destruct (compact_eq sources opts Hs) as (out & Hk & Hc).
  destruct (merge_output sources out Hs Hk) as (Hp & Hso & Hv).
  destruct (fits_select BottommostStrategy_ out _ Hf Hp Hv) as [Hsm Hw].
  destruct (bottommost_output BottommostStrategy_ out Hv Hso) as [Hu Hn]. set (es := select BottommostStrategy_ out) in *.
  assert (Forall (fun e => ikey_valid e.1) es) as Hes by (eapply Forall_sublist; [by apply select_sublist|done]).
  destruct (build_sst_ok es opts.(sst_builder) Hsm Hw Ho (fun _ => Hes)) as (file & props & ft & Hbuild & Hl & _).
  exists file. rewrite Hc, Hbuild. split; [done|]. intros R FR FL r Hr.
  set (te := table_entries opts.(sst_builder) es). destruct (table_entries_shape opts.(sst_builder) es Hu Hn) as [Hu' Hn'].
  assert (clean te) as Hclean by (split; [by apply table_entries_valid|done|done]).
  assert (arena_bytes te < 2 ^ 32) as Hb.
  { pose proof (arena_bytes_weight te). unfold te in *. rewrite (proj1 (table_entries_sizes _ es (fun _ => Hes))) in *. lia. }
  destruct (table_source file te ltac:(by exists props, ft) Hb (clean_valid _ Hclean) (clean_sorted_ikey _ Hclean) R FR FL r Hr)
    as (a & Ha & Hwin & Hsa).
  exists a. split; [done|]. destruct (compact_eq [a] opts) as (out' & Hk' & ->); [by constructor|].
  apply kmerge_single in Hk' as ->. rewrite Hwin, select_clean by done. unfold te. by rewrite build_table_entries.
Qed.
End CanonicalProperties.

(** ** The toy runs, the other way round and in stages *)

#[local] Instance dev_profile : Profile := true.

Lemma toy_distinct : NoDup (inputs toy_sources).*1.
Proof. rewrite toy_inputs. by apply (bool_decide_unpack _). Qed.

Lemma compaction_canonical_witness :
  compact_with_strategy toy_sources toy_options (snapshot_new 4) =
  compact_with_strategy (reverse toy_sources) toy_options (snapshot_new 4).
Proof.
  apply (compaction_canonical toy_sources (reverse toy_sources)).
  - exact toy_sorted.
  - apply Forall_reverse. exact toy_sorted.
  - unfold inputs. by rewrite (reverse_Permutation toy_sources).
  - exact toy_distinct.
Defined.

Lemma compact_in_stages_witness :
  exists t file, compact_with_strategy [arena_of toy_newer] toy_options PassthroughStrategy_ = Ok (t, file) /\
    forall (R : Type) (FR : FileReader R) (FL : FileReaderLaws R) (r : R), file_content r = file ->
      exists a, load_arena_source r = Ok a /\
        compact_with_strategy [a; arena_of toy_older] toy_options BottommostStrategy_ =
        compact_with_strategy toy_sources toy_options BottommostStrategy_.
Proof.
  destruct (compact_in_stages [arena_of toy_newer] [arena_of toy_older] toy_options) as (t & file & Hc & Hload).
  - exact toy_sorted.
  - change (inputs [arena_of toy_newer]) with toy_newer. fits_concrete.
  - exact toy_options_ok.
  - reflexivity.
  - exact toy_distinct.
  - exists t, file. split; [exact Hc|]. intros R FR FL r Hr. destruct (Hload R FR FL r Hr) as (a & Ha & _ & _ & Hs).
    exists a. split; [exact Ha|]. apply Hs.
Defined.

Lemma compact_idempotent_witness :
  exists file, compact toy_sources toy_options = Ok file /\
    forall (R : Type) (FR : FileReader R) (FL : FileReaderLaws R) (r : R), file_content r = file ->
      exists a, load_arena_source r = Ok a /\ compact [a] toy_options = Ok file.
Proof.
  apply (compact_idempotent toy_sources toy_options).
  - exact toy_sorted.
  - rewrite toy_inputs. exact toy_runs_fit.
  - exact toy_options_ok.
Defined.
