(* ===== verification/Termination.v ===== *)
(** Every loop of the program comes to an end, on every input: damaged files,
    unsorted or malformed sources, any options.  The fuel of the definitions
    is never what ends them. *)

From S2P Require Import Prelude Varint InternalKey Checksum Footer Block BlockBuilders Properties SstBuilder FileReader SstReader Loader.
From S2P Require Import Cmp Source Kmerge LoserTree Strategy Compaction.

(** ** Outcomes that are not cut short *)

Definition ends {A} (m : outcome A) : Prop := m <> OutOfFuel.

Lemma ends_Ok {A} (a : A) : ends (Ok a).
Proof. done. Qed.
Lemma ends_Err {A} e : ends (@Err A e).
Proof. done. Qed.
Lemma ends_Panic {A} : ends (@Panic A).
Proof. done. Qed.
Lemma ends_bind {A B} (m : outcome A) (f : A -> outcome B) :
  ends m -> (forall a, m = Ok a -> ends (f a)) -> ends (m ≫= f).
Proof. unfold ends. destruct m; cbn; auto. Qed.
Lemma ends_fmap {A B} (m : outcome A) (f : A -> B) : ends m -> ends (f <$> m).
Proof. by destruct m. Qed.
Lemma ends_settled {A} (m : outcome A) : settled m -> ends m.
Proof. by destruct m. Qed.
Lemma ends_ok_or {A} (o : option A) e : ends (ok_or o e).
Proof. by destruct o. Qed.
Lemma ends_unwrap {A} (o : option A) : ends (unwrap o).
Proof. by destruct o. Qed.
Lemma ends_assert b : ends (assert b).
Proof. by destruct b. Qed.
Lemma ends_map_err {A} (r : error + A) f : ends (map_err r f).
Proof. by destruct r. Qed.
Lemma ends_index_range {A} (l : list A) a b : ends (index_range l a b).
Proof. apply ends_unwrap. Qed.
Lemma ends_index_at {A} (l : list A) i : ends (index_at l i).
Proof. apply ends_unwrap. Qed.
Lemma ends_set_at {A} (l : list A) i x : ends (set_at l i x).
Proof. unfold set_at. by case_match. Qed.
Lemma ends_copy {A} (l : list A) a b s : ends (copy_from_slice l a b s).
Proof. unfold copy_from_slice. by case_match. Qed.
Lemma ends_arith `{Profile} b x y : ends (arith b x y).
Proof. unfold arith. by repeat case_match. Qed.
Lemma ends_debug_assert `{Profile} b : ends (debug_assert b).
Proof. unfold debug_assert. case_match; [apply ends_assert|done]. Qed.
Lemma ends_read_or {A} (m : outcome A) f : ends m -> ends (read_or m f).
Proof. by destruct m. Qed.
Lemma ends_run_visit {St} (x : St * outcome unit) : ends x.2 -> ends (run_visit x).
Proof. by destruct x as [? [| | |]]. Qed.
Lemma ends_mapM {A B} (f : A -> outcome B) l : (forall a, ends (f a)) -> ends (mapM f l).
Proof.
  intros Hf. induction l as [|a l IH]; [done|]. cbn [mapM]. apply ends_bind; [done|]. intros b _.
  by apply ends_bind.
Qed.

Create HintDb ends.
#[export] Hint Resolve ends_Ok ends_Err ends_Panic ends_fmap ends_ok_or ends_unwrap ends_assert ends_map_err : ends.
#[export] Hint Resolve ends_index_range ends_index_at ends_set_at ends_copy ends_arith ends_debug_assert : ends.
#[export] Hint Resolve ends_read_or ends_run_visit ends_mapM : ends.
#[export] Hint Extern 1 (ends (add_u32 _ _)) => apply ends_arith : ends.
#[export] Hint Extern 1 (ends (add_u64 _ _)) => apply ends_arith : ends.
#[export] Hint Extern 1 (ends (sub_u64 _ _)) => apply ends_arith : ends.
#[export] Hint Extern 1 (ends (mul_u64 _ _)) => apply ends_arith : ends.
#[export] Hint Extern 1 (ends (sub_i64 _ _)) => apply ends_arith : ends.

(** Walks a computation, step by step and branch by branch. *)
Ltac walk :=
  repeat first
    [ solve [auto with ends]
    | apply ends_bind; [|intros ? ?]
    | apply ends_fmap
    | progress cbv zeta
    | progress cbn beta iota
    | case_match ].

(** ** Files *)

Section Files.
Context `{ChecksumLib} `{CompressLib} `{Profile}.

Lemma compute_checksum_plain_ends ty data : ends (compute_checksum_plain ty data).
Proof. unfold compute_checksum_plain. walk. Qed.
Hint Resolve compute_checksum_plain_ends : ends.

Lemma decode_footer_ends tail size : ends (decode_footer tail size).
Proof. unfold decode_footer, decode_footer_v6, decode_footer_old. walk. Qed.

Lemma parse_block_ends c : ends (parse_block c).
Proof. apply ends_settled, parse_block_settled. Qed.

Lemma decompress_ends ty data : ends (decompress ty data).
Proof. apply ends_settled, decompress_settled. Qed.
Hint Resolve decode_footer_ends parse_block_ends decompress_ends : ends.

Lemma decode_block_contents_ends raw h ty base : ends (decode_block_contents raw h ty base).
Proof. unfold decode_block_contents, compression_from_byte. walk. Qed.
Hint Resolve decode_block_contents_ends : ends.

Lemma entry_loop_ends {St} (f : bytes -> bytes -> St -> St * outcome unit) fuel data k pos st :
  (forall k v st, ends (f k v st).2) -> 0 <= pos -> (Z.to_nat (len data - pos) <= fuel)%nat ->
  ends (entry_loop f fuel data k pos st).2.
Proof.
  intros Hf. revert k pos st. induction fuel as [|fuel IH]; intros k pos st Hp Hl; cbn [entry_loop];
    destruct (Z.ltb_spec pos (len data)); try done; [lia|].
  pose proof (read_entry_settled data k pos) as Hs.
  destruct (read_entry data k pos) as [[[k' v] p']| | |] eqn:E; try done.
  apply read_entry_pos in E; [|done]. specialize (Hf k' v st).
  destruct (f k' v st) as [st' [| | |]]; try done. apply IH; lia.
Qed.

Lemma for_each_entry_ends {St} (f : bytes -> bytes -> St -> St * outcome unit) b st :
  block_ok b -> (forall k v st, ends (f k v st).2) -> ends (Block.for_each_entry b f st).2.
Proof.
  intros Hb Hf. unfold Block.for_each_entry. destruct (entries_data_total b Hb) as [data ->].
  apply entry_loop_ends; [done|lia|unfold len; lia].
Qed.

(** What was parsed from bytes can be walked. *)
Lemma parsed_entry_ends {St} (f : bytes -> bytes -> St -> St * outcome unit) c b st :
  parse_block c = Ok b -> (forall k v st, ends (f k v st).2) -> ends (Block.for_each_entry b f st).2.
Proof. intros Hb%parse_block_block_ok. by apply for_each_entry_ends. Qed.

Lemma parsed_index_ends {St} (f : bytes -> BlockHandle -> St -> St * outcome unit) c b st :
  parse_block c = Ok b -> (forall k v st, ends (f k v st).2) -> ends (for_each_index_entry b f st).2.
Proof. intros Hb%parse_block_block_ok. by apply for_each_index_entry_fuel. Qed.

Lemma sst_find_meta_handle_ends c mi name : parse_block c = Ok mi -> ends (SstReader.find_meta_handle mi name).
Proof.
  intros Hp. apply ends_run_visit. eapply parsed_entry_ends; [exact Hp|]. intros k v st. by case_match.
Qed.

Lemma decode_block_in_memory_ends file ft h : ends (decode_block_in_memory file ft h).
Proof. unfold decode_block_in_memory, block_read_len. walk. Qed.
Hint Resolve decode_block_in_memory_ends : ends.

Lemma load_blocks_ends file ft hs b : ends (load_blocks file ft hs b).
Proof.
  revert b. induction hs as [|h hs IH]; intros b; cbn [load_blocks]; [done|].
  apply ends_bind; [auto with ends|]. intros raw _. apply ends_bind; [auto with ends|]. intros pb Hpb.
  apply ends_bind; [|auto]. apply ends_run_visit. by eapply parsed_entry_ends.
Qed.

(** A reader all of whose reads return. *)
Definition reads_end {R} `{FileReader R} (r : R) : Prop := forall off n, ends (read_at r off n).

Context {R : Type} `{FileReader R}.
Implicit Types (r : R).

Lemma load_arena_source_ends r : reads_end r -> ends (load_arena_source r).
Proof.
  intros Hr. unfold load_arena_source. cbv zeta.
  apply ends_bind; [by apply ends_read_or|]. intros file _.
  apply ends_bind; [auto with ends|]. intros s _. apply ends_bind; [auto with ends|]. intros tail _.
  apply ends_bind; [auto with ends|]. intros ft _. apply ends_bind; [auto with ends|]. intros mraw _.
  apply ends_bind; [auto with ends|]. intros mi Hmi. apply ends_bind.
  { rewrite find_meta_handles_agree. case_match; [done|]. apply ends_bind; [by eapply sst_find_meta_handle_ends|auto with ends]. }
  intros ih _. apply ends_bind; [auto with ends|]. intros iraw _. apply ends_bind; [auto with ends|]. intros ix Hix.
  apply ends_bind; [apply ends_run_visit; by eapply parsed_index_ends|]. intros hs _.
  apply ends_bind; [apply load_blocks_ends|done].
Qed.

(** A loaded source starts at its first entry. *)
Lemma load_arena_source_pos r a : load_arena_source r = Ok a -> a.(Source.pos) = 0.
Proof. unfold load_arena_source. intros Hl. inv_ok Hl. by injection Hl as <-. Qed.

Lemma read_block_contents_ends r h ty base : reads_end r -> ends (read_block_contents r h ty base).
Proof.
  intros Hr. unfold read_block_contents, block_read_len. apply ends_bind; [auto with ends|]. intros n _.
  apply ends_bind; [by apply ends_read_or|auto with ends].
Qed.

Lemma read_footer_ends r : reads_end r -> ends (read_footer r).
Proof.
  intros Hr. unfold read_footer. cbv zeta. case_match; [done|]. apply ends_bind; [auto with ends|]. intros o _.
  apply ends_bind; [by apply ends_read_or|auto with ends].
Qed.

(** Opening ends, and keeps the reader and an index block that was parsed. *)
Lemma open_ends r :
  reads_end r -> ends (SstReader.open r) /\
  forall sst, SstReader.open r = Ok sst -> sst.(sr_reader) = r /\ exists raw, parse_block raw = Ok sst.(sr_index).
Proof.
  intros Hr. split.
  - unfold SstReader.open. apply ends_bind; [by apply read_footer_ends|]. intros ft _.
    apply ends_bind; [by apply read_block_contents_ends|]. intros mraw _. apply ends_bind; [auto with ends|]. intros mi Hmi.
    apply ends_bind.
    { case_match; [done|]. apply ends_bind; [by eapply sst_find_meta_handle_ends|auto with ends]. }
    intros ih _. apply ends_bind; [by apply read_block_contents_ends|]. intros iraw _.
    apply ends_bind; [auto with ends|done].
  - intros sst Ho. unfold SstReader.open in Ho. inv_ok Ho. injection Ho as <-. split; [done|by exists x3].
Qed.

Lemma visit_blocks_ends {St} (sst : SstReader R) (f : bytes -> bytes -> St -> St * outcome unit) hs st :
  reads_end sst.(sr_reader) -> (forall k v st, ends (f k v st).2) -> ends (visit_blocks sst f hs st).2.
Proof.
  intros Hr Hf. revert st. induction hs as [|h hs IH]; intros st; cbn [visit_blocks]; [done|].
  pose proof (read_block_contents_ends sst.(sr_reader) h sst.(sr_footer).(checksum_type) sst.(sr_footer).(base_context_checksum) Hr) as Hread.
  destruct (read_block_contents _ h _ _) as [raw| | |]; try done. rewrite bind_Ok.
  destruct (parse_block raw) as [pb| | |] eqn:Hp; try done; [|by apply parse_block_ends in Hp].
  pose proof (parsed_entry_ends f raw pb st Hp Hf) as Hw.
  destruct (Block.for_each_entry pb f st) as [st' [| | |]]; [apply IH|done..].
Qed.

Lemma sst_walk_ends {St} r sst (f : bytes -> bytes -> St -> St * outcome unit) st :
  reads_end r -> SstReader.open r = Ok sst -> (forall k v st, ends (f k v st).2) ->
  ends (SstReader.for_each_entry sst f st).2.
Proof.
  intros Hr Ho Hf. destruct (proj2 (open_ends r Hr) sst Ho) as (Hrd & raw & Hp). unfold SstReader.for_each_entry.
  pose proof (ends_run_visit _ (parsed_index_ends push_handle raw sst.(sr_index) [] Hp ltac:(done))) as Hi.
  destruct (run_visit _) as [hs| | |]; try done. apply visit_blocks_ends; [by rewrite Hrd|done].
Qed.
End Files.
#[export] Hint Resolve compute_checksum_plain_ends : ends.

(** ** What a callback keeps, the walks keep *)

Section WalkInvariant.
Context `{ChecksumLib} `{CompressLib} `{Profile} {R : Type} `{FileReader R}.
Context {St : Type} (P : St -> Prop) (f : bytes -> bytes -> St -> St * outcome unit).
Context (Hf : forall k v st, P st -> P (f k v st).1).

Lemma entry_loop_keeps fuel data k pos st : P st -> P (entry_loop f fuel data k pos st).1.
Proof using Hf.
  revert k pos st. induction fuel as [|fuel IH]; intros k pos st Hst; cbn [entry_loop]; (case_match; [|done]); [done|].
  destruct (read_entry data k pos) as [[[k' v] p']| | |]; try done. pose proof (Hf k' v st Hst) as Hs.
  destruct (f k' v st) as [st' [| | |]]; try done. by apply IH.
Qed.

Lemma for_each_entry_keeps b st : P st -> P (Block.for_each_entry b f st).1.
Proof using Hf. intros Hst. unfold Block.for_each_entry. destruct (entries_data b); try done. by apply entry_loop_keeps. Qed.

Lemma sst_walk_keeps (sst : SstReader R) st : P st -> P (SstReader.for_each_entry sst f st).1.
Proof using Hf.
  intros Hst. unfold SstReader.for_each_entry. destruct (run_visit _) as [hs| | |]; try done. revert st Hst.
  induction hs as [|h hs IH]; intros st Hst; cbn [visit_blocks]; [done|].
  destruct (_ ≫= _) as [pb| | |]; try done. pose proof (for_each_entry_keeps pb st Hst) as Hs.
  destruct (Block.for_each_entry pb f st) as [st' [| | |]]; try done. by apply IH.
Qed.
End WalkInvariant.

(** ** Merging arbitrary sources *)

Section Merging.
Context `{Profile}.
#[local] Abbreviation LT := (LoserTreeMerger ArenaSource).
#[local] Abbreviation C := InternalKeyComparator.
Implicit Types (self : LT).

Lemma compare_ends a b : ends (compare_with_prefix C a b).
Proof. unfold compare_with_prefix. cbn. unfold internal_compare, compare_internal_keys, Cmp.split. walk. Qed.

Lemma arena_peek_ends (a : ArenaSource) : ends (arena_peek a).
Proof. unfold arena_peek, key, val. walk. Qed.
Hint Resolve compare_ends arena_peek_ends : ends.

Lemma less_ends self a b : ends (less C self a b).
Proof. unfold less, peek_at. cbn [peek ArenaSource_impl]. walk. Qed.
Hint Resolve less_ends : ends.

(** The shape the construction and the rounds keep. *)
Record lt_shape self (d : nat) : Prop := {
  shape_k : self.(k_padded) = 2 ^ Z.of_nat d;
  shape_sources : len self.(sources) <= 2 ^ Z.of_nat d
}.

(** [self'] has the sources and the size of [self]. *)
Definition same_size self self' : Prop :=
  self'.(k_padded) = self.(k_padded) /\ self'.(sources) = self.(sources).

Lemma same_size_trans s1 s2 s3 : same_size s1 s2 -> same_size s2 s3 -> same_size s1 s3.
Proof. intros [? ?] [? ?]. split; congruence. Qed.

Lemma build_subtree_ends fuel self node :
  1 <= node -> self.(k_padded) <= node * 2 ^ Z.of_nat fuel ->
  ends (build_subtree C fuel self node) /\
  forall self' w, build_subtree C fuel self node = Ok (self', w) -> same_size self self'.
Proof.
  revert self node. induction fuel as [|fuel IH]; intros self node Hn Hk; cbn [build_subtree].
  { replace (self.(k_padded) <=? node) with true by (change (2 ^ Z.of_nat 0) with 1 in Hk; lia). split; [done|]. by intros ? ? [= <- <-]. }
  destruct (Z.leb_spec self.(k_padded) node); [split; [done|]; by intros ? ? [= <- <-]|].
  rewrite Nat2Z.inj_succ, Z.pow_succ_r in Hk by lia.
  destruct (IH self (2 * node)) as [Hel Hsl]; [lia|nia|].
  destruct (build_subtree C fuel self (2 * node)) as [[s1 l]| | |] eqn:E1; try done. rewrite bind_Ok.
  destruct (Hsl s1 l eq_refl) as [Hk1 Hs1].
  destruct (IH s1 (2 * node + 1)) as [Her Hsr]; [lia|rewrite Hk1; nia|].
  destruct (build_subtree C fuel s1 (2 * node + 1)) as [[s2 r]| | |] eqn:E2; try done. rewrite bind_Ok.
  pose proof (same_size_trans _ _ _ (conj Hk1 Hs1) (Hsr s2 r eq_refl)) as Hs2. split.
  - walk.
  - intros self' w Hb. inv_ok Hb. destruct x; inv_ok Hb; by injection Hb as <- <-.
Qed.

Lemma lt_new_ends (ss : list ArenaSource) :
  ends (lt_new C ss) /\ forall self, lt_new C ss = Ok self -> self.(sources) = ss /\ exists d, lt_shape self d.
Proof.
  destruct (next_power_of_two_spec (Z.max (len ss) 1)) as (d & Hk & Hle); [lia|].
  unfold lt_new, build. cbv zeta. rewrite Hk. set (self := {| sources := ss |}). rewrite (height_pow self d) by done.
  destruct (build_subtree_ends d self 1) as [He Hs]; [lia|cbn; lia|].
  destruct (build_subtree C d self 1) as [[s w]| | |] eqn:E; try done. rewrite bind_Ok. split; [done|].
  destruct (Hs s w eq_refl) as [Hk' Hs']. intros self' [= <-]. split; [done|]. exists d. split; cbn.
  - by rewrite Hk'.
  - rewrite Hs'. cbn. lia.
Qed.

Lemma replay_loop_ends fuel self node c :
  node < 2 ^ Z.of_nat fuel ->
  ends (replay_loop C fuel self node c) /\
  forall self', replay_loop C fuel self node c = Ok self' -> same_size self self'.
Proof.
  revert self node c. induction fuel as [|fuel IH]; intros self node c Hn; cbn [replay_loop].
  { replace (1 <=? node) with false by (change (2 ^ Z.of_nat 0) with 1 in Hn; lia). split; [done|]. by intros ? [= <-]. }
  destruct (Z.leb_spec 1 node); [|split; [done|]; by intros ? [= <-]].
  rewrite Nat2Z.inj_succ, Z.pow_succ_r in Hn by lia.
  assert (node / 2 < 2 ^ Z.of_nat fuel) as Hhalf by (apply Z.div_lt_upper_bound; lia).
  destruct (index_at self.(tree) node) as [loser| | |] eqn:Ei; try done; [rewrite bind_Ok|by apply ends_index_at in Ei].
  destruct (less C self c loser) as [l| | |] eqn:El; try done; [rewrite bind_Ok|by apply less_ends in El].
  assert (ends (if negb l then tree ← set_at self.(tree) node c; Ok (set_tree self tree, loser) else Ok (self, c)) /\
    forall s1 c1, (if negb l then tree ← set_at self.(tree) node c; Ok (set_tree self tree, loser) else Ok (self, c)) = Ok (s1, c1) ->
      same_size self s1) as [He Hs].
  { split; [walk|]. intros s1 c1. destruct (negb l); [|by intros [= <- <-]].
    intros Hd. inv_ok Hd. by injection Hd as <- <-. }
  destruct (if negb l then _ else _) as [[s1 c1]| | |]; try done. rewrite bind_Ok. specialize (Hs s1 c1 eq_refl).
  destruct (node =? 1); [split; [done|]; by intros ? [= <-]|].
  destruct (IH s1 (node / 2) c1 Hhalf) as [He1 Hs1]. split; [done|]. intros self' Hr.
  eapply same_size_trans; [exact Hs|by apply Hs1].
Qed.

Lemma replay_from_leaf_ends self d w :
  lt_shape self d -> w < 2 ^ Z.of_nat d ->
  ends (replay_from_leaf C self w) /\
  forall self', replay_from_leaf C self w = Ok self' -> same_size self self'.
Proof.
  intros [Hk Hs] Hw. unfold replay_from_leaf. rewrite (height_pow self d) by done. rewrite Hk.
  apply replay_loop_ends. apply Z.div_lt_upper_bound; lia.
Qed.

(** What a source can still deliver, at most. *)
Definition remaining (a : ArenaSource) : nat := Z.to_nat (len a.(spans) - a.(Source.pos)).
Definition total_remaining (ss : list ArenaSource) : nat := sum_list (remaining <$> ss).

Lemma peek_remaining a e : arena_peek a = Ok (Some e) -> remaining a = S (remaining (arena_advance a)).
Proof.
  unfold arena_peek, remaining. case_match; [done|]. destruct (get_at a.(spans) a.(Source.pos)) eqn:Hg; [|done].
  apply get_at_Some in Hg as [Hp _]. intros _. cbn. lia.
Qed.

Lemma total_remaining_advance ss i a e :
  ss !! i = Some a -> arena_peek a = Ok (Some e) ->
  total_remaining ss = S (total_remaining (<[i := arena_advance a]> ss)).
Proof.
  intros Hi Hp. apply peek_remaining in Hp. apply list_elem_of_split_length in Hi as (l1 & l2 & -> & ->).
  unfold total_remaining. rewrite insert_app_r_alt, Nat.sub_diag by lia.
  cbn. rewrite !fmap_app, !sum_list_with_app. cbn. lia.
Qed.

(** One iteration of the loop ends; it keeps the shape and consumes an entry. *)
Lemma lt_step_ends self d :
  lt_shape self d ->
  ends (lt_step C self) /\
  forall e self', lt_step C self = Ok (Some (e, self')) ->
    lt_shape self' d /\ total_remaining self.(sources) = S (total_remaining self'.(sources)).
Proof.
  intros [Hk Hs]. unfold lt_step. destruct (Z.leb_spec (len self.(sources)) self.(winner)) as [|Hw]; [done|].
  destruct (index_at self.(sources) self.(winner)) as [src| | |] eqn:Hi; try done; [rewrite bind_Ok|by apply ends_index_at in Hi].
  unfold index_at in Hi. destruct (get_at self.(sources) self.(winner)) as [src'|] eqn:Hg; [injection Hi as ->|done].
  apply get_at_Some in Hg as [Hr Hl]. cbn [peek ArenaSource_impl].
  destruct (arena_peek src) as [[[k v]|]| | |] eqn:Hp; try done; [rewrite bind_Ok|by apply arena_peek_ends in Hp].
  pose proof (total_remaining_advance _ _ _ _ Hl Hp) as Hrem.
  cbv zeta. rewrite set_at_ok, bind_Ok by lia. cbn [advance ArenaSource_impl]. set (s1 := set_sources self _).
  assert (lt_shape s1 d) as Hsh1 by (split; cbn; [done|by rewrite len_insert]).
  destruct (replay_from_leaf_ends s1 d self.(winner) Hsh1 ltac:(lia)) as [He Hss].
  destruct (replay_from_leaf C s1 self.(winner)) as [s2| | |]; try done. rewrite bind_Ok. split; [done|].
  intros e self' [= <- <-]. destruct (Hss s2 eq_refl) as [Hk2 Hs2]. rewrite Hs2. split; [|exact Hrem].
  split; [by rewrite Hk2|]. rewrite Hs2. cbn. by rewrite len_insert.
Qed.

(** Where nothing is left the loop stops without a round. *)
Lemma lt_run_0 {St} self d (f : bytes -> bytes -> St -> St) st :
  lt_shape self d -> total_remaining self.(sources) = 0%nat ->
  lt_run C 0 self f st = lt_run C 1 self f st /\ ends (lt_run C 0 self f st).
Proof.
  intros Hsh Hz. destruct (lt_step_ends self d Hsh) as [He Hn]. rewrite lt_run_S. revert He Hn. unfold lt_step. cbn [lt_run].
  case_match; [done|]. destruct (index_at _ _) as [src| | |] eqn:Hi; try done. rewrite !bind_Ok.
  cbn [peek ArenaSource_impl]. destruct (arena_peek src) as [[[k v]|]| | |] eqn:Hp; try done. intros _ _. exfalso.
  unfold index_at in Hi. destruct (get_at self.(sources) self.(winner)) as [src'|] eqn:Hg; [injection Hi as ->|done].
  apply get_at_Some in Hg as [_ Hl]. by rewrite (total_remaining_advance _ _ _ _ Hl Hp) in Hz.
Qed.

(** One round of fuel per remaining entry is enough, whatever the sources. *)
Lemma lt_run_ends {St} fuel self d (f : bytes -> bytes -> St -> St) st :
  lt_shape self d -> (total_remaining self.(sources) <= fuel)%nat -> ends (lt_run C fuel self f st).
Proof.
  revert self st. induction fuel as [|fuel IH]; intros self st Hsh Hf.
  { by apply (lt_run_0 self d); [|lia]. }
  rewrite lt_run_S. destruct (lt_step_ends self d Hsh) as [He Hn]. apply ends_bind; [exact He|].
  intros [[e self']|] Ho; [|done]. destruct (Hn e self' Ho) as [Hsh' Hrem]. apply IH; [done|lia].
Qed.

(** More fuel changes nothing. *)
Lemma lt_run_more {St} n self d (f : bytes -> bytes -> St -> St) st :
  lt_shape self d -> (total_remaining self.(sources) <= n)%nat -> lt_run C n self f st = lt_run C (S n) self f st.
Proof.
  revert self st. induction n as [|n IH]; intros self st Hsh Hn; [by apply (lt_run_0 self d); [|lia]|].
  rewrite (lt_run_S n), (lt_run_S (S n)). destruct (lt_step_ends self d Hsh) as [_ Hst].
  destruct (lt_step C self) as [[[e self']|]| | |]; try done. destruct (Hst e self' eq_refl) as [Hsh' Hrem].
  rewrite !bind_Ok. apply IH; [done|lia].
Qed.

Lemma lt_run_fuel {St} n m self d (f : bytes -> bytes -> St -> St) st :
  lt_shape self d -> (total_remaining self.(sources) <= n <= m)%nat ->
  lt_run C n self f st = lt_run C m self f st.
Proof.
  intros Hsh [Hn Hm]. induction Hm as [|m Hm IH]; [done|]. rewrite IH. apply (lt_run_more m self d); [done|lia].
Qed.
End Merging.

(** ** Building a table *)

Section Building.
Context `{ChecksumLib} `{Profile}.

Lemma data_add_ends b k v : ends (BlockBuilder.add b k v).
Proof. unfold BlockBuilder.add. walk. Qed.
Lemma index_add_ends b k h : ends (IndexBlockBuilder.add b k h).
Proof. unfold IndexBlockBuilder.add. walk. Qed.
Hint Resolve data_add_ends index_add_ends : ends.

Lemma data_add_all_ends b es : ends (BlockBuilder.add_all b es).
Proof. revert b. induction es as [|e es IH]; intros b; cbn [BlockBuilder.add_all]; walk. Qed.
Hint Resolve data_add_all_ends : ends.

Lemma flush_ends opts file ib bb k : ends (flush_data_block opts file ib bb k).
Proof. unfold flush_data_block. walk. Qed.
Hint Resolve flush_ends : ends.

Lemma build_entries_ends opts st es : ends (build_entries opts st es).
Proof.
  revert st. induction es as [|e es IH]; intros st; cbn [build_entries]; [done|]. apply ends_bind; [|intros; apply IH].
  unfold build_entry, BlockBuilder.new. walk.
Qed.

Lemma finish_sst_ends opts es rk rv file ib : ends (finish_sst opts es rk rv file ib).
Proof.
  unfold finish_sst. cbv zeta.
  destruct (append_block opts file (IndexBlockBuilder.finish ib)) as [file1 ih].
  apply ends_bind; [unfold build_properties_block, BlockBuilder.new; walk|]. intros props _.
  destruct (append_block opts file1 props) as [file2 ph].
  apply ends_bind; [unfold build_metaindex_block, BlockBuilder.new; walk|]. intros mi _.
  destruct (append_block opts file2 mi) as [file3 mh].
  apply ends_bind; [unfold encode_footer_v6_plus, try_into_u32; walk|done].
Qed.

Lemma build_sst_ends es opts : ends (build_sst es opts).
Proof.
  unfold build_sst, rewrite_entries. apply ends_bind.
  { case_match; [|done]. apply ends_mapM. intros [k v]. unfold zero_out_seqno. walk. }
  intros es' _. unfold IndexBlockBuilder.new, BlockBuilder.new. apply ends_bind; [walk|]. intros ib _.
  apply ends_bind; [walk|]. intros bb _. apply ends_bind; [apply build_entries_ends|]. intros st _.
  apply ends_bind; [walk|]. intros [file ib'] _. apply finish_sst_ends.
Qed.

Lemma total_remaining_fuel sources :
  Forall (fun s => 0 <= s.(Source.pos)) sources -> (total_remaining sources <= merge_fuel sources)%nat.
Proof.
  unfold total_remaining, merge_fuel. induction 1 as [|s ss Hs _ IH]; [done|].
  rewrite !fmap_cons. cbn [sum_list_with concat]. rewrite length_app.
  assert (remaining s <= length s.(spans))%nat by (unfold remaining, len; lia). unfold id in *. lia.
Qed.

Lemma compact_with_strategy_ends `{CompactionStrategy T} sources opts (t : T) :
  Forall (fun s => 0 <= s.(Source.pos)) sources -> ends (compact_with_strategy sources opts t).
Proof.
  intros Hs. apply total_remaining_fuel in Hs. unfold compact_with_strategy. cbn [Kmerge.new run LoserTree_impl].
  destruct (lt_new_ends sources) as [He Hsh].
  destruct (lt_new InternalKeyComparator sources) as [m| | |]; try done. destruct (Hsh m eq_refl) as (Hm & d & Hd).
  rewrite !bind_Ok. cbn [lt_merger].
  pose proof (lt_run_ends (merge_fuel sources) m d visit (visit_new t) Hd ltac:(by rewrite Hm)) as Hr.
  destruct (lt_run _ _ m _ _) as [[m' st]| | |]; try done. rewrite !bind_Ok.
  apply ends_bind; [apply build_sst_ends|done].
Qed.

Lemma compact_ends sources opts :
  Forall (fun s => 0 <= s.(Source.pos)) sources -> ends (compact sources opts).
Proof. intros Hs. apply ends_fmap. by apply compact_with_strategy_ends. Qed.

(** *** Sharded *)

Lemma partition_loop_ends pred fuel size base :
  (forall i, ends (pred i)) -> (Z.to_nat size <= S fuel)%nat -> ends (partition_loop pred fuel size base).
Proof.
  intros Hp. revert size base. induction fuel as [|fuel IH]; intros size base Hf; cbn [partition_loop];
    destruct (Z.ltb_spec 1 size); try done; [lia|].
  apply ends_bind; [apply Hp|]. intros b _. apply IH. Z.to_euclidean_division_equations; lia.
Qed.

Lemma partition_point_ends pred n : (forall i, ends (pred i)) -> ends (partition_point pred n).
Proof.
  intros Hp. unfold partition_point. case_match; [done|].
  apply ends_bind; [apply partition_loop_ends; [exact Hp|lia]|]. intros b _. by apply ends_bind.
Qed.

Lemma lower_bound_ends a k : ends (lower_bound a k).
Proof. apply partition_point_ends. intros i. unfold key, compare_user_keys, Cmp.user_key. walk. Qed.

Lemma boundaries_ends sources n : ends (pick_shard_boundaries sources n).
Proof.
  unfold pick_shard_boundaries. apply ends_bind; [auto with ends|]. intros s _. cbv zeta. case_match; [done|].
  generalize (Z.to_nat (n - 1)) as count. generalize 1 as i. intros i count. revert i.
  induction count as [|count IH]; intros i; cbn [boundaries_from]; [done|]. apply ends_bind; [auto with ends|]. intros ni _. cbv zeta.
  apply ends_bind; [unfold key_at, key; walk|]. intros k _. apply ends_bind; [apply IH|done].
Qed.

Lemma slice_source_ends a start bs : ends (slice_source a start bs).
Proof.
  revert start. induction bs as [|b bs IH]; intros start; cbn [slice_source]; unfold shard; [walk|].
  apply ends_bind; [apply lower_bound_ends|]. intros e _. walk.
Qed.
Lemma slice_sources_ends ss bs acc : ends (slice_sources ss bs acc).
Proof.
  revert acc. induction ss as [|s ss IH]; intros acc; cbn [slice_sources]; [done|].
  apply ends_bind; [apply slice_source_ends|]. intros sl _. apply IH.
Qed.
End Building.

(** ** Sharded jobs *)

Section Sharded.
Context `{ChecksumLib} `{Profile}.

Lemma shard_pos a s e a' : shard a s e = Ok a' -> a'.(Source.pos) = s.
Proof. unfold shard. intros Hs. inv_ok Hs. by injection Hs as <-. Qed.

(** Slices start where the last one ended. *)
Lemma slice_source_pos a start bs ss :
  0 <= start -> slice_source a start bs = Ok ss -> Forall (fun s => 0 <= s.(Source.pos)) ss.
Proof.
  revert start ss. induction bs as [|b bs IH]; intros start ss Hs; cbn [slice_source]; intros Hd; inv_ok Hd;
    injection Hd as <-.
  - constructor; [|done]. by rewrite (shard_pos _ _ _ _ Hx).
  - constructor; [by rewrite (shard_pos _ _ _ _ Hx0)|]. apply (IH x); [|done].
    unfold shard in Hx0. inv_ok Hx0. destruct ((start <=? x) && (x <=? len a.(spans))) eqn:E; [lia|done].
Qed.

Lemma push_slices_pos acc sl :
  Forall (Forall (fun s => 0 <= s.(Source.pos))) acc -> Forall (fun s => 0 <= s.(Source.pos)) sl ->
  Forall (Forall (fun s => 0 <= s.(Source.pos))) (push_slices acc sl).
Proof.
  intros Ha. revert sl. induction Ha as [|x acc Hx _ IH]; intros sl Hs; [done|].
  destruct Hs as [|s sl Hs Hsl]; [done|]. cbn. constructor; [|by apply IH]. apply Forall_app. split; [done|]. by constructor.
Qed.

Lemma slice_sources_pos ss bs acc out :
  Forall (Forall (fun s => 0 <= s.(Source.pos))) acc -> slice_sources ss bs acc = Ok out ->
  Forall (Forall (fun s => 0 <= s.(Source.pos))) out.
Proof.
  revert acc. induction ss as [|s ss IH]; intros acc Ha; cbn [slice_sources]; intros Hd; [by injection Hd as <-|].
  inv_ok Hd. eapply IH; [|exact Hd]. apply push_slices_pos; [done|]. by eapply slice_source_pos; [|exact Hx].
Qed.

Lemma compact_sharded_ends sources n opts :
  Forall (fun s => 0 <= s.(Source.pos)) sources -> ends (compact_sharded sources n opts).
Proof.
  intros Hs. unfold compact_sharded. case_match; [apply ends_bind; [by apply compact_ends|done]|].
  apply ends_bind; [apply boundaries_ends|]. intros bs _. apply ends_bind; [apply slice_sources_ends|].
  intros inputs Hin. apply slice_sources_pos in Hin; [|by apply Forall_replicate].
  induction Hin as [|ss inputs Hss _ IH]; cbn [fmap list_fmap await_tasks]; [done|].
  apply ends_bind; [|intros out _; by apply ends_bind]. pose proof (compact_ends ss opts Hss) as He.
  unfold join_task. by destruct (compact ss opts).
Qed.
End Sharded.

(** ** Property *)

Section TerminationProperty.
Context `{ChecksumLib} `{CompressLib} `{Profile} {R : Type} `{FileReader R}.

(** C23: The library always comes to an end, on damaged and hostile inputs too:
    over any reader whose reads return, loading a file, opening it and walking
    its entries with any callback that returns, and compacting any sources -
    unsorted, malformed - with any strategy or any number of shards, yield a
    result, an error or a panic.  The fuel of the model is never what ends
    them. *)
Theorem library_terminates (reader : R) (sources : list ArenaSource) opts num_shards :
  (forall off n, read_at reader off n <> OutOfFuel) -> Forall (fun s => 0 <= s.(Source.pos)) sources ->
  load_arena_source reader <> OutOfFuel /\
  SstReader.open reader <> OutOfFuel /\
  (forall St (f : bytes -> bytes -> St -> St * outcome unit) st sst,
     SstReader.open reader = Ok sst -> (forall k v st, (f k v st).2 <> OutOfFuel) ->
     (SstReader.for_each_entry sst f st).2 <> OutOfFuel) /\
  (forall T (Strat : CompactionStrategy T) (strategy : T), compact_with_strategy sources opts strategy <> OutOfFuel) /\
  compact_sharded sources num_shards opts <> OutOfFuel.
Proof.
  intros Hr Hs. split_and!.
  - by apply load_arena_source_ends.
  - by apply open_ends.
  - intros St f st sst Ho Hf. by apply (sst_walk_ends reader).
  - intros T Strat strategy. by apply compact_with_strategy_ends.
  - by apply compact_sharded_ends.
Qed.
End TerminationProperty.

(** ** Garbage in, an end *)

#[local] Instance dev_profile : Profile := true.

Definition garbage : Arc BlockingFileReader :=
  arc {| br_file := replicate 60 Byte.xff; br_file_size := 60 |}.
Definition garbage_source : ArenaSource :=
  {| arena := str "xyz"; spans := [{| key_off := 2; key_len := 9; val_off := 0; val_len := 1 |}]; Source.pos := 0; end_ := 7 |}.

Lemma library_terminates_witness :
  load_arena_source garbage <> OutOfFuel /\
  compact_sharded [garbage_source; garbage_source] 3 {| sst_builder := SstBuilderOptions.default |} <> OutOfFuel.
Proof.
  destruct (library_terminates garbage [garbage_source; garbage_source]
    {| sst_builder := SstBuilderOptions.default |} 3) as (Hl & _ & _ & _ & Hc).
  - intros off n. cbn. unfold blocking_read_at, read_exact_at, ok_or. by repeat case_match.
  - repeat constructor; vm_compute; discriminate.
  - split; [exact Hl|exact Hc].
Defined.
