(* ===== verification/Tasks.v ===== *)
(** The concurrency of [compact_sharded] of [compaction/mod.rs]: the blocking
    tasks it spawns and the thread that awaits them, as a pool whose members
    take steps in any order.  Whatever the order, the call returns what running
    the shards one after the other returns. *)

From S2P Require Import Prelude InternalKey Checksum Footer Block BlockBuilders Properties SstBuilder FileReader SstReader Loader.
From S2P Require Import Cmp Source Kmerge LoserTree Strategy Compaction Sharding EndToEnd Failures Termination.

(** ** Tasks

    A task runs [compact] on its shard.  Its steps: building the merger, one
    iteration of the merge loop with its callback, building the table. *)
Inductive Job : Type :=
  | Start (shard_sources : list ArenaSource)
  | Merge (merger : LoserTreeMerger ArenaSource) (st : Visit BottommostStrategy)
  | Build (output : list entry).

Inductive Task : Type :=
  | Running (job : Job)
  | Finished (result : outcome bytes).

(** The thread inside [compact_sharded]: the [spawn_blocking] loop with the
    shards still to spawn, the [await] loop with the index of the next handle
    and the outputs so far, and the end. *)
Inductive Main : Type :=
  | Spawning (shard_inputs : list (list ArenaSource))
  | Awaiting (next : nat) (outputs : list bytes)
  | Returned (result : outcome (list bytes)).

Record Pool : Type := { tasks : list Task; main : Main }.

Inductive Actor : Type := MainThread | Worker (i : nat).

Section Tasks.
Context `{ChecksumLib} `{Profile} (opts : CompactionOptions).
#[local] Abbreviation C := InternalKeyComparator.
Implicit Types (p : Pool) (j : Job) (t : Task).

(** [?] and unwinding end a task. *)
Definition proceed {A} (m : outcome A) (k : A -> Task) : Task :=
  match m with
  | Ok a => k a
  | Err e => Finished (Err e)
  | Panic => Finished Panic
  | OutOfFuel => Finished OutOfFuel
  end.

Definition job_step (j : Job) : Task :=
  match j with
  | Start shard_sources =>
      proceed (lt_new C shard_sources) (fun m => Running (Merge m (visit_new BottommostStrategy_)))
  | Merge m st =>
      proceed (lt_step C m) (fun o =>
        match o with
        | Some (e, m) => Running (Merge m (visit e.1 e.2 st))
        | None => Running (Build st.(output))
        end)
  | Build output => Finished (build_sst output opts.(sst_builder))
  end.

(** One turn of the [await] loop on a finished task. *)
Definition await_step (next : nat) (outputs : list bytes) (result : outcome bytes) : Main :=
  match join_task result with
  | Ok out => Awaiting (S next) (outputs ++ [out])
  | Err e => Returned (Err e)
  | Panic => Returned Panic
  | OutOfFuel => Returned OutOfFuel
  end.

(** A step of one member of the pool; [None] where it cannot move: it has
    finished, or it waits for a task that is still running.  After an early
    return the tasks go on, detached. *)
Definition act (who : Actor) (p : Pool) : option Pool :=
  match who with
  | Worker i =>
      match p.(tasks) !! i with
      | Some (Running j) => Some {| tasks := <[i := job_step j]> p.(tasks); main := p.(main) |}
      | _ => None
      end
  | MainThread =>
      match p.(main) with
      | Spawning (shard_sources :: rest) =>
          Some {| tasks := p.(tasks) ++ [Running (Start shard_sources)]; main := Spawning rest |}
      | Spawning [] => Some {| tasks := p.(tasks); main := Awaiting 0 [] |}
      | Awaiting next outputs =>
          match p.(tasks) !! next with
          | None => Some {| tasks := p.(tasks); main := Returned (Ok outputs) |}
          | Some (Running _) => None
          | Some (Finished r) => Some {| tasks := p.(tasks); main := await_step next outputs r |}
          end
      | Returned _ => None
      end
  end.

Inductive pool_step : Pool -> Pool -> Prop :=
  | pool_act who p p' : act who p = Some p' -> pool_step p p'.

(** A schedule says who moves next; who cannot move is passed over. *)
Fixpoint run_schedule (schedule : list Actor) (p : Pool) : Pool :=
  match schedule with
  | [] => p
  | who :: schedule => run_schedule schedule (default p (act who p))
  end.

Lemma run_schedule_steps schedule p : rtc pool_step p (run_schedule schedule p).
Proof using Type.
  revert p. induction schedule as [|who schedule IH]; intros p; cbn [run_schedule]; [done|].
  destruct (act who p) as [p'|] eqn:Ha; cbn [default]; [|apply IH].
  eapply rtc_l; [by eapply pool_act|apply IH].
Qed.
End Tasks.

(** The pool of [compact_sharded] once the sources are sliced. *)
Definition sharded_start `{Profile} (sources : list ArenaSource) (num_shards : Z) : outcome Pool :=
  boundaries ← pick_shard_boundaries sources num_shards;
  shard_inputs ← slice_sources sources boundaries (replicate (S (length boundaries)) []);
  Ok {| tasks := []; main := Spawning shard_inputs |}.

(** ** What a job comes to *)

Section Jobs.
Context `{ChecksumLib} `{Profile} (opts : CompactionOptions).
#[local] Abbreviation C := InternalKeyComparator.

Definition job_ok (j : Job) : Prop :=
  match j with
  | Start shard_sources => Forall (fun s => 0 <= s.(Source.pos)) shard_sources
  | Merge m _ => exists d, lt_shape m d
  | Build _ => True
  end.

Definition job_result (j : Job) : outcome bytes :=
  match j with
  | Start shard_sources => compact shard_sources opts
  | Merge m st =>
      '(_, st) ← lt_run C (total_remaining m.(sources)) m visit st;
      build_sst st.(output) opts.(sst_builder)
  | Build output => build_sst output opts.(sst_builder)
  end.

Definition task_ok (t : Task) : Prop := match t with Running j => job_ok j | Finished _ => True end.
Definition task_result (t : Task) : outcome bytes :=
  match t with Running j => job_result j | Finished r => r end.

(** The steps a task has left, at most. *)
Definition job_work (j : Job) : nat :=
  match j with
  | Start shard_sources => S (S (S (total_remaining shard_sources)))
  | Merge m _ => S (S (total_remaining m.(sources)))
  | Build _ => 1
  end.
Definition task_work (t : Task) : nat := match t with Running j => job_work j | Finished _ => 0 end.

Lemma compact_start shard_sources :
  Forall (fun s => 0 <= s.(Source.pos)) shard_sources ->
  compact shard_sources opts =
    (m ← lt_new C shard_sources; job_result (Merge m (visit_new BottommostStrategy_))).
Proof using Type.
  intros Hs. apply total_remaining_fuel in Hs. unfold compact, compact_with_strategy, job_result.
  cbn [Kmerge.new run LoserTree_impl]. destruct (lt_new_ends shard_sources) as [_ Hn].
  destruct (lt_new C shard_sources) as [m| | |]; try done. rewrite !bind_Ok. cbn [lt_merger].
  destruct (Hn m eq_refl) as (Hm & d & Hd).
  rewrite (lt_run_fuel (total_remaining m.(sources)) (merge_fuel shard_sources) m d) by (done || rewrite Hm; lia).
  destruct (lt_run C _ m visit _) as [[m' st]| | |]; try done. rewrite !bind_Ok.
  by destruct (build_sst _ _).
Qed.

(** A step of a job keeps what it comes to, and leaves it less to do. *)
Lemma job_step_ok j :
  job_ok j ->
  task_ok (job_step opts j) /\ task_result (job_step opts j) = job_result j /\
  (task_work (job_step opts j) < job_work j)%nat.
Proof using Type.
  destruct j as [ss|m st|out]; cbn [job_ok job_step job_result job_work].
  - intros Hs. rewrite (compact_start ss Hs). destruct (lt_new_ends ss) as [_ Hn].
    destruct (lt_new C ss) as [m| | |]; cbn [proceed task_ok task_result task_work job_ok job_work];
      rewrite ?bind_Ok; try (split_and!; [done|done|lia]).
    destruct (Hn m eq_refl) as (Hm & d & Hd). rewrite Hm. split_and!; [by exists d|done|lia].
  - intros (d & Hd). destruct (lt_step_ends m d Hd) as [_ Hn].
    rewrite (lt_run_more (total_remaining m.(sources)) m d) by (done || lia). rewrite lt_run_S.
    destruct (lt_step C m) as [[[e m']|]| | |]; cbn [proceed task_ok task_result task_work job_ok job_work];
      rewrite ?bind_Ok; try (split_and!; [done|done|lia]).
    destruct (Hn e m' eq_refl) as [Hd' Hrem]. split_and!; [by exists d| |lia].
    cbn [job_result]. by rewrite (lt_run_fuel (total_remaining m'.(sources)) (total_remaining m.(sources)) m' d) by (done || lia).
  - intros _. cbn. split_and!; [done|done|lia].
Qed.
End Jobs.

(** ** The pool *)

Section Pool.
Context `{ChecksumLib} `{Profile} (opts : CompactionOptions).
Implicit Types (p : Pool) (ins : list (list ArenaSource)) (results : list (outcome bytes)).

(** What running the shards one after the other gives. *)
Definition sequential ins : list (outcome bytes) := (fun shard_sources => compact shard_sources opts) <$> ins.

(** What the main thread will return, given the results of the tasks. *)
Definition main_result results (m : Main) : outcome (list bytes) :=
  match m with
  | Spawning _ => await_tasks results
  | Awaiting next outputs => rest ← await_tasks (drop next results); Ok (outputs ++ rest)
  | Returned r => r
  end.

(** Task [i] is the job of shard [i]. *)
Definition task_for (shard_sources : list ArenaSource) (t : Task) : Prop :=
  task_ok t /\ task_result opts t = compact shard_sources opts.

Definition still_to_spawn (m : Main) : list (list ArenaSource) :=
  match m with Spawning rest => rest | _ => [] end.

Record pool_ok ins p : Prop := {
  po_inputs : Forall (Forall (fun s => 0 <= s.(Source.pos))) ins;
  po_tasks : exists spawned, ins = spawned ++ still_to_spawn p.(main) /\ Forall2 task_for spawned p.(tasks);
  po_main : main_result (sequential ins) p.(main) = await_tasks (sequential ins)
}.

Definition main_work (n : nat) (m : Main) : nat :=
  match m with
  | Spawning rest => 2 + n + sum_list ((fun ss => 2 + job_work (Start ss)) <$> rest)
  | Awaiting next _ => 1 + (n - next)
  | Returned _ => 0
  end%nat.

(** The steps a pool has left, at most. *)
Definition pool_work p : nat := (sum_list (task_work <$> p.(tasks)) + main_work (length p.(tasks)) p.(main))%nat.

Lemma await_next next outputs results r :
  results !! next = Some r ->
  main_result results (await_step next outputs r) = main_result results (Awaiting next outputs).
Proof using Type.
  intros Hr. unfold await_step. cbn [main_result]. rewrite (drop_S results r next) by done. cbn [await_tasks].
  destruct (join_task r); cbn [main_result]; try done. rewrite bind_Ok.
  destruct (await_tasks (drop (S next) results)); try done. rewrite !bind_Ok. by rewrite <- (assoc_L (++)).
Qed.

Lemma await_step_spawned next outputs r : still_to_spawn (await_step next outputs r) = [].
Proof using Type. unfold await_step. by destruct (join_task r). Qed.

Lemma await_step_work n next outputs r :
  (next < n)%nat -> (main_work n (await_step next outputs r) < main_work n (Awaiting next outputs))%nat.
Proof using Type. intros Hn. unfold await_step. destruct (join_task r); cbn; lia. Qed.

Lemma sum_work_insert ts i t t' :
  ts !! i = Some t ->
  (sum_list (task_work <$> <[i := t']> ts) + task_work t = sum_list (task_work <$> ts) + task_work t')%nat.
Proof using Type.
  intros Hi. apply list_elem_of_split_length in Hi as (l1 & l2 & -> & ->).
  rewrite insert_app_r_alt, Nat.sub_diag by lia. cbn. rewrite !fmap_app, !sum_list_with_app. cbn. lia.
Qed.

(** Worker steps. *)
Lemma worker_ok ins p i j :
  p.(tasks) !! i = Some (Running j) -> pool_ok ins p ->
  let p' := {| tasks := <[i := job_step opts j]> p.(tasks); main := p.(main) |} in
  pool_ok ins p' /\ (pool_work p' < pool_work p)%nat.
Proof using Type.
  intros Hi [Hin (sp & Hsp & Ht) Hm] p'. destruct (Forall2_lookup_r _ _ _ _ _ Ht Hi) as (ss & Hss & Hok & Hres).
  destruct (job_step_ok opts j Hok) as (Hok' & Hres' & Hw). split.
  - split; [done| |done]. exists sp. split; [done|]. cbn [p' tasks].
    rewrite <- (list_insert_id sp i ss Hss). apply Forall2_insert; [done|]. split; [done|].
    by rewrite Hres'.
  - unfold pool_work. cbn [p' tasks main]. rewrite length_insert.
    pose proof (sum_work_insert _ i _ (job_step opts j) Hi) as Hs. cbn [task_work] in Hs. lia.
Qed.

(** Steps of the main thread. *)
Lemma main_ok ins p p' :
  act opts MainThread p = Some p' -> pool_ok ins p -> pool_ok ins p' /\ (pool_work p' < pool_work p)%nat.
Proof using Type.
  intros Ha [Hin (sp & Hsp & Ht) Hm]. destruct p as [ts [rest|next outs|r]]; cbn in *; [|..]; [|..|done].
  - destruct rest as [|ss rest]; injection Ha as <-.
    + split; [|unfold pool_work; cbn; lia]. split; [done|by exists sp|]. cbn [main_result main].
      rewrite drop_0. by destruct (await_tasks _).
    + split.
      * split; [done| |done]. exists (sp ++ [ss]). cbn [main still_to_spawn tasks]. split; [by rewrite <- (assoc_L (++))|].
        apply Forall2_app; [done|]. constructor; [|done]. split; [|done]. rewrite Forall_forall in Hin. apply Hin. set_solver.
      * unfold pool_work. cbn [tasks main main_work]. rewrite fmap_app, sum_list_with_app, length_app. cbn. unfold id. lia.
  - rewrite app_nil_r in Hsp. subst sp. apply Forall2_length in Ht as Hl.
    destruct (ts !! next) as [[j|r]|] eqn:Hn; [done|injection Ha as <-..].
    + apply lookup_lt_Some in Hn as Hlt. destruct (Forall2_lookup_r _ _ _ _ _ Ht Hn) as (ss & Hss & _ & Hres). split.
      * split; [done|exists ins; cbn; by rewrite await_step_spawned, app_nil_r|]. cbn [main]. rewrite await_next; [done|].
        unfold sequential. rewrite list_lookup_fmap, Hss. exact (f_equal Some (eq_sym Hres)).
      * unfold pool_work. cbn [tasks main]. pose proof (await_step_work (length ts) next outs r Hlt). cbn [main_work] in *. lia.
    + apply lookup_ge_None in Hn. split; [|unfold pool_work; cbn; lia].
      split; [done|exists ins; by rewrite app_nil_r|]. cbn [main main_result]. rewrite <- Hm.
      unfold sequential. rewrite drop_ge by (rewrite length_fmap; lia). cbn. by rewrite app_nil_r.
Qed.

Lemma pool_step_ok ins p p' :
  pool_step opts p p' -> pool_ok ins p -> pool_ok ins p' /\ (pool_work p' < pool_work p)%nat.
Proof using Type.
  intros [who q q' Ha] Hok. destruct who as [|i]; [by eapply main_ok|]. cbn [act] in Ha.
  destruct (q.(tasks) !! i) as [[j|r]|] eqn:Hi; try done. injection Ha as <-. by apply worker_ok.
Qed.

Lemma pool_steps_ok ins p p' : rtc (pool_step opts) p p' -> pool_ok ins p -> pool_ok ins p'.
Proof using Type. induction 1 as [|p q r Hs _ IH]; [done|]. intros Hok. apply IH. by eapply pool_step_ok. Qed.

(** A pool that has not returned can move. *)
Lemma pool_progress ins p :
  pool_ok ins p -> (exists r, p.(main) = Returned r) \/ exists p', pool_step opts p p'.
Proof using Type.
  intros _. destruct (p.(main)) as [[|ss rest]|next outs|r] eqn:Hm; [right..|left; by exists r].
  - eexists. eapply (pool_act _ MainThread). cbn. by rewrite Hm.
  - eexists. eapply (pool_act _ MainThread). cbn. by rewrite Hm.
  - destruct (p.(tasks) !! next) as [[j|r]|] eqn:Hn; eexists.
    + eapply (pool_act _ (Worker next)). cbn. by rewrite Hn.
    + eapply (pool_act _ MainThread). cbn. by rewrite Hm, Hn.
    + eapply (pool_act _ MainThread). cbn. by rewrite Hm, Hn.
Qed.

(** No schedule is longer than the work of its pool. *)
Lemma pool_steps_bound ins n p p' : nsteps (pool_step opts) n p p' -> pool_ok ins p -> (n + pool_work p' <= pool_work p)%nat.
Proof using Type.
  induction 1 as [|n p q r Hs _ IH]; intros Hok; [lia|]. destruct (pool_step_ok _ _ _ Hs Hok) as [Hok' Hw].
  specialize (IH Hok'). lia.
Qed.

Lemma pool_init_ok ins :
  Forall (Forall (fun s => 0 <= s.(Source.pos))) ins -> pool_ok ins {| tasks := []; main := Spawning ins |}.
Proof using Type. intros Hin. split; [done| |done]. exists []. by split. Qed.
End Pool.

(** ** Properties *)

Section TaskProperties.
Context `{ChecksumLib} `{Profile}.
Implicit Types (p : Pool) (sources : list ArenaSource).

Lemma sharded_start_ok sources num opts p :
  1 < num -> sources <> [] -> sharded_start sources num = Ok p ->
  exists ins, p = {| tasks := []; main := Spawning ins |} /\ pool_ok opts ins p /\
    compact_sharded sources num opts = await_tasks (sequential opts ins).
Proof.
  intros Hn Hne Hst. unfold sharded_start in Hst. inv_ok Hst. injection Hst as <-. exists x0. split_and!; [done| |].
  - apply pool_init_ok. eapply slice_sources_pos; [|exact Hx0]. by apply Forall_replicate.
  - unfold compact_sharded. replace (num <=? 1) with false by lia. rewrite bool_decide_false by done. cbn [orb].
    by rewrite Hx, bind_Ok, Hx0, bind_Ok.
Qed.

Lemma returned_result ins opts p r :
  pool_ok opts ins p -> p.(main) = Returned r -> await_tasks (sequential opts ins) = r.
Proof. intros [_ _ Hm] Hr. rewrite Hr in Hm. done. Qed.

(** C4: Sharding is deterministic: in whatever order the thread pool runs the
    blocking tasks of [compact_sharded] and the thread that awaits them, and
    however far it lets the others run, the call returns what compacting the
    shards one after the other returns, and a task that has finished holds the
    result of its own shard. *)
Theorem every_schedule_agrees sources num opts p p' :
  1 < num -> sources <> [] -> sharded_start sources num = Ok p -> rtc (pool_step opts) p p' ->
  (forall r, p'.(main) = Returned r -> compact_sharded sources num opts = r) /\
  exists ins, p.(main) = Spawning ins /\
    forall i r, p'.(tasks) !! i = Some (Finished r) ->
      exists shard_sources, ins !! i = Some shard_sources /\ compact shard_sources opts = r.
Proof.
  intros Hn Hne Hst Hr. destruct (sharded_start_ok sources num opts p Hn Hne Hst) as (ins & Hp & Hok & Heq).
  pose proof (pool_steps_ok opts ins p p' Hr Hok) as Hok'. split.
  - intros r Hret. rewrite Heq. by eapply returned_result.
  - exists ins. split; [by rewrite Hp|]. intros i r Hi. destruct Hok' as [_ (sp & Hsp & Ht) _].
    destruct (Forall2_lookup_r _ _ _ _ _ Ht Hi) as (ss & Hss & _ & Hres). exists ss. split; [|done].
    rewrite Hsp. by apply lookup_app_l_Some.
Qed.

(** C22: Sharding comes to an end: there is a bound on the steps of every
    schedule, and a schedule that cannot be continued has returned - the
    awaiting thread never waits for a task that cannot move - with the result
    of [compact_sharded]. *)
Theorem every_schedule_ends sources num opts p :
  1 < num -> sources <> [] -> sharded_start sources num = Ok p ->
  exists bound, forall n p', nsteps (pool_step opts) n p p' ->
    (n <= bound)%nat /\
    ((forall p'', ~ pool_step opts p' p'') -> p'.(main) = Returned (compact_sharded sources num opts)).
Proof.
  intros Hn Hne Hst. destruct (sharded_start_ok sources num opts p Hn Hne Hst) as (ins & Hp & Hok & Heq).
  exists (pool_work p). intros n p' Hs. pose proof (pool_steps_bound opts ins n p p' Hs Hok) as Hb. split; [lia|].
  intros Hstuck. apply (rtc_nsteps_2 n) in Hs. pose proof (pool_steps_ok opts ins p p' Hs Hok) as Hok'.
  destruct (pool_progress opts ins p' Hok') as [[r Hr]|[p'' Hp'']]; [|by destruct (Hstuck p'')].
  by rewrite Hr, Heq, (returned_result ins opts p' r Hok' Hr).
Qed.

Lemma await_first_failure {A} (before : list A) (rest : list (outcome A)) :
  await_tasks ((Ok <$> before) ++ rest) = (outs ← await_tasks rest; Ok (before ++ outs)).
Proof.
  induction before as [|a before IH]; cbn [app fmap list_fmap await_tasks]; [by destruct (await_tasks rest)|].
  cbn [join_task]. rewrite bind_Ok, IH. by destruct (await_tasks rest).
Qed.

(** C25: Shards report, they do not crash: whichever shard fails first in time,
    a sharded run returns the error of the first shard in key order that
    fails - a panic there comes back as an error - and the tables of all, in
    order, when none fails. *)
Theorem first_failing_shard_reported sources num opts p p' r before shard_sources after outs :
  1 < num -> sources <> [] -> sharded_start sources num = Ok p ->
  p.(main) = Spawning (before ++ shard_sources :: after) ->
  Forall2 (fun i out => compact i opts = Ok out) before outs ->
  rtc (pool_step opts) p p' -> p'.(main) = Returned r ->
  match compact shard_sources opts with
  | Err e => r = Err e
  | Panic => r = Err (Msg "subcompaction shard task panicked: {}" [])
  | Ok out => after = [] -> r = Ok (outs ++ [out])
  | OutOfFuel => True
  end.
Proof.
  intros Hn Hne Hst Hins Hb Hr Hret. destruct (sharded_start_ok sources num opts p Hn Hne Hst) as (ins & Hp & Hok & _).
  rewrite Hp in Hins. injection Hins as ->. pose proof (returned_result _ opts p' r (pool_steps_ok opts _ p p' Hr Hok) Hret) as <-.
  unfold sequential. rewrite fmap_app, fmap_cons.
  assert ((fun i => compact i opts) <$> before = Ok <$> outs) as ->.
  { clear - Hb. induction Hb as [|i out before outs Ho _ IH]; [done|]. by rewrite !fmap_cons, Ho, IH. }
  rewrite await_first_failure. cbn [await_tasks].
  destruct (compact shard_sources opts) as [out| | |]; try done. intros ->. cbn [join_task fmap list_fmap await_tasks]. by rewrite !bind_Ok.
Qed.
End TaskProperties.

(** ** Two shards in turn, and a shard that panics *)

#[local] Instance dev_profile : Profile := true.

Definition toy_pool : Pool := match sharded_start toy_sources 2 with Ok p => p | _ => {| tasks := []; main := Awaiting 0 [] |} end.

(** Both tasks spawned, then the second shard runs to its end before the first
    is started, then the main thread awaits. *)
Definition toy_schedule : list Actor :=
  replicate 3 MainThread ++ replicate 8 (Worker 1) ++ [MainThread] ++ replicate 8 (Worker 0) ++ replicate 4 MainThread.

Lemma every_schedule_agrees_witness :
  (run_schedule toy_options toy_schedule toy_pool).(main) = Returned (compact_sharded toy_sources 2 toy_options).
Proof.
  destruct (every_schedule_agrees toy_sources 2 toy_options toy_pool (run_schedule toy_options toy_schedule toy_pool))
    as [Hr _]; [lia|discriminate|vm_compute; reflexivity|apply run_schedule_steps|].
  destruct (run_schedule toy_options toy_schedule toy_pool).(main) as [|n o|r] eqn:E; [vm_compute in E; discriminate..|].
  f_equal. symmetry. by apply Hr.
Defined.

Lemma every_schedule_ends_witness :
  exists bound, forall n p', nsteps (pool_step toy_options) n toy_pool p' -> (n <= bound)%nat.
Proof.
  destruct (every_schedule_ends toy_sources 2 toy_options toy_pool) as [b Hb]; [lia|discriminate|vm_compute; reflexivity|].
  exists b. intros n p' Hs. by apply (Hb n p').
Defined.

(** A short key in front of the larger source; the boundary is [c]. *)
Definition dirty_sources : list ArenaSource :=
  [arena_of [(str "oops", []); (make_ikey (str "b") 513, []); (make_ikey (str "c") 513, []);
             (make_ikey (str "d") 513, [])];
   arena_of [(make_ikey (str "a") 513, [])]].
Definition dirty_shards : list (list ArenaSource) :=
  match slice_sources dirty_sources [make_ikey (str "c") 513] [[]; []] with Ok ins => ins | _ => [] end.

Definition dirty_pool : Pool := {| tasks := []; main := Spawning dirty_shards |}.

(** The second shard finishes first. *)
Definition dirty_schedule : list Actor :=
  replicate 3 MainThread ++ replicate 6 (Worker 1) ++ replicate 6 (Worker 0) ++ [MainThread].

Lemma first_failing_shard_reported_witness :
  (run_schedule failing_options dirty_schedule dirty_pool).(main) =
    Returned (Err (Msg "subcompaction shard task panicked: {}" [])).
Proof.
  destruct (run_schedule failing_options dirty_schedule dirty_pool).(main) as [|n o|r] eqn:E; [vm_compute in E; discriminate..|].
  f_equal. pose proof (first_failing_shard_reported dirty_sources 2 failing_options dirty_pool
    (run_schedule failing_options dirty_schedule dirty_pool) r [] (hd [] dirty_shards) (tail dirty_shards) []) as Hf.
  assert (compact (hd [] dirty_shards) failing_options = Panic) as Hp by (vm_compute; reflexivity).
  rewrite Hp in Hf. apply Hf; [lia|discriminate|vm_compute; reflexivity|vm_compute; reflexivity|constructor|apply run_schedule_steps|done].
Defined.
