(* ===== verification/Decoded.v ===== *)
(** What the decoders return on bytes nobody vouches for: values within their
    Rust types, and - when a whole file loads - only what verified blocks
    contain. *)

From S2P Require Import Prelude Varint InternalKey Checksum Footer Block BlockBuilders Properties SstBuilder FileReader SstReader Source Loader.

(** ** Machine types of decoded values *)

Definition i64 (z : Z) : Prop := - 2 ^ 63 <= z < 2 ^ 63.

Record footer_typed (ft : Footer) : Prop := {
  ft_magic : ft.(table_magic_number) = BLOCK_BASED_TABLE_MAGIC;
  ft_version : 2 <= ft.(format_version) <= 7;
  ft_metaindex : handle_ok ft.(metaindex_handle);
  ft_index h : ft.(index_handle) = Some h -> handle_ok h;
  ft_trailer : ft.(block_trailer_size) = BLOCK_TRAILER_SIZE;
  ft_base : u32 ft.(base_context_checksum)
}.

(** The four offsets and lengths of a span are [u32]. *)
Record span_typed (s : EntrySpan) : Prop := {
  st_key_off : u32 s.(key_off);
  st_key_len : u32 s.(key_len);
  st_val_off : u32 s.(val_off);
  st_val_len : u32 s.(val_len)
}.

Section Types.
Context `{Profile}.

Lemma sub_u64_typed a b c : u64 a -> 0 <= b -> sub_u64 a b = Ok c -> u64 c.
Proof.
  unfold u64, sub_u64, arith. intros Ha Hb. destruct (Z.leb_spec 0 (a - b)); [intros [= <-]; lia|].
  destruct overflow_checks; [done|]. intros [= <-]. apply as_u64_range.
Qed.

Lemma as_i64_range z : i64 (as_i64 z).
Proof. unfold i64, as_i64. pose proof (Z.mod_pos_bound z (2 ^ 64) ltac:(lia)). case_match; lia. Qed.

Lemma le_bytes_u32 (bs c : bytes) a : index_range bs a (a + 4) = Ok c -> u32 (from_le_bytes c).
Proof.
  unfold index_range. destruct (get_range bs a (a + 4)) as [m|] eqn:E; [|done]. intros [= <-].
  apply get_range_len in E. pose proof (from_le_bytes_range m) as Hr. unfold u32.
  replace (8 * len m) with 32 in Hr by lia. done.
Qed.

Lemma get_varsigned64_typed buf pos v q :
  0 <= pos -> get_varsigned64 buf pos = (Some v, q) -> i64 v /\ pos < q <= len buf.
Proof.
  intros Hp. unfold get_varsigned64. destruct (get_varint64 buf pos) as [[u|] q'] eqn:E; [|done].
  apply get_varint64_bounds in E as [Hu Hq]; [|done]. intros [= <- <-]. split; [|done].
  rewrite Z.shiftr_div_pow2 by lia. change (2 ^ 1) with 2.
  assert (Z.land u 1 = u mod 2) as -> by exact (Z.land_ones u 1 ltac:(lia)).
  assert (as_i64 (u / 2) = u / 2 /\ 0 <= u / 2 < 2 ^ 63) as [-> Hh].
  { assert (0 <= u / 2 < 2 ^ 63) as Hh by (Z.to_euclidean_division_equations; lia).
    split; [|done]. unfold as_i64. rewrite Z.mod_small by lia. by replace (u / 2 <? 2 ^ 63) with true by lia. }
  assert (u mod 2 = 0 \/ u mod 2 = 1) as [-> | ->] by (Z.to_euclidean_division_equations; lia).
  - change (- as_i64 0) with 0. rewrite Z.lxor_0_r. unfold i64. lia.
  - change (- as_i64 1) with (-1). rewrite Z.lxor_m1_r. unfold i64, Z.lnot. lia.
Qed.

Lemma decode_block_handle_typed buf pos h q :
  0 <= pos -> decode_block_handle buf pos = (Some h, q) -> handle_ok h /\ pos < q <= len buf.
Proof.
  intros Hp. unfold decode_block_handle, decode_varint64. destruct (get_varint64 buf pos) as [[o|] p1] eqn:E1; [|done].
  destruct (get_varint64 buf p1) as [[s|] p2] eqn:E2; [|done]. intros [= <- <-].
  apply get_varint64_bounds in E1; [|done]. apply get_varint64_bounds in E2; [|lia]. unfold handle_ok. cbn. lia.
Qed.

Lemma decode_meta_value_handle_typed v h : decode_meta_value_handle v = Some h -> handle_ok h.
Proof.
  unfold decode_meta_value_handle. destruct (get_varint64 v 0) as [[o|] p1] eqn:E1; [|done].
  destruct (get_varint64 v p1) as [[s|] p2] eqn:E2; [|done]. intros [= <-].
  apply get_varint64_bounds in E1; [|done]. apply get_varint64_bounds in E2; [|lia]. unfold handle_ok. cbn. lia.
Qed.

Lemma read_restarts_typed c off n rs : read_restarts c off n = Ok rs -> Forall u32 rs.
Proof.
  revert off rs. induction n as [|n IH]; intros off rs Hd; cbn [read_restarts] in Hd; [by injection Hd as <-|].
  inv_ok Hd. injection Hd as <-. apply fmap_Ok_inv in Hx as (m & Hm & ->).
  constructor; [by eapply le_bytes_u32|by eapply IH].
Qed.

Lemma parse_block_typed c b :
  parse_block c = Ok b -> b.(Block.contents) = c /\ Forall u32 b.(restarts) /\ 4 + 4 * len b.(restarts) <= len c.
Proof.
  intros Hp. pose proof (parse_block_block_ok c b Hp) as Hb. unfold parse_block in Hp. cbv zeta in Hp. inv_ok Hp.
  injection Hp as <-. unfold block_ok in Hb. cbn in *. split_and!; [done| |lia]. by eapply read_restarts_typed.
Qed.

Lemma split_typed k ik : split k = Ok ik -> 0 <= ik.(sequence) < 2 ^ 56 /\ len ik.(user_key) = len k - 8.
Proof.
  intros Hs. destruct (decide (ikey_valid k)) as [Hv|Hv]; [|rewrite split_short in Hs; [done|exact Hv]].
  rewrite split_ok in Hs by done. injection Hs as <-. cbn. split; [|by apply ikey_user_len].
  pose proof (ikey_packed_range k Hv). unfold ikey_seq. Z.to_euclidean_division_equations. lia.
Qed.

(** *** Footers *)

Context `{ChecksumLib}.

Lemma decode_footer_v6_typed tail magic_pos fv ty fo ft :
  u64 fo -> 2 <= fv <= 7 ->
  decode_footer_v6 tail BLOCK_BASED_TABLE_MAGIC magic_pos fv ty fo = Ok ft -> footer_typed ft.
Proof.
  intros Hfo Hfv Hd. unfold decode_footer_v6 in Hd. cbv zeta in Hd. inv_ok Hd. injection Hd as <-.
  apply fmap_Ok_inv in Hx1 as (mb & Hmb & ->), Hx2 as (ms & Hms & ->).
  apply le_bytes_u32 in Hmb, Hms. apply sub_u64_typed in Hx5; [|done|lia].
  apply sub_u64_typed in Hx6; [|done|unfold u32 in Hms; lia].
  split; cbn; try done. split; cbn; [exact Hx6|unfold u32 in Hms; lia].
Qed.

Lemma decode_footer_old_typed tail magic_pos fv ty ft :
  2 <= fv <= 7 -> decode_footer_old tail BLOCK_BASED_TABLE_MAGIC magic_pos fv ty = Ok ft -> footer_typed ft.
Proof.
  intros Hfv Hd. unfold decode_footer_old in Hd. cbv zeta in Hd. inv_ok Hd.
  destruct (decode_block_handle x 0) as [o1 p1] eqn:E1. inv_ok Hd. apply ok_or_inv in Hx0 as ->.
  destruct (decode_block_handle x p1) as [o2 p2] eqn:E2. inv_ok Hd. apply ok_or_inv in Hx0 as ->. injection Hd as <-.
  apply decode_block_handle_typed in E1 as [H1 Hp1]; [|done]. apply decode_block_handle_typed in E2 as [H2 _]; [|lia].
  split; cbn; try done. by intros h [= <-].
Qed.

Lemma decode_footer_typed tail file_size ft :
  u64 file_size -> decode_footer tail file_size = Ok ft -> footer_typed ft.
Proof.
  intros Hfs Hd. unfold decode_footer in Hd. cbv zeta in Hd. inv_ok Hd.
  apply negb_false_iff, Z.eqb_eq in E0 as ->. apply negb_false_iff, andb_true_iff in E1 as [E1 E2].
  apply sub_u64_typed in Hx1; [|done|done]. destruct (6 <=? x0).
  - eapply decode_footer_v6_typed; [exact Hx1| |exact Hd]. lia.
  - eapply decode_footer_old_typed; [|exact Hd]. lia.
Qed.
End Types.

(** ** Walks

    A walk that came to its end with one callback visits, with any other, one
    and the same list of entries. *)
Section Walks.
Context `{Profile}.

Lemma entry_loop_listed {St0} (f0 : bytes -> bytes -> St0 -> St0 * outcome unit) fuel data k pos st0 st1 u :
  entry_loop f0 fuel data k pos st0 = (st1, Ok u) ->
  exists es, forall St (f : bytes -> bytes -> St -> St * outcome unit) st,
    entry_loop f fuel data k pos st = visit_entries f es st.
Proof.
  revert k pos st0. induction fuel as [|fuel IH]; intros k pos st0; cbn [entry_loop];
    (case_match; [|by exists []]); [done|].
  destruct (read_entry data k pos) as [[[k' v] p']| | |]; try done.
  destruct (f0 k' v st0) as [s [| | |]]; try done. intros Hr. destruct (IH k' p' s Hr) as [es Hes].
  exists ((k', v) :: es). intros St f st. cbn [visit_entries fst snd]. destruct (f k' v st) as [st' [| | |]]; [apply Hes|done..].
Qed.

Lemma for_each_entry_listed {St0} (f0 : bytes -> bytes -> St0 -> St0 * outcome unit) b st0 st1 u :
  Block.for_each_entry b f0 st0 = (st1, Ok u) ->
  exists es, forall St (f : bytes -> bytes -> St -> St * outcome unit) st,
    Block.for_each_entry b f st = visit_entries f es st.
Proof.
  unfold Block.for_each_entry. destruct (entries_data b); try done. apply entry_loop_listed.
Qed.

Definition last_typed (last : option BlockHandle) : Prop := forall h, last = Some h -> handle_ok h.

Lemma read_index_handle_typed data full last pos h pos' :
  0 <= pos -> last_typed last -> read_index_handle data full last pos = Ok (h, pos') -> handle_ok h.
Proof.
  intros Hp Hl. unfold read_index_handle. destruct full.
  - destruct (get_varint64 data pos) as [o1 p1] eqn:E1. intros Hd. inv_ok Hd. apply ok_or_inv in Hx as ->.
    destruct (get_varint64 data p1) as [o2 p2] eqn:E2. inv_ok Hd. apply ok_or_inv in Hx as ->.
    injection Hd as <- _. apply get_varint64_bounds in E1; [|done]. apply get_varint64_bounds in E2; [|lia].
    unfold handle_ok. cbn. lia.
  - intros Hd. inv_ok Hd. destruct (get_varsigned64 data pos) as [o1 p1]. inv_ok Hd. injection Hd as <- _.
    apply fmap_Ok_inv in Hx1 as (z & _ & ->). apply add_u64_inv in Hx3 as [Ho _].
    pose proof (as_u64_range z). split; cbn; lia.
Qed.

Lemma read_index_entry_typed data rs k last pos k' h pos' :
  0 <= pos -> last_typed last -> read_index_entry data rs k last pos = Ok (k', h, pos') -> handle_ok h /\ 0 <= pos'.
Proof.
  intros Hp Hl Hr. pose proof (read_index_entry_pos _ _ _ _ _ _ _ _ Hp Hr) as Hpos. split; [|lia].
  unfold read_index_entry in Hr. cbv zeta in Hr.
  destruct (get_varint32 data pos) as [o1 p1] eqn:E1. inv_ok Hr. apply ok_or_inv in Hx as ->.
  destruct (get_varint32 data p1) as [o2 p2] eqn:E2. inv_ok Hr. apply ok_or_inv in Hx as ->.
  apply get_varint32_bounds in E1; [|done]. apply get_varint32_bounds in E2; [|lia].
  destruct x1 as [k2 p4]. inv_ok Hr. destruct x1 as [h2 p5]. injection Hr as _ <- _.
  apply read_key_pos in Hx0. eapply read_index_handle_typed; [|exact Hl|exact Hx]. lia.
Qed.

Lemma index_loop_listed {St0} (f0 : bytes -> BlockHandle -> St0 -> St0 * outcome unit) fuel data rs k last pos st0 st1 u :
  0 <= pos -> last_typed last -> index_loop f0 fuel data rs k last pos st0 = (st1, Ok u) ->
  exists hs, Forall (fun e => handle_ok e.2) hs /\ forall St (f : bytes -> BlockHandle -> St -> St * outcome unit) st,
    index_loop f fuel data rs k last pos st = visit_entries f hs st.
Proof.
  revert k last pos st0. induction fuel as [|fuel IH]; intros k last pos st0 Hp Hl; cbn [index_loop];
    (case_match; [|by exists []]); [done|].
  destruct (read_index_entry data rs k last pos) as [[[k' h] p']| | |] eqn:Hr; try done.
  destruct (read_index_entry_typed _ _ _ _ _ _ _ _ Hp Hl Hr) as [Hh Hp'].
  destruct (f0 k' h st0) as [s [| | |]]; try done. intros Hrun.
  destruct (IH k' (Some h) p' s Hp' ltac:(by intros ? [= <-]) Hrun) as (hs & Hty & Hhs).
  exists ((k', h) :: hs). split; [by constructor|]. intros St f st. cbn [visit_entries fst snd].
  destruct (f k' h st) as [st' [| | |]]; [apply Hhs|done..].
Qed.

Lemma for_each_index_entry_listed {St0} (f0 : bytes -> BlockHandle -> St0 -> St0 * outcome unit) b st0 st1 u :
  for_each_index_entry b f0 st0 = (st1, Ok u) ->
  exists hs, Forall (fun e => handle_ok e.2) hs /\ forall St (f : bytes -> BlockHandle -> St -> St * outcome unit) st,
    for_each_index_entry b f st = visit_entries f hs st.
Proof.
  unfold for_each_index_entry. destruct (entries_data b); try done. by apply index_loop_listed.
Qed.

(** The handle a walk finds in the metaindex. *)
Lemma visit_keeps {K V St} (P : St -> Prop) (f : K -> V -> St -> St * outcome unit) es st :
  (forall k v st, P st -> P (f k v st).1) -> P st -> P (visit_entries f es st).1.
Proof.
  intros Hf. revert st. induction es as [|e es IH]; intros st Hst; cbn [visit_entries]; [done|].
  pose proof (Hf e.1 e.2 st Hst) as Hs. destruct (f e.1 e.2 st) as [st' [| | |]]; try done. by apply IH.
Qed.

Lemma find_meta_handle_typed mi name h : SstReader.find_meta_handle mi name = Ok (Some h) -> handle_ok h.
Proof.
  unfold SstReader.find_meta_handle. intros Hr%run_visit_Ok. destruct (for_each_entry_listed _ _ _ _ _ Hr) as [es Hes].
  rewrite Hes in Hr. set (f := fun k v st => _) in Hr.
  pose proof (visit_keeps (fun o => forall h, o = Some h -> handle_ok h) f es None) as Hk. rewrite Hr in Hk.
  apply Hk; [|done..]. intros k v st Hst h' Hh. unfold f in Hh. case_match; [|by apply Hst].
  cbn in Hh. by eapply decode_meta_value_handle_typed.
Qed.
End Walks.

(** ** Loading *)

Section Loading.
Context `{ChecksumLib} `{CompressLib} `{Profile}.

(** The file has, where [h] says, data followed by a type byte and the
    checksum of the two; decompressed as that byte says, the data is [c]. *)
Definition verified_block (ft : Footer) (file : bytes) (h : BlockHandle) (c : bytes) : Prop :=
  exists data comp_byte stored compression,
    get_range file h.(offset) (h.(offset) + h.(size) + BLOCK_TRAILER_SIZE) = Some (data ++ [comp_byte] ++ stored) /\
    len data = h.(size) /\ len stored = 4 /\
    (ft.(checksum_type) <> NoChecksum ->
     from_le_bytes stored = as_u32 (compute_checksum_with_last_byte ft.(checksum_type) data comp_byte +
                                    checksum_modifier_for_context ft.(base_context_checksum) h.(offset))) /\
    compression_from_byte (byte.unsigned comp_byte) = Ok compression /\
    match compression with
    | NoCompression => c = data
    | _ => decompress compression data = Ok (Owned c)
    end.

(** The entries of a data block, and of an index block. *)
Definition lists_entries (c : bytes) (es : list entry) : Prop :=
  exists pb, parse_block c = Ok pb /\
    forall St (f : bytes -> bytes -> St -> St * outcome unit) st, Block.for_each_entry pb f st = visit_entries f es st.
Definition lists_handles (c : bytes) (hs : list (bytes * BlockHandle)) : Prop :=
  exists pb, parse_block c = Ok pb /\
    forall St (f : bytes -> BlockHandle -> St -> St * outcome unit) st, for_each_index_entry pb f st = visit_entries f hs st.

Definition verified_data_block (ft : Footer) (file : bytes) (e : bytes * BlockHandle) (es : list entry) : Prop :=
  exists c, verified_block ft file e.2 c /\ lists_entries c es.

Lemma decode_block_size raw h ty base c : decode_block_contents raw h ty base = Ok c -> h.(size) <= len raw.
Proof.
  intros Hd. unfold decode_block_contents in Hd. cbv zeta in Hd. inv_ok Hd. unfold index_range in Hx0.
  destruct (get_range raw 0 h.(size)) as [m|] eqn:Eg; [|done]. apply get_range_Some in Eg as (p & s & -> & Hp & ->). len_lia.
Qed.

Lemma decode_in_memory_verified file ft h c :
  handle_ok h -> len file < 2 ^ 63 -> decode_block_in_memory file ft h = Ok c -> verified_block ft file h c.
Proof.
  intros [Ho Hs] Hl Hd. unfold decode_block_in_memory, block_read_len in Hd. cbv zeta in Hd. inv_ok Hd.
  apply ok_or_inv in Hx1. pose proof (decode_block_size _ _ _ _ _ Hd) as Hsz.
  assert (len x1 <= len file) as Hle by (apply get_range_Some in Hx1 as (p & s & -> & _ & _); len_lia).
  pose proof (add_u64_inv _ _ _ Hx) as [Hn _].
  unfold BLOCK_TRAILER_SIZE in *. rewrite add_u64_ok in Hx by lia. injection Hx as <-.
  apply (add_u64_range file) with (bs := x1) in Hx0; [|done..]. subst x0.
  apply decode_block_iff in Hd as (data & cb & stored & cty & -> & Hdl & Hst & Hck & Hc & Hdec); [|unfold BLOCK_TRAILER_SIZE; lia..].
  exists data, cb, stored, cty. rewrite <- Z.add_assoc. by split_and!.
Qed.

(** The loop over the data blocks. *)
Lemma load_blocks_verified file ft hs b b' :
  Forall (fun e => handle_ok e.2) hs -> len file < 2 ^ 63 -> load_blocks file ft hs.*2 b = Ok b' ->
  exists ess, Forall2 (verified_data_block ft file) hs ess /\ b' = push_all b (concat ess).
Proof.
  intros Hh Hl. revert b. induction Hh as [|[k h] hs Hh _ IH]; intros b; cbn [fmap list_fmap load_blocks snd] in *;
    intros Hd; [injection Hd as <-; by exists []|].
  inv_ok Hd. apply run_visit_Ok in Hx1. destruct (for_each_entry_listed _ _ _ _ _ Hx1) as [es Hes].
  rewrite Hes, push_entry_visit in Hx1. injection Hx1 as <-. destruct (IH _ Hd) as (ess & Hf & ->).
  exists (es :: ess). split.
  - constructor; [|done]. exists x. split; [by apply decode_in_memory_verified|]. by exists x0.
  - cbn [concat]. unfold push_all. by rewrite foldl_app.
Qed.
End Loading.

Section LoadedFile.
Context `{ChecksumLib} `{CompressLib} `{Profile} {R : Type} `{FileReaderLaws R}.
Implicit Types (r : R).

(** Everything that went into a loaded source, from the footer down. *)
Record load_trace (file : bytes) (ft : Footer) (hs : list (bytes * BlockHandle)) (ess : list (list entry)) : Prop := {
  lt_footer : exists tail, index_range file (len file - FOOTER_TAIL_LEN) (len file) = Ok tail /\
    footer_genuine tail (len file) ft;
  lt_index : exists metaindex index_handle index,
    verified_block ft file ft.(metaindex_handle) metaindex /\
    match ft.(Footer.index_handle) with
    | Some h => index_handle = h
    | None => exists mi, parse_block metaindex = Ok mi /\
        SstReader.find_meta_handle mi (str "rocksdb.index") = Ok (Some index_handle)
    end /\
    verified_block ft file index_handle index /\ lists_handles index hs;
  lt_blocks : Forall2 (verified_data_block ft file) hs ess
}.

Lemma load_traced r a :
  len (file_content r) < 2 ^ 63 -> load_arena_source r = Ok a ->
  exists ft hs ess, load_trace (file_content r) ft hs ess /\ footer_typed ft /\
    a = build (push_all builder_new (concat ess)).
Proof.
  intros Hl Hd. unfold load_arena_source in Hd. cbv zeta in Hd. rewrite file_size_content in Hd. inv_ok Hd.
  rewrite <- file_size_content, read_whole in Hx. injection Hx as Hx. subst x. rename x1 into tail, x2 into ft.
  rewrite (tail_start_inv _ _ _ Hx0 Hx1 Hl) in Hx1. pose proof (tail_len _ _ Hx1) as H53.
  assert (u64 (len (file_content r))) as H64 by (pose proof (len_nonneg (file_content r)); unfold u64; lia).
  pose proof (decode_footer_typed tail _ ft H64 Hx2) as Hty.
  apply decode_footer_genuine in Hx2; [|exact H53].
  assert (handle_ok x5) as Hih.
  { destruct (Footer.index_handle ft) as [h|] eqn:Ei; [injection Hx5 as <-; by apply Hty|].
    inv_ok Hx5. apply ok_or_inv in Hx5 as ->. match goal with Hm : _ = Ok (Some _) |- _ => rewrite find_meta_handles_agree in Hm; by apply find_meta_handle_typed in Hm end. }
  apply run_visit_Ok in Hx8 as Hw. destruct (for_each_index_entry_listed _ _ _ _ _ Hw) as (hs & Hhs & Hlist).
  rewrite Hlist, push_handle_visit in Hw. injection Hw as <-.
  destruct (load_blocks_verified _ _ _ _ _ Hhs Hl Hx9) as (ess & Hf & ->). injection Hd as <-.
  exists ft, hs, ess. split_and!; [|done|done]. split; [by exists tail| |done]. exists x3, x5, x6. split_and!.
  - apply decode_in_memory_verified; [apply Hty|done|done].
  - destruct (Footer.index_handle ft); [by injection Hx5 as <-|]. inv_ok Hx5. apply ok_or_inv in Hx5 as ->.
    exists x4. split; [done|]. match goal with Hm : _ = Ok (Some _) |- _ => by rewrite find_meta_handles_agree in Hm end.
  - by apply decode_in_memory_verified.
  - by exists x7.
Qed.
End LoadedFile.

(** ** Properties *)

Section DecodedProperties.
Context `{ChecksumLib} `{CompressLib} `{Profile} {R : Type} `{FileReaderLaws R}.

Lemma push_all_typed b es : Forall span_typed b.(b_spans) -> Forall span_typed (push_all b es).(b_spans).
Proof.
  revert b. induction es as [|e es IH]; intros b Hb; [done|]. apply IH. cbn [push b_spans].
  apply Forall_app. split; [done|]. constructor; [|done]. split; apply as_u32_range.
Qed.

(** C21: Whatever the bytes, what is decoded from them has its Rust type, so
    that the unbounded integers of the model are the machine integers of the
    code: varints, signed varints, handles, every field of a footer, restart
    offsets, sequence numbers, the handles an index walk delivers, and the
    spans of a loaded source; cursors move forward and stay in the buffer. *)
Theorem decoded_values_typed :
  (forall buf pos q, 0 <= pos ->
    (forall v, get_varint64 buf pos = (Some v, q) -> u64 v /\ pos < q <= len buf) /\
    (forall v, get_varint32 buf pos = (Some v, q) -> u32 v /\ pos < q <= len buf) /\
    (forall v, get_varsigned64 buf pos = (Some v, q) -> i64 v /\ pos < q <= len buf) /\
    (forall h, decode_block_handle buf pos = (Some h, q) -> handle_ok h /\ pos < q <= len buf)) /\
  (forall tail file_size ft, u64 file_size -> decode_footer tail file_size = Ok ft -> footer_typed ft) /\
  (forall c b, parse_block c = Ok b ->
    Forall u32 b.(restarts) /\ 4 + 4 * len b.(restarts) <= len c /\
    forall hs, run_visit (for_each_index_entry b push_handle []) = Ok hs -> Forall handle_ok hs) /\
  (forall k ik, split k = Ok ik -> 0 <= ik.(sequence) < 2 ^ 56 /\ len ik.(user_key) = len k - 8) /\
  (forall (r : R) a, len (file_content r) < 2 ^ 63 -> load_arena_source r = Ok a ->
    Forall span_typed a.(spans) /\ a.(Source.pos) = 0 /\ a.(end_) = len a.(spans)).
Proof.
  split_and!.
  - intros buf pos q Hp. split_and!; intros ?; [by apply get_varint64_bounds|by apply get_varint32_bounds|
      by apply get_varsigned64_typed|by apply decode_block_handle_typed].
  - apply decode_footer_typed.
  - intros c b Hb. destruct (parse_block_typed c b Hb) as (_ & Hr & Hl). split_and!; [done|done|].
    intros hs Hw%run_visit_Ok. destruct (for_each_index_entry_listed _ _ _ _ _ Hw) as (es & Hes & Hlist).
    rewrite Hlist, push_handle_visit in Hw. injection Hw as <-. by apply Forall_fmap.
  - apply split_typed.
  - intros r a Hl Ha. destruct (load_traced r a Hl Ha) as (ft & hs & ess & _ & _ & ->).
    split_and!; [by apply push_all_typed|done|done].
Qed.

(** C12: Loading trusts nothing it did not check: when a file loads, whatever it
    holds, the source consists of exactly the entries of data blocks that are
    in the file where the index says, each matching its checksum - unless the
    file disables them - at its place; the index and the metaindex that led to
    them match theirs, and the footer is genuine. *)
Theorem load_sound (r : R) a :
  len (file_content r) < 2 ^ 63 -> load_arena_source r = Ok a ->
  exists tail ft metaindex ih index hs ess,
    let file := file_content r in
    index_range file (len file - FOOTER_TAIL_LEN) (len file) = Ok tail /\
    footer_genuine tail (len file) ft /\
    verified_block ft file ft.(metaindex_handle) metaindex /\
    match ft.(Footer.index_handle) with
    | Some h => ih = h
    | None => exists mi, parse_block metaindex = Ok mi /\
        SstReader.find_meta_handle mi (str "rocksdb.index") = Ok (Some ih)
    end /\
    verified_block ft file ih index /\ lists_handles index hs /\
    Forall2 (verified_data_block ft file) hs ess /\
    a = build (push_all builder_new (concat ess)).
Proof.
  intros Hl Ha. destruct (load_traced r a Hl Ha) as (ft & hs & ess & [(tail & Ht & Hg) (mi & ih & ix & Hm & Hi & Hx & Hlh) Hb] & _ & ->).
  by exists tail, ft, mi, ih, ix, hs, ess.
Qed.
End DecodedProperties.

(** ** A loaded table *)

#[local] Instance dev_profile : Profile := true.

Lemma toy_loads : exists a, load_arena_source toy_file = Ok a.
Proof.
  assert (bool_decide (is_Some (match load_arena_source toy_file with Ok a => Some a | _ => None end)) = true) as Hb
    by (vm_compute; reflexivity).
  apply bool_decide_eq_true in Hb as [a Ha]. exists a. by destruct (load_arena_source toy_file); simplify_eq.
Qed.

Lemma decoded_values_typed_witness : u64 300 /\ handle_ok {| offset := 300; size := 2 |}.
Proof.
  destruct (decoded_values_typed (R := OpenFile)) as [Hv _].
  destruct (Hv (byte.of_Z <$> [0xac; 0x02; 0x02]) 0 2) as (H64 & _); [lia|].
  destruct (Hv (byte.of_Z <$> [0xac; 0x02; 0x02]) 0 3) as (_ & _ & _ & Hh); [lia|].
  split; [apply H64|apply Hh]; vm_compute; reflexivity.
Defined.

Lemma load_sound_witness :
  exists a ft hs ess, load_arena_source toy_file = Ok a /\
    Forall2 (verified_data_block ft toy_table) hs ess /\ a = build (push_all builder_new (concat ess)).
Proof.
  destruct toy_loads as [a Ha]. exists a.
  destruct (load_sound toy_file a) as (_ & ft & _ & _ & _ & hs & ess & _ & _ & _ & _ & _ & _ & Hb & Hbuild);
    [vm_compute; reflexivity|exact Ha|]. exists ft, hs, ess.
  split; [exact Ha|]. split; [exact Hb|exact Hbuild].
Defined.
