(* ===== verification/Text.v ===== *)
(** Text in Rust's standard library, as the command line tools use it: UTF-8
    validation and lossy decoding, lines and white space.  A [String] is the
    list of its UTF-8 bytes. *)

From S2P Require Import Prelude.

(** ** UTF-8 *)

Definition byte_between (lo hi : Z) (b : byte) : bool := (lo <=? byte.unsigned b) && (byte.unsigned b <=? hi).

(** The ranges of the bytes that may follow a first byte (Unicode, table 3-7);
    [None] for a byte that starts no character. *)
Definition utf8_tail (b : byte) : option (list (Z * Z)) :=
  let u := byte.unsigned b in
  let cont := (0x80, 0xBF) in
  if u <? 0x80 then Some []
  else if u <? 0xC2 then None
  else if u <? 0xE0 then Some [cont]
  else if u =? 0xE0 then Some [(0xA0, 0xBF); cont]
  else if u =? 0xED then Some [(0x80, 0x9F); cont]
  else if u <? 0xF0 then Some [cont; cont]
  else if u =? 0xF0 then Some [(0x90, 0xBF); cont; cont]
  else if u <? 0xF4 then Some [cont; cont; cont]
  else if u =? 0xF4 then Some [(0x80, 0x8F); cont; cont]
  else None.

(** The bytes of [s] that continue a character, what follows them, and
    whether the character is complete. *)
Fixpoint take_tail (ranges : list (Z * Z)) (s : bytes) : bytes * bytes * bool :=
  match ranges, s with
  | [], _ => ([], s, true)
  | (lo, hi) :: ranges, b :: s' =>
      if byte_between lo hi b
      then let '(t, rest, complete) := take_tail ranges s' in (b :: t, rest, complete)
      else ([], s, false)
  | _, [] => ([], [], false)
  end.

(** Characters, and maximal ill-formed pieces marked [false]: what
    [Utf8Chunks] iterates over.  Every round takes a byte, so the length of
    the string is fuel enough. *)
Fixpoint utf8_chunks_loop (fuel : nat) (s : bytes) : list (bool * bytes) :=
  match fuel, s with
  | S fuel, b :: s =>
      match utf8_tail b with
      | None => (false, [b]) :: utf8_chunks_loop fuel s
      | Some ranges =>
          let '(t, rest, complete) := take_tail ranges s in
          (complete, b :: t) :: utf8_chunks_loop fuel rest
      end
  | _, _ => []
  end.
Definition utf8_chunks (s : bytes) : list (bool * bytes) := utf8_chunks_loop (length s) s.

Definition is_utf8 (s : bytes) : bool := forallb fst (utf8_chunks s).

(** [U+FFFD]. *)
Definition REPLACEMENT_CHARACTER : bytes := byte.of_Z <$> [0xEF; 0xBF; 0xBD].

(** [String::from_utf8_lossy]. *)
Definition from_utf8_lossy (s : bytes) : bytes :=
  concat ((fun c : bool * bytes => if c.1 then c.2 else REPLACEMENT_CHARACTER) <$> utf8_chunks s).

Lemma take_tail_split ranges s t rest complete :
  take_tail ranges s = (t, rest, complete) -> s = t ++ rest.
Proof.
  revert s t rest. induction ranges as [|[lo hi] ranges IH]; intros [|b s] t rest; cbn; intros Heq; simplify_eq; try done.
  destruct (byte_between lo hi b); [|by simplify_eq].
  destruct (take_tail ranges s) as [[t' rest'] c] eqn:E. simplify_eq. cbn. f_equal. by apply IH.
Qed.

Lemma utf8_chunks_loop_concat fuel s :
  (length s <= fuel)%nat -> concat (utf8_chunks_loop fuel s).*2 = s.
Proof.
  revert s. induction fuel as [|fuel IH]; intros [|b s] Hl; cbn [utf8_chunks_loop]; cbn in Hl; try done; [lia|].
  destruct (utf8_tail b) as [ranges|]; [|cbn; rewrite IH by lia; done].
  destruct (take_tail ranges s) as [[t rest] c] eqn:E. apply take_tail_split in E. subst s.
  rewrite length_app in Hl. cbn. rewrite IH by lia. done.
Qed.

(** The chunks are the string. *)
Lemma utf8_chunks_concat s : concat (utf8_chunks s).*2 = s.
Proof. by apply utf8_chunks_loop_concat. Qed.

(** Lossy decoding changes nothing in a valid string. *)
Lemma lossy_valid s : is_utf8 s = true -> from_utf8_lossy s = s.
Proof.
  unfold is_utf8, from_utf8_lossy. intros Hv. rewrite <- (utf8_chunks_concat s) at 2. f_equal.
  induction (utf8_chunks s) as [|[[] c] l IH]; cbn in *; [done| |done]. by rewrite IH.
Qed.

(** ** Lines *)

Definition LF : byte := byte.of_Z 0x0A.
Definition CR : byte := byte.of_Z 0x0D.

(** [split_inclusive('\n')]: every piece but possibly the last ends in a line
    feed. *)
Fixpoint split_inclusive_lf (s : bytes) : list bytes :=
  match s with
  | [] => []
  | b :: s =>
      if bool_decide (b = LF) then [b] :: split_inclusive_lf s
      else match split_inclusive_lf s with
           | [] => [[b]]
           | l :: ls => (b :: l) :: ls
           end
  end.

Definition strip_suffix_byte (c : byte) (s : bytes) : option bytes :=
  match rev s with
  | b :: r => if bool_decide (b = c) then Some (rev r) else None
  | [] => None
  end.

(** [str::lines]: the line feed goes, and a carriage return before it. *)
Definition line_content (piece : bytes) : bytes :=
  match strip_suffix_byte LF piece with
  | None => piece
  | Some line => match strip_suffix_byte CR line with None => line | Some line => line end
  end.
Definition lines (s : bytes) : list bytes := line_content <$> split_inclusive_lf s.

(** ** White space *)

(** The encodings of the characters with the property [White_Space]. *)
Definition WHITE_SPACE : list bytes :=
  map (map byte.of_Z)
  [[0x09]; [0x0A]; [0x0B]; [0x0C]; [0x0D]; [0x20]; [0xC2; 0x85]; [0xC2; 0xA0]; [0xE1; 0x9A; 0x80];
   [0xE2; 0x80; 0x80]; [0xE2; 0x80; 0x81]; [0xE2; 0x80; 0x82]; [0xE2; 0x80; 0x83]; [0xE2; 0x80; 0x84];
   [0xE2; 0x80; 0x85]; [0xE2; 0x80; 0x86]; [0xE2; 0x80; 0x87]; [0xE2; 0x80; 0x88]; [0xE2; 0x80; 0x89];
   [0xE2; 0x80; 0x8A]; [0xE2; 0x80; 0xA8]; [0xE2; 0x80; 0xA9]; [0xE2; 0x80; 0xAF]; [0xE2; 0x81; 0x9F];
   [0xE3; 0x80; 0x80]].

Fixpoint strip_prefix (p s : bytes) : option bytes :=
  match p, s with
  | [], _ => Some s
  | a :: p, b :: s => if bool_decide (a = b) then strip_prefix p s else None
  | _ :: _, [] => None
  end.

(** [s] without the first of the patterns it starts with. *)
Fixpoint strip_any (ps : list bytes) (s : bytes) : option bytes :=
  match ps with
  | [] => None
  | p :: ps => match strip_prefix p s with Some s => Some s | None => strip_any ps s end
  end.

Fixpoint strip_all (fuel : nat) (ps : list bytes) (s : bytes) : bytes :=
  match fuel with
  | O => s
  | S fuel => match strip_any ps s with Some s => strip_all fuel ps s | None => s end
  end.

Definition trim_start (s : bytes) : bytes := strip_all (length s) WHITE_SPACE s.
Definition trim_end (s : bytes) : bytes := rev (strip_all (length s) (map (@rev byte) WHITE_SPACE) (rev s)).
Definition trim (s : bytes) : bytes := trim_end (trim_start s).

(** ** Files of lines *)

Lemma strip_suffix_snoc c s b : strip_suffix_byte c (s ++ [b]) = if bool_decide (b = c) then Some s else None.
Proof. unfold strip_suffix_byte. rewrite rev_app_distr. cbn. by rewrite rev_involutive. Qed.

Lemma split_inclusive_line l s :
  LF ∉ l -> split_inclusive_lf (l ++ LF :: s) = (l ++ [LF]) :: split_inclusive_lf s.
Proof.
  induction l as [|b l IH]; intros Hl; cbn [app split_inclusive_lf].
  { by rewrite bool_decide_true. }
  apply not_elem_of_cons in Hl as [Hb Hl]. rewrite bool_decide_false by done. by rewrite IH.
Qed.

(** The text with one line per string. *)
Definition unlines (ls : list bytes) : bytes := concat ((fun l => l ++ [LF]) <$> ls).

Lemma lines_unlines ls :
  Forall (fun l => (LF ∉ l) /\ last l <> Some CR) ls -> lines (unlines ls) = ls.
Proof.
  unfold lines, unlines. induction 1 as [|l ls [Hl Hc] _ IH]; [done|].
  cbn [fmap list_fmap concat]. rewrite <- (assoc_L (++)). cbn [app]. rewrite split_inclusive_line by done.
  cbn [fmap list_fmap]. rewrite IH. f_equal. unfold line_content. rewrite strip_suffix_snoc, bool_decide_true by done.
  destruct l as [|b l _] using rev_ind; [done|]. rewrite strip_suffix_snoc.
  rewrite last_snoc in Hc. by rewrite bool_decide_false by congruence.
Qed.

(** ** Samples *)

Example lossy_sample :
  from_utf8_lossy (byte.of_Z <$> [0x61; 0xE2; 0x82; 0xAC; 0xE2; 0x82; 0x41; 0xFF]) =
    byte.of_Z <$> [0x61; 0xE2; 0x82; 0xAC; 0xEF; 0xBF; 0xBD; 0x41; 0xEF; 0xBF; 0xBD].
Proof. vm_compute. reflexivity. Qed.

Example lines_sample :
  trim <$> lines (byte.of_Z <$> [0x20; 0x61; 0x0D; 0x0A; 0x0A; 0xC2; 0xA0; 0x62; 0x20; 0x63; 0x09]) =
    [byte.of_Z <$> [0x61]; []; byte.of_Z <$> [0x62; 0x20; 0x63]].
Proof. vm_compute. reflexivity. Qed.
