(* ===== verification/Console.v ===== *)
(** The world a command line tool runs in: a file system, the two output
    streams and the exit status, as a small monad with the rules to reason
    about the tools' runs. *)

From S2P Require Import Prelude InternalKey Checksum Text.

(** ** The file system

    The operating system's part of [File::open] and [fs::write]: opening gives
    the bytes of the file, writing replaces them.  [plain_file] holds of the
    paths of regular files the process may read and write. *)
Class FileSystem (W : Type) : Type := {
  fs_open : W -> bytes -> error + bytes;
  fs_write : W -> bytes -> bytes -> (error + unit) * W
}.

Class FileSystemLaws (W : Type) `{FileSystem W} : Type := {
  plain_file : W -> bytes -> Prop;
  fs_write_open w path data w' :
    plain_file w path -> fs_write w path data = (inr tt, w') -> fs_open w' path = inr data
}.

(** ** Output

    A line is its format template and what is formatted into it, as in
    [error]. *)
Inductive arg : Type :=
  | Text (s : bytes)
  | Quoted (s : bytes)
  | Num (n : Z)
  | Checksum (t : ChecksumType)
  | Type_ (t : ValueType)
  | Cause (e : error).

Inductive line : Type := Line (template : string) (args : list arg).

Record Console (W : Type) : Type := { world : W; stdout : list line; stderr : list line }.
Arguments world {W} _.
Arguments stdout {W} _.
Arguments stderr {W} _.

(** How a run goes on: with a value, by [process::exit], in a panic, or - out
    of fuel - not known. *)
Inductive ending (A : Type) : Type :=
  | Go (a : A)
  | Exit (code : Z)
  | Crash
  | Unfinished.
Arguments Go {A} a.
Arguments Exit {A} code.
Arguments Crash {A}.
Arguments Unfinished {A}.

(** ** The monad *)

Definition tool (W A : Type) : Type := Console W -> Console W * ending A.

#[export] Instance tool_ret {W} : MRet (tool W) := fun A a c => (c, Go a).
#[export] Instance tool_bind {W} : MBind (tool W) := fun A B f m c =>
  match m c with
  | (c, Go a) => f a c
  | (c, Exit code) => (c, Exit code)
  | (c, Crash) => (c, Crash)
  | (c, Unfinished) => (c, Unfinished)
  end.

Section Tools.
Context {W : Type} `{FileSystem W}.

(** [println!] and [eprintln!]. *)
Definition print (c : Console W) (l : line) : Console W :=
  {| world := c.(world); stdout := c.(stdout) ++ [l]; stderr := c.(stderr) |}.
Definition eprint (c : Console W) (l : line) : Console W :=
  {| world := c.(world); stdout := c.(stdout); stderr := c.(stderr) ++ [l] |}.

Definition println (l : line) : tool W unit := fun c => (print c l, Go tt).

(** [eprintln!(..); std::process::exit(1)]. *)
Definition die {A} (l : line) : tool W A := fun c => (eprint c l, Exit 1).

(** A computation that touches neither the world nor the console. *)
Definition pure {A} (m : outcome A) : tool W A := fun c =>
  match m with
  | Ok a => (c, Go a)
  | Err e => (c, Crash)
  | Panic => (c, Crash)
  | OutOfFuel => (c, Unfinished)
  end.

(** [match m { Ok(a) => a, Err(e) => { eprintln!(..); exit(1) } }]. *)
Definition or_die {A} (m : outcome A) (l : error -> line) : tool W A := fun c =>
  match m with
  | Ok a => (c, Go a)
  | Err e => die (l e) c
  | Panic => (c, Crash)
  | OutOfFuel => (c, Unfinished)
  end.

(** The file system at this moment. *)
Definition current_files : tool W (bytes -> error + bytes) := fun c => (c, Go (fs_open c.(world))).

(** [std::fs::read_to_string]. *)
Definition read_to_string (files : bytes -> error + bytes) (path : bytes) : outcome bytes :=
  text ← map_err (files path) (fun e => e);
  if is_utf8 text then Ok text else Err (Msg "stream did not contain valid UTF-8" []).

(** [std::fs::write], its error left to the caller. *)
Definition write_file (path data : bytes) : tool W (error + unit) := fun c =>
  let '(r, w) := fs_write c.(world) path data in
  ({| world := w; stdout := c.(stdout); stderr := c.(stderr) |}, Go r).

(** ** Steps that change nothing unless they give up

    A quiet step goes on, panics or runs dry without a trace; when it gives up
    it writes one line to [stderr] and exits with status 1. *)
Definition gives_up (c c' : Console W) (code : Z) : Prop := code = 1 /\ exists l, c' = eprint c l.

Definition quiet {A} (m : tool W A) : Prop := forall c,
  match m c with
  | (c', Exit code) => gives_up c c' code
  | (c', _) => c' = c
  end.

Lemma quiet_ret {A} (a : A) : quiet (mret a).
Proof. done. Qed.

Lemma quiet_bind {A B} (m : tool W A) (f : A -> tool W B) :
  quiet m -> (forall a, quiet (f a)) -> quiet (m ≫= f).
Proof.
  intros Hm Hf c. unfold mbind, tool_bind. specialize (Hm c). destruct (m c) as [c' [a| | |]]; [|done..].
  subst c'. apply Hf.
Qed.

Lemma quiet_die {A} l : quiet (A := A) (die l).
Proof. intros c. split; [done|]. by exists l. Qed.

Lemma quiet_or_die {A} (m : outcome A) l : quiet (or_die m l).
Proof. intros c. unfold or_die. destruct m; [done|apply quiet_die|done..]. Qed.

Lemma quiet_pure {A} (m : outcome A) : quiet (pure m).
Proof. intros c. by destruct m. Qed.

Lemma quiet_files : quiet current_files.
Proof. done. Qed.

Lemma quiet_if {A} (b : bool) (m1 m2 : tool W A) : quiet m1 -> quiet m2 -> quiet (if b then m1 else m2).
Proof. by destruct b. Qed.

Lemma tool_bind_Go {A B} (m : tool W A) (f : A -> tool W B) c c' a :
  m c = (c', Go a) -> (m ≫= f) c = f a c'.
Proof. unfold mbind, tool_bind. by intros ->. Qed.

Lemma pure_Ok {A} (m : outcome A) a (c : Console W) : m = Ok a -> pure m c = (c, Go a).
Proof. by intros ->. Qed.

Lemma or_die_Ok {A} (m : outcome A) l a (c : Console W) : m = Ok a -> or_die m l c = (c, Go a).
Proof. by intros ->. Qed.

Lemma tool_bind_inv {A B} (m : tool W A) (f : A -> tool W B) c c'' b :
  (m ≫= f) c = (c'', Go b) -> exists c' a, m c = (c', Go a) /\ f a c' = (c'', Go b).
Proof.
  unfold mbind, tool_bind. destruct (m c) as [c' [a|code| |]]; try done. intros Hf. by exists c', a.
Qed.

(** *** Runs that only read

    The file system stays; [stderr] grows by the one line of a run that gives
    up; the run comes to an end. *)
Definition read_only {A} (m : tool W A) (c : Console W) : Prop :=
  let '(c', r) := m c in
  c'.(world) = c.(world) /\
  match r with
  | Go _ | Crash => c'.(stderr) = c.(stderr)
  | Exit code => code = 1 /\ exists l, c'.(stderr) = c.(stderr) ++ [l]
  | Unfinished => False
  end.

Lemma read_only_bind {A B} (m : tool W A) (f : A -> tool W B) c :
  read_only m c -> (forall c' a, m c = (c', Go a) -> read_only (f a) c') -> read_only (m ≫= f) c.
Proof.
  unfold read_only, mbind, tool_bind. destruct (m c) as [c' [a|code| |]]; cbn; [|done..].
  intros [Hw He] Hf. specialize (Hf c' a eq_refl). destruct (f a c') as [c'' r]. by rewrite <- Hw, <- He.
Qed.
Lemma read_only_ret {A} (a : A) c : read_only (mret a) c.
Proof. done. Qed.
Lemma read_only_println l c : read_only (println l) c.
Proof. done. Qed.
Lemma read_only_die {A} l c : read_only (A := A) (die l) c.
Proof. split; [done|]. split; [done|]. by exists l. Qed.
Lemma read_only_or_die {A} (m : outcome A) l c : m <> OutOfFuel -> read_only (or_die m l) c.
Proof. unfold read_only, or_die. destruct m; [done|intros _; apply read_only_die|done..]. Qed.
Lemma read_only_pure {A} (m : outcome A) c : m <> OutOfFuel -> read_only (pure m) c.
Proof. unfold read_only, pure. by destruct m. Qed.

(** *** Runs that come to an end *)

Definition finishes {A} (m : tool W A) (c : Console W) : Prop := (m c).2 <> Unfinished.

Lemma finishes_bind {A B} (m : tool W A) (f : A -> tool W B) c :
  finishes m c -> (forall c' a, m c = (c', Go a) -> finishes (f a) c') -> finishes (m ≫= f) c.
Proof.
  unfold finishes, mbind, tool_bind. destruct (m c) as [c' [a|code| |]]; cbn; [|done..]. intros _ Hf. by apply Hf.
Qed.
Lemma finishes_or_die {A} (m : outcome A) l c : m <> OutOfFuel -> finishes (or_die m l) c.
Proof. unfold finishes, or_die, die. by destruct m. Qed.
Lemma finishes_pure {A} (m : outcome A) c : m <> OutOfFuel -> finishes (pure m) c.
Proof. unfold finishes, pure. by destruct m. Qed.

(** What follows a quiet step. *)
Lemma after_quiet {A B} (m : tool W A) (f : A -> tool W B) c :
  quiet m ->
  (exists a, m c = (c, Go a) /\ (m ≫= f) c = f a c) \/
  (m ≫= f) c = (c, Crash) \/ m c = (c, Unfinished) \/
  exists c', (m ≫= f) c = (c', Exit 1) /\ gives_up c c' 1.
Proof.
  intros Hm. specialize (Hm c). unfold mbind, tool_bind. destruct (m c) as [c' [a|code| |]]; subst.
  - left. by exists a.
  - destruct Hm as [-> Hl]. do 3 right. by exists c'.
  - by right; left.
  - by right; right; left.
Qed.
End Tools.

Create HintDb quiet.
#[export] Hint Resolve quiet_ret quiet_die quiet_or_die quiet_pure quiet_files : quiet.
#[export] Hint Resolve quiet_bind quiet_if : quiet.
