(* ===== verification/Tools.v ===== *)
(** The command line tools: [bin/compact_files.rs], which compacts table files
    into one, and [bin/compactor.rs], which prints a table.  [main] passes the
    program's arguments to [run]; the Tokio runtime only drives it. *)

From stdpp Require Import gmap.
From S2P Require Import Prelude InternalKey Checksum Footer Block BlockBuilders Properties SstBuilder FileReader SstReader Loader.
From S2P Require Import Cmp Source Kmerge LoserTree Strategy Compaction Sharding EndToEnd Termination Text Console.
Import InternalKey.

(** ** [compact_files] *)

Module CompactFiles.
Section Run.
Context `{ChecksumLib} `{CompressLib} `{Profile} {W : Type} `{FileSystem W}.

(** [Iterator::position]. *)
Fixpoint position {A} (p : A -> bool) (l : list A) : option nat :=
  match l with
  | [] => None
  | x :: l => if p x then Some O else S <$> position p l
  end.

(** The flag, and the arguments without it ([args.remove(i)]). *)
Definition for_ingest_flag (args : list bytes) : bool * list bytes :=
  match position (fun a => bool_decide (a = str "--for-ingest")) args with
  | Some i => (true, delete i args)
  | None => (false, args)
  end.

Definition usage : line :=
  Line "usage: compact_files [--for-ingest] <output.sst> <input1.sst> [input2.sst ...]\n   or: compact_files [--for-ingest] <output.sst> --list <path-list-file>" [].

Definition input_paths (args : list bytes) : tool W (list bytes) :=
  a2 ← pure (index_at args 2);
  if bool_decide (a2 = str "--list") then
    list_path ← match get_at args 3 with
                | Some p => mret p
                | None => die (Line "--list requires a path-list file argument" [])
                end;
    files ← current_files;
    text ← or_die (read_to_string files list_path)
             (fun e => Line "failed to read {}: {}" [Text list_path; Cause e]);
    mret (filter (fun s => s <> []) (trim <$> lines text))
  else pure (index_range args 2 (len args)).

Fixpoint load_sources (paths : list bytes) (sources : list ArenaSource) : tool W (list ArenaSource) :=
  match paths with
  | [] => mret sources
  | path :: paths =>
      files ← current_files;
      reader ← or_die (open_file files path) (fun e => Line "failed to open {}: {}" [Text path; Cause e]);
      s ← or_die (load_arena_source reader) (fun e => Line "failed to load {}: {}" [Text path; Cause e]);
      load_sources paths (sources ++ [s])
  end.

Definition options (for_ingest : bool) : CompactionOptions :=
  {| sst_builder :=
       {| SstBuilderOptions.base_context_checksum := 0x42424242;
          SstBuilderOptions.external_sst_global_seqno := if for_ingest then Some 0 else None;
          SstBuilderOptions.checksum_type := SstBuilderOptions.checksum_type SstBuilderOptions.default;
          SstBuilderOptions.comparator_name := SstBuilderOptions.comparator_name SstBuilderOptions.default;
          SstBuilderOptions.column_family_id := SstBuilderOptions.column_family_id SstBuilderOptions.default;
          SstBuilderOptions.column_family_name := SstBuilderOptions.column_family_name SstBuilderOptions.default |} |}.

(** From the arguments to the bytes to write. *)
Definition prepare (for_ingest : bool) (args : list bytes) : tool W (bytes * list bytes * bytes) :=
  if len args <? 3 then die usage
  else
    output_path ← pure (index_at args 1);
    input_paths ← input_paths args;
    sources ← load_sources input_paths [];
    let opts := options for_ingest in
    output_bytes ← or_die (compact sources opts) (fun e => Line "compaction failed: {}" [Cause e]);
    mret (output_path, input_paths, output_bytes).

Definition run (args : list bytes) : tool W unit :=
  let '(for_ingest, args) := for_ingest_flag args in
  '(output_path, input_paths, output_bytes) ← prepare for_ingest args;
  r ← write_file output_path output_bytes;
  match r with
  | inl e => die (Line "failed to write {}: {}" [Text output_path; Cause e])
  | inr _ =>
      println (Line "wrote {} bytes to {} from {} input SSTs"
                 [Num (len output_bytes); Text output_path; Num (len input_paths)])
  end.
End Run.
End CompactFiles.

(** ** [compactor] *)

Module Compactor.
Section Run.
Context `{ChecksumLib} `{CompressLib} `{Profile} {W : Type} `{FileSystem W}.

(** What the closure passed to [for_each_entry] updates. *)
Record DumpState : Type := { console : Console W; count : Z; printed : Z }.

(** The closure. [printed] stays at most 20. *)
Definition visit_entry (dump_all : bool) (key value : bytes) (st : DumpState) : DumpState * outcome unit :=
  match add_u64 st.(count) 1 with
  | Ok count =>
      match split key with
      | Ok ik =>
          if dump_all then
            ({| console := print st.(console)
                  (Line "{} ==> {}" [Text (from_utf8_lossy ik.(user_key)); Text (from_utf8_lossy value)]);
                count := count; printed := st.(printed) |}, Ok tt)
          else if st.(printed) <? 20 then
            ({| console := print st.(console)
                  (Line "  user_key={:?} seq={} type={:?} value_len={}"
                     [Quoted (from_utf8_lossy ik.(user_key)); Num ik.(sequence); Type_ ik.(value_type); Num (len value)]);
                count := count; printed := st.(printed) + 1 |}, Ok tt)
          else ({| console := st.(console); count := count; printed := st.(printed) |}, Ok tt)
      | Err err =>
          ({| console := print st.(console) (Line "  <bad internal key: {}>" [Cause err]);
              count := count; printed := st.(printed) |}, Ok tt)
      | r => (st, stop r)
      end
  | r => (st, stop r)
  end.

(** [sst.for_each_entry(..).await] and the test of its result. *)
Definition walk {R} `{FileReader R} (sst : SstReader R) (dump_all : bool) : tool W (Z * Z) := fun c =>
  let '(st, result) :=
    SstReader.for_each_entry sst (visit_entry dump_all) {| console := c; count := 0; printed := 0 |} in
  match result with
  | Ok _ => (st.(console), Go (st.(count), st.(printed)))
  | Err e => die (Line "failed to iterate entries: {}" [Cause e]) st.(console)
  | Panic => (st.(console), Crash)
  | OutOfFuel => (st.(console), Unfinished)
  end.

Definition header (ft : Footer) : line :=
  Line "magic=0x{:016x} format_version={} checksum_type={:?}"
    [Num ft.(table_magic_number); Num ft.(format_version); Checksum ft.(checksum_type)].

Definition run (args : list bytes) : tool W unit :=
  match get_at args 1 with
  | None => die (Line "usage: compactor <path-to-sst-file>" [])
  | Some path =>
      files ← current_files;
      reader ← or_die (open_file files path) (fun e => Line "failed to open {}: {}" [Text path; Cause e]);
      sst ← or_die (SstReader.open reader) (fun e => Line "failed to open SST: {}" [Cause e]);
      let dump_all := bool_decide (get_at args 2 = Some (str "--dump-all")) in
      _ ← if dump_all then mret tt else println (header sst.(sr_footer));
      '(count, printed) ← walk sst dump_all;
      if dump_all then mret tt
      else
        _ ← println (Line "total entries: {}" [Num count]);
        if printed <? count then
          more ← pure (sub_u64 count printed);
          println (Line "  ... ({} more)" [Num more])
        else mret tt
  end.
End Run.
End Compactor.

(** ** Runs that leave no trace *)

Section Quiet.
Context `{ChecksumLib} `{CompressLib} `{Profile} {W : Type} `{FileSystem W}.

Lemma load_sources_quiet paths sources : quiet (CompactFiles.load_sources paths sources).
Proof.
  revert sources. induction paths as [|path paths IH]; intros sources; cbn [CompactFiles.load_sources];
    auto 10 with quiet.
Qed.

Lemma input_paths_quiet args : quiet (CompactFiles.input_paths args).
Proof.
  unfold CompactFiles.input_paths. apply quiet_bind; [auto with quiet|]. intros a2.
  apply quiet_if; [|auto with quiet]. apply quiet_bind; [destruct (get_at args 3); auto with quiet|auto with quiet].
Qed.

Lemma prepare_quiet for_ingest args : quiet (CompactFiles.prepare for_ingest args).
Proof.
  unfold CompactFiles.prepare. apply quiet_if; [auto with quiet|].
  repeat (apply quiet_bind; [auto using load_sources_quiet, input_paths_quiet with quiet|intros ?]). auto with quiet.
Qed.
End Quiet.

(** ** Runs come to an end *)

Section Ends.
Context `{ChecksumLib} `{CompressLib} `{Profile} {W : Type} `{FileSystem W}.

Lemma disk_reads_end files path reader : open_file files path = Ok reader -> reads_end reader.
Proof.
  unfold open_file. intros Ho. apply fmap_Ok_inv in Ho as (r & _ & ->). intros off n. cbn.
  unfold blocking_read_at, read_exact_at. do 2 (case_match; [done|]); apply ends_ok_or.
Qed.
Lemma open_file_ends files path : open_file files path <> OutOfFuel.
Proof. unfold open_file, blocking_open. by destruct (files path). Qed.

Lemma or_die_inv {A} (m : outcome A) l (c c' : Console W) a : or_die m l c = (c', Go a) -> m = Ok a /\ c' = c.
Proof. unfold or_die, die. destruct m; by intros [= <- <-]. Qed.

Lemma load_sources_finishes paths sources c :
  Forall (fun s => 0 <= s.(Source.pos)) sources ->
  finishes (CompactFiles.load_sources paths sources) c /\
  forall c' ss, CompactFiles.load_sources paths sources c = (c', Go ss) -> Forall (fun s => 0 <= s.(Source.pos)) ss.
Proof.
  revert sources c. induction paths as [|path paths IH]; intros sources c Hs; cbn [CompactFiles.load_sources].
  { split; [done|]. by intros c' ss [= _ <-]. }
  assert (forall reader s, open_file (fs_open c.(world)) path = Ok reader -> load_arena_source reader = Ok s ->
    Forall (fun s => 0 <= s.(Source.pos)) (sources ++ [s])) as Hnext.
  { intros reader s _ Hl%load_arena_source_pos. apply Forall_app. split; [done|]. constructor; [lia|done]. }
  split.
  - apply finishes_bind; [done|]. intros ? ? [= <- <-]. apply finishes_bind; [by apply finishes_or_die, open_file_ends|]. intros c1 reader [Ho ->]%or_die_inv.
    apply finishes_bind; [apply finishes_or_die, load_arena_source_ends; by eapply disk_reads_end|].
    intros c2 s [Hl ->]%or_die_inv. by apply IH, (Hnext reader).
  - intros c' ss Hd. apply tool_bind_inv in Hd as (? & ? & [= <- <-] & Hd).
    apply tool_bind_inv in Hd as (c1 & reader & [Ho ->]%or_die_inv & Hd).
    apply tool_bind_inv in Hd as (c2 & s & [Hl ->]%or_die_inv & Hd). by eapply IH; [by apply (Hnext reader)|].
Qed.

Lemma input_paths_finishes args c : finishes (CompactFiles.input_paths args) c.
Proof.
  unfold CompactFiles.input_paths. apply finishes_bind; [apply finishes_pure, ends_index_at|]. intros c1 a2 _.
  case_match; [|apply finishes_pure, ends_index_range].
  apply finishes_bind; [by destruct (get_at args 3)|]. intros c2 lp _. apply finishes_bind; [done|]. intros c3 files _.
  apply finishes_bind; [|done]. apply finishes_or_die. unfold read_to_string. destruct (files lp); cbn; [done|by case_match].
Qed.

Lemma prepare_finishes ingest args c : finishes (CompactFiles.prepare ingest args) c.
Proof.
  unfold CompactFiles.prepare. case_match; [done|].
  apply finishes_bind; [apply finishes_pure, ends_index_at|]. intros c1 out _.
  apply finishes_bind; [apply input_paths_finishes|]. intros c2 paths _.
  destruct (load_sources_finishes paths [] c2) as [Hf Hp]; [done|].
  apply finishes_bind; [exact Hf|]. intros c3 ss Hss%Hp. cbv zeta.
  apply finishes_bind; [|done]. by apply finishes_or_die, compact_ends.
Qed.

(** The walk of the dump tool only prints. *)
Lemma compactor_walk_read_only {R} `{FileReader R} reader (sst : SstReader R) dump_all (c : Console W) :
  reads_end reader -> SstReader.open reader = Ok sst -> read_only (Compactor.walk sst dump_all) c.
Proof.
  intros Hr Ho. unfold read_only, Compactor.walk.
  set (f := Compactor.visit_entry (W := W) dump_all). set (st := {| Compactor.console := c; Compactor.count := 0; Compactor.printed := 0 |}).
  pose (P := fun s : Compactor.DumpState => s.(Compactor.console).(world) = c.(world) /\ s.(Compactor.console).(stderr) = c.(stderr)).
  assert (forall k v s, (P s -> P (f k v s).1) /\ ends (f k v s).2) as Hf.
  { intros k v s. unfold f, Compactor.visit_entry.
    destruct (add_u64 _ 1) as [n| | |] eqn:Ea; [|done..|by apply ends_arith in Ea].
    destruct (decide (ikey_valid k)) as [Hk|Hk]; [rewrite split_ok by done|rewrite split_short by done]; [|done].
    by repeat case_match. }
  pose proof (sst_walk_keeps P f (fun k v s => proj1 (Hf k v s)) sst st (conj eq_refl eq_refl)) as [Hw He].
  pose proof (sst_walk_ends reader sst f st Hr Ho (fun k v s => proj2 (Hf k v s))) as Hend.
  destruct (SstReader.for_each_entry sst f st) as [s' [u|e| |]]; cbn [fst snd] in *.
  - done.
  - split; [done|]. split; [done|]. eexists. cbn. by rewrite He.
  - done.
  - done.
Qed.

Lemma compactor_read_only args (c : Console W) : read_only (Compactor.run args) c.
Proof.
  unfold Compactor.run. destruct (get_at args 1) as [path|]; [|apply read_only_die].
  apply read_only_bind; [done|]. intros c1 files _.
  apply read_only_bind; [apply read_only_or_die, open_file_ends|]. intros c2 reader [Hop _]%or_die_inv.
  pose proof (disk_reads_end _ _ _ Hop) as Hr.
  apply read_only_bind; [by apply read_only_or_die, open_ends|]. intros c3 sst [Ho _]%or_die_inv. cbv zeta.
  apply read_only_bind; [by case_match|]. intros c4 [] _.
  apply read_only_bind; [by eapply compactor_walk_read_only|]. intros c5 [count printed] _.
  case_match; [done|]. apply read_only_bind; [done|]. intros c6 [] _. case_match; [|done].
  apply read_only_bind; [apply read_only_pure, ends_arith|done].
Qed.
End Ends.

(** ** A file on disk, read as the tools read it *)

(** The reader [io::open] makes of a file. *)
Definition disk_file (file : bytes) : Arc BlockingFileReader := arc {| br_file := file; br_file_size := len file |}.

Section Disk.
Context `{ChecksumLib} `{CompressLib} `{Profile}.

Lemma open_file_ok fs path file : fs path = inr file -> open_file fs path = Ok (disk_file file).
Proof. unfold open_file, blocking_open. by intros ->. Qed.

Lemma load_disk file Hl :
  load_arena_source (disk_file file) = load_arena_source (mem_file file Hl).
Proof. reflexivity. Qed.

Lemma table_addressable file es : table_of file es -> len file <= isize_MAX.
Proof. intros (props & ft & Hs%layout_size). unfold isize_MAX. lia. Qed.

Lemma load_disk_table file es :
  table_of file es -> arena_bytes es < 2 ^ 32 ->
  exists a, load_arena_source (disk_file file) = Ok a /\ arena_ok a /\ window a = es.
Proof.
  intros Ht Hb. pose proof (table_addressable _ _ Ht) as Hl. destruct Ht as (props & ft & Ht).
  change (sst_layout (file_content (mem_file file Hl)) es props ft) in Ht.
  rewrite (load_disk file Hl). destruct (load_layout (mem_file file Hl) es props ft Ht Hb) as (a & Ha & Hok & _ & Hw).
  by exists a.
Qed.

Lemma visit_blocks_disk {St} file Hl ft mi ix mi' ix' (f : bytes -> bytes -> St -> St * outcome unit) hs st :
  visit_blocks {| sr_reader := disk_file file; sr_footer := ft; sr_metaindex := mi; sr_index := ix |} f hs st =
  visit_blocks {| sr_reader := mem_file file Hl; sr_footer := ft; sr_metaindex := mi'; sr_index := ix' |} f hs st.
Proof.
  revert st. induction hs as [|h hs IH]; intros st; [done|]. cbn [visit_blocks].
  change (read_block_contents (sr_reader {| sr_reader := disk_file file; sr_footer := ft; sr_metaindex := mi; sr_index := ix |}))
    with (read_block_contents (mem_file file Hl)).
  cbn [sr_reader sr_footer]. destruct (_ ≫= _) as [pb| | |]; [|done..].
  destruct (Block.for_each_entry pb f st) as [st' [| | |]]; [apply IH|done..].
Qed.

(** A file opens and is walked on disk as it is in memory. *)
Definition on_disk {R} (file : bytes) (sst : SstReader R) : SstReader (Arc BlockingFileReader) :=
  {| sr_reader := disk_file file; sr_footer := sst.(sr_footer);
     sr_metaindex := sst.(sr_metaindex); sr_index := sst.(sr_index) |}.

Lemma open_disk file Hl : SstReader.open (disk_file file) = on_disk file <$> SstReader.open (mem_file file Hl).
Proof.
  unfold SstReader.open.
  change (read_footer (disk_file file)) with (read_footer (mem_file file Hl)).
  change (read_block_contents (disk_file file)) with (read_block_contents (mem_file file Hl)).
  repeat (match goal with |- context [?m ≫= _] => destruct m; [rewrite !bind_Ok|done..] end). done.
Qed.

Lemma walk_disk file Hl sst {St} (f : bytes -> bytes -> St -> St * outcome unit) st :
  SstReader.open (mem_file file Hl) = Ok sst ->
  SstReader.for_each_entry (on_disk file sst) f st = SstReader.for_each_entry sst f st.
Proof.
  unfold SstReader.open. intros Ho. inv_ok Ho. injection Ho as <-. unfold SstReader.for_each_entry, on_disk. cbn [sr_index].
  destruct (run_visit _) as [hs| | |]; [|done..]. apply visit_blocks_disk.
Qed.

(** A table on disk opens, and its walk visits its entries. *)
Lemma open_disk_table file es props ft :
  sst_layout file es props ft ->
  exists sst, SstReader.open (disk_file file) = Ok sst /\ sst.(sr_footer) = ft /\
    forall St (f : bytes -> bytes -> St -> St * outcome unit) st,
      SstReader.for_each_entry sst f st = visit_entries f es st.
Proof.
  intros Ht. assert (len file <= isize_MAX) as Hl by (apply (table_addressable file es); by exists props, ft).
  change (sst_layout (file_content (mem_file file Hl)) es props ft) in Ht.
  destruct (read_layout (mem_file file Hl) es props ft Ht) as (sst & Ho & Hft & _ & _ & Hv).
  exists (on_disk file sst). rewrite (open_disk file Hl), Ho.
  split_and!; [done..|]. intros St f st. by rewrite (walk_disk file Hl sst), Hv.
Qed.
End Disk.

(** ** What the arguments ask for *)

(** A path that survives being a line of the list file. *)
Definition path_line (p : bytes) : Prop := p <> [] /\ trim p = p /\ (LF ∉ p) /\ last p <> Some CR.
#[export] Instance path_line_dec p : Decision (path_line p).
Proof. unfold path_line. solve_decision. Defined.

(** The output and the inputs named by the arguments, without the flag: on the
    command line, or one a line in a list file. *)
Inductive requested (files : bytes -> error + bytes) : list bytes -> bytes -> list bytes -> Prop :=
  | on_command_line prog out path paths :
      path <> str "--list" -> requested files (prog :: out :: path :: paths) out (path :: paths)
  | in_list_file prog out list_path rest paths :
      files list_path = inr (unlines paths) -> is_utf8 (unlines paths) = true -> Forall path_line paths ->
      requested files (prog :: out :: str "--list" :: list_path :: rest) out paths.

(** A path that opens to a table of the entries. *)
Definition holds_table `{ChecksumLib} `{Profile} (files : bytes -> error + bytes) (path : bytes) (es : list entry) : Prop :=
  exists file, files path = inr file /\ table_of file es.

Section CompactFilesLemmas.
Context `{ChecksumLib} `{CompressLib} `{Profile} {W : Type} `{FileSystem W}.

Lemma path_lines paths :
  Forall path_line paths -> filter (fun s => s <> []) (trim <$> (lines (unlines paths))) = paths.
Proof.
  intros Hp. rewrite lines_unlines by (eapply Forall_impl; [exact Hp|]; by intros p (_ & _ & ?)).
  induction Hp as [|p paths (Hne & Ht & _) _ IH]; [done|]. cbn [fmap list_fmap].
  rewrite Ht, filter_cons_True by done. by rewrite IH.
Qed.

Lemma requested_ok (c : Console W) args out paths :
  requested (fs_open c.(world)) args out paths ->
  (len args <? 3) = false /\ index_at args 1 = Ok out /\ CompactFiles.input_paths args c = (c, Go paths).
Proof.
  intros Hr. assert (3 <= len args) as Hlen by (destruct Hr; len_lia). split; [lia|].
  destruct Hr as [prog out path paths Hne|prog out lp rest paths Hlp Hu Hp];
    (split; [by apply (index_at_app [prog])|]); unfold CompactFiles.input_paths.
  - rewrite (tool_bind_Go _ _ c c path) by (by apply pure_Ok, (index_at_app [prog; out])). rewrite bool_decide_false by done.
    unfold pure, index_range. replace (get_range _ 2 _) with (Some (path :: paths)); [done|].
    symmetry. apply get_range_Some. exists [prog; out], []. rewrite app_nil_r. split_and!; [done|done|len_lia].
  - rewrite (tool_bind_Go _ _ c c (str "--list")) by (by apply pure_Ok, (index_at_app [prog; out])).
    rewrite bool_decide_true by done. 
    assert (get_at (prog :: out :: str "--list" :: lp :: rest) 3 = Some lp) as ->
      by by apply (get_at_app [prog; out; str "--list"]).
    rewrite (tool_bind_Go _ _ c c lp) by done. rewrite (tool_bind_Go _ _ c c (fs_open c.(world))) by done.
    rewrite (tool_bind_Go _ _ c c (unlines paths)).
    + unfold mret, tool_ret. by rewrite path_lines.
    + apply or_die_Ok. unfold read_to_string. rewrite Hlp. cbn [map_err mbind outcome_bind]. by rewrite Hu.
Qed.

(** One round of the loading loop. *)
Lemma load_sources_step (c : Console W) path after ss :
  CompactFiles.load_sources (path :: after) ss c =
    match fs_open c.(world) path with
    | inl e => (eprint c (Line "failed to open {}: {}" [Text path; Cause e]), Exit 1)
    | inr file =>
        match load_arena_source (disk_file file) with
        | Ok a => CompactFiles.load_sources after (ss ++ [a]) c
        | Err e => (eprint c (Line "failed to load {}: {}" [Text path; Cause e]), Exit 1)
        | Panic => (c, Crash)
        | OutOfFuel => (c, Unfinished)
        end
    end.
Proof.
  cbn [CompactFiles.load_sources]. rewrite (tool_bind_Go _ _ c c (fs_open c.(world))) by done.
  destruct (fs_open c.(world) path) as [e|file] eqn:Hf.
  - unfold open_file, blocking_open. by rewrite Hf.
  - rewrite (tool_bind_Go _ _ c c (disk_file file)) by (by apply or_die_Ok, open_file_ok).
    by destruct (load_arena_source (disk_file file)).
Qed.

Lemma load_sources_ok (c : Console W) paths ess sources :
  Forall2 (holds_table (fs_open c.(world))) paths ess -> sst_weight (concat ess) < 2 ^ 32 ->
  exists ss, CompactFiles.load_sources paths sources c = (c, Go (sources ++ ss)) /\
    Forall arena_ok ss /\ window <$> ss = ess.
Proof.
  intros Hf. revert sources. induction Hf as [|path es paths ess (file & Hopen & Ht) _ IH]; intros sources Hw.
  { exists []. rewrite app_nil_r. done. }
  cbn [concat] in Hw. rewrite sst_weight_app in Hw.
  pose proof (arena_bytes_weight es). pose proof (sst_weight_nonneg (concat ess)). pose proof (sst_weight_nonneg es).
  destruct (load_disk_table file es Ht) as (a & Ha & Hok & Hwin); [lia|].
  destruct (IH (sources ++ [a])) as (ss & Hl & Hoks & Hwins); [lia|].
  exists (a :: ss). split; [|split; [by constructor|cbn; by rewrite Hwin, Hwins]].
  by rewrite load_sources_step, Hopen, Ha, Hl, <- (assoc_L (++)).
Qed.

(** An input the tool can read, and why it gives up on one it cannot. *)
Definition loadable (files : bytes -> error + bytes) (path : bytes) : Prop :=
  exists file a, files path = inr file /\ load_arena_source (disk_file file) = Ok a.

Inductive refused (files : bytes -> error + bytes) (path : bytes) : line -> Prop :=
  | refused_open e :
      files path = inl e -> refused files path (Line "failed to open {}: {}" [Text path; Cause e])
  | refused_load file e :
      files path = inr file -> load_arena_source (disk_file file) = Err e ->
      refused files path (Line "failed to load {}: {}" [Text path; Cause e]).

Lemma load_sources_prefix (c : Console W) before sources :
  Forall (loadable (fs_open c.(world))) before ->
  exists ss, forall after, CompactFiles.load_sources (before ++ after) sources c = CompactFiles.load_sources after ss c.
Proof.
  intros Hb. revert sources. induction Hb as [|path before (file & a & Hf & Ha) _ IH]; intros sources; [by exists sources|].
  destruct (IH (sources ++ [a])) as [ss Hss]. exists ss. intros after. cbn [app].
  by rewrite load_sources_step, Hf, Ha.
Qed.

Lemma load_sources_stops (c : Console W) path after :
  ~ loadable (fs_open c.(world)) path ->
  (exists l, refused (fs_open c.(world)) path l /\
     forall ss, CompactFiles.load_sources (path :: after) ss c = (eprint c l, Exit 1)) \/
  (exists file, fs_open c.(world) path = inr file /\ load_arena_source (disk_file file) = Panic /\
     forall ss, CompactFiles.load_sources (path :: after) ss c = (c, Crash)).
Proof.
  intros Hn. pose proof (load_sources_step c path after) as Hstep.
  destruct (fs_open c.(world) path) as [e|file] eqn:Hf; [left; eexists; split; [by apply refused_open|done]|].
  pose proof (load_arena_source_ends (disk_file file) (disk_reads_end _ _ _ (open_file_ok _ _ _ Hf))) as He.
  destruct (load_arena_source (disk_file file)) as [a|e| |] eqn:Hl; [|left|right|done].
  - exfalso. apply Hn. by exists file, a.
  - eexists. split; [by eapply refused_load|done].
  - by exists file.
Qed.

(** A load that stops ends the run. *)
Lemma compact_files_stops (c c' : Console W) args ingest args' out before path after q :
  CompactFiles.for_ingest_flag args = (ingest, args') ->
  requested (fs_open c.(world)) args' out (before ++ path :: after) ->
  Forall (loadable (fs_open c.(world))) before ->
  (forall ss, CompactFiles.load_sources (path :: after) ss c = (c', q)) ->
  (q = Exit 1 -> CompactFiles.run args c = (c', Exit 1)) /\ (q = Crash -> CompactFiles.run args c = (c', Crash)).
Proof.
  intros Hflag Hreq Hb Hl. destruct (requested_ok c args' out _ Hreq) as (Hlen & Hout & Hin).
  destruct (load_sources_prefix c before [] Hb) as [ss Hss]. specialize (Hss (path :: after)). rewrite Hl in Hss.
  unfold CompactFiles.run. rewrite Hflag. unfold CompactFiles.prepare. rewrite Hlen.
  unfold mbind, tool_bind. rewrite (pure_Ok _ out c Hout), Hin, Hss. by split; intros ->.
Qed.

Lemma options_ok for_ingest : opts_ok (CompactFiles.options for_ingest).(sst_builder).
Proof. split; split; vm_compute; discriminate || reflexivity. Qed.
End CompactFilesLemmas.

(** ** A run of [compact_files] *)

(** [file] is a compaction of the runs [ess], with entries [es]: each user key
    once, in order, puts only, every read up to [snap] as in a merge of the
    inputs, and no entries but those that read. *)
Definition compacted `{ChecksumLib} `{CompressLib} `{Profile} (snap : Z) (ess : list (list entry))
    (file : bytes) (es : list entry) : Prop :=
  loads_as file es /\ StronglySorted (clt user_cmp) es /\ Forall is_value es /\
  exists merged, merged ≡ₚ concat ess /\ StronglySorted (cle (on_key ikey_cmp)) merged /\
    forall uk, read uk snap es = read uk snap merged /\
      forall v, (exists e, e ∈ es /\ ikey_user e.1 = uk /\ e.2 = v) <-> read uk snap merged = Some v.

(** Entries with internal keys, in internal-key order. *)
Definition sorted_run (es : list entry) : Prop :=
  Forall (fun e => ikey_valid e.1) es /\ StronglySorted (cle (on_key ikey_cmp)) es.

Section CompactFilesRun.
Context `{ChecksumLib} `{CompressLib} `{Profile} {W : Type} `{FileSystem W}.

Lemma sources_sorted ss ess :
  Forall arena_ok ss -> window <$> ss = ess -> Forall sorted_run ess -> Forall source_sorted ss.
Proof.
  intros Hok <- Hr. apply Forall_fmap in Hr. induction Hok as [|s ss Hs _ IH]; constructor.
  - inversion Hr as [|? ? [Hv Hso] _]. by split.
  - apply IH. by inversion Hr.
Qed.

Lemma compact_files_run (c : Console W) args ingest args' out paths ess snap :
  CompactFiles.for_ingest_flag args = (ingest, args') -> requested (fs_open c.(world)) args' out paths ->
  Forall2 (holds_table (fs_open c.(world))) paths ess -> Forall sorted_run ess ->
  fits (concat ess) -> Forall plain (concat ess) -> Forall (visible snap) (concat ess) ->
  exists file es, compacted snap ess file es /\ table_of file es /\
    Forall (fun e => ikey_valid e.1) es /\ len es <= len (concat ess) /\
    CompactFiles.run args c =
      match fs_write c.(world) out file with
      | (inr _, w) => ({| world := w; stdout := c.(stdout) ++
                         [Line "wrote {} bytes to {} from {} input SSTs" [Num (len file); Text out; Num (len paths)]];
                         stderr := c.(stderr) |}, Go tt)
      | (inl e, w) => ({| world := w; stdout := c.(stdout);
                         stderr := c.(stderr) ++ [Line "failed to write {}: {}" [Text out; Cause e]] |}, Exit 1)
      end.
Proof.
  intros Hflag Hreq Htab Hrun Hfit Hplain Hvis. destruct (requested_ok c args' out paths Hreq) as (Hlen & Hout & Hin).
  destruct (load_sources_ok c paths ess [] Htab (proj2 Hfit)) as (ss & Hload & Hok & Hwin).
  assert (inputs ss = concat ess) as Hinp by (unfold inputs; by rewrite Hwin).
  pose proof (sources_sorted ss ess Hok Hwin Hrun) as Hss.
  destruct (compact_reads ss (CompactFiles.options ingest)) as
    (file & merged & es & Hc & Ht & Hl & Hp & Hm & Hsub & Hu & _ & Hr); [done|by rewrite Hinp|apply options_ok|].
  rewrite Hinp in Hp, Hr. destruct (Hr Hplain) as [Hval Hread].
  exists file, (table_entries (CompactFiles.options ingest).(sst_builder) es).
  split.
  { split_and!; [done..|]. exists merged. split_and!; [done..|]. intros uk. split; [by apply Hread|]. intros v.
    rewrite <- Hread by done. symmetry. apply read_values; [done..|].
    apply table_entries_visible. eapply Forall_sublist; [exact Hsub|]. by rewrite Hp. }
  split; [done|]. split.
  { apply table_entries_valid. eapply Forall_sublist; [exact Hsub|]. rewrite Hp.
    apply Forall_concat. eapply Forall_impl; [exact Hrun|]. by intros ? []. }
  split.
  { unfold len. rewrite table_entries_length, <- Hp. apply sublist_length in Hsub. lia. }
  unfold CompactFiles.run. rewrite Hflag. unfold CompactFiles.prepare. rewrite Hlen.
  rewrite (tool_bind_Go _ _ c c (out, paths, file)).
  - unfold mbind at 1, tool_bind at 1, write_file. by destruct (fs_write c.(world) out file) as [[e|[]] w].
  - rewrite (tool_bind_Go _ _ c c out) by (by apply pure_Ok). rewrite (tool_bind_Go _ _ c c paths) by done.
    rewrite (tool_bind_Go _ _ c c ss) by done. cbv zeta.
    by rewrite (tool_bind_Go _ _ c c file) by (by apply or_die_Ok).
Qed.
End CompactFilesRun.

(** ** A run of [compactor] *)

(** The line [--dump-all] prints for an entry. *)
Definition dump_line (e : entry) : line :=
  if bool_decide (ikey_valid e.1)
  then Line "{} ==> {}" [Text (from_utf8_lossy (ikey_user e.1)); Text (from_utf8_lossy e.2)]
  else Line "  <bad internal key: {}>" [Cause (Msg "internal key shorter than 8-byte seq/type suffix" [])].

(** The line of the summary for an entry with an internal key. *)
Definition summary_line (e : entry) : line :=
  Line "  user_key={:?} seq={} type={:?} value_len={}"
    [Quoted (from_utf8_lossy (ikey_user e.1)); Num (ikey_seq e.1); Type_ (ikey_type e.1); Num (len e.2)].

Definition more_line (n : Z) : list line := if 20 <? n then [Line "  ... ({} more)" [Num (n - 20)]] else [].

Section CompactorLemmas.
Context `{ChecksumLib} `{CompressLib} `{Profile} {W : Type} `{FileSystem W}.

(** [c] after [ls] was printed. *)
Definition printed_all (c : Console W) (ls : list line) : Console W :=
  {| world := c.(world); stdout := c.(stdout) ++ ls; stderr := c.(stderr) |}.

Lemma printed_all_nil c : printed_all c [] = c.
Proof. unfold printed_all. rewrite app_nil_r. by destruct c. Qed.
Lemma printed_all_cons c l ls : printed_all (print c l) ls = printed_all c (l :: ls).
Proof. unfold printed_all, print. cbn. by rewrite <- (assoc_L (++)). Qed.

Lemma dump_visits es (st : Compactor.DumpState) :
  0 <= st.(Compactor.count) -> st.(Compactor.count) + len es < 2 ^ 64 ->
  visit_entries (Compactor.visit_entry true) es st =
    ({| Compactor.console := printed_all st.(Compactor.console) (dump_line <$> es);
        Compactor.count := st.(Compactor.count) + len es; Compactor.printed := st.(Compactor.printed) |}, Ok tt).
Proof.
  revert st. induction es as [|[k v] es IH]; intros [c n p] Hn Hl; cbn in Hn; cbn [Compactor.count] in Hl.
  { cbn. rewrite printed_all_nil. do 2 f_equal. len_lia. }
  assert (Compactor.visit_entry true k v {| Compactor.console := c; Compactor.count := n; Compactor.printed := p |} =
    ({| Compactor.console := print c (dump_line (k, v)); Compactor.count := n + 1; Compactor.printed := p |}, Ok tt)) as Hv.
  { unfold Compactor.visit_entry, dump_line. cbn [Compactor.count Compactor.console Compactor.printed fst snd].
    rewrite add_u64_ok by len_lia. case_bool_decide as Hk; [by rewrite split_ok|].
    by rewrite split_short. }
  cbn [visit_entries fst snd]. rewrite Hv, IH; cbn [Compactor.count Compactor.console Compactor.printed]; [|len_lia..].
  rewrite printed_all_cons. do 2 f_equal. len_lia.
Qed.

Lemma summary_visits es (st : Compactor.DumpState) :
  Forall (fun e => ikey_valid e.1) es -> 0 <= st.(Compactor.count) -> st.(Compactor.count) + len es < 2 ^ 64 ->
  0 <= st.(Compactor.printed) <= 20 ->
  visit_entries (Compactor.visit_entry false) es st =
    ({| Compactor.console := printed_all st.(Compactor.console)
          (summary_line <$> take (Z.to_nat (20 - st.(Compactor.printed))) es);
        Compactor.count := st.(Compactor.count) + len es;
        Compactor.printed := Z.min 20 (st.(Compactor.printed) + len es) |}, Ok tt).
Proof.
  intros Hv. revert st. induction Hv as [|[k v] es Hk _ IH]; intros [c n p] Hn Hl Hp;
    cbn [Compactor.count Compactor.console Compactor.printed fst] in *.
  { cbn. rewrite take_nil. cbn. rewrite printed_all_nil. do 2 f_equal; len_lia. }
  cbn [visit_entries fst snd]. unfold Compactor.visit_entry at 1.
  cbn [Compactor.count Compactor.console Compactor.printed]. rewrite add_u64_ok, split_ok by (done || len_lia).
  destruct (Z.ltb_spec p 20) as [Hlt|Hge].
  - rewrite IH; cbn [Compactor.count Compactor.console Compactor.printed]; [|len_lia..].
    replace (Z.to_nat (20 - p)) with (S (Z.to_nat (20 - (p + 1)))) by lia.
    cbn [take fmap list_fmap]. rewrite printed_all_cons. do 2 f_equal; len_lia.
  - rewrite IH; cbn [Compactor.count Compactor.console Compactor.printed]; [|len_lia..].
    replace (Z.to_nat (20 - p)) with O by lia. do 2 f_equal; len_lia.
Qed.

(** What the tool prints of the entries it visits, and of a whole table. *)
Definition visited (dump_all : bool) (es : list entry) : list line :=
  if dump_all then dump_line <$> es else summary_line <$> take 20 es.
Definition header_lines (dump_all : bool) (ft : Footer) : list line := if dump_all then [] else [Compactor.header ft].
Definition report (dump_all : bool) (ft : Footer) (es : list entry) : list line :=
  header_lines dump_all ft ++ visited dump_all es ++
    if dump_all then [] else Line "total entries: {}" [Num (len es)] :: more_line (len es).

Lemma printed_all_app c ls ls' : printed_all (printed_all c ls) ls' = printed_all c (ls ++ ls').
Proof. unfold printed_all. cbn. by rewrite <- (assoc_L (++)). Qed.

(** A walk that visits [es] and then ends in [result]. *)
Definition walks_as {R} `{FileReader R} (sst : SstReader R) (es : list entry) (result : outcome unit) : Prop :=
  forall St (f : bytes -> bytes -> St -> St * outcome unit) st,
    SstReader.for_each_entry sst f st =
      match visit_entries f es st with
      | (st, Ok _) => (st, result)
      | r => r
      end.

Lemma walk_visited {R} `{FileReader R} (sst : SstReader R) dump_all es result c :
  walks_as sst es result -> Forall (fun e => ikey_valid e.1) es -> len es < 2 ^ 64 ->
  Compactor.walk sst dump_all c =
    let c := printed_all c (visited dump_all es) in
    match result with
    | Ok _ => (c, Go (len es, if dump_all then 0 else Z.min 20 (len es)))
    | Err e => die (Line "failed to iterate entries: {}" [Cause e]) c
    | Panic => (c, Crash)
    | OutOfFuel => (c, Unfinished)
    end.
Proof.
  intros Hw Hv Hl. unfold Compactor.walk, visited. rewrite Hw. pose proof (len_nonneg es). destruct dump_all.
  - rewrite dump_visits by (cbn [Compactor.count]; lia). by destruct result.
  - rewrite summary_visits by (done || cbn [Compactor.count Compactor.printed]; lia). by destruct result.
Qed.

Lemma compactor_run (c : Console W) args path file sst es result :
  get_at args 1 = Some path -> fs_open c.(world) path = inr file -> SstReader.open (disk_file file) = Ok sst ->
  walks_as sst es result -> Forall (fun e => ikey_valid e.1) es -> len es < 2 ^ 64 ->
  let dump_all := bool_decide (get_at args 2 = Some (str "--dump-all")) in
  let c' := printed_all c (header_lines dump_all sst.(sr_footer) ++ visited dump_all es) in
  Compactor.run args c =
    match result with
    | Ok _ => (printed_all c (report dump_all sst.(sr_footer) es), Go tt)
    | Err e => (eprint c' (Line "failed to iterate entries: {}" [Cause e]), Exit 1)
    | Panic => (c', Crash)
    | OutOfFuel => (c', Unfinished)
    end.
Proof.
  intros Hpath Hopen Ho Hw Hv Hlen dump_all c'. unfold Compactor.run. rewrite Hpath.
  rewrite (tool_bind_Go _ _ c c (fs_open c.(world))) by done.
  rewrite (tool_bind_Go _ _ c c (disk_file file)) by (by apply or_die_Ok, open_file_ok).
  rewrite (tool_bind_Go _ _ c c sst) by (by apply or_die_Ok). cbv zeta. fold dump_all.
  set (c1 := printed_all c (header_lines dump_all sst.(sr_footer))).
  rewrite (tool_bind_Go _ _ c c1 tt) by (unfold c1; destruct dump_all; by rewrite ?printed_all_nil).
  unfold mbind at 1, tool_bind at 1. rewrite (walk_visited sst dump_all es result c1) by done. cbv zeta.
  unfold c1. rewrite printed_all_app. fold c'. destruct result; [|done..].
  unfold report. rewrite (assoc_L (++)), <- printed_all_app. fold c'. destruct dump_all; [by rewrite printed_all_nil|].
  pose proof (len_nonneg es). set (c3 := print c' (Line "total entries: {}" [Num (len es)])).
  rewrite (tool_bind_Go _ _ c' c3 tt) by done. unfold more_line. destruct (Z.ltb_spec 20 (len es)).
  - replace (Z.min 20 (len es) <? len es) with true by lia.
    rewrite (tool_bind_Go _ _ _ _ (len es - 20)) by (apply pure_Ok; rewrite sub_u64_ok by lia; f_equal; lia).
    rewrite <- printed_all_cons. done.
  - replace (Z.min 20 (len es) <? len es) with false by lia. by rewrite <- printed_all_cons, printed_all_nil.
Qed.

(** A whole table. *)
Lemma compactor_table (c : Console W) args path file es props ft :
  get_at args 1 = Some path -> fs_open c.(world) path = inr file -> sst_layout file es props ft ->
  Forall (fun e => ikey_valid e.1) es -> len es < 2 ^ 64 ->
  Compactor.run args c =
    (printed_all c (report (bool_decide (get_at args 2 = Some (str "--dump-all"))) ft es), Go tt).
Proof.
  intros Hpath Hopen Ht Hv Hlen. destruct (open_disk_table file es props ft Ht) as (sst & Ho & <- & Hwalk).
  apply (compactor_run c args path file sst es (Ok tt)); try done. intros St f st. rewrite Hwalk.
  by destruct (visit_entries f es st) as [st' [[]| | |]].
Qed.
End CompactorLemmas.

(** ** Properties *)

Section ToolProperties.
Context `{ChecksumLib} `{CompressLib} `{Profile} {W : Type} `{FileSystemLaws W}.

(** C24: However they end, the tools leave a usable system behind, and they
    always end. [compact_files]: a normal end has written the output file and
    printed one line; giving up has status 1, one line on [stderr], nothing on
    [stdout], and the file system untouched unless the write itself failed; a
    panic comes before anything was written or printed. [compactor] never
    changes the file system, and writes to [stderr] only the line it gives up
    with, at status 1. *)
Theorem tools_end (c : Console W) args :
  (let '(c', r) := CompactFiles.run args c in
   match r with
   | Go _ => exists path data l, fs_write c.(world) path data = (inr tt, c'.(world)) /\
       c'.(stdout) = c.(stdout) ++ [l] /\ c'.(stderr) = c.(stderr)
   | Exit code => code = 1 /\ (exists l, c'.(stderr) = c.(stderr) ++ [l]) /\ c'.(stdout) = c.(stdout) /\
       (c'.(world) = c.(world) \/ exists path data e, fs_write c.(world) path data = (inl e, c'.(world)))
   | Crash => c' = c
   | Unfinished => False
   end) /\
  (let '(c', r) := Compactor.run args c in
   c'.(world) = c.(world) /\
   match r with
   | Go _ | Crash => c'.(stderr) = c.(stderr)
   | Exit code => code = 1 /\ exists l, c'.(stderr) = c.(stderr) ++ [l]
   | Unfinished => False
   end).
Proof.
  split; [|exact (compactor_read_only args c)].
  unfold CompactFiles.run. destruct (CompactFiles.for_ingest_flag args) as [ingest args'].
  pose proof (prepare_finishes ingest args' c) as Hfin. set (f := fun x : bytes * list bytes * bytes => _).
  destruct (after_quiet (CompactFiles.prepare ingest args') f c (prepare_quiet _ _))
    as [([[out paths] file] & _ & ->)|[->|[Hun|(c1 & -> & _ & l & ->)]]].
  - unfold f, mbind at 1, tool_bind at 1, write_file. destruct (fs_write c.(world) out file) as [[e|[]] w] eqn:Hw;
      cbn [die println print eprint world stdout stderr].
    + split_and!; [done|by eexists|done|]. right. by exists out, file, e.
    + exists out, file. eexists. split_and!; done.
  - done.
  - by unfold finishes in Hfin; rewrite Hun in Hfin.
  - cbn [eprint world stdout stderr]. split_and!; [done|by exists l|done|by left].
Qed.

(** C28: [compactor] on a table file: with [--dump-all] it prints a line for
    every entry, in order; otherwise the footer, the first twenty entries, the
    number of entries and how many were left out. *)
Theorem compactor_prints (c : Console W) args path file es props ft :
  get_at args 1 = Some path -> fs_open c.(world) path = inr file -> sst_layout file es props ft ->
  Forall (fun e => ikey_valid e.1) es -> len es < 2 ^ 64 ->
  Compactor.run args c =
    ({| world := c.(world); stderr := c.(stderr);
        stdout := c.(stdout) ++ report (bool_decide (get_at args 2 = Some (str "--dump-all"))) ft es |}, Go tt).
Proof. apply compactor_table. Qed.

(** C10: The two tools together, the way the logical-equivalence test uses
    them: [compact_files] on table files whose runs fit one table - named on
    the command line or in a list file, with or without [--for-ingest] - ends
    normally when its write succeeds, and the output file holds a compaction
    of the inputs; dumping that file prints one line per user key that reads
    as a value in the inputs - the key and that value - and nothing else.  The
    inputs hold puts, deletions and single deletions: range deletions and
    merge operands would be printed as if they were values. *)
Theorem compact_then_dump (c : Console W) args ingest args' prog out paths ess snap :
  CompactFiles.for_ingest_flag args = (ingest, args') -> requested (fs_open c.(world)) args' out paths ->
  Forall2 (holds_table (fs_open c.(world))) paths ess -> Forall sorted_run ess ->
  fits (concat ess) -> Forall plain (concat ess) -> Forall (visible snap) (concat ess) ->
  plain_file c.(world) out -> (forall data, fst (fs_write c.(world) out data) = inr tt) ->
  exists c1 c2 file es, CompactFiles.run args c = (c1, Go tt) /\
    fs_open c1.(world) out = inr file /\ compacted snap ess file es /\ c1.(stderr) = c.(stderr) /\
    c1.(stdout) = c.(stdout) ++
      [Line "wrote {} bytes to {} from {} input SSTs" [Num (len file); Text out; Num (len paths)]] /\
    Compactor.run [prog; out; str "--dump-all"] c1 = (c2, Go tt) /\ c2.(world) = c1.(world) /\
    c2.(stdout) = c1.(stdout) ++
      ((fun e => Line "{} ==> {}" [Text (from_utf8_lossy (ikey_user e.1)); Text (from_utf8_lossy e.2)]) <$> es).
Proof.
  intros Hflag Hreq Htab Hrun Hfit Hpl Hvis Hplain Hwrite.
  destruct (compact_files_run c args ingest args' out paths ess snap) as (file & es & Hc & Ht & Hv & Hlen & ->); [done..|].
  specialize (Hwrite file). destruct (fs_write c.(world) out file) as [r w] eqn:Hw. cbn in Hwrite. subst r.
  set (c1 := {| world := w |}). assert (fs_open c1.(world) out = inr file) as Hout by (by eapply fs_write_open).
  destruct Ht as (props & ft & Ht).
  assert (Compactor.run [prog; out; str "--dump-all"] c1 = (printed_all c1 (report true ft es), Go tt)) as Hd.
  { apply (compactor_table c1 [prog; out; str "--dump-all"] out file es props ft); try done.
    pose proof (sst_weight_ge (concat ess)). pose proof (block_weight_nonneg (concat ess)). destruct Hfit. lia. }
  exists c1. eexists _, file, es. split_and!; [done|exact Hout|done..|exact Hd|done|].
    cbn [stdout printed_all report header_lines visited app]. rewrite app_nil_r. f_equal.
    apply list_fmap_ext. intros i e He. unfold dump_line. rewrite bool_decide_true; [done|].
    eapply (Forall_lookup_1 _ _ _ _ Hv He).
Qed.

(** C26: The first input that cannot be read decides how [compact_files] ends,
    whatever the other inputs are: a file that does not open, or that loading
    refuses with an error, is named with that error on [stderr], with status 1;
    only a panic inside the loader ends the run in a panic.  Nothing is
    compacted, printed or written. *)
Theorem bad_input_reported (c : Console W) args ingest args' out before path after :
  CompactFiles.for_ingest_flag args = (ingest, args') ->
  requested (fs_open c.(world)) args' out (before ++ path :: after) ->
  Forall (loadable (fs_open c.(world))) before -> ~ loadable (fs_open c.(world)) path ->
  (exists l, refused (fs_open c.(world)) path l /\ CompactFiles.run args c = (eprint c l, Exit 1)) \/
  (exists file, fs_open c.(world) path = inr file /\ load_arena_source (disk_file file) = Panic /\
     CompactFiles.run args c = (c, Crash)).
Proof.
  intros Hflag Hreq Hb Hn.
  destruct (load_sources_stops c path after Hn) as [(l & Hr & Hl)|(file & Hf & Hp & Hl)];
    destruct (compact_files_stops c _ args ingest args' out before path after _ Hflag Hreq Hb Hl) as [Hex Hcr]; [left|right].
  - exists l. split; [done|by apply Hex].
  - exists file. split_and!; [done|done|by apply Hcr].
Qed.
End ToolProperties.

(** ** Two files, compacted and dumped *)

#[local] Instance dev_profile : Profile := true.

(** Files by path; every write succeeds. *)
#[local] Instance disk : FileSystem (gmap bytes bytes) := {
  fs_open w path := match w !! path with Some file => inr file | None => inl (Msg "No such file or directory" []) end;
  fs_write w path data := (inr tt, <[path := data]> w)
}.
#[local] Program Instance disk_laws : FileSystemLaws (gmap bytes bytes) := { plain_file _ _ := True }.
Next Obligation. intros w path data w' _ [= <-]. cbn. by rewrite lookup_insert_eq. Qed.

Definition built_table (es : list entry) : bytes :=
  match build_sst es SstBuilderOptions.default with Ok file => file | _ => [] end.

Lemma built_table_of es : fits es -> table_of (built_table es) es.
Proof.
  intros [Hs Hw]. destruct (build_sst_ok es SstBuilderOptions.default) as (file & props & ft & Hb & Hl & _); [done|done|exact toy_options_ok|done|].
  unfold built_table. rewrite Hb. by exists props, ft.
Qed.

Definition toy_console : Console (gmap bytes bytes) :=
  {| world := <[str "new.sst" := built_table toy_newer]> {[str "old.sst" := built_table toy_older]};
     stdout := []; stderr := [] |}.

Lemma toy_holds :
  Forall2 (holds_table (fs_open toy_console.(world))) [str "new.sst"; str "old.sst"] toy_runs.
Proof.
  constructor; [|constructor; [|constructor]]; eexists; (split; [reflexivity|]); apply built_table_of; fits_concrete.
Qed.

Lemma toy_sorted_runs : Forall sorted_run toy_runs.
Proof. exact toy_runs_ok. Qed.

Definition toy_args : list bytes := [str "compact_files"; str "out.sst"; str "new.sst"; str "--for-ingest"; str "old.sst"].

Lemma toy_visible : Forall (visible 100) (concat toy_runs).
Proof. repeat constructor; vm_compute; discriminate. Qed.

Lemma compactor_prints_witness :
  exists props ft, sst_layout (built_table toy_older) toy_older props ft /\
    Compactor.run [str "compactor"; str "old.sst"] toy_console =
      ({| world := toy_console.(world); stderr := []; stdout := [] ++ report false ft toy_older |}, Go tt).
Proof.
  destruct (built_table_of toy_older ltac:(fits_concrete)) as (props & ft & Ht).
  exists props, ft. split; [exact Ht|].
  apply (compactor_prints toy_console [str "compactor"; str "old.sst"] (str "old.sst") (built_table toy_older) toy_older props ft).
  - reflexivity.
  - reflexivity.
  - exact Ht.
  - repeat constructor; vm_compute; discriminate.
  - reflexivity.
Defined.

Lemma compact_then_dump_witness :
  exists c1 c2 file es, CompactFiles.run toy_args toy_console = (c1, Go tt) /\
    fs_open c1.(world) (str "out.sst") = inr file /\ compacted 100 toy_runs file es /\ c1.(stderr) = [] /\
    c1.(stdout) = [] ++
      [Line "wrote {} bytes to {} from {} input SSTs" [Num (len file); Text (str "out.sst"); Num 2]] /\
    Compactor.run [str "compactor"; str "out.sst"; str "--dump-all"] c1 = (c2, Go tt) /\ c2.(world) = c1.(world) /\
    c2.(stdout) = c1.(stdout) ++
      ((fun e => Line "{} ==> {}" [Text (from_utf8_lossy (ikey_user e.1)); Text (from_utf8_lossy e.2)]) <$> es).
Proof.
  apply (compact_then_dump toy_console toy_args true [str "compact_files"; str "out.sst"; str "new.sst"; str "old.sst"]
    (str "compactor") (str "out.sst") [str "new.sst"; str "old.sst"] toy_runs 100).
  - reflexivity.
  - apply on_command_line. discriminate.
  - exact toy_holds.
  - exact toy_sorted_runs.
  - exact toy_runs_fit.
  - exact toy_plain.
  - exact toy_visible.
  - exact I.
  - reflexivity.
Defined.

(** A third input, whose footer is cut off in its magic number. *)
Definition damaged_console : Console (gmap bytes bytes) :=
  {| world := <[str "bad.sst" := replicate 60 Byte.x00]> toy_console.(world); stdout := []; stderr := [] |}.

Definition damaged_args : list bytes := [str "compact_files"; str "out.sst"; str "new.sst"; str "bad.sst"; str "missing.sst"].

Lemma bad_input_reported_witness :
  exists l, CompactFiles.run damaged_args damaged_console = (eprint damaged_console l, Exit 1).
Proof.
  assert (load_arena_source (disk_file (replicate 60 Byte.x00)) =
    Err (Msg "unsupported/unknown table magic number: 0x{:016x} (only block-based tables supported)" [0])) as Hbad
    by (vm_compute; reflexivity).
  assert (forall file, fs_open damaged_console.(world) (str "bad.sst") = inr file -> file = replicate 60 Byte.x00) as Hfile
    by (intros file Hf; by injection Hf).
  destruct (bad_input_reported damaged_console damaged_args false damaged_args (str "out.sst") [str "new.sst"]
    (str "bad.sst") [str "missing.sst"]) as [(l & _ & Hl)|(file & Hf & Hp & _)].
  - reflexivity.
  - apply on_command_line. discriminate.
  - constructor; [|constructor]. exists (built_table toy_newer).
    destruct (load_disk_table (built_table toy_newer) toy_newer) as (a & Ha & _);
      [apply built_table_of; fits_concrete|reflexivity|]. exists a. split; [reflexivity|exact Ha].
  - intros (file & a & ->%Hfile & Ha). rewrite Hbad in Ha. discriminate Ha.
  - exists l. exact Hl.
  - apply Hfile in Hf as ->. rewrite Hbad in Hp. discriminate Hp.
Defined.

(** The inputs named in a list file, with blank lines around them. *)
Example toy_list_file :
  (CompactFiles.input_paths [str "compact_files"; str "out.sst"; str "--list"; str "list"]
    {| world := {[str "list" := str " new.sst" ++ [LF; LF] ++ str "old.sst " ++ [CR; LF]]} : gmap bytes bytes; stdout := []; stderr := [] |}).2 =
    Go [str "new.sst"; str "old.sst"].
Proof. vm_compute. reflexivity. Qed.
