(* ===== verification/Damage.v ===== *)
(** Damaged tables: what the readers of [sst/mod.rs] and [compaction/mod.rs]
    and the command line tools do with a built table one of whose blocks was
    overwritten, depending on the block. *)

From S2P Require Import Prelude Checksum Footer Block BlockBuilders Properties SstBuilder FileReader SstReader Source Loader.
From S2P Require Import InternalKey Sharding EndToEnd Text Console Tools.

(** [file'] is [file] with the bytes of the block at [h], trailer included,
    replaced by [new]. *)
Definition damaged (file file' : bytes) (h : BlockHandle) (new : bytes) : Prop :=
  exists p old s, file = p ++ old ++ s /\ file' = p ++ new ++ s /\ len p = h.(offset) /\
    len old = h.(size) + BLOCK_TRAILER_SIZE /\ len new = len old.

(** Two blocks that do not overlap. *)
Definition apart (h h' : BlockHandle) : Prop :=
  h'.(offset) + h'.(size) + BLOCK_TRAILER_SIZE <= h.(offset) \/
  h.(offset) + h.(size) + BLOCK_TRAILER_SIZE <= h'.(offset).

Lemma get_range_before {A} (p s : list A) a b x :
  get_range (p ++ s) a b = Some x -> b <= len p -> get_range p a b = Some x.
Proof.
  intros Hg Hb. destruct (get_range p a b) as [y|] eqn:E.
  - apply (get_range_extend _ s) in E. congruence.
  - apply get_range_None in E. exfalso. apply E.
    apply get_range_Some in Hg as (q & t & _ & -> & ->). len_lia.
Qed.

(** Bytes outside the replaced piece are read as before. *)
Lemma get_range_other {A} (p old new s : list A) a b x :
  len new = len old -> get_range (p ++ old ++ s) a b = Some x -> b <= len p \/ len p + len old <= a ->
  get_range (p ++ new ++ s) a b = Some x.
Proof.
  intros Hn Hg [Hb|Ha].
  - apply get_range_extend. by eapply get_range_before.
  - assert (a <= b) as Hab by (apply get_range_Some in Hg as (q & t & _ & -> & ->); len_lia).
    rewrite (assoc_L (++)) in Hg |- *. rewrite get_range_skip in Hg |- * by len_lia.
    by rewrite len_app, Hn, <- len_app.
Qed.

Section Damage.
Context `{ChecksumLib} `{CompressLib} `{Profile}.

Lemma damaged_len file file' h new : damaged file file' h new -> len file' = len file.
Proof. intros (p & old & s & -> & -> & _ & _ & Hn). len_lia. Qed.

Lemma damaged_range file file' h new a b x :
  damaged file file' h new -> get_range file a b = Some x ->
  b <= h.(offset) \/ h.(offset) + h.(size) + BLOCK_TRAILER_SIZE <= a -> get_range file' a b = Some x.
Proof.
  intros (p & old & s & -> & -> & Hp & Ho & Hn) Hg Hab. eapply get_range_other; [done|exact Hg|]. lia.
Qed.

Lemma damaged_block file file' h new :
  damaged file file' h new ->
  get_range file' h.(offset) (h.(offset) + h.(size) + BLOCK_TRAILER_SIZE) = Some new.
Proof. intros (p & old & s & -> & -> & Hp & Ho & Hn). apply get_range_app; lia. Qed.

(** *** What stays *)

Lemma block_at_apart ty base file file' h new h' raw :
  damaged file file' h new -> apart h h' -> block_at ty base file h' raw -> block_at ty base file' h' raw.
Proof. intros Hd Ha (Hg & Hs & Hok). split; [|done]. by eapply damaged_range. Qed.

Lemma entry_block_apart ty base file file' h new h' es :
  damaged file file' h new -> apart h h' -> entry_block ty base file h' es -> entry_block ty base file' h' es.
Proof. intros Hd Ha (raw & pb & Hb & Hp). exists raw, pb. split; [|done]. by eapply block_at_apart. Qed.

Lemma index_block_apart ty base file file' h new h' hs :
  damaged file file' h new -> apart h h' -> index_block ty base file h' hs -> index_block ty base file' h' hs.
Proof. intros Hd Ha (raw & pb & Hb & Hp). exists raw, pb. split; [|done]. by eapply block_at_apart. Qed.

Lemma data_blocks_apart ty base file file' h new hs ess :
  damaged file file' h new -> Forall (apart h) hs.*2 ->
  Forall2 (data_block ty base file) hs ess -> Forall2 (data_block ty base file') hs ess.
Proof.
  intros Hd Ha Hf. induction Hf as [|[k h'] es hs ess [Hb Hl] _ IH]; [done|].
  cbn [fmap list_fmap snd] in Ha. apply Forall_cons in Ha as [Ha Has]. constructor; [|by apply IH].
  split; [by eapply entry_block_apart|done].
Qed.

Lemma frame_apart file file' h new ft ih ph hs :
  damaged file file' h new -> apart h ih -> apart h ft.(metaindex_handle) ->
  h.(offset) + h.(size) + BLOCK_TRAILER_SIZE <= len file - FOOTER_TAIL_LEN ->
  sst_frame file ft ih ph hs -> sst_frame file' ft ih ph hs.
Proof.
  intros Hd Hi Hm Hf [Hsize (tail & Ht & Hft) Hni Hmeta Hidx Hph]. pose proof (damaged_len _ _ _ _ Hd) as Hl.
  constructor; rewrite ?Hl; try done.
  - exists tail. split; [|done]. eapply damaged_range; [done|exact Ht|by right].
  - by eapply entry_block_apart.
  - by eapply index_block_apart.
Qed.
End Damage.

(** *** The damaged block *)

Section Reading.
Context `{ChecksumLib} `{CompressLib} `{Profile} {R : Type} `{FileReaderLaws R}.

Lemma visit_blocks_app {St} (sst : SstReader R) (f : bytes -> bytes -> St -> St * outcome unit) hs1 hs2 st :
  visit_blocks sst f (hs1 ++ hs2) st =
    match visit_blocks sst f hs1 st with
    | (st, Ok _) => visit_blocks sst f hs2 st
    | r => r
    end.
Proof.
  revert st. induction hs1 as [|h hs1 IH]; intros st; cbn [app visit_blocks]; [done|].
  destruct (_ ≫= _) as [pb| | |]; try done. by destruct (Block.for_each_entry pb f st) as [st' [| | |]].
Qed.

(** Both readers hand the new bytes to [decode_block_contents]. *)
Lemma read_damaged (r : R) file h new ft :
  damaged file (file_content r) h new -> handle_ok h -> len (file_content r) < 2 ^ 63 ->
  read_block_contents r h ft.(checksum_type) ft.(base_context_checksum) =
    decode_block_contents new h ft.(checksum_type) ft.(base_context_checksum) /\
  decode_block_in_memory (file_content r) ft h =
    decode_block_contents new h ft.(checksum_type) ft.(base_context_checksum).
Proof.
  intros Hd [Ho Hs] Hl. pose proof (damaged_block _ _ _ _ Hd) as Hg. rewrite <- Z.add_assoc in Hg.
  pose proof Hg as Hb. apply get_range_Some in Hb as (p & s & Hc & Hp & Hb). rewrite Hc in Hl.
  assert (len p + len new < 2 ^ 63) as Hb' by len_lia. unfold BLOCK_TRAILER_SIZE in *.
  unfold read_block_contents, decode_block_in_memory, block_read_len. unfold BLOCK_TRAILER_SIZE. cbv zeta.
  rewrite add_u64_ok, !bind_Ok by lia. split.
  - by rewrite (proj2 (read_at_content r h.(offset) (h.(size) + 5) new ltac:(lia)) Hg).
  - rewrite add_u64_ok, bind_Ok by lia. by rewrite Hg.
Qed.

(** The walk over blocks the first of which that fails is [h]. *)
Lemma visit_blocks_stop {St} (sst : SstReader R) (f : bytes -> bytes -> St -> St * outcome unit) hs ess h rest e st :
  let ft := sst.(sr_footer) in
  Forall2 (data_block ft.(checksum_type) ft.(base_context_checksum) (file_content sst.(sr_reader))) hs ess ->
  len (file_content sst.(sr_reader)) < 2 ^ 63 ->
  read_block_contents sst.(sr_reader) h ft.(checksum_type) ft.(base_context_checksum) = Err e ->
  visit_blocks sst f (hs.*2 ++ h :: rest) st =
    match visit_entries f (concat ess) st with
    | (st, Ok _) => (st, Err e)
    | r => r
    end.
Proof.
  intros ft Hf Hl He. rewrite visit_blocks_app, (visit_blocks_ok sst f hs ess) by done.
  destruct (visit_entries f (concat ess) st) as [st' [| | |]]; try done. cbn [visit_blocks]. fold ft. by rewrite He.
Qed.

Lemma load_blocks_stop (r : R) ft hs ess h rest e b :
  Forall2 (data_block ft.(checksum_type) ft.(base_context_checksum) (file_content r)) hs ess ->
  len (file_content r) < 2 ^ 63 -> decode_block_in_memory (file_content r) ft h = Err e ->
  load_blocks (file_content r) ft (hs.*2 ++ h :: rest) b = Err e.
Proof.
  intros Hf Hl He. revert b. induction Hf as [|[k h'] es hs ess [(raw & pb & Hb & Hp & Hv) _] _ IH]; intros b;
    cbn [fmap list_fmap app snd load_blocks fst] in *; [by rewrite He|].
  rewrite (proj2 (read_block_agree r ft h' raw Hl)), bind_Ok, Hp, bind_Ok by by apply read_block_at.
  rewrite Hv, push_entry_visit. cbn [run_visit]. rewrite bind_Ok. apply IH.
Qed.

(** A block that opening needs. *)
Lemma open_stops (r : R) file h new ft ih ph hs e :
  damaged file (file_content r) h new -> sst_frame file ft ih ph hs ->
  decode_block_contents new h ft.(checksum_type) ft.(base_context_checksum) = Err e ->
  h.(offset) + h.(size) + BLOCK_TRAILER_SIZE <= len file - FOOTER_TAIL_LEN ->
  h = ft.(metaindex_handle) \/ h = ih /\ apart h ft.(metaindex_handle) ->
  open r = Err e /\ load_arena_source r = Err e.
Proof.
  intros Hd [Hsize (tail & Ht & Hft) Hni Hmeta (iraw & ipb & Hib & _) Hph] He Hend Hcase.
  pose proof (damaged_len _ _ _ _ Hd) as Hlen.
  assert (get_range (file_content r) (len file - FOOTER_TAIL_LEN) (len file) = Some tail) as Ht'
    by (eapply damaged_range; [done|exact Ht|by right]).
  rewrite <- Hlen in Ht', Hft. assert (len (file_content r) < 2 ^ 63) as Hl by lia.
  assert (handle_ok h) as Hh.
  { destruct Hcase as [->|[-> _]]; [destruct Hmeta as (? & ? & (_ & _ & ?) & _); done|apply Hib]. }
  destruct (read_damaged r file h new ft Hd Hh Hl) as [Hr Hm].
  unfold open, load_arena_source. cbv zeta. rewrite (proj2 (read_footer_agree r ft Hl)), bind_Ok
    by (exists tail; unfold index_range; by rewrite Ht').
  rewrite read_whole, file_size_content. cbn [read_or]. rewrite bind_Ok, sub_u64_ok, bind_Ok by lia.
  unfold index_range at 1. rewrite Ht'. cbn [unwrap]. rewrite bind_Ok, Hft, bind_Ok.
  destruct Hcase as [->|[-> Ha]]; [by rewrite Hr, Hm, He|].
  destruct (entry_block_apart _ _ _ _ _ _ _ _ Hd Ha Hmeta) as (mraw & mpb & Hmb & Hmp & Hmv).
  rewrite (read_block_at r ft _ mraw Hmb Hl), bind_Ok, Hmp, bind_Ok, Hni.
  rewrite (proj2 (read_block_agree r ft _ mraw Hl)), bind_Ok, Hmp, bind_Ok by by apply read_block_at.
  rewrite find_meta_handles_agree. change (str "rocksdb.index") with INDEX_BLOCK_META_KEY.
  rewrite (find_index_handle mpb ih ph) by (done || apply Hib). cbn [mbind outcome_bind ok_or].
  by rewrite Hr, Hm, He.
Qed.

(** *** A table with one damaged block *)

Section OneBlock.
Context (file : bytes) (es : list entry) (props : PropertiesInput) (ft : Footer) (ih ph : BlockHandle)
  (hs : list (bytes * BlockHandle)) (ess : list (list entry)) (Hblocks : sst_blocks file es props ft ih ph hs ess).

Lemma blocks_handles_ok : Forall handle_ok (hs.*2 ++ [ih; ph; ft.(metaindex_handle)]).
Proof using Hblocks.
  destruct Hblocks as [[_ _ _ (? & ? & (_ & _ & Hm) & _) (? & ? & (_ & _ & Hi) & _) Hp] _ Hd _ _].
  apply Forall_app. split; [|by rewrite !Forall_cons, Forall_nil].
  clear Hblocks. induction Hd as [|[k h] es' hs' ess' [(? & ? & (_ & _ & Hh) & _) _] _ IH]; cbn [fmap list_fmap]; by constructor.
Qed.

Lemma blocks_apart l1 h l2 :
  hs.*2 ++ [ih; ph; ft.(metaindex_handle)] = l1 ++ h :: l2 -> Forall (apart h) (l1 ++ l2).
Proof using Hblocks.
  intros Heq. pose proof blocks_handles_ok as Hok. pose proof (blocks_tiles _ _ _ _ _ _ _ _ Hblocks) as Ht.
  rewrite Heq in Hok, Ht. apply Forall_forall. intros h' Hh'. by eapply tiles_apart.
Qed.

Lemma blocks_end h :
  h ∈ hs.*2 ++ [ih; ph; ft.(metaindex_handle)] ->
  h.(offset) + h.(size) + BLOCK_TRAILER_SIZE <= len file - FOOTER_TAIL_LEN.
Proof using Hblocks.
  intros Hh. eapply tiles_bounds; [by eapply blocks_tiles|apply blocks_handles_ok|done].
Qed.

Context (r : R) (h : BlockHandle) (new : bytes).
Hypothesis Hdamaged : damaged file (file_content r) h new.

Lemma damaged_size : len (file_content r) < 2 ^ 63.
Proof using Hblocks Hdamaged. rewrite (damaged_len _ _ _ _ Hdamaged). apply Hblocks. Qed.

Lemma damaged_props :
  h = ph -> arena_bytes es < 2 ^ 32 ->
  (exists sst, open r = Ok sst /\ forall St (f : bytes -> bytes -> St -> St * outcome unit) st,
     SstReader.for_each_entry sst f st = visit_entries f es st) /\
  exists a, load_arena_source r = Ok a /\ window a = es.
Proof using Hblocks Hdamaged.
  pose proof damaged_size as Hl. intros -> Hb. assert (hs.*2 ++ [ih; ph; ft.(metaindex_handle)] = (hs.*2 ++ [ih]) ++ ph :: [ft.(metaindex_handle)]) as Heq
    by by rewrite <- (assoc_L (++)).
  pose proof (blocks_apart _ ph _ Heq) as Ha. rewrite <- (assoc_L (++)) in Ha. cbn [app] in Ha.
  apply Forall_app in Ha as [Had [Hai [Ham _]%Forall_cons]%Forall_cons].
  pose proof (blocks_end ph ltac:(set_solver)) as Hend.
  destruct Hblocks as [Hfr _ Hd <- _].
  pose proof (data_blocks_apart _ _ _ _ _ _ _ _ Hdamaged Had Hd) as Hd'.
  assert (sst_frame (file_content r) ft ih ph hs) as Hfr'.
  { by eapply frame_apart. }
  destruct (open_frame r ft ih ph hs Hfr') as (sst & Ho & Hr & Hft & _ & Hiv).
  assert (forall St (f : bytes -> bytes -> St -> St * outcome unit) st,
    SstReader.for_each_entry sst f st = visit_entries f (concat ess) st) as Hwalk.
  { intros St f st. rewrite (walk_index sst hs Hiv). by apply visit_blocks_ok; rewrite ?Hr, ?Hft. }
  split; [by exists sst|]. exists (build (push_all builder_new (concat ess))).
  destruct (build_ok _ _ (push_all_repr builder_new [] (concat ess) builder_new_repr Hb)) as (_ & _ & Hw).
  split; [|exact Hw]. apply load_agrees; [exact Hl|]. exists sst. eexists. split; [done|].
  split; [|reflexivity]. by rewrite Hwalk, push_entry_visit.
Qed.

Context (e : error).
Hypothesis Hrefused : decode_block_contents new h ft.(checksum_type) ft.(base_context_checksum) = Err e.

Lemma damaged_opening :
  h = ft.(metaindex_handle) \/ h = ih -> open r = Err e /\ load_arena_source r = Err e.
Proof using Hblocks Hdamaged Hrefused.
  intros Hh. apply (open_stops r file h new ft ih ph hs); try done; [apply Hblocks|apply blocks_end; rewrite elem_of_app, !elem_of_cons; tauto|].
  destruct Hh as [-> | ->]; [by left|right]. split; [done|].
  pose proof (blocks_apart hs.*2 ih [ph; ft.(metaindex_handle)] eq_refl) as Ha.
  rewrite Forall_forall in Ha. apply Ha. set_solver.
Qed.

Lemma damaged_data hs1 k hs2 :
  hs = hs1 ++ (k, h) :: hs2 ->
  load_arena_source r = Err e /\
  exists sst, open r = Ok sst /\ sst.(sr_footer) = ft /\
    forall St (f : bytes -> bytes -> St -> St * outcome unit) st,
      SstReader.for_each_entry sst f st =
        match visit_entries f (concat (take (length hs1) ess)) st with
        | (st, Ok _) => (st, Err e)
        | q => q
        end.
Proof using Hblocks Hdamaged Hrefused.
  intros Hhs. assert (hs.*2 ++ [ih; ph; ft.(metaindex_handle)] = hs1.*2 ++ h :: (hs2.*2 ++ [ih; ph; ft.(metaindex_handle)])) as Heq
    by (by rewrite Hhs, fmap_app, <- (assoc_L (++))).
  pose proof (blocks_apart _ h _ Heq) as Ha. pose proof blocks_handles_ok as Hok. rewrite Heq in Hok.
  pose proof (blocks_end h ltac:(rewrite Heq; set_solver)) as Hend. clear Heq.
  apply Forall_app in Ha as [Ha1 [_ [Hai [_ [Ham _]%Forall_cons]%Forall_cons]%Forall_cons]%Forall_app].
  apply Forall_app in Hok as [_ [Hh _]%Forall_cons]. pose proof damaged_size as Hl.
  destruct Hblocks as [Hfr _ Hd _ _].
  assert (sst_frame (file_content r) ft ih ph hs) as Hfr' by (by eapply frame_apart).
  assert (Forall2 (data_block ft.(checksum_type) ft.(base_context_checksum) (file_content r)) hs1 (take (length hs1) ess)) as Hd'.
  { eapply data_blocks_apart; [exact Hdamaged|exact Ha1|]. rewrite Hhs in Hd.
    apply Forall2_app_inv_l in Hd as (ess1 & ess2 & Hd1 & _ & ->).
    rewrite (Forall2_length _ _ _ Hd1), take_app_length. exact Hd1. }
  destruct (read_damaged r file h new ft Hdamaged Hh Hl) as [Hr1 Hr2]. rewrite Hrefused in Hr1, Hr2. split.
  - rewrite (load_frame r ft ih ph hs Hfr'), Hhs, fmap_app. cbn [fmap list_fmap snd].
    by rewrite (load_blocks_stop r ft hs1 _ h _ e _ Hd').
  - destruct (open_frame r ft ih ph hs Hfr') as (sst & Ho & Hr & Hft & _ & Hiv). exists sst. split_and!; [done..|].
    intros St f st. rewrite (walk_index sst hs Hiv), Hhs, fmap_app. cbn [fmap list_fmap snd].
    by apply visit_blocks_stop; rewrite ?Hft, ?Hr.
Qed.
End OneBlock.
End Reading.

(** ** Properties *)

Section DamageProperties.
Context `{ChecksumLib} `{CompressLib} `{Profile}.

(** C13: Damage to a built table is noticed where it is and nowhere else.  The
    file is nothing but its blocks - data, index, properties, metaindex - and
    the footer.  Overwrite one block, trailer included, by bytes that no longer
    decode: if it is the metaindex or the index, neither reader gets past
    opening the file, and both return the block's error; if it is the
    properties block, both read every entry as before; if it is a data block,
    the whole-file loader returns its error, while the block-by-block walk first
    hands the callback exactly the entries of the blocks before it. *)
Theorem damage_located es opts file :
  Forall small es -> sst_weight es < 2 ^ 32 -> opts_ok opts ->
  (opts.(SstBuilderOptions.external_sst_global_seqno) <> None -> Forall (fun e => ikey_valid e.1) es) ->
  build_sst es opts = Ok file ->
  exists props ft ih ph hs ess,
    sst_blocks file (table_entries opts es) props ft ih ph hs ess /\ table_footer opts ft /\
    forall (R : Type) (FR : FileReader R) (FL : FileReaderLaws R) (r : R) h new e,
      damaged file (file_content r) h new ->
      decode_block_contents new h ft.(checksum_type) ft.(base_context_checksum) = Err e ->
      (h = ft.(metaindex_handle) \/ h = ih -> open r = Err e /\ load_arena_source r = Err e) /\
      (h = ph ->
         (exists sst, open r = Ok sst /\ walks_as sst (table_entries opts es) (Ok tt)) /\
         exists a, load_arena_source r = Ok a /\ window a = table_entries opts es) /\
      (forall hs1 k hs2, hs = hs1 ++ (k, h) :: hs2 ->
         load_arena_source r = Err e /\
         exists sst, open r = Ok sst /\ walks_as sst (concat (take (length hs1) ess)) (Err e)).
Proof.
  intros Hs Hw Ho Hv Hb. destruct (build_sst_ok es opts Hs Hw Ho Hv) as (file' & props & ft & Hb' & Hl & Hft & _).
  assert (file' = file) as -> by congruence. destruct Hl as (ih & ph & hs & ess & Hblk).
  exists props, ft, ih, ph, hs, ess. split_and!; [done..|]. intros R FR FL r h new e Hd He. split_and!.
  - by apply (damaged_opening file (table_entries opts es) props ft ih ph hs ess Hblk r h new Hd e He).
  - intros Hh. destruct (table_entries_sizes opts es Hv) as [Hw' _].
    destruct (damaged_props file _ props ft ih ph hs ess Hblk r h new Hd Hh) as [(sst & Hop & Hwalk) Ha].
    { pose proof (arena_bytes_weight (table_entries opts es)). lia. }
    split; [|done]. exists sst. split; [done|]. intros St f st. rewrite Hwalk.
    by destruct (visit_entries f _ st) as [st' [[]| | |]].
  - intros hs1 k hs2 Hh.
    destruct (damaged_data file _ props ft ih ph hs ess Hblk r h new Hd e He hs1 k hs2 Hh) as (Hload & sst & Hop & _ & Hwalk).
    split; [done|]. by exists sst.
Qed.

Context {W : Type} `{FileSystem W}.

(** C27: What the tools make of a table on disk with a damaged data block:
    [compactor] prints the entries of the blocks before it as it would have,
    then the block's error, and exits with status 1 without the closing lines;
    [compact_files], with that file among its inputs after any that load, names
    it with the same error and exits with status 1, having written and printed
    nothing. *)
Theorem damage_dumped (c : Console W) path file file' es props ft ih ph hs ess hs1 k h hs2 new e :
  sst_blocks file es props ft ih ph hs ess -> hs = hs1 ++ (k, h) :: hs2 -> damaged file file' h new ->
  decode_block_contents new h ft.(checksum_type) ft.(base_context_checksum) = Err e ->
  fs_open c.(world) path = inr file' -> Forall (fun e => ikey_valid e.1) es -> len es < 2 ^ 64 ->
  (forall args, get_at args 1 = Some path ->
     let dump_all := bool_decide (get_at args 2 = Some (str "--dump-all")) in
     Compactor.run args c =
       ({| world := c.(world);
           stdout := c.(stdout) ++ header_lines dump_all ft ++ visited dump_all (concat (take (length hs1) ess));
           stderr := c.(stderr) ++ [Line "failed to iterate entries: {}" [Cause e]] |}, Exit 1)) /\
  (forall args ingest args' out before after,
     CompactFiles.for_ingest_flag args = (ingest, args') ->
     requested (fs_open c.(world)) args' out (before ++ path :: after) ->
     Forall (loadable (fs_open c.(world))) before ->
     CompactFiles.run args c = (eprint c (Line "failed to load {}: {}" [Text path; Cause e]), Exit 1)).
Proof.
  intros Hblk Hhs Hd He Hopen Hv Hlen. pose proof (damaged_len _ _ _ _ Hd) as Hl.
  assert (len file' <= isize_MAX) as Hmax.
  { destruct Hblk as [[Hs _ _ _ _ _] _ _ _ _]. unfold isize_MAX. lia. }
  change file' with (file_content (mem_file file' Hmax)) in Hd.
  destruct (damaged_data file es props ft ih ph hs ess Hblk (mem_file file' Hmax) h new Hd e He hs1 k hs2 Hhs)
    as (Hload & sst & Hop & Hft & Hwalk). split.
  - intros args Hpath dump_all. set (before := concat (take (length hs1) ess)).
    assert (exists rest, es = before ++ rest) as [rest Hes].
    { exists (concat (drop (length hs1) ess)). unfold before. rewrite <- concat_app, take_drop. symmetry. apply Hblk. }
    pose proof (compactor_run c args path file' (on_disk file' sst) before (Err e)) as Hrun. cbv zeta in Hrun.
    rewrite Hrun; cbn [sr_footer on_disk]; [by rewrite Hft|done|done|by rewrite (open_disk file' Hmax), Hop| | |].
    + intros St f st. by rewrite (walk_disk file' Hmax sst), Hwalk.
    + rewrite Hes in Hv. by apply Forall_app in Hv as [? _].
    + rewrite Hes in Hlen. len_lia.
  - intros args ingest args' out before after Hflag Hreq Hb.
    destruct (compact_files_stops c (eprint c (Line "failed to load {}: {}" [Text path; Cause e])) args ingest args' out before path after (Exit 1))
      as [Hex _]; [done..| |by apply Hex].
    intros ss. by rewrite load_sources_step, Hopen, (load_disk file' Hmax), Hload.
Qed.
End DamageProperties.

(** ** A table of two blocks, with a bit flipped in the second *)

#[local] Instance dev_profile : Profile := true.

Definition wide_first : entry := (make_ikey (str "apple") 257, replicate 4096 Byte.x61).
Definition wide_second : entry := (make_ikey (str "banana") 257, replicate 4096 Byte.x62).
Definition wide_entries : list entry := [wide_first; wide_second].

Definition wide_table : bytes := Eval vm_compute in
  match build_sst wide_entries SstBuilderOptions.default with Ok file => file | _ => [] end.
Definition wide_file : OpenFile := mem_file wide_table ltac:(vm_compute; discriminate).

(** What the index of the table lists. *)
Definition wide_handles : list (bytes * BlockHandle) := Eval vm_compute in
  match open wide_file with
  | Ok sst => (for_each_index_entry sst.(sr_index) Block.collect []).1
  | _ => []
  end.
Definition wide_handle : BlockHandle := Eval vm_compute in
  match wide_handles with [_; (_, h)] => h | _ => {| offset := 0; size := 0 |} end.

Definition flip_first (bs : bytes) : bytes :=
  match bs with
  | [] => []
  | b :: bs => byte.of_Z (Z.lxor (byte.unsigned b) 1) :: bs
  end.
Definition wide_new : bytes := Eval vm_compute in
  flip_first (take (Z.to_nat (wide_handle.(size) + 5)) (drop (Z.to_nat wide_handle.(offset)) wide_table)).
Definition wide_damaged : bytes := Eval vm_compute in
  take (Z.to_nat wide_handle.(offset)) wide_table ++ wide_new ++
  drop (Z.to_nat (wide_handle.(offset) + wide_handle.(size) + 5)) wide_table.
Definition wide_error : error := Eval vm_compute in
  match decode_block_contents wide_new wide_handle XxH3 1 with Err e => e | _ => Msg "" [] end.

Lemma wide_small : Forall small wide_entries.
Proof. repeat constructor; vm_compute; discriminate. Qed.

Lemma wide_is_damaged : damaged wide_table wide_damaged wide_handle wide_new.
Proof.
  exists (take (Z.to_nat wide_handle.(offset)) wide_table),
    (take (Z.to_nat (wide_handle.(size) + 5)) (drop (Z.to_nat wide_handle.(offset)) wide_table)),
    (drop (Z.to_nat (wide_handle.(offset) + wide_handle.(size) + 5)) wide_table).
  split_and!; vm_compute; reflexivity.
Qed.

Lemma wide_refused : decode_block_contents wide_new wide_handle XxH3 1 = Err wide_error.
Proof. vm_compute. reflexivity. Qed.

(** Its layout, computed: two handles, an entry each. *)
Lemma wide_layout props ft ih ph hs ess :
  sst_blocks wide_table wide_entries props ft ih ph hs ess ->
  hs = [(wide_first.1, {| offset := 0; size := wide_handle.(offset) - 5 |}); (wide_second.1, wide_handle)] /\
  concat (take 1 ess) = [wide_first].
Proof.
  intros [Hfr _ Hd Hc _].
  assert (hs = [(wide_first.1, {| offset := 0; size := wide_handle.(offset) - 5 |}); (wide_second.1, wide_handle)]) as ->.
  { change wide_table with (file_content wide_file) in Hfr.
    destruct (open_frame wide_file ft ih ph hs Hfr) as (sst & Ho & _ & _ & _ & Hiv).
    specialize (Hiv _ Block.collect []). rewrite visit_entries_collect in Hiv.
    assert ((sst0 ← open wide_file; Ok (for_each_index_entry sst0.(sr_index) Block.collect [])) = Ok (wide_handles, Ok tt)) as Hw
      by (vm_compute; reflexivity).
    rewrite Ho, bind_Ok, Hiv in Hw. injection Hw as ->. vm_compute. reflexivity. }
  split; [done|]. inversion Hd as [|kh1 es1 l1 ess1 [_ H1'] Hd1]; subst. inversion Hd1 as [|kh2 es2 l2 ess2 [_ H2'] Hd2]; subst.
  inversion Hd2; subst. cbn [concat take] in *. rewrite app_nil_r in *. cbn [fst] in H1'.
  destruct es1 as [|x [|y es1]]; [done| |].
  - injection Hc as -> _. done.
  - injection Hc as -> -> Hn. apply app_eq_nil in Hn as [-> ->]. by vm_compute in H2'.
Qed.

Definition wide_bad : OpenFile := mem_file wide_damaged ltac:(vm_compute; discriminate).

Lemma damage_located_witness :
  load_arena_source wide_bad = Err wide_error /\
  exists sst, open wide_bad = Ok sst /\ walks_as sst [wide_first] (Err wide_error).
Proof.
  destruct (damage_located wide_entries SstBuilderOptions.default wide_table)
    as (props & ft & ih & ph & hs & ess & Hb & (_ & _ & Hty & Hbase) & Hall).
  - exact wide_small.
  - reflexivity.
  - exact toy_options_ok.
  - intros Hn. by destruct Hn.
  - vm_compute. reflexivity.
  - destruct (wide_layout props ft ih ph hs ess Hb) as [Hhs Hess].
    destruct (Hall _ _ _ wide_bad wide_handle wide_new wide_error) as (_ & _ & Hdata).
    + exact wide_is_damaged.
    + rewrite Hty, Hbase. exact wide_refused.
    + specialize (Hdata [(wide_first.1, {| offset := 0; size := wide_handle.(offset) - 5 |})] wide_second.1 [] Hhs). cbn [length] in Hdata. rewrite Hess in Hdata. exact Hdata.
Defined.

(** The damaged table on disk, and a sound one beside it. *)
#[local] Instance wide_disk : FileSystem bool := {
  fs_open _ path :=
    if bool_decide (path = str "bad.sst") then inr wide_damaged
    else if bool_decide (path = str "good.sst") then inr wide_table
    else inl (Msg "No such file or directory" []);
  fs_write w path data := (inr tt, true)
}.
Definition wide_console : Console bool := {| world := false; stdout := []; stderr := [] |}.

Lemma damage_dumped_witness :
  Compactor.run [str "compactor"; str "bad.sst"; str "--dump-all"] wide_console =
    ({| world := false; stdout := [dump_line wide_first];
        stderr := [Line "failed to iterate entries: {}" [Cause wide_error]] |}, Exit 1) /\
  CompactFiles.run [str "compact_files"; str "out.sst"; str "bad.sst"; str "good.sst"] wide_console =
    ({| world := false; stdout := [];
        stderr := [Line "failed to load {}: {}" [Text (str "bad.sst"); Cause wide_error]] |}, Exit 1).
Proof.
  destruct (build_sst_ok wide_entries SstBuilderOptions.default wide_small eq_refl toy_options_ok)
    as (file & props & ft & Hb & (ih & ph & hs & ess & Hblk) & (_ & _ & Hty & Hbase) & _); [intros Hn; by destruct Hn|].
  assert (file = wide_table) as -> by (vm_compute in Hb; injection Hb as <-; reflexivity).
  destruct (wide_layout props ft ih ph hs ess Hblk) as [Hhs Hess].
  destruct (damage_dumped wide_console (str "bad.sst") wide_table wide_damaged wide_entries props ft ih ph hs ess
    [(wide_first.1, {| offset := 0; size := wide_handle.(offset) - 5 |})] wide_second.1 wide_handle [] wide_new wide_error)
    as [Hdump Hcompact].
  - exact Hblk.
  - exact Hhs.
  - exact wide_is_damaged.
  - rewrite Hty, Hbase. exact wide_refused.
  - reflexivity.
  - repeat constructor; vm_compute; discriminate.
  - reflexivity.
  - split.
    + specialize (Hdump [str "compactor"; str "bad.sst"; str "--dump-all"] eq_refl). cbv zeta in Hdump.
      cbn [length] in Hdump. rewrite Hess in Hdump. exact Hdump.
    + apply (Hcompact [str "compact_files"; str "out.sst"; str "bad.sst"; str "good.sst"] false
        [str "compact_files"; str "out.sst"; str "bad.sst"; str "good.sst"] (str "out.sst") [] [str "good.sst"]).
      * reflexivity.
      * apply on_command_line. discriminate.
      * constructor.
Defined.
