(* ===== verification/Tests.v ===== *)
(** The repository's own tests, run on the model: the inline unit tests of
    [strategy.rs], [cmp.rs] and [oracle/src/lib.rs], and the integration tests
    with fixed inputs.  A test is a computation that panics where an assertion
    fails; all of them pass, with the byte-sum hashes of [Checksum] in place
    of the hash crates.  The randomized tests, and the one that builds a file
    of a megabyte to look at its index, are subsumed by theorems on all inputs:
    [Fuzzer.compactor_matches_oracle], [Mergers.mergers_agree],
    [EndToEnd.sharded_equals_unsharded], [Loader.index_seek_finds_block].
    Writing an output to the temporary directory is left out. *)

From stdpp Require Import gmap.
From S2P Require Import Prelude Checksum Footer Block BlockBuilders Properties SstBuilder FileReader SstReader Loader.
From S2P Require Import Cmp Source Kmerge LoserTree HeapMerger Strategy Compaction Oracle Fuzzer Generator Text.
From S2P Require Import InternalKey.

#[local] Instance dev_profile : Profile := true.

(** [assert_eq!] and [assert_ne!]. *)
Definition assert_eq {A} `{EqDecision A} (a b : A) : outcome unit := assert (bool_decide (a = b)).
Definition assert_ne {A} `{EqDecision A} (a b : A) : outcome unit := assert (negb (bool_decide (a = b))).

Definition TYPE_VALUE : Z := 1.
Definition TYPE_DELETION : Z := 0.

(** ** [compaction/strategy.rs] *)

Module StrategyTests.

Definition key (user_key : bytes) (seq ty : Z) : bytes :=
  let packed := Z.lor (as_u64 (Z.shiftl seq 8)) ty in
  user_key ++ to_le_bytes 8 packed.

Definition bottommost_keeps_only_newest_and_drops_tombstone_winner : outcome unit :=
  let strat := BottommostStrategy_ in
  let k1 := key (str "a") 5 TYPE_VALUE in
  let k2 := key (str "a") 3 TYPE_VALUE in
  ik1 ← expect (split k1);
  ik2 ← expect (split k2);
  let '(strat, d1) := strategy_decide strat ik1 true in
  _ ← assert_eq d1 Keep;
  let '(strat, d2) := strategy_decide strat ik2 false in
  _ ← assert_eq d2 Drop;
  let strat2 := BottommostStrategy_ in
  let kd := key (str "b") 5 TYPE_DELETION in
  ikd ← expect (split kd);
  let '(strat2, d) := strategy_decide strat2 ikd true in
  assert_eq d Drop.

Definition passthrough_keeps_everything : outcome unit :=
  let strat := PassthroughStrategy_ in
  let kd := key (str "a") 5 TYPE_DELETION in
  ikd ← expect (split kd);
  let '(strat, d1) := strategy_decide strat ikd true in
  _ ← assert_eq d1 Keep;
  let '(strat, d2) := strategy_decide strat ikd false in
  assert_eq d2 Keep.

(** The loop over the versions, numbered from [i]. *)
Fixpoint decide_versions (strat : SnapshotAwareStrategy) (versions : list (Z * Z)) (i : Z)
    (decisions : list KeepDecision) : outcome (list KeepDecision) :=
  match versions with
  | [] => Ok decisions
  | (seq, ty) :: versions =>
      let k := key (str "a") seq ty in
      ik ← expect (split k);
      let '(strat, d) := strategy_decide strat ik (i =? 0) in
      decide_versions strat versions (i + 1) (decisions ++ [d])
  end.

Definition snapshot_aware_keeps_newest_and_the_version_visible_to_snapshot : outcome unit :=
  let strat := snapshot_new 5 in
  let versions := [(10, TYPE_VALUE); (7, TYPE_VALUE); (4, TYPE_VALUE); (2, TYPE_VALUE)] in
  decisions ← decide_versions strat versions 0 [];
  assert_eq decisions [Keep; Drop; Keep; Drop].

Definition snapshot_aware_keeps_tombstone_visible_to_snapshot : outcome unit :=
  let strat := snapshot_new 5 in
  let k_new := key (str "a") 10 TYPE_VALUE in
  let k_del := key (str "a") 4 TYPE_DELETION in
  let k_old := key (str "a") 2 TYPE_VALUE in
  ik_new ← expect (split k_new);
  ik_del ← expect (split k_del);
  ik_old ← expect (split k_old);
  let '(strat, d1) := strategy_decide strat ik_new true in
  _ ← assert_eq d1 Keep;
  let '(strat, d2) := strategy_decide strat ik_del false in
  _ ← assert_eq d2 Keep;
  let '(strat, d3) := strategy_decide strat ik_old false in
  assert_eq d3 Drop.

Definition snapshot_aware_newest_version_below_snapshot_only_keeps_once : outcome unit :=
  let strat := snapshot_new 100 in
  let k1 := key (str "a") 5 TYPE_VALUE in
  let k2 := key (str "a") 3 TYPE_VALUE in
  ik1 ← expect (split k1);
  ik2 ← expect (split k2);
  let '(strat, d1) := strategy_decide strat ik1 true in
  _ ← assert_eq d1 Keep;
  let '(strat, d2) := strategy_decide strat ik2 false in
  assert_eq d2 Drop.

Definition all : list (outcome unit) :=
  [bottommost_keeps_only_newest_and_drops_tombstone_winner; passthrough_keeps_everything;
   snapshot_aware_keeps_newest_and_the_version_visible_to_snapshot;
   snapshot_aware_keeps_tombstone_visible_to_snapshot;
   snapshot_aware_newest_version_below_snapshot_only_keeps_once].
End StrategyTests.

(** ** [merge/cmp.rs] *)

Module CmpTests.

Definition make_key (user_key : bytes) (seq ty : Z) : bytes :=
  let packed := Z.lor (as_u64 (Z.shiftl seq 8)) ty in
  user_key ++ to_le_bytes 8 packed.

Definition orders_by_user_key_first : outcome unit :=
  let a := make_key (str "aaa") 5 1 in
  let b := make_key (str "bbb") 1 1 in
  c ← compare_internal_keys a b; assert_eq c Lt.

Definition same_user_key_higher_seq_first : outcome unit :=
  let newer := make_key (str "key") 10 1 in
  let older := make_key (str "key") 5 1 in
  c ← compare_internal_keys newer older; _ ← assert_eq c Lt;
  c ← compare_internal_keys older newer; assert_eq c Gt.

Definition same_user_key_same_seq_higher_type_first : outcome unit :=
  let a := make_key (str "key") 5 7 in
  let b := make_key (str "key") 5 1 in
  c ← compare_internal_keys a b; assert_eq c Lt.

Definition bytewise_comparator_matches_slice_cmp : outcome unit :=
  let a := str "abc" in
  let b := str "abd" in
  c ← compare BytewiseComparator a b; assert_eq c (slice_cmp a b).

Definition bytewise_sort_prefix_agrees_with_compare_on_differing_prefixes : outcome unit :=
  let a := str "aaaaaaaaX" in
  let b := str "bbbbbbbbX" in
  let pa := sort_prefix BytewiseComparator a in
  let pb := sort_prefix BytewiseComparator b in
  _ ← assert_ne pa pb;
  c ← compare BytewiseComparator a b;
  assert_eq (pa ?= pb) c.

Definition bytewise_sort_prefix_ties_on_shared_prefix_need_full_compare : outcome unit :=
  let a := str "aaaaaaaaX" in
  let b := str "aaaaaaaaY" in
  _ ← assert_eq (sort_prefix BytewiseComparator a) (sort_prefix BytewiseComparator b);
  c ← compare BytewiseComparator a b; assert_eq c Lt.

Definition internal_key_comparator_has_no_fast_path : outcome unit :=
  assert (negb (HAS_SORT_PREFIX InternalKeyComparator)).

Definition all : list (outcome unit) :=
  [orders_by_user_key_first; same_user_key_higher_seq_first; same_user_key_same_seq_higher_type_first;
   bytewise_comparator_matches_slice_cmp; bytewise_sort_prefix_agrees_with_compare_on_differing_prefixes;
   bytewise_sort_prefix_ties_on_shared_prefix_need_full_compare; internal_key_comparator_has_no_fast_path].
End CmpTests.

(** ** [oracle/src/lib.rs] *)

Module OracleTests.

Definition key (user_key : bytes) (seq ty : Z) : bytes :=
  let packed := Z.lor (as_u64 (Z.shiftl seq 8)) ty in
  user_key ++ to_le_bytes 8 packed.

Definition keeps_newest_drops_tombstone_winner : outcome unit :=
  let sources :=
    [[(key (str "a") 1 1, str "old_a"); (key (str "b") 1 1, str "only_b")];
     [(key (str "a") 5 1, str "new_a"); (key (str "b") 5 0, str "")]] in
  out ← Oracle.naive_compact sources;
  assert_eq out [(str "a", str "new_a")].

Definition all : list (outcome unit) := [keeps_newest_drops_tombstone_winner].
End OracleTests.

(** ** [tests/merge_correctness.rs] *)

Module MergeTests.
#[local] Existing Instance VecSource.VecSource_impl.

Definition make_key (user_key : bytes) (seq ty : Z) : bytes :=
  let packed := Z.lor (as_u64 (Z.shiftl seq 8)) ty in
  user_key ++ to_le_bytes 8 packed.

Definition collect_entry (k v : bytes) (out : list entry) : list entry := out ++ [(k, v)].

(** Run with as much fuel as the entries and one round more. *)
Definition collect (M : Type) `{KWayMerge M VecSource.VecSource} (sources : list VecSource.VecSource) :
    outcome (list entry) :=
  merger ← new M sources;
  '(_, out) ← run (S (length (concat (VecSource.entries <$> sources)))) merger collect_entry [];
  Ok out.

Abbreviation Heap := (HeapMerger.HeapMerger list VecSource.VecSource InternalKeyComparator).
Abbreviation Tree := (LoserTreeOf VecSource.VecSource InternalKeyComparator).

Definition empty_sources : outcome unit :=
  let sources := [VecSource.new []; VecSource.new []] in
  out ← collect Heap sources;
  _ ← assert (bool_decide (out = []));
  out2 ← collect Tree sources;
  assert (bool_decide (out2 = [])).

Definition single_source : outcome unit :=
  let entries := [(make_key (str "a") 1 1, str "va"); (make_key (str "b") 1 1, str "vb"); (make_key (str "c") 1 1, str "vc")] in
  let sources := [VecSource.new entries] in
  out ← collect Heap sources;
  _ ← assert_eq out entries;
  out2 ← collect Tree sources;
  assert_eq out2 entries.

Definition user_keys (out : list entry) : list bytes := (fun e => take (length e.1 - 8) e.1) <$> out.

Definition interleaved_disjoint_sources : outcome unit :=
  let s1 := [(make_key (str "a") 1 1, str "1"); (make_key (str "c") 1 1, str "1"); (make_key (str "e") 1 1, str "1")] in
  let s2 := [(make_key (str "b") 1 1, str "2"); (make_key (str "d") 1 1, str "2"); (make_key (str "f") 1 1, str "2")] in
  let expected_keys := [str "a"; str "b"; str "c"; str "d"; str "e"; str "f"] in
  heap_out ← collect Heap [VecSource.new s1; VecSource.new s2];
  loser_out ← collect Tree [VecSource.new s1; VecSource.new s2];
  _ ← assert_eq (user_keys heap_out) expected_keys;
  assert_eq (user_keys loser_out) expected_keys.

Definition overlapping_versions_newest_seq_first_in_output : outcome unit :=
  let s1 := [(make_key (str "k") 5 1, str "new")] in
  let s2 := [(make_key (str "k") 2 1, str "old")] in
  out ← collect Heap [VecSource.new s1; VecSource.new s2];
  _ ← assert_eq (len out) 2;
  o0 ← index_at out 0; _ ← assert_eq o0.2 (str "new");
  o1 ← index_at out 1; _ ← assert_eq o1.2 (str "old");
  out2 ← collect Tree [VecSource.new s1; VecSource.new s2];
  _ ← assert_eq (len out2) 2;
  o0 ← index_at out2 0; _ ← assert_eq o0.2 (str "new");
  o1 ← index_at out2 1; assert_eq o1.2 (str "old").

(** The closure [to_arena]. *)
Definition to_arena (entries : list entry) : ArenaSource :=
  Source.build (foldl (fun b e => push b e.1 e.2) builder_new entries).

Definition CONSTANT_SUFFIX : bytes := to_le_bytes 8 1.

(** Source [src] of the dataset: its keys are [src], [src + num_sources], ... *)
Definition suffix_source (num_sources per_src src : Z) : list entry :=
  (fun i =>
     let user_key := src + i * num_sources in
     (reverse (to_le_bytes 8 user_key) ++ CONSTANT_SUFFIX, str "v" ++ decimal user_key)) <$> seqZ 0 per_src.

Definition collect_arenas (C : Type) `{KeyComparator C} (sources : list ArenaSource) : outcome (list entry) :=
  merger ← new (LoserTreeOf ArenaSource C) sources;
  '(_, out) ← run (S (merge_fuel sources)) merger collect_entry [];
  Ok out.

Definition bytewise_and_internal_key_comparator_agree_on_shared_suffix_dataset : outcome unit :=
  let num_sources := 4 in
  let total_keys := 400 in
  let per_src := total_keys / num_sources in
  let per_source := suffix_source num_sources per_src <$> seqZ 0 num_sources in
  let sources_a := to_arena <$> per_source in
  let sources_b := to_arena <$> per_source in
  out_internal ← collect_arenas InternalKeyComparator sources_a;
  out_bytewise ← collect_arenas BytewiseComparator sources_b;
  assert_eq out_internal out_bytewise.

Definition all : list (outcome unit) :=
  [empty_sources; single_source; interleaved_disjoint_sources; overlapping_versions_newest_seq_first_in_output;
   bytewise_and_internal_key_comparator_agree_on_shared_suffix_dataset].
End MergeTests.

(** ** [tests/strategy_e2e.rs] and [tests/compaction_e2e.rs] *)

Module CompactionTests.

Definition internal_key (user_key : bytes) (seq value_type : Z) : bytes :=
  let packed := Z.lor (as_u64 (Z.shiftl seq 8)) value_type in
  user_key ++ to_le_bytes 8 packed.

Definition opts (base_context_checksum : Z) : CompactionOptions :=
  {| sst_builder :=
       {| SstBuilderOptions.base_context_checksum := base_context_checksum;
          SstBuilderOptions.checksum_type := SstBuilderOptions.checksum_type SstBuilderOptions.default;
          SstBuilderOptions.comparator_name := SstBuilderOptions.comparator_name SstBuilderOptions.default;
          SstBuilderOptions.column_family_id := SstBuilderOptions.column_family_id SstBuilderOptions.default;
          SstBuilderOptions.column_family_name := SstBuilderOptions.column_family_name SstBuilderOptions.default;
          SstBuilderOptions.external_sst_global_seqno := SstBuilderOptions.external_sst_global_seqno SstBuilderOptions.default |} |}.

(** The common part of the [parse_] helpers: the same walk with another
    callback on the entries of the data blocks. *)
Fixpoint parse_data_blocks {A} (push : bytes -> bytes -> list A -> list A * outcome unit) (bs : bytes) (ft : Footer)
    (data_handles : list BlockHandle) (out : list A) : outcome (list A) :=
  match data_handles with
  | [] => Ok out
  | handle :: data_handles =>
      raw ← decode_block_at bs ft handle;
      parsed ← expect (parse_block raw);
      out ← expect (run_visit (Block.for_each_entry parsed push out));
      parse_data_blocks push bs ft data_handles out
  end.

Definition parse_with {A} (push : bytes -> bytes -> list A -> list A * outcome unit) (bs : bytes) : outcome (list A) :=
  tail_start ← sub_u64 (len bs) FOOTER_TAIL_LEN;
  tail ← index_range bs tail_start (len bs);
  footer ← expect (decode_footer tail (len bs));
  metaindex_raw ← decode_block_at bs footer footer.(metaindex_handle);
  metaindex ← expect (parse_block metaindex_raw);
  index_handle ← expect (run_visit (Block.for_each_entry metaindex note_index_handle None));
  index_handle ← unwrap index_handle;
  index_raw ← decode_block_at bs footer index_handle;
  index ← expect (parse_block index_raw);
  data_handles ← expect (run_visit (for_each_index_entry index push_handle []));
  parse_data_blocks push bs footer data_handles [].

Definition push_all_types (k v : bytes) (out : list (bytes * Z * Z)) : list (bytes * Z * Z) * outcome unit :=
  match expect (split k) with
  | Ok ik =>
      let ty_byte := match ik.(value_type) with Deletion => 0 | Value => 1 | _ => 255 end in
      (out ++ [(from_utf8_lossy ik.(user_key), ik.(sequence), ty_byte)], Ok tt)
  | r => (out, stop r)
  end.
Definition parse_all_entries_including_tombstones := parse_with push_all_types.

(** [parse_scan_output] of [strategy_e2e.rs]: values only. *)
Definition push_value (k v : bytes) (out : list entry) : list entry * outcome unit :=
  match expect (split k) with
  | Ok ik =>
      match ik.(value_type) with
      | Value => (out ++ [(from_utf8_lossy ik.(user_key), from_utf8_lossy v)], Ok tt)
      | _ => (out, Ok tt)
      end
  | r => (out, stop r)
  end.
Definition parse_scan_output := parse_with push_value.

(** [parse_scan_output] of [compaction_e2e.rs]: every entry. *)
Definition push_lossy (k v : bytes) (out : list entry) : list entry * outcome unit :=
  match expect (split k) with
  | Ok ik => (out ++ [(from_utf8_lossy ik.(user_key), from_utf8_lossy v)], Ok tt)
  | r => (out, stop r)
  end.
Definition parse_scan_output_all := parse_with push_lossy.

Definition snapshot_aware_keeps_both_current_and_snapshot_visible_versions : outcome unit :=
  let a := push builder_new (internal_key (str "apple") 2 TYPE_VALUE) (str "old_apple") in
  let b := push builder_new (internal_key (str "apple") 10 TYPE_VALUE) (str "new_apple") in
  '(_, output) ← expect (compact_with_strategy [Source.build a; Source.build b] (opts 0xABCD1234) (snapshot_new 5));
  entries ← parse_scan_output output;
  _ ← assert_eq entries [(str "apple", str "new_apple"); (str "apple", str "old_apple")];
  '(_, output2) ← expect (compact_with_strategy [Source.build a; Source.build b] (opts 0xABCD1234) BottommostStrategy_);
  entries2 ← parse_scan_output output2;
  assert_eq entries2 [(str "apple", str "new_apple")].

Definition snapshot_aware_keeps_tombstone_visible_to_snapshot_end_to_end : outcome unit :=
  let a := push builder_new (internal_key (str "key") 10 TYPE_VALUE) (str "current_value") in
  let a := push a (internal_key (str "key") 4 TYPE_DELETION) [] in
  let a := push a (internal_key (str "key") 2 TYPE_VALUE) (str "ancient_value") in
  '(_, output) ← expect (compact_with_strategy [Source.build a] (opts 0xABCD1234) (snapshot_new 5));
  entries ← parse_scan_output output;
  _ ← assert_eq entries [(str "key", str "current_value")];
  raw_entries ← parse_all_entries_including_tombstones output;
  assert_eq (len raw_entries) 2.

Definition passthrough_keeps_all_versions_end_to_end : outcome unit :=
  let a := push builder_new (internal_key (str "k") 3 TYPE_VALUE) (str "v3") in
  let a := push a (internal_key (str "k") 2 TYPE_VALUE) (str "v2") in
  let a := push a (internal_key (str "k") 1 TYPE_DELETION) [] in
  '(_, output) ← expect (compact_with_strategy [Source.build a] (opts 0xABCD1234) PassthroughStrategy_);
  raw_entries ← parse_all_entries_including_tombstones output;
  assert_eq (len raw_entries) 3.

Definition compact_drops_obsolete_versions_and_tombstones : outcome unit :=
  let a := push builder_new (internal_key (str "apple") 1 TYPE_VALUE) (str "old_apple") in
  let a := push a (internal_key (str "banana") 1 TYPE_VALUE) (str "old_banana") in
  let a := push a (internal_key (str "cherry") 1 TYPE_VALUE) (str "only_cherry") in
  let b := push builder_new (internal_key (str "apple") 5 TYPE_VALUE) (str "new_apple") in
  let b := push b (internal_key (str "banana") 5 TYPE_DELETION) [] in
  output_bytes ← expect (compact [Source.build a; Source.build b] (opts 0xC0FFEE));
  _ ← assert_ne output_bytes [];
  entries ← parse_scan_output_all output_bytes;
  assert_eq entries [(str "apple", str "new_apple"); (str "cherry", str "only_cherry")].

Definition all : list (outcome unit) :=
  [snapshot_aware_keeps_both_current_and_snapshot_visible_versions;
   snapshot_aware_keeps_tombstone_visible_to_snapshot_end_to_end;
   passthrough_keeps_all_versions_end_to_end; compact_drops_obsolete_versions_and_tombstones].
End CompactionTests.

(** ** [tests/format_roundtrip.rs] and [tests/format_sst_builder.rs] *)

Module FormatTests.

Definition roundtrip_entries : list entry :=
  (fun i => (str "key" ++ pad_zeros 4 (decimal i), str "value_" ++ pad_zeros 4 (decimal i) ++ str "_payload")) <$> seqZ 0 50.

(** [for (k, v) in &entries { builder.add(k, v) }]. *)
Fixpoint add_entries (builder : BlockBuilder.BlockBuilder) (entries : list entry) : outcome BlockBuilder.BlockBuilder :=
  match entries with
  | [] => Ok builder
  | (k, v) :: entries => builder ← BlockBuilder.add builder k v; add_entries builder entries
  end.

Definition data_block_roundtrip_no_compression : outcome unit :=
  builder ← BlockBuilder.new 4;
  builder ← add_entries builder roundtrip_entries;
  let raw := BlockBuilder.finish builder in
  let checksum_type := XxH3 in
  let offset := 12345 in
  let base_context_checksum := 0xdeadbeef in
  let with_trailer := encode_block_with_trailer raw offset checksum_type base_context_checksum in
  let handle := {| offset := offset; size := len with_trailer - BLOCK_TRAILER_SIZE |} in
  decoded ← expect (decode_block_contents with_trailer handle checksum_type base_context_checksum);
  parsed ← expect (parse_block decoded);
  got ← expect (run_visit (Block.for_each_entry parsed Block.collect []));
  assert_eq got roundtrip_entries.

(** [result.is_err()]. *)
Definition is_err {A} (result : outcome A) : outcome bool :=
  match result with
  | Ok _ => Ok false
  | Err _ => Ok true
  | Panic => Panic
  | OutOfFuel => OutOfFuel
  end.

Definition data_block_roundtrip_checksum_tamper_detected : outcome unit :=
  builder ← BlockBuilder.new 16;
  builder ← BlockBuilder.add builder (str "a") (str "1");
  builder ← BlockBuilder.add builder (str "b") (str "2");
  let raw := BlockBuilder.finish builder in
  let checksum_type := Crc32c in
  let offset := 0 in
  let with_trailer := encode_block_with_trailer raw offset checksum_type 0 in
  b0 ← index_at with_trailer 0;
  with_trailer ← set_at with_trailer 0 (byte.of_Z (Z.lxor (byte.unsigned b0) 0x01));
  let handle := {| offset := offset; size := len with_trailer - BLOCK_TRAILER_SIZE |} in
  e ← is_err (decode_block_contents with_trailer handle checksum_type 0);
  assert e.

Definition pack_seq_and_type (seq value_type : Z) : bytes :=
  let packed := Z.lor (as_u64 (Z.shiftl seq 8)) value_type in
  to_le_bytes 8 packed.

Definition smoke_entries : list entry :=
  (fun i =>
     (str "key" ++ pad_zeros 5 (decimal i) ++ pack_seq_and_type 0 1,
      str "value_" ++ pad_zeros 5 (decimal i) ++ str "_padding_to_make_it_longer")) <$> seqZ 0 500.

Definition build_sst_smoke_test : outcome unit :=
  sst_bytes ← build_sst smoke_entries (CompactionTests.opts 0xdeadbeef).(sst_builder);
  assert_ne sst_bytes [].

Definition footer_roundtrip_format_version_7 : outcome unit :=
  let checksum_type := XxH3 in
  let base_context_checksum := 0x12345678 in
  let metaindex_handle := {| offset := 1000; size := 42 |} in
  let footer_offset := metaindex_handle.(offset) + metaindex_handle.(size) + BLOCK_TRAILER_SIZE in
  encoded ← encode_footer_v6_plus 7 checksum_type metaindex_handle base_context_checksum footer_offset;
  let file_size := footer_offset + len encoded in
  decoded ← expect (decode_footer encoded file_size);
  _ ← assert_eq decoded.(format_version) 7;
  _ ← assert_eq decoded.(Footer.checksum_type) checksum_type;
  _ ← assert_eq decoded.(Footer.base_context_checksum) base_context_checksum;
  _ ← assert_eq decoded.(Footer.metaindex_handle).(offset) metaindex_handle.(offset);
  _ ← assert_eq decoded.(Footer.metaindex_handle).(size) metaindex_handle.(size);
  assert_eq decoded.(table_magic_number) BLOCK_BASED_TABLE_MAGIC.

Definition index_entries : list (bytes * BlockHandle) :=
  [(str "aaa", {| offset := 0; size := 100 |}); (str "bbb", {| offset := 105; size := 110 |});
   (str "ccc", {| offset := 220; size := 90 |}); (str "ddd", {| offset := 315; size := 130 |});
   (str "eee", {| offset := 450; size := 50 |})].

(** [for (k, h) in &entries { builder.add(k, *h) }]. *)
Fixpoint add_handles (builder : IndexBlockBuilder.IndexBlockBuilder) (entries : list (bytes * BlockHandle)) :
    outcome IndexBlockBuilder.IndexBlockBuilder :=
  match entries with
  | [] => Ok builder
  | (k, h) :: entries => builder ← IndexBlockBuilder.add builder k h; add_handles builder entries
  end.

Definition index_block_roundtrip_delta_encoded_handles : outcome unit :=
  builder ← IndexBlockBuilder.new 3;
  builder ← add_handles builder index_entries;
  let raw := IndexBlockBuilder.finish builder in
  parsed ← expect (parse_block raw);
  got ← expect (run_visit (for_each_index_entry parsed Block.collect []));
  _ ← assert_eq (len got) (len index_entries);
  assert_eq got index_entries.

Definition all : list (outcome unit) :=
  [data_block_roundtrip_no_compression; data_block_roundtrip_checksum_tamper_detected;
   footer_roundtrip_format_version_7; index_block_roundtrip_delta_encoded_handles; build_sst_smoke_test].
End FormatTests.

(** Every test passes. *)
Theorem unit_tests_pass : Forall (fun t => t = Ok tt) (StrategyTests.all ++ CmpTests.all ++ OracleTests.all).
Proof. apply (bool_decide_unpack _). vm_compute. exact I. Qed.

Theorem integration_tests_pass : Forall (fun t => t = Ok tt) (MergeTests.all ++ CompactionTests.all ++ FormatTests.all).
Proof. apply (bool_decide_unpack _). vm_compute. exact I. Qed.
